(* ===== verification/_CoqProject ===== *)
-Q . S2P
Prelude.v
Checked.v
Bytes.v
Hash.v
Model.v
Schedule.v
Codec.v
Framing.v
Transport.v
Sockets.v
Protocol.v
Journal.v
State.v
Transitions.v
Arbitrate.v
Operations.v
Recovery.v
Observe.v
Commandline.v
Coordinator.v
Worker.v
Bench.v
Inspect.v
Fixture.v
Rehearsal.v
Ranking.v
Invariants.v
Frames.v
Capacity.v
Bounds.v
Rounds.v
Random.v
Doubles.v
Population.v
Ledger.v
Canon.v
System.v
Lease.v
Authority.v
Completion.v
Epoch.v
Replay.v
Durability.v
Measurement.v
Checkpoint.v
Inspection.v
Reports.v
Supervision.v
Progress.v
