(* ===== verification/Prelude.v ===== *)
(** * Flow Scheduler: a verification library

    Flow Scheduler is a C++ runtime that arbitrates service among flows.  A
    scheduler admits flows bound to resources, reservations and classes; rounds
    of arbitration issue schedules; a schedule entry is dispatched to a worker
    under a ticket, which opens an attempt; a completion report closes the
    attempt and credits the flow.  Epochs fence old authority, and a journal with
    snapshots makes the state durable.  A coordinator process owns a scheduler and
    talks to worker processes over framed TCP connections.

    This library models the runtime and its two processes as executable functions
    and proves what makes them correct.  Paths below are relative to the
    repository root.

    ** The program and its models

    Foundations
    - Prelude.v: machine words, [Result], the state-and-error monad [M] in which a
      failing method keeps the mutations it already made, its weakest-precondition
      rules [wp], record update, ordered walks over maps.
    - Checked.v: error codes, checked arithmetic, identities, provenance and ticks
      (include/flow_scheduler/error.hpp, checked.hpp, identity.hpp, time.hpp).
    - Bytes.v, Hash.v: bytes; CRC-32C, FNV-1a, the digest accumulator, SplitMix64
      (src/hash.cpp).  Random.v: the generator's rejection loop ends.  Doubles.v:
      the float conversions of the benchmark are defined.
    - Model.v, Schedule.v: descriptors, lifecycle, policy, schedules, tickets,
      evidence and reports, each with validation and digest (src/model.cpp,
      src/schedule.cpp, src/dispatch.cpp, src/accounting.cpp, src/explain.cpp).

    Storage and wire
    - Codec.v: [RecordWriter], [RecordReader] and every record body, with the
      [Codec] class that states its round trip (src/journal.cpp, src/scheduler.cpp).
    - Journal.v: [DurableStore] over files that may fail at every operation: scan,
      open, append, replay, snapshot, compaction (src/journal.cpp).
    - Framing.v, Transport.v, Protocol.v: frames and the accumulator
      (src/framing.cpp); [send_all], [recv_some], [FrameChannel] and
      [wait_readable] over the answers of the operating system (src/transport.cpp);
      the messages, with the [WireMessage] and [WireLaws] classes
      (src/protocol.cpp).
    - Sockets.v: the life of the descriptors behind [Socket] and [Listener]:
      [connect], [bind], [accept], [adopt], [close], moves and destructors over
      the answers of the system calls (src/transport.cpp).

    The scheduler (src/scheduler.cpp)
    - State.v: [Scheduler::Impl] as the record [Impl], with indexes, readiness,
      ranking keys and capacity arithmetic.
    - Transitions.v: every [apply_*] method.
    - Arbitrate.v: one round of arbitration.
    - Operations.v: the public calls; Recovery.v: state image, replay, [recover],
      [create] and [checkpoint].
    - Observe.v: queries, explanations, printed names and renderings.

    The processes
    - Commandline.v: the option parsers of both tools.
    - Coordinator.v: the class [Coordinator] (tools/fs_coordinator.cpp).
    - Worker.v: tools/fs_worker.cpp.
    Both run over the answers of the system calls they make ([accept], [select],
    [recv], [send], the clock); a call that has not been answered parks the
    process.  The scheduler inside a coordinator is an [Impl], and its messages
    are those of Protocol.v.
    - Inspect.v: tools/fs_inspect.cpp, over the files of a directory and the
      [DurableStore] of Journal.v: the lines it prints, its exit status and the
      directory it leaves.
    - Bench.v: the synthetic benchmark (src/bench.cpp, [Rng::next_bool]) with its
      driver (bench/flow_scheduler_bench.cpp) and the version strings
      (src/version.cpp); it drives an [Impl] through the public calls.  A [double]
      is a binary64 of the Standard Library's SpecFloat.

    Fixture.v and Rehearsal.v hold the concrete states the witnesses run on; in
    Rehearsal.v a coordinator and a worker run on each other's bytes.

    ** What the theorems show

    - Scheduler invariants (Invariants.v, Frames.v, Capacity.v, Bounds.v,
      System.v): every state that public calls reach has consistent indexes, never
      over-commits an interval of a resource and respects its bounds.  Rounds.v:
      the schedules of a round are well formed.  Ledger.v: the accounting report
      adds up.  Canon.v: the canonical form of a schedule decides [operator==].
    - Dispatch authority (Lease.v, Authority.v, Completion.v, Epoch.v): Lease.v is
      an abstract specification, a step relation on leases; every public call
      refines it.  Hence one live attempt per flow, attempts that stay closed,
      completions applied once and for the right amount, epochs that fence.
    - Order (Ranking.v): the ranking is a strict total order, sorting is unique,
      a starved flow outranks the others.
    - Durability (Journal.v, Replay.v, Durability.v, Checkpoint.v): whatever a
      crash leaves of the journal, a scheduler that reopens has exactly the accounts
      of the records that survived; checkpoints that fit can be reopened.  Four
      theorems show where the code falls short: a cancelled flow, a checkpoint with
      many attempts, an interrupted checkpoint, an append after a failed flush.
    - Wire (Framing.v, Transport.v, Protocol.v): what is sent arrives, whole and
      in order, or not at all; every message decodes to what was encoded;
      corruption and trailing bytes are refused.
      Sockets.v: descriptors are neither leaked nor shared.
    - Processes (Commandline.v, Reports.v, Supervision.v, Progress.v): numbers and
      options are parsed exactly and in range; a worker's honest report is
      credited end to end; a coordinator in volatile mode, until its main loop
      ends, never leaves an open attempt without a live connection to answer for it;
      its own loops end.
    - Tools (Inspection.v, Population.v, Measurement.v): the inspector reports
      exactly the records a crash left whole and, verifying, changes no file (it may
      create an empty journal where there is none); the
      benchmark ends, its population is one the scheduler admits, and the service
      it reports is the service its flows received.

    ** Fuel and bounds

    Recursion follows the data except in these places.  [scan_loop] gets the length
    of the file as fuel, and every record consumes at least its header.
    [rng_draw] is proved to end within [bound + 1] draws; the [draws] parameter of
    the coordinator and of the benchmark is at least that in their theorems (at
    most 2^32 + 1, the scale of [next_bool]).  [rounds_loop] gets
    [--rounds] turns and [drain_peer] the rest of [kMaxFramesPerDrain], the bounds
    the code itself counts to; Progress.v proves that neither runs out.
    [bench_rounds] counts [max_rounds] down, as its loop does.
    [worker_loop] reads until the connection ends; its fuel bounds the number of
    frames served, no theorem claims that it returns.  Identities are assumed not to be
    exhausted where [ids_left] says so: the scheduler hands out 64-bit identities
    by counting.

    ** Left out

    - The texts of error messages: an error is its code.  The coordinator's
      [error_message] and the iteration order of its [unordered_map] are
      parameters; diagnostics on standard error are counted, not kept.
    - Threads: every method of [Scheduler::Impl] holds the scheduler's one mutex
      throughout, so a concurrent history is a sequence of the calls modelled here
      (three facade methods read the current tick in a critical section of their
      own first, which may be older than the tick their call then finds).
    - The system calls behind sockets, [DurableStore], directory listings and
      clocks: their answers are the input of the models.  A file that was opened is
      read whole, and the removal of a temporary snapshot succeeds.  [shutdown_send] and the
      socket options of src/transport.cpp leave no state the models keep; the
      Windows branches are not followed.
    - Usage texts and the benchmark's printed table; [strtod] is a parameter of
      the driver.  The clock classes of time.hpp: every tick is an argument. *)

From stdpp Require Export prelude gmap strings pretty sorting.
From Stdlib Require Export NArith Lia.
From Stdlib Require Strings.Byte.

#[export] Set Default Goal Selector "!".

(** ** Machine words

    Every [std::uint64_t], [std::uint32_t], ... is an [N]; the functions below
    write out the wrap-around of unsigned C++ arithmetic. *)

Declare Scope fs_scope.
Delimit Scope fs_scope with fs.
Open Scope N_scope.

Definition u64_max : N := 18446744073709551615.
Definition u64_mod : N := 18446744073709551616.
Definition u32_mod : N := 4294967296.
Definition u16_mod : N := 65536.

Definition wrap64 (x : N) : N := x mod u64_mod.
Definition wrap32 (x : N) : N := x mod u32_mod.

(** [x + y] and [x * y] on [std::uint64_t]. *)
Definition add64 (x y : N) : N := wrap64 (x + y).
Definition mul64 (x y : N) : N := wrap64 (x * y).

(** [++counter] on [std::uint64_t] and [std::uint32_t]. *)
Definition incr64 (x : N) : N := wrap64 (x + 1).
Definition incr32 (x : N) : N := wrap32 (x + 1).

(** ** Results

    [Status] and [Result<T>] of error.hpp: a value or an error.  The error is
    polymorphic here; Checked.v instantiates it with [ErrorCode]. *)

Inductive Result (E A : Type) : Type :=
| Ok (a : A)
| Err (e : E).
Arguments Ok {E A} a.
Arguments Err {E A} e.

Definition result_bind {E A B} (r : Result E A) (k : A -> Result E B) : Result E B :=
  match r with
  | Ok a => k a
  | Err e => Err e
  end.

Notation "'let?' x ':=' r 'in' k" := (result_bind r (fun x => k))
  (at level 10, x pattern, r at level 100, k at level 200) : fs_scope.

(** [if (cond) return failure(code);] *)
Definition guard_err {E A} (cond : bool) (e : E) (k : Result E A) : Result E A :=
  if cond then Err e else k.

Notation "'fail_if' c 'with' e ';;' k" := (guard_err c e k)
  (at level 10, c at level 99, e at level 99, k at level 200) : fs_scope.

(** Peels one failed guard off a successful validation at a time. *)
Lemma guard_err_Ok {E A} (c : bool) (e : E) (k : Result E A) (a : A) :
  guard_err c e k = Ok a -> c = false /\ k = Ok a.
Proof. destruct c; simpl; intros H; [discriminate | done]. Qed.

Ltac peel_guards H :=
  repeat (let Hc := fresh "Hg" in apply guard_err_Ok in H as [Hc H]).

(** ** State and errors together

    A method of a C++ object that may return early with an error while the
    mutations it already made stay in place: the state is returned on both
    branches. *)

Definition M (E S A : Type) : Type := S -> S * Result E A.

Definition ret {E S A} (a : A) : M E S A := fun s => (s, Ok a).
Definition throw {E S A} (e : E) : M E S A := fun s => (s, Err e).
Definition bind {E S A B} (m : M E S A) (k : A -> M E S B) : M E S B :=
  fun s => match m s with
           | (s', Ok a) => k a s'
           | (s', Err e) => (s', Err e)
           end.
Definition get {E S} : M E S S := fun s => (s, Ok s).
Definition modify {E S} (f : S -> S) : M E S unit := fun s => (f s, Ok tt).
Definition lift {E S A} (r : Result E A) : M E S A := fun s => (s, r).
Definition guard {E S} (cond : bool) (e : E) : M E S unit :=
  if cond then throw e else ret tt.

Notation "'let*' x ':=' m 'in' k" := (bind m (fun x => k))
  (at level 10, x pattern, m at level 100, k at level 200) : fs_scope.
Notation "m ';;;' k" := (bind m (fun _ => k))
  (at level 200, right associativity) : fs_scope.
Notation "'reject_if' c 'with' e ';;' k" := (bind (guard c e) (fun _ => k))
  (at level 10, c at level 99, e at level 99, k at level 200) : fs_scope.

Open Scope fs_scope.

Definition exec {E S A} (m : M E S A) (s : S) : S := fst (m s).
Definition outcome {E S A} (m : M E S A) (s : S) : Result E A := snd (m s).

(** A pointwise relation that every run of a method respects, whatever it
    returns: [P s s'] relates the states before and after. *)
Definition respects {E S A} (P : S -> S -> Prop) (m : M E S A) : Prop :=
  forall s, P s (exec m s).

(** Weakest preconditions: [Q] must hold after a normal return, [X] after an
    early return with an error. *)
Definition wp {E S A} (m : M E S A) (Q : A -> S -> Prop) (X : E -> S -> Prop) (s : S) : Prop :=
  match m s with
  | (s', Ok a) => Q a s'
  | (s', Err e) => X e s'
  end.

Section Wp.
Context {E S A B : Type} (Q : A -> S -> Prop) (X : E -> S -> Prop) (s : S).

Lemma wp_bind (m : M E S B) (k : B -> M E S A) :
  wp (bind m k) Q X s <-> wp m (fun b => wp (k b) Q X) X s.
Proof. unfold wp, bind. by destruct (m s) as [s' [b|e]]. Qed.

Lemma wp_ret a : wp (ret a) Q X s <-> Q a s.
Proof. done. Qed.

Lemma wp_throw e : wp (throw e) Q X s <-> X e s.
Proof. done. Qed.

Lemma wp_lift r : wp (lift r) Q X s <-> match r with Ok a => Q a s | Err e => X e s end.
Proof. unfold wp, lift. by destruct r. Qed.

Lemma wp_conseq (m : M E S A) (Q' : A -> S -> Prop) (X' : E -> S -> Prop) :
  wp m Q X s -> (forall a s', Q a s' -> Q' a s') -> (forall e s', X e s' -> X' e s') ->
  wp m Q' X' s.
Proof. unfold wp. destruct (m s) as [s' [a|e]]; auto. Qed.
End Wp.

Lemma wp_get {E S} (Q : S -> S -> Prop) (X : E -> S -> Prop) s : wp get Q X s <-> Q s s.
Proof. done. Qed.

Lemma wp_modify {E S} f (Q : unit -> S -> Prop) (X : E -> S -> Prop) s :
  wp (modify f) Q X s <-> Q tt (f s).
Proof. done. Qed.

Lemma wp_guard {E S} c e (Q : unit -> S -> Prop) (X : E -> S -> Prop) s :
  wp (guard c e) Q X s <-> if c then X e s else Q tt s.
Proof. unfold guard. by destruct c. Qed.

Lemma wp_exec {E S A} (P : S -> Prop) (m : M E S A) s :
  wp m (fun _ => P) (fun _ => P) s <-> P (exec m s).
Proof. unfold wp, exec. by destruct (m s) as [s' [a|e]]. Qed.

(** Runs a method symbolically, one primitive at a time. *)
Ltac wp_step :=
  first
    [ rewrite wp_bind | rewrite wp_get | rewrite wp_modify | rewrite wp_guard
    | rewrite wp_lift | rewrite wp_ret | rewrite wp_throw ].

(** ** Record update

    [r <| field := v |>] is [r] with one field replaced, for every record with
    an [Eta] instance listing its projections. *)

Class Eta (R : Type) : Type := eta : R -> R.
Class Upd {R T : Type} (proj : R -> T) : Type := upd : (T -> T) -> R -> R.
Arguments upd {R T} proj {_} f r : simpl never.

Ltac derive_upd :=
  lazymatch goal with
  | |- @Upd ?R ?T ?proj =>
      let f := fresh "f" in
      let r := fresh "r" in
      refine (fun (f : T -> T) (r : R) => _);
      let e := eval hnf in (@eta R _ r) in
      let p := eval pattern (proj r) in e in
      lazymatch p with
      | ?g _ => let b := eval cbv beta in (g (f (proj r))) in exact b
      end
  end.

#[export] Hint Extern 1 (Upd _) => derive_upd : typeclass_instances.

Notation "r <| proj := v |>" := (upd proj (fun _ => v) r)
  (at level 1, left associativity, proj at level 9) : fs_scope.
Notation "r <| proj ::= f |>" := (upd proj f r)
  (at level 1, left associativity, proj at level 9) : fs_scope.

(** Reduces [proj (r <| field := v |>)] and leaves every other update alone.
    Each step rewrites with an equation proved for an arbitrary record, so that
    a tower of updates is never unfolded to compare its levels. *)
Ltac upd_step p lhs r eqn :=
  pattern lhs;
  match goal with |- ?P _ => refine (eq_ind_r P _ (eqn r)) end;
  cbv beta.

Ltac upd_simpl_goal :=
  repeat match goal with
    | |- context [?p (@upd ?R ?T ?p ?i ?f ?r)] =>
        upd_step p (p (@upd R T p i f r)) r
          (fun x : R => @eq_refl T (f (p x)) : p (@upd R T p i f x) = f (p x))
    | |- context [?p (@upd ?R ?T ?q ?i ?f ?r)] =>
        upd_step p (p (@upd R T q i f r)) r
          (fun x : R => eq_refl (p x) : p (@upd R T q i f x) = p x)
    end.

Ltac upd_simpl_in H :=
  repeat match type of H with
    | context [?p (@upd ?R ?T ?p ?i ?f ?r)] =>
        change (p (@upd R T p i f r)) with (f (p r)) in H; cbv beta in H
    | context [?p (@upd ?R ?T ?q ?i ?f ?r)] =>
        change (p (@upd R T q i f r)) with (p r) in H
    end.

Tactic Notation "upd_simpl" := upd_simpl_goal.
Tactic Notation "upd_simpl" "in" hyp(H) := upd_simpl_in H.

(** ** Ordered iteration

    [std::map] and [std::set] iterate in ascending key order. *)

Definition set_elems (X : gset N) : list N := merge_sort N.le (elements X).
Definition map_keys {V} (m : gmap N V) : list N := set_elems (dom m).
Definition map_entries {V} (m : gmap N V) : list (N * V) :=
  omap (fun k => v ← m !! k; Some (k, v)) (map_keys m).

#[export] Instance N_le_total : Total N.le.
Proof. intros x y. lia. Qed.

Lemma set_elems_perm X : set_elems X ≡ₚ elements X.
Proof. apply merge_sort_Permutation. Qed.

Lemma elem_of_set_elems X x : x ∈ set_elems X <-> x ∈ X.
Proof. rewrite set_elems_perm. apply elem_of_elements. Qed.

Lemma NoDup_set_elems X : NoDup (set_elems X).
Proof. rewrite set_elems_perm. apply NoDup_elements. Qed.

Lemma set_elems_sorted X : StronglySorted N.le (set_elems X).
Proof. apply StronglySorted_merge_sort; apply _. Qed.

Lemma elem_of_map_keys {V} (m : gmap N V) k : k ∈ map_keys m <-> is_Some (m !! k).
Proof. unfold map_keys. by rewrite elem_of_set_elems, elem_of_dom. Qed.

Lemma NoDup_map_keys {V} (m : gmap N V) : NoDup (map_keys m).
Proof. apply NoDup_set_elems. Qed.

Lemma elem_of_map_entries {V} (m : gmap N V) k v :
  (k, v) ∈ map_entries m <-> m !! k = Some v.
Proof.
  unfold map_entries. rewrite list_elem_of_omap. split.
  - intros (k' & _ & Hk). destruct (m !! k') as [v'|] eqn:E; naive_solver.
  - intros Hk. exists k. rewrite elem_of_map_keys, Hk. naive_solver.
Qed.

Lemma map_entries_keys {V} (m : gmap N V) : (map_entries m).*1 = map_keys m.
Proof.
  unfold map_entries.
  assert (forall l, (forall k, k ∈ l -> is_Some (m !! k)) ->
    (omap (fun k => v ← m !! k; Some (k, v)) l).*1 = l) as H.
  { induction l as [|k l IH]; intros Hl; [done|]. cbn [omap list_omap].
    destruct (Hl k) as [v Hv]; [apply list_elem_of_here|]. rewrite Hv. cbn.
    f_equal. apply IH. intros k' Hk'. by apply Hl, list_elem_of_further. }
  apply H. intros k. by rewrite elem_of_map_keys.
Qed.

Lemma NoDup_map_entries {V} (m : gmap N V) : NoDup (map_entries m).*1.
Proof. rewrite map_entries_keys. apply NoDup_map_keys. Qed.

Lemma length_map_entries {V} (m : gmap N V) : length (map_entries m) = size m.
Proof.
  rewrite <- (length_fmap fst), map_entries_keys. unfold map_keys, set_elems.
  rewrite merge_sort_Permutation. change (length (elements (dom m))) with (size (dom m)).
  apply size_dom.
Qed.

(** ** Folds *)

Lemma foldl_inv {A B} (P : A -> Prop) (f : A -> B -> A) (l : list B) (a : A) :
  P a -> (forall a b, b ∈ l -> P a -> P (f a b)) -> P (foldl f a l).
Proof.
  revert a. induction l as [|b l IH]; intros a Ha Hf; simpl; [done|].
  apply IH.
  - apply Hf; [apply list_elem_of_here | done].
  - intros a' b' Hb. apply Hf. by apply list_elem_of_further.
Qed.

Lemma foldl_rel {A B} (R : A -> A -> Prop) `{!PreOrder R} (f : A -> B -> A) (l : list B) a :
  (forall a b, b ∈ l -> R a (f a b)) -> R a (foldl f a l).
Proof.
  revert a. induction l as [|b l IH]; intros a Hf; simpl; [done|].
  transitivity (f a b).
  - apply Hf, list_elem_of_here.
  - apply IH. intros a' b' Hb. apply Hf. by apply list_elem_of_further.
Qed.
