(* ===== verification/Checked.v ===== *)
(** * Error codes, checked arithmetic, time and identities

    Models include/flow_scheduler/error.hpp (the codes and their two
    classifiers), checked.hpp and src/checked.cpp (checked and saturating
    64-bit arithmetic), time.hpp (the tick sentinels) and identity.hpp (the
    identity families, [advance] and [Provenance]).

    An identity [Id<Tag>] is its 64-bit value; the tag only separates the
    families at compile time, so every family is a synonym of [N].  The
    message text of an [Error] is not modelled: an error is its code. *)

From S2P Require Import Prelude.

(** ** error.hpp *)

Inductive ErrorCode : Set :=
| EOk
| InvalidArgument | OutOfRange | ArithmeticOverflow | Bounded | Unsupported | Internal
| NotFound | AlreadyExists | UnknownFlow | UnknownSchedule | UnknownResource
| UnknownReservation | UnknownAttempt | UnknownPolicy | UnknownWorker
| StaleFlowGeneration | StalePathGeneration | StaleResourceGeneration
| StaleReservationGeneration | StalePolicyGeneration | StaleQoSGeneration
| StalePriorityGeneration | StaleScheduleGeneration | StaleEpoch | StaleAttempt
| StaleAuthority | Fenced
| InvalidState | NotReady | NotReleased | DependencyUnsatisfied | CapacityUnavailable
| ReservationClosed | EReservationExhausted | DeadlinePassed | ECancelled | ZeroQuantum
| ConcurrencyLimit | NotPreemptible | EPreemptionThrottled
| DuplicateCompletion | ContradictoryCompletion | CompletionForClosedAttempt
| AmbiguousOutcome
| CorruptData | Truncated | Oversized | SequenceGap | IoFailure | TransportFailure
| PeerClosed | HandshakeRejected | ProtocolViolation | Busy.

#[export] Instance ErrorCode_eq_dec : EqDecision ErrorCode.
Proof. solve_decision. Defined.

(** The numeric values of the enumerators. *)
Definition error_code_value (c : ErrorCode) : N :=
  match c with
  | EOk => 0
  | InvalidArgument => 1 | OutOfRange => 2 | ArithmeticOverflow => 3 | Bounded => 4
  | Unsupported => 5 | Internal => 6
  | NotFound => 7 | AlreadyExists => 8 | UnknownFlow => 9 | UnknownSchedule => 10
  | UnknownResource => 11 | UnknownReservation => 12 | UnknownAttempt => 13
  | UnknownPolicy => 14 | UnknownWorker => 15
  | StaleFlowGeneration => 20 | StalePathGeneration => 21 | StaleResourceGeneration => 22
  | StaleReservationGeneration => 23 | StalePolicyGeneration => 24 | StaleQoSGeneration => 25
  | StalePriorityGeneration => 26 | StaleScheduleGeneration => 27 | StaleEpoch => 28
  | StaleAttempt => 29 | StaleAuthority => 30 | Fenced => 31
  | InvalidState => 40 | NotReady => 41 | NotReleased => 42 | DependencyUnsatisfied => 43
  | CapacityUnavailable => 44 | ReservationClosed => 45 | EReservationExhausted => 46
  | DeadlinePassed => 47 | ECancelled => 48 | ZeroQuantum => 49 | ConcurrencyLimit => 50
  | NotPreemptible => 51 | EPreemptionThrottled => 52
  | DuplicateCompletion => 60 | ContradictoryCompletion => 61
  | CompletionForClosedAttempt => 62 | AmbiguousOutcome => 63
  | CorruptData => 70 | Truncated => 71 | Oversized => 72 | SequenceGap => 73
  | IoFailure => 74 | TransportFailure => 75 | PeerClosed => 76 | HandshakeRejected => 77
  | ProtocolViolation => 78 | Busy => 79
  end.

Definition is_transient (c : ErrorCode) : bool :=
  match c with
  | NotReady | NotReleased | DependencyUnsatisfied | CapacityUnavailable
  | ReservationClosed | EReservationExhausted | ConcurrencyLimit
  | EPreemptionThrottled | Busy => true
  | _ => false
  end.

Definition is_staleness (c : ErrorCode) : bool :=
  match c with
  | StaleFlowGeneration | StalePathGeneration | StaleResourceGeneration
  | StaleReservationGeneration | StalePolicyGeneration | StaleQoSGeneration
  | StalePriorityGeneration | StaleScheduleGeneration | StaleEpoch | StaleAttempt
  | StaleAuthority | Fenced | CompletionForClosedAttempt => true
  | _ => false
  end.

Abbreviation Res := (Result ErrorCode).
Abbreviation Status := (Result ErrorCode unit).

Lemma error_code_value_inj c1 c2 : error_code_value c1 = error_code_value c2 -> c1 = c2.
Proof. destruct c1, c2; simpl; intros H; (reflexivity || discriminate H). Qed.

(** ** checked.hpp, checked.cpp *)

Definition checked_add (a b : N) : Res N :=
  fail_if (u64_max - b <? a) with ArithmeticOverflow ;; Ok (a + b).

Definition checked_sub (a b : N) : Res N :=
  fail_if (a <? b) with ArithmeticOverflow ;; Ok (a - b).

Definition checked_mul (a b : N) : Res N :=
  fail_if (negb (a =? 0) && (u64_max / a <? b)) with ArithmeticOverflow ;; Ok (a * b).

Definition checked_add3 (a b c : N) : Res N :=
  let? partial := checked_add a b in checked_add partial c.

Definition checked_mul3 (a b c : N) : Res N :=
  let? partial := checked_mul a b in checked_mul partial c.

(** [saturating_add] of checked.hpp and its copy [saturating_add_u64] in
    scheduler.cpp. *)
Definition saturating_add (a b : N) : N := if u64_max - a <? b then u64_max else a + b.
Definition saturating_sub (a b : N) : N := if a <? b then 0 else a - b.

Definition checked_next (limit value : N) : Res N :=
  fail_if (value =? limit) with ArithmeticOverflow ;; Ok (value + 1).

(** An integral type: signedness and range.  [static_cast] keeps the value
    modulo the width. *)
Record int_type := IntType { it_signed : bool; it_min : Z; it_max : Z }.

Definition static_cast (t : int_type) (v : Z) : Z :=
  ((v - it_min t) mod (it_max t - it_min t + 1) + it_min t)%Z.

Definition uint64_t : int_type := IntType false 0 18446744073709551615.

Definition checked_narrow (from to : int_type) (value : Z) : Res Z :=
  if eqb (it_signed from) (it_signed to) then
    if (value <? static_cast from (it_min to))%Z || (static_cast from (it_max to) <? value)%Z
    then Err OutOfRange
    else Ok (static_cast to value)
  else if it_signed from then
    if (value <? 0)%Z then Err OutOfRange
    else let unsigned_value := static_cast uint64_t value in
         if (static_cast uint64_t (it_max to) <? unsigned_value)%Z then Err OutOfRange
         else Ok (static_cast to unsigned_value)
  else
    let unsigned_value := static_cast uint64_t value in
    if (static_cast uint64_t (it_max to) <? unsigned_value)%Z then Err OutOfRange
    else Ok (static_cast to unsigned_value).

(** ** time.hpp *)

Abbreviation Ticks := N (only parsing).

Definition kNoDeadline : Ticks := u64_max.
Definition kReleasedImmediately : Ticks := 0.
Definition kNoWindowBound : Ticks := u64_max.

Definition has_deadline (deadline : Ticks) : bool := negb (deadline =? kNoDeadline).
Definition ticks_between (earlier later : Ticks) : Ticks :=
  if later <? earlier then 0 else later - earlier.

(** ** identity.hpp *)

Abbreviation FlowId := N (only parsing).
Abbreviation ScheduleId := N (only parsing).
Abbreviation DispatchAttemptId := N (only parsing).
Abbreviation ResourceId := N (only parsing).
Abbreviation PathId := N (only parsing).
Abbreviation ReservationId := N (only parsing).
Abbreviation PriorityClassId := N (only parsing).
Abbreviation QoSClassId := N (only parsing).
Abbreviation PolicyId := N (only parsing).
Abbreviation FabricEpoch := N (only parsing).
Abbreviation WorkerId := N (only parsing).
Abbreviation BootId := N (only parsing).
Abbreviation Generation := N (only parsing).
Abbreviation FairnessGroupId := N (only parsing).
Abbreviation TraceId := N (only parsing).

(** [Id::valid()]: the value 0 is the unbound sentinel. *)
Definition id_valid (i : N) : bool := negb (i =? 0).

(** [advance]: the next generation, epoch or identity, failing at the limit. *)
Definition advance (current : N) : Res N := checked_next u64_max current.

Inductive ProvenanceOrigin : Set :=
| OUnknown | OExternal | OInternal | ORecovered | OSynthetic.

#[export] Instance ProvenanceOrigin_eq_dec : EqDecision ProvenanceOrigin.
Proof. solve_decision. Defined.

Definition origin_value (o : ProvenanceOrigin) : N :=
  match o with
  | OUnknown => 0 | OExternal => 1 | OInternal => 2 | ORecovered => 3 | OSynthetic => 4
  end.

Definition origin_of_value (v : N) : option ProvenanceOrigin :=
  match v with
  | 0 => Some OUnknown | 1 => Some OExternal | 2 => Some OInternal
  | 3 => Some ORecovered | 4 => Some OSynthetic
  | _ => None
  end.

Record Provenance := mkProvenance {
  pv_origin : ProvenanceOrigin;
  pv_sequence : N;
  pv_digest : N }.

Definition default_provenance : Provenance := mkProvenance OUnknown 0 0.

Definition established (p : Provenance) : bool :=
  negb (bool_decide (pv_origin p = OUnknown)).
Definition authoritative (p : Provenance) : bool :=
  bool_decide (pv_origin p = OExternal) || bool_decide (pv_origin p = OInternal).

(** ** Facts *)

Definition u64 (x : N) : Prop := x <= u64_max.

(** Unfolds the width constants and the boolean comparisons, then decides. *)
Ltac word_solve :=
  unfold u64, u64_max, u64_mod in *;
  repeat match goal with
    | |- context [N.ltb ?a ?b] => destruct (N.ltb_spec a b)
    | |- context [N.leb ?a ?b] => destruct (N.leb_spec a b)
    | |- context [N.eqb ?a ?b] => destruct (N.eqb_spec a b)
    | H : context [N.ltb ?a ?b] |- _ => destruct (N.ltb_spec a b)
    | H : context [N.leb ?a ?b] |- _ => destruct (N.leb_spec a b)
    | H : context [N.eqb ?a ?b] |- _ => destruct (N.eqb_spec a b)
    end; simpl in *; try congruence; try lia.

Section CheckedArithmetic.
Context (a b : N) (Ha : u64 a) (Hb : u64 b).

Lemma checked_add_spec :
  checked_add a b = if a + b <=? u64_max then Ok (a + b) else Err ArithmeticOverflow.
Proof. unfold checked_add, guard_err. word_solve. Qed.

Lemma checked_sub_spec :
  checked_sub a b = if b <=? a then Ok (a - b) else Err ArithmeticOverflow.
Proof. unfold checked_sub, guard_err. word_solve. Qed.

Lemma checked_mul_spec :
  checked_mul a b = if a * b <=? u64_max then Ok (a * b) else Err ArithmeticOverflow.
Proof.
  unfold checked_mul, guard_err.
  destruct (N.eqb_spec a 0) as [->|Ha0]; [reflexivity|]. simpl.
  destruct (N.ltb_spec (u64_max / a) b) as [Hlt|Hle], (N.leb_spec (a * b) u64_max) as [Hm|Hm];
    try reflexivity; exfalso.
  - apply N.div_le_lower_bound in Hm; lia.
  - pose proof (N.Div0.mul_div_le u64_max a). nia.
Qed.

Lemma saturating_add_min : saturating_add a b = N.min (a + b) u64_max.
Proof. unfold saturating_add. word_solve. Qed.
End CheckedArithmetic.

Lemma saturating_add_u64 a b : u64 a -> u64 b -> u64 (saturating_add a b).
Proof. intros Ha Hb. unfold saturating_add. word_solve. Qed.

Lemma saturating_add_ge_l a b : u64 a -> a <= saturating_add a b.
Proof. intros Ha. unfold saturating_add. word_solve. Qed.

Lemma saturating_add_mono a a' b b' :
  u64 a' -> a <= a' -> b <= b' -> saturating_add a b <= saturating_add a' b'.
Proof. intros. unfold saturating_add. word_solve. Qed.

Lemma saturating_add_le a b : u64 a -> saturating_add a b <= a + b.
Proof. intros. unfold saturating_add. word_solve. Qed.

Lemma saturating_add_exact a b : a + b <= u64_max -> saturating_add a b = a + b.
Proof. intros. unfold saturating_add. word_solve. Qed.

Lemma advance_spec g : u64 g ->
  advance g = if g <? u64_max then Ok (g + 1) else Err ArithmeticOverflow.
Proof. intros. unfold advance, checked_next, guard_err. word_solve. Qed.

Lemma advance_lt g : g < u64_max -> advance g = Ok (g + 1).
Proof. intros. unfold advance, checked_next, guard_err. destruct (N.eqb_spec g u64_max); [lia | done]. Qed.

Lemma advance_Ok g g' : advance g = Ok g' -> g' = g + 1 /\ id_valid g' = true.
Proof.
  unfold advance, checked_next, guard_err, id_valid.
  destruct (g =? u64_max); intros [= <-]. split; [done|].
  destruct (N.eqb_spec (g + 1) 0); [lia | done].
Qed.

Lemma origin_value_roundtrip o : origin_of_value (origin_value o) = Some o.
Proof. by destruct o. Qed.

Lemma id_valid_true i : id_valid i = true <-> i <> 0.
Proof. unfold id_valid. destruct (N.eqb_spec i 0); naive_solver. Qed.

Lemma id_valid_false i : id_valid i = false <-> i = 0.
Proof. unfold id_valid. destruct (N.eqb_spec i 0); naive_solver. Qed.

Create HintDb fs discriminated.
#[export] Hint Resolve saturating_add_u64 saturating_add_ge_l : fs.

(** Checked arithmetic never wraps: on 64-bit operands every checked operation
    returns the exact mathematical result when it fits in 64 bits and
    [ArithmeticOverflow] when it does not. *)
Theorem checked_ops_exact (a b : N) (Ha : u64 a) (Hb : u64 b) :
  checked_add a b = (if a + b <=? u64_max then Ok (a + b) else Err ArithmeticOverflow) /\
  checked_sub a b = (if b <=? a then Ok (a - b) else Err ArithmeticOverflow) /\
  checked_mul a b = (if a * b <=? u64_max then Ok (a * b) else Err ArithmeticOverflow) /\
  saturating_add a b = N.min (a + b) u64_max /\
  saturating_sub a b = a - b /\
  advance a = (if a <? u64_max then Ok (a + 1) else Err ArithmeticOverflow).
Proof.
  repeat split.
  - by apply checked_add_spec.
  - by apply checked_sub_spec.
  - by apply checked_mul_spec.
  - by apply saturating_add_min.
  - unfold saturating_sub. word_solve.
  - by apply advance_spec.
Qed.
