(* ===== verification/Bytes.v ===== *)
(** * Bytes and little-endian words

    The [encode_u16_le] / [decode_u16_le] family that src/journal.cpp and
    src/framing.cpp each define in an anonymous namespace, over byte strings. *)

From S2P Require Import Prelude.

Abbreviation byte := Byte.byte.
Abbreviation bytes := (list byte).

#[export] Instance byte_eq_decision : EqDecision byte := Byte.byte_eq_dec.

Definition byte_val (b : byte) : N := Byte.to_N b.

(** [static_cast<char>(value & 0xFF)] *)
Definition byte_of (n : N) : byte := default Byte.x00 (Byte.of_N (N.land n 255)).

(** [out[i] = (value >> (8 * i)) & 0xFF] for [i < width]. *)
Definition encode_le (width : nat) (value : N) : bytes :=
  (fun i => byte_of (N.shiftr value (8 * N.of_nat i))) <$> seq 0 width.

(** [value |= in[i] << (8 * i)], over all the bytes given. *)
Definition decode_le (l : bytes) : N :=
  foldr N.lor 0 (imap (fun i b => N.shiftl (byte_val b) (8 * N.of_nat i)) l).

Definition encode_u16_le : N -> bytes := encode_le 2.
Definition encode_u32_le : N -> bytes := encode_le 4.
Definition encode_u64_le : N -> bytes := encode_le 8.

(** The decoders read a fixed number of bytes at the front of their input. *)
Definition decode_u16_le (l : bytes) : N := decode_le (take 2 l).
Definition decode_u32_le (l : bytes) : N := decode_le (take 4 l).
Definition decode_u64_le (l : bytes) : N := decode_le (take 8 l).

(** [std::string] contents as bytes. *)
Definition string_bytes (s : string) : bytes := String.list_byte_of_string s.
Definition bytes_string (l : bytes) : string := String.string_of_list_byte l.

Lemma length_string_bytes s : length (string_bytes s) = String.length s.
Proof.
  unfold string_bytes. induction s as [|c s IH]; [done|].
  cbn. f_equal. exact IH.
Qed.

Lemma bytes_string_bytes s : bytes_string (string_bytes s) = s.
Proof. apply String.string_of_list_byte_of_string. Qed.

Lemma byte_val_lt b : byte_val b < 256.
Proof. unfold byte_val. pose proof (Byte.to_N_bounded b). lia. Qed.

Lemma byte_val_of n : byte_val (byte_of n) = N.land n 255.
Proof.
  unfold byte_val, byte_of.
  assert (N.land n 255 < 256) as Hlt.
  { change 255 with (N.ones 8). rewrite N.land_ones. apply N.mod_lt. done. }
  destruct (Byte.of_N (N.land n 255)) as [b|] eqn:E; simpl.
  - by apply Byte.to_of_N.
  - apply Byte.of_N_None_iff in E. lia.
Qed.

Lemma byte_of_val b : byte_of (byte_val b) = b.
Proof.
  unfold byte_of. change 255 with (N.ones 8).
  rewrite N.land_ones, N.mod_small by apply byte_val_lt.
  unfold byte_val. by rewrite Byte.of_to_N.
Qed.

Lemma length_encode_le n v : length (encode_le n v) = n.
Proof. unfold encode_le. by rewrite length_fmap, length_seq. Qed.

Lemma encode_le_S n v : encode_le (S n) v = byte_of v :: encode_le n (N.shiftr v 8).
Proof.
  unfold encode_le. rewrite <- cons_seq, fmap_cons. f_equal.
  - rewrite <- fmap_S_seq, <- list_fmap_compose. apply list_fmap_ext. intros _ i _. simpl.
    f_equal. rewrite N.shiftr_shiftr. f_equal. lia.
Qed.

Lemma foldr_lor_shift l (f g : nat -> byte -> N) :
  (forall i b, f i b = N.shiftl (g i b) 8) ->
  foldr N.lor 0 (imap f l) = N.shiftl (foldr N.lor 0 (imap g l)) 8.
Proof.
  revert f g. induction l as [|b l IH]; intros f g Hfg; simpl; [done|].
  rewrite N.shiftl_lor, Hfg. f_equal. apply IH. intros. apply Hfg.
Qed.

Lemma decode_le_cons b l : decode_le (b :: l) = N.lor (byte_val b) (N.shiftl (decode_le l) 8).
Proof.
  unfold decode_le. simpl. rewrite N.shiftl_0_r. f_equal. apply foldr_lor_shift.
  intros i c. simpl. rewrite N.shiftl_shiftl. f_equal. lia.
Qed.

Lemma decode_encode_le n v : decode_le (encode_le n v) = v mod 2 ^ (8 * N.of_nat n).
Proof.
  revert v. induction n as [|n IH]; intros v.
  - simpl. by rewrite N.mod_1_r.
  - rewrite encode_le_S, decode_le_cons, IH, byte_val_of. rewrite <- !N.land_ones.
    change 255 with (N.ones 8). apply N.bits_inj. intros i.
    rewrite N.lor_spec, !N.land_spec.
    destruct (N.lt_ge_cases i 8) as [Hi|Hi].
    + rewrite N.shiftl_spec_low by done. rewrite !N.ones_spec_low by lia.
      by rewrite orb_false_r.
    + rewrite N.shiftl_spec_high by lia. rewrite N.land_spec, N.shiftr_spec by lia.
      rewrite (N.ones_spec_high 8) by lia. rewrite andb_false_r. simpl.
      replace (i - 8 + 8) with i by lia. f_equal.
      destruct (N.lt_ge_cases i (8 * N.of_nat (S n))).
      * rewrite !N.ones_spec_low by lia. done.
      * rewrite !N.ones_spec_high by lia. done.
Qed.

Lemma decode_encode_le_small n v : v < 2 ^ (8 * N.of_nat n) -> decode_le (encode_le n v) = v.
Proof. intros. rewrite decode_encode_le. by apply N.mod_small. Qed.

Lemma decode_u16_app v l : v < u16_mod -> decode_u16_le (encode_u16_le v ++ l) = v.
Proof.
  intros. unfold decode_u16_le, encode_u16_le.
  rewrite take_app_length'; [|by rewrite length_encode_le]. by apply decode_encode_le_small.
Qed.

Lemma decode_u32_app v l : v < u32_mod -> decode_u32_le (encode_u32_le v ++ l) = v.
Proof.
  intros. unfold decode_u32_le, encode_u32_le.
  rewrite take_app_length'; [|by rewrite length_encode_le]. by apply decode_encode_le_small.
Qed.

Lemma decode_u64_app v l : v < u64_mod -> decode_u64_le (encode_u64_le v ++ l) = v.
Proof.
  intros. unfold decode_u64_le, encode_u64_le.
  rewrite take_app_length'; [|by rewrite length_encode_le]. by apply decode_encode_le_small.
Qed.

Lemma lor_shiftl_8 (x y : N) : x < 256 -> N.land (N.lor x (N.shiftl y 8)) 255 = x.
Proof.
  intros Hx. change 255 with (N.ones 8). rewrite N.land_lor_distr_l, !N.land_ones.
  rewrite N.mod_small by done. rewrite N.shiftl_mul_pow2, N.Div0.mod_mul. apply N.lor_0_r.
Qed.

Lemma shiftr_lor_8 (x y : N) : x < 256 -> N.shiftr (N.lor x (N.shiftl y 8)) 8 = y.
Proof.
  intros Hx. rewrite N.shiftr_lor, N.shiftr_shiftl_l by done. rewrite N.shiftl_0_r.
  rewrite N.shiftr_div_pow2, N.div_small by done. apply N.lor_0_l.
Qed.

(** Decoding loses nothing: the bytes of a word are determined by the word. *)
Lemma encode_decode_le (l : bytes) : encode_le (length l) (decode_le l) = l.
Proof.
  induction l as [|b l IH]; [done|].
  cbn [length]. rewrite encode_le_S, decode_le_cons, shiftr_lor_8, IH by apply byte_val_lt.
  f_equal. rewrite <- (byte_of_val b) at 2. unfold byte_of at 1.
  rewrite lor_shiftl_8 by apply byte_val_lt.
  unfold byte_of. change 255 with (N.ones 8).
  by rewrite N.land_ones, N.mod_small by apply byte_val_lt.
Qed.

Lemma decode_le_bound (l : bytes) : decode_le l < 2 ^ (8 * N.of_nat (length l)).
Proof.
  rewrite <- (encode_decode_le l) at 1. rewrite decode_encode_le. apply N.mod_lt.
  apply N.pow_nonzero. done.
Qed.
