(* ===== verification/Hash.v ===== *)
(** * Checksums and digests

    Models include/flow_scheduler/hash.hpp and src/hash.cpp: the table-driven
    CRC-32C, FNV-1a 64, the [Digest64] accumulator, the SplitMix64 finalizer
    and the seeded generator.  The main result is that the byte-at-a-time
    table loop computes the bit-at-a-time reflected CRC. *)

From S2P Require Import Prelude Bytes.

(** ** CRC-32C *)

Definition crc_poly : N := 2197175160.  (* 0x82F63B78 *)
Definition crc_mask : N := 4294967295.  (* 0xFFFFFFFF *)

(** [crc = (crc >> 1) ^ ((crc & 1) != 0 ? poly : 0)] *)
Definition crc_bit (crc : N) : N :=
  N.lxor (N.shiftr crc 1) (if N.testbit crc 0 then crc_poly else 0).

Definition make_crc32c_table : list N :=
  (fun index => Nat.iter 8 crc_bit (N.of_nat index)) <$> seq 0 256.

Definition kCrc32cTable : list N := make_crc32c_table.

Definition crc_table (index : N) : N := default 0 (kCrc32cTable !! N.to_nat index).

Definition crc32c_step (crc : N) (b : byte) : N :=
  N.lxor (crc_table (N.land (N.lxor crc (byte_val b)) 255)) (N.shiftr crc 8).

Definition crc32c_extend (seed : N) (data : bytes) : N :=
  N.lxor (foldl crc32c_step (N.lxor seed crc_mask) data) crc_mask.

Definition crc32c (data : bytes) : N := crc32c_extend 0 data.

(** ** FNV-1a and [Digest64] *)

Definition kFnvOffset : N := 14695981039346656037.  (* 0xCBF29CE484222325 *)
Definition kFnvPrime : N := 1099511628211.          (* 0x00000100000001B3 *)

Definition fnv_byte (state : N) (b : N) : N := mul64 (N.lxor state b) kFnvPrime.

Definition fnv1a64_extend (seed : N) (data : bytes) : N :=
  foldl (fun state b => fnv_byte state (byte_val b)) seed data.

Definition fnv1a64 (data : bytes) : N := fnv1a64_extend kFnvOffset data.

(** [Digest64] is its 64-bit state; each [add_*] folds bytes in little-endian
    order. *)
Definition digest_init : N := kFnvOffset.
Definition add_u8 (value : N) (d : N) : N := fnv_byte d (N.land value 255).
Definition add_le (width : nat) (value : N) (d : N) : N :=
  foldl (fun d i => add_u8 (N.shiftr value (8 * N.of_nat i)) d) d (seq 0 width).
Definition add_u16 : N -> N -> N := add_le 2.
Definition add_u32 : N -> N -> N := add_le 4.
Definition add_u64 : N -> N -> N := add_le 8.
Definition add_bool (value : bool) (d : N) : N := add_u8 (if value then 1 else 0) d.
Definition add_bytes (data : bytes) (d : N) : N :=
  foldl (fun d b => fnv_byte d (byte_val b)) d data.
Definition add_string (text : string) (d : N) : N :=
  add_bytes (string_bytes text) (add_u64 (N.of_nat (length (string_bytes text))) d).

(** Folds a list of 64-bit fields, in order. *)
Definition add_u64s (fields : list N) (d : N) : N := foldl (fun d v => add_u64 v d) d fields.

(** ** SplitMix64 *)

Definition mix64 (value : N) : N :=
  let v1 := add64 value 11400714819323198485 in
  let v2 := mul64 (N.lxor v1 (N.shiftr v1 30)) 13787848793156543929 in
  let v3 := mul64 (N.lxor v2 (N.shiftr v2 27)) 10723151780598845931 in
  N.lxor v3 (N.shiftr v3 31).

Definition rng_next_u64 (state : N) : N * N :=
  let state' := add64 state 11400714819323198485 in (state', mix64 state').

(** The rejection loop of [Rng::next_below], bounded by fuel. *)
Fixpoint rng_draw (fuel : nat) (limit bound state : N) : option (N * N) :=
  match fuel with
  | O => None
  | S fuel =>
      let '(state', draw) := rng_next_u64 state in
      if draw <? limit then Some (state', draw mod bound)
      else rng_draw fuel limit bound state'
  end.

Definition rng_next_below (fuel : nat) (bound state : N) : option (N * N) :=
  if bound =? 0 then Some (state, 0)
  else rng_draw fuel (u64_max - u64_max mod bound) bound state.

Definition rng_next_range (fuel : nat) (low high state : N) : option (N * N) :=
  if high <=? low then Some (state, low)
  else let span := add64 (high - low) 1 in
       '(state', v) ← rng_next_below fuel span state; Some (state', add64 low v).

(** ** The bitwise reference CRC *)

Definition crc32c_ref_step (crc : N) (b : byte) : N :=
  Nat.iter 8 crc_bit (N.lxor crc (byte_val b)).

Definition crc32c_ref (data : bytes) : N :=
  N.lxor (foldl crc32c_ref_step crc_mask data) crc_mask.

Lemma crc_bit_lxor x y : crc_bit (N.lxor x y) = N.lxor (crc_bit x) (crc_bit y).
Proof.
  unfold crc_bit. rewrite N.shiftr_lxor, N.lxor_spec.
  destruct (N.testbit x 0), (N.testbit y 0); simpl; rewrite ?N.lxor_0_r.
  - rewrite (N.lxor_assoc (N.shiftr x 1)), (N.lxor_comm crc_poly), !N.lxor_assoc.
    by rewrite N.lxor_nilpotent, N.lxor_0_r.
  - by rewrite !N.lxor_assoc, (N.lxor_comm _ crc_poly).
  - by rewrite !N.lxor_assoc.
  - done.
Qed.

Lemma crc_iter_lxor n x y :
  Nat.iter n crc_bit (N.lxor x y) = N.lxor (Nat.iter n crc_bit x) (Nat.iter n crc_bit y).
Proof. induction n as [|n IH]; simpl; [done|]. by rewrite IH, crc_bit_lxor. Qed.

(** Shifting out zero bits only shifts. *)
Lemma crc_iter_shiftl n x : Nat.iter n crc_bit (N.shiftl x (N.of_nat n)) = x.
Proof.
  induction n as [|n IH]; [apply N.shiftl_0_r|].
  assert (crc_bit (N.shiftl x (N.of_nat (S n))) = N.shiftl x (N.of_nat n)) as Hstep.
  { unfold crc_bit. rewrite N.shiftl_spec_low by lia. rewrite N.lxor_0_r.
    rewrite N.shiftr_shiftl_l by lia. f_equal. lia. }
  rewrite Nat.iter_succ_r, Hstep. exact IH.
Qed.

Lemma crc_table_iter index : index < 256 -> crc_table index = Nat.iter 8 crc_bit index.
Proof.
  intros Hi. unfold crc_table, kCrc32cTable, make_crc32c_table.
  rewrite list_lookup_fmap, lookup_seq_lt by lia. simpl default. by rewrite N2Nat.id.
Qed.

Lemma split_low_byte x : x = N.lxor (N.land x 255) (N.shiftl (N.shiftr x 8) 8).
Proof.
  change 255 with (N.ones 8). apply N.bits_inj. intros i.
  rewrite N.lxor_spec, N.land_spec. destruct (N.lt_ge_cases i 8).
  - rewrite N.ones_spec_low, N.shiftl_spec_low by lia. by rewrite andb_true_r, xorb_false_r.
  - rewrite N.ones_spec_high, N.shiftl_spec_high, N.shiftr_spec by lia.
    rewrite andb_false_r, xorb_false_l. f_equal. lia.
Qed.

Lemma crc_iter_table x :
  Nat.iter 8 crc_bit x = N.lxor (crc_table (N.land x 255)) (N.shiftr x 8).
Proof.
  rewrite (split_low_byte x) at 1. rewrite crc_iter_lxor.
  change 8 with (N.of_nat 8) at 3. rewrite crc_iter_shiftl, crc_table_iter; [done|].
  change 255 with (N.ones 8). rewrite N.land_ones. by apply N.mod_lt.
Qed.

Lemma crc32c_step_ref crc b : crc32c_step crc b = crc32c_ref_step crc b.
Proof.
  unfold crc32c_step, crc32c_ref_step. rewrite crc_iter_table. f_equal.
  rewrite N.shiftr_lxor.
  assert (N.shiftr (byte_val b) 8 = 0) as ->.
  { rewrite N.shiftr_div_pow2. apply N.div_small, byte_val_lt. }
  by rewrite N.lxor_0_r.
Qed.

Lemma crc32c_foldl_ref (data : bytes) (c : N) :
  foldl crc32c_step c data = foldl crc32c_ref_step c data.
Proof.
  revert c. induction data as [|b data IH]; intros c; simpl; [done|].
  by rewrite IH, crc32c_step_ref.
Qed.

(** C40 The table-driven [crc32c] of every byte string equals the bit-at-a-time
    reflected Castagnoli CRC with initial value and final complement
    0xFFFFFFFF. *)
Theorem crc32c_table_correct (data : bytes) : crc32c data = crc32c_ref data.
Proof.
  unfold crc32c, crc32c_extend, crc32c_ref. f_equal. apply crc32c_foldl_ref.
Qed.


(** Extending a checksum is checksumming the concatenation. *)
Lemma crc32c_extend_app seed a b :
  crc32c_extend seed (a ++ b) = crc32c_extend (crc32c_extend seed a) b.
Proof.
  unfold crc32c_extend. rewrite foldl_app. f_equal. f_equal.
  by rewrite N.lxor_assoc, N.lxor_nilpotent, N.lxor_0_r.
Qed.

Lemma lxor_lt_pow2 a b n : a < 2 ^ n -> b < 2 ^ n -> N.lxor a b < 2 ^ n.
Proof.
  intros Ha Hb. destruct (N.eq_dec (N.lxor a b) 0) as [->|Hne].
  - apply N.neq_0_lt_0. by apply N.pow_nonzero.
  - apply N.log2_lt_pow2; [lia|].
    eapply N.le_lt_trans; [apply N.log2_lxor|].
    destruct (N.eq_dec a 0) as [->|Ha0], (N.eq_dec b 0) as [->|Hb0].
    + done.
    + rewrite N.max_r by (simpl; lia). apply N.log2_lt_pow2; lia.
    + rewrite N.max_l by (simpl; lia). apply N.log2_lt_pow2; lia.
    + apply N.max_lub_lt; apply N.log2_lt_pow2; lia.
Qed.

Lemma crc_bit_bound x : x < 2 ^ 32 -> crc_bit x < 2 ^ 32.
Proof.
  intros Hx. unfold crc_bit. apply lxor_lt_pow2.
  - rewrite N.shiftr_div_pow2. apply N.Div0.div_lt_upper_bound. simpl in *. lia.
  - destruct (N.testbit x 0); done.
Qed.

Lemma crc32c_ref_step_bound x b : x < 2 ^ 32 -> crc32c_ref_step x b < 2 ^ 32.
Proof.
  intros Hx. unfold crc32c_ref_step.
  assert (N.lxor x (byte_val b) < 2 ^ 32) as H.
  { apply lxor_lt_pow2; [done|]. pose proof (byte_val_lt b). simpl. lia. }
  revert H. generalize (N.lxor x (byte_val b)) as y. intros y Hy.
  do 8 (apply crc_bit_bound in Hy). exact Hy.
Qed.

(** Every checksum is a 32-bit word, so [encode_u32_le] stores it whole. *)
Lemma crc32c_bound data : crc32c data < u32_mod.
Proof.
  unfold crc32c, crc32c_extend. rewrite crc32c_foldl_ref. change u32_mod with (2 ^ 32).
  apply lxor_lt_pow2; [|done].
  apply (foldl_inv (fun c => c < 2 ^ 32)); [done|].
  intros c b _ Hc. by apply crc32c_ref_step_bound.
Qed.

(** ** Error detection

    One step of the register loses no information, so two byte strings of the
    same length that differ in one byte have different checksums. *)

Lemma lxor_eq_0_iff x y : N.lxor x y = 0 <-> x = y.
Proof. split; [apply N.lxor_eq|]. intros ->. apply N.lxor_nilpotent. Qed.

Lemma crc_bit_zero x : x < 2 ^ 32 -> crc_bit x = 0 -> x = 0.
Proof.
  intros Hx H. unfold crc_bit in H. apply N.lxor_eq in H.
  assert (N.shiftr x 1 < 2 ^ 31) as Hs.
  { rewrite N.shiftr_div_pow2. apply N.Div0.div_lt_upper_bound. simpl in *. lia. }
  destruct (N.testbit x 0) eqn:Hb.
  - rewrite H in Hs. vm_compute in Hs. discriminate.
  - rewrite N.shiftr_div_pow2 in H. rewrite N.bit0_odd in Hb.
    pose proof (N.div_mod x 2 ltac:(done)) as Hd. change (2 ^ 1) with 2 in H.
    pose proof (N.bit0_mod x) as Hm. rewrite N.bit0_odd, Hb in Hm. simpl in Hm. lia.
Qed.

Lemma crc_iter_zero n x : x < 2 ^ 32 -> Nat.iter n crc_bit x = 0 -> x = 0.
Proof.
  intros Hx. assert (forall m, Nat.iter m crc_bit x < 2 ^ 32) as Hb.
  { induction m as [|m IH]; [done|]. by apply crc_bit_bound. }
  induction n as [|n IH]; [done|]. simpl. intros H. apply IH, crc_bit_zero; [apply Hb | done].
Qed.

Lemma crc32c_ref_step_differ c1 c2 b1 b2 :
  c1 < 2 ^ 32 -> c2 < 2 ^ 32 ->
  crc32c_ref_step c1 b1 = crc32c_ref_step c2 b2 ->
  N.lxor c1 (byte_val b1) = N.lxor c2 (byte_val b2).
Proof.
  intros H1 H2 H. apply lxor_eq_0_iff. apply (crc_iter_zero 8).
  - pose proof (byte_val_lt b1). pose proof (byte_val_lt b2).
    repeat apply lxor_lt_pow2; simpl in *; lia.
  - rewrite crc_iter_lxor. by apply lxor_eq_0_iff.
Qed.

Lemma byte_val_inj b1 b2 : byte_val b1 = byte_val b2 -> b1 = b2.
Proof. intros H. by rewrite <- (byte_of_val b1), H, byte_of_val. Qed.

Lemma lxor_cancel_l x y z : N.lxor x y = N.lxor x z -> y = z.
Proof.
  intros H. apply (f_equal (N.lxor x)) in H.
  by rewrite <- !N.lxor_assoc, N.lxor_nilpotent, !N.lxor_0_l in H.
Qed.

Lemma lxor_cancel_r x y z : N.lxor y x = N.lxor z x -> y = z.
Proof. rewrite !(N.lxor_comm _ x). apply lxor_cancel_l. Qed.

Lemma crc32c_foldl_inj (l : bytes) c1 c2 :
  c1 < 2 ^ 32 -> c2 < 2 ^ 32 ->
  foldl crc32c_ref_step c1 l = foldl crc32c_ref_step c2 l -> c1 = c2.
Proof.
  revert c1 c2. induction l as [|b l IH]; intros c1 c2 H1 H2 H; [done|].
  simpl in H. apply IH in H; try by apply crc32c_ref_step_bound.
  apply crc32c_ref_step_differ in H; [|done|done]. by apply lxor_cancel_r in H.
Qed.

Lemma crc32c_one_byte (a c : bytes) (x y : byte) :
  crc32c (a ++ x :: c) = crc32c (a ++ y :: c) -> x = y.
Proof.
  unfold crc32c, crc32c_extend. rewrite !crc32c_foldl_ref. intros H.
  apply lxor_cancel_r in H. rewrite !foldl_app in H. simpl in H.
  assert (foldl crc32c_ref_step (N.lxor 0 crc_mask) a < 2 ^ 32) as Ha.
  { apply (foldl_inv (fun c => c < 2 ^ 32)); [done|].
    intros s b _ Hs. by apply crc32c_ref_step_bound. }
  apply crc32c_foldl_inj in H; try by apply crc32c_ref_step_bound.
  apply crc32c_ref_step_differ in H; [|done|done].
  by apply lxor_cancel_l, byte_val_inj in H.
Qed.
