(* ===== verification/Model.v ===== *)
(** * Descriptors, lifecycles and their validation

    Models include/flow_scheduler/model.hpp and src/model.cpp: the structural
    bounds, the bindings and descriptors supplied from outside, the flow
    lifecycle with its accounting buckets, the [validate] and [digest_of]
    overloads, and the two reservation-window helpers. *)

From S2P Require Import Prelude Checked Bytes Hash.

(** ** Structural bounds *)

Definition kMaxFlows : N := 1048576.
Definition kMaxResources : N := 65536.
Definition kMaxReservations : N := 262144.
Definition kMaxPriorityClasses : N := 4096.
Definition kMaxQoSClasses : N := 4096.
Definition kMaxDependenciesPerFlow : N := 4096.
Definition kMaxEntriesPerSchedule : N := 65536.
Definition kMaxServiceUnits : N := 281474976710656.      (* 2^48 *)
Definition kMaxQuantum : N := 1099511627776.             (* 2^40 *)
Definition kMaxTickHorizon : N := 1152921504606846976.   (* 2^60 *)
Definition kMaxExplanationBytes : N := 2048.

(** ** Bindings: an identity with the generation it was bound at *)

Record Binding := mkBinding { bd_id : N; bd_generation : Generation }.

Definition bound (b : Binding) : bool := id_valid (bd_id b) && id_valid (bd_generation b).
Definition unbound_binding : Binding := mkBinding 0 0.

(** ** Descriptors *)

Record ResourceDescriptor := mkResourceDescriptor {
  rd_resource : ResourceId;
  rd_generation : Generation;
  rd_capacity : N;
  rd_interval : Ticks;
  rd_max_overlap : N;
  rd_provenance : Provenance }.

Record ReservationDescriptor := mkReservationDescriptor {
  rv_reservation : ReservationId;
  rv_generation : Generation;
  rv_resource : ResourceId;
  rv_resource_generation : Generation;
  rv_window_begin : Ticks;
  rv_window_end : Ticks;
  rv_capacity : N;
  rv_exclusive : bool;
  rv_provenance : Provenance }.

Record PriorityClassDescriptor := mkPriorityClassDescriptor {
  pc_priority : PriorityClassId;
  pc_generation : Generation;
  pc_rank : N;
  pc_weight : N;
  pc_provenance : Provenance }.

Record QoSClassDescriptor := mkQoSClassDescriptor {
  qc_qos : QoSClassId;
  qc_generation : Generation;
  qc_preemption_protected : bool;
  qc_max_service_per_dispatch : N;
  qc_provenance : Provenance }.

Record FlowDescriptor := mkFlowDescriptor {
  fd_flow : FlowId;
  fd_generation : Generation;
  fd_path : Binding;
  fd_resource : Binding;
  fd_reservation : Binding;
  fd_priority : Binding;
  fd_qos : Binding;
  fd_fairness_group : FairnessGroupId;
  fd_estimated_work : N;
  fd_service_quantum : N;
  fd_min_service : N;
  fd_min_service_window : Ticks;
  fd_release_tick : Ticks;
  fd_deadline_tick : Ticks;
  fd_weight : N;
  fd_preemptible : bool;
  fd_auto_ready : bool;
  fd_readiness_signal : N;
  fd_dependencies : list FlowId;
  fd_trace : TraceId;
  fd_provenance : Provenance }.

#[export] Instance eta_FlowDescriptor : Eta FlowDescriptor := fun r =>
  mkFlowDescriptor (fd_flow r) (fd_generation r) (fd_path r) (fd_resource r)
    (fd_reservation r) (fd_priority r) (fd_qos r) (fd_fairness_group r)
    (fd_estimated_work r) (fd_service_quantum r) (fd_min_service r)
    (fd_min_service_window r) (fd_release_tick r) (fd_deadline_tick r) (fd_weight r)
    (fd_preemptible r) (fd_auto_ready r) (fd_readiness_signal r) (fd_dependencies r)
    (fd_trace r) (fd_provenance r).

(** ** Lifecycle *)

Inductive FlowLifecycle : Set :=
| Waiting | Ready | Scheduled | Dispatched | Running | CompletionReported
| Completed | Cancelling | Cancelled | Preempting | Failed | Ambiguous.

#[export] Instance FlowLifecycle_eq_dec : EqDecision FlowLifecycle.
Proof. solve_decision. Defined.

Definition lifecycle_value (l : FlowLifecycle) : N :=
  match l with
  | Waiting => 0 | Ready => 1 | Scheduled => 2 | Dispatched => 3 | Running => 4
  | CompletionReported => 5 | Completed => 6 | Cancelling => 7 | Cancelled => 8
  | Preempting => 9 | Failed => 10 | Ambiguous => 11
  end.

Definition lifecycle_of_value (v : N) : option FlowLifecycle :=
  match v with
  | 0 => Some Waiting | 1 => Some Ready | 2 => Some Scheduled | 3 => Some Dispatched
  | 4 => Some Running | 5 => Some CompletionReported | 6 => Some Completed
  | 7 => Some Cancelling | 8 => Some Cancelled | 9 => Some Preempting
  | 10 => Some Failed | 11 => Some Ambiguous
  | _ => None
  end.

Definition is_terminal (l : FlowLifecycle) : bool :=
  match l with Completed | Cancelled | Failed => true | _ => false end.

Definition holds_open_work (l : FlowLifecycle) : bool :=
  match l with
  | Dispatched | Running | CompletionReported | Cancelling | Preempting => true
  | _ => false
  end.

Inductive AccountingBucket : Set :=
| BWaiting | BReady | BScheduled | BInFlight | BCompleted | BCancelled | BFailed | BAmbiguous.

Definition bucket_of (l : FlowLifecycle) : AccountingBucket :=
  match l with
  | Waiting => BWaiting
  | Ready => BReady
  | Scheduled => BScheduled
  | Dispatched | Running | CompletionReported | Cancelling | Preempting => BInFlight
  | Completed => BCompleted
  | Cancelled => BCancelled
  | Failed => BFailed
  | Ambiguous => BAmbiguous
  end.

Record FlowAccounting := mkFlowAccounting {
  ac_service_credit : N;
  ac_dispatches_issued : N;
  ac_dispatches_started : N;
  ac_completions_committed : N;
  ac_duplicate_completions : N;
  ac_rejected_completions : N;
  ac_preemptions : N;
  ac_deadline_misses : N;
  ac_wait_ticks_total : N;
  ac_starvation_boosts : N }.

#[export] Instance eta_FlowAccounting : Eta FlowAccounting := fun r =>
  mkFlowAccounting (ac_service_credit r) (ac_dispatches_issued r) (ac_dispatches_started r)
    (ac_completions_committed r) (ac_duplicate_completions r) (ac_rejected_completions r)
    (ac_preemptions r) (ac_deadline_misses r) (ac_wait_ticks_total r)
    (ac_starvation_boosts r).

Definition default_FlowAccounting : FlowAccounting :=
  mkFlowAccounting 0 0 0 0 0 0 0 0 0 0.

(** ** Validation *)

Definition validate_resource (d : ResourceDescriptor) : Status :=
  fail_if negb (id_valid (rd_resource d)) with InvalidArgument ;;
  fail_if negb (id_valid (rd_generation d)) with InvalidArgument ;;
  fail_if (rd_capacity d =? 0) || (kMaxServiceUnits <? rd_capacity d) with OutOfRange ;;
  fail_if (rd_interval d =? 0) || (kMaxTickHorizon <? rd_interval d) with OutOfRange ;;
  fail_if (rd_max_overlap d =? 0) || (kMaxServiceUnits <? rd_max_overlap d) with OutOfRange ;;
  fail_if negb (established (rd_provenance d)) with InvalidArgument ;;
  Ok tt.

Definition validate_reservation (d : ReservationDescriptor) : Status :=
  fail_if negb (id_valid (rv_reservation d)) with InvalidArgument ;;
  fail_if negb (id_valid (rv_generation d)) with InvalidArgument ;;
  fail_if negb (id_valid (rv_resource d)) || negb (id_valid (rv_resource_generation d))
    with InvalidArgument ;;
  fail_if (rv_window_end d <=? rv_window_begin d) with InvalidArgument ;;
  fail_if (kMaxTickHorizon <? rv_window_end d) || (kMaxTickHorizon <? rv_window_begin d)
    with OutOfRange ;;
  fail_if (rv_capacity d =? 0) || (kMaxServiceUnits <? rv_capacity d) with OutOfRange ;;
  fail_if negb (established (rv_provenance d)) with InvalidArgument ;;
  Ok tt.

Definition validate_priority_class (d : PriorityClassDescriptor) : Status :=
  fail_if negb (id_valid (pc_priority d)) with InvalidArgument ;;
  fail_if negb (id_valid (pc_generation d)) with InvalidArgument ;;
  fail_if (pc_weight d =? 0) || (kMaxServiceUnits <? pc_weight d) with OutOfRange ;;
  fail_if negb (established (pc_provenance d)) with InvalidArgument ;;
  Ok tt.

Definition validate_qos_class (d : QoSClassDescriptor) : Status :=
  fail_if negb (id_valid (qc_qos d)) with InvalidArgument ;;
  fail_if negb (id_valid (qc_generation d)) with InvalidArgument ;;
  fail_if kMaxQuantum <? qc_max_service_per_dispatch d with OutOfRange ;;
  fail_if negb (established (qc_provenance d)) with InvalidArgument ;;
  Ok tt.

(** [std::sort] on identities and [std::adjacent_find]. *)
Definition sort_ids (l : list N) : list N := merge_sort N.le l.

Fixpoint adjacent_equal (l : list N) : bool :=
  match l with
  | x :: l' =>
      match l' with
      | y :: _ => (x =? y) || adjacent_equal l'
      | [] => false
      end
  | [] => false
  end.

Definition validate_flow (d : FlowDescriptor) : Status :=
  fail_if negb (id_valid (fd_flow d)) with InvalidArgument ;;
  fail_if negb (id_valid (fd_generation d)) with InvalidArgument ;;
  fail_if negb (bound (fd_path d)) with InvalidArgument ;;
  fail_if negb (bound (fd_resource d)) with InvalidArgument ;;
  fail_if negb (bound (fd_priority d)) with InvalidArgument ;;
  fail_if negb (bound (fd_qos d)) with InvalidArgument ;;
  fail_if negb (id_valid (fd_fairness_group d)) with InvalidArgument ;;
  fail_if negb (eqb (id_valid (bd_id (fd_reservation d)))
                    (id_valid (bd_generation (fd_reservation d)))) with InvalidArgument ;;
  fail_if (fd_estimated_work d =? 0) || (kMaxServiceUnits <? fd_estimated_work d)
    with OutOfRange ;;
  fail_if (fd_service_quantum d =? 0) || (kMaxQuantum <? fd_service_quantum d)
    with OutOfRange ;;
  fail_if fd_estimated_work d <? fd_min_service d with InvalidArgument ;;
  fail_if (0 <? fd_min_service d) && (fd_min_service_window d =? 0) with InvalidArgument ;;
  fail_if kMaxTickHorizon <? fd_min_service_window d with OutOfRange ;;
  fail_if kMaxTickHorizon <? fd_release_tick d with OutOfRange ;;
  fail_if has_deadline (fd_deadline_tick d) && (kMaxTickHorizon <? fd_deadline_tick d)
    with OutOfRange ;;
  fail_if has_deadline (fd_deadline_tick d) && (fd_deadline_tick d <=? fd_release_tick d)
    with InvalidArgument ;;
  fail_if (fd_weight d =? 0) || (kMaxServiceUnits <? fd_weight d) with OutOfRange ;;
  fail_if kMaxDependenciesPerFlow <? N.of_nat (length (fd_dependencies d)) with Bounded ;;
  fail_if 2 <? fd_readiness_signal d with InvalidArgument ;;
  let sorted := sort_ids (fd_dependencies d) in
  fail_if adjacent_equal sorted with InvalidArgument ;;
  fail_if bool_decide (fd_flow d ∈ sorted) with InvalidArgument ;;
  fail_if negb (forallb id_valid (fd_dependencies d)) with InvalidArgument ;;
  fail_if negb (established (fd_provenance d)) with InvalidArgument ;;
  Ok tt.

(** ** Digests *)

Definition digest_of_resource (d : ResourceDescriptor) : N :=
  add_u64s [rd_resource d; rd_generation d; rd_capacity d; rd_interval d; rd_max_overlap d]
    digest_init.

Definition digest_of_reservation (d : ReservationDescriptor) : N :=
  add_bool (rv_exclusive d)
    (add_u64s [rv_reservation d; rv_generation d; rv_resource d; rv_resource_generation d;
               rv_window_begin d; rv_window_end d; rv_capacity d] digest_init).

Definition digest_of_priority_class (d : PriorityClassDescriptor) : N :=
  add_u64 (pc_weight d)
    (add_u32 (pc_rank d) (add_u64s [pc_priority d; pc_generation d] digest_init)).

Definition digest_of_qos_class (d : QoSClassDescriptor) : N :=
  add_u64 (qc_max_service_per_dispatch d)
    (add_bool (qc_preemption_protected d)
       (add_u64s [qc_qos d; qc_generation d] digest_init)).

Definition digest_of_flow (d : FlowDescriptor) : N :=
  let d1 := add_u64s
    [fd_flow d; fd_generation d; bd_id (fd_path d); bd_generation (fd_path d);
     bd_id (fd_resource d); bd_generation (fd_resource d);
     bd_id (fd_reservation d); bd_generation (fd_reservation d);
     bd_id (fd_priority d); bd_generation (fd_priority d);
     bd_id (fd_qos d); bd_generation (fd_qos d); fd_fairness_group d;
     fd_estimated_work d; fd_service_quantum d; fd_min_service d; fd_min_service_window d;
     fd_release_tick d; fd_deadline_tick d; fd_weight d] digest_init in
  let d2 := add_bool (fd_auto_ready d) (add_bool (fd_preemptible d) d1) in
  let d3 := add_u8 (fd_readiness_signal d) d2 in
  let d4 := add_u64 (N.of_nat (length (fd_dependencies d))) d3 in
  let d5 := add_u64s (sort_ids (fd_dependencies d)) d4 in
  add_u64 (fd_trace d) d5.

(** ** Reservation windows *)

Definition window_contains (r : ReservationDescriptor) (tick : Ticks) : bool :=
  (rv_window_begin r <=? tick) && (tick <? rv_window_end r).

Definition reservation_grant_at (r : ReservationDescriptor) (tick : Ticks) : N :=
  if window_contains r tick then rv_capacity r else 0.

(** ** What validation establishes *)

Lemma adjacent_equal_NoDup l :
  StronglySorted N.le l -> adjacent_equal l = false -> NoDup l.
Proof.
  induction 1 as [|x l Hs IH Hx]; [constructor|]. intros Hadj.
  destruct l as [|y l]; [apply NoDup_singleton|].
  simpl in Hadj. apply orb_false_iff in Hadj as [Hxy Hadj]. apply N.eqb_neq in Hxy.
  constructor; [|by apply IH].
  intros [->|Hin]%elem_of_cons; [done|].
  inversion Hs as [|? ? _ Hy]; subst. inversion Hx as [|? ? Hxy' _]; subst.
  rewrite Forall_forall in Hy. specialize (Hy _ Hin). lia.
Qed.

(** The canonical form [validate] demands of a dependency list. *)
Lemma validate_flow_dependencies d :
  validate_flow d = Ok tt ->
  NoDup (fd_dependencies d) /\ (fd_flow d ∉ fd_dependencies d) /\
  Forall (fun i => i <> 0) (fd_dependencies d) /\
  N.of_nat (length (fd_dependencies d)) <= kMaxDependenciesPerFlow.
Proof.
  unfold validate_flow. cbv zeta. intros H. peel_guards H.
  split_and!.
  - rewrite <- (merge_sort_Permutation N.le). apply adjacent_equal_NoDup; [|done].
    apply StronglySorted_merge_sort; apply _.
  - rewrite <- (merge_sort_Permutation N.le). by eapply bool_decide_eq_false_1.
  - rewrite negb_false_iff in *. apply Forall_forall. intros i Hi.
    apply id_valid_true. eapply forallb_forall; [done|]. by apply list_elem_of_In.
  - by apply N.ltb_ge.
Qed.
