(* ===== verification/Schedule.v ===== *)
(** * Policies, schedules, tickets, evidence and reports

    Models policy.hpp, schedule.hpp, dispatch.hpp, accounting.hpp and
    explain.hpp with src/schedule.cpp, src/dispatch.cpp, src/accounting.cpp
    and src/explain.cpp: the passive data the scheduler exchanges with its
    callers, with their validation and digests. *)

From S2P Require Import Prelude Checked Bytes Hash Model.

(** ** policy.hpp *)

Inductive PreemptionMode : Set := PNone | PStrictPriority | PDeadline | PTiered.

#[export] Instance PreemptionMode_eq_dec : EqDecision PreemptionMode.
Proof. solve_decision. Defined.

Definition preemption_value (m : PreemptionMode) : N :=
  match m with PNone => 0 | PStrictPriority => 1 | PDeadline => 2 | PTiered => 3 end.

Definition preemption_of_value (v : N) : option PreemptionMode :=
  match v with
  | 0 => Some PNone | 1 => Some PStrictPriority | 2 => Some PDeadline | 3 => Some PTiered
  | _ => None
  end.

Record SchedulingPolicy := mkSchedulingPolicy {
  po_policy : PolicyId;
  po_generation : Generation;
  po_preemption : PreemptionMode;
  po_deadline_ordering : bool;
  po_weighted_fairness : bool;
  po_min_service_guarantee : bool;
  po_strict_deadlines : bool;
  po_starvation_bound_ticks : Ticks;
  po_deadline_urgency_ticks : Ticks;
  po_min_preempt_service : N;
  po_max_preemptions_per_interval : N;
  po_preemption_interval_ticks : Ticks;
  po_max_flows : N;
  po_max_resources : N;
  po_max_reservations : N;
  po_max_entries_per_schedule : N;
  po_max_quantum : N;
  po_default_max_overlap : N;
  po_retained_schedule_history : N;
  po_dispatch_delivery_horizon : Ticks;
  po_provenance : Provenance }.

#[export] Instance eta_SchedulingPolicy : Eta SchedulingPolicy := fun r =>
  mkSchedulingPolicy (po_policy r) (po_generation r) (po_preemption r)
    (po_deadline_ordering r) (po_weighted_fairness r) (po_min_service_guarantee r)
    (po_strict_deadlines r) (po_starvation_bound_ticks r) (po_deadline_urgency_ticks r)
    (po_min_preempt_service r) (po_max_preemptions_per_interval r)
    (po_preemption_interval_ticks r) (po_max_flows r) (po_max_resources r)
    (po_max_reservations r) (po_max_entries_per_schedule r) (po_max_quantum r)
    (po_default_max_overlap r) (po_retained_schedule_history r)
    (po_dispatch_delivery_horizon r) (po_provenance r).

Record PolicyBinding := mkPolicyBinding {
  pb_policy : PolicyId;
  pb_generation : Generation;
  pb_digest : N }.

Definition validate_policy (p : SchedulingPolicy) : Status :=
  fail_if negb (id_valid (po_policy p)) with InvalidArgument ;;
  fail_if negb (id_valid (po_generation p)) with InvalidArgument ;;
  fail_if (po_max_flows p =? 0) || (kMaxFlows <? po_max_flows p) with OutOfRange ;;
  fail_if (po_max_resources p =? 0) || (kMaxResources <? po_max_resources p) with OutOfRange ;;
  fail_if (po_max_reservations p =? 0) || (kMaxReservations <? po_max_reservations p)
    with OutOfRange ;;
  fail_if (po_max_entries_per_schedule p =? 0)
          || (kMaxEntriesPerSchedule <? po_max_entries_per_schedule p) with OutOfRange ;;
  fail_if (po_max_quantum p =? 0) || (kMaxQuantum <? po_max_quantum p) with OutOfRange ;;
  fail_if (po_default_max_overlap p =? 0) || (kMaxServiceUnits <? po_default_max_overlap p)
    with OutOfRange ;;
  fail_if (po_starvation_bound_ticks p =? 0) || (kMaxTickHorizon <? po_starvation_bound_ticks p)
    with OutOfRange ;;
  fail_if kMaxTickHorizon <? po_deadline_urgency_ticks p with OutOfRange ;;
  fail_if kMaxServiceUnits <? po_min_preempt_service p with OutOfRange ;;
  fail_if (po_preemption_interval_ticks p =? 0)
          || (kMaxTickHorizon <? po_preemption_interval_ticks p) with OutOfRange ;;
  fail_if 16777216 <? po_max_preemptions_per_interval p with OutOfRange ;;
  fail_if (po_dispatch_delivery_horizon p =? 0)
          || (kMaxTickHorizon <? po_dispatch_delivery_horizon p) with OutOfRange ;;
  fail_if (po_retained_schedule_history p <? 16)
          || (1048576 <? po_retained_schedule_history p) with OutOfRange ;;
  fail_if negb (established (po_provenance p)) with InvalidArgument ;;
  Ok tt.

Definition digest_of_policy (p : SchedulingPolicy) : N :=
  let d1 := add_u64s [po_policy p; po_generation p] digest_init in
  let d2 := add_u8 (preemption_value (po_preemption p)) d1 in
  let d3 := add_bool (po_strict_deadlines p) (add_bool (po_min_service_guarantee p)
              (add_bool (po_weighted_fairness p) (add_bool (po_deadline_ordering p) d2))) in
  let d4 := add_u64s [po_starvation_bound_ticks p; po_deadline_urgency_ticks p;
                      po_min_preempt_service p] d3 in
  let d5 := add_u32 (po_max_preemptions_per_interval p) d4 in
  let d6 := add_u64 (po_preemption_interval_ticks p) d5 in
  let d7 := add_u32 (po_max_entries_per_schedule p) (add_u32 (po_max_reservations p)
              (add_u32 (po_max_resources p) (add_u32 (po_max_flows p) d6))) in
  let d8 := add_u64s [po_max_quantum p; po_default_max_overlap p] d7 in
  let d9 := add_u32 (po_retained_schedule_history p) d8 in
  add_u64 (po_dispatch_delivery_horizon p) d9.

(** ** schedule.hpp *)

Inductive DecisionKind : Set := Run | Preempt.

#[export] Instance DecisionKind_eq_dec : EqDecision DecisionKind.
Proof. solve_decision. Defined.

Definition kind_value (k : DecisionKind) : N := match k with Run => 0 | Preempt => 1 end.
Definition kind_of_value (v : N) : option DecisionKind :=
  match v with 0 => Some Run | 1 => Some Preempt | _ => None end.

Inductive DecisionReason : Set :=
| Selected | AwaitingRelease | AwaitingDependency | AwaitingReservationWindow
| ReservationWindowClosed | ResourceCapacityExhausted | ConcurrencyLimitReached
| DeadlineMissed | ScheduleEntryLimitReached | DisplacedByHigherAuthority
| PreemptionThrottled | IncumbentNotPreemptible | NoLegalQuantum | AlreadyInFlight
| Terminal | AmbiguousRequiresResolution | AwaitingReadinessSignal
| DeliveryHorizonExpired | ResourceUnavailable | PreemptionDisabled
| PreemptionNotAuthorized | ReservationExhausted | DependencyFailed.

#[export] Instance DecisionReason_eq_dec : EqDecision DecisionReason.
Proof. solve_decision. Defined.

Definition reason_value (r : DecisionReason) : N :=
  match r with
  | Selected => 0 | AwaitingRelease => 1 | AwaitingDependency => 2
  | AwaitingReservationWindow => 3 | ReservationWindowClosed => 4
  | ResourceCapacityExhausted => 5 | ConcurrencyLimitReached => 6 | DeadlineMissed => 7
  | ScheduleEntryLimitReached => 8 | DisplacedByHigherAuthority => 9
  | PreemptionThrottled => 10 | IncumbentNotPreemptible => 11 | NoLegalQuantum => 12
  | AlreadyInFlight => 13 | Terminal => 14 | AmbiguousRequiresResolution => 15
  | AwaitingReadinessSignal => 16 | DeliveryHorizonExpired => 17 | ResourceUnavailable => 18
  | PreemptionDisabled => 19 | PreemptionNotAuthorized => 20 | ReservationExhausted => 21
  | DependencyFailed => 22
  end.

(** [read_schedule] accepts only reasons up to [AmbiguousRequiresResolution]. *)
Definition durable_reason_of_value (v : N) : option DecisionReason :=
  match v with
  | 0 => Some Selected | 1 => Some AwaitingRelease | 2 => Some AwaitingDependency
  | 3 => Some AwaitingReservationWindow | 4 => Some ReservationWindowClosed
  | 5 => Some ResourceCapacityExhausted | 6 => Some ConcurrencyLimitReached
  | 7 => Some DeadlineMissed | 8 => Some ScheduleEntryLimitReached
  | 9 => Some DisplacedByHigherAuthority | 10 => Some PreemptionThrottled
  | 11 => Some IncumbentNotPreemptible | 12 => Some NoLegalQuantum
  | 13 => Some AlreadyInFlight | 14 => Some Terminal | 15 => Some AmbiguousRequiresResolution
  | _ => None
  end.

Definition reason_to_string (r : DecisionReason) : string :=
  match r with
  | Selected => "selected"
  | AwaitingRelease => "awaiting-release"
  | AwaitingDependency => "awaiting-dependency"
  | AwaitingReservationWindow => "awaiting-reservation-window"
  | ReservationWindowClosed => "reservation-window-closed"
  | ResourceCapacityExhausted => "resource-capacity-exhausted"
  | ConcurrencyLimitReached => "concurrency-limit-reached"
  | DeadlineMissed => "deadline-missed"
  | ScheduleEntryLimitReached => "schedule-entry-limit-reached"
  | DisplacedByHigherAuthority => "displaced-by-higher-authority"
  | PreemptionThrottled => "preemption-throttled"
  | IncumbentNotPreemptible => "incumbent-not-preemptible"
  | NoLegalQuantum => "no-legal-quantum"
  | AlreadyInFlight => "already-in-flight"
  | Terminal => "terminal"
  | AmbiguousRequiresResolution => "ambiguous-requires-resolution"
  | AwaitingReadinessSignal => "awaiting-readiness-signal"
  | DeliveryHorizonExpired => "delivery-horizon-expired"
  | ResourceUnavailable => "resource-unavailable"
  | PreemptionDisabled => "preemption-disabled"
  | PreemptionNotAuthorized => "preemption-not-authorized"
  | ReservationExhausted => "reservation-exhausted"
  | DependencyFailed => "dependency-failed"
  end.

Record ScheduleEntry := mkScheduleEntry {
  se_ordinal : N;
  se_kind : DecisionKind;
  se_flow : FlowId;
  se_flow_generation : Generation;
  se_attempt : DispatchAttemptId;
  se_path : PathId;
  se_path_generation : Generation;
  se_resource : ResourceId;
  se_resource_generation : Generation;
  se_reservation : ReservationId;
  se_reservation_generation : Generation;
  se_qos : QoSClassId;
  se_qos_generation : Generation;
  se_priority : PriorityClassId;
  se_priority_generation : Generation;
  se_quantum : N;
  se_start_tick : Ticks;
  se_deadline_tick : Ticks;
  se_reservation_end : Ticks;
  se_tier : N;
  se_reason : DecisionReason;
  se_detail : string;
  se_ordering_digest : N }.

#[export] Instance eta_ScheduleEntry : Eta ScheduleEntry := fun r =>
  mkScheduleEntry (se_ordinal r) (se_kind r) (se_flow r) (se_flow_generation r) (se_attempt r)
    (se_path r) (se_path_generation r) (se_resource r) (se_resource_generation r)
    (se_reservation r) (se_reservation_generation r) (se_qos r) (se_qos_generation r)
    (se_priority r) (se_priority_generation r) (se_quantum r) (se_start_tick r)
    (se_deadline_tick r) (se_reservation_end r) (se_tier r) (se_reason r) (se_detail r)
    (se_ordering_digest r).

Record Schedule := mkSchedule {
  sc_schedule : ScheduleId;
  sc_generation : Generation;
  sc_epoch : FabricEpoch;
  sc_policy : PolicyId;
  sc_policy_generation : Generation;
  sc_policy_binding : PolicyBinding;
  sc_at_tick : Ticks;
  sc_entries : list ScheduleEntry;
  sc_digest : N;
  sc_provenance : Provenance }.

#[export] Instance eta_Schedule : Eta Schedule := fun r =>
  mkSchedule (sc_schedule r) (sc_generation r) (sc_epoch r) (sc_policy r)
    (sc_policy_generation r) (sc_policy_binding r) (sc_at_tick r) (sc_entries r)
    (sc_digest r) (sc_provenance r).

Definition default_schedule : Schedule :=
  mkSchedule 0 0 0 0 0 (mkPolicyBinding 0 0 0) 0 [] 0 default_provenance.

Definition is_run (e : ScheduleEntry) : bool :=
  match se_kind e with Run => true | Preempt => false end.

Definition run_count (s : Schedule) : N :=
  foldl (fun count e => if is_run e then count + 1 else count) 0 (sc_entries s).
Definition preempt_count (s : Schedule) : N :=
  foldl (fun count e => if is_run e then count else count + 1) 0 (sc_entries s).

Definition digest_entry (e : ScheduleEntry) (d : N) : N :=
  let d1 := add_u8 (kind_value (se_kind e)) (add_u32 (se_ordinal e) d) in
  let d2 := add_u64s
    [se_flow e; se_flow_generation e; se_attempt e; se_path e; se_path_generation e;
     se_resource e; se_resource_generation e; se_reservation e; se_reservation_generation e;
     se_qos e; se_qos_generation e; se_priority e; se_priority_generation e;
     se_quantum e; se_start_tick e; se_deadline_tick e; se_reservation_end e] d1 in
  let d3 := add_u8 (reason_value (se_reason e)) (add_u32 (se_tier e) d2) in
  add_string (se_detail e) (add_u64 (se_ordering_digest e) d3).

Definition compute_schedule_digest (s : Schedule) : N :=
  let d := add_u64s
    [sc_schedule s; sc_generation s; sc_epoch s; sc_policy s; sc_policy_generation s;
     pb_digest (sc_policy_binding s); sc_at_tick s; N.of_nat (length (sc_entries s))]
    digest_init in
  foldl (fun d e => digest_entry e d) d (sc_entries s).

Record DeferredFlow := mkDeferredFlow {
  df_flow : FlowId;
  df_generation : Generation;
  df_reason : DecisionReason;
  df_detail : string }.

Record ArbitrationOutcome := mkArbitrationOutcome {
  ao_schedule : Schedule;
  ao_deferred : list DeferredFlow;
  ao_deferred_truncated : bool;
  ao_deadline_misses : list FlowId;
  ao_delivery_reclaims : list FlowId }.

#[export] Instance eta_ArbitrationOutcome : Eta ArbitrationOutcome := fun r =>
  mkArbitrationOutcome (ao_schedule r) (ao_deferred r) (ao_deferred_truncated r)
    (ao_deadline_misses r) (ao_delivery_reclaims r).

Definition empty_outcome : ArbitrationOutcome :=
  mkArbitrationOutcome default_schedule [] false [] [].

(** ** dispatch.hpp, dispatch.cpp *)

Inductive AttemptState : Set :=
| AOpen | AStarted | ACommitted | APreempted | ACancelled | AAbandoned | ARejected.

#[export] Instance AttemptState_eq_dec : EqDecision AttemptState.
Proof. solve_decision. Defined.

Definition attempt_state_value (s : AttemptState) : N :=
  match s with
  | AOpen => 0 | AStarted => 1 | ACommitted => 2 | APreempted => 3 | ACancelled => 4
  | AAbandoned => 5 | ARejected => 6
  end.

Definition attempt_state_of_value (v : N) : option AttemptState :=
  match v with
  | 0 => Some AOpen | 1 => Some AStarted | 2 => Some ACommitted | 3 => Some APreempted
  | 4 => Some ACancelled | 5 => Some AAbandoned | 6 => Some ARejected
  | _ => None
  end.

Definition is_attempt_terminal (s : AttemptState) : bool :=
  match s with AOpen | AStarted => false | _ => true end.

Record DispatchTicket := mkDispatchTicket {
  tk_attempt : DispatchAttemptId;
  tk_epoch : FabricEpoch;
  tk_schedule : ScheduleId;
  tk_schedule_generation : Generation;
  tk_flow : FlowId;
  tk_flow_generation : Generation;
  tk_path : PathId;
  tk_path_generation : Generation;
  tk_resource : ResourceId;
  tk_resource_generation : Generation;
  tk_reservation : ReservationId;
  tk_reservation_generation : Generation;
  tk_qos : QoSClassId;
  tk_qos_generation : Generation;
  tk_priority : PriorityClassId;
  tk_priority_generation : Generation;
  tk_policy : PolicyId;
  tk_policy_generation : Generation;
  tk_worker : WorkerId;
  tk_boot : BootId;
  tk_start_tick : Ticks;
  tk_deadline_tick : Ticks;
  tk_reservation_end : Ticks;
  tk_quantum : N;
  tk_state : AttemptState;
  tk_digest : N }.

#[export] Instance eta_DispatchTicket : Eta DispatchTicket := fun r =>
  mkDispatchTicket (tk_attempt r) (tk_epoch r) (tk_schedule r) (tk_schedule_generation r)
    (tk_flow r) (tk_flow_generation r) (tk_path r) (tk_path_generation r) (tk_resource r)
    (tk_resource_generation r) (tk_reservation r) (tk_reservation_generation r) (tk_qos r)
    (tk_qos_generation r) (tk_priority r) (tk_priority_generation r) (tk_policy r)
    (tk_policy_generation r) (tk_worker r) (tk_boot r) (tk_start_tick r)
    (tk_deadline_tick r) (tk_reservation_end r) (tk_quantum r) (tk_state r) (tk_digest r).

(** The digest [begin_dispatch] seals a ticket with and [revalidate] recomputes. *)
Definition ticket_digest (t : DispatchTicket) : N :=
  add_u64s
    [tk_attempt t; tk_epoch t; tk_schedule t; tk_schedule_generation t; tk_flow t;
     tk_flow_generation t; tk_path t; tk_path_generation t; tk_resource t;
     tk_resource_generation t; tk_reservation t; tk_reservation_generation t; tk_qos t;
     tk_qos_generation t; tk_priority t; tk_priority_generation t; tk_policy t;
     tk_policy_generation t; tk_worker t; tk_boot t; tk_start_tick t; tk_deadline_tick t;
     tk_reservation_end t; tk_quantum t] digest_init.

Inductive CompletionOutcome : Set := CServed | CNoService | CFailed.

#[export] Instance CompletionOutcome_eq_dec : EqDecision CompletionOutcome.
Proof. solve_decision. Defined.

Definition completion_value (o : CompletionOutcome) : N :=
  match o with CServed => 0 | CNoService => 1 | CFailed => 2 end.

Definition completion_of_value (v : N) : option CompletionOutcome :=
  match v with 0 => Some CServed | 1 => Some CNoService | 2 => Some CFailed | _ => None end.

Record CompletionEvidence := mkCompletionEvidence {
  ev_schedule : ScheduleId;
  ev_schedule_generation : Generation;
  ev_attempt : DispatchAttemptId;
  ev_epoch : FabricEpoch;
  ev_flow : FlowId;
  ev_flow_generation : Generation;
  ev_worker : WorkerId;
  ev_boot : BootId;
  ev_outcome : CompletionOutcome;
  ev_served : N;
  ev_effect_code : N;
  ev_effect_digest : N;
  ev_observed_tick : Ticks;
  ev_provenance : Provenance }.

#[export] Instance eta_CompletionEvidence : Eta CompletionEvidence := fun r =>
  mkCompletionEvidence (ev_schedule r) (ev_schedule_generation r) (ev_attempt r)
    (ev_epoch r) (ev_flow r) (ev_flow_generation r) (ev_worker r) (ev_boot r)
    (ev_outcome r) (ev_served r) (ev_effect_code r) (ev_effect_digest r)
    (ev_observed_tick r) (ev_provenance r).

Definition evidence_digest (e : CompletionEvidence) : N :=
  let d1 := add_u64s [ev_schedule e; ev_schedule_generation e; ev_attempt e; ev_epoch e;
                      ev_flow e; ev_flow_generation e; ev_worker e; ev_boot e] digest_init in
  let d2 := add_u8 (completion_value (ev_outcome e)) d1 in
  let d3 := add_u32 (ev_effect_code e) (add_u64 (ev_served e) d2) in
  let d4 := add_u64s [ev_effect_digest e; ev_observed_tick e] d3 in
  let d5 := add_u8 (origin_value (pv_origin (ev_provenance e))) d4 in
  add_u64s [pv_sequence (ev_provenance e); pv_digest (ev_provenance e)] d5.

Inductive CommitDisposition : Set := Applied | IdempotentDuplicate | DRejected.

#[export] Instance CommitDisposition_eq_dec : EqDecision CommitDisposition.
Proof. solve_decision. Defined.

Record CommitOutcome := mkCommitOutcome {
  co_disposition : CommitDisposition;
  co_code : ErrorCode;
  co_lifecycle_after : FlowLifecycle;
  co_credited : N;
  co_flow_completed : bool;
  co_outstanding_reserved_released : N }.

(** ** explain.hpp, explain.cpp *)

(** The character filter of [bounded_detail] over an already accumulated
    output of [n] characters. *)
Fixpoint bounded_detail_go (n : N) (text : string) : string :=
  match text with
  | EmptyString => EmptyString
  | String c rest =>
      if kMaxExplanationBytes <=? n + 3 then "..."
      else
        let b := Ascii.N_of_ascii c in
        let c' := if (b <? 32) || (b =? 127) then Ascii.ascii_of_N 32 else c in
        String c' (bounded_detail_go (n + 1) rest)
  end.

Definition bounded_detail (text : string) : string :=
  let out := bounded_detail_go 0 text in
  if kMaxExplanationBytes <? N.of_nat (String.length out)
  then String.substring 0 (N.to_nat kMaxExplanationBytes) out else out.

Record ExplanationStep := mkExplanationStep {
  xs_at_tick : Ticks;
  xs_lifecycle : FlowLifecycle;
  xs_reason : DecisionReason;
  xs_schedule : ScheduleId;
  xs_attempt : DispatchAttemptId;
  xs_detail : string }.

(** ** accounting.hpp, accounting.cpp *)

Record AccountingReport := mkAccountingReport {
  ar_total_flows : N;
  ar_waiting : N; ar_ready : N; ar_scheduled : N; ar_dispatched : N; ar_running : N;
  ar_completion_reported : N; ar_cancelling : N; ar_preempting : N; ar_completed : N;
  ar_cancelled : N; ar_failed : N; ar_ambiguous : N;
  ar_attempts_total : N; ar_attempts_open : N; ar_attempts_started : N;
  ar_attempts_committed : N; ar_attempts_preempted : N; ar_attempts_cancelled : N;
  ar_attempts_abandoned : N; ar_attempts_rejected : N;
  ar_completion_reports_received : N; ar_completions_applied : N;
  ar_completions_duplicate : N; ar_completions_rejected : N;
  ar_schedules_issued : N; ar_schedule_entries_issued : N; ar_preemptions_issued : N;
  ar_arbitration_rounds : N; ar_starvation_boosts : N; ar_deadline_misses : N;
  ar_reservations_retired : N;
  ar_outstanding_reserved_units : N; ar_service_credit_total : N;
  ar_estimated_work_total : N;
  ar_epoch : N; ar_recovered_flows : N; ar_recovered_ambiguous_attempts : N }.

(** The sums of [AccountingReport::validate] are 64-bit sums. *)
Definition sum64 (l : list N) : N := foldl add64 0 l.

Definition validate_report (r : AccountingReport) : Status :=
  let lifecycle_total :=
    sum64 [ar_waiting r; ar_ready r; ar_scheduled r; ar_dispatched r; ar_running r;
           ar_completion_reported r; ar_cancelling r; ar_preempting r; ar_completed r;
           ar_cancelled r; ar_failed r; ar_ambiguous r] in
  fail_if negb (lifecycle_total =? ar_total_flows r) with Internal ;;
  fail_if negb (ar_cancelling r =? 0) || negb (ar_preempting r =? 0) with Internal ;;
  let attempt_total :=
    sum64 [ar_attempts_open r; ar_attempts_started r; ar_attempts_committed r;
           ar_attempts_preempted r; ar_attempts_cancelled r; ar_attempts_abandoned r;
           ar_attempts_rejected r] in
  fail_if negb (attempt_total =? ar_attempts_total r) with Internal ;;
  fail_if ar_completion_reports_received r
          <? add64 (ar_completions_duplicate r) (ar_completions_rejected r) with Internal ;;
  fail_if (0 <? ar_outstanding_reserved_units r)
          && (sum64 [ar_attempts_open r; ar_attempts_started r; ar_scheduled r] =? 0)
    with Internal ;;
  fail_if (0 <? ar_schedules_issued r)
          && (ar_schedule_entries_issued r <? ar_schedules_issued r) with Internal ;;
  fail_if sum64 [ar_total_flows r; ar_cancelled r; ar_completed r; ar_failed r]
          <? ar_deadline_misses r with Internal ;;
  fail_if ar_epoch r =? 0 with Internal ;;
  Ok tt.
