(* ===== verification/Codec.v ===== *)
(** * The record codec

    Models [RecordWriter] and [RecordReader] of journal.hpp / src/journal.cpp
    and every [write_*] / [read_*] pair built on them: the descriptors,
    policies and schedules of src/scheduler.cpp and the tickets and evidence
    of src/protocol.cpp.

    A sequence of writer calls is a list of [WriteOp]s, run by [write_all];
    reading is a parser over the remaining bytes.  [Codec] is the interface
    the durable store and the wire protocol rely on: what was written is what
    is read back, and nothing after it is consumed. *)

From S2P Require Import Prelude Checked Bytes Hash Model Schedule.

(** ** RecordWriter *)

Record RecordWriter := mkRecordWriter {
  rw_buffer : bytes;
  rw_limit : N;
  rw_overflowed : bool }.

#[export] Instance eta_RecordWriter : Eta RecordWriter := fun r =>
  mkRecordWriter (rw_buffer r) (rw_limit r) (rw_overflowed r).

Definition kDefaultLimit : N := 4194304.
Definition new_writer (limit : N) : RecordWriter := mkRecordWriter [] limit false.

Definition blen (l : bytes) : N := N.of_nat (length l).

(** The shared shape of the fixed-width writers: refuse when the bytes do not
    fit, append them otherwise. *)
Definition rw_fixed (data : bytes) (w : RecordWriter) : RecordWriter :=
  if rw_overflowed w || (rw_limit w <? blen (rw_buffer w) + blen data)
  then w <| rw_overflowed := true |>
  else w <| rw_buffer ::= fun b => b ++ data |>.

Definition w_u8 (v : N) : RecordWriter -> RecordWriter := rw_fixed [byte_of v].
Definition w_u16 (v : N) : RecordWriter -> RecordWriter := rw_fixed (encode_u16_le v).
Definition w_u32 (v : N) : RecordWriter -> RecordWriter := rw_fixed (encode_u32_le v).
Definition w_u64 (v : N) : RecordWriter -> RecordWriter := rw_fixed (encode_u64_le v).
Definition w_boolean (b : bool) : RecordWriter -> RecordWriter := w_u8 (if b then 1 else 0).

Definition w_bytes (value : bytes) (w : RecordWriter) : RecordWriter :=
  if rw_overflowed w || (rw_limit w <? blen value)
     || (rw_limit w <? blen (rw_buffer w) + 8 + blen value)
  then w <| rw_overflowed := true |>
  else (w_u64 (blen value) w) <| rw_buffer ::= fun b => b ++ value |>.

Inductive WriteOp : Type :=
| WU8 (v : N) | WU16 (v : N) | WU32 (v : N) | WU64 (v : N)
| WBool (b : bool) | WBytes (value : bytes).

Definition run_op (op : WriteOp) (w : RecordWriter) : RecordWriter :=
  match op with
  | WU8 v => w_u8 v w
  | WU16 v => w_u16 v w
  | WU32 v => w_u32 v w
  | WU64 v => w_u64 v w
  | WBool b => w_boolean b w
  | WBytes value => w_bytes value w
  end.

Definition write_all (ops : list WriteOp) (w : RecordWriter) : RecordWriter :=
  foldl (fun w op => run_op op w) w ops.

Definition WText (s : string) : WriteOp := WBytes (string_bytes s).

(** [RecordWriter writer; ...; writer.take()] *)
Definition payload (ops : list WriteOp) : bytes :=
  rw_buffer (write_all ops (new_writer kDefaultLimit)).

(** ** RecordReader *)

Definition Reader (A : Type) : Type := bytes -> Res (A * bytes).

Definition r_ret {A} (a : A) : Reader A := fun l => Ok (a, l).
Definition r_fail {A} (e : ErrorCode) : Reader A := fun _ => Err e.
Definition r_bind {A B} (m : Reader A) (k : A -> Reader B) : Reader B :=
  fun l => match m l with
           | Ok (a, rest) => k a rest
           | Err e => Err e
           end.

Notation "'let!' x ':=' m 'in' k" := (r_bind m (fun x => k))
  (at level 10, x pattern, m at level 100, k at level 200) : fs_scope.
Notation "'r_fail_if' c 'with' e ';;' k" := (if c then r_fail e else k)
  (at level 10, c at level 99, e at level 99, k at level 200) : fs_scope.

Definition r_raw (count : N) : Reader bytes := fun l =>
  if blen l <? count then Err Truncated
  else Ok (take (N.to_nat count) l, drop (N.to_nat count) l).

Definition r_u8 : Reader N := let! v := r_raw 1 in r_ret (decode_le v).
Definition r_u16 : Reader N := let! v := r_raw 2 in r_ret (decode_u16_le v).
Definition r_u32 : Reader N := let! v := r_raw 4 in r_ret (decode_u32_le v).
Definition r_u64 : Reader N := let! v := r_raw 8 in r_ret (decode_u64_le v).

Definition r_boolean : Reader bool :=
  let! v := r_u8 in
  r_fail_if 1 <? v with InvalidArgument ;; r_ret (v =? 1).

Definition r_bytes : Reader bytes :=
  let! n := r_u64 in
  fun l => if blen l <? n then Err Truncated else r_raw n l.

Definition r_text : Reader string := let! v := r_bytes in r_ret (bytes_string v).

(** [require_exhausted] of scheduler.cpp ([CorruptData]) and of protocol.cpp
    ([ProtocolViolation]). *)
Definition require_exhausted (e : ErrorCode) (l : bytes) : Status :=
  match l with [] => Ok tt | _ => Err e end.

(** [if (raw > max) return failure(e); x = static_cast<Enum>(raw)] *)
Definition r_enum {A} (of_value : N -> option A) (e : ErrorCode) : Reader A :=
  let! v := r_u8 in
  match of_value v with
  | Some a => r_ret a
  | None => r_fail e
  end.

Fixpoint r_repeat {A} (n : nat) (m : Reader A) : Reader (list A) :=
  match n with
  | O => r_ret []
  | S n => let! a := m in let! rest := r_repeat n m in r_ret (a :: rest)
  end.

(** ** Provenance, resources, reservations and classes *)

Definition write_provenance (p : Provenance) : list WriteOp :=
  [WU8 (origin_value (pv_origin p)); WU64 (pv_sequence p); WU64 (pv_digest p)].

Definition read_provenance (e : ErrorCode) : Reader Provenance :=
  let! origin := r_enum origin_of_value e in
  let! sequence := r_u64 in
  let! digest := r_u64 in
  r_ret (mkProvenance origin sequence digest).

Definition write_resource (d : ResourceDescriptor) : list WriteOp :=
  [WU64 (rd_resource d); WU64 (rd_generation d); WU64 (rd_capacity d);
   WU64 (rd_interval d); WU64 (rd_max_overlap d)] ++ write_provenance (rd_provenance d).

Definition read_resource : Reader ResourceDescriptor :=
  let! resource := r_u64 in
  let! generation := r_u64 in
  let! capacity := r_u64 in
  let! interval := r_u64 in
  let! max_overlap := r_u64 in
  let! provenance := read_provenance CorruptData in
  r_ret (mkResourceDescriptor resource generation capacity interval max_overlap provenance).

Definition write_reservation (d : ReservationDescriptor) : list WriteOp :=
  [WU64 (rv_reservation d); WU64 (rv_generation d); WU64 (rv_resource d);
   WU64 (rv_resource_generation d); WU64 (rv_window_begin d); WU64 (rv_window_end d);
   WU64 (rv_capacity d); WBool (rv_exclusive d)] ++ write_provenance (rv_provenance d).

Definition read_reservation : Reader ReservationDescriptor :=
  let! reservation := r_u64 in
  let! generation := r_u64 in
  let! resource := r_u64 in
  let! resource_generation := r_u64 in
  let! window_begin := r_u64 in
  let! window_end := r_u64 in
  let! capacity := r_u64 in
  let! exclusive := r_boolean in
  let! provenance := read_provenance CorruptData in
  r_ret (mkReservationDescriptor reservation generation resource resource_generation
           window_begin window_end capacity exclusive provenance).

Definition write_priority_class (d : PriorityClassDescriptor) : list WriteOp :=
  [WU64 (pc_priority d); WU64 (pc_generation d); WU32 (pc_rank d); WU64 (pc_weight d)]
    ++ write_provenance (pc_provenance d).

Definition read_priority_class : Reader PriorityClassDescriptor :=
  let! priority := r_u64 in
  let! generation := r_u64 in
  let! rank := r_u32 in
  let! weight := r_u64 in
  let! provenance := read_provenance CorruptData in
  r_ret (mkPriorityClassDescriptor priority generation rank weight provenance).

Definition write_qos_class (d : QoSClassDescriptor) : list WriteOp :=
  [WU64 (qc_qos d); WU64 (qc_generation d); WBool (qc_preemption_protected d);
   WU64 (qc_max_service_per_dispatch d)] ++ write_provenance (qc_provenance d).

Definition read_qos_class : Reader QoSClassDescriptor :=
  let! qos := r_u64 in
  let! generation := r_u64 in
  let! preemption_protected := r_boolean in
  let! max_service := r_u64 in
  let! provenance := read_provenance CorruptData in
  r_ret (mkQoSClassDescriptor qos generation preemption_protected max_service provenance).

(** ** Flow descriptors *)

Definition write_binding (b : Binding) : list WriteOp := [WU64 (bd_id b); WU64 (bd_generation b)].
Definition read_binding : Reader Binding :=
  let! i := r_u64 in let! g := r_u64 in r_ret (mkBinding i g).

Definition write_flow_descriptor (d : FlowDescriptor) : list WriteOp :=
  [WU64 (fd_flow d); WU64 (fd_generation d)] ++
  write_binding (fd_path d) ++ write_binding (fd_resource d) ++
  write_binding (fd_reservation d) ++ write_binding (fd_priority d) ++
  write_binding (fd_qos d) ++
  [WU64 (fd_fairness_group d); WU64 (fd_estimated_work d); WU64 (fd_service_quantum d);
   WU64 (fd_min_service d); WU64 (fd_min_service_window d); WU64 (fd_release_tick d);
   WU64 (fd_deadline_tick d); WU64 (fd_weight d); WBool (fd_preemptible d);
   WBool (fd_auto_ready d); WU8 (fd_readiness_signal d);
   WU64 (N.of_nat (length (fd_dependencies d)))] ++
  (WU64 <$> fd_dependencies d) ++
  [WU64 (fd_trace d)] ++ write_provenance (fd_provenance d).

Definition read_flow_descriptor : Reader FlowDescriptor :=
  let! flow := r_u64 in
  let! generation := r_u64 in
  let! path := read_binding in
  let! resource := read_binding in
  let! reservation := read_binding in
  let! priority := read_binding in
  let! qos := read_binding in
  let! fairness_group := r_u64 in
  let! estimated_work := r_u64 in
  let! service_quantum := r_u64 in
  let! min_service := r_u64 in
  let! min_service_window := r_u64 in
  let! release_tick := r_u64 in
  let! deadline_tick := r_u64 in
  let! weight := r_u64 in
  let! preemptible := r_boolean in
  let! auto_ready := r_boolean in
  let! signal := r_u8 in
  r_fail_if 2 <? signal with CorruptData ;;
  let! dependency_count := r_u64 in
  r_fail_if kMaxDependenciesPerFlow <? dependency_count with CorruptData ;;
  let! dependencies := r_repeat (N.to_nat dependency_count) r_u64 in
  let! trace := r_u64 in
  let! provenance := read_provenance CorruptData in
  r_ret (mkFlowDescriptor flow generation path resource reservation priority qos
           fairness_group estimated_work service_quantum min_service min_service_window
           release_tick deadline_tick weight preemptible auto_ready signal dependencies
           trace provenance).

(** ** Schedules *)

Definition write_entry (e : ScheduleEntry) : list WriteOp :=
  [WU32 (se_ordinal e); WU8 (kind_value (se_kind e)); WU64 (se_flow e);
   WU64 (se_flow_generation e); WU64 (se_attempt e); WU64 (se_path e);
   WU64 (se_path_generation e); WU64 (se_resource e); WU64 (se_resource_generation e);
   WU64 (se_reservation e); WU64 (se_reservation_generation e); WU64 (se_qos e);
   WU64 (se_qos_generation e); WU64 (se_priority e); WU64 (se_priority_generation e);
   WU64 (se_quantum e); WU64 (se_start_tick e); WU64 (se_deadline_tick e);
   WU64 (se_reservation_end e); WU32 (se_tier e); WU8 (reason_value (se_reason e));
   WU64 (se_ordering_digest e); WText (se_detail e)].

Definition read_entry : Reader ScheduleEntry :=
  let! ordinal := r_u32 in
  let! kind := r_enum kind_of_value CorruptData in
  let! flow := r_u64 in
  let! flow_generation := r_u64 in
  let! attempt := r_u64 in
  let! path := r_u64 in
  let! path_generation := r_u64 in
  let! resource := r_u64 in
  let! resource_generation := r_u64 in
  let! reservation := r_u64 in
  let! reservation_generation := r_u64 in
  let! qos := r_u64 in
  let! qos_generation := r_u64 in
  let! priority := r_u64 in
  let! priority_generation := r_u64 in
  let! quantum := r_u64 in
  let! start_tick := r_u64 in
  let! deadline_tick := r_u64 in
  let! reservation_end := r_u64 in
  let! tier := r_u32 in
  let! reason := r_enum durable_reason_of_value CorruptData in
  let! ordering_digest := r_u64 in
  let! detail := r_text in
  r_fail_if kMaxExplanationBytes <? N.of_nat (String.length detail) with CorruptData ;;
  r_ret (mkScheduleEntry ordinal kind flow flow_generation attempt path path_generation
           resource resource_generation reservation reservation_generation qos
           qos_generation priority priority_generation quantum start_tick deadline_tick
           reservation_end tier reason detail ordering_digest).

Definition write_schedule (s : Schedule) : list WriteOp :=
  [WU64 (sc_schedule s); WU64 (sc_generation s); WU64 (sc_epoch s); WU64 (sc_policy s);
   WU64 (sc_policy_generation s); WU64 (pb_policy (sc_policy_binding s));
   WU64 (pb_generation (sc_policy_binding s)); WU64 (pb_digest (sc_policy_binding s));
   WU64 (sc_at_tick s); WU64 (N.of_nat (length (sc_entries s)))] ++
  (sc_entries s ≫= write_entry) ++
  [WU64 (sc_digest s)] ++ write_provenance (sc_provenance s).

Definition read_schedule : Reader Schedule :=
  let! schedule := r_u64 in
  let! generation := r_u64 in
  let! epoch := r_u64 in
  let! policy := r_u64 in
  let! policy_generation := r_u64 in
  let! binding_policy := r_u64 in
  let! binding_generation := r_u64 in
  let! binding_digest := r_u64 in
  let! at_tick := r_u64 in
  let! entry_count := r_u64 in
  r_fail_if kMaxEntriesPerSchedule <? entry_count with CorruptData ;;
  let! entries := r_repeat (N.to_nat entry_count) read_entry in
  let! digest := r_u64 in
  let! provenance := read_provenance CorruptData in
  r_ret (mkSchedule schedule generation epoch policy policy_generation
           (mkPolicyBinding binding_policy binding_generation binding_digest)
           at_tick entries digest provenance).

(** ** Policies *)

Definition write_policy (p : SchedulingPolicy) : list WriteOp :=
  [WU64 (po_policy p); WU64 (po_generation p); WU8 (preemption_value (po_preemption p));
   WBool (po_deadline_ordering p); WBool (po_weighted_fairness p);
   WBool (po_min_service_guarantee p); WBool (po_strict_deadlines p);
   WU64 (po_starvation_bound_ticks p); WU64 (po_deadline_urgency_ticks p);
   WU64 (po_min_preempt_service p); WU32 (po_max_preemptions_per_interval p);
   WU64 (po_preemption_interval_ticks p); WU32 (po_max_flows p); WU32 (po_max_resources p);
   WU32 (po_max_reservations p); WU32 (po_max_entries_per_schedule p);
   WU64 (po_max_quantum p); WU64 (po_default_max_overlap p);
   WU32 (po_retained_schedule_history p); WU64 (po_dispatch_delivery_horizon p)]
    ++ write_provenance (po_provenance p).

Definition read_policy : Reader SchedulingPolicy :=
  let! policy := r_u64 in
  let! generation := r_u64 in
  let! preemption := r_enum preemption_of_value CorruptData in
  let! deadline_ordering := r_boolean in
  let! weighted_fairness := r_boolean in
  let! min_service_guarantee := r_boolean in
  let! strict_deadlines := r_boolean in
  let! starvation_bound := r_u64 in
  let! deadline_urgency := r_u64 in
  let! min_preempt_service := r_u64 in
  let! throttle := r_u32 in
  let! preemption_interval := r_u64 in
  let! max_flows := r_u32 in
  let! max_resources := r_u32 in
  let! max_reservations := r_u32 in
  let! max_entries := r_u32 in
  let! max_quantum := r_u64 in
  let! default_max_overlap := r_u64 in
  let! retained := r_u32 in
  let! horizon := r_u64 in
  let! provenance := read_provenance CorruptData in
  r_ret (mkSchedulingPolicy policy generation preemption deadline_ordering
           weighted_fairness min_service_guarantee strict_deadlines starvation_bound
           deadline_urgency min_preempt_service throttle preemption_interval max_flows
           max_resources max_reservations max_entries max_quantum default_max_overlap
           retained horizon provenance).

(** ** Tickets and evidence (protocol.cpp) *)

Definition write_ticket (t : DispatchTicket) : list WriteOp :=
  [WU64 (tk_attempt t); WU64 (tk_epoch t); WU64 (tk_schedule t);
   WU64 (tk_schedule_generation t); WU64 (tk_flow t); WU64 (tk_flow_generation t);
   WU64 (tk_path t); WU64 (tk_path_generation t); WU64 (tk_resource t);
   WU64 (tk_resource_generation t); WU64 (tk_reservation t);
   WU64 (tk_reservation_generation t); WU64 (tk_qos t); WU64 (tk_qos_generation t);
   WU64 (tk_priority t); WU64 (tk_priority_generation t); WU64 (tk_policy t);
   WU64 (tk_policy_generation t); WU64 (tk_worker t); WU64 (tk_boot t);
   WU64 (tk_start_tick t); WU64 (tk_deadline_tick t); WU64 (tk_reservation_end t);
   WU64 (tk_quantum t); WU8 (attempt_state_value (tk_state t)); WU64 (tk_digest t)].

Definition ticket_bound (t : DispatchTicket) : bool :=
  forallb id_valid
    [tk_attempt t; tk_epoch t; tk_schedule t; tk_schedule_generation t; tk_flow t;
     tk_flow_generation t; tk_path t; tk_path_generation t; tk_resource t;
     tk_resource_generation t; tk_policy t; tk_policy_generation t; tk_qos t;
     tk_qos_generation t; tk_priority t; tk_priority_generation t].

Definition read_ticket : Reader DispatchTicket :=
  let! attempt := r_u64 in
  let! epoch := r_u64 in
  let! schedule := r_u64 in
  let! schedule_generation := r_u64 in
  let! flow := r_u64 in
  let! flow_generation := r_u64 in
  let! path := r_u64 in
  let! path_generation := r_u64 in
  let! resource := r_u64 in
  let! resource_generation := r_u64 in
  let! reservation := r_u64 in
  let! reservation_generation := r_u64 in
  let! qos := r_u64 in
  let! qos_generation := r_u64 in
  let! priority := r_u64 in
  let! priority_generation := r_u64 in
  let! policy := r_u64 in
  let! policy_generation := r_u64 in
  let! worker := r_u64 in
  let! boot := r_u64 in
  let! start_tick := r_u64 in
  let! deadline_tick := r_u64 in
  let! reservation_end := r_u64 in
  let! quantum := r_u64 in
  let! state := r_enum attempt_state_of_value ProtocolViolation in
  let! digest := r_u64 in
  let ticket := mkDispatchTicket attempt epoch schedule schedule_generation flow
    flow_generation path path_generation resource resource_generation reservation
    reservation_generation qos qos_generation priority priority_generation policy
    policy_generation worker boot start_tick deadline_tick reservation_end quantum
    state digest in
  r_fail_if negb (ticket_bound ticket) with ProtocolViolation ;;
  r_fail_if quantum =? 0 with ProtocolViolation ;;
  r_fail_if kMaxQuantum <? quantum with ProtocolViolation ;;
  r_ret ticket.

Definition write_evidence (e : CompletionEvidence) : list WriteOp :=
  [WU64 (ev_schedule e); WU64 (ev_schedule_generation e); WU64 (ev_attempt e);
   WU64 (ev_epoch e); WU64 (ev_flow e); WU64 (ev_flow_generation e); WU64 (ev_worker e);
   WU64 (ev_boot e); WU8 (completion_value (ev_outcome e)); WU64 (ev_served e);
   WU32 (ev_effect_code e); WU64 (ev_effect_digest e); WU64 (ev_observed_tick e)]
    ++ write_provenance (ev_provenance e).

Definition evidence_bound (e : CompletionEvidence) : bool :=
  forallb id_valid
    [ev_attempt e; ev_epoch e; ev_schedule e; ev_schedule_generation e; ev_flow e;
     ev_flow_generation e; ev_worker e; ev_boot e].

Definition read_evidence : Reader CompletionEvidence :=
  let! schedule := r_u64 in
  let! schedule_generation := r_u64 in
  let! attempt := r_u64 in
  let! epoch := r_u64 in
  let! flow := r_u64 in
  let! flow_generation := r_u64 in
  let! worker := r_u64 in
  let! boot := r_u64 in
  let! completion := r_enum completion_of_value ProtocolViolation in
  let! served := r_u64 in
  let! effect_code := r_u32 in
  let! effect_digest := r_u64 in
  let! observed_tick := r_u64 in
  let! provenance := read_provenance ProtocolViolation in
  let evidence := mkCompletionEvidence schedule schedule_generation attempt epoch flow
    flow_generation worker boot completion served effect_code effect_digest observed_tick
    provenance in
  r_fail_if negb (evidence_bound evidence) with ProtocolViolation ;;
  r_fail_if kMaxServiceUnits <? served with ProtocolViolation ;;
  r_ret evidence.

(** ** What a sequence of writer calls appends *)

Definition op_bytes (op : WriteOp) : bytes :=
  match op with
  | WU8 v => [byte_of v]
  | WU16 v => encode_u16_le v
  | WU32 v => encode_u32_le v
  | WU64 v => encode_u64_le v
  | WBool b => [byte_of (if b then 1 else 0)]
  | WBytes value => encode_u64_le (blen value) ++ value
  end.

Definition ops_bytes (ops : list WriteOp) : bytes := ops ≫= op_bytes.

Definition fits (n : N) (w : RecordWriter) : Prop :=
  rw_overflowed w = false /\ blen (rw_buffer w) + n <= rw_limit w.

Definition emit (data : bytes) (w : RecordWriter) : RecordWriter :=
  w <| rw_buffer ::= fun b => b ++ data |>.

Lemma blen_app a b : blen (a ++ b) = blen a + blen b.
Proof. unfold blen. rewrite length_app. lia. Qed.

Lemma emit_emit a b w : emit b (emit a w) = emit (a ++ b) w.
Proof. destruct w. unfold emit, upd. simpl. by rewrite <- app_assoc. Qed.

Lemma emit_nil w : emit [] w = w.
Proof. destruct w. unfold emit, upd. simpl. by rewrite app_nil_r. Qed.

Lemma fits_emit a n w : fits (blen a + n) w -> fits n (emit a w).
Proof. intros [H1 H2]. split; [done|]. unfold emit. upd_simpl. rewrite blen_app. lia. Qed.

Lemma rw_fixed_fits data w : fits (blen data) w -> rw_fixed data w = emit data w.
Proof.
  intros [H1 H2]. unfold rw_fixed. rewrite H1. simpl.
  by rewrite (proj2 (N.ltb_ge _ _)).
Qed.

Lemma run_op_fits op w : fits (blen (op_bytes op)) w -> run_op op w = emit (op_bytes op) w.
Proof.
  destruct op; intros Hf; try (apply rw_fixed_fits, Hf). cbn [op_bytes run_op] in *.
  rewrite blen_app in Hf. pose proof Hf as [H1 H2].
  assert (blen (encode_u64_le (blen value)) = 8) as H8.
  { unfold blen, encode_u64_le. by rewrite length_encode_le. }
  unfold w_bytes, w_u64. rewrite H1. simpl.
  rewrite (proj2 (N.ltb_ge (rw_limit w) (blen value))) by lia.
  rewrite (proj2 (N.ltb_ge _ _)) by lia. simpl.
  rewrite rw_fixed_fits by (split; [done | lia]). apply emit_emit.
Qed.

Lemma write_all_fits ops w :
  fits (blen (ops_bytes ops)) w -> write_all ops w = emit (ops_bytes ops) w.
Proof.
  revert w. induction ops as [|op ops IH]; intros w Hf; simpl.
  - by rewrite emit_nil.
  - unfold ops_bytes in *. simpl in *. rewrite blen_app in Hf. fold (ops_bytes ops) in *.
    rewrite run_op_fits, IH, emit_emit; [done| |].
    + by apply fits_emit.
    + destruct Hf. split; [done | lia].
Qed.

(** A refused write is never undone by a later one: the flag the caller tests
    survives, and the buffer is a prefix of what was asked for. *)
Lemma run_op_overflowed op w : rw_overflowed w = true -> run_op op w = w.
Proof.
  intros H. destruct w as [buf lim o]. simpl in H. subst o.
  destruct op; try destruct b; reflexivity.
Qed.

Lemma write_all_overflowed ops w : rw_overflowed w = true -> write_all ops w = w.
Proof.
  intros H. revert w H. induction ops as [|op ops IH]; intros w H; simpl; [done|].
  rewrite run_op_overflowed by done. by apply IH.
Qed.

Lemma payload_bytes ops : blen (ops_bytes ops) <= kDefaultLimit -> payload ops = ops_bytes ops.
Proof.
  intros H. unfold payload. rewrite write_all_fits; [reflexivity|].
  split; [done|]. simpl. unfold blen at 1. simpl. lia.
Qed.

(** ** The codec interface *)

Class Codec {A} (wr : A -> list WriteOp) (rd : Reader A) (wf : A -> Prop) : Prop :=
  codec_read : forall a rest, wf a -> rd (ops_bytes (wr a) ++ rest) = Ok (a, rest).

Lemma ops_bytes_app a b : ops_bytes (a ++ b) = ops_bytes a ++ ops_bytes b.
Proof. unfold ops_bytes. apply bind_app. Qed.

Lemma ops_bytes_cons op ops : ops_bytes (op :: ops) = op_bytes op ++ ops_bytes ops.
Proof. reflexivity. Qed.

Section Primitives.
Context {B : Type} (k : N -> Reader B) (rest : bytes).

Lemma r_raw_app (n : N) (a : bytes) : blen a = n -> r_raw n (a ++ rest) = Ok (a, rest).
Proof.
  intros <-. unfold r_raw. rewrite blen_app. rewrite (proj2 (N.ltb_ge _ _)) by lia.
  unfold blen. rewrite Nat2N.id. by rewrite take_app_length, drop_app_length.
Qed.

Lemma r_u8_op v : v < 256 -> r_bind r_u8 k ([byte_of v] ++ rest) = k v rest.
Proof.
  intros Hv. unfold r_u8, r_bind. rewrite r_raw_app by done. cbn [r_ret].
  f_equal. unfold decode_le. cbn [imap foldr]. rewrite N.lor_0_r, byte_val_of.
  change (8 * N.of_nat 0) with 0. rewrite N.shiftl_0_r.
  change 255 with (N.ones 8). rewrite N.land_ones. by apply N.mod_small.
Qed.

Lemma r_u16_op v : v < u16_mod -> r_bind r_u16 k (encode_u16_le v ++ rest) = k v rest.
Proof.
  intros Hv. unfold r_u16, r_bind, encode_u16_le.
  rewrite r_raw_app by (unfold blen; by rewrite length_encode_le).
  cbn [r_ret]. f_equal. pose proof (decode_u16_app v [] Hv) as H. by rewrite app_nil_r in H.
Qed.

Lemma r_u32_op v : v < u32_mod -> r_bind r_u32 k (encode_u32_le v ++ rest) = k v rest.
Proof.
  intros Hv. unfold r_u32, r_bind, encode_u32_le.
  rewrite r_raw_app by (unfold blen; by rewrite length_encode_le).
  cbn [r_ret]. f_equal. pose proof (decode_u32_app v [] Hv) as H. by rewrite app_nil_r in H.
Qed.

Lemma r_u64_op v : u64 v -> r_bind r_u64 k (encode_u64_le v ++ rest) = k v rest.
Proof.
  intros Hv. assert (v < u64_mod) as Hv' by (unfold u64, u64_max, u64_mod in *; lia).
  unfold r_u64, r_bind, encode_u64_le.
  rewrite r_raw_app by (unfold blen; by rewrite length_encode_le).
  cbn [r_ret]. f_equal. pose proof (decode_u64_app v [] Hv') as H. by rewrite app_nil_r in H.
Qed.
End Primitives.

Lemma r_bool_op {B} (k : bool -> Reader B) rest (b : bool) :
  r_bind r_boolean k ([byte_of (if b then 1 else 0)] ++ rest) = k b rest.
Proof.
  unfold r_boolean, r_bind at 1.
  rewrite r_u8_op by (destruct b; lia).
  by destruct b.
Qed.

Lemma r_enum_op {A B} (ov : N -> option A) e (k : A -> Reader B) rest v a :
  v < 256 -> ov v = Some a -> r_bind (r_enum ov e) k ([byte_of v] ++ rest) = k a rest.
Proof.
  intros Hv Ha. unfold r_enum, r_bind at 1. rewrite r_u8_op by done. by rewrite Ha.
Qed.

Lemma r_codec_op {A B} (wr : A -> list WriteOp) rd wf `{!Codec wr rd wf}
  (k : A -> Reader B) rest a : wf a -> r_bind rd k (ops_bytes (wr a) ++ rest) = k a rest.
Proof. intros Ha. unfold r_bind. by rewrite codec_read. Qed.

Lemma r_repeat_op {A B} (wr : A -> list WriteOp) rd wf `{!Codec wr rd wf}
  (k : list A -> Reader B) rest (l : list A) :
  Forall wf l -> r_bind (r_repeat (length l) rd) k (ops_bytes (l ≫= wr) ++ rest) = k l rest.
Proof.
  intros Hl. revert B k. induction Hl as [|a l Ha Hl IH]; intros B k; [reflexivity|].
  cbn [length r_repeat]. rewrite bind_cons, ops_bytes_app, <- app_assoc.
  unfold r_bind at 1. rewrite (r_codec_op wr rd wf) by done.
  rewrite (IH _ (fun x => r_ret (a :: x))). reflexivity.
Qed.

Lemma r_text_op {B} (k : string -> Reader B) rest s :
  u64 (blen (string_bytes s)) ->
  r_bind r_text k (op_bytes (WText s) ++ rest) = k s rest.
Proof.
  intros Hs. unfold r_text, r_bytes. cbn [op_bytes WText]. rewrite <- app_assoc.
  unfold r_bind at 1 2. rewrite r_u64_op by done.
  rewrite blen_app, (proj2 (N.ltb_ge _ _)) by lia. rewrite r_raw_app by done.
  cbn [r_ret]. by rewrite bytes_string_bytes.
Qed.

(** ** Well-formed values: every field fits its C++ type *)

Definition u32 (x : N) : Prop := x < u32_mod.

Definition wf_provenance (p : Provenance) : Prop := u64 (pv_sequence p) /\ u64 (pv_digest p).
Definition wf_binding (b : Binding) : Prop := u64 (bd_id b) /\ u64 (bd_generation b).

Definition wf_resource (d : ResourceDescriptor) : Prop :=
  Forall u64 [rd_resource d; rd_generation d; rd_capacity d; rd_interval d; rd_max_overlap d]
  /\ wf_provenance (rd_provenance d).

Definition wf_reservation (d : ReservationDescriptor) : Prop :=
  Forall u64 [rv_reservation d; rv_generation d; rv_resource d; rv_resource_generation d;
              rv_window_begin d; rv_window_end d; rv_capacity d]
  /\ wf_provenance (rv_provenance d).

Definition wf_priority_class (d : PriorityClassDescriptor) : Prop :=
  Forall u64 [pc_priority d; pc_generation d; pc_weight d] /\ u32 (pc_rank d)
  /\ wf_provenance (pc_provenance d).

Definition wf_qos_class (d : QoSClassDescriptor) : Prop :=
  Forall u64 [qc_qos d; qc_generation d; qc_max_service_per_dispatch d]
  /\ wf_provenance (qc_provenance d).

Definition wf_flow (d : FlowDescriptor) : Prop :=
  Forall wf_binding [fd_path d; fd_resource d; fd_reservation d; fd_priority d; fd_qos d]
  /\ Forall u64 [fd_flow d; fd_generation d; fd_fairness_group d; fd_estimated_work d;
                 fd_service_quantum d; fd_min_service d; fd_min_service_window d;
                 fd_release_tick d; fd_deadline_tick d; fd_weight d; fd_trace d]
  /\ fd_readiness_signal d <= 2 /\ Forall u64 (fd_dependencies d)
  /\ N.of_nat (length (fd_dependencies d)) <= kMaxDependenciesPerFlow
  /\ wf_provenance (fd_provenance d).

Definition wf_entry (e : ScheduleEntry) : Prop :=
  Forall u64 [se_flow e; se_flow_generation e; se_attempt e; se_path e; se_path_generation e;
              se_resource e; se_resource_generation e; se_reservation e;
              se_reservation_generation e; se_qos e; se_qos_generation e; se_priority e;
              se_priority_generation e; se_quantum e; se_start_tick e; se_deadline_tick e;
              se_reservation_end e; se_ordering_digest e]
  /\ u32 (se_ordinal e) /\ u32 (se_tier e)
  /\ durable_reason_of_value (reason_value (se_reason e)) = Some (se_reason e)
  /\ N.of_nat (String.length (se_detail e)) <= kMaxExplanationBytes.

Definition wf_schedule (s : Schedule) : Prop :=
  Forall u64 [sc_schedule s; sc_generation s; sc_epoch s; sc_policy s; sc_policy_generation s;
              pb_policy (sc_policy_binding s); pb_generation (sc_policy_binding s);
              pb_digest (sc_policy_binding s); sc_at_tick s; sc_digest s]
  /\ N.of_nat (length (sc_entries s)) <= kMaxEntriesPerSchedule
  /\ Forall wf_entry (sc_entries s) /\ wf_provenance (sc_provenance s).

Definition wf_policy (p : SchedulingPolicy) : Prop :=
  Forall u64 [po_policy p; po_generation p; po_starvation_bound_ticks p;
              po_deadline_urgency_ticks p; po_min_preempt_service p;
              po_preemption_interval_ticks p; po_max_quantum p; po_default_max_overlap p;
              po_dispatch_delivery_horizon p]
  /\ Forall u32 [po_max_preemptions_per_interval p; po_max_flows p; po_max_resources p;
                 po_max_reservations p; po_max_entries_per_schedule p;
                 po_retained_schedule_history p]
  /\ wf_provenance (po_provenance p).

Definition wf_ticket (t : DispatchTicket) : Prop :=
  Forall u64 [tk_attempt t; tk_epoch t; tk_schedule t; tk_schedule_generation t; tk_flow t;
              tk_flow_generation t; tk_path t; tk_path_generation t; tk_resource t;
              tk_resource_generation t; tk_reservation t; tk_reservation_generation t;
              tk_qos t; tk_qos_generation t; tk_priority t; tk_priority_generation t;
              tk_policy t; tk_policy_generation t; tk_worker t; tk_boot t; tk_start_tick t;
              tk_deadline_tick t; tk_reservation_end t; tk_quantum t; tk_digest t]
  /\ ticket_bound t = true /\ tk_quantum t <> 0 /\ tk_quantum t <= kMaxQuantum.

Definition wf_evidence (e : CompletionEvidence) : Prop :=
  Forall u64 [ev_schedule e; ev_schedule_generation e; ev_attempt e; ev_epoch e; ev_flow e;
              ev_flow_generation e; ev_worker e; ev_boot e; ev_served e; ev_effect_digest e;
              ev_observed_tick e]
  /\ u32 (ev_effect_code e) /\ evidence_bound e = true /\ ev_served e <= kMaxServiceUnits
  /\ wf_provenance (ev_provenance e).

(** Splits well-formedness hypotheses down to one fact per field. *)
Ltac wf_destruct :=
  repeat match goal with
    | H : _ /\ _ |- _ => destruct H
    | H : Forall _ (_ :: _) |- _ => apply Forall_cons_1 in H
    | H : Forall _ [] |- _ => clear H
    end.

Lemma ops_bytes_nil_app rest : ops_bytes [] ++ rest = rest.
Proof. reflexivity. Qed.

Lemma r_fail_if_false {A} (c : bool) e (k : Reader A) rest :
  c = false -> (if c then r_fail e else k) rest = k rest.
Proof. by intros ->. Qed.

Lemma fmap_WU64 (l : list N) : WU64 <$> l = l ≫= (fun v => [WU64 v]).
Proof. induction l as [|v l IH]; [done|]. rewrite fmap_cons, bind_cons, IH. done. Qed.

Lemma durable_reason_range r : reason_value r < 256.
Proof. by destruct r. Qed.

(** Puts the written bytes in the form [field ++ (field ++ ... ++ rest)]. *)
Ltac flat_ops :=
  rewrite ?ops_bytes_app, ?ops_bytes_cons; cbn [op_bytes]; rewrite <- ?app_assoc;
  rewrite ?ops_bytes_nil_app.

(** Reads back one field. *)
Ltac read_step :=
  lazymatch goal with
  | |- r_bind r_u64 _ _ = _ => rewrite r_u64_op by assumption
  | |- r_bind r_u32 _ _ = _ => rewrite r_u32_op by assumption
  | |- r_bind r_u8 _ _ = _ => rewrite r_u8_op by lia
  | |- r_bind r_boolean _ _ = _ => rewrite r_bool_op
  | |- r_bind (read_provenance _) _ _ = _ =>
      rewrite (r_codec_op _ _ wf_provenance) by assumption
  | |- r_bind read_binding _ _ = _ => rewrite (r_codec_op _ _ wf_binding) by assumption
  end; cbv beta.

#[export] Instance provenance_codec e : Codec write_provenance (read_provenance e) wf_provenance.
Proof.
  intros d rest [Hs Hd]. unfold read_provenance, write_provenance. flat_ops.
  rewrite (r_enum_op _ _ _ _ _ (pv_origin d));
    [|destruct (pv_origin d); done | apply origin_value_roundtrip].
  repeat read_step. by destruct d.
Qed.

#[export] Instance binding_codec : Codec write_binding read_binding wf_binding.
Proof.
  intros d rest [Hi Hg]. unfold read_binding, write_binding. flat_ops.
  repeat read_step. by destruct d.
Qed.

#[export] Instance u64_codec : Codec (fun v => [WU64 v]) r_u64 u64.
Proof.
  intros v rest Hv. flat_ops. pose proof (r_u64_op (fun x => r_ret x) rest v Hv) as H.
  unfold r_bind in H. destruct (r_u64 _) as [[? ?]|]; done.
Qed.

#[export] Instance resource_codec : Codec write_resource read_resource wf_resource.
Proof.
  intros d rest Hwf. unfold wf_resource in Hwf. wf_destruct.
  unfold read_resource, write_resource. flat_ops. repeat read_step. by destruct d.
Qed.

#[export] Instance reservation_codec :
  Codec write_reservation read_reservation wf_reservation.
Proof.
  intros d rest Hwf. unfold wf_reservation in Hwf. wf_destruct.
  unfold read_reservation, write_reservation. flat_ops. repeat read_step. by destruct d.
Qed.

#[export] Instance priority_class_codec :
  Codec write_priority_class read_priority_class wf_priority_class.
Proof.
  intros d rest Hwf. unfold wf_priority_class in Hwf. wf_destruct.
  unfold read_priority_class, write_priority_class. flat_ops.
  repeat read_step. by destruct d.
Qed.

#[export] Instance qos_class_codec : Codec write_qos_class read_qos_class wf_qos_class.
Proof.
  intros d rest Hwf. unfold wf_qos_class in Hwf. wf_destruct.
  unfold read_qos_class, write_qos_class. flat_ops. repeat read_step. by destruct d.
Qed.

#[export] Instance flow_codec : Codec write_flow_descriptor read_flow_descriptor wf_flow.
Proof.
  intros d rest Hwf. unfold wf_flow in Hwf. wf_destruct.
  unfold read_flow_descriptor, write_flow_descriptor. rewrite fmap_WU64. flat_ops.
  repeat read_step. rewrite r_fail_if_false by (by apply N.ltb_ge).
  rewrite r_u64_op by (unfold u64, u64_max, kMaxDependenciesPerFlow in *; lia). cbv beta.
  rewrite r_fail_if_false by (by apply N.ltb_ge). rewrite Nat2N.id.
  rewrite (r_repeat_op _ _ u64) by assumption. cbv beta.
  repeat read_step. by destruct d.
Qed.

#[export] Instance entry_codec : Codec write_entry read_entry wf_entry.
Proof.
  intros d rest Hwf. unfold wf_entry in Hwf. wf_destruct.
  unfold read_entry, write_entry. flat_ops. repeat read_step.
  rewrite (r_enum_op _ _ _ _ _ (se_kind d));
    [| by destruct (se_kind d) | by destruct (se_kind d)].
  repeat read_step.
  rewrite (r_enum_op _ _ _ _ _ (se_reason d)); [|apply durable_reason_range | done].
  repeat read_step.
  rewrite r_text_op.
  2:{ unfold blen, u64, u64_max. rewrite length_string_bytes.
      unfold kMaxExplanationBytes in *. lia. }
  cbv beta. rewrite r_fail_if_false by (by apply N.ltb_ge). by destruct d.
Qed.

#[export] Instance schedule_codec : Codec write_schedule read_schedule wf_schedule.
Proof.
  intros d rest Hwf. unfold wf_schedule in Hwf. wf_destruct.
  unfold read_schedule, write_schedule. flat_ops. do 9 read_step.
  rewrite r_u64_op by (unfold u64, u64_max, kMaxEntriesPerSchedule in *; lia). cbv beta.
  rewrite r_fail_if_false by (by apply N.ltb_ge). rewrite Nat2N.id.
  rewrite (r_repeat_op _ _ wf_entry) by assumption. cbv beta.
  repeat read_step. destruct d as [? ? ? ? ? [] ? ? ? ?]. done.
Qed.

#[export] Instance policy_codec : Codec write_policy read_policy wf_policy.
Proof.
  intros d rest Hwf. unfold wf_policy in Hwf. wf_destruct.
  unfold read_policy, write_policy. flat_ops. repeat read_step.
  rewrite (r_enum_op _ _ _ _ _ (po_preemption d));
    [| by destruct (po_preemption d) | by destruct (po_preemption d)].
  repeat read_step. by destruct d.
Qed.

#[export] Instance ticket_codec : Codec write_ticket read_ticket wf_ticket.
Proof.
  intros d rest Hwf. unfold wf_ticket in Hwf. wf_destruct.
  unfold read_ticket, write_ticket. flat_ops. repeat read_step.
  rewrite (r_enum_op _ _ _ _ _ (tk_state d));
    [| by destruct (tk_state d) | by destruct (tk_state d)].
  repeat read_step. cbv zeta.
  rewrite r_fail_if_false by (by destruct d; apply negb_false_iff).
  rewrite r_fail_if_false by (by apply N.eqb_neq).
  rewrite r_fail_if_false by (by apply N.ltb_ge). by destruct d.
Qed.

#[export] Instance evidence_codec : Codec write_evidence read_evidence wf_evidence.
Proof.
  intros d rest Hwf. unfold wf_evidence in Hwf. wf_destruct.
  unfold read_evidence, write_evidence. flat_ops. repeat read_step.
  rewrite (r_enum_op _ _ _ _ _ (ev_outcome d));
    [| by destruct (ev_outcome d) | by destruct (ev_outcome d)].
  repeat read_step. cbv zeta.
  rewrite r_fail_if_false by (by destruct d; apply negb_false_iff).
  rewrite r_fail_if_false by (by apply N.ltb_ge). by destruct d.
Qed.
