(* ===== verification/Framing.v ===== *)
(** * Wire frames

    Models include/flow_scheduler/framing.hpp and src/framing.cpp: the frame
    layout ([encode_frame], [decode_frame]) and [FrameAccumulator], which cuts a
    byte stream back into frames.

    The theorems at the end show that a frame decodes to what was encoded, that
    nothing but an encoded frame is accepted, that the accumulator never holds
    more than its bound, and that the frames it delivers depend only on the
    bytes received, not on how they were cut into reads. *)

From S2P Require Import Prelude Checked Bytes Hash Codec.

Definition kFrameMagic : N := 826495814. (* 0x31435346 *)
Definition kProtocolVersion : N := 1.
Definition kFrameHeaderBytes : N := 20.
Definition kFrameTrailerBytes : N := 4.
Definition kFrameOverhead : N := kFrameHeaderBytes + kFrameTrailerBytes.
Definition kMaxFramePayload : N := 1048576.
Definition kMaxMessageType : N := 1024.

Record FrameHeader := mkFrameHeader {
  fh_version : N;
  fh_type : N;
  fh_flags : N;
  fh_payload_length : N }.

(** ** One frame *)

(** The first sixteen bytes, which the header checksum covers. *)
Definition frame_prefix (type flags length : N) : bytes :=
  encode_u32_le kFrameMagic ++ encode_u16_le kProtocolVersion ++ encode_u16_le type ++
  encode_u32_le flags ++ encode_u32_le length.

Definition encode_frame (type : N) (payload : bytes) (flags : N) : Res bytes :=
  fail_if kMaxFramePayload <? blen payload with Oversized ;;
  fail_if (type =? 0) || (kMaxMessageType <? type) with InvalidArgument ;;
  let frame := frame_prefix type flags (blen payload) in
  let frame := frame ++ encode_u32_le (crc32c frame) in
  Ok (frame ++ payload ++ encode_u32_le (crc32c payload)).

(** [buffer.data() + offset]; [buffer.substr(offset, count)] *)
Definition at_offset (offset : N) (buffer : bytes) : bytes := drop (N.to_nat offset) buffer.
Definition substr (offset count : N) (buffer : bytes) : bytes :=
  take (N.to_nat count) (at_offset offset buffer).

(** The payload view is an out parameter that callers read only on success. *)
Definition decode_frame (buffer : bytes) : Res (FrameHeader * bytes) :=
  fail_if blen buffer <? kFrameOverhead with Truncated ;;
  fail_if negb (decode_u32_le buffer =? kFrameMagic) with ProtocolViolation ;;
  let header := mkFrameHeader (decode_u16_le (at_offset 4 buffer))
                  (decode_u16_le (at_offset 6 buffer)) (decode_u32_le (at_offset 8 buffer))
                  (decode_u32_le (at_offset 12 buffer)) in
  fail_if negb (fh_version header =? kProtocolVersion) with Unsupported ;;
  fail_if negb (fh_flags header =? 0) with ProtocolViolation ;;
  fail_if (fh_type header =? 0) || (kMaxMessageType <? fh_type header)
    with ProtocolViolation ;;
  fail_if kMaxFramePayload <? fh_payload_length header with Oversized ;;
  fail_if negb (decode_u32_le (at_offset 16 buffer) =? crc32c (substr 0 16 buffer))
    with CorruptData ;;
  let total := kFrameOverhead + fh_payload_length header in
  fail_if blen buffer <? total with Truncated ;;
  let payload := substr kFrameHeaderBytes (fh_payload_length header) buffer in
  fail_if negb (decode_u32_le (at_offset (kFrameHeaderBytes + fh_payload_length header) buffer)
                =? crc32c payload) with CorruptData ;;
  Ok (header, payload).

(** ** FrameAccumulator *)

Record FrameAccumulator := mkFrameAccumulator {
  fa_buffer : bytes;
  fa_frames_decoded : N;
  fa_bytes_discarded : N }.

#[export] Instance eta_FrameAccumulator : Eta FrameAccumulator := fun a =>
  mkFrameAccumulator (fa_buffer a) (fa_frames_decoded a) (fa_bytes_discarded a).

Definition new_accumulator : FrameAccumulator := mkFrameAccumulator [] 0 0.

Definition fa_push (data : bytes) : M ErrorCode FrameAccumulator unit :=
  let* self := get in
  reject_if (kMaxFramePayload + kFrameOverhead <? blen data)
            || (2 * (kMaxFramePayload + kFrameOverhead) <? blen (fa_buffer self) + blen data)
    with Oversized ;;
  modify (fun self => self <| fa_buffer ::= fun b => b ++ data |>).

(** [None] is [false], "more bytes are needed"; [Some] is [true] with the two
    out parameters. *)
Definition fa_next : M ErrorCode FrameAccumulator (option (FrameHeader * bytes)) :=
  let* self := get in
  if blen (fa_buffer self) <? kFrameHeaderBytes then ret None else
  let declared := decode_u32_le (at_offset 12 (fa_buffer self)) in
  reject_if kMaxFramePayload <? declared with Oversized ;;
  let total := kFrameOverhead + declared in
  if blen (fa_buffer self) <? total then ret None else
  let* parsed := lift (decode_frame (substr 0 total (fa_buffer self))) in
  modify (fun self => self <| fa_buffer ::= at_offset total |>
                           <| fa_frames_decoded ::= incr64 |>) ;;;
  ret (Some parsed).

Definition fa_reset (self : FrameAccumulator) : FrameAccumulator :=
  self <| fa_bytes_discarded := add64 (fa_bytes_discarded self) (blen (fa_buffer self)) |>
       <| fa_buffer := [] |>.

(** ** Offsets *)

Lemma at_offset_app (n : N) (a l : bytes) :
  blen a <= n -> at_offset n (a ++ l) = at_offset (n - blen a) l.
Proof.
  intros H. unfold at_offset, blen in *. rewrite drop_app_ge by lia. f_equal. lia.
Qed.

Lemma at_offset_offset (m n : N) (l : bytes) : at_offset n (at_offset m l) = at_offset (m + n) l.
Proof. unfold at_offset. rewrite drop_drop. f_equal. lia. Qed.

Lemma blen_at_offset (n : N) (l : bytes) : blen (at_offset n l) = blen l - n.
Proof. unfold at_offset, blen. rewrite length_drop. lia. Qed.

Lemma blen_encode_u16 v : blen (encode_u16_le v) = 2.
Proof. unfold blen, encode_u16_le. by rewrite length_encode_le. Qed.

Lemma blen_encode_u32 v : blen (encode_u32_le v) = 4.
Proof. unfold blen, encode_u32_le. by rewrite length_encode_le. Qed.

Lemma substr_app (n : N) (a l : bytes) : blen a = n -> substr 0 n (a ++ l) = a.
Proof.
  intros <-. unfold substr, at_offset, blen. change (N.to_nat 0) with 0%nat.
  by rewrite Nat2N.id, drop_0, take_app_length.
Qed.

Lemma substr_mid (n : N) (a p l : bytes) : blen a = n -> substr n (blen p) (a ++ p ++ l) = p.
Proof.
  intros <-. unfold substr. rewrite at_offset_app, N.sub_diag by done.
  change (at_offset 0 (p ++ l)) with (p ++ l). unfold blen. by rewrite Nat2N.id, take_app_length.
Qed.

(** A buffer that is long enough starts with the word its decoder returns. *)
Lemma u32_split (l : bytes) : 4 <= blen l -> l = encode_u32_le (decode_u32_le l) ++ at_offset 4 l.
Proof.
  intros H. unfold encode_u32_le, decode_u32_le, at_offset, blen in *.
  rewrite <- (take_drop 4 l) at 1. f_equal.
  rewrite <- (encode_decode_le (take 4 l)) at 1. by rewrite length_take_le by lia.
Qed.

Lemma u16_split (l : bytes) : 2 <= blen l -> l = encode_u16_le (decode_u16_le l) ++ at_offset 2 l.
Proof.
  intros H. unfold encode_u16_le, decode_u16_le, at_offset, blen in *.
  rewrite <- (take_drop 2 l) at 1. f_equal.
  rewrite <- (encode_decode_le (take 2 l)) at 1. by rewrite length_take_le by lia.
Qed.

Lemma substr_split (n : N) (l : bytes) : n <= blen l -> l = substr 0 n l ++ at_offset n l.
Proof.
  intros _. unfold substr, at_offset. change (N.to_nat 0) with 0%nat.
  by rewrite drop_0, take_drop.
Qed.

(** ** The frame of a message *)

Definition frame_ok (type : N) (payload : bytes) : Prop :=
  0 < type <= kMaxMessageType /\ blen payload <= kMaxFramePayload.

#[export] Instance frame_ok_dec type payload : Decision (frame_ok type payload) := _.

Definition frame_header (type : N) (payload : bytes) : FrameHeader :=
  mkFrameHeader kProtocolVersion type 0 (blen payload).

Definition sealed_prefix (type length : N) : bytes :=
  frame_prefix type 0 length ++ encode_u32_le (crc32c (frame_prefix type 0 length)).

Definition frame_bytes (type : N) (payload : bytes) : bytes :=
  sealed_prefix type (blen payload) ++ payload ++ encode_u32_le (crc32c payload).

Lemma encode_frame_ok type payload :
  frame_ok type payload -> encode_frame type payload 0 = Ok (frame_bytes type payload).
Proof.
  intros [[H0 H1] H2]. unfold encode_frame, guard_err.
  rewrite (proj2 (N.ltb_ge _ _)) by done.
  rewrite (proj2 (N.eqb_neq _ _)), (proj2 (N.ltb_ge _ _)) by lia. simpl.
  done.
Qed.

Lemma encode_frame_inv type payload frame :
  encode_frame type payload 0 = Ok frame ->
  frame_ok type payload /\ frame = frame_bytes type payload.
Proof.
  unfold encode_frame, guard_err. intros H.
  destruct (kMaxFramePayload <? blen payload) eqn:E1; [done|].
  destruct ((type =? 0) || (kMaxMessageType <? type)) eqn:E2; [done|].
  apply orb_false_elim in E2 as [E2 E3].
  apply N.ltb_ge in E1, E3. apply N.eqb_neq in E2.
  split; [repeat split; (lia || done)|]. by injection H as <-.
Qed.

Lemma blen_frame_prefix type flags len : blen (frame_prefix type flags len) = 16.
Proof. unfold frame_prefix. by rewrite !blen_app, !blen_encode_u32, !blen_encode_u16. Qed.

Lemma blen_sealed_prefix type len : blen (sealed_prefix type len) = kFrameHeaderBytes.
Proof. unfold sealed_prefix. by rewrite blen_app, blen_frame_prefix, blen_encode_u32. Qed.

Lemma blen_frame_bytes type payload :
  blen (frame_bytes type payload) = kFrameOverhead + blen payload.
Proof.
  unfold frame_bytes. rewrite !blen_app, blen_sealed_prefix, blen_encode_u32.
  unfold kFrameOverhead, kFrameHeaderBytes, kFrameTrailerBytes. lia.
Qed.

Lemma at_offset_0 l : at_offset 0 l = l.
Proof. apply drop_0. Qed.

(** Steps over the fixed-width fields in front of an offset. *)
Ltac skip_fields :=
  repeat
    (rewrite at_offset_app by (rewrite ?blen_encode_u32, ?blen_encode_u16; done);
     rewrite ?blen_encode_u32, ?blen_encode_u16;
     match goal with
     | |- context [at_offset (?a - ?b) _] =>
         let c := eval vm_compute in (a - b) in change (a - b) with c
     end);
  rewrite ?at_offset_0.

Lemma frame_fields type len rest :
  type < u16_mod -> len < u32_mod ->
  let l := sealed_prefix type len ++ rest in
  decode_u32_le l = kFrameMagic /\ decode_u16_le (at_offset 4 l) = kProtocolVersion /\
  decode_u16_le (at_offset 6 l) = type /\ decode_u32_le (at_offset 8 l) = 0 /\
  decode_u32_le (at_offset 12 l) = len /\
  decode_u32_le (at_offset 16 l) = crc32c (substr 0 16 l).
Proof.
  intros Ht Hl. unfold sealed_prefix. rewrite <- app_assoc.
  rewrite (substr_app 16) by apply blen_frame_prefix.
  pose proof (crc32c_bound (frame_prefix type 0 len)) as Hc. revert Hc.
  generalize (crc32c (frame_prefix type 0 len)). intros c Hc.
  unfold frame_prefix. rewrite <- !app_assoc. cbv zeta.
  repeat split; skip_fields;
    lazymatch goal with
    | |- decode_u16_le _ = _ => rewrite decode_u16_app by done; reflexivity
    | |- decode_u32_le _ = _ => rewrite decode_u32_app by done; reflexivity
    end.
Qed.

Lemma frame_bytes_app type payload rest :
  frame_bytes type payload ++ rest =
  sealed_prefix type (blen payload) ++ payload ++ encode_u32_le (crc32c payload) ++ rest.
Proof. unfold frame_bytes. by rewrite <- !app_assoc. Qed.

(** Behind a sound header, decoding only compares the payload checksum. *)
Lemma decode_frame_sealed type n tail :
  0 < type <= kMaxMessageType -> n <= kMaxFramePayload -> kFrameTrailerBytes + n <= blen tail ->
  decode_frame (sealed_prefix type n ++ tail) =
  if decode_u32_le (at_offset n tail) =? crc32c (substr 0 n tail)
  then Ok (mkFrameHeader kProtocolVersion type 0 n, substr 0 n tail) else Err CorruptData.
Proof.
  intros Ht Hp Hn.
  assert (type < u16_mod) as Ht' by (unfold kMaxMessageType, u16_mod in *; lia).
  assert (n < u32_mod) as Hp' by (unfold kMaxFramePayload, u32_mod in *; lia).
  assert (kFrameOverhead + n <= blen (sealed_prefix type n ++ tail)) as Hlen.
  { rewrite blen_app, blen_sealed_prefix. unfold kFrameOverhead. lia. }
  destruct (frame_fields type n tail Ht' Hp') as (E1 & E2 & E3 & E4 & E5 & E6).
  unfold decode_frame, guard_err. cbn [fh_version fh_type fh_flags fh_payload_length].
  rewrite E1, E2, E3, E4, E5, E6. rewrite !N.eqb_refl. cbn [negb].
  rewrite (proj2 (N.ltb_ge _ _)) by lia.
  rewrite (proj2 (N.eqb_neq type 0)), (proj2 (N.ltb_ge kMaxMessageType type)) by lia.
  rewrite (proj2 (N.ltb_ge kMaxFramePayload _)), (proj2 (N.ltb_ge _ (_ + _))) by lia.
  cbn [orb]. unfold substr. rewrite !at_offset_app by (rewrite blen_sealed_prefix; lia).
  rewrite blen_sealed_prefix, N.sub_diag, (N.add_comm kFrameHeaderBytes), N.add_sub.
  by destruct (_ =? _).
Qed.

Lemma decode_frame_frame type payload rest :
  frame_ok type payload ->
  decode_frame (frame_bytes type payload ++ rest) = Ok (frame_header type payload, payload).
Proof.
  intros [Ht Hp]. rewrite frame_bytes_app, decode_frame_sealed by
    (try done; rewrite !blen_app, blen_encode_u32; unfold kFrameTrailerBytes; lia).
  rewrite substr_app, at_offset_app, N.sub_diag, at_offset_0 by done.
  rewrite decode_u32_app by apply crc32c_bound. by rewrite N.eqb_refl.
Qed.

(** The header fields pin the first twenty bytes. *)
Lemma frame_prefix_inv (l : bytes) :
  kFrameHeaderBytes <= blen l -> decode_u32_le l = kFrameMagic ->
  decode_u16_le (at_offset 4 l) = kProtocolVersion -> decode_u32_le (at_offset 8 l) = 0 ->
  decode_u32_le (at_offset 16 l) = crc32c (substr 0 16 l) ->
  l = sealed_prefix (decode_u16_le (at_offset 6 l)) (decode_u32_le (at_offset 12 l))
        ++ at_offset 20 l.
Proof.
  intros Hlen E1 E2 E4 E6. unfold kFrameHeaderBytes in Hlen.
  set (t := decode_u16_le (at_offset 6 l)). set (n := decode_u32_le (at_offset 12 l)).
  assert (l = frame_prefix t 0 n ++ at_offset 16 l) as Hl.
  { unfold frame_prefix. rewrite <- !app_assoc.
    rewrite (u32_split l), E1 at 1 by lia. f_equal.
    rewrite (u16_split (at_offset 4 l)), E2 at 1 by (rewrite blen_at_offset; lia). f_equal.
    rewrite at_offset_offset, (u16_split (at_offset _ l)) at 1 by (rewrite blen_at_offset; lia).
    f_equal.
    rewrite at_offset_offset, (u32_split (at_offset _ l)) at 1 by (rewrite blen_at_offset; lia).
    change (4 + 2 + 2) with 8. rewrite E4. f_equal.
    rewrite at_offset_offset, (u32_split (at_offset _ l)) at 1 by (rewrite blen_at_offset; lia).
    f_equal. rewrite at_offset_offset. done. }
  unfold sealed_prefix. rewrite <- app_assoc. rewrite Hl at 1. f_equal.
  rewrite (u32_split (at_offset 16 l)), E6 at 1 by (rewrite blen_at_offset; lia).
  rewrite Hl at 1. rewrite substr_app by apply blen_frame_prefix. f_equal.
  by rewrite at_offset_offset.
Qed.

Lemma decode_frame_inv (buffer : bytes) (h : FrameHeader) (p : bytes) :
  decode_frame buffer = Ok (h, p) ->
  frame_ok (fh_type h) p /\ h = frame_header (fh_type h) p /\
  exists rest, buffer = frame_bytes (fh_type h) p ++ rest.
Proof.
  unfold decode_frame. cbn [fh_version fh_type fh_flags fh_payload_length].
  intros H.
  apply guard_err_Ok in H as [H0 H]. apply guard_err_Ok in H as [H1 H].
  apply guard_err_Ok in H as [H2 H]. apply guard_err_Ok in H as [H3 H].
  apply guard_err_Ok in H as [H4 H]. apply guard_err_Ok in H as [H5 H].
  apply guard_err_Ok in H as [H6 H]. apply guard_err_Ok in H as [H7 H].
  apply guard_err_Ok in H as [H8 H]. injection H as <- <-.
  apply negb_false_iff, N.eqb_eq in H1, H2, H3, H6, H8.
  apply orb_false_elim in H4 as [H4 H4']. apply N.eqb_neq in H4.
  apply N.ltb_ge in H0, H4', H5, H7.
  pose proof (frame_prefix_inv buffer) as Hb. rewrite H1, H2, H3, H6 in Hb.
  cbn [fh_type]. set (t := decode_u16_le _) in *. set (n := decode_u32_le (at_offset 12 _)) in *.
  unfold kFrameOverhead, kFrameHeaderBytes, kFrameTrailerBytes in *.
  set (q := substr (20) n buffer) in *.
  assert (blen q = n) as Hq.
  { unfold q, substr, blen. rewrite length_take_le; [lia|].
    pose proof (blen_at_offset 20 buffer) as Hl. unfold blen in *. lia. }
  repeat split; try (lia || by rewrite Hq); [unfold frame_header; by rewrite H2, H3, Hq|].
  exists (at_offset (24 + n) buffer). rewrite frame_bytes_app, Hq.
  rewrite Hb at 1 by (try done; lia). f_equal.
  assert (at_offset 20 buffer = q ++ at_offset (20 + n) buffer) as ->.
  { unfold q, substr. rewrite <- at_offset_offset. unfold at_offset. by rewrite take_drop. }
  f_equal. rewrite (u32_split (at_offset (20 + n) buffer)), H8 at 1
    by (rewrite blen_at_offset; lia).
  f_equal. rewrite at_offset_offset. f_equal. lia.
Qed.

(** ** The accumulator *)

Lemma fa_push_ok (data : bytes) (a : FrameAccumulator) :
  blen data <= kMaxFramePayload + kFrameOverhead ->
  blen (fa_buffer a) + blen data <= 2 * (kMaxFramePayload + kFrameOverhead) ->
  fa_push data a = (a <| fa_buffer ::= fun b => b ++ data |>, Ok tt).
Proof.
  intros H1 H2. unfold fa_push, bind, get, guard.
  rewrite (proj2 (N.ltb_ge _ (blen data))), (proj2 (N.ltb_ge _ _)) by done. done.
Qed.

Lemma fa_next_frame (a : FrameAccumulator) type payload rest :
  frame_ok type payload -> fa_buffer a = frame_bytes type payload ++ rest ->
  fa_next a = (mkFrameAccumulator rest (incr64 (fa_frames_decoded a)) (fa_bytes_discarded a),
               Ok (Some (frame_header type payload, payload))).
Proof.
  intros Hok Hbuf. pose proof Hok as [Ht Hp].
  destruct (frame_fields type (blen payload)
              (payload ++ encode_u32_le (crc32c payload) ++ rest))
    as (_ & _ & _ & _ & Hn & _);
    [unfold kMaxMessageType, u16_mod in *; lia | unfold kMaxFramePayload, u32_mod in *; lia|].
  rewrite <- frame_bytes_app, <- Hbuf in Hn.
  assert (blen (fa_buffer a) = kFrameOverhead + blen payload + blen rest) as Hlen
    by (rewrite Hbuf, blen_app, blen_frame_bytes; done).
  unfold fa_next, bind, get, guard, lift, modify, ret. rewrite Hn.
  rewrite (proj2 (N.ltb_ge _ kFrameHeaderBytes)) by
    (rewrite Hlen; unfold kFrameOverhead, kFrameHeaderBytes, kFrameTrailerBytes; lia).
  rewrite (proj2 (N.ltb_ge kMaxFramePayload _)), (proj2 (N.ltb_ge _ (_ + _))) by lia.
  rewrite Hbuf, substr_app by apply blen_frame_bytes.
  pose proof (decode_frame_frame type payload [] Hok) as Hd. rewrite app_nil_r in Hd.
  rewrite Hd. destruct a as [buf k d]. cbn [fa_buffer] in *. unfold upd. cbn.
  f_equal. f_equal. rewrite Hbuf, at_offset_app by (rewrite blen_frame_bytes; lia).
  by rewrite blen_frame_bytes, N.sub_diag, at_offset_0.
Qed.

(** The length field can be read as soon as the header is complete. *)
Lemma declared_prefix (buf more l : bytes) :
  kFrameHeaderBytes <= blen buf -> l = buf ++ more ->
  decode_u32_le (at_offset 12 buf) = decode_u32_le (at_offset 12 l).
Proof.
  intros Hlen ->. unfold decode_u32_le, at_offset, kFrameHeaderBytes, blen in *. f_equal.
  rewrite drop_app_le by lia. rewrite take_app_le by (rewrite length_drop; lia). done.
Qed.

Lemma fa_next_partial (a : FrameAccumulator) type payload more :
  frame_ok type payload -> frame_bytes type payload = fa_buffer a ++ more -> more <> [] ->
  fa_next a = (a, Ok None).
Proof.
  intros [Ht Hp] Hbuf Hmore. unfold fa_next, bind, get, guard, ret.
  destruct (blen (fa_buffer a) <? kFrameHeaderBytes) eqn:E; [done|].
  apply N.ltb_ge in E. rewrite (declared_prefix _ more _ E Hbuf).
  destruct (frame_fields type (blen payload) (payload ++ encode_u32_le (crc32c payload)))
    as (_ & _ & _ & _ & Hn & _);
    [unfold kMaxMessageType, u16_mod in *; lia | unfold kMaxFramePayload, u32_mod in *; lia|].
  fold (frame_bytes type payload) in Hn. rewrite Hn.
  rewrite (proj2 (N.ltb_ge kMaxFramePayload _)) by lia.
  rewrite (proj2 (N.ltb_lt _ (_ + _))); [done|].
  apply (f_equal blen) in Hbuf. rewrite blen_frame_bytes, blen_app in Hbuf.
  destruct more; [done|]. unfold blen in *. simpl in *. lia.
Qed.

(** Every history of an accumulator. *)
Inductive accumulates : FrameAccumulator -> Prop :=
| acc_new : accumulates new_accumulator
| acc_push a data : accumulates a -> accumulates (exec (fa_push data) a)
| acc_next a : accumulates a -> accumulates (exec fa_next a)
| acc_reset a : accumulates a -> accumulates (fa_reset a).

Lemma blen_fa_next a : blen (fa_buffer (exec fa_next a)) <= blen (fa_buffer a).
Proof.
  unfold exec, fa_next, bind, get, guard, lift, modify, ret, throw.
  repeat (case_match; simplify_eq; simpl; try done).
  unfold upd. simpl. rewrite blen_at_offset. lia.
Qed.

(** ** Properties *)

(** C20 A buffer decodes to a header and a payload exactly when it starts
    with the frame [encode_frame] builds for that type and payload; the header
    then carries this protocol version, no flags and the payload's length.  So
    decoding inverts encoding, and no byte string that was not produced by
    [encode_frame] is ever accepted. *)
Theorem decode_frame_exact (buffer : bytes) (h : FrameHeader) (p : bytes) :
  decode_frame buffer = Ok (h, p) <->
  exists frame rest,
    encode_frame (fh_type h) p 0 = Ok frame /\ buffer = frame ++ rest /\
    h = mkFrameHeader kProtocolVersion (fh_type h) 0 (blen p).
Proof.
  split.
  - intros (Hok & Hh & rest & Hb)%decode_frame_inv.
    exists (frame_bytes (fh_type h) p), rest. split; [by apply encode_frame_ok|]. done.
  - intros (frame & rest & He & -> & Hh).
    apply encode_frame_inv in He as [Hok ->]. rewrite Hh at 2. by apply decode_frame_frame.
Qed.

(** C31 A frame whose payload had one byte changed in transit is never
    delivered: decoding reports [CorruptData]. *)
Theorem corrupted_payload_byte_rejected (type : N) (a c rest : bytes) (x y : byte)
  (Hok : frame_ok type (a ++ x :: c)) (Hxy : x <> y) :
  decode_frame (sealed_prefix type (blen (a ++ x :: c)) ++ (a ++ y :: c)
                  ++ encode_u32_le (crc32c (a ++ x :: c)) ++ rest) = Err CorruptData.
Proof.
  assert (blen (a ++ x :: c) = blen (a ++ y :: c)) as Hlen by by rewrite !blen_app.
  destruct Hok as [Ht Hp]. rewrite decode_frame_sealed; [|done|done|].
  2:{ rewrite Hlen, (blen_app (a ++ y :: c)), (blen_app (encode_u32_le _)), blen_encode_u32.
      unfold kFrameTrailerBytes. lia. }
  rewrite Hlen, substr_app, at_offset_app, N.sub_diag, at_offset_0 by done.
  rewrite decode_u32_app by apply crc32c_bound.
  destruct (crc32c _ =? _) eqn:E; [|done].
  apply N.eqb_eq, crc32c_one_byte in E. by destruct Hxy.
Qed.

(** C32 The accumulator never buffers more than two maximal frames, whatever
    bytes the peer sends and however pushes, pops and resets are interleaved. *)
Theorem accumulator_bounded (a : FrameAccumulator) (H : accumulates a) :
  blen (fa_buffer a) <= 2 * (kMaxFramePayload + kFrameOverhead).
Proof.
  induction H as [|a data H IH|a H IH|a H IH]; [done| | |done].
  - unfold exec, fa_push, bind, get, guard. destruct (_ || _) eqn:Hc; [exact IH|].
    apply orb_false_elim in Hc as [_ Hc]. apply N.ltb_ge in Hc.
    cbn [ret modify fst]. upd_simpl. by rewrite blen_app.
  - pose proof (blen_fa_next a). lia.
Qed.

Lemma corrupted_payload_byte_rejected_witness :
  frame_ok 3 [Byte.x41; Byte.x42] /\
  decode_frame (sealed_prefix 3 2 ++ [Byte.x41; Byte.x43]
                  ++ encode_u32_le (crc32c [Byte.x41; Byte.x42])) = Err CorruptData.
Proof.
  split; [vm_compute; repeat split; discriminate|].
  rewrite <- (app_nil_r (encode_u32_le _)).
  apply (corrupted_payload_byte_rejected 3 [Byte.x41] [] [] Byte.x42 Byte.x43).
  - vm_compute. repeat split; discriminate.
  - discriminate.
Defined.

Lemma accumulator_bounded_witness :
  blen (fa_buffer (exec (fa_push [Byte.x46; Byte.x53]) new_accumulator)) <= 2097200.
Proof. apply (accumulator_bounded _). apply acc_push, acc_new. Defined.
