(* ===== verification/Transport.v ===== *)
(** * The framed channel

    Models the byte-stream part of src/transport.cpp: [Socket::send_all],
    [Socket::recv_some] and [FrameChannel].

    The operating system's [send] and [recv] are not code of the repository:
    their answers are arguments, one list element per system call, and a call
    whose answers run out is still waiting ([Blocked]).  [wait_readable] takes
    the answer of its [select].  Connecting, listening and the life of the
    descriptors are in Sockets.v. *)

From S2P Require Import Prelude Checked Bytes Hash Codec Framing.

(** What one [::recv] returns: data, the end of the stream, "would block", or
    another failure. *)
Inductive RecvAnswer : Type :=
| RecvData (data : bytes)
| RecvEnd
| RecvWouldBlock
| RecvFailed.

(** What one [::send] returns: a count, "would block", or another failure. *)
Inductive SendAnswer : Type :=
| Written (count : N)
| SendWouldBlock
| SendFailed.

(** A call returns, or is still blocked in the operating system. *)
Inductive Blocking (A : Type) : Type :=
| Returned (a : A)
| Blocked.
Arguments Returned {A} a.
Arguments Blocked {A}.

Definition kMaxRequest : N := 1073741824. (* 1 << 30 *)

(** ** Socket *)

(** [recv_some] refuses a closed socket and an empty buffer before it calls
    [::recv]; then the received bytes, none both at the end of the stream and
    when the call would block.  An answer never holds more than was asked for. *)
Definition recv_check (valid : bool) (capacity : N) : Status :=
  fail_if negb valid with InvalidArgument ;;
  fail_if capacity =? 0 with InvalidArgument ;;
  Ok tt.

Definition recv_some (answer : RecvAnswer) : Res bytes :=
  match answer with
  | RecvData data => Ok data
  | RecvEnd | RecvWouldBlock => Ok []
  | RecvFailed => Err TransportFailure
  end.

(** The loop of [send_all] over the bytes still to send; [sent] is what the
    operating system accepted so far. *)
Fixpoint send_loop (answers : list SendAnswer) (rest sent : bytes)
  : list SendAnswer * bytes * Blocking Status :=
  match rest with
  | [] => (answers, sent, Returned (Ok tt))
  | _ =>
      match answers with
      | [] => ([], sent, Blocked)
      | SendWouldBlock :: answers => send_loop answers rest sent
      | SendFailed :: answers => (answers, sent, Returned (Err PeerClosed))
      | Written count :: answers =>
          let request := N.min (blen rest) kMaxRequest in
          let written := N.min count request in
          if written =? 0 then (answers, sent, Returned (Err PeerClosed))
          else send_loop answers (at_offset written rest) (sent ++ substr 0 written rest)
      end
  end.

Definition send_all (valid : bool) (answers : list SendAnswer) (data : bytes)
  : list SendAnswer * bytes * Blocking Status :=
  if negb valid then (answers, [], Returned (Err InvalidArgument))
  else send_loop answers data [].

(** ** wait_readable *)

(** What [::select] returns: a failure, a timeout, or which of the watched
    sockets are readable. *)
Inductive SelectAnswer : Type :=
| SelectFailed
| SelectTimeout
| SelectReady (readable : list bool).

(** [FD_SETSIZE] *)
Definition kFdSetSize : N := 1024.

(** [sockets] tells of each socket whether it is valid; the result is the
    positions of the readable ones. *)
Definition wait_readable (sockets : list bool) (answer : SelectAnswer) : Res (list nat) :=
  match sockets with
  | [] => Ok []
  | _ =>
      fail_if kFdSetSize <? N.of_nat (length sockets) with Bounded ;;
      fail_if negb (forallb id sockets) with InvalidArgument ;;
      match answer with
      | SelectFailed => Err TransportFailure
      | SelectTimeout => Ok []
      | SelectReady readable =>
          Ok (filter (fun index => readable !! index = Some true) (seq 0 (length sockets)))
      end
  end.

(** ** FrameChannel *)

Definition send_frame (valid : bool) (answers : list SendAnswer) (type : N) (payload : bytes)
  : list SendAnswer * bytes * Blocking Status :=
  match encode_frame type payload 0 with
  | Ok encoded => send_all valid answers encoded
  | Err e => (answers, [], Returned (Err e))
  end.

Definition kReceiveBuffer : N := 8192.

(** [read_frame]: [Some (type, payload)] is [true] with the out parameters,
    [None] is [false], the orderly end.  Each turn of the loop that does not
    return makes one [::recv]. *)
Fixpoint read_frame (valid : bool) (answers : list RecvAnswer) (acc : FrameAccumulator)
  : list RecvAnswer * FrameAccumulator * Blocking (Res (option (N * bytes))) :=
  match fa_next acc with
  | (acc, Err e) => (answers, acc, Returned (Err e))
  | (acc, Ok (Some (header, body))) => (answers, acc, Returned (Ok (Some (fh_type header, body))))
  | (acc, Ok None) =>
      match recv_check valid kReceiveBuffer with
      | Err e => (answers, acc, Returned (Err e))
      | Ok _ =>
          match answers with
          | [] => ([], acc, Blocked)
          | answer :: answers =>
              match recv_some answer with
              | Err e => (answers, acc, Returned (Err e))
              | Ok [] =>
                  if blen (fa_buffer acc) =? 0 then (answers, acc, Returned (Ok None))
                  else (answers, acc, Returned (Err Truncated))
              | Ok received =>
                  match fa_push received acc with
                  | (acc, Err e) => (answers, acc, Returned (Err e))
                  | (acc, Ok _) => read_frame valid answers acc
                  end
              end
          end
      end
  end.

(** A reader that takes frames until the stream ends or fails. *)
Fixpoint receive_all (fuel : nat) (answers : list RecvAnswer) (acc : FrameAccumulator)
  : list (N * bytes) * Blocking Status :=
  match fuel with
  | O => ([], Blocked)
  | S fuel =>
      match read_frame true answers acc with
      | (answers, acc, Returned (Ok (Some message))) =>
          let '(messages, r) := receive_all fuel answers acc in (message :: messages, r)
      | (_, _, Returned (Ok None)) => ([], Returned (Ok tt))
      | (_, _, Returned (Err e)) => ([], Returned (Err e))
      | (_, _, Blocked) => ([], Blocked)
      end
  end.

(** A sender that sends messages until one send does not succeed: the bytes
    the operating system accepted, and how many sends succeeded. *)
Fixpoint send_frames (valid : bool) (answers : list SendAnswer) (messages : list (N * bytes))
  : bytes * nat :=
  match messages with
  | [] => ([], 0%nat)
  | (type, payload) :: messages =>
      match send_frame valid answers type payload with
      | (answers, sent, Returned (Ok _)) =>
          let '(more, count) := send_frames valid answers messages in (sent ++ more, S count)
      | (_, sent, _) => (sent, 0%nat)
      end
  end.

(** ** Sending *)

Lemma substr_at_offset n l : substr 0 n l ++ at_offset n l = l.
Proof.
  unfold substr, at_offset. change (N.to_nat 0) with 0%nat. by rewrite drop_0, take_drop.
Qed.

Lemma send_loop_sound answers rest sent answers' sent' r :
  send_loop answers rest sent = (answers', sent', r) ->
  exists more unsent : bytes, sent' = sent ++ more /\ rest = more ++ unsent /\
    (r = Returned (Ok tt) <-> unsent = []).
Proof.
  revert rest sent. induction answers as [|[count| |] answers IH]; intros rest sent H.
  - destruct rest; simpl in H; injection H as <- <- <-.
    + exists [], []. by rewrite app_nil_r.
    + exists [], (b :: rest). by rewrite app_nil_r.
  - destruct rest as [|b rest]; cbn [send_loop] in H.
    { injection H as <- <- <-. exists [], []. by rewrite app_nil_r. }
    cbv zeta in H. destruct (_ =? 0).
    { injection H as <- <- <-. exists [], (b :: rest). by rewrite app_nil_r. }
    set (w := N.min _ _) in H.
    apply IH in H as (more & unsent & -> & Hrest & Hr).
    exists (substr 0 w (b :: rest) ++ more), unsent. rewrite <- !app_assoc, <- Hrest.
    by rewrite substr_at_offset.
  - destruct rest as [|b rest]; cbn [send_loop] in H; [|by apply IH in H].
    injection H as <- <- <-. exists [], []. by rewrite app_nil_r.
  - destruct rest as [|b rest]; cbn [send_loop] in H; injection H as <- <- <-.
    + exists [], []. by rewrite app_nil_r.
    + exists [], (b :: rest). by rewrite app_nil_r.
Qed.

(** ** Receiving *)

Definition stream (messages : list (N * bytes)) : bytes :=
  messages ≫= (fun m => frame_bytes m.1 m.2).

(** What [::recv] promises about a chunk: at least one byte, at most the
    capacity offered. *)
Definition chunk_ok (chunk : bytes) : Prop := 0 < blen chunk <= kReceiveBuffer.

Lemma fa_push_chunk (chunk : bytes) (acc : FrameAccumulator) type payload more :
  frame_ok type payload -> frame_bytes type payload = fa_buffer acc ++ more -> chunk_ok chunk ->
  fa_push chunk acc = (acc <| fa_buffer ::= fun b => b ++ chunk |>, Ok tt).
Proof.
  intros [_ Hp] Hf [_ Hc]. apply (f_equal blen) in Hf.
  rewrite blen_frame_bytes, blen_app in Hf.
  unfold kReceiveBuffer, kMaxFramePayload in *.
  apply fa_push_ok; unfold kMaxFramePayload, kFrameOverhead, kFrameHeaderBytes,
    kFrameTrailerBytes in *; lia.
Qed.

(** One turn of the loop that has to read more. *)
Lemma read_frame_more chunk answers acc type payload more :
  frame_ok type payload -> frame_bytes type payload = fa_buffer acc ++ more -> more <> [] ->
  chunk_ok chunk ->
  read_frame true (RecvData chunk :: answers) acc =
  read_frame true answers (acc <| fa_buffer ::= fun b => b ++ chunk |>).
Proof.
  intros Hok Hf Hmore Hc. cbn [read_frame].
  rewrite (fa_next_partial acc type payload more) by done.
  cbn [recv_check guard_err negb recv_some]. unfold kReceiveBuffer at 1.
  cbn [N.eqb]. destruct chunk as [|b chunk]; [by destruct Hc|].
  by rewrite (fa_push_chunk _ _ type payload more).
Qed.

Lemma read_frame_ready answers acc type payload l :
  frame_ok type payload -> fa_buffer acc = frame_bytes type payload ++ l ->
  read_frame true answers acc =
  (answers, mkFrameAccumulator l (incr64 (fa_frames_decoded acc)) (fa_bytes_discarded acc),
   Returned (Ok (Some (type, payload)))).
Proof. intros Hok Hb. destruct answers; cbn [read_frame]; by rewrite (fa_next_frame acc _ _ _ Hok Hb). Qed.

(** Either the buffer already starts with the frame, or the frame starts with
    the whole buffer. *)
Lemma stream_split (buf more frame rest : bytes) :
  buf ++ more = frame ++ rest ->
  (exists l : bytes, buf = frame ++ l /\ rest = l ++ more) \/
  (exists l : bytes, l <> [] /\ frame = buf ++ l /\ more = l ++ rest).
Proof.
  intros H. destruct (List.app_eq_app _ _ _ _ H) as (l & [[Hb Hr]|[Hb Hr]]); [by left; exists l|].
  destruct l as [|b l]; [|by right; exists (b :: l)].
  left. exists []. by rewrite app_nil_r in *.
Qed.

Lemma read_frame_message chunks acc tail type payload rest :
  frame_ok type payload -> Forall chunk_ok chunks ->
  fa_buffer acc ++ mjoin chunks = frame_bytes type payload ++ rest ->
  exists chunks' acc',
    read_frame true ((RecvData <$> chunks) ++ tail) acc =
      ((RecvData <$> chunks') ++ tail, acc', Returned (Ok (Some (type, payload)))) /\
    Forall chunk_ok chunks' /\ fa_buffer acc' ++ mjoin chunks' = rest.
Proof.
  intros Hok Hch. revert acc. induction Hch as [|c chunks Hc Hch IH]; intros acc Heq;
    (destruct (stream_split _ _ _ _ Heq) as [(l & Hb & Hr)|(l & Hl & Hb & Hr)]).
  - exists [], (mkFrameAccumulator l (incr64 (fa_frames_decoded acc)) (fa_bytes_discarded acc)).
    split; [by apply read_frame_ready | by split].
  - by destruct l.
  - exists (c :: chunks),
      (mkFrameAccumulator l (incr64 (fa_frames_decoded acc)) (fa_bytes_discarded acc)).
    split; [by apply read_frame_ready | split; [by constructor | done]].
  - rewrite fmap_cons. cbn [app]. rewrite (read_frame_more c _ acc _ _ l) by done.
    apply IH. upd_simpl. by rewrite <- app_assoc.
Qed.

(** The end of the stream, possibly in the middle of a frame. *)
Lemma read_frame_end chunks acc type payload more :
  frame_ok type payload -> Forall chunk_ok chunks -> more <> [] ->
  frame_bytes type payload = fa_buffer acc ++ mjoin chunks ++ more ->
  exists answers' acc',
    read_frame true ((RecvData <$> chunks) ++ [RecvEnd]) acc =
      (answers', acc',
       if decide (fa_buffer acc ++ mjoin chunks = []) then Returned (Ok None)
       else Returned (Err Truncated)).
Proof.
  intros Hok Hch Hmore. revert acc. induction Hch as [|c chunks Hc Hch IH]; intros acc Heq.
  - exists [], acc. cbn [fmap list_fmap app read_frame].
    rewrite (fa_next_partial acc type payload more) by done.
    cbn [recv_check guard_err negb recv_some]. unfold kReceiveBuffer. cbn [N.eqb].
    cbn [mjoin list_join]. rewrite app_nil_r.
    destruct (fa_buffer acc); [done|]. by rewrite decide_False.
  - rewrite fmap_cons. cbn [app mjoin list_join] in *.
    rewrite (read_frame_more c _ acc type payload (c ++ mjoin chunks ++ more)).
    + destruct (IH (acc <| fa_buffer ::= fun b => b ++ c |>)) as (answers' & acc' & ->).
      { upd_simpl. rewrite Heq. by rewrite <- !app_assoc. }
      exists answers', acc'. upd_simpl. by rewrite <- app_assoc.
    + done.
    + by rewrite Heq, <- !app_assoc.
    + destruct c; [by destruct Hc | done].
    + done.
Qed.

Lemma receive_all_stream messages chunks acc (torn more : bytes) type payload :
  Forall (fun m => frame_ok m.1 m.2) messages -> Forall chunk_ok chunks ->
  frame_ok type payload -> frame_bytes type payload = torn ++ more -> more <> [] ->
  fa_buffer acc ++ mjoin chunks = stream messages ++ torn ->
  receive_all (S (length messages)) ((RecvData <$> chunks) ++ [RecvEnd]) acc =
  (messages, if decide (torn = []) then Returned (Ok tt) else Returned (Err Truncated)).
Proof.
  intros Hms. revert chunks acc. induction Hms as [|[t p] messages Hm Hms IH];
    intros chunks acc Hch Hok Hf Hmore Heq.
  - cbn [stream mbind list_bind app] in Heq. cbn [receive_all length].
    destruct (read_frame_end chunks acc type payload more) as (answers' & acc' & ->); try done.
    { by rewrite app_assoc, Heq. }
    rewrite Heq. by destruct (decide (torn = [])).
  - unfold stream in Heq. rewrite bind_cons, <- app_assoc in Heq. simpl in Hm.
    destruct (read_frame_message chunks acc [RecvEnd] t p _ Hm Hch Heq)
      as (chunks' & acc' & Hr & Hch' & Heq').
    change (length ((t, p) :: messages)) with (S (length messages)).
    set (n := S (length messages)) in *. cbn [receive_all]. rewrite Hr.
    by rewrite (IH chunks' acc' Hch').
Qed.

(** A torn frame: a proper prefix of a frame, possibly empty. *)
Definition torn_frame (torn : bytes) : Prop :=
  exists type payload (more : bytes),
    frame_ok type payload /\ frame_bytes type payload = torn ++ more /\ more <> [].

Lemma torn_frame_nil : torn_frame [].
Proof. exists 1, [], (frame_bytes 1 []). repeat split; try done. Qed.

Lemma send_frame_sound valid answers type payload answers' sent r :
  send_frame valid answers type payload = (answers', sent, r) ->
  (r = Returned (Ok tt) -> frame_ok type payload /\ sent = frame_bytes type payload) /\
  (r <> Returned (Ok tt) -> torn_frame sent).
Proof.
  unfold send_frame, send_all. intros H.
  destruct (encode_frame type payload 0) as [frame|e] eqn:He.
  2:{ injection H as <- <- <-. split; [done|]. intros _. apply torn_frame_nil. }
  apply encode_frame_inv in He as [Hok ->].
  destruct valid; cbn [negb] in H.
  2:{ injection H as <- <- <-. split; [done|]. intros _. apply torn_frame_nil. }
  apply send_loop_sound in H as (more & unsent & -> & Hf & Hr). cbn [app]. split.
  - intros ->. split; [done|]. by rewrite Hf, (proj1 Hr eq_refl), app_nil_r.
  - intros Hne. exists type, payload, unsent. split; [done|]. split; [done|].
    intros Hu. by apply Hne, Hr.
Qed.

Lemma send_frames_sound valid answers messages sent count :
  send_frames valid answers messages = (sent, count) ->
  (count <= length messages)%nat /\ Forall (fun m => frame_ok m.1 m.2) (take count messages) /\
  exists torn, sent = stream (take count messages) ++ torn /\ torn_frame torn /\
    (count = length messages -> torn = []).
Proof.
  revert answers sent count. induction messages as [|[t p] messages IH];
    intros answers sent count H; cbn [send_frames] in H.
  - injection H as <- <-. split; [done|]. split; [done|]. exists [].
    split; [done|]. split; [apply torn_frame_nil | done].
  - destruct (send_frame valid answers t p) as [[answers' sent1] r] eqn:Hs.
    destruct (send_frame_sound _ _ _ _ _ _ _ Hs) as [Hsent Htorn].
    destruct r as [[[]|e]|].
    + destruct (send_frames valid answers' messages) as [more k] eqn:Hm. injection H as <- <-.
      destruct (Hsent eq_refl) as [Hok ->].
      destruct (IH _ _ _ Hm) as (Hk & Hms & torn & -> & Ht & Hall). cbn [take length].
      split; [lia|]. split; [by constructor|]. exists torn. unfold stream. rewrite bind_cons, <- app_assoc.
      split; [done|]. split; [done|]. intros [= Hkl]. by apply Hall.
    + injection H as <- <-. split; [lia|]. split; [constructor|]. exists sent1.
      split; [done|]. split; [by apply Htorn | done].
    + injection H as <- <-. split; [lia|]. split; [constructor|]. exists sent1.
      split; [done|]. split; [by apply Htorn | done].
Qed.

(** ** Properties *)

(** C16 The channel is a reliable, ordered message stream: whatever
    partial writes the sender suffers and however the network cuts the accepted
    bytes into reads, the receiver gets exactly the messages whose send
    succeeded, in order and whole; when the sender stopped in the middle of a
    frame it then sees [Truncated], otherwise the orderly end of the stream. *)
Theorem channel_delivers (valid : bool) (answers : list SendAnswer)
  (messages : list (N * bytes)) (sent : bytes) (count : nat) (chunks : list bytes)
  (Hsend : send_frames valid answers messages = (sent, count))
  (Hchunks : Forall chunk_ok chunks) (Hnet : mjoin chunks = sent) :
  receive_all (S count) ((RecvData <$> chunks) ++ [RecvEnd]) new_accumulator =
  (take count messages,
   if decide (sent = stream (take count messages)) then Returned (Ok tt)
   else Returned (Err Truncated)) /\
  (count = length messages -> sent = stream (take count messages)).
Proof.
  apply send_frames_sound in Hsend
    as (Hk & Hms & torn & -> & (t & p & more & Hok & Hf & Hmore) & Hall).
  split.
  - rewrite <- (length_take_le messages count) at 1 by done.
    rewrite (receive_all_stream _ chunks _ torn more t p) by done. f_equal.
    destruct (decide (torn = [])) as [->|Ht].
    + by rewrite decide_True by apply app_nil_r.
    + rewrite decide_False; [done|]. intros H. apply Ht.
      apply (app_inv_head (stream (take count messages))). by rewrite H, app_nil_r.
  - intros Hc. by rewrite (Hall Hc), app_nil_r.
Qed.

Lemma channel_delivers_witness :
  receive_all 2
    ((RecvData <$> [take 7 (frame_bytes 9 [Byte.x41]); drop 7 (frame_bytes 9 [Byte.x41]);
                    take 5 (frame_bytes 7 [])]) ++ [RecvEnd]) new_accumulator
  = ([(9, [Byte.x41])], Returned (Err Truncated)).
Proof.
  destruct (channel_delivers true [Written 3; SendWouldBlock; Written 22; Written 5; SendFailed]
              [(9, [Byte.x41]); (7, [])]
              (frame_bytes 9 [Byte.x41] ++ take 5 (frame_bytes 7 [])) 1
              [take 7 (frame_bytes 9 [Byte.x41]); drop 7 (frame_bytes 9 [Byte.x41]);
               take 5 (frame_bytes 7 [])]) as [H _].
  - vm_compute. reflexivity.
  - repeat constructor; vm_compute; (reflexivity || discriminate).
  - vm_compute. reflexivity.
  - rewrite H. vm_compute. reflexivity.
Defined.
