(* ===== verification/Sockets.v ===== *)
(** * Sockets and their descriptors

    Models the part of src/transport.cpp that opens and closes descriptors: the
    library's user count, [Socket::connect], [adopt] and [close], [Listener::bind],
    [accept] and [close], and the moves, assignments and destructors of both
    classes.

    The answers of the system calls are arguments.  The state is what the process
    holds of the system: its open descriptors and the address lists it has not
    freed.  A handle is [None] where the code has [kInvalidHandle]. *)

From S2P Require Import Prelude Checked Bytes Framing Transport.

Record Net := mkNet {
  nt_open : gset N;
  nt_addresses : N;
  nt_users : N }.

#[export] Instance eta_Net : Eta Net := fun n => mkNet (nt_open n) (nt_addresses n) (nt_users n).

Abbreviation NetM := (M ErrorCode Net).

(** ** The library *)

(** On POSIX systems only the count changes. *)
Definition transport_init : NetM unit := modify (fun n => n <| nt_users ::= N.succ |>).
Definition transport_shutdown : NetM unit :=
  modify (fun n => if nt_users n =? 0 then n else n <| nt_users ::= N.pred |>).

(** ** System calls *)

Definition open_native (fd : N) : NetM unit := modify (fun n => n <| nt_open ::= union {[ fd ]} |>).
Definition close_native (fd : N) : NetM unit :=
  modify (fun n => n <| nt_open ::= fun o => o ∖ {[ fd ]} |>).
Definition get_addresses : NetM unit := modify (fun n => n <| nt_addresses ::= N.succ |>).
Definition freeaddrinfo : NetM unit := modify (fun n => n <| nt_addresses ::= N.pred |>).

(** The two calls of [set_blocking]: [F_GETFL], then [F_SETFL]. *)
Definition set_blocking (got set : bool) : Status :=
  fail_if negb got with TransportFailure ;;
  fail_if negb set with TransportFailure ;;
  Ok tt.

(** What [::connect] on a non-blocking socket returns. *)
Inductive ConnectAnswer : Type := ConnectDone | ConnectPending | ConnectRefused.

(** The answers for one resolved address: the descriptor of [::socket], the
    two calls that make it non-blocking, [::connect], the [::select] and the
    [SO_ERROR] a pending connect is waited for with, and the two calls that make
    it blocking again. *)
Record ConnectAnswers := mkConnectAnswers {
  ca_socket : option N;
  ca_nonblocking : bool * bool;
  ca_connect : ConnectAnswer;
  ca_select : SelectAnswer;
  ca_error : bool;
  ca_blocking : bool * bool }.

Definition connected (c : ConnectAnswers) : bool :=
  match ca_connect c with
  | ConnectDone => true
  | ConnectRefused => false
  | ConnectPending =>
      match ca_select c with
      | SelectReady _ => ca_error c
      | SelectTimeout | SelectFailed => false
      end
  end.

(** ** Socket *)

(** The loop of [connect] over the addresses; [last_error] always is a
    failure, so that the code's test [last_error.ok()] never succeeds. *)
Fixpoint connect_loop (candidates : list ConnectAnswers) (last_error : ErrorCode)
  : NetM (option N) :=
  match candidates with
  | [] => freeaddrinfo ;;; throw last_error
  | c :: candidates =>
      match ca_socket c with
      | None => connect_loop candidates TransportFailure
      | Some native =>
          open_native native ;;;
          match set_blocking (ca_nonblocking c).1 (ca_nonblocking c).2 with
          | Err e => close_native native ;;; connect_loop candidates e
          | Ok _ =>
              if negb (connected c) then
                close_native native ;;; connect_loop candidates TransportFailure
              else
                match set_blocking (ca_blocking c).1 (ca_blocking c).2 with
                | Err e => close_native native ;;; connect_loop candidates e
                | Ok _ => freeaddrinfo ;;; ret (Some native)
                end
          end
      end
  end.

(** [resolved] is the answer of [::getaddrinfo]: nothing, or the addresses. *)
Definition connect (resolved : option (list ConnectAnswers)) : NetM (option N) :=
  transport_init ;;;
  match resolved with
  | None | Some [] => throw TransportFailure
  | Some candidates => get_addresses ;;; connect_loop candidates TransportFailure
  end.

Definition adopt (raw_handle : option N) : Res (option N) :=
  fail_if bool_decide (raw_handle = None) with InvalidArgument ;; Ok raw_handle.

(** [Socket::close] and [Listener::close] on the handle of the object. *)
Definition close_handle (handle : option N) : NetM (option N) :=
  match handle with
  | None => ret None
  | Some fd => close_native fd ;;; ret None
  end.

(** ** Listener *)

(** [ba_name] is the answer of [::getsockname]: the port of an internet
    address, or [None] inside for another family. *)
Record BindAnswers := mkBindAnswers {
  ba_socket : option N;
  ba_bind : bool;
  ba_listen : bool;
  ba_name : option (option N) }.

Fixpoint bind_loop (candidates : list BindAnswers) (last_error : ErrorCode)
  : NetM (option N * N) :=
  match candidates with
  | [] => freeaddrinfo ;;; throw last_error
  | c :: candidates =>
      match ba_socket c with
      | None => bind_loop candidates TransportFailure
      | Some native =>
          open_native native ;;;
          if negb (ba_bind c) then
            close_native native ;;; bind_loop candidates TransportFailure
          else if negb (ba_listen c) then
            close_native native ;;; bind_loop candidates TransportFailure
          else
            match ba_name c with
            | None => close_native native ;;; bind_loop candidates TransportFailure
            | Some port => freeaddrinfo ;;; ret (Some native, default 0 port)
            end
      end
  end.

Definition bind_listener (resolved : option (list BindAnswers)) : NetM (option N * N) :=
  transport_init ;;;
  match resolved with
  | None | Some [] => throw TransportFailure
  | Some candidates => get_addresses ;;; bind_loop candidates TransportFailure
  end.

(** [accepted] is the answer of [::accept]. *)
Definition accept (handle accepted : option N) : NetM (option N) :=
  reject_if bool_decide (handle = None) with InvalidArgument ;;
  match accepted with
  | None => throw TransportFailure
  | Some fd =>
      open_native fd ;;;
      match adopt (Some fd) with
      | Err e => close_native fd ;;; throw e
      | Ok socket => ret socket
      end
  end.

(** ** Objects

    The [Socket] and [Listener] objects of a process, by name, and what its code
    can do with them.  A call on an object that does not exist, or one that would
    create an object under a name in use, is no program: it changes nothing. *)

Inductive Kind : Type := KSocket | KListener.

#[export] Instance Kind_eq_dec : EqDecision Kind.
Proof. solve_decision. Defined.

Record Endpoint := mkEndpoint {
  ep_kind : Kind;
  ep_handle : option N;
  ep_port : N }.

Record Process := mkProcess {
  pc_net : Net;
  pc_objects : gmap N Endpoint }.

Definition new_process : Process := mkProcess (mkNet ∅ 0 0) ∅.

Inductive SocketCall : Type :=
| Connect (x : N) (resolved : option (list ConnectAnswers))
| Bind (x : N) (resolved : option (list BindAnswers))
| Accept (listener x : N) (accepted : option N)
| Close (x : N)
| MoveConstruct (from to : N)
| MoveAssign (from to : N)
| Destroy (x : N).

(** Runs [m] and puts what it returns into the new object [x]. *)
Definition create_object {A} (x : N) (m : NetM A) (object : A -> Endpoint) (p : Process) : Process :=
  match pc_objects p !! x with
  | Some _ => p
  | None =>
      match m (pc_net p) with
      | (n, Ok a) => mkProcess n (<[ x := object a ]> (pc_objects p))
      | (n, Err _) => mkProcess n (pc_objects p)
      end
  end.

(** What a moved-from object holds. *)
Definition moved (e : Endpoint) : Endpoint := mkEndpoint (ep_kind e) None 0.

Definition socket_call (k : SocketCall) (p : Process) : Process :=
  match k with
  | Connect x resolved => create_object x (connect resolved) (fun h => mkEndpoint KSocket h 0) p
  | Bind x resolved =>
      create_object x (bind_listener resolved) (fun '(h, port) => mkEndpoint KListener h port) p
  | Accept l x accepted =>
      match pc_objects p !! l with
      | Some (mkEndpoint KListener h _) =>
          create_object x (accept h accepted) (fun h => mkEndpoint KSocket h 0) p
      | _ => p
      end
  | Close x =>
      match pc_objects p !! x with
      | None => p
      | Some e =>
          let n := exec (close_handle (ep_handle e)) (pc_net p) in
          mkProcess n (<[ x := mkEndpoint (ep_kind e) None (ep_port e) ]> (pc_objects p))
      end
  | MoveConstruct from to =>
      match pc_objects p !! from, pc_objects p !! to with
      | Some e, None => mkProcess (pc_net p) (<[ to := e ]> (<[ from := moved e ]> (pc_objects p)))
      | _, _ => p
      end
  | MoveAssign from to =>
      match pc_objects p !! from, pc_objects p !! to with
      | Some e, Some old =>
          if bool_decide (from = to) || negb (bool_decide (ep_kind e = ep_kind old)) then p
          else
            let n := exec (close_handle (ep_handle old)) (pc_net p) in
            mkProcess n (<[ to := e ]> (<[ from := moved e ]> (pc_objects p)))
      | _, _ => p
      end
  | Destroy x =>
      match pc_objects p !! x with
      | None => p
      | Some e =>
          mkProcess (exec (close_handle (ep_handle e)) (pc_net p)) (delete x (pc_objects p))
      end
  end.

(** ** Ownership *)

(** The system never hands out a descriptor that is open. *)
Definition fresh_fd (open : gset N) (fd : option N) : Prop := forall h, fd = Some h -> h ∉ open.

Definition kernel_fresh (open : gset N) (k : SocketCall) : Prop :=
  match k with
  | Connect _ resolved => Forall (fun c => fresh_fd open (ca_socket c)) (default [] resolved)
  | Bind _ resolved => Forall (fun c => fresh_fd open (ba_socket c)) (default [] resolved)
  | Accept _ _ accepted => fresh_fd open accepted
  | _ => True
  end.

(** What a call that opens a descriptor leaves, and one that fails. *)
Definition gained (n : Net) (h : option N) (n' : Net) : Prop :=
  exists fd, h = Some fd /\ (fd ∉ nt_open n) /\ nt_open n' = ({[ fd ]} ∪ nt_open n) /\
    nt_addresses n' = nt_addresses n.
Definition kept (n n' : Net) : Prop :=
  nt_open n' = nt_open n /\ nt_addresses n' = nt_addresses n.

Definition opens_one {A} (handle : A -> option N) (m : NetM A) (n : Net) : Prop :=
  wp m (fun a n' => gained n (handle a) n') (fun _ n' => kept n n') n.

Lemma reopen_close fd (open : gset N) : fd ∉ open -> ({[ fd ]} ∪ open) ∖ {[ fd ]} = open.
Proof. intros H. apply set_eq. set_solver. Qed.

(** The loops: [n0] is the state before the addresses were fetched. *)
Section Loops.
Context (n0 : Net).

Definition fetched (n : Net) : Prop :=
  nt_open n = nt_open n0 /\ nt_addresses n = N.succ (nt_addresses n0).

Lemma fetched_reopen fd n :
  fetched n -> fd ∉ nt_open n0 ->
  fetched ((n <| nt_open ::= union {[ fd ]} |>) <| nt_open ::= fun o => o ∖ {[ fd ]} |>).
Proof. intros [Ho Ha] Hfd. split; upd_simpl; [|done]. rewrite Ho. by apply reopen_close. Qed.

Lemma fetched_free n : fetched n -> kept n0 (n <| nt_addresses ::= N.pred |>).
Proof. intros [Ho Ha]. split; upd_simpl; [done|]. rewrite Ha. lia. Qed.

Lemma fetched_gained fd n :
  fetched n -> fd ∉ nt_open n0 ->
  gained n0 (Some fd) ((n <| nt_open ::= union {[ fd ]} |>) <| nt_addresses ::= N.pred |>).
Proof.
  intros [Ho Ha] Hfd. exists fd. split_and!; upd_simpl; [done|done|by rewrite Ho|rewrite Ha; lia].
Qed.

Lemma connect_loop_opens candidates e n :
  fetched n -> Forall (fun c => fresh_fd (nt_open n0) (ca_socket c)) candidates ->
  wp (connect_loop candidates e) (fun a n' => gained n0 a n') (fun _ n' => kept n0 n') n.
Proof.
  revert e n. induction candidates as [|c candidates IH]; intros e n Hn Hf; cbn [connect_loop];
    unfold freeaddrinfo, open_native, close_native.
  - do 2 wp_step. by apply fetched_free.
  - inversion Hf as [|? ? Hc Hf']; subst. destruct (ca_socket c) as [fd|]; [|by apply IH].
    specialize (Hc fd eq_refl). do 2 wp_step.
    destruct (set_blocking _ _); [|do 2 wp_step; apply IH; [by apply fetched_reopen|done]].
    destruct (connected c); cbn [negb]; [|do 2 wp_step; apply IH; [by apply fetched_reopen|done]].
    destruct (set_blocking _ _); [|do 2 wp_step; apply IH; [by apply fetched_reopen|done]].
    do 2 wp_step. by apply fetched_gained.
Qed.

Lemma bind_loop_opens candidates e n :
  fetched n -> Forall (fun c => fresh_fd (nt_open n0) (ba_socket c)) candidates ->
  wp (bind_loop candidates e) (fun a n' => gained n0 a.1 n') (fun _ n' => kept n0 n') n.
Proof.
  revert e n. induction candidates as [|c candidates IH]; intros e n Hn Hf; cbn [bind_loop];
    unfold freeaddrinfo, open_native, close_native.
  - do 2 wp_step. by apply fetched_free.
  - inversion Hf as [|? ? Hc Hf']; subst. destruct (ba_socket c) as [fd|]; [|by apply IH].
    specialize (Hc fd eq_refl). do 2 wp_step.
    destruct (ba_bind c); cbn [negb]; [|do 2 wp_step; apply IH; [by apply fetched_reopen|done]].
    destruct (ba_listen c); cbn [negb]; [|do 2 wp_step; apply IH; [by apply fetched_reopen|done]].
    destruct (ba_name c); [|do 2 wp_step; apply IH; [by apply fetched_reopen|done]].
    do 2 wp_step. by apply fetched_gained.
Qed.
End Loops.

Lemma connect_opens resolved n :
  Forall (fun c => fresh_fd (nt_open n) (ca_socket c)) (default [] resolved) ->
  opens_one (fun h => h) (connect resolved) n.
Proof.
  intros Hf. unfold opens_one, connect, transport_init, get_addresses. do 2 wp_step.
  destruct resolved as [[|c candidates]|]; [by wp_step| |by wp_step]. do 2 wp_step.
  by apply (connect_loop_opens n).
Qed.

Lemma bind_opens resolved n :
  Forall (fun c => fresh_fd (nt_open n) (ba_socket c)) (default [] resolved) ->
  opens_one fst (bind_listener resolved) n.
Proof.
  intros Hf. unfold opens_one, bind_listener, transport_init, get_addresses. do 2 wp_step.
  destruct resolved as [[|c candidates]|]; [by wp_step| |by wp_step]. do 2 wp_step.
  by apply (bind_loop_opens n).
Qed.

Lemma accept_opens handle accepted n :
  fresh_fd (nt_open n) accepted -> opens_one (fun h => h) (accept handle accepted) n.
Proof.
  intros Hf. unfold opens_one, accept, open_native. wp_step. wp_step. case_bool_decide; [done|].
  destruct accepted as [fd|]; [|by wp_step]. do 2 wp_step. unfold adopt, guard_err.
  rewrite bool_decide_eq_false_2 by done. wp_step.
  exists fd. split_and!; upd_simpl; [done|by apply Hf|done|done].
Qed.

(** Every open descriptor belongs to exactly one object, and no address list
    is left over. *)
Record owns (p : Process) : Prop := {
  ow_open : forall fd, fd ∈ nt_open (pc_net p) <->
    exists x e, pc_objects p !! x = Some e /\ ep_handle e = Some fd;
  ow_unique : forall x y e e' fd, pc_objects p !! x = Some e -> pc_objects p !! y = Some e' ->
    ep_handle e = Some fd -> ep_handle e' = Some fd -> x = y;
  ow_addresses : nt_addresses (pc_net p) = 0 }.

Lemma owns_create {A} x (m : NetM A) (object : A -> Endpoint) p :
  opens_one (fun a => ep_handle (object a)) m (pc_net p) -> owns p ->
  owns (create_object x m object p).
Proof.
  intros Hm [Ho Hu Ha]. unfold create_object. destruct (pc_objects p !! x) eqn:Hx; [by split|].
  unfold opens_one, wp in Hm. destruct (m (pc_net p)) as [n [a|e]]; cbn [pc_net pc_objects].
  - destruct Hm as (fd & Hfd & Hnew & Hopen & Haddr).
    assert (forall y e, pc_objects p !! y = Some e -> ep_handle e <> Some fd) as Hne.
    { intros y e Hy He. apply Hnew, Ho. eauto. }
    split; cbn [pc_net pc_objects]; [| |congruence].
    + intros fd'. rewrite Hopen, elem_of_union, elem_of_singleton, Ho. split.
      * intros [->|(y & e & Hy & He)]; [by exists x, (object a); rewrite lookup_insert_eq|].
        exists y, e. rewrite lookup_insert_ne by congruence. done.
      * intros (y & e & Hy & He). apply lookup_insert_Some in Hy as [[-> <-]|[_ Hy]].
        -- left. congruence.
        -- right. eauto.
    + intros y z e e' fd' [[<- <-]|[Hy1 Hy2]]%lookup_insert_Some
        [[<- <-]|[Hz1 Hz2]]%lookup_insert_Some He He'; [done| | |by eapply Hu].
      * exfalso. apply (Hne z e' Hz2). congruence.
      * exfalso. apply (Hne y e Hy2). congruence.
  - destruct Hm as [Hopen Haddr]. split; cbn [pc_net pc_objects];
      [intros fd; by rewrite Hopen | done | congruence].
Qed.

(** Closing the handle of one object and taking it from the objects. *)
Lemma owns_release p x e objects :
  owns p -> pc_objects p !! x = Some e ->
  (forall y e', objects !! y = Some e' -> ep_handle e' = None \/
     (y <> x /\ pc_objects p !! y = Some e')) ->
  (forall y e', pc_objects p !! y = Some e' -> y <> x -> objects !! y = Some e') ->
  owns (mkProcess (exec (close_handle (ep_handle e)) (pc_net p)) objects).
Proof.
  intros [Ho Hu Ha] Hx Hback Hkeep.
  assert (forall fd, fd ∈ nt_open (exec (close_handle (ep_handle e)) (pc_net p)) <->
    fd ∈ nt_open (pc_net p) /\ ep_handle e <> Some fd) as Hopen.
  { intros fd. unfold close_handle, close_native, exec, bind, modify, ret.
    destruct (ep_handle e) as [h|]; cbn [fst]; upd_simpl; [|naive_solver].
    rewrite elem_of_difference, elem_of_singleton. naive_solver. }
  split; cbn [pc_net pc_objects].
  - intros fd. rewrite Hopen, Ho. split.
    + intros [(y & e' & Hy & He) Hne]. exists y, e'. split; [|done].
      apply Hkeep; [done|]. intros ->. congruence.
    + intros (y & e' & Hy & He). destruct (Hback y e' Hy) as [Hn|[Hyx Hy']]; [congruence|].
      split; [eauto|]. intros Hf. apply Hyx. by eapply (Hu y x).
  - intros y z e1 e2 fd Hy Hz H1 H2.
    destruct (Hback y e1 Hy) as [?|[_ Hy']]; [congruence|].
    destruct (Hback z e2 Hz) as [?|[_ Hz']]; [congruence|]. by eapply Hu.
  - unfold close_handle, close_native, exec, bind, modify, ret. by destruct (ep_handle e).
Qed.

(** Handing the handle of [from] to [to], which holds none. *)
Lemma owns_move p from to e :
  owns p -> from <> to -> pc_objects p !! from = Some e ->
  (forall old, pc_objects p !! to = Some old -> ep_handle old = None) ->
  owns (mkProcess (pc_net p) (<[ to := e ]> (<[ from := moved e ]> (pc_objects p)))).
Proof.
  intros [Ho Hu Ha] Hne Hfrom Hto.
  set (back := fun y => if decide (y = to) then from else y).
  assert (forall y e' fd, <[ to := e ]> (<[ from := moved e ]> (pc_objects p)) !! y = Some e' ->
    ep_handle e' = Some fd -> y <> from /\ exists e0, pc_objects p !! back y = Some e0 /\
      ep_handle e0 = Some fd) as Hback.
  { intros y e' fd Hy Hfd. unfold back. case_decide as Hyt.
    - subst y. rewrite lookup_insert_eq in Hy. injection Hy as <-. split; [congruence|eauto].
    - rewrite lookup_insert_ne in Hy by congruence. destruct (decide (y = from)) as [->|Hyf].
      + rewrite lookup_insert_eq in Hy. injection Hy as <-. done.
      + rewrite lookup_insert_ne in Hy by congruence. split; [done|eauto]. }
  split; cbn [pc_net pc_objects]; [| |done].
  - intros fd. rewrite Ho. split.
    + intros (y & e' & Hy & He). destruct (decide (y = from)) as [->|Hyf].
      * exists to, e. rewrite lookup_insert_eq. split; [done|congruence].
      * exists y, e'. rewrite !lookup_insert_ne; [done|congruence|].
        intros <-. specialize (Hto e' Hy). congruence.
    + intros (y & e' & Hy & He). destruct (Hback y e' fd Hy He) as (_ & e0 & H0 & H0'). eauto.
  - intros y z e1 e2 fd Hy Hz H1 H2.
    destruct (Hback y e1 fd Hy H1) as (Hyf & a & Ha1 & Ha2).
    destruct (Hback z e2 fd Hz H2) as (Hzf & b & Hb1 & Hb2).
    pose proof (Hu _ _ _ _ _ Ha1 Hb1 Ha2 Hb2) as Heq. unfold back in Heq.
    repeat case_decide; congruence.
Qed.

Lemma owns_call k p : kernel_fresh (nt_open (pc_net p)) k -> owns p -> owns (socket_call k p).
Proof.
  intros Hk H. destruct k as [x r|x r|l x a|x|from to|from to|x]; cbn [socket_call kernel_fresh] in *.
  - apply owns_create; [|done]. by apply connect_opens.
  - apply owns_create; [|done]. eapply wp_conseq; [by apply bind_opens| |done]. by intros [].
  - destruct (pc_objects p !! l) as [[[] h port]|]; [done| |done].
    apply owns_create; [|done]. by apply accept_opens.
  - destruct (pc_objects p !! x) as [e|] eqn:Hx; [|done]. apply (owns_release p x); [done|done| |].
    + intros y e' [[-> <-]|[Hy Hy']]%lookup_insert_Some; [by left|right; by split].
    + intros y e' Hy Hyx. by rewrite lookup_insert_ne.
  - destruct (pc_objects p !! from) as [e|] eqn:Hfrom; [|done].
    destruct (pc_objects p !! to) eqn:Hto; [done|]. apply owns_move; [done|congruence|done|].
    intros old Hold. congruence.
  - destruct (pc_objects p !! from) as [e|] eqn:Hfrom; [|done].
    destruct (pc_objects p !! to) as [old|] eqn:Hto; [|done].
    case_bool_decide as Heq; [done|]. destruct (negb _); [done|]. cbn [orb].
    set (p1 := mkProcess (exec (close_handle (ep_handle old)) (pc_net p))
                 (<[ to := moved old ]> (pc_objects p))).
    assert (owns p1) as H1.
    { apply (owns_release p to); [done|done| |].
      - intros y e' [[-> <-]|[Hy Hy']]%lookup_insert_Some; [by left|right; by split].
      - intros y e' Hy Hyx. by rewrite lookup_insert_ne. }
    assert (pc_objects p1 !! from = Some e) as Hfrom1 by (cbn; by rewrite lookup_insert_ne).
    pose proof (owns_move p1 from to e H1 Heq Hfrom1) as H2. cbn [pc_net pc_objects p1] in H2.
    rewrite (insert_insert_ne _ from to) in H2 by done. rewrite insert_insert_eq in H2. apply H2.
    intros old' Hold. rewrite lookup_insert_eq in Hold. by injection Hold as <-.
  - destruct (pc_objects p !! x) as [e|] eqn:Hx; [|done]. apply (owns_release p x); [done|done| |].
    + intros y e' [Hy Hy']%lookup_delete_Some. right. by split.
    + intros y e' Hy Hyx. by rewrite lookup_delete_ne.
Qed.

(** ** Reachability *)

(** The processes a program reaches over a system that never hands out a
    descriptor that is open. *)
Inductive running : Process -> Prop :=
| running_new : running new_process
| running_call k p : running p -> kernel_fresh (nt_open (pc_net p)) k -> running (socket_call k p).

Lemma running_owns p : running p -> owns p.
Proof.
  induction 1 as [|k p _ IH Hk]; [|by apply owns_call]. split; cbn.
  - intros fd. split; [set_solver|]. intros (x & e & Hx & _). by rewrite lookup_empty in Hx.
  - intros x y e e' fd Hx. by rewrite lookup_empty in Hx.
  - done.
Qed.

(** C17 Descriptors are neither leaked nor shared.  Whatever
    connections, listeners, moves, assignments and failures of system calls a
    program goes through: the open descriptors are exactly those held by its
    [Socket] and [Listener] objects, no two objects hold the same one, so that
    closing or destroying one never closes another's, and every address list that
    was resolved has been freed. *)
Theorem descriptors_owned (p : Process) (H : running p) :
  (forall fd, fd ∈ nt_open (pc_net p) <->
     exists x e, pc_objects p !! x = Some e /\ ep_handle e = Some fd) /\
  (forall x y e e' fd, pc_objects p !! x = Some e -> pc_objects p !! y = Some e' ->
     ep_handle e = Some fd -> ep_handle e' = Some fd -> x = y) /\
  nt_addresses (pc_net p) = 0.
Proof. by destruct (running_owns p H). Qed.

(** A listener that accepts a connection, a connect whose first address times
    out and whose second succeeds on the descriptor just closed, and a move. *)
Definition session_calls : list SocketCall :=
  [Bind 1 (Some [mkBindAnswers (Some 3) true true (Some (Some 4000))]);
   Accept 1 2 (Some 4);
   Connect 3 (Some [mkConnectAnswers (Some 5) (true, true) ConnectPending SelectTimeout true (true, true);
                    mkConnectAnswers (Some 5) (true, true) ConnectDone SelectFailed true (true, true)]);
   MoveAssign 3 2; Close 1].

Definition session_process : Process := foldl (fun p k => socket_call k p) new_process session_calls.

Lemma descriptors_owned_witness :
  nt_open (pc_net session_process) = {[ 5 ]} /\
  forall x e, pc_objects session_process !! x = Some e -> ep_handle e = Some 5 -> x = 2.
Proof.
  assert (running session_process) as Hrun.
  { unfold session_process, session_calls. cbn [foldl].
    repeat (apply running_call; [|vm_compute; repeat constructor; intros h Hh; try injection Hh as <-;
      try discriminate Hh; vm_compute; intros Hin; discriminate Hin]). apply running_new. }
  destruct (descriptors_owned session_process Hrun) as (_ & Hu & _).
  split; [vm_compute; reflexivity|]. intros x e Hx He.
  apply (Hu x 2 e (mkEndpoint KSocket (Some 5) 0) 5); [exact Hx| |exact He|reflexivity].
  vm_compute. reflexivity.
Defined.
