(* ===== verification/Protocol.v ===== *)
(** * Coordinator and worker messages

    Models include/flow_scheduler/protocol.hpp and src/protocol.cpp: the
    message structs, the [encode] overloads and the [decode_*] functions.  The
    ticket and evidence bodies are in Codec.v, frames in Framing.v and the
    channel in Transport.v.

    An [ErrorCode] field of a message is its 16-bit value: the decoders cast
    any value into the enumeration without a check.

    [WireMessage] is what the coordinator and the worker rely on: every kind of
    message has a frame type, an encoder and a strict decoder; [WireLaws] is
    the promise that a well-formed message arrives as it was sent, its texts cut
    to their bound, and that a byte behind it is a protocol violation. *)

From S2P Require Import Prelude Checked Bytes Hash Model Schedule Codec Framing Transport.

Inductive MessageType : Set :=
| MInvalid | MHello | MHelloAck | MDispatch | MDispatchRejected | MStarted | MCompletion
| MShutdown | MError | MHeartbeat.

Definition message_type_value (t : MessageType) : N :=
  match t with
  | MInvalid => 0 | MHello => 1 | MHelloAck => 2 | MDispatch => 3 | MDispatchRejected => 4
  | MStarted => 5 | MCompletion => 6 | MShutdown => 7 | MError => 8 | MHeartbeat => 9
  end.

Definition message_type_name (t : MessageType) : string :=
  match t with
  | MInvalid => "invalid" | MHello => "hello" | MHelloAck => "hello-ack"
  | MDispatch => "dispatch" | MDispatchRejected => "dispatch-rejected"
  | MStarted => "started" | MCompletion => "completion" | MShutdown => "shutdown"
  | MError => "error" | MHeartbeat => "heartbeat"
  end%string.

Record HelloMessage := mkHelloMessage {
  hm_worker : WorkerId;
  hm_boot : BootId;
  hm_label : string;
  hm_supported_protocol : N }.

Record HelloAckMessage := mkHelloAckMessage {
  ha_accepted : bool;
  ha_reason : N;
  ha_detail : string;
  ha_worker : WorkerId;
  ha_boot : BootId;
  ha_epoch : FabricEpoch;
  ha_policy : PolicyId;
  ha_policy_generation : Generation;
  ha_policy_digest : N;
  ha_max_frame_payload : N;
  ha_heartbeat_ticks : Ticks }.

Record DispatchMessage := mkDispatchMessage {
  dm_ticket : DispatchTicket;
  dm_nominal_work : N }.

Record DispatchRejectedMessage := mkDispatchRejectedMessage {
  dr_attempt : DispatchAttemptId;
  dr_epoch : FabricEpoch;
  dr_code : N;
  dr_detail : string }.

Record StartedMessage := mkStartedMessage {
  sm_attempt : DispatchAttemptId;
  sm_epoch : FabricEpoch;
  sm_at_tick : Ticks }.

Record CompletionMessage := mkCompletionMessage { cm_evidence : CompletionEvidence }.
Record ShutdownMessage := mkShutdownMessage { sh_reason : string }.
Record ErrorMessage := mkErrorMessage { em_code : N; em_detail : string }.

Definition kMaxLabelBytes : nat := 128.
Definition kMaxDetailBytes : nat := 512.

(** [text.substr(0, bound)] *)
Definition clip (bound : nat) (text : string) : string := String.substring 0 bound text.

(** ** Encoders *)

Definition encode_hello (m : HelloMessage) : bytes :=
  payload [WU64 (hm_worker m); WU64 (hm_boot m); WText (clip kMaxLabelBytes (hm_label m));
           WU64 (hm_supported_protocol m)].

Definition encode_hello_ack (m : HelloAckMessage) : bytes :=
  payload [WBool (ha_accepted m); WU16 (ha_reason m); WText (clip kMaxDetailBytes (ha_detail m));
           WU64 (ha_worker m); WU64 (ha_boot m); WU64 (ha_epoch m); WU64 (ha_policy m);
           WU64 (ha_policy_generation m); WU64 (ha_policy_digest m);
           WU32 (ha_max_frame_payload m); WU64 (ha_heartbeat_ticks m)].

Definition encode_dispatch (m : DispatchMessage) : bytes :=
  payload (write_ticket (dm_ticket m) ++ [WU64 (dm_nominal_work m)]).

Definition encode_dispatch_rejected (m : DispatchRejectedMessage) : bytes :=
  payload [WU64 (dr_attempt m); WU64 (dr_epoch m); WU16 (dr_code m);
           WText (clip kMaxDetailBytes (dr_detail m))].

Definition encode_started (m : StartedMessage) : bytes :=
  payload [WU64 (sm_attempt m); WU64 (sm_epoch m); WU64 (sm_at_tick m)].

Definition encode_completion (m : CompletionMessage) : bytes :=
  payload (write_evidence (cm_evidence m)).

Definition encode_shutdown (m : ShutdownMessage) : bytes :=
  payload [WText (clip kMaxDetailBytes (sh_reason m))].

Definition encode_error (m : ErrorMessage) : bytes :=
  payload [WU16 (em_code m); WText (clip kMaxDetailBytes (em_detail m))].

(** ** Decoders *)

Definition bounded_text (bound : nat) : Reader string :=
  let! value := r_text in
  r_fail_if N.of_nat bound <? N.of_nat (String.length value) with Oversized ;;
  r_ret value.

(** Reads the declared fields, then [require_exhausted]. *)
Definition read_message {A} (fields : Reader A) (data : bytes) : Res A :=
  let? (message, rest) := fields data in
  let? _ := require_exhausted ProtocolViolation rest in
  Ok message.

Definition decode_hello (data : bytes) : Res HelloMessage :=
  let? message := read_message
    (let! worker := r_u64 in
     let! boot := r_u64 in
     let! label := bounded_text kMaxLabelBytes in
     let! supported := r_u64 in
     r_ret (mkHelloMessage worker boot label supported)) data in
  fail_if negb (id_valid (hm_worker message)) with HandshakeRejected ;;
  fail_if negb (hm_supported_protocol message =? kProtocolVersion) with HandshakeRejected ;;
  Ok message.

Definition decode_hello_ack (data : bytes) : Res HelloAckMessage :=
  let? message := read_message
    (let! accepted := r_boolean in
     let! code := r_u16 in
     let! detail := bounded_text kMaxDetailBytes in
     let! worker := r_u64 in
     let! boot := r_u64 in
     let! epoch := r_u64 in
     let! policy := r_u64 in
     let! policy_generation := r_u64 in
     let! policy_digest := r_u64 in
     let! max_frame := r_u32 in
     let! heartbeat := r_u64 in
     r_ret (mkHelloAckMessage accepted code detail worker boot epoch policy policy_generation
              policy_digest max_frame heartbeat)) data in
  if ha_accepted message then
    fail_if negb (id_valid (ha_worker message)) || negb (id_valid (ha_boot message))
            || negb (id_valid (ha_epoch message)) with ProtocolViolation ;;
    fail_if (ha_max_frame_payload message =? 0)
            || (kMaxFramePayload <? ha_max_frame_payload message) with ProtocolViolation ;;
    Ok message
  else Ok message.

Definition decode_dispatch : bytes -> Res DispatchMessage :=
  read_message
    (let! ticket := read_ticket in
     let! nominal := r_u64 in
     r_ret (mkDispatchMessage ticket nominal)).

Definition decode_dispatch_rejected : bytes -> Res DispatchRejectedMessage :=
  read_message
    (let! attempt := r_u64 in
     let! epoch := r_u64 in
     let! code := r_u16 in
     let! detail := bounded_text kMaxDetailBytes in
     r_ret (mkDispatchRejectedMessage attempt epoch code detail)).

Definition decode_started (data : bytes) : Res StartedMessage :=
  let? message := read_message
    (let! attempt := r_u64 in
     let! epoch := r_u64 in
     let! at_tick := r_u64 in
     r_ret (mkStartedMessage attempt epoch at_tick)) data in
  fail_if negb (id_valid (sm_attempt message)) with ProtocolViolation ;;
  Ok message.

Definition decode_completion : bytes -> Res CompletionMessage :=
  read_message (let! evidence := read_evidence in r_ret (mkCompletionMessage evidence)).

Definition decode_shutdown : bytes -> Res ShutdownMessage :=
  read_message (let! reason := bounded_text kMaxDetailBytes in r_ret (mkShutdownMessage reason)).

Definition decode_error : bytes -> Res ErrorMessage :=
  read_message
    (let! code := r_u16 in
     let! detail := bounded_text kMaxDetailBytes in
     r_ret (mkErrorMessage code detail)).

(** ** The interface *)

Class WireMessage (A : Type) := {
  wire_type : MessageType;
  encode : A -> bytes;
  decode : bytes -> Res A;
  (** what the encoder keeps of a message *)
  clipped : A -> A;
  (** every field fits its type and the decoder's checks hold *)
  wire_wf : A -> Prop }.

Class WireLaws (A : Type) `{WireMessage A} : Prop := {
  wire_decode : forall (m : A) (rest : bytes), wire_wf m ->
    decode (encode m ++ rest) =
    match rest with [] => Ok (clipped m) | _ => Err ProtocolViolation end;
  wire_fits : forall m : A, blen (encode m) <= kMaxFramePayload }.

#[export] Instance hello_wire : WireMessage HelloMessage := {
  wire_type := MHello; encode := encode_hello; decode := decode_hello;
  clipped m := mkHelloMessage (hm_worker m) (hm_boot m) (clip kMaxLabelBytes (hm_label m))
                 (hm_supported_protocol m);
  wire_wf m := u64 (hm_worker m) /\ u64 (hm_boot m) /\ id_valid (hm_worker m) = true /\
               hm_supported_protocol m = kProtocolVersion }.

#[export] Instance hello_ack_wire : WireMessage HelloAckMessage := {
  wire_type := MHelloAck; encode := encode_hello_ack; decode := decode_hello_ack;
  clipped m := mkHelloAckMessage (ha_accepted m) (ha_reason m) (clip kMaxDetailBytes (ha_detail m))
                 (ha_worker m) (ha_boot m) (ha_epoch m) (ha_policy m) (ha_policy_generation m)
                 (ha_policy_digest m) (ha_max_frame_payload m) (ha_heartbeat_ticks m);
  wire_wf m :=
    Forall u64 [ha_worker m; ha_boot m; ha_epoch m; ha_policy m; ha_policy_generation m;
                ha_policy_digest m; ha_heartbeat_ticks m] /\
    ha_reason m < u16_mod /\ ha_max_frame_payload m < u32_mod /\
    (ha_accepted m = true ->
     id_valid (ha_worker m) = true /\ id_valid (ha_boot m) = true /\
     id_valid (ha_epoch m) = true /\ 0 < ha_max_frame_payload m <= kMaxFramePayload) }.

#[export] Instance dispatch_wire : WireMessage DispatchMessage := {
  wire_type := MDispatch; encode := encode_dispatch; decode := decode_dispatch;
  clipped m := m;
  wire_wf m := wf_ticket (dm_ticket m) /\ u64 (dm_nominal_work m) }.

#[export] Instance dispatch_rejected_wire : WireMessage DispatchRejectedMessage := {
  wire_type := MDispatchRejected;
  encode := encode_dispatch_rejected; decode := decode_dispatch_rejected;
  clipped m := mkDispatchRejectedMessage (dr_attempt m) (dr_epoch m) (dr_code m)
                 (clip kMaxDetailBytes (dr_detail m));
  wire_wf m := u64 (dr_attempt m) /\ u64 (dr_epoch m) /\ dr_code m < u16_mod }.

#[export] Instance started_wire : WireMessage StartedMessage := {
  wire_type := MStarted; encode := encode_started; decode := decode_started;
  clipped m := m;
  wire_wf m := u64 (sm_attempt m) /\ u64 (sm_epoch m) /\ u64 (sm_at_tick m) /\
               id_valid (sm_attempt m) = true }.

#[export] Instance completion_wire : WireMessage CompletionMessage := {
  wire_type := MCompletion; encode := encode_completion; decode := decode_completion;
  clipped m := m;
  wire_wf m := wf_evidence (cm_evidence m) }.

#[export] Instance shutdown_wire : WireMessage ShutdownMessage := {
  wire_type := MShutdown; encode := encode_shutdown; decode := decode_shutdown;
  clipped m := mkShutdownMessage (clip kMaxDetailBytes (sh_reason m));
  wire_wf m := True }.

#[export] Instance error_wire : WireMessage ErrorMessage := {
  wire_type := MError; encode := encode_error; decode := decode_error;
  clipped m := mkErrorMessage (em_code m) (clip kMaxDetailBytes (em_detail m));
  wire_wf m := em_code m < u16_mod }.

(** ** Sizes *)

Definition op_size (op : WriteOp) : N :=
  match op with
  | WU8 _ | WBool _ => 1
  | WU16 _ => 2
  | WU32 _ => 4
  | WU64 _ => 8
  | WBytes value => 8 + blen value
  end.

Definition ops_size (ops : list WriteOp) : N := foldr (fun op n => op_size op + n) 0 ops.

Lemma blen_op_bytes op : blen (op_bytes op) = op_size op.
Proof.
  destruct op; cbn [op_bytes op_size]; try done; rewrite ?blen_app;
    unfold blen, encode_u16_le, encode_u32_le, encode_u64_le; by rewrite length_encode_le.
Qed.

Lemma blen_ops_bytes ops : blen (ops_bytes ops) = ops_size ops.
Proof.
  induction ops as [|op ops IH]; [done|].
  rewrite ops_bytes_cons, blen_app, blen_op_bytes, IH. done.
Qed.

Lemma length_clip bound text : (String.length (clip bound text) <= bound)%nat.
Proof.
  unfold clip. revert bound. induction text as [|c text IH]; intros [|bound]; cbn; try lia.
  specialize (IH bound). lia.
Qed.

Lemma clip_short bound text : (String.length text <= bound)%nat -> clip bound text = text.
Proof.
  unfold clip. revert bound. induction text as [|c text IH]; intros [|bound] H; cbn in *;
    try done; try lia. f_equal. apply IH. lia.
Qed.

Lemma op_size_clip bound text : op_size (WText (clip bound text)) <= 8 + N.of_nat bound.
Proof.
  cbn [op_size WText]. unfold blen. rewrite length_string_bytes.
  pose proof (length_clip bound text). lia.
Qed.

(** Bounds the size of a message body. *)
Ltac size_solve :=
  unfold ops_size; cbn [foldr app write_ticket write_evidence write_provenance];
  repeat match goal with
    | |- context [op_size (WText (clip ?b ?t))] =>
        pose proof (op_size_clip b t); generalize dependent (op_size (WText (clip b t))); intros
    end;
  cbn [op_size];
  unfold kMaxDetailBytes, kMaxLabelBytes, kMaxFramePayload, kDefaultLimit in *; lia.

Lemma payload_small ops :
  ops_size ops <= kMaxFramePayload ->
  payload ops = ops_bytes ops /\ blen (payload ops) <= kMaxFramePayload.
Proof.
  intros H. rewrite payload_bytes.
  - split; [done|]. by rewrite blen_ops_bytes.
  - rewrite blen_ops_bytes. unfold kMaxFramePayload, kDefaultLimit in *. lia.
Qed.

(** ** Reading back *)

Lemma bounded_text_op {B} (k : string -> Reader B) rest bound text :
  (bound <= 512)%nat ->
  r_bind (bounded_text bound) k (op_bytes (WText (clip bound text)) ++ rest)
  = k (clip bound text) rest.
Proof.
  intros Hb. unfold bounded_text, r_bind at 1. pose proof (length_clip bound text) as Hc.
  rewrite r_text_op.
  - rewrite (proj2 (N.ltb_ge _ _)) by lia. done.
  - unfold u64, u64_max, blen. rewrite length_string_bytes. lia.
Qed.

Lemma read_message_all {A} (fields : Reader A) data rest a :
  fields (data ++ rest) = Ok (a, rest) ->
  read_message fields (data ++ rest) =
  match rest with [] => Ok a | _ => Err ProtocolViolation end.
Proof. intros H. unfold read_message. rewrite H. cbn. by destruct rest. Qed.

Ltac message_step :=
  lazymatch goal with
  | |- r_bind (bounded_text _) _ _ = _ => rewrite bounded_text_op by (unfold kMaxLabelBytes, kMaxDetailBytes; lia)
  | |- r_bind r_u16 _ _ = _ => rewrite r_u16_op by assumption
  | |- r_bind r_u64 _ _ = _ => rewrite r_u64_op by first [assumption | done]
  | |- r_bind read_ticket _ _ = _ => rewrite (r_codec_op _ _ wf_ticket) by assumption
  | |- r_bind read_evidence _ _ = _ => rewrite (r_codec_op _ _ wf_evidence) by assumption
  | _ => read_step
  end; cbv beta.

(** The fields of a message, in front of the rest of the data. *)
Ltac read_fields :=
  rewrite ?ops_bytes_app, ?ops_bytes_cons; cbn [op_bytes]; rewrite <- ?app_assoc;
  rewrite ?ops_bytes_nil_app; repeat message_step; reflexivity.

(** The encoder's payload is the bytes of its fields. *)
Ltac encoded :=
  match goal with
  | |- context [payload ?ops] => rewrite (proj1 (payload_small ops ltac:(size_solve)))
  end.

#[export] Instance hello_laws : WireLaws HelloMessage.
Proof.
  split; [|intros m; apply payload_small; size_solve].
  intros m rest (Hw & Hb & Hid & Hp). cbn [encode decode clipped hello_wire].
  unfold encode_hello, decode_hello. encoded. rewrite Hp.
  rewrite (read_message_all _ _ _ (clipped m)).
  - destruct rest; [|done]. cbn. by rewrite Hid, Hp.
  - cbn [clipped hello_wire]. rewrite Hp. read_fields.
Qed.

#[export] Instance hello_ack_laws : WireLaws HelloAckMessage.
Proof.
  split; [|intros m; apply payload_small; size_solve].
  intros m rest (Hu & Hr & Hf & Hacc). wf_destruct. cbn [encode decode clipped hello_ack_wire].
  unfold encode_hello_ack, decode_hello_ack. encoded.
  rewrite (read_message_all _ _ _ (clipped m)) by read_fields.
  destruct rest; [|done]. cbn. destruct (ha_accepted m); [|done].
  destruct Hacc as (-> & -> & -> & Hm); [done|]. cbn. unfold guard_err.
  rewrite (proj2 (N.eqb_neq _ _)), (proj2 (N.ltb_ge _ _)) by lia. done.
Qed.

#[export] Instance dispatch_laws : WireLaws DispatchMessage.
Proof.
  split; [|intros m; apply payload_small; size_solve].
  intros [t n] rest [Ht Hn]. cbn [encode dispatch_wire]. unfold encode_dispatch. encoded.
  apply read_message_all.
  cbn in Ht, Hn. cbn [dm_ticket dm_nominal_work]. rewrite ops_bytes_app, ops_bytes_cons.
  cbn [op_bytes]. rewrite <- !app_assoc. repeat message_step. reflexivity.
Qed.

#[export] Instance dispatch_rejected_laws : WireLaws DispatchRejectedMessage.
Proof.
  split; [|intros m; apply payload_small; size_solve].
  intros m rest (Ha & He & Hc). cbn [encode dispatch_rejected_wire].
  unfold encode_dispatch_rejected. encoded. apply read_message_all. read_fields.
Qed.

#[export] Instance started_laws : WireLaws StartedMessage.
Proof.
  split; [|intros m; apply payload_small; size_solve].
  intros [a e t] rest (Ha & He & Ht & Hid). cbn in Ha, He, Ht, Hid.
  cbn [encode decode clipped started_wire]. unfold encode_started, decode_started. encoded.
  rewrite (read_message_all _ _ _ (mkStartedMessage a e t)) by (cbn [sm_attempt sm_epoch sm_at_tick]; read_fields).
  destruct rest; [|done]. cbn. by rewrite Hid.
Qed.

#[export] Instance completion_laws : WireLaws CompletionMessage.
Proof.
  split; [|intros m; apply payload_small; size_solve].
  intros [e] rest He. cbn in He. cbn [encode completion_wire]. unfold encode_completion. encoded.
  apply read_message_all. cbn [cm_evidence]. repeat message_step. reflexivity.
Qed.

#[export] Instance shutdown_laws : WireLaws ShutdownMessage.
Proof.
  split; [|intros m; apply payload_small; size_solve].
  intros m rest _. cbn [encode shutdown_wire]. unfold encode_shutdown. encoded.
  apply read_message_all. read_fields.
Qed.

#[export] Instance error_laws : WireLaws ErrorMessage.
Proof.
  split; [|intros m; apply payload_small; size_solve].
  intros m rest Hc. cbn in Hc. cbn [encode error_wire]. unfold encode_error. encoded.
  apply read_message_all. read_fields.
Qed.

(** ** Properties *)

(** A message of any kind, with the frame type, encoder and decoder of its
    kind. *)
Inductive Message : Type :=
| HelloM (m : HelloMessage)
| HelloAckM (m : HelloAckMessage)
| DispatchM (m : DispatchMessage)
| DispatchRejectedM (m : DispatchRejectedMessage)
| StartedM (m : StartedMessage)
| CompletionM (m : CompletionMessage)
| ShutdownM (m : ShutdownMessage)
| ErrorM (m : ErrorMessage).

Definition frame_of {A} `{!WireMessage A} (m : A) : N * bytes :=
  (message_type_value (wire_type (A := A)), encode m).

Definition message_frame (m : Message) : N * bytes :=
  match m with
  | HelloM m => frame_of m | HelloAckM m => frame_of m | DispatchM m => frame_of m
  | DispatchRejectedM m => frame_of m | StartedM m => frame_of m | CompletionM m => frame_of m
  | ShutdownM m => frame_of m | ErrorM m => frame_of m
  end.

(** The decoder of the kind a frame's type names. *)
Definition decode_message (type : N) (body : bytes) : Res Message :=
  match type with
  | 1 => let? m := decode body in Ok (HelloM m)
  | 2 => let? m := decode body in Ok (HelloAckM m)
  | 3 => let? m := decode body in Ok (DispatchM m)
  | 4 => let? m := decode body in Ok (DispatchRejectedM m)
  | 5 => let? m := decode body in Ok (StartedM m)
  | 6 => let? m := decode body in Ok (CompletionM m)
  | 7 => let? m := decode body in Ok (ShutdownM m)
  | 8 => let? m := decode body in Ok (ErrorM m)
  | _ => Err ProtocolViolation
  end.

(** The fields fit their types and pass the receiver's checks. *)
Definition message_wf (m : Message) : Prop :=
  match m with
  | HelloM m => wire_wf m | HelloAckM m => wire_wf m | DispatchM m => wire_wf m
  | DispatchRejectedM m => wire_wf m | StartedM m => wire_wf m | CompletionM m => wire_wf m
  | ShutdownM m => wire_wf m | ErrorM m => wire_wf m
  end.

(** The message with its texts cut to their bounds. *)
Definition clipped_message (m : Message) : Message :=
  match m with
  | HelloM m => HelloM (clipped m) | HelloAckM m => HelloAckM (clipped m)
  | DispatchM m => DispatchM m | DispatchRejectedM m => DispatchRejectedM (clipped m)
  | StartedM m => StartedM m | CompletionM m => CompletionM m
  | ShutdownM m => ShutdownM (clipped m) | ErrorM m => ErrorM (clipped m)
  end.

Lemma decode_message_frame m rest :
  message_wf m ->
  decode_message (message_frame m).1 ((message_frame m).2 ++ rest) =
  match rest with [] => Ok (clipped_message m) | _ => Err ProtocolViolation end.
Proof.
  intros Hwf. destruct m as [m|m|m|m|m|m|m|m]; cbn [message_frame frame_of fst snd message_wf clipped_message] in *;
    lazymatch goal with |- decode_message ?t ?body = ?r =>
      let v := eval vm_compute in t in change (decode_message v body = r) end;
    cbn [decode_message]; rewrite wire_decode by exact Hwf; by destruct rest.
Qed.

(** C19 Conversations survive the wire.  When well-formed messages of any
    kinds are encoded, framed and sent, and the network delivers the accepted
    bytes in chunks of any size, the receiver reads one frame per message and then
    the end of the stream; the decoder each frame's type names gives back the
    message, field for field, with its texts cut to their bounds; and it would
    have refused the payload with even one byte behind it. *)
Theorem messages_delivered (ms : list Message) (answers : list SendAnswer) (sent : bytes)
  (chunks : list bytes) (Hwf : Forall message_wf ms)
  (Hsend : send_frames true answers (message_frame <$> ms) = (sent, length ms))
  (Hchunks : Forall chunk_ok chunks) (Hnet : mjoin chunks = sent) :
  exists received,
    receive_all (S (length ms)) ((RecvData <$> chunks) ++ [RecvEnd]) new_accumulator =
      (received, Returned (Ok tt)) /\
    (fun '(type, body) => decode_message type body) <$> received = (Ok ∘ clipped_message) <$> ms /\
    forall type body x rest, (type, body) ∈ received ->
      decode_message type (body ++ x :: rest) = Err ProtocolViolation.
Proof.
  exists (message_frame <$> ms). split_and!.
  - apply send_frames_sound in Hsend
      as (_ & Hms & torn & Hs & (t & p & more & Hok & Hf & Hmore) & Hall).
    rewrite (Hall (eq_sym (length_fmap _ _))) in *. rewrite firstn_all2 in Hms, Hs
      by (by rewrite length_fmap).
    rewrite <- (length_fmap message_frame ms) at 1.
    rewrite (receive_all_stream _ chunks new_accumulator [] more t p); [done|done|done|done|done|done|].
    cbn [fa_buffer new_accumulator app]. rewrite Hnet. exact Hs.
  - rewrite <- list_fmap_compose. apply list_fmap_ext. intros i m Hm.
    apply (Forall_lookup_1 _ _ _ _ Hwf) in Hm. unfold compose.
    pose proof (decode_message_frame m [] Hm) as H. rewrite app_nil_r in H.
    by destruct (message_frame m).
  - intros type body x rest (m & Hm & Hin)%list_elem_of_fmap.
    rewrite Forall_forall in Hwf. pose proof (decode_message_frame m (x :: rest) (Hwf m Hin)) as H.
    by rewrite <- Hm in H.
Qed.

(** A greeting: a hello and its acknowledgement. *)
Definition greeting : list Message :=
  [HelloM (mkHelloMessage 7 9 "worker" kProtocolVersion);
   HelloAckM (mkHelloAckMessage true 0 "welcome" 7 9 3 11 1 5 kMaxFramePayload 100)].
Definition greeting_bytes : bytes := stream (message_frame <$> greeting).

Lemma messages_delivered_witness :
  exists received,
    receive_all 3 ((RecvData <$> [take 30 greeting_bytes; drop 30 greeting_bytes]) ++ [RecvEnd])
      new_accumulator = (received, Returned (Ok tt)) /\
    (fun '(type, body) => decode_message type body) <$> received = Ok <$> greeting.
Proof.
  destruct (messages_delivered greeting [Written 20; Written 300; SendWouldBlock; Written 300]
    greeting_bytes [take 30 greeting_bytes; drop 30 greeting_bytes])
    as (received & H1 & H2 & _).
  - repeat constructor; vm_compute; try discriminate; reflexivity.
  - vm_compute. reflexivity.
  - repeat constructor; vm_compute; (reflexivity || discriminate).
  - vm_compute. reflexivity.
  - exists received. split; [exact H1 | exact H2].
Defined.
