(* ===== verification/Journal.v ===== *)
(** * The durable store

    Models include/flow_scheduler/journal.hpp and src/journal.cpp: the record
    types, the journal record and snapshot layouts, [scan_journal], and
    [DurableStore] with [open], [append], [replay], [read_snapshot],
    [write_snapshot] and [compact].

    The file system is a parameter of a run: [ds_io] lists what the next file
    operations do ([IoFail n] fails after [n] bytes reached the file; an empty
    list succeeds), so every statement about a store quantifies over all
    failure patterns.  Reads return the bytes of the file. *)

From S2P Require Import Prelude Checked Bytes Hash Model Schedule Codec.

(** ** Record types *)

Inductive JournalRecordType : Set :=
| JUnknown | JPolicyInstalled | JResourceRegistered | JReservationRegistered
| JReservationRetired | JPriorityClassRegistered | JQoSClassRegistered | JEpochAdvanced
| JFlowAdmitted | JFlowUpdated | JFlowReadinessChanged | JFlowCancelled | JFlowRetired
| JScheduleIssued | JScheduleReleased | JAttemptOpened | JAttemptStarted | JAttemptClosed
| JCompletionCommitted | JAmbiguityResolved | JCheckpoint.

#[export] Instance JournalRecordType_eq_dec : EqDecision JournalRecordType.
Proof. solve_decision. Defined.

Definition record_type_value (t : JournalRecordType) : N :=
  match t with
  | JUnknown => 0 | JPolicyInstalled => 1 | JResourceRegistered => 2
  | JReservationRegistered => 3 | JReservationRetired => 4 | JPriorityClassRegistered => 5
  | JQoSClassRegistered => 6 | JEpochAdvanced => 7 | JFlowAdmitted => 8 | JFlowUpdated => 9
  | JFlowReadinessChanged => 10 | JFlowCancelled => 11 | JFlowRetired => 12
  | JScheduleIssued => 13 | JScheduleReleased => 14 | JAttemptOpened => 15
  | JAttemptStarted => 16 | JAttemptClosed => 17 | JCompletionCommitted => 18
  | JAmbiguityResolved => 19 | JCheckpoint => 20
  end.

Definition record_type_of_value (v : N) : option JournalRecordType :=
  match v with
  | 0 => Some JUnknown | 1 => Some JPolicyInstalled | 2 => Some JResourceRegistered
  | 3 => Some JReservationRegistered | 4 => Some JReservationRetired
  | 5 => Some JPriorityClassRegistered | 6 => Some JQoSClassRegistered
  | 7 => Some JEpochAdvanced | 8 => Some JFlowAdmitted | 9 => Some JFlowUpdated
  | 10 => Some JFlowReadinessChanged | 11 => Some JFlowCancelled | 12 => Some JFlowRetired
  | 13 => Some JScheduleIssued | 14 => Some JScheduleReleased | 15 => Some JAttemptOpened
  | 16 => Some JAttemptStarted | 17 => Some JAttemptClosed | 18 => Some JCompletionCommitted
  | 19 => Some JAmbiguityResolved | 20 => Some JCheckpoint
  | _ => None
  end.

(** ** Layout *)

Definition kDurableFormatGeneration : N := 1.
Definition kJournalRecordMagic : N := 826954566.   (* 0x314A5346 *)
Definition kSnapshotMagic : N := 827544390.        (* 0x31535346 *)
Definition kJournalHeaderBytes : N := 24.
Definition kJournalTrailerBytes : N := 4.
Definition kSnapshotHeaderBytes : N := 20.
Definition kMaxJournalRecordPayload : N := 1048576.
Definition kMaxSnapshotPayload : N := 67108864.
Definition kMaxJournalBytes : N := 536870912.

Definition journal_record_bytes (payload_length : N) : N :=
  kJournalHeaderBytes + payload_length + kJournalTrailerBytes.

(** The first 20 bytes of a record header, which the header CRC covers. *)
Definition journal_header (type sequence length : N) : bytes :=
  encode_u32_le kJournalRecordMagic ++ encode_u16_le kDurableFormatGeneration ++
  encode_u16_le type ++ encode_u64_le sequence ++ encode_u32_le length.

Definition build_journal_record (type sequence : N) (payload : bytes) : bytes :=
  let header := journal_header type sequence (blen payload) in
  header ++ encode_u32_le (crc32c header) ++ payload ++ encode_u32_le (crc32c payload).

Definition build_snapshot_blob (payload : bytes) : bytes :=
  let header :=
    encode_u32_le kSnapshotMagic ++ encode_u16_le kDurableFormatGeneration ++
    encode_u16_le 0 ++ encode_u32_le (blen payload) ++ encode_u32_le (crc32c payload) in
  header ++ encode_u32_le (crc32c header) ++ payload.

(** ** Scanning *)

Record JournalRecordView := mkJournalRecordView {
  jv_type : N;
  jv_sequence : N;
  jv_payload : bytes }.

Inductive ScanStop : Set := Complete | TornTail | VisitorRejected.

#[export] Instance ScanStop_eq_dec : EqDecision ScanStop.
Proof. solve_decision. Defined.

Record ScanOutcome := mkScanOutcome {
  so_status : Status;
  so_stop : ScanStop;
  so_records : N;
  so_valid_bytes : N;
  so_last_sequence : N;
  so_skipped : N }.

#[export] Instance eta_ScanOutcome : Eta ScanOutcome := fun r =>
  mkScanOutcome (so_status r) (so_stop r) (so_records r) (so_valid_bytes r)
    (so_last_sequence r) (so_skipped r).

Definition initial_scan : ScanOutcome := mkScanOutcome (Ok tt) Complete 0 0 0 0.

(** What one turn of the scanning loop finds at the current offset. *)
Inductive RecordRead : Type :=
| EndOfJournal
| Torn
| Corrupt (e : ErrorCode)
| Whole (view : JournalRecordView) (rest : bytes).

(** The payload and trailer of a record whose header was accepted. *)
Definition read_body (stop_on_unknown : bool) (type_value sequence payload_length : N)
  (body : bytes) : RecordRead :=
  let payload := take (N.to_nat payload_length) body in
  if negb (blen payload =? payload_length) then Torn
  else
    let tail := drop (N.to_nat payload_length) body in
    let trailer := take 4 tail in
    if negb (blen trailer =? kJournalTrailerBytes) then Torn
    else if negb (decode_u32_le trailer =? crc32c payload) then Corrupt CorruptData
    else if stop_on_unknown && negb (type_value =? 0)
            && (record_type_value JCheckpoint <? type_value) then Corrupt Unsupported
    else Whole (mkJournalRecordView type_value sequence payload) (drop 4 tail).

(** One turn of the loop, up to the visitor. *)
Definition read_record (stop_on_unknown : bool) (expected_sequence : N) (data : bytes)
  : RecordRead :=
  let header := take 24 data in
  if blen header =? 0 then EndOfJournal
  else if negb (blen header =? kJournalHeaderBytes) then Torn
  else if negb (decode_u32_le header =? kJournalRecordMagic) then Corrupt CorruptData
  else if negb (decode_u16_le (drop 4 header) =? kDurableFormatGeneration)
       then Corrupt Unsupported
  else
    let type_value := decode_u16_le (drop 6 header) in
    let sequence := decode_u64_le (drop 8 header) in
    let payload_length := decode_u32_le (drop 16 header) in
    let header_crc := decode_u32_le (drop 20 header) in
    if negb (header_crc =? crc32c (take 20 header)) then Corrupt CorruptData
    else if kMaxJournalRecordPayload <? payload_length then Corrupt Oversized
    else if negb (sequence =? expected_sequence) then Corrupt SequenceGap
    else read_body stop_on_unknown type_value sequence payload_length (drop 24 data).

Section Scan.
Context {S : Type} (stop_on_unknown : bool)
  (visitor : JournalRecordView -> M ErrorCode S unit).

(** The [for (;;)] loop.  Every whole record consumes at least 28 bytes, so
    [length data + 1] turns are enough ([scan_loop_enough]). *)
Fixpoint scan_loop (fuel : nat) (expected_sequence : N) (data : bytes) (outcome : ScanOutcome)
  (s : S) : S * ScanOutcome :=
  match fuel with
  | O => (s, outcome <| so_status := Err Internal |>)
  | Datatypes.S fuel =>
      match read_record stop_on_unknown expected_sequence data with
      | EndOfJournal => (s, outcome)
      | Torn => (s, outcome <| so_stop := TornTail |>)
      | Corrupt e => (s, outcome <| so_status := Err e |>)
      | Whole view rest =>
          match visitor view s with
          | (s, Err e) =>
              (s, outcome <| so_status := Err e |> <| so_stop := VisitorRejected |>)
          | (s, Ok _) =>
              scan_loop fuel (jv_sequence view + 1) rest
                (mkScanOutcome (so_status outcome) (so_stop outcome)
                   (so_records outcome + 1)
                   (so_valid_bytes outcome + journal_record_bytes (blen (jv_payload view)))
                   (jv_sequence view) (so_skipped outcome)) s
          end
      end
  end.

Lemma scan_loop_S fuel expected data o s :
  scan_loop (Datatypes.S fuel) expected data o s =
  match read_record stop_on_unknown expected data with
  | EndOfJournal => (s, o)
  | Torn => (s, o <| so_stop := TornTail |>)
  | Corrupt e => (s, o <| so_status := Err e |>)
  | Whole view rest =>
      match visitor view s with
      | (s, Err e) => (s, o <| so_status := Err e |> <| so_stop := VisitorRejected |>)
      | (s, Ok _) =>
          scan_loop fuel (jv_sequence view + 1) rest
            (mkScanOutcome (so_status o) (so_stop o) (so_records o + 1)
               (so_valid_bytes o + journal_record_bytes (blen (jv_payload view)))
               (jv_sequence view) (so_skipped o)) s
      end
  end.
Proof. reflexivity. Qed.

Definition scan_bytes (data : bytes) (s : S) : S * ScanOutcome :=
  scan_loop (Datatypes.S (length data)) 1 data initial_scan s.
End Scan.

(** ** File operations *)

Inductive IoEvent : Set := IoOk | IoFail (written : N).

Record DurableStore := mkDurableStore {
  ds_journal : bytes;
  ds_snapshot : option bytes;
  ds_snapshot_temp : option bytes;
  ds_flush_to_storage : bool;
  ds_last_sequence : N;
  ds_valid_bytes : N;
  ds_open_tail_truncated : bool;
  ds_torn_tail_pending : bool;
  ds_io : list IoEvent }.

#[export] Instance eta_DurableStore : Eta DurableStore := fun r =>
  mkDurableStore (ds_journal r) (ds_snapshot r) (ds_snapshot_temp r) (ds_flush_to_storage r)
    (ds_last_sequence r) (ds_valid_bytes r) (ds_open_tail_truncated r)
    (ds_torn_tail_pending r) (ds_io r).

Abbreviation StoreM := (M ErrorCode DurableStore).

(** The event of the next file operation. *)
Definition io_event : StoreM IoEvent := fun ds =>
  match ds_io ds with
  | [] => (ds, Ok IoOk)
  | e :: rest => (ds <| ds_io := rest |>, Ok e)
  end.

(** A call that either succeeds or fails without effect: [fseek], [fflush],
    [fsync], [fopen], [rename]. *)
Definition io_call : StoreM unit :=
  let* e := io_event in
  match e with IoOk => ret tt | IoFail _ => throw IoFailure end.

(** [fwrite]: a failing call may leave a prefix of the data in the file. *)
Definition io_write (data : bytes) (append_to : bytes -> DurableStore -> DurableStore)
  : StoreM unit :=
  let* e := io_event in
  match e with
  | IoOk => modify (append_to data)
  | IoFail n =>
      modify (append_to (take (N.to_nat (N.min n (blen data - 1))) data)) ;;; throw IoFailure
  end.

(** [ftruncate]: cuts the file, or extends it with zero bytes. *)
Definition truncate_bytes (size : N) (data : bytes) : bytes :=
  take (N.to_nat size) data ++ replicate (N.to_nat (size - blen data)) Byte.x00.

Definition truncate_file (size : N) : StoreM unit :=
  io_call ;;; io_call ;;;
  modify (fun ds => ds <| ds_journal ::= truncate_bytes size |>).

Definition flush_to_stable_storage : StoreM unit := io_call ;;; io_call.

(** ** DurableStore *)

(** The start of [DurableStore::open]: [create_directories], and the [fopen] with
    mode ["ab+"] that creates an absent journal. *)
Definition open_file : StoreM unit := io_call ;;; io_call.

(** The rest of it: the integrity scan. *)
Definition open_scan : StoreM unit :=
  io_call ;;;   (* fseek in scan_journal *)
  let* ds := get in
  let '(_, scanned) := scan_bytes false (fun _ => ret tt) (ds_journal ds) tt in
  lift (so_status scanned) ;;;
  let torn := bool_decide (so_stop scanned = TornTail) in
  modify (fun ds => ds <| ds_open_tail_truncated := torn |>
                       <| ds_torn_tail_pending := torn |>
                       <| ds_valid_bytes := so_valid_bytes scanned |>
                       <| ds_last_sequence := so_last_sequence scanned |>) ;;;
  io_call.      (* fseek *)

(** The store before it is opened, over the bytes of the journal and of the
    snapshot file. *)
Definition closed_store (journal : bytes) (snapshot : option bytes) (flush : bool)
  (io : list IoEvent) : DurableStore :=
  mkDurableStore journal snapshot None flush 0 0 false false io.

(** [DurableStore::open] on a directory whose files hold [journal] and
    [snapshot]; an absent journal is an empty one from [open_file] on. *)
Definition open (journal : bytes) (snapshot : option bytes) (flush : bool)
  (io : list IoEvent) : Res DurableStore :=
  match (open_file ;;; open_scan) (closed_store journal snapshot flush io) with
  | (ds, Ok _) => Ok ds
  | (_, Err e) => Err e
  end.

Definition append (type : JournalRecordType) (payload : bytes) : StoreM unit :=
  let* ds := get in
  reject_if bool_decide (type = JUnknown) with InvalidArgument ;;
  reject_if kMaxJournalRecordPayload <? blen payload with Oversized ;;
  reject_if ds_last_sequence ds =? u64_max with ArithmeticOverflow ;;
  let record_bytes := journal_record_bytes (blen payload) in
  reject_if (kMaxJournalBytes <? ds_valid_bytes ds)
            || (kMaxJournalBytes - ds_valid_bytes ds <? record_bytes) with Bounded ;;
  (if ds_torn_tail_pending ds then
     truncate_file (ds_valid_bytes ds) ;;;
     flush_to_stable_storage ;;;
     modify (fun ds => ds <| ds_torn_tail_pending := false |>)
   else ret tt) ;;;
  let sequence := ds_last_sequence ds + 1 in
  let record := build_journal_record (record_type_value type) sequence payload in
  io_call ;;;
  io_write record (fun data ds => ds <| ds_journal ::= fun j => j ++ data |>) ;;;
  (if ds_flush_to_storage ds then flush_to_stable_storage else io_call) ;;;
  modify (fun ds => ds <| ds_last_sequence := sequence |>
                       <| ds_valid_bytes ::= fun v => v + record_bytes |>).

Record JournalScanReport := mkJournalScanReport {
  jr_records : N;
  jr_bytes : N;
  jr_last_sequence : N;
  jr_skipped_records : N;
  jr_tail_truncated : bool;
  jr_truncate_to_bytes : N }.

(** [replay]: the visitor works on the state [S] of the caller. *)
Definition replay {S} (repair : bool) (visitor : JournalRecordView -> M ErrorCode S unit)
  (ds : DurableStore) (s : S) : (DurableStore * S) * Res JournalScanReport :=
  match io_call ds with
  | (ds, Err e) => ((ds, s), Err e)
  | (ds, Ok _) =>
      let '(s, outcome) := scan_bytes true visitor (ds_journal ds) s in
      match so_status outcome with
      | Err e => ((ds, s), Err e)
      | Ok _ =>
          let torn := bool_decide (so_stop outcome = TornTail) in
          let report := mkJournalScanReport (so_records outcome) (so_valid_bytes outcome)
            (so_last_sequence outcome) (so_skipped outcome) torn (so_valid_bytes outcome) in
          let finish : StoreM unit :=
            (if torn && repair then
               truncate_file (so_valid_bytes outcome) ;;;
               flush_to_stable_storage ;;;
               modify (fun ds => ds <| ds_valid_bytes := so_valid_bytes outcome |>
                                    <| ds_last_sequence := so_last_sequence outcome |>
                                    <| ds_torn_tail_pending := false |>)
             else ret tt) ;;;
            io_call in
          match finish ds with
          | (ds, Ok _) => ((ds, s), Ok report)
          | (ds, Err e) => ((ds, s), Err e)
          end
      end
  end.

(** The checks of [read_snapshot] on the blob it read. *)
Definition parse_snapshot (blob : bytes) : Res bytes :=
  fail_if negb (decode_u32_le blob =? kSnapshotMagic) with CorruptData ;;
  fail_if negb (decode_u16_le (drop 4 blob) =? kDurableFormatGeneration) with Unsupported ;;
  fail_if negb (decode_u32_le (drop 16 blob) =? crc32c (take 16 blob)) with CorruptData ;;
  let payload_length := decode_u32_le (drop 8 blob) in
  fail_if negb (payload_length =? blen blob - kSnapshotHeaderBytes) with CorruptData ;;
  let payload := take (N.to_nat payload_length) (drop 20 blob) in
  fail_if negb (decode_u32_le (drop 12 blob) =? crc32c payload) with CorruptData ;;
  Ok payload.

Definition read_snapshot : StoreM bytes :=
  let* ds := get in
  match ds_snapshot ds with
  | None => throw NotFound
  | Some blob =>
      io_call ;;;   (* file_size *)
      reject_if (blen blob <? kSnapshotHeaderBytes)
                || (kMaxSnapshotPayload + kSnapshotHeaderBytes <? blen blob)
        with CorruptData ;;
      io_call ;;;   (* fopen *)
      lift (parse_snapshot blob)
  end.

Definition write_snapshot (payload : bytes) : StoreM unit :=
  reject_if kMaxSnapshotPayload <? blen payload with Oversized ;;
  let blob := build_snapshot_blob payload in
  io_call ;;;   (* fopen *)
  modify (fun ds => ds <| ds_snapshot_temp := Some [] |>) ;;;
  (fun ds =>
     match (io_write blob (fun data ds => ds <| ds_snapshot_temp := Some data |>) ;;;
            flush_to_stable_storage) ds with
     | (ds, Err e) => (ds <| ds_snapshot_temp := None |>, Err e)
     | (ds, Ok _) =>
         match io_call ds with   (* rename *)
         | (ds, Err e) => (ds <| ds_snapshot_temp := None |>, Err e)
         | (ds, Ok _) =>
             (ds <| ds_snapshot := ds_snapshot_temp ds |> <| ds_snapshot_temp := None |>, Ok tt)
         end
     end).

Definition compact (snapshot_payload : bytes) : StoreM unit :=
  write_snapshot snapshot_payload ;;;
  truncate_file 0 ;;;
  flush_to_stable_storage ;;;
  io_call ;;;
  modify (fun ds => ds <| ds_last_sequence := 0 |> <| ds_valid_bytes := 0 |>
                       <| ds_torn_tail_pending := false |>).

(** ** Records read back *)

Definition sealed_header (type sequence length : N) : bytes :=
  journal_header type sequence length ++
  encode_u32_le (crc32c (journal_header type sequence length)).

Lemma build_journal_record_split t q p :
  build_journal_record t q p =
  sealed_header t q (blen p) ++ p ++ encode_u32_le (crc32c p).
Proof. unfold build_journal_record, sealed_header. by rewrite <- app_assoc. Qed.

Lemma length_journal_header t q n : length (journal_header t q n) = 20%nat.
Proof. reflexivity. Qed.

Lemma length_sealed_header t q n : length (sealed_header t q n) = 24%nat.
Proof. reflexivity. Qed.

Lemma length_build t q p :
  length (build_journal_record t q p) = (28 + length p)%nat.
Proof.
  rewrite build_journal_record_split, !length_app, length_sealed_header.
  unfold encode_u32_le. rewrite length_encode_le. lia.
Qed.

Lemma blen_build t q p : blen (build_journal_record t q p) = journal_record_bytes (blen p).
Proof.
  unfold blen, journal_record_bytes, kJournalHeaderBytes, kJournalTrailerBytes.
  rewrite length_build. lia.
Qed.

Section RecordLayout.
Context (b : bool) (t q n : N).
Hypotheses (Ht : t < u16_mod) (Hq : u64 q) (Hn : n <= kMaxJournalRecordPayload).

(** A sealed header passes every header check but the one on the sequence. *)
Lemma read_record_sealed expected body :
  read_record b expected (sealed_header t q n ++ body) =
  if q =? expected then read_body b t q n body else Corrupt SequenceGap.
Proof.
  assert (q < u64_mod) as Hq' by (unfold u64, u64_max, u64_mod in *; lia).
  assert (n < u32_mod) as Hn' by (unfold kMaxJournalRecordPayload, u32_mod in *; lia).
  unfold read_record. cbv zeta.
  rewrite (take_app_length' (sealed_header t q n)) by reflexivity.
  rewrite (drop_app_length' (sealed_header t q n)) by reflexivity.
  unfold blen. rewrite length_sealed_header.
  change (N.of_nat 24 =? 0) with false. change (N.of_nat 24 =? kJournalHeaderBytes) with true.
  cbn [negb].
  assert (take 20 (sealed_header t q n) = journal_header t q n) as ->.
  { unfold sealed_header. apply take_app_length'. reflexivity. }
  assert (drop 20 (sealed_header t q n)
          = encode_u32_le (crc32c (journal_header t q n))) as ->.
  { unfold sealed_header. apply drop_app_length'. reflexivity. }
  unfold sealed_header, journal_header. rewrite <- !app_assoc.
  rewrite decode_u32_app by done. rewrite N.eqb_refl. cbn [negb].
  rewrite (drop_app_length' (encode_u32_le _)) by reflexivity.
  rewrite decode_u16_app by done. rewrite N.eqb_refl. cbn [negb].
  rewrite (drop_app_add' (encode_u32_le _) _ 4 2) by reflexivity.
  rewrite (drop_app_length' (encode_u16_le _)) by reflexivity.
  rewrite decode_u16_app by done.
  rewrite (drop_app_add' (encode_u32_le _) _ 4 4) by reflexivity.
  rewrite (drop_app_add' (encode_u16_le _) _ 2 2) by reflexivity.
  rewrite (drop_app_length' (encode_u16_le _)) by reflexivity.
  rewrite decode_u64_app by done.
  rewrite (drop_app_add' (encode_u32_le _) _ 4 12) by reflexivity.
  rewrite (drop_app_add' (encode_u16_le _) _ 2 10) by reflexivity.
  rewrite (drop_app_add' (encode_u16_le _) _ 2 8) by reflexivity.
  rewrite (drop_app_length' (encode_u64_le _)) by reflexivity.
  rewrite decode_u32_app by done.
  set (h := encode_u32_le _ ++ encode_u16_le _ ++ encode_u16_le t ++ _).
  pose proof (decode_u32_app (crc32c h) [] (crc32c_bound h)) as Hc.
  rewrite app_nil_r in Hc. rewrite Hc, N.eqb_refl. cbn [negb].
  rewrite (proj2 (N.ltb_ge _ _)) by done. by destruct (q =? expected).
Qed.

Lemma read_record_header body :
  read_record b q (sealed_header t q n ++ body) = read_body b t q n body.
Proof. by rewrite read_record_sealed, N.eqb_refl. Qed.
End RecordLayout.

(** ** Termination of the scan *)

Lemma read_body_shrinks b t q n body view rest :
  read_body b t q n body = Whole view rest -> (length rest <= length body)%nat.
Proof.
  unfold read_body. repeat case_match; try discriminate. intros [= <- <-].
  rewrite !length_drop. lia.
Qed.

Lemma read_record_shrinks b e data view rest :
  read_record b e data = Whole view rest -> (length rest < length data)%nat.
Proof.
  unfold read_record. cbv zeta.
  destruct (N.eqb_spec (blen (take 24 data)) 0) as [|Hz]; [discriminate|].
  unfold blen in Hz. rewrite length_take in Hz.
  repeat (case_match; [discriminate|]). intros Hbody%read_body_shrinks.
  rewrite length_drop in Hbody. lia.
Qed.

(** The scan never runs out of fuel: any two amounts above the number of bytes
    give the same result. *)
Lemma scan_loop_enough {S} b (visitor : JournalRecordView -> M ErrorCode S unit)
  fuel fuel' e data o s :
  (length data < fuel)%nat -> (length data < fuel')%nat ->
  scan_loop b visitor fuel e data o s = scan_loop b visitor fuel' e data o s.
Proof.
  revert fuel' e data o s. induction fuel as [|fuel IH]; intros fuel' e data o s H1 H2; [lia|].
  destruct fuel' as [|fuel']; [lia|]. rewrite !scan_loop_S.
  destruct (read_record b e data) as [| |c|view rest] eqn:Hr; try done.
  apply read_record_shrinks in Hr.
  destruct (visitor view s) as [s' [[]|err]]; [|done]. apply IH; lia.
Qed.

(** ** The journal as a log of records *)

Abbreviation Log := (list (JournalRecordType * bytes)).

(** The file contents of a log whose first record carries sequence [q]. *)
Fixpoint encode_log (q : N) (log : Log) : bytes :=
  match log with
  | [] => []
  | (t, p) :: log => build_journal_record (record_type_value t) q p ++ encode_log (q + 1) log
  end.

Fixpoint log_views (q : N) (log : Log) : list JournalRecordView :=
  match log with
  | [] => []
  | (t, p) :: log => mkJournalRecordView (record_type_value t) q p :: log_views (q + 1) log
  end.

(** The records that lie entirely within the first [k] bytes. *)
Fixpoint surviving (k : nat) (log : Log) : Log :=
  match log with
  | [] => []
  | (t, p) :: log =>
      if (28 + length p <=? k)%nat then (t, p) :: surviving (k - (28 + length p)) log else []
  end.

Definition log_wf (q : N) (log : Log) : Prop :=
  Forall (fun '(_, p) => blen p <= kMaxJournalRecordPayload) log /\
  q + N.of_nat (length log) <= u64_max.

(** The visitor over a list of records, stopping at the first refusal. *)
Fixpoint visit_all {S} (visitor : JournalRecordView -> M ErrorCode S unit)
  (views : list JournalRecordView) (s : S) : S * Status :=
  match views with
  | [] => (s, Ok tt)
  | v :: views =>
      match visitor v s with
      | (s, Ok _) => visit_all visitor views s
      | (s, Err e) => (s, Err e)
      end
  end.

Lemma record_type_value_bound t : record_type_value t < u16_mod.
Proof. by destruct t. Qed.

Lemma record_type_known t : (record_type_value JCheckpoint <? record_type_value t) = false.
Proof. by destruct t. Qed.

Lemma record_type_roundtrip t : record_type_of_value (record_type_value t) = Some t.
Proof. by destruct t. Qed.

Lemma read_body_whole b t q p rest :
  read_body b (record_type_value t) q (blen p) (p ++ encode_u32_le (crc32c p) ++ rest) =
  Whole (mkJournalRecordView (record_type_value t) q p) rest.
Proof.
  unfold read_body, blen. cbv zeta. rewrite Nat2N.id.
  rewrite (take_app_length' p) by done. rewrite (drop_app_length' p) by done.
  rewrite N.eqb_refl. cbn [negb].
  rewrite (take_app_length' (encode_u32_le _)) by reflexivity.
  rewrite (drop_app_length' (encode_u32_le _)) by reflexivity.
  change (N.of_nat (length (encode_u32_le (crc32c p)))) with 4.
  change (4 =? kJournalTrailerBytes) with true. cbn [negb].
  pose proof (decode_u32_app (crc32c p) [] (crc32c_bound p)) as Hc.
  rewrite app_nil_r in Hc. rewrite Hc, N.eqb_refl, record_type_known. cbn [negb].
  by rewrite andb_false_r.
Qed.

Lemma read_body_torn b t q p k :
  (k < length p + 4)%nat ->
  read_body b t q (blen p) (take k (p ++ encode_u32_le (crc32c p))) = Torn.
Proof.
  intros Hk. unfold read_body, blen. cbv zeta. rewrite Nat2N.id.
  rewrite length_take, length_take, length_app.
  change (length (encode_u32_le (crc32c p))) with 4%nat.
  destruct (N.eqb_spec (N.of_nat (length p `min` (k `min` (length p + 4)))) (N.of_nat (length p)))
    as [E|E]; [|done]. cbn [negb].
  rewrite length_take, length_drop, length_take, length_app.
  change (length (encode_u32_le (crc32c p))) with 4%nat.
  unfold kJournalTrailerBytes.
  destruct (N.eqb_spec
    (N.of_nat (4 `min` (k `min` (length p + 4) - length p))) 4); [lia | done].
Qed.

Lemma read_record_whole b t q p rest :
  u64 q -> blen p <= kMaxJournalRecordPayload ->
  read_record b q (build_journal_record (record_type_value t) q p ++ rest) =
  Whole (mkJournalRecordView (record_type_value t) q p) rest.
Proof.
  intros Hq Hp. rewrite build_journal_record_split, <- !app_assoc.
  rewrite read_record_header by (done || apply record_type_value_bound).
  apply read_body_whole.
Qed.

Lemma read_record_torn b t q p k :
  u64 q -> blen p <= kMaxJournalRecordPayload -> (0 < k < 28 + length p)%nat ->
  read_record b q (take k (build_journal_record (record_type_value t) q p)) = Torn.
Proof.
  intros Hq Hp Hk. rewrite build_journal_record_split.
  destruct (decide (k < 24)%nat) as [Hlt|Hge].
  - unfold read_record. cbv zeta. unfold blen, kJournalHeaderBytes.
    rewrite length_take, length_take, length_app, length_sealed_header.
    destruct (N.eqb_spec (N.of_nat (24 `min` (k `min` (24 + length (p ++ encode_u32_le (crc32c p))))))
      0); [lia|].
    destruct (N.eqb_spec (N.of_nat (24 `min` (k `min` (24 + length (p ++ encode_u32_le (crc32c p))))))
      24); [lia|done].
  - rewrite take_app_ge by (rewrite length_sealed_header; lia).
    rewrite read_record_header by (done || apply record_type_value_bound).
    apply read_body_torn. rewrite length_sealed_header. lia.
Qed.

Lemma read_record_nil b q : read_record b q [] = EndOfJournal.
Proof. reflexivity. Qed.

(** ** Scanning a possibly cut log *)

Definition add_records (q : N) (kept : Log) (o : ScanOutcome) : ScanOutcome :=
  mkScanOutcome (so_status o) (so_stop o) (so_records o + N.of_nat (length kept))
    (so_valid_bytes o + blen (encode_log q kept))
    (if decide (kept = []) then so_last_sequence o else q + N.of_nat (length kept) - 1)
    (so_skipped o).

Lemma add_records_cons q t p kept o :
  add_records (q + 1) kept
    (mkScanOutcome (so_status o) (so_stop o) (so_records o + 1)
       (so_valid_bytes o + journal_record_bytes (blen p)) q (so_skipped o)) =
  add_records q ((t, p) :: kept) o.
Proof.
  unfold add_records. simpl so_status. simpl so_stop. cbn [encode_log so_records
    so_valid_bytes so_last_sequence so_skipped]. rewrite blen_app, blen_build. f_equal.
  - cbn [length]. lia.
  - lia.
  - rewrite (decide_False (P := _ :: _ = [])) by done.
    destruct (decide (kept = [])) as [->|]; cbn [length]; lia.
Qed.

Lemma add_records_nil q o : add_records q [] o = o.
Proof.
  unfold add_records. rewrite decide_True by done. cbn [encode_log length].
  change (blen []) with 0. rewrite !N.add_0_r. by destruct o.
Qed.

(** The remains of an append of the record with sequence [q] that was cut
    short. *)
Definition torn_record (q : N) (torn : bytes) : Prop :=
  torn = [] \/
  exists t p k, blen p <= kMaxJournalRecordPayload /\ (0 < k < 28 + length p)%nat /\
    torn = take k (build_journal_record (record_type_value t) q p).

Lemma read_record_torn_tail b q torn :
  u64 q -> torn_record q torn ->
  read_record b q torn = if decide (torn = []) then EndOfJournal else Torn.
Proof.
  intros Hq [->|(t & p & k & Hp & Hk & ->)]; [done|].
  rewrite read_record_torn by done. rewrite decide_False; [done|].
  intros E%(f_equal length). rewrite length_take, length_build in E. simpl in E. lia.
Qed.

Section ScanLog.
Context {S : Type} (b : bool) (visitor : JournalRecordView -> M ErrorCode S unit).

(** The scan of a log with a torn tail visits the whole records, in order, and
    reports the torn tail. *)
Lemma scan_loop_log fuel log q torn o s s' :
  log_wf q log -> torn_record (q + N.of_nat (length log)) torn ->
  (length (encode_log q log) < fuel)%nat ->
  visit_all visitor (log_views q log) s = (s', Ok tt) ->
  scan_loop b visitor fuel q (encode_log q log ++ torn) o s =
  (s', if decide (torn = []) then add_records q log o
       else (add_records q log o) <| so_stop := TornTail |>).
Proof.
  revert q o s fuel.
  induction log as [|[t p] log IH]; intros q o s fuel [Hp Hq] Ht Hf Hv;
    (destruct fuel as [|fuel]; [simpl in Hf; lia|]).
  - cbn [encode_log log_views visit_all app] in *. injection Hv as ->.
    rewrite N.add_0_r in Ht. cbn [length] in Hq. cbn [scan_loop].
    rewrite (read_record_torn_tail b) by (done || (unfold u64; lia)).
    rewrite add_records_nil. by destruct (decide (torn = [])).
  - inversion Hp as [|? ? Hp1 Hp2]; subst. cbn [length] in Hq, Ht.
    cbn [log_views visit_all encode_log scan_loop] in *. rewrite <- app_assoc.
    rewrite length_app, length_build in Hf.
    rewrite read_record_whole by (done || (unfold u64; lia)).
    destruct (visitor _ s) as [s1 [[]|e]] eqn:Hvis; [|discriminate].
    cbn [jv_sequence jv_payload].
    rewrite (IH (q + 1) _ s1 fuel); [|split; [done|lia] | | lia | done].
    + by rewrite !(add_records_cons q t p _ o).
    + by replace (q + 1 + N.of_nat (length log)) with (q + N.of_nat (Datatypes.S (length log)))
        by lia.
Qed.

Lemma scan_bytes_log log torn s s' :
  log_wf 1 log -> torn_record (1 + N.of_nat (length log)) torn ->
  visit_all visitor (log_views 1 log) s = (s', Ok tt) ->
  scan_bytes b visitor (encode_log 1 log ++ torn) s =
  (s', mkScanOutcome (Ok tt) (if decide (torn = []) then Complete else TornTail)
         (N.of_nat (length log)) (blen (encode_log 1 log)) (N.of_nat (length log)) 0).
Proof.
  intros Hw Ht Hv. unfold scan_bytes. rewrite (scan_loop_log _ _ _ _ _ _ s') by
    (done || (rewrite length_app; lia)).
  assert (add_records 1 log initial_scan =
    mkScanOutcome (Ok tt) Complete (N.of_nat (length log)) (blen (encode_log 1 log))
      (N.of_nat (length log)) 0) as ->.
  { unfold add_records, initial_scan. cbn [so_status so_stop so_records so_valid_bytes
      so_last_sequence so_skipped]. f_equal; try lia.
    destruct (decide (log = [])) as [->|]; [done | lia]. }
  by destruct (decide (torn = [])).
Qed.

(** A record the visitor refuses ends the scan with the visitor's error. *)
Lemma scan_loop_corrupt fuel log q rest o s s' e :
  log_wf q log -> read_record b (q + N.of_nat (length log)) rest = Corrupt e ->
  (length (encode_log q log) < fuel)%nat ->
  visit_all visitor (log_views q log) s = (s', Ok tt) ->
  so_status (scan_loop b visitor fuel q (encode_log q log ++ rest) o s).2 = Err e.
Proof.
  revert q o s fuel.
  induction log as [|[t p] log IH]; intros q o s fuel [Hp Hq] Hr Hf Hv;
    (destruct fuel as [|fuel]; [simpl in Hf; lia|]).
  - cbn [encode_log app length scan_loop] in *. rewrite N.add_0_r in Hr. by rewrite Hr.
  - inversion Hp as [|? ? Hp1 Hp2]; subst. cbn [length] in Hq, Hr.
    cbn [log_views visit_all encode_log scan_loop] in *. rewrite <- app_assoc.
    rewrite length_app, length_build in Hf.
    rewrite read_record_whole by (done || (unfold u64; lia)).
    destruct (visitor _ s) as [s1 [[]|e1]] eqn:Hvis; [|discriminate]. cbn [jv_sequence].
    apply IH; [split; [done|lia] | | lia | done].
    by replace (q + 1 + N.of_nat (length log)) with (q + N.of_nat (Datatypes.S (length log))) by lia.
Qed.

Lemma scan_loop_refused fuel log q torn o s s' e :
  log_wf q log -> (length (encode_log q log) < fuel)%nat ->
  visit_all visitor (log_views q log) s = (s', Err e) ->
  exists o', scan_loop b visitor fuel q (encode_log q log ++ torn) o s = (s', o') /\
    so_status o' = Err e.
Proof.
  revert q o s fuel. induction log as [|[t p] log IH]; intros q o s fuel [Hp Hq] Hf Hv; [done|].
  destruct fuel as [|fuel]; [lia|]. inversion Hp as [|? ? Hp1 Hp2]; subst. cbn [length] in Hq.
  cbn [log_views visit_all encode_log] in *. rewrite scan_loop_S, <- app_assoc.
  rewrite length_app, length_build in Hf.
  rewrite read_record_whole by (done || (unfold u64; lia)).
  destruct (visitor _ s) as [s1 [[]|e1]] eqn:Hvis; [|injection Hv as -> ->; by eexists].
  apply IH; [by split; [|lia] | lia | done].
Qed.
End ScanLog.

(** Cutting a log at any byte leaves whole records and at most one torn one. *)
Lemma cut_log k log q :
  Forall (fun '(_, p) => blen p <= kMaxJournalRecordPayload) log ->
  exists torn, take k (encode_log q log) = encode_log q (surviving k log) ++ torn /\
    torn_record (q + N.of_nat (length (surviving k log))) torn.
Proof.
  revert q k. induction log as [|[t p] log IH]; intros q k Hp.
  { exists []. cbn. rewrite take_nil. split; [done | by left]. }
  inversion Hp as [|? ? Hp1 Hp2]; subst. cbn [encode_log surviving].
  destruct (Nat.leb_spec (28 + length p) k) as [Hk|Hk].
  - destruct (IH (q + 1) (k - (28 + length p))%nat Hp2) as (torn & E & Ht).
    exists torn. rewrite take_app_ge, length_build by (rewrite length_build; lia).
    rewrite E. cbn [encode_log length]. rewrite <- app_assoc. split; [done|].
    by replace (q + N.of_nat (Datatypes.S _)) with
      (q + 1 + N.of_nat (length (surviving (k - (28 + length p)) log))) by lia.
  - rewrite take_app_le by (rewrite length_build; lia). eexists. split; [reflexivity|].
    cbn [length]. rewrite N.add_0_r. destruct k as [|k]; [by left|].
    right. exists t, p, (Datatypes.S k). split_and!; [done | lia | lia | done].
Qed.

Lemma surviving_prefix k log : surviving k log `prefix_of` log.
Proof.
  revert k. induction log as [|[t p] log IH]; intros k; [done|]. cbn [surviving].
  destruct (_ <=? k)%nat; [by apply prefix_cons | apply prefix_nil].
Qed.

Lemma encode_log_length q log : (28 * length log <= length (encode_log q log))%nat.
Proof.
  revert q. induction log as [|[t p] log IH]; intros q; [simpl; lia|].
  cbn [encode_log length]. rewrite length_app, length_build. specialize (IH (q + 1)). lia.
Qed.

Lemma log_wf_surviving q k log : log_wf q log -> log_wf q (surviving k log).
Proof.
  intros [Hp Hq]. destruct (surviving_prefix k log) as [l E].
  rewrite E in Hp, Hq. apply Forall_app in Hp as [Hp _]. rewrite length_app in Hq.
  split; [done | lia].
Qed.

Lemma surviving_all q log k :
  (length (encode_log q log) <= k)%nat -> surviving k log = log.
Proof.
  revert q k. induction log as [|[t p] log IH]; intros q k Hk; [done|].
  cbn [encode_log surviving] in *. rewrite length_app, length_build in Hk.
  rewrite (proj2 (Nat.leb_le _ _)) by lia. f_equal. apply (IH (q + 1)). lia.
Qed.

Lemma encode_log_app q l1 l2 :
  encode_log q (l1 ++ l2) = encode_log q l1 ++ encode_log (q + N.of_nat (length l1)) l2.
Proof.
  revert q. induction l1 as [|[t p] l1 IH]; intros q.
  - cbn. by rewrite N.add_0_r.
  - cbn [app encode_log length]. rewrite IH, app_assoc. do 2 f_equal. lia.
Qed.

(** ** The store implements an append-only log *)

(** [ds] holds exactly the records [log], followed by the remains [torn] of an
    interrupted append that the next append will discard. *)
Record store_rep (ds : DurableStore) (log : Log) (torn : bytes) : Prop := {
  rep_wf : log_wf 1 log;
  rep_torn : torn_record (1 + N.of_nat (length log)) torn;
  rep_journal : ds_journal ds = encode_log 1 log ++ torn;
  rep_last : ds_last_sequence ds = N.of_nat (length log);
  rep_valid : ds_valid_bytes ds = blen (encode_log 1 log);
  rep_pending : ds_torn_tail_pending ds = bool_decide (torn <> []) }.

(** What a failed append leaves: every record of the log is still there, and
    the store still believes in exactly those. *)
Record store_keeps (ds : DurableStore) (log : Log) : Prop := {
  keeps_journal : encode_log 1 log `prefix_of` ds_journal ds;
  keeps_last : ds_last_sequence ds = N.of_nat (length log);
  keeps_valid : ds_valid_bytes ds = blen (encode_log 1 log) }.

Lemma rep_keeps ds log torn : store_rep ds log torn -> store_keeps ds log.
Proof. intros []. split; [rewrite rep_journal0; by eexists | done | done]. Qed.

Lemma wp_io_call (Q : unit -> DurableStore -> Prop) X ds :
  (forall io, Q tt (ds <| ds_io := io |>)) ->
  (forall io, X IoFailure (ds <| ds_io := io |>)) -> wp io_call Q X ds.
Proof.
  intros HQ HX. unfold io_call. rewrite wp_bind. unfold io_event, wp at 1.
  destruct (ds_io ds) as [|[|n] io] eqn:E.
  - specialize (HQ []). rewrite <- E in HQ. by destruct ds.
  - apply (HQ io).
  - apply (HX io).
Qed.

(** Without scripted failures every call succeeds. *)
Lemma wp_io_call_ok (Q : unit -> DurableStore -> Prop) X ds :
  ds_io ds = [] -> Q tt ds -> wp io_call Q X ds.
Proof. intros E HQ. unfold wp, io_call, bind, io_event. by rewrite E. Qed.

Lemma wp_truncate_file size (Q : unit -> DurableStore -> Prop) X ds :
  (forall io, Q tt (ds <| ds_io := io |> <| ds_journal ::= truncate_bytes size |>)) ->
  (forall io, X IoFailure (ds <| ds_io := io |>)) -> wp (truncate_file size) Q X ds.
Proof.
  intros HQ HX. unfold truncate_file. rewrite wp_bind. apply wp_io_call; [|done].
  intros io. rewrite wp_bind. apply wp_io_call.
  - intros io'. apply (HQ io').
  - intros io'. apply (HX io').
Qed.

Lemma wp_flush (Q : unit -> DurableStore -> Prop) X ds :
  (forall io, Q tt (ds <| ds_io := io |>)) ->
  (forall io, X IoFailure (ds <| ds_io := io |>)) -> wp flush_to_stable_storage Q X ds.
Proof.
  intros HQ HX. unfold flush_to_stable_storage. rewrite wp_bind. apply wp_io_call; [|done].
  intros io. apply wp_io_call.
  - intros io'. apply (HQ io').
  - intros io'. apply (HX io').
Qed.

Lemma truncate_bytes_app a b : truncate_bytes (blen a) (a ++ b) = a.
Proof.
  unfold truncate_bytes. rewrite blen_app. unfold blen. rewrite Nat2N.id, take_app_length.
  replace (N.to_nat _) with O by lia. by rewrite app_nil_r.
Qed.

Lemma wp_io_write data held (Q : unit -> DurableStore -> Prop) X ds :
  ds_journal ds = held ->
  (forall io, Q tt (ds <| ds_io := io |> <| ds_journal := held ++ data |>)) ->
  (forall io part, X IoFailure (ds <| ds_io := io |> <| ds_journal := held ++ part |>)) ->
  wp (io_write data (fun data ds => ds <| ds_journal ::= fun j => j ++ data |>)) Q X ds.
Proof.
  intros Hj HQ HX. unfold io_write. rewrite wp_bind. unfold io_event, wp at 1.
  destruct (ds_io ds) as [|[|n] io] eqn:E; cbv beta iota.
  - rewrite wp_modify. specialize (HQ []). rewrite <- Hj, <- E in HQ. by destruct ds.
  - rewrite wp_modify. specialize (HQ io). rewrite <- Hj in HQ. exact HQ.
  - rewrite wp_bind, wp_modify, wp_throw.
    specialize (HX io (take (N.to_nat (N.min n (blen data - 1))) data)).
    rewrite <- Hj in HX. exact HX.
Qed.

(** The part of [append] before the record is written. *)
Lemma wp_discard_torn log torn (Q : unit -> DurableStore -> Prop) X ds :
  store_rep ds log torn ->
  (forall ds', store_rep ds' log [] -> ds_flush_to_storage ds' = ds_flush_to_storage ds ->
     Q tt ds') ->
  (forall ds' e, store_keeps ds' log -> X e ds') ->
  wp (if ds_torn_tail_pending ds then
        truncate_file (ds_valid_bytes ds) ;;; flush_to_stable_storage ;;;
        modify (fun ds => ds <| ds_torn_tail_pending := false |>)
      else ret tt) Q X ds.
Proof.
  intros Hr HQ HX. pose proof (rep_keeps _ _ _ Hr) as [Hk1 Hk2 Hk3].
  destruct Hr as [Hw Ht Hj Hl Hv Hp].
  destruct (ds_torn_tail_pending ds) eqn:Ep.
  - rewrite wp_bind. apply wp_truncate_file; [intros io | intros io; by apply HX].
    rewrite wp_bind. apply wp_flush; intros io'.
    + rewrite wp_modify. apply HQ; [|done]. split; upd_simpl; try done; [by left|].
      by rewrite Hj, Hv, truncate_bytes_app, app_nil_r.
    + apply HX. split; upd_simpl; try done. by rewrite Hj, Hv, truncate_bytes_app.
  - rewrite wp_ret. apply HQ; [|done].
    symmetry in Hp. apply bool_decide_eq_false in Hp. apply dec_stable in Hp. by subst torn.
Qed.

Lemma log_wf_room t p log :
  log_wf 1 log -> blen p <= kMaxJournalRecordPayload ->
  blen (encode_log 1 log) + journal_record_bytes (blen p) <= kMaxJournalBytes ->
  log_wf 1 (log ++ [(t, p)]).
Proof.
  intros Hw Hp Hb. split; [apply Forall_app; split; [apply Hw | by constructor]|].
  pose proof (encode_log_length 1 (log ++ [(t, p)])) as Hlen. rewrite encode_log_app in Hlen.
  cbn [encode_log] in Hlen. rewrite !length_app, length_build in Hlen.
  unfold blen, kMaxJournalBytes, journal_record_bytes, kJournalHeaderBytes,
    kJournalTrailerBytes, u64_max in *.
  rewrite length_app. cbn [length] in *. lia.
Qed.

Lemma append_wp t p ds log torn :
  store_rep ds log torn ->
  wp (append t p)
    (fun _ ds' => store_rep ds' (log ++ [(t, p)]) [] /\ t <> JUnknown /\
                  blen p <= kMaxJournalRecordPayload)
    (fun _ ds' => store_keeps ds' log) ds.
Proof.
  intros Hr. pose proof (rep_keeps _ _ _ Hr) as Hk. unfold append.
  rewrite wp_bind, wp_get, wp_bind, wp_guard. case_bool_decide as Hu; [done|].
  rewrite wp_bind, wp_guard. destruct (N.ltb_spec kMaxJournalRecordPayload (blen p)); [done|].
  rewrite wp_bind, wp_guard. destruct (ds_last_sequence ds =? u64_max); [done|].
  cbv zeta. rewrite wp_bind, wp_guard. destruct (_ || _) eqn:Hbound; [done|].
  rewrite wp_bind. eapply wp_discard_torn; [done| |done].
  intros ds1 [Hw Ht Hj Hl Hv Hp] Hf. rewrite app_nil_r in Hj.
  assert (ds_last_sequence ds = N.of_nat (length log)) as Hl0 by apply Hr.
  rewrite wp_bind. apply wp_io_call; intros io.
  2:{ split; upd_simpl; [by rewrite Hj | done | done]. }
  rewrite wp_bind. eapply wp_io_write; [exact Hj| |]; intros io2.
  2:{ intros part. split; upd_simpl; [by eexists | done | done]. }
  assert (encode_log 1 log ++ build_journal_record (record_type_value t)
            (ds_last_sequence ds + 1) p = encode_log 1 (log ++ [(t, p)])) as Happ.
  { rewrite encode_log_app, Hl0. cbn [encode_log]. by rewrite app_nil_r, (N.add_comm (N.of_nat _)). }
  rewrite Happ.
  assert (log_wf 1 (log ++ [(t, p)])) as Hw'.
  { rewrite (rep_valid _ _ _ Hr) in Hbound.
    apply orb_false_iff in Hbound as [H1%N.ltb_ge H2%N.ltb_ge].
    apply log_wf_room; [done | done | lia]. }
  assert (forall io3, store_rep
    (ds1 <| ds_io := io3 |> <| ds_journal := encode_log 1 (log ++ [(t, p)]) |>
         <| ds_last_sequence := ds_last_sequence ds + 1 |>
         <| ds_valid_bytes ::= fun v => v + journal_record_bytes (blen p) |>)
    (log ++ [(t, p)]) []) as Hdone.
  { intros io3. split; upd_simpl.
    - done.
    - by left.
    - by rewrite app_nil_r.
    - rewrite Hl0, length_app. cbn [length]. lia.
    - rewrite Hv, <- Happ, blen_app, blen_build. done.
    - done. }
  assert (forall io3, store_keeps
    (ds1 <| ds_io := io3 |> <| ds_journal := encode_log 1 (log ++ [(t, p)]) |>) log) as Hfail.
  { intros io3. split; upd_simpl; [|done|done]. rewrite <- Happ. by eexists. }
  rewrite wp_bind. destruct (ds_flush_to_storage ds).
  - apply wp_flush; intros io3;
      [rewrite wp_modify; split; [apply (Hdone io3) | done] | apply (Hfail io3)].
  - apply wp_io_call; intros io3;
      [rewrite wp_modify; split; [apply (Hdone io3) | done] | apply (Hfail io3)].
Qed.

(** Without file failures an append succeeds unless a bound refuses it, and a
    refused append touches nothing. *)
Lemma append_quiet t p ds :
  ds_io ds = [] ->
  let X ds' := ds' = ds /\
      (t = JUnknown \/ kMaxJournalRecordPayload < blen p \/ ds_last_sequence ds = u64_max \/
       kMaxJournalBytes < ds_valid_bytes ds + journal_record_bytes (blen p)) in
  match append t p ds with
  | (ds', Ok _) => ds_io ds' = []
  | (ds', Err _) => X ds'
  end.
Proof.
  intros Hio X.
  assert (wp (append t p) (fun _ ds' => ds_io ds' = []) (fun _ => X) ds) as H.
  2:{ unfold wp in H. by destruct (append t p ds) as [ds' [[]|e]]. }
  unfold append, truncate_file, flush_to_stable_storage. cbv beta. rewrite wp_bind, wp_get.
  rewrite wp_bind, wp_guard. case_bool_decide as Ht; [by split; [|left]|].
  rewrite wp_bind, wp_guard. destruct (N.ltb_spec kMaxJournalRecordPayload (blen p));
    [by split; [|right; left]|].
  rewrite wp_bind, wp_guard. destruct (N.eqb_spec (ds_last_sequence ds) u64_max);
    [by split; [|right; right; left]|].
  cbv zeta. rewrite wp_bind, wp_guard. destruct (_ || _) eqn:Hb.
  { split; [done|]. right; right; right. apply orb_true_iff in Hb as [Hb%N.ltb_lt|Hb%N.ltb_lt]; lia. }
  rewrite wp_bind.
  assert (forall ds1, ds_io ds1 = [] ->
    wp (bind io_call (fun _ => bind (io_write (build_journal_record (record_type_value t)
          (ds_last_sequence ds + 1) p) (fun data ds => ds <| ds_journal ::= fun j => j ++ data |>))
        (fun _ => bind (if ds_flush_to_storage ds then bind io_call (fun _ => io_call) else io_call)
        (fun _ => modify (fun ds0 => ds0 <| ds_last_sequence := ds_last_sequence ds + 1 |>
                     <| ds_valid_bytes ::= fun v => v + journal_record_bytes (blen p) |>)))))
      (fun _ ds' => ds_io ds' = []) (fun _ => X) ds1) as Htail.
  { intros ds1 H1. rewrite wp_bind. apply wp_io_call_ok; [done|]. rewrite wp_bind.
    unfold io_write. rewrite wp_bind. unfold io_event, wp at 1. rewrite H1.
    rewrite wp_modify, wp_bind. destruct (ds_flush_to_storage ds).
    - rewrite wp_bind. by repeat (apply wp_io_call_ok; [done|]).
    - by apply wp_io_call_ok. }
  destruct (ds_torn_tail_pending ds).
  - rewrite wp_bind. do 2 (rewrite wp_bind; apply wp_io_call_ok; [done|]).
    rewrite wp_modify, wp_bind, wp_bind. do 2 (apply wp_io_call_ok; [done|]).
    rewrite wp_modify. by apply Htail.
  - rewrite wp_ret. by apply Htail.
Qed.

Lemma append_ok t p ds :
  t <> JUnknown -> blen p <= kMaxJournalRecordPayload -> ds_last_sequence ds <> u64_max ->
  ds_valid_bytes ds + journal_record_bytes (blen p) <= kMaxJournalBytes -> ds_io ds = [] ->
  exists ds', append t p ds = (ds', Ok tt).
Proof.
  intros Ht Hp Hs Hb Hio. pose proof (append_quiet t p ds Hio) as H.
  destruct (append t p ds) as [ds' [[]|e]]; [by exists ds'|].
  destruct H as [_ [H|[H|[H|H]]]]; [done | lia | done | lia].
Qed.

(** *** The files a store holds *)

Definition files_of (ds : DurableStore) : bytes * option bytes * option bytes :=
  (ds_journal ds, ds_snapshot ds, ds_snapshot_temp ds).

Lemma io_call_files ds : files_of (exec io_call ds) = files_of ds.
Proof.
  unfold exec, io_call, bind, io_event. by destruct (ds_io ds) as [|[] io].
Qed.

Lemma wp_io_call_files (Q : unit -> DurableStore -> Prop) X ds :
  (forall ds', files_of ds' = files_of ds -> Q tt ds') ->
  (forall e ds', files_of ds' = files_of ds -> X e ds') -> wp io_call Q X ds.
Proof. intros HQ HX. apply wp_io_call; intros io; [by apply HQ | by apply HX]. Qed.

Lemma open_file_files ds : files_of (exec open_file ds) = files_of ds.
Proof.
  change ((fun ds' => files_of ds' = files_of ds) (exec open_file ds)). apply wp_exec.
  unfold open_file. rewrite wp_bind. apply wp_io_call_files; [|done]. intros ds1 H1.
  apply wp_io_call_files; intros; by etrans.
Qed.

Lemma open_scan_files ds : files_of (exec open_scan ds) = files_of ds.
Proof.
  change ((fun ds' => files_of ds' = files_of ds) (exec open_scan ds)). apply wp_exec.
  unfold open_scan. rewrite wp_bind. apply wp_io_call_files; [|done]. intros ds1 H1.
  rewrite wp_bind, wp_get. destruct (scan_bytes _ _ _ _) as [u scanned].
  rewrite wp_bind, wp_lift. destruct (so_status scanned); [|done].
  cbv zeta. rewrite wp_bind, wp_modify. apply wp_io_call_files; intros; by etrans.
Qed.

Lemma opened_files journal snapshot flush io ds :
  open journal snapshot flush io = Ok ds -> files_of ds = (journal, snapshot, None).
Proof.
  unfold open, bind. pose proof (open_file_files (closed_store journal snapshot flush io)) as H1.
  unfold exec in H1. destruct (open_file _) as [ds1 [[]|e]]; [|done].
  pose proof (open_scan_files ds1) as H2. unfold exec in H2.
  destruct (open_scan ds1) as [ds2 [[]|e]]; [|done]. intros [= <-]. by etrans.
Qed.

Lemma open_io j s flush ds : open j s flush [] = Ok ds -> ds_io ds = [].
Proof.
  unfold open. intros H.
  match type of H with context [match ?b ?d with _ => _ end] =>
    assert (wp b (fun _ ds => ds_io ds = []) (fun _ _ => True) d) as Hw end.
  { unfold open_file, open_scan. rewrite !wp_bind. do 2 (apply wp_io_call_ok; [done|]).
    rewrite wp_bind. apply wp_io_call_ok; [done|]. rewrite wp_bind, wp_get.
    destruct (scan_bytes _ _ _ _) as [u sc]. rewrite wp_bind, wp_lift.
    destruct (so_status sc); [|done]. cbv zeta. rewrite wp_bind, wp_modify.
    by apply wp_io_call_ok. }
  unfold wp in Hw. destruct (bind open_file _ _) as [ds' [[]|e]]; simplify_eq. exact Hw.
Qed.

Lemma visit_all_unit (views : list JournalRecordView) :
  visit_all (fun _ => ret tt) views tt = (tt, Ok tt).
Proof. induction views as [|v views IH]; [done|]. exact IH. Qed.

Lemma torn_flag (torn : bytes) :
  bool_decide ((if decide (torn = []) then Complete else TornTail) = TornTail) =
  bool_decide (torn <> []).
Proof.
  destruct (decide (torn = [])) as [->|]; [done|]. by rewrite !bool_decide_eq_true_2.
Qed.

(** Opening whatever prefix of a journal a crash left. *)
Lemma open_prefix (log : Log) (k : nat) (snapshot : option bytes) (flush : bool)
  (io : list IoEvent) (Hwf : log_wf 1 log) :
  match open (take k (encode_log 1 log)) snapshot flush io with
  | Ok ds => exists torn, store_rep ds (surviving k log) torn /\
      ds_open_tail_truncated ds = bool_decide (torn <> []) /\
      ds_snapshot ds = snapshot /\ ds_flush_to_storage ds = flush
  | Err e => e = IoFailure /\ io <> []
  end.
Proof.
  destruct (cut_log k log 1 (proj1 Hwf)) as (torn & Hcut & Ht).
  pose proof (log_wf_surviving _ k _ Hwf) as Hw'. unfold open, closed_store. rewrite Hcut.
  set (body := bind open_file _). set (ds0 := mkDurableStore _ _ _ _ _ _ _ _ _).
  assert (wp body (fun _ ds => exists torn, store_rep ds (surviving k log) torn /\
      ds_open_tail_truncated ds = bool_decide (torn <> []) /\
      ds_snapshot ds = snapshot /\ ds_flush_to_storage ds = flush)
    (fun e _ => e = IoFailure) ds0) as Hwp.
  { subst body ds0. unfold open_file, open_scan. rewrite !wp_bind.
    do 2 (apply wp_io_call; intros ?; [|done]). rewrite wp_bind. apply wp_io_call; intros ?; [|done].
    rewrite wp_bind, wp_get. upd_simpl. cbn [ds_journal].
    rewrite (scan_bytes_log _ _ _ _ tt tt) by (done || apply visit_all_unit).
    cbv beta iota. rewrite wp_bind, wp_lift. cbn [so_status].
    rewrite wp_bind, wp_modify. apply wp_io_call; intros ?; [|done].
    exists torn. cbn [so_stop so_valid_bytes so_last_sequence]. split_and!; try done.
    - split; upd_simpl; try done. apply torn_flag.
    - upd_simpl. apply torn_flag. }
  unfold wp in Hwp. destruct (body ds0) as [ds [[]|e]] eqn:E; [exact Hwp|].
  split; [done|]. intros ->.
  assert (wp body (fun _ _ => True) (fun _ _ => False) ds0) as Hok.
  { subst body ds0. unfold open_file, open_scan. rewrite !wp_bind.
    do 2 (apply wp_io_call_ok; [done|]). rewrite wp_bind. apply wp_io_call_ok; [done|].
    rewrite wp_bind, wp_get. cbn [ds_journal].
    rewrite (scan_bytes_log _ _ _ _ tt tt) by (done || apply visit_all_unit).
    cbv beta iota. rewrite wp_bind, wp_lift. cbn [so_status]. rewrite wp_bind, wp_modify.
    by apply wp_io_call_ok. }
  unfold wp in Hok. by rewrite E in Hok.
Qed.

(** ** Properties *)

(** C23 Whatever prefix of the journal a crash leaves on disk, reopening the store
    recovers exactly the records that were written completely, in order, and
    flags the remains of the interrupted one; only a failing file operation
    makes it fail. *)
Theorem open_after_crash (log : Log) (k : nat) (snapshot : option bytes) (flush : bool)
  (io : list IoEvent) (Hwf : log_wf 1 log) :
  match open (take k (encode_log 1 log)) snapshot flush io with
  | Ok ds => exists torn, store_rep ds (surviving k log) torn /\
      ds_open_tail_truncated ds = bool_decide (torn <> []) /\
      ds_snapshot ds = snapshot /\ ds_flush_to_storage ds = flush
  | Err e => e = IoFailure /\ io <> []
  end.
Proof. by apply open_prefix. Qed.

(** A log with a four-byte record and the first ten bytes of the next one. *)
Definition example_log : Log :=
  [(JFlowRetired, encode_u32_le 7); (JCheckpoint, encode_u32_le 9)].

Lemma open_after_crash_witness :
  log_wf 1 example_log /\
  match open (take 42 (encode_log 1 example_log)) None true [] with
  | Ok ds => ds_last_sequence ds = 1 /\ ds_open_tail_truncated ds = true
  | Err e => False
  end.
Proof.
  assert (log_wf 1 example_log) as Hw.
  { split; [|unfold u64_max; cbn; lia]. repeat constructor; vm_compute; discriminate. }
  split; [exact Hw|].
  pose proof (open_after_crash example_log 42 None true [] Hw) as H.
  destruct (open _ _ _ _) as [ds|e] eqn:E.
  - destruct H as (torn & [_ _ Hj Hl _ Hp] & Ho & _). split; [exact Hl|].
    vm_compute in E. injection E as <-. reflexivity.
  - destruct H as [_ H]. by apply H.
Defined.

(** A successful append adds exactly its record to the durable log, after
    discarding the remains of an interrupted one; a failed append, for whatever
    reason and at whatever point, loses no record and leaves the sequence and
    the valid length where they were. *)
Theorem append_extends_log (t : JournalRecordType) (p : bytes) (ds : DurableStore) (log : Log)
  (torn : bytes) (Hrep : store_rep ds log torn) :
  match append t p ds with
  | (ds', Ok _) => store_rep ds' (log ++ [(t, p)]) [] /\ t <> JUnknown /\
      blen p <= kMaxJournalRecordPayload
  | (ds', Err _) => store_keeps ds' log
  end.
Proof.
  pose proof (append_wp t p ds log torn Hrep) as H. unfold wp in H.
  by destruct (append t p ds) as [ds' [[]|e]].
Qed.

(** A replay that meets no file failure hands the visitor exactly the records
    of the log, and leaves a store without a torn tail. *)
Lemma replay_visits_log {S} (visitor : JournalRecordView -> M ErrorCode S unit)
  ds log torn (s s' : S) :
  store_rep ds log torn -> ds_io ds = [] ->
  visit_all visitor (log_views 1 log) s = (s', Ok tt) ->
  exists ds', replay true visitor ds s =
    ((ds', s'), Ok (mkJournalScanReport (N.of_nat (length log)) (blen (encode_log 1 log))
                      (N.of_nat (length log)) 0 (bool_decide (torn <> []))
                      (blen (encode_log 1 log)))) /\
    store_rep ds' log [] /\ ds_io ds' = [].
Proof.
  intros [Hw Ht Hj Hl Hv Hp] Hio Hvis. unfold replay.
  unfold io_call at 1. unfold bind at 1, io_event at 1. rewrite Hio. cbn [ret].
  rewrite Hj, (scan_bytes_log _ _ _ _ s s') by done. cbn [so_status so_stop so_records
    so_valid_bytes so_last_sequence so_skipped]. rewrite torn_flag, andb_true_r.
  case_bool_decide as Htorn.
  - set (m := bind _ _). assert (wp m (fun _ ds' => store_rep ds' log [] /\ ds_io ds' = [])
      (fun _ _ => False) ds) as H.
    { subst m. rewrite !wp_bind. unfold truncate_file, flush_to_stable_storage.
      do 2 (rewrite wp_bind; apply wp_io_call_ok; [done|]). rewrite wp_modify, wp_bind, wp_bind.
      do 2 (apply wp_io_call_ok; [done|]). rewrite wp_modify. apply wp_io_call_ok; [done|].
      split; [|done]. split; upd_simpl; try done; [by left|].
      by rewrite Hj, truncate_bytes_app, app_nil_r. }
    unfold wp in H. destruct (m ds) as [ds' [[]|e]]; [|done]. by exists ds'.
  - subst torn. unfold bind, io_call, bind, io_event, ret.
    rewrite Hio. exists ds. split; [done|]. by split; [split|].
Qed.

Lemma replay_refused {S} (visitor : JournalRecordView -> M ErrorCode S unit)
  ds log torn (s s' : S) e :
  store_rep ds log torn -> ds_io ds = [] ->
  visit_all visitor (log_views 1 log) s = (s', Err e) ->
  exists ds', replay true visitor ds s = ((ds', s'), Err e).
Proof.
  intros [Hw Ht Hj Hl Hv Hp] Hio Hvis. unfold replay.
  unfold io_call at 1. unfold bind at 1, io_event at 1. rewrite Hio. cbn [ret].
  rewrite Hj. unfold scan_bytes.
  destruct (scan_loop_refused true visitor (Datatypes.S (length (encode_log 1 log ++ torn)))
    log 1 torn initial_scan s s' e Hw) as (o & -> & Ho); [rewrite length_app; lia | done |].
  rewrite Ho. by eexists.
Qed.

(** ** Snapshots *)

Lemma parse_build_snapshot p :
  blen p <= kMaxSnapshotPayload -> parse_snapshot (build_snapshot_blob p) = Ok p.
Proof.
  intros Hp. assert (blen p < u32_mod) as Hn
    by (unfold kMaxSnapshotPayload, u32_mod in *; lia).
  unfold parse_snapshot, build_snapshot_blob. cbv zeta.
  set (h := encode_u32_le kSnapshotMagic ++ _).
  assert (length h = 16%nat) as Hh by reflexivity.
  rewrite (take_app_length' h) by done. rewrite (drop_app_length' h _ 16) by done.
  rewrite (decode_u32_app (crc32c h)) by apply crc32c_bound. rewrite (N.eqb_refl (crc32c h)).
  rewrite (drop_app_add' h _ 16 4) by done.
  rewrite (drop_app_length' (encode_u32_le (crc32c h))) by reflexivity.
  rewrite !blen_app. change (blen h) with 16. change (blen (encode_u32_le (crc32c h))) with 4.
  subst h. rewrite <- !app_assoc.
  rewrite (decode_u32_app kSnapshotMagic) by done.
  rewrite (drop_app_length' (encode_u32_le kSnapshotMagic)) by reflexivity.
  rewrite decode_u16_app by done.
  rewrite (drop_app_add' (encode_u32_le _) _ 4 4) by reflexivity.
  rewrite (drop_app_add' (encode_u16_le _) _ 2 2) by reflexivity.
  rewrite (drop_app_length' (encode_u16_le _)) by reflexivity.
  rewrite decode_u32_app by done.
  rewrite (drop_app_add' (encode_u32_le _) _ 4 8) by reflexivity.
  rewrite (drop_app_add' (encode_u16_le _) _ 2 6) by reflexivity.
  rewrite (drop_app_add' (encode_u16_le _) _ 2 4) by reflexivity.
  rewrite (drop_app_length' (encode_u32_le _)) by reflexivity.
  rewrite decode_u32_app by apply crc32c_bound.
  replace (16 + (4 + blen p) - kSnapshotHeaderBytes) with (blen p)
    by (unfold kSnapshotHeaderBytes; lia).
  unfold blen. rewrite Nat2N.id, firstn_all, !N.eqb_refl. reflexivity.
Qed.

(** Writing a snapshot: the old one until the new one is complete. *)
Lemma write_snapshot_wp p ds :
  wp (write_snapshot p)
    (fun _ ds' => blen p <= kMaxSnapshotPayload /\ ds_snapshot ds' = Some (build_snapshot_blob p) /\
       ds_snapshot_temp ds' = None /\ ds_journal ds' = ds_journal ds)
    (fun _ ds' => ds_snapshot ds' = ds_snapshot ds /\ ds_journal ds' = ds_journal ds /\
       (ds_snapshot_temp ds = None -> ds_snapshot_temp ds' = None)) ds.
Proof.
  unfold write_snapshot. rewrite wp_bind, wp_guard.
  destruct (N.ltb_spec kMaxSnapshotPayload (blen p)) as [|Hp]; [done|]. cbv zeta.
  rewrite wp_bind. apply wp_io_call; intros io; [|done]. rewrite wp_bind, wp_modify.
  set (m := bind (io_write _ _) _). set (ds1 := upd _ _ _).
  assert (wp m (fun _ d => ds_snapshot d = ds_snapshot ds /\ ds_journal d = ds_journal ds /\
      ds_snapshot_temp d = Some (build_snapshot_blob p))
    (fun _ d => ds_snapshot d = ds_snapshot ds /\ ds_journal d = ds_journal ds) ds1) as Hm.
  { subst m. unfold io_write. rewrite !wp_bind. unfold io_event, wp at 1.
    destruct (ds_io ds1) as [|[|n] io1]; cbv beta iota.
    - rewrite wp_modify. by apply wp_flush.
    - rewrite wp_modify. by apply wp_flush.
    - by rewrite wp_bind, wp_modify, wp_throw. }
  unfold wp in Hm |- *. destruct (m ds1) as [ds2 [[]|e]]; [|by destruct Hm].
  destruct Hm as (Hs & Hj & Hx).
  enough (wp io_call (fun _ d => ds_snapshot_temp d = Some (build_snapshot_blob p) /\
      ds_journal d = ds_journal ds)
    (fun _ d => ds_snapshot d = ds_snapshot ds /\ ds_journal d = ds_journal ds) ds2) as Hr.
  { unfold wp in Hr. destruct (io_call ds2) as [ds3 [[]|e]].
    - destruct Hr as [Hr1 Hr2]. upd_simpl. by split_and!.
    - by destruct Hr. }
  by apply wp_io_call.
Qed.

(** C24 Writing a snapshot is atomic under every pattern of file failures: after a
    successful write the store's snapshot is a blob that reads back as the
    payload, after a failed one the previous snapshot is still in place and no
    temporary file remains; the journal is untouched either way. *)
Theorem write_snapshot_atomic (p : bytes) (ds : DurableStore) :
  match write_snapshot p ds with
  | (ds', Ok _) => (exists blob, ds_snapshot ds' = Some blob /\ parse_snapshot blob = Ok p) /\
      ds_snapshot_temp ds' = None /\ ds_journal ds' = ds_journal ds
  | (ds', Err _) => ds_snapshot ds' = ds_snapshot ds /\ ds_journal ds' = ds_journal ds /\
      (ds_snapshot_temp ds = None -> ds_snapshot_temp ds' = None)
  end.
Proof.
  pose proof (write_snapshot_wp p ds) as H. unfold wp in H.
  destruct (write_snapshot p ds) as [ds' [[]|e]]; [|done]. destruct H as (Hp & Hs & Ht & Hj).
  split_and!; [|done|done]. eexists. split; [done|]. by apply parse_build_snapshot.
Qed.

(** Compaction: the snapshot is the old one or the new one. *)
Lemma compact_snapshot p ds :
  ds_snapshot (exec (compact p) ds) = ds_snapshot ds \/
  ds_snapshot (exec (compact p) ds) = Some (build_snapshot_blob p).
Proof.
  change ((fun ds' => ds_snapshot ds' = ds_snapshot ds \/
    ds_snapshot ds' = Some (build_snapshot_blob p)) (exec (compact p) ds)). apply wp_exec.
  unfold compact, truncate_file, flush_to_stable_storage. rewrite wp_bind.
  eapply wp_conseq; [apply write_snapshot_wp| |intros e ds' (H & _); by left].
  intros [] ds1 (_ & Hs & _). cbv beta.
  rewrite wp_bind, wp_bind. apply wp_io_call; intros ?; [|by right].
  rewrite wp_bind. apply wp_io_call; intros ?; [|by right]. rewrite wp_modify, wp_bind, wp_bind.
  apply wp_io_call; intros ?; [|by right]. apply wp_io_call; intros ?; [|by right].
  rewrite wp_bind. apply wp_io_call; intros ?; [|by right]. rewrite wp_modify. by right.
Qed.

(** An append to a store without a torn tail: what it writes, and what a failure
    leaves. *)
Lemma append_bytes t p ds :
  ds_torn_tail_pending ds = false ->
  wp (append t p)
    (fun _ ds' => t <> JUnknown /\ blen p <= kMaxJournalRecordPayload /\
       ds_journal ds' = ds_journal ds ++
         build_journal_record (record_type_value t) (ds_last_sequence ds + 1) p)
    (fun _ ds' => ds_last_sequence ds' = ds_last_sequence ds /\ ds_torn_tail_pending ds' = false /\
       (ds_journal ds' = ds_journal ds \/ blen p <= kMaxJournalRecordPayload /\
          ds_valid_bytes ds + journal_record_bytes (blen p) <= kMaxJournalBytes)) ds.
Proof.
  intros Ht. unfold append. rewrite wp_bind, wp_get, wp_bind, wp_guard.
  case_bool_decide; [by split_and!; [| |left]|]. rewrite wp_bind, wp_guard.
  destruct (N.ltb_spec kMaxJournalRecordPayload (blen p)); [by split_and!; [| |left]|].
  rewrite wp_bind, wp_guard. destruct (ds_last_sequence ds =? u64_max); [by split_and!; [| |left]|].
  cbv zeta. rewrite wp_bind, wp_guard. destruct (_ || _) eqn:Hb; [by split_and!; [| |left]|].
  apply orb_false_iff in Hb as [Hb1%N.ltb_ge Hb2%N.ltb_ge].
  assert (ds_valid_bytes ds + journal_record_bytes (blen p) <= kMaxJournalBytes) as Hb by lia.
  rewrite Ht, wp_bind, wp_ret, wp_bind. apply wp_io_call; intros io; [|by split_and!; [| |left]].
  rewrite wp_bind. eapply wp_io_write; [reflexivity| |]; intros io2.
  2:{ intros part. by split_and!; [| |right]. }
  rewrite wp_bind. destruct (ds_flush_to_storage ds).
  - unfold flush_to_stable_storage. rewrite wp_bind.
    apply wp_io_call; intros io3; [|by split_and!; [| |right]].
    apply wp_io_call; intros io4; [|by split_and!; [| |right]]. by rewrite wp_modify.
  - apply wp_io_call; intros io3; [|by split_and!; [| |right]]. by rewrite wp_modify.
Qed.

Lemma open_corrupt j snapshot flush e :
  so_status (scan_bytes false (fun _ => ret tt) j tt).2 = Err e -> open j snapshot flush [] = Err e.
Proof.
  intros H. unfold open, open_file, open_scan, bind, io_call, bind, io_event, get.
  cbn [closed_store ds_io ret ds_journal].
  destruct (scan_bytes _ _ _ _) as [[] o]. cbn in H. unfold lift. by rewrite H.
Qed.

(** C39 Finding: an append whose record reached the file but whose flush failed
    is not discarded by the next one.  Whatever the journal held and whatever the
    two records are, once an append succeeds after such a failure the journal
    holds two records with the same sequence number, and every later opening of
    it is refused. *)
Theorem append_after_failed_flush_unreadable (t t' : JournalRecordType) (p p' : bytes)
  (ds ds1 ds2 : DurableStore) (log : Log) (e : ErrorCode) (snapshot : option bytes) (flush : bool)
  (Hrep : store_rep ds log [])
  (Hfailed : append t p ds = (ds1, Err e))
  (Hwritten : ds_journal ds1 = ds_journal ds ++
     build_journal_record (record_type_value t) (ds_last_sequence ds + 1) p)
  (Happended : append t' p' ds1 = (ds2, Ok tt)) :
  open (ds_journal ds2) snapshot flush [] = Err SequenceGap.
Proof.
  assert (ds_torn_tail_pending ds = false) as Htorn by apply Hrep.
  pose proof (append_bytes t p ds Htorn) as H1. unfold wp in H1. rewrite Hfailed in H1.
  destruct H1 as (Hl1 & Ht1 & H1).
  destruct H1 as [H1|[Hp Hb]].
  { exfalso. rewrite H1 in Hwritten. apply (f_equal length) in Hwritten.
    rewrite length_app, length_build in Hwritten. lia. }
  pose proof (append_bytes t' p' ds1 Ht1) as H2. unfold wp in H2. rewrite Happended in H2.
  destruct H2 as (_ & Hp' & Hj2). rewrite Hwritten, (rep_journal _ _ _ Hrep), app_nil_r in Hj2.
  rewrite Hl1, (rep_last _ _ _ Hrep) in Hj2.
  assert (encode_log 1 log ++ build_journal_record (record_type_value t)
            (N.of_nat (length log) + 1) p = encode_log 1 (log ++ [(t, p)])) as Happ.
  { rewrite encode_log_app. cbn [encode_log]. by rewrite app_nil_r, (N.add_comm (N.of_nat _)). }
  rewrite Happ in Hj2. rewrite Hj2. apply open_corrupt.
  assert (log_wf 1 (log ++ [(t, p)])) as Hwf.
  { eapply log_wf_room; [apply Hrep | exact Hp |]. by rewrite (rep_valid _ _ _ Hrep) in Hb. }
  eapply scan_loop_corrupt; [done| | |apply visit_all_unit].
  - destruct Hwf as [_ Hlen]. rewrite length_app in *. cbn [length] in *.
    rewrite build_journal_record_split, read_record_sealed.
    + by rewrite (proj2 (N.eqb_neq _ _)) by lia.
    + apply record_type_value_bound.
    + unfold u64. lia.
    + done.
  - rewrite length_app. lia.
Qed.

(** The fixture: a journal with one record, and an append of another that fails
    at its [fsync]. *)
Definition failing_store : DurableStore :=
  match open (encode_log 1 [(JFlowRetired, encode_u32_le 7)]) None true
          [IoOk; IoOk; IoOk; IoOk; IoOk; IoOk; IoOk; IoFail 0] with
  | Ok ds => ds
  | Err _ => mkDurableStore [] None None true 0 0 false false []
  end.

Lemma append_after_failed_flush_unreadable_witness :
  let ds1 := exec (append JCheckpoint []) failing_store in
  let ds2 := exec (append JFlowRetired (encode_u32_le 9)) ds1 in
  outcome (append JCheckpoint []) failing_store = Err IoFailure /\
  outcome (append JFlowRetired (encode_u32_le 9)) ds1 = Ok tt /\
  open (ds_journal ds2) None true [] = Err SequenceGap.
Proof.
  split; [vm_compute; reflexivity|]. split; [vm_compute; reflexivity|].
  refine (append_after_failed_flush_unreadable JCheckpoint JFlowRetired [] (encode_u32_le 9)
    failing_store _ _ [(JFlowRetired, encode_u32_le 7)] IoFailure None true _ _ _ _).
  - split; [|left; reflexivity|vm_compute; reflexivity|vm_compute; reflexivity|
      vm_compute; reflexivity|vm_compute; reflexivity].
    split; [repeat constructor; vm_compute; discriminate | vm_compute; discriminate].
  - vm_compute. reflexivity.
  - vm_compute. reflexivity.
  - vm_compute. reflexivity.
Defined.
