(* ===== verification/State.v ===== *)
(** * The scheduler's state and its read-only helpers

    Models the runtime records and the data members of [Scheduler::Impl] in
    src/scheduler.cpp, the lifecycle plumbing ([set_lifecycle], the three
    indexes, [defer], [record_step]) and the arbitration helpers that only
    read ([derived_readiness], [tier_of], [compute_key], ...).

    A C++ reference to an element of a map is the element's key.  Every public
    method holds one mutex for the whole call, so an execution is a sequence of
    method calls and each method is a function on [Impl].  Counters are 64-bit
    and wrap. *)

From S2P Require Import Prelude Checked Bytes Hash Model Schedule Codec Journal.

(** ** Constants *)

Definition kMaxDeferredPerRound : N := 4096.
Definition kMaxExplanationSteps : N := 32.
Definition kScheduleEntryBudgetBytes : N := 320.
Definition kVirtualTimeScale : N := 1048576.   (* 2^20 *)
Definition kTierDeadlineUrgent : N := 0.
Definition kTierStarvation : N := 1.
Definition kTierMinServiceDeficient : N := 2.
Definition kTierNormal : N := 3.

Inductive EpochReason : Set :=
| ReasonExplicit | ReasonCoordinatorRestart | ReasonPolicyChange | ReasonTopologyChange
| ReasonRecovery.

Definition epoch_reason_value (r : EpochReason) : N :=
  match r with
  | ReasonExplicit => 0 | ReasonCoordinatorRestart => 1 | ReasonPolicyChange => 2
  | ReasonTopologyChange => 3 | ReasonRecovery => 4
  end.

Definition epoch_reason_of_value (v : N) : option EpochReason :=
  match v with
  | 0 => Some ReasonExplicit | 1 => Some ReasonCoordinatorRestart
  | 2 => Some ReasonPolicyChange | 3 => Some ReasonTopologyChange | 4 => Some ReasonRecovery
  | _ => None
  end.

Inductive AmbiguityResolution : Set := Retry | Abandon.

Definition resolution_value (r : AmbiguityResolution) : N :=
  match r with Retry => 0 | Abandon => 1 end.
Definition resolution_of_value (v : N) : option AmbiguityResolution :=
  match v with 0 => Some Retry | 1 => Some Abandon | _ => None end.

Inductive ReadinessSignal : Set := SignalUnset | SignalReady | SignalNotReady.

Definition signal_value (s : ReadinessSignal) : N :=
  match s with SignalUnset => 0 | SignalReady => 1 | SignalNotReady => 2 end.
Definition signal_of_value (v : N) : option ReadinessSignal :=
  match v with
  | 0 => Some SignalUnset | 1 => Some SignalReady | 2 => Some SignalNotReady | _ => None
  end.

(** ** Runtime records *)

Record FlowRuntime := mkFlowRuntime {
  fr_descriptor : FlowDescriptor;
  fr_lifecycle : FlowLifecycle;
  fr_served_work : N;
  fr_outstanding_reserved : N;
  fr_open_attempt : DispatchAttemptId;
  fr_scheduled_schedule : ScheduleId;
  fr_scheduled_generation : Generation;
  fr_scheduled_ordinal : N;
  fr_scheduled_tick : Ticks;
  fr_last_change_tick : Ticks;
  fr_eligible_since_tick : Ticks;
  fr_ever_ready : bool;
  fr_min_service_window_start : Ticks;
  fr_min_service_delivered : N;
  fr_virtual_finish : N;
  fr_deadline_missed_counted : bool;
  fr_starvation_counted : bool;
  fr_accounting : FlowAccounting;
  fr_history : list ExplanationStep;
  fr_history_truncated : bool }.

#[export] Instance eta_FlowRuntime : Eta FlowRuntime := fun r =>
  mkFlowRuntime (fr_descriptor r) (fr_lifecycle r) (fr_served_work r)
    (fr_outstanding_reserved r) (fr_open_attempt r) (fr_scheduled_schedule r)
    (fr_scheduled_generation r) (fr_scheduled_ordinal r) (fr_scheduled_tick r)
    (fr_last_change_tick r) (fr_eligible_since_tick r) (fr_ever_ready r)
    (fr_min_service_window_start r) (fr_min_service_delivered r) (fr_virtual_finish r)
    (fr_deadline_missed_counted r) (fr_starvation_counted r) (fr_accounting r)
    (fr_history r) (fr_history_truncated r).

Record ResourceRuntime := mkResourceRuntime {
  rr_descriptor : ResourceDescriptor;
  rr_interval_index : N;
  rr_interval_initialized : bool;
  rr_reserved_this_interval : N;
  rr_in_flight : N }.

#[export] Instance eta_ResourceRuntime : Eta ResourceRuntime := fun r =>
  mkResourceRuntime (rr_descriptor r) (rr_interval_index r) (rr_interval_initialized r)
    (rr_reserved_this_interval r) (rr_in_flight r).

Record ReservationRuntime := mkReservationRuntime {
  vr_descriptor : ReservationDescriptor;
  vr_reserved_units : N;
  vr_retired : bool }.

#[export] Instance eta_ReservationRuntime : Eta ReservationRuntime := fun r =>
  mkReservationRuntime (vr_descriptor r) (vr_reserved_units r) (vr_retired r).

(** [consumed]: 0 undelivered, 1 dispatched, 2 released. *)
Record ScheduleRuntime := mkScheduleRuntime {
  sr_schedule : Schedule;
  sr_consumed : list N;
  sr_open_attempts : N;
  sr_pending_entries : N }.

#[export] Instance eta_ScheduleRuntime : Eta ScheduleRuntime := fun r =>
  mkScheduleRuntime (sr_schedule r) (sr_consumed r) (sr_open_attempts r)
    (sr_pending_entries r).

Record AttemptRuntime := mkAttemptRuntime {
  at_ticket : DispatchTicket;
  at_state : AttemptState;
  at_opened_tick : Ticks;
  at_closed_tick : Ticks;
  at_has_evidence : bool;
  at_evidence_digest : N;
  at_credited : N;
  at_close_detail : string }.

#[export] Instance eta_AttemptRuntime : Eta AttemptRuntime := fun r =>
  mkAttemptRuntime (at_ticket r) (at_state r) (at_opened_tick r) (at_closed_tick r)
    (at_has_evidence r) (at_evidence_digest r) (at_credited r) (at_close_detail r).

(** ** The ordering key *)

Record OrderKey := mkOrderKey {
  ok_tier : N;
  ok_priority_rank : N;
  ok_deadline : Ticks;
  ok_virtual_finish : N;
  ok_inverted_weight : N;
  ok_flow : FlowId;
  ok_generation : Generation }.

Definition key_fields (k : OrderKey) : list N :=
  [ok_tier k; ok_priority_rank k; ok_deadline k; ok_virtual_finish k;
   ok_inverted_weight k; ok_flow k; ok_generation k].

(** [operator<] *)
Definition key_lt (a b : OrderKey) : bool :=
  if negb (ok_tier a =? ok_tier b) then ok_tier a <? ok_tier b
  else if negb (ok_priority_rank a =? ok_priority_rank b)
       then ok_priority_rank a <? ok_priority_rank b
  else if negb (ok_deadline a =? ok_deadline b) then ok_deadline a <? ok_deadline b
  else if negb (ok_virtual_finish a =? ok_virtual_finish b)
       then ok_virtual_finish a <? ok_virtual_finish b
  else if negb (ok_inverted_weight a =? ok_inverted_weight b)
       then ok_inverted_weight a <? ok_inverted_weight b
  else if negb (ok_flow a =? ok_flow b) then ok_flow a <? ok_flow b
  else ok_generation a <? ok_generation b.

Definition digest_of_key (k : OrderKey) : N :=
  add_u64s [ok_deadline k; ok_virtual_finish k; ok_inverted_weight k; ok_flow k;
            ok_generation k]
    (add_u32 (ok_priority_rank k) (add_u32 (ok_tier k) digest_init)).

(** ** Recovery report *)

Record RecoveryReport := mkRecoveryReport {
  rp_recovered : bool;
  rp_epoch_before : FabricEpoch;
  rp_epoch_after : FabricEpoch;
  rp_flows_restored : N;
  rp_resources_restored : N;
  rp_reservations_restored : N;
  rp_priority_classes_restored : N;
  rp_qos_classes_restored : N;
  rp_attempts_abandoned : N;
  rp_flows_made_ambiguous : N;
  rp_schedules_retired : N;
  rp_journal_records_replayed : N;
  rp_journal_bytes_replayed : N;
  rp_snapshot_records : N;
  rp_tail_truncated : bool }.

#[export] Instance eta_RecoveryReport : Eta RecoveryReport := fun r =>
  mkRecoveryReport (rp_recovered r) (rp_epoch_before r) (rp_epoch_after r)
    (rp_flows_restored r) (rp_resources_restored r) (rp_reservations_restored r)
    (rp_priority_classes_restored r) (rp_qos_classes_restored r)
    (rp_attempts_abandoned r) (rp_flows_made_ambiguous r) (rp_schedules_retired r)
    (rp_journal_records_replayed r) (rp_journal_bytes_replayed r) (rp_snapshot_records r)
    (rp_tail_truncated r).

Definition default_recovery : RecoveryReport :=
  mkRecoveryReport false 0 0 0 0 0 0 0 0 0 0 0 0 0 false.

(** ** Scheduler::Impl *)

Record Impl := mkImpl {
  im_policy : SchedulingPolicy;
  im_policy_binding : PolicyBinding;
  im_epoch : FabricEpoch;
  im_flows : gmap N FlowRuntime;
  im_resources : gmap N ResourceRuntime;
  im_reservations : gmap N ReservationRuntime;
  im_priority_classes : gmap N PriorityClassDescriptor;
  im_qos_classes : gmap N QoSClassDescriptor;
  im_virtual_time : gmap N N;
  im_waiting_index : gset N;
  im_ready_index : gset N;
  im_inflight_index : gset N;
  im_attempts : gmap N AttemptRuntime;
  im_schedules : gmap N ScheduleRuntime;
  im_schedule_attempts : gmap N (list N);
  im_schedule_order : list N;
  im_next_attempt : DispatchAttemptId;
  im_next_schedule : ScheduleId;
  im_next_schedule_generation : Generation;
  im_last_tick : Ticks;
  im_provenance_sequence : N;
  im_arbitration_rounds : N;
  im_schedules_issued : N;
  im_schedule_entries_issued : N;
  im_completion_reports : N;
  im_completions_applied : N;
  im_completions_duplicate : N;
  im_completions_rejected : N;
  im_deadline_misses : N;
  im_preemptions_issued : N;
  im_preemption_window_index : N;
  im_preemptions_in_window : N;
  im_reservations_retired : N;
  im_store : option DurableStore;
  im_recovery : RecoveryReport }.

#[export] Instance eta_Impl : Eta Impl := fun r =>
  mkImpl (im_policy r) (im_policy_binding r) (im_epoch r) (im_flows r) (im_resources r)
    (im_reservations r) (im_priority_classes r) (im_qos_classes r) (im_virtual_time r)
    (im_waiting_index r) (im_ready_index r) (im_inflight_index r) (im_attempts r)
    (im_schedules r) (im_schedule_attempts r) (im_schedule_order r) (im_next_attempt r)
    (im_next_schedule r) (im_next_schedule_generation r) (im_last_tick r)
    (im_provenance_sequence r) (im_arbitration_rounds r) (im_schedules_issued r)
    (im_schedule_entries_issued r) (im_completion_reports r) (im_completions_applied r)
    (im_completions_duplicate r) (im_completions_rejected r) (im_deadline_misses r)
    (im_preemptions_issued r) (im_preemption_window_index r) (im_preemptions_in_window r)
    (im_reservations_retired r) (im_store r) (im_recovery r).

(** [Impl::Impl(options)]: nothing but the policy. *)
Definition policy_binding_of (p : SchedulingPolicy) : PolicyBinding :=
  mkPolicyBinding (po_policy p) (po_generation p) (digest_of_policy p).

Definition initial_impl (p : SchedulingPolicy) : Impl :=
  mkImpl p (policy_binding_of p) 0 ∅ ∅ ∅ ∅ ∅ ∅ ∅ ∅ ∅ ∅ ∅ ∅ [] 1 1 1
    0 0 0 0 0 0 0 0 0 0 0 0 0 0 None default_recovery.

Abbreviation Op := (M ErrorCode Impl).

(** Updates the flow a reference points to. *)
Definition upd_flow (id : FlowId) (f : FlowRuntime -> FlowRuntime) (im : Impl) : Impl :=
  im <| im_flows ::= alter f id |>.

(** [journal(type, payload)] *)
Definition journal (type : JournalRecordType) (ops : list WriteOp) : Op unit := fun im =>
  match im_store im with
  | None => (im, Ok tt)
  | Some ds =>
      let '(ds, r) := append type (payload ops) ds in
      (im <| im_store := Some ds |>, r)
  end.

(** ** Lifecycle plumbing *)

Inductive Slot : Set := SlotNone | SlotWaiting | SlotReady | SlotInFlight.

#[export] Instance Slot_eq_dec : EqDecision Slot.
Proof. solve_decision. Defined.

Definition slot (l : FlowLifecycle) : Slot :=
  match l with
  | Waiting | Ambiguous => SlotWaiting
  | Ready => SlotReady
  | Scheduled => SlotNone
  | Dispatched | Running | CompletionReported | Cancelling | Preempting => SlotInFlight
  | Completed | Cancelled | Failed => SlotNone
  end.

Definition index_erase (flow : FlowId) (s : Slot) (im : Impl) : Impl :=
  match s with
  | SlotWaiting => im <| im_waiting_index ::= fun X => X ∖ {[ flow ]} |>
  | SlotReady => im <| im_ready_index ::= fun X => X ∖ {[ flow ]} |>
  | SlotInFlight => im <| im_inflight_index ::= fun X => X ∖ {[ flow ]} |>
  | SlotNone => im
  end.

Definition index_insert (flow : FlowId) (s : Slot) (im : Impl) : Impl :=
  match s with
  | SlotWaiting => im <| im_waiting_index ::= fun X => {[ flow ]} ∪ X |>
  | SlotReady => im <| im_ready_index ::= fun X => {[ flow ]} ∪ X |>
  | SlotInFlight => im <| im_inflight_index ::= fun X => {[ flow ]} ∪ X |>
  | SlotNone => im
  end.

Definition update_index (flow : FlowId) (from to : FlowLifecycle) (im : Impl) : Impl :=
  index_insert flow (slot to) (index_erase flow (slot from) im).

Definition reindex_all (im : Impl) : Impl :=
  let clear := im <| im_waiting_index := ∅ |> <| im_ready_index := ∅ |>
                  <| im_inflight_index := ∅ |> in
  foldl (fun im '(id, rt) => index_insert id (slot (fr_lifecycle rt)) im) clear
    (map_entries (im_flows im)).

Definition refresh_min_service_window (now : Ticks) (rt : FlowRuntime) : FlowRuntime :=
  let restart := rt <| fr_min_service_window_start := now |>
                    <| fr_min_service_delivered := 0 |> in
  if fd_min_service (fr_descriptor rt) =? 0 then rt
  else if negb (fr_ever_ready rt) then restart
  else if now <? fr_min_service_window_start rt then restart
  else if fd_min_service_window (fr_descriptor rt) <=? now - fr_min_service_window_start rt
       then restart
  else rt.

(** The virtual-finish stamp of a flow that becomes backlogged. *)
Definition stamp_virtual_finish (im : Impl) (rt : FlowRuntime) : N :=
  let quantum := N.min (fd_service_quantum (fr_descriptor rt)) (po_max_quantum (im_policy im)) in
  let weight := if fd_weight (fr_descriptor rt) =? 0 then 1 else fd_weight (fr_descriptor rt) in
  let cost := mul64 quantum kVirtualTimeScale / weight in
  let base := default 0 (im_virtual_time im !! fd_fairness_group (fr_descriptor rt)) in
  saturating_add (if fr_virtual_finish rt <? base then base else fr_virtual_finish rt) cost.

(** The part of [set_lifecycle] that changes the flow itself. *)
Definition enter_lifecycle (im : Impl) (next : FlowLifecycle) (now : Ticks) (rt : FlowRuntime)
  : FlowRuntime :=
  let waited :=
    if bool_decide (fr_lifecycle rt = Ready) && fr_ever_ready rt
       && (fr_eligible_since_tick rt <=? now)
    then rt <| fr_accounting ::= fun a => a <| ac_wait_ticks_total ::=
                 fun w => saturating_add w (now - fr_eligible_since_tick rt) |> |>
    else rt in
  let entered := waited <| fr_lifecycle := next |> <| fr_last_change_tick := now |> in
  if bool_decide (next = Ready) then
    let eligible := entered <| fr_eligible_since_tick := now |> <| fr_ever_ready := true |>
                            <| fr_starvation_counted := false |> in
    let stamped :=
      if po_weighted_fairness (im_policy im)
      then eligible <| fr_virtual_finish := stamp_virtual_finish im eligible |>
      else eligible in
    refresh_min_service_window now stamped
  else entered.

Definition set_lifecycle (id : FlowId) (next : FlowLifecycle) (now : Ticks) (im : Impl) : Impl :=
  match im_flows im !! id with
  | None => im
  | Some rt =>
      if bool_decide (fr_lifecycle rt = next) then im
      else
        update_index (fd_flow (fr_descriptor rt)) (fr_lifecycle rt) next
          (im <| im_flows ::= <[ id := enter_lifecycle im next now rt ]> |>)
  end.

Definition record_step (id : FlowId) (step : ExplanationStep) (im : Impl) : Impl :=
  upd_flow id (fun rt =>
    let history := fr_history rt ++
      [mkExplanationStep (xs_at_tick step) (xs_lifecycle step) (xs_reason step)
         (xs_schedule step) (xs_attempt step) (bounded_detail (xs_detail step))] in
    if kMaxExplanationSteps <? N.of_nat (length history)
    then rt <| fr_history := tail history |> <| fr_history_truncated := true |>
    else rt <| fr_history := history |>) im.

(** [set_lifecycle] followed by [record_step] with the same lifecycle. *)
Definition transition (id : FlowId) (next : FlowLifecycle) (now : Ticks)
  (reason : DecisionReason) (schedule : ScheduleId) (attempt : DispatchAttemptId)
  (detail : string) (im : Impl) : Impl :=
  record_step id (mkExplanationStep now next reason schedule attempt detail)
    (set_lifecycle id next now im).

Definition defer (rt : FlowRuntime) (reason : DecisionReason) (detail : string)
  (o : ArbitrationOutcome) : ArbitrationOutcome :=
  if kMaxDeferredPerRound <=? N.of_nat (length (ao_deferred o))
  then o <| ao_deferred_truncated := true |>
  else o <| ao_deferred ::= fun l =>
         l ++ [mkDeferredFlow (fd_flow (fr_descriptor rt)) (fd_generation (fr_descriptor rt))
                 reason (bounded_detail detail)] |>.

(** Counts a deadline miss of a flow not counted yet. *)
Definition count_deadline_miss (id : FlowId) (im : Impl) : Impl :=
  (upd_flow id (fun rt =>
     rt <| fr_deadline_missed_counted := true |>
        <| fr_accounting ::= fun a => a <| ac_deadline_misses ::= incr64 |> |>) im)
    <| im_deadline_misses ::= incr64 |>.

Definition report_deadline_miss (flow : FlowId) (o : ArbitrationOutcome) : ArbitrationOutcome :=
  if N.of_nat (length (ao_deadline_misses o)) <? kMaxDeferredPerRound
  then o <| ao_deadline_misses ::= fun l => l ++ [flow] |> else o.

Definition handle_deadline_miss (id : FlowId) (now : Ticks) (im : Impl) (o : ArbitrationOutcome)
  : Impl * ArbitrationOutcome :=
  match im_flows im !! id with
  | None => (im, o)
  | Some rt =>
      if fr_deadline_missed_counted rt then (im, o)
      else
        let im1 := count_deadline_miss id im in
        let o1 := report_deadline_miss (fd_flow (fr_descriptor rt)) o in
        if po_strict_deadlines (im_policy im) && negb (is_terminal (fr_lifecycle rt))
        then (transition id Failed now DeadlineMissed 0 0
                "deadline crossed before the flow could be dispatched" im1, o1)
        else (im1, o1)
  end.

(** ** Readiness *)

Definition dependencies_satisfied (im : Impl) (rt : FlowRuntime) : bool :=
  forallb (fun dep =>
    match im_flows im !! dep with
    | None => false
    | Some d => bool_decide (fr_lifecycle d = Completed)
    end) (fd_dependencies (fr_descriptor rt)).

Definition dependency_failed (im : Impl) (rt : FlowRuntime) : bool :=
  existsb (fun dep =>
    match im_flows im !! dep with
    | None => false
    | Some d => is_terminal (fr_lifecycle d) && negb (bool_decide (fr_lifecycle d = Completed))
    end) (fd_dependencies (fr_descriptor rt)).

(** The result is [(usable, reason)]. *)
Definition reservation_usable (im : Impl) (rt : FlowRuntime) (now : Ticks)
  : bool * DecisionReason :=
  let d := fr_descriptor rt in
  if negb (bound (fd_reservation d)) then
    if existsb (fun '(_, c) =>
         negb (vr_retired c) && (rv_resource (vr_descriptor c) =? bd_id (fd_resource d))
         && rv_exclusive (vr_descriptor c) && window_contains (vr_descriptor c) now)
         (map_entries (im_reservations im))
    then (false, AwaitingReservationWindow)
    else (true, Selected)
  else
    match im_reservations im !! bd_id (fd_reservation d) with
    | None => (false, ReservationWindowClosed)
    | Some r =>
        if vr_retired r then (false, ReservationWindowClosed)
        else if negb (rv_generation (vr_descriptor r) =? bd_generation (fd_reservation d))
             then (false, ReservationWindowClosed)
        else if negb (rv_resource (vr_descriptor r) =? bd_id (fd_resource d))
             then (false, ReservationWindowClosed)
        else if now <? rv_window_begin (vr_descriptor r)
             then (false, AwaitingReservationWindow)
        else if rv_window_end (vr_descriptor r) <=? now
             then (false, ReservationWindowClosed)
        else if rv_capacity (vr_descriptor r) <=? vr_reserved_units r
             then (false, ReservationExhausted)
        else (true, Selected)
    end.

(** The result is [(ready, reason)]. *)
Definition derived_readiness (im : Impl) (rt : FlowRuntime) (now : Ticks)
  : bool * DecisionReason :=
  let d := fr_descriptor rt in
  if is_terminal (fr_lifecycle rt) then (false, Terminal)
  else if bool_decide (fr_lifecycle rt = Ambiguous) then (false, AmbiguousRequiresResolution)
  else if fd_readiness_signal d =? 2 then (false, AwaitingReadinessSignal)
  else if negb (fd_auto_ready d) && negb (fd_readiness_signal d =? 1)
       then (false, AwaitingReadinessSignal)
  else if now <? fd_release_tick d then (false, AwaitingRelease)
  else if negb (dependencies_satisfied im rt) then
    if dependency_failed im rt then (false, DependencyFailed) else (false, AwaitingDependency)
  else
    let '(usable, reason) := reservation_usable im rt now in
    if negb usable then (false, reason)
    else if has_deadline (fd_deadline_tick d) && (fd_deadline_tick d <=? now)
         then (false, DeadlineMissed)
    else (true, Selected).

(** ** Ranking *)

Definition tier_of (im : Impl) (rt : FlowRuntime) (now : Ticks) : N :=
  let p := im_policy im in
  let deadline := fd_deadline_tick (fr_descriptor rt) in
  let slack := if now <? deadline then deadline - now else 0 in
  let waiting := if fr_eligible_since_tick rt <=? now then now - fr_eligible_since_tick rt
                 else 0 in
  if has_deadline deadline && po_deadline_ordering p && (slack <=? po_deadline_urgency_ticks p)
  then kTierDeadlineUrgent
  else if fr_ever_ready rt && (po_starvation_bound_ticks p <=? waiting)
  then kTierStarvation
  else if po_min_service_guarantee p && (0 <? fd_min_service (fr_descriptor rt))
          && (fr_min_service_delivered rt <? fd_min_service (fr_descriptor rt))
  then kTierMinServiceDeficient
  else kTierNormal.

Definition compute_key (im : Impl) (rt : FlowRuntime) (now : Ticks) : OrderKey :=
  let d := fr_descriptor rt in
  let p := im_policy im in
  let rank := match im_priority_classes im !! bd_id (fd_priority d) with
              | None => 0
              | Some c => pc_rank c
              end in
  let weight := if fd_weight d =? 0 then 1 else fd_weight d in
  mkOrderKey (tier_of im rt now) rank
    (if po_deadline_ordering p then fd_deadline_tick d else kNoDeadline)
    (if po_weighted_fairness p then fr_virtual_finish rt else 0)
    (u64_max - weight) (fd_flow d) (fd_generation d).

(** ** Capacity *)

Definition current_interval (r : ResourceRuntime) (now : Ticks) : bool :=
  rr_interval_initialized r && (now / rd_interval (rr_descriptor r) =? rr_interval_index r).

Definition capacity_remaining (r : ResourceRuntime) (now : Ticks) : N :=
  if negb (current_interval r now) then rd_capacity (rr_descriptor r)
  else if rd_capacity (rr_descriptor r) <=? rr_reserved_this_interval r then 0
  else rd_capacity (rr_descriptor r) - rr_reserved_this_interval r.

Definition roll_interval (now : Ticks) (r : ResourceRuntime) : ResourceRuntime :=
  if negb (current_interval r now) then
    r <| rr_interval_index := now / rd_interval (rr_descriptor r) |>
      <| rr_interval_initialized := true |> <| rr_reserved_this_interval := 0 |>
  else r.

Definition reservation_remaining (im : Impl) (rt : FlowRuntime) (now : Ticks) : N :=
  let b := fd_reservation (fr_descriptor rt) in
  if negb (bound b) then u64_max
  else
    match im_reservations im !! bd_id b with
    | None => 0
    | Some r =>
        if vr_retired r || negb (window_contains (vr_descriptor r) now) then 0
        else if rv_capacity (vr_descriptor r) <=? vr_reserved_units r then 0
        else rv_capacity (vr_descriptor r) - vr_reserved_units r
    end.

Definition reservation_window_end (im : Impl) (r : ReservationId) : Ticks :=
  match im_reservations im !! r with
  | None => kNoWindowBound
  | Some v => rv_window_end (vr_descriptor v)
  end.

Definition find_schedule (im : Impl) (id : ScheduleId) : option ScheduleRuntime :=
  im_schedules im !! id.
