(* ===== verification/Transitions.v ===== *)
(** * State transitions

    Models the [apply_*] methods of [Scheduler::Impl] (src/scheduler.cpp,
    "the only writers of authoritative state"), which live operation and
    journal replay share, with [release_run_entry],
    [normalize_transient_states], [abandon_open_attempts],
    [apply_epoch_advance] and [maybe_retire_schedules].  None of them touches
    the durable store. *)

From S2P Require Import Prelude Checked Bytes Hash Model Schedule Codec Journal State.

(** ** Updates through a reference *)

Definition upd_schedule (id : ScheduleId) (f : ScheduleRuntime -> ScheduleRuntime) (im : Impl)
  : Impl := im <| im_schedules ::= alter f id |>.

Definition upd_resource (id : ResourceId) (f : ResourceRuntime -> ResourceRuntime) (im : Impl)
  : Impl := im <| im_resources ::= alter f id |>.

Definition upd_attempt (id : DispatchAttemptId) (f : AttemptRuntime -> AttemptRuntime) (im : Impl)
  : Impl := im <| im_attempts ::= alter f id |>.

(** [if (x > 0) --x] *)
Definition decr (x : N) : N := if 0 <? x then x - 1 else x.

(** [found->second.in_flight > 0 && --in_flight] on a resource that may be gone. *)
Definition release_slot (resource : ResourceId) (im : Impl) : Impl :=
  upd_resource resource (fun r => r <| rr_in_flight ::= decr |>) im.

(** [x >= q ? x - q : 0] *)
Definition monus (x q : N) : N := if q <=? x then x - q else 0.

Definition clear_scheduled (rt : FlowRuntime) : FlowRuntime :=
  rt <| fr_scheduled_schedule := 0 |> <| fr_scheduled_generation := 0 |>
     <| fr_scheduled_ordinal := 0 |>.

(** ** Topology *)

Definition apply_policy (p : SchedulingPolicy) (im : Impl) : Impl :=
  im <| im_policy := p |> <| im_policy_binding := policy_binding_of p |>.

Definition apply_resource (d : ResourceDescriptor) (im : Impl) : Impl :=
  let fresh := mkResourceRuntime d 0 false 0 0 in
  let runtime :=
    match im_resources im !! rd_resource d with
    | None => fresh
    | Some r =>
        let reset :=
          if id_valid (rd_resource (rr_descriptor r))
             && negb (rd_generation (rr_descriptor r) =? rd_generation d)
          then r <| rr_interval_initialized := false |> <| rr_reserved_this_interval := 0 |>
          else r in
        reset <| rr_descriptor := d |>
    end in
  im <| im_resources ::= <[ rd_resource d := runtime ]> |>.

Definition apply_reservation (d : ReservationDescriptor) (im : Impl) : Impl :=
  let units := match im_reservations im !! rv_reservation d with
               | None => 0
               | Some v => vr_reserved_units v
               end in
  im <| im_reservations ::= <[ rv_reservation d := mkReservationRuntime d units false ]> |>.

Definition apply_retire_reservation (r : ReservationId) (g : Generation) (im : Impl) : Impl :=
  match im_reservations im !! r with
  | None => im
  | Some v =>
      if negb (rv_generation (vr_descriptor v) =? g) then im
      else im <| im_reservations ::= <[ r := v <| vr_retired := true |> ]> |>
              <| im_reservations_retired ::= incr64 |>
  end.

Definition apply_priority_class (d : PriorityClassDescriptor) (im : Impl) : Impl :=
  im <| im_priority_classes ::= <[ pc_priority d := d ]> |>.

Definition apply_qos_class (d : QoSClassDescriptor) (im : Impl) : Impl :=
  im <| im_qos_classes ::= <[ qc_qos d := d ]> |>.

(** ** Flows *)

(** Everything [apply_admit] resets; only the last change tick survives. *)
Definition admitted_runtime (d : FlowDescriptor) (last_change : Ticks) : FlowRuntime :=
  mkFlowRuntime d Waiting 0 0 0 0 0 0 0 last_change 0 false 0 0 0 false false
    default_FlowAccounting [] false.

Definition apply_admit (d : FlowDescriptor) : Op unit := fun im =>
  if (po_max_flows (im_policy im) <=? N.of_nat (size (im_flows im)))
     && bool_decide (im_flows im !! fd_flow d = None)
  then (im, Err Bounded)
  else
    let last_change := match im_flows im !! fd_flow d with
                       | None => 0
                       | Some rt => fr_last_change_tick rt
                       end in
    (im <| im_flows ::= <[ fd_flow d := admitted_runtime d last_change ]> |>
        <| im_ready_index ::= fun X => X ∖ {[ fd_flow d ]} |>
        <| im_inflight_index ::= fun X => X ∖ {[ fd_flow d ]} |>
        <| im_waiting_index ::= fun X => {[ fd_flow d ]} ∪ X |>, Ok tt).

Definition apply_update (d : FlowDescriptor) : Op unit := fun im =>
  match im_flows im !! fd_flow d with
  | None => (im, Err UnknownFlow)
  | Some rt =>
      if holds_open_work (fr_lifecycle rt) then (im, Err InvalidState)
      else (upd_flow (fd_flow d) (fun rt => rt <| fr_descriptor := d |>) im, Ok tt)
  end.

Definition apply_readiness (flow : FlowId) (g : Generation) (signal : ReadinessSignal)
  (now : Ticks) (im : Impl) : Impl :=
  match im_flows im !! flow with
  | None => im
  | Some rt =>
      if negb (fd_generation (fr_descriptor rt) =? g) then im
      else upd_flow flow (fun rt =>
             rt <| fr_descriptor ::= fun d => d <| fd_readiness_signal := signal_value signal |> |>
                <| fr_last_change_tick := now |>) im
  end.

(** ** Closing attempts *)

(** What the switch in [apply_attempt_closed] does with the flow. *)
Definition close_flow (flow : FlowId) (attempt : DispatchAttemptId) (schedule : ScheduleId)
  (state : AttemptState) (detail : string) (now : Ticks) (im : Impl) : Impl :=
  match state with
  | APreempted =>
      transition flow Preempting now DisplacedByHigherAuthority schedule attempt detail
        (upd_flow flow (fun rt =>
           rt <| fr_accounting ::= fun a => a <| ac_preemptions ::= incr64 |> |>) im)
  | ACancelled => transition flow Cancelling now Terminal schedule attempt detail im
  | AAbandoned =>
      transition flow Ambiguous now AmbiguousRequiresResolution schedule attempt detail im
  | ARejected => transition flow Ready now Selected schedule attempt detail im
  | AOpen | AStarted | ACommitted => im
  end.

Definition apply_attempt_closed (attempt : DispatchAttemptId) (state : AttemptState)
  (detail : string) (now : Ticks) (im : Impl) : Impl :=
  match im_attempts im !! attempt with
  | None => im
  | Some record =>
      if is_attempt_terminal (at_state record) then im
      else
        let ticket := at_ticket record in
        let close_detail := bounded_detail detail in
        let im1 := upd_attempt attempt (fun r =>
          r <| at_state := state |> <| at_closed_tick := now |>
            <| at_close_detail := close_detail |>) im in
        let im2 := upd_schedule (tk_schedule ticket)
          (fun s => s <| sr_open_attempts ::= decr |>) im1 in
        match im_flows im2 !! tk_flow ticket with
        | None => im2
        | Some flow =>
            if negb (fr_open_attempt flow =? attempt) then im2
            else
              let im3 := upd_flow (tk_flow ticket) (fun rt =>
                rt <| fr_outstanding_reserved ::= fun x => monus x (tk_quantum ticket) |>
                   <| fr_open_attempt := 0 |>) im2 in
              let im4 := release_slot (tk_resource ticket) im3 in
              close_flow (tk_flow ticket) attempt (tk_schedule ticket) state close_detail now im4
        end
  end.

(** ** Schedules *)

Definition release_run_entry (schedule : ScheduleId) (index : nat) (now : Ticks) (im : Impl)
  : Impl :=
  match im_schedules im !! schedule with
  | None => im
  | Some runtime =>
      match sc_entries (sr_schedule runtime) !! index, sr_consumed runtime !! index with
      | Some entry, Some 0 =>
          let im1 := upd_schedule schedule
            (fun s => s <| sr_consumed ::= <[ index := 2 ]> |>) im in
          if negb (is_run entry) then im1
          else
            let im2 := upd_schedule schedule
              (fun s => s <| sr_pending_entries ::= decr |>) im1 in
            match im_flows im2 !! se_flow entry with
            | None => im2
            | Some flow =>
                if negb (bool_decide (fr_lifecycle flow = Scheduled))
                   || negb (fr_scheduled_schedule flow =? sc_schedule (sr_schedule runtime))
                then im2
                else
                  let im3 := upd_flow (se_flow entry) (fun rt =>
                    clear_scheduled
                      (rt <| fr_outstanding_reserved ::= fun x => monus x (se_quantum entry) |>))
                    im2 in
                  transition (se_flow entry) Ready now DeliveryHorizonExpired 0 0
                    "undelivered schedule entry reclaimed"
                    (release_slot (se_resource entry) im3)
            end
      | _, _ => im
      end
  end.

(** [if (scheduled != nullptr && index < consumed.size()) release_run_entry(...)]
    for the window a flow holds. *)
Definition release_held_window (rt : FlowRuntime) (now : Ticks) (im : Impl) : Impl :=
  match find_schedule im (fr_scheduled_schedule rt) with
  | None => im
  | Some s =>
      if fr_scheduled_ordinal rt <? N.of_nat (length (sr_consumed s))
      then release_run_entry (fr_scheduled_schedule rt) (N.to_nat (fr_scheduled_ordinal rt)) now im
      else im
  end.

Definition apply_cancel (flow : FlowId) (g : Generation) (now : Ticks) (im : Impl) : Impl :=
  match im_flows im !! flow with
  | None => im
  | Some rt =>
      if negb (fd_generation (fr_descriptor rt) =? g) then im
      else
        let im1 := if id_valid (fr_open_attempt rt)
                   then apply_attempt_closed (fr_open_attempt rt) ACancelled "flow cancelled" now im
                   else im in
        let im2 :=
          match im_flows im1 !! flow with
          | None => im1
          | Some rt1 =>
              if bool_decide (fr_lifecycle rt1 = Scheduled)
              then release_held_window rt1 now im1 else im1
          end in
        let im3 := upd_flow flow (fun rt =>
          clear_scheduled (rt <| fr_outstanding_reserved := 0 |>))
          (set_lifecycle flow Cancelled now im2) in
        record_step flow (mkExplanationStep now Cancelled Terminal 0 0 "cancelled by caller") im3
  end.

Definition apply_retire_flow (flow : FlowId) (g : Generation) (im : Impl) : Impl :=
  match im_flows im !! flow with
  | None => im
  | Some rt =>
      if negb (fd_generation (fr_descriptor rt) =? g) then im
      else im <| im_waiting_index ::= fun X => X ∖ {[ flow ]} |>
              <| im_ready_index ::= fun X => X ∖ {[ flow ]} |>
              <| im_inflight_index ::= fun X => X ∖ {[ flow ]} |>
              <| im_flows ::= delete flow |>
  end.

Definition apply_ambiguity_resolved (flow : FlowId) (g : Generation)
  (resolution : AmbiguityResolution) (now : Ticks) (im : Impl) : Impl :=
  match im_flows im !! flow with
  | None => im
  | Some rt =>
      if negb (fd_generation (fr_descriptor rt) =? g) then im
      else if negb (bool_decide (fr_lifecycle rt = Ambiguous)) then im
      else
        match resolution with
        | Abandon =>
            transition flow Failed now Terminal 0 0 "recovered outcome abandoned by operator" im
        | Retry =>
            record_step flow (mkExplanationStep now Waiting AwaitingRelease 0 0
                                "recovered outcome retried by operator")
              (upd_flow flow (fun rt => rt <| fr_ever_ready := false |>)
                 (set_lifecycle flow Waiting now im))
        end
  end.

(** The body of the loop of [apply_schedule], for a Run entry whose flow can
    still take it. *)
Definition apply_run_entry (s : Schedule) (e : ScheduleEntry) (im : Impl) : Impl :=
  let im1 := upd_flow (se_flow e) (fun rt =>
    rt <| fr_outstanding_reserved ::= fun x => saturating_add x (se_quantum e) |>
       <| fr_scheduled_schedule := sc_schedule s |>
       <| fr_scheduled_generation := sc_generation s |>
       <| fr_scheduled_ordinal := se_ordinal e |>
       <| fr_scheduled_tick := se_start_tick e |>) im in
  let im2 := transition (se_flow e) Scheduled (se_start_tick e) Selected (sc_schedule s) 0
               (se_detail e) im1 in
  let im3 := upd_schedule (sc_schedule s)
               (fun r => r <| sr_pending_entries ::= incr64 |>) im2 in
  let im4 := upd_resource (se_resource e) (fun r =>
    if rd_generation (rr_descriptor r) =? se_resource_generation e
    then (roll_interval (se_start_tick e) r)
           <| rr_reserved_this_interval ::= fun x => saturating_add x (se_quantum e) |>
           <| rr_in_flight ::= incr64 |>
    else r) im3 in
  let im5 :=
    if id_valid (se_reservation e)
    then im4 <| im_reservations ::= alter (fun v =>
                  if rv_generation (vr_descriptor v) =? se_reservation_generation e
                  then v <| vr_reserved_units ::= fun x => saturating_add x (se_quantum e) |>
                  else v) (se_reservation e) |>
    else im4 in
  if po_weighted_fairness (im_policy im5) then
    match im_flows im5 !! se_flow e with
    | None => im5
    | Some rt =>
        let group := fd_fairness_group (fr_descriptor rt) in
        let clock := default 0 (im_virtual_time im5 !! group) in
        im5 <| im_virtual_time ::=
                 <[ group := if clock <? fr_virtual_finish rt then fr_virtual_finish rt
                             else clock ]> |>
    end
  else im5.

Definition schedule_entry_applies (e : ScheduleEntry) (im : Impl) : bool :=
  is_run e &&
  match im_flows im !! se_flow e with
  | None => false
  | Some rt =>
      (fd_generation (fr_descriptor rt) =? se_flow_generation e)
      && negb (is_terminal (fr_lifecycle rt) || holds_open_work (fr_lifecycle rt))
  end.

Definition apply_schedule (s : Schedule) (im : Impl) : Impl :=
  let entries := sc_entries s in
  let im1 := im <| im_schedules ::= <[ sc_schedule s :=
                     mkScheduleRuntime s (replicate (length entries) 0) 0 0 ]> |>
                <| im_schedule_order ::= fun l => l ++ [sc_schedule s] |>
                <| im_schedules_issued ::= incr64 |>
                <| im_schedule_entries_issued ::= fun n =>
                     add64 n (N.of_nat (length entries)) |> in
  foldl (fun im e => if schedule_entry_applies e im then apply_run_entry s e im else im)
    im1 entries.

Definition apply_release_schedule (schedule : ScheduleId) (now : Ticks) (im : Impl) : Impl :=
  match find_schedule im schedule with
  | None => im
  | Some runtime =>
      foldl (fun im index => release_run_entry schedule index now im) im
        (seq 0 (length (sc_entries (sr_schedule runtime))))
  end.

(** ** Attempts *)

Definition apply_attempt_opened (ticket : DispatchTicket) (nominal_work : N) (now : Ticks)
  (im : Impl) : Impl :=
  let runtime := mkAttemptRuntime ticket AOpen now 0 false 0 0 "" in
  let im1 := im <| im_attempts ::= <[ tk_attempt ticket := runtime ]> |>
                <| im_schedule_attempts ::= fun m =>
                     <[ tk_schedule ticket :=
                          default [] (m !! tk_schedule ticket) ++ [tk_attempt ticket] ]> m |> in
  let im2 := upd_schedule (tk_schedule ticket)
               (fun s => s <| sr_open_attempts ::= incr64 |>) im1 in
  match im_flows im2 !! tk_flow ticket with
  | None => im2
  | Some rt =>
      if negb (fd_generation (fr_descriptor rt) =? tk_flow_generation ticket) then im2
      else
        let im3 := upd_flow (tk_flow ticket) (fun rt =>
          rt <| fr_open_attempt := tk_attempt ticket |>
             <| fr_accounting ::= fun a => a <| ac_dispatches_issued ::= incr64 |> |>) im2 in
        transition (tk_flow ticket) Dispatched now Selected (tk_schedule ticket)
          (tk_attempt ticket)
          ("dispatch issued with " +:+ pretty (tk_quantum ticket) +:+ " units of " +:+
           pretty nominal_work +:+ " nominal work") im3
  end.

Definition apply_attempt_started (attempt : DispatchAttemptId) (now : Ticks) (im : Impl) : Impl :=
  match im_attempts im !! attempt with
  | None => im
  | Some record =>
      if is_attempt_terminal (at_state record) || bool_decide (at_state record = AStarted) then im
      else
        let im1 := upd_attempt attempt (fun r => r <| at_state := AStarted |>) im in
        let flow := tk_flow (at_ticket record) in
        match im_flows im1 !! flow with
        | None => im1
        | Some rt =>
            if negb (fr_open_attempt rt =? attempt) then im1
            else set_lifecycle flow Running now
                   (upd_flow flow (fun rt => rt <| fr_accounting ::= fun a =>
                      a <| ac_dispatches_started ::= incr64 |> |>) im1)
        end
  end.

Definition apply_completion (e : CompletionEvidence) (credited : N)
  (lifecycle_after : FlowLifecycle) (now : Ticks) (im : Impl) : Impl :=
  match im_attempts im !! ev_attempt e with
  | None => im
  | Some record =>
      let ticket := at_ticket record in
      let im1 := upd_attempt (ev_attempt e) (fun r =>
        r <| at_state := ACommitted |> <| at_closed_tick := now |>
          <| at_has_evidence := true |> <| at_evidence_digest := evidence_digest e |>
          <| at_credited := credited |>) im in
      let im2 := upd_schedule (tk_schedule ticket)
        (fun s => s <| sr_open_attempts ::= decr |>) im1 in
      match im_flows im2 !! ev_flow e with
      | None => im2
      | Some _ =>
          let im3 := upd_flow (ev_flow e) (fun rt =>
            clear_scheduled
              (rt <| fr_outstanding_reserved ::= fun x => monus x (tk_quantum ticket) |>
                  <| fr_open_attempt := 0 |>)) im2 in
          let im4 := release_slot (tk_resource ticket) im3 in
          let im5 :=
            if 0 <? credited then
              upd_flow (ev_flow e) (fun rt =>
                rt <| fr_served_work ::= fun x => saturating_add x credited |>
                   <| fr_accounting ::= fun a =>
                        a <| ac_service_credit ::= fun x => saturating_add x credited |> |>
                   <| fr_min_service_delivered ::= fun x => saturating_add x credited |>) im4
            else im4 in
          let im6 := (upd_flow (ev_flow e) (fun rt => rt <| fr_accounting ::= fun a =>
                        a <| ac_completions_committed ::= incr64 |> |>) im5)
                       <| im_completions_applied ::= incr64 |> in
          transition (ev_flow e) lifecycle_after now Selected (tk_schedule ticket)
            (ev_attempt e)
            ("completion committed with " +:+ pretty credited +:+ " units credited") im6
      end
  end.

(** ** Whole-table passes *)

Definition normalize_flow (now : Ticks) (im : Impl) (id : FlowId) : Impl :=
  match im_flows im !! id with
  | None => im
  | Some rt =>
      match fr_lifecycle rt with
      | Preempting => set_lifecycle id Ready now im
      | Cancelling => set_lifecycle id Cancelled now im
      | _ => im
      end
  end.

Definition normalize_transient_states (now : Ticks) (im : Impl) : Impl :=
  foldl (normalize_flow now) im (map_keys (im_flows im)).

Definition open_attempts (im : Impl) : list DispatchAttemptId :=
  omap (fun '(id, a) => if is_attempt_terminal (at_state a) then None else Some id)
    (map_entries (im_attempts im)).

Definition abandon_open_attempts (now : Ticks) (detail : string) (im : Impl) : Impl :=
  let im1 := foldl (fun im attempt =>
    (apply_attempt_closed attempt AAbandoned detail now im)
      <| im_recovery ::= fun r => r <| rp_attempts_abandoned ::= incr64 |> |>)
    im (open_attempts im) in
  let im2 := foldl (fun im id => apply_release_schedule id now im) im1 (im_schedule_order im1) in
  normalize_transient_states now im2.

Definition ambiguous_flows (im : Impl) : N :=
  N.of_nat (length (filter (fun '(_, rt) => fr_lifecycle rt = Ambiguous)
                      (map_entries (im_flows im)))).

Definition apply_epoch_advance (next : FabricEpoch) (now : Ticks) (im : Impl) : Impl :=
  let im1 := abandon_open_attempts now "epoch advanced: prior dispatch authority retired" im in
  let im2 := im1
    <| im_recovery ::= fun r => r <| rp_flows_made_ambiguous ::= fun n =>
         add64 n (ambiguous_flows im1) |> |>
    <| im_flows ::= fmap (fun rt => (clear_scheduled rt) <| fr_outstanding_reserved := 0 |>) |>
    <| im_resources ::= fmap (fun r => r <| rr_in_flight := 0 |>) |>
    <| im_recovery ::= fun r => r <| rp_schedules_retired ::= fun n =>
         add64 n (N.of_nat (size (im_schedules im1))) |> |> in
  (reindex_all im2)
    <| im_schedules := ∅ |> <| im_schedule_attempts := ∅ |> <| im_schedule_order := [] |>
    <| im_attempts := ∅ |> <| im_epoch := next |>
    <| im_preemptions_in_window := 0 |> <| im_preemption_window_index := 0 |>.

(** The [while] loop of [maybe_retire_schedules]; every turn pops the front of
    the order, so it recurses on it. *)
Fixpoint retire_loop (order : list ScheduleId) (im : Impl) : Impl :=
  match order with
  | [] => im
  | front :: rest =>
      if N.of_nat (length order) <=? po_retained_schedule_history (im_policy im) then im
      else
        match find_schedule im front with
        | None => retire_loop rest (im <| im_schedule_order := rest |>)
        | Some runtime =>
            if (0 <? sr_open_attempts runtime) || (0 <? sr_pending_entries runtime) then im
            else
              let im1 :=
                match im_schedule_attempts im !! front with
                | None => im
                | Some attempts =>
                    im <| im_attempts ::= fun m => foldl (fun m a => delete a m) m attempts |>
                       <| im_schedule_attempts ::= delete front |>
                end in
              retire_loop rest (im1 <| im_schedules ::= delete front |>
                                    <| im_schedule_order := rest |>)
        end
  end.

Definition maybe_retire_schedules (im : Impl) : Impl := retire_loop (im_schedule_order im) im.
