(* ===== verification/Arbitrate.v ===== *)
(** * Arbitration

    Models the arbitration round of src/scheduler.cpp: [close_attempt],
    [reclaim_expired_deliveries], [refresh_lifecycles], [worst_incumbent],
    [preemption_allowed] and [arbitrate].

    The local variables of [arbitrate] that its loop threads are the record
    [Round]; the loop body is [place_candidate], split at the displacement
    block and at the computation of the service window. *)

From S2P Require Import Prelude Checked Bytes Hash Model Schedule Codec Journal State Transitions.

Definition close_attempt (attempt : DispatchAttemptId) (state : AttemptState) (detail : string)
  (now : Ticks) : Op unit :=
  journal JAttemptClosed
    [WU64 attempt; WU8 (attempt_state_value state); WU64 now; WText (bounded_detail detail)] ;;;
  modify (apply_attempt_closed attempt state detail now).

(** ** Before the ranking *)

Definition reclaimed_flows (runtime : ScheduleRuntime) (o : ArbitrationOutcome)
  : ArbitrationOutcome :=
  foldl (fun o '(e, c) =>
    if negb (c =? 0) then o
    else if is_run e && (N.of_nat (length (ao_delivery_reclaims o)) <? kMaxDeferredPerRound)
         then o <| ao_delivery_reclaims ::= fun l => l ++ [se_flow e] |>
         else o) o (zip (sc_entries (sr_schedule runtime)) (sr_consumed runtime)).

Fixpoint reclaim_loop (now : Ticks) (order : list ScheduleId) (im : Impl)
  (o : ArbitrationOutcome) : Impl * ArbitrationOutcome :=
  match order with
  | [] => (im, o)
  | id :: rest =>
      match find_schedule im id with
      | None => reclaim_loop now rest im o
      | Some runtime =>
          if sr_pending_entries runtime =? 0 then reclaim_loop now rest im o
          else if now <? saturating_add (sc_at_tick (sr_schedule runtime))
                           (po_dispatch_delivery_horizon (im_policy im))
               then (im, o)
          else
            match journal JScheduleReleased [WU64 id; WU64 now] im with
            | (im, Err _) => (im, o <| ao_deferred_truncated := true |>)
            | (im, Ok _) =>
                reclaim_loop now rest (apply_release_schedule id now im)
                  (reclaimed_flows runtime o)
            end
      end
  end.

Definition reclaim_expired_deliveries (now : Ticks) (im : Impl) (o : ArbitrationOutcome)
  : Impl * ArbitrationOutcome := reclaim_loop now (im_schedule_order im) im o.

Definition fail_dependent (id : FlowId) (now : Ticks) (im : Impl) : Impl :=
  transition id Failed now DependencyFailed 0 0
    "a dependency reached a terminal state without completing" im.

(** What a flow that is not ready turns into, in [refresh_lifecycles] and in
    the placement loop. *)
Definition not_ready (id : FlowId) (rt : FlowRuntime) (reason : DecisionReason) (now : Ticks)
  (im : Impl) (o : ArbitrationOutcome) : Impl * ArbitrationOutcome :=
  match reason with
  | DeadlineMissed => handle_deadline_miss id now im o
  | DependencyFailed => (fail_dependent id now im, defer rt reason (reason_to_string reason) o)
  | _ => (im, defer rt reason (reason_to_string reason) o)
  end.

Definition refresh_waiting (now : Ticks) (st : Impl * ArbitrationOutcome) (id : FlowId)
  : Impl * ArbitrationOutcome :=
  let '(im, o) := st in
  match im_flows im !! id with
  | None => (im, o)
  | Some rt =>
      if bool_decide (fr_lifecycle rt = Ambiguous)
      then (im, defer rt AmbiguousRequiresResolution
                  "recovered outcome requires explicit resolution" o)
      else if now <? fd_release_tick (fr_descriptor rt)
      then (im, defer rt AwaitingRelease "not released" o)
      else
        let '(ready, reason) := derived_readiness im rt now in
        if ready then (transition id Ready now Selected 0 0 "ready" im, o)
        else not_ready id rt reason now im o
  end.

Definition refresh_inflight (now : Ticks) (st : Impl * ArbitrationOutcome) (id : FlowId)
  : Impl * ArbitrationOutcome :=
  let '(im, o) := st in
  match im_flows im !! id with
  | None => (im, o)
  | Some rt =>
      let deadline := fd_deadline_tick (fr_descriptor rt) in
      if negb (has_deadline deadline) then (im, o)
      else if now <? deadline then (im, o)
      else if fr_deadline_missed_counted rt then (im, o)
      else (count_deadline_miss id im, report_deadline_miss (fd_flow (fr_descriptor rt)) o)
  end.

Definition refresh_lifecycles (now : Ticks) (im : Impl) (o : ArbitrationOutcome)
  : Impl * ArbitrationOutcome :=
  let '(im1, o1) := foldl (refresh_waiting now) (im, o) (set_elems (im_waiting_index im)) in
  foldl (refresh_inflight now) (im1, o1) (set_elems (im_inflight_index im1)).

(** Step 1: the attempts of flows past their deadline. *)
Definition overdue_attempts (now : Ticks) (im : Impl) : list DispatchAttemptId :=
  omap (fun id =>
    match im_flows im !! id with
    | None => None
    | Some rt =>
        if negb (has_deadline (fd_deadline_tick (fr_descriptor rt)))
           || (now <? fd_deadline_tick (fr_descriptor rt)) then None
        else if id_valid (fr_open_attempt rt) then Some (fr_open_attempt rt) else None
    end) (set_elems (im_inflight_index im)).

Fixpoint close_overdue (now : Ticks) (overdue : list DispatchAttemptId) : Op unit :=
  match overdue with
  | [] => ret tt
  | attempt :: rest =>
      close_attempt attempt APreempted "deadline crossed while running" now ;;;
      modify (fun im => im <| im_preemptions_issued ::= incr64 |>) ;;;
      close_overdue now rest
  end.

(** ** Step 2: ranking *)

Record Candidate := mkCandidate { cd_flow : FlowId; cd_key : OrderKey }.

Definition consider (now : Ticks) (st : Impl * list Candidate) (id : FlowId)
  : Impl * list Candidate :=
  let '(im, cs) := st in
  match im_flows im !! id with
  | None => (im, cs)
  | Some rt =>
      if negb (bool_decide (fr_lifecycle rt = Ready)) then (im, cs)
      else
        let key := compute_key im rt now in
        let im1 :=
          if (ok_tier key =? kTierStarvation) && negb (fr_starvation_counted rt)
          then upd_flow id (fun rt =>
                 rt <| fr_starvation_counted := true |>
                    <| fr_accounting ::= fun a => a <| ac_starvation_boosts ::= incr64 |> |>) im
          else im in
        (im1, cs ++ [mkCandidate id key])
  end.

(** [std::sort] with [a.key < b.key]. *)
Definition candidate_le (a b : Candidate) : Prop := key_lt (cd_key b) (cd_key a) = false.

#[export] Instance candidate_le_dec : RelDecision candidate_le.
Proof. intros a b. unfold candidate_le. apply _. Defined.

Definition sort_candidates (cs : list Candidate) : list Candidate := merge_sort candidate_le cs.

Definition rank_candidates (now : Ticks) (im : Impl) : Impl * list Candidate :=
  let '(im, cs) := foldl (consider now) (im, []) (set_elems (im_ready_index im)) in
  (im, sort_candidates cs).

(** ** Step 3: placement *)

Record Round := mkRound {
  rn_outcome : ArbitrationOutcome;
  rn_entries : list ScheduleEntry;
  rn_decided : gset N;
  rn_next_ordinal : N;
  rn_pending_in_flight : gmap N N;
  rn_pending_capacity : gmap N N;
  rn_pending_reservation : gmap N N }.

#[export] Instance eta_Round : Eta Round := fun r =>
  mkRound (rn_outcome r) (rn_entries r) (rn_decided r) (rn_next_ordinal r)
    (rn_pending_in_flight r) (rn_pending_capacity r) (rn_pending_reservation r).

Abbreviation RoundM := (M ErrorCode (Impl * Round)).

Definition on_impl {A} (m : Op A) : RoundM A := fun '(im, rd) =>
  let '(im, r) := m im in ((im, rd), r).
Definition modify_impl (f : Impl -> Impl) : RoundM unit :=
  modify (fun '(im, rd) => (f im, rd)).
Definition modify_round (f : Round -> Round) : RoundM unit :=
  modify (fun '(im, rd) => (im, f rd)).
Definition deferring (rt : FlowRuntime) (reason : DecisionReason) (detail : string)
  : RoundM unit :=
  modify_round (fun rd => rd <| rn_outcome ::= defer rt reason detail |>).

(** [map[key]] on a map of counters. *)
Definition pending (m : gmap N N) (k : N) : N := default 0 (m !! k).

Definition worst_incumbent (resource : ResourceId) (now : Ticks) (im : Impl)
  : option DispatchAttemptId :=
  snd <$> foldl (fun worst id =>
    match im_flows im !! id with
    | None => worst
    | Some rt =>
        if negb (id_valid (fr_open_attempt rt)) then worst
        else if negb (bd_id (fd_resource (fr_descriptor rt)) =? resource) then worst
        else
          let key := compute_key im rt now in
          match worst with
          | None => Some (key, fr_open_attempt rt)
          | Some (worst_key, _) =>
              if key_lt worst_key key then Some (key, fr_open_attempt rt) else worst
          end
    end) None (set_elems (im_inflight_index im)).

(** The result is [(allowed, reason)]. *)
Definition preemption_allowed (candidate_key : OrderKey) (incumbent : FlowRuntime) (now : Ticks)
  (im : Impl) : bool * DecisionReason :=
  let p := im_policy im in
  let d := fr_descriptor incumbent in
  if bool_decide (po_preemption p = PNone) then (false, PreemptionDisabled)
  else if match im_qos_classes im !! bd_id (fd_qos d) with
          | None => false
          | Some q => (qc_generation q =? bd_generation (fd_qos d)) && qc_preemption_protected q
          end
       then (false, IncumbentNotPreemptible)
  else if negb (fd_preemptible d) then (false, IncumbentNotPreemptible)
  else if fr_served_work incumbent <? po_min_preempt_service p then (false, PreemptionThrottled)
  else if po_max_preemptions_per_interval p <=? im_preemptions_in_window im
       then (false, PreemptionThrottled)
  else
    let incumbent_key := compute_key im incumbent now in
    let priority_better := ok_priority_rank candidate_key <? ok_priority_rank incumbent_key in
    let tier_better := ok_tier candidate_key <? ok_tier incumbent_key in
    let deadline_urgent := (ok_tier candidate_key =? kTierDeadlineUrgent)
                           && negb (ok_tier incumbent_key =? kTierDeadlineUrgent) in
    let incumbent_overdue := has_deadline (fd_deadline_tick d) && (fd_deadline_tick d <=? now) in
    let allowed :=
      match po_preemption p with
      | PNone => false
      | PStrictPriority => priority_better || incumbent_overdue
      | PDeadline => deadline_urgent || incumbent_overdue
      | PTiered => tier_better || priority_better || incumbent_overdue
      end in
    if allowed then (true, PreemptionDisabled) else (false, PreemptionNotAuthorized).

Definition preempt_entry (rd : Round) (key : OrderKey) (victim : DispatchAttemptId)
  (t : DispatchTicket) (victim_flow : FlowId) (victim_rt : FlowRuntime) (by_flow : FlowId)
  (now : Ticks) : ScheduleEntry :=
  mkScheduleEntry (rn_next_ordinal rd) Preempt victim_flow
    (fd_generation (fr_descriptor victim_rt)) victim (tk_path t) (tk_path_generation t)
    (tk_resource t) (tk_resource_generation t) (tk_reservation t)
    (tk_reservation_generation t) (tk_qos t) (tk_qos_generation t) (tk_priority t)
    (tk_priority_generation t) (tk_quantum t) now (tk_deadline_tick t)
    (tk_reservation_end t) (ok_tier key) DisplacedByHigherAuthority
    (bounded_detail ("displaced by flow#" +:+ pretty by_flow)) (digest_of_key key).

(** The displacement block.  [false] is the [continue] of the loop. *)
Definition displace (c : Candidate) (rt : FlowRuntime) (now : Ticks) : RoundM bool :=
  let resource := bd_id (fd_resource (fr_descriptor rt)) in
  let* (im, rd) := get in
  match worst_incumbent resource now im with
  | None =>
      deferring rt ConcurrencyLimitReached
        "resource concurrency ceiling reached with no displaceable incumbent" ;;; ret false
  | Some victim =>
      match im_attempts im !! victim with
      | None =>
          deferring rt ConcurrencyLimitReached "resource concurrency ceiling reached" ;;;
          ret false
      | Some victim_attempt =>
          let t := at_ticket victim_attempt in
          match im_flows im !! tk_flow t with
          | None =>
              deferring rt ConcurrencyLimitReached "resource concurrency ceiling reached" ;;;
              ret false
          | Some victim_rt =>
              let '(allowed, refusal) := preemption_allowed (cd_key c) victim_rt now im in
              if negb allowed then
                deferring rt refusal (reason_to_string refusal) ;;; ret false
              else
                let e := preempt_entry rd (cd_key c) victim t (tk_flow t) victim_rt
                           (fd_flow (fr_descriptor rt)) now in
                modify_round (fun rd => rd <| rn_entries ::= fun l => l ++ [e] |>
                                           <| rn_next_ordinal ::= incr32 |>) ;;;
                on_impl (close_attempt victim APreempted "displaced by higher authority" now) ;;;
                modify_impl (fun im => im <| im_preemptions_issued ::= incr64 |>
                                          <| im_preemptions_in_window ::= incr32 |>) ;;;
                modify_round (fun rd => rd <| rn_decided ::= fun X => {[ tk_flow t ]} ∪ X |>
                  <| rn_outcome ::= defer victim_rt DisplacedByHigherAuthority
                                      "displaced by higher authority" |>) ;;;
                modify_impl (upd_resource resource (roll_interval now)) ;;;
                ret true
          end
      end
  end.

(** ** The service window of a candidate *)

Record Window := mkWindow {
  wd_remaining_work : N;
  wd_capacity : N;
  wd_reservation_slack : N;
  wd_quantum : N }.

Definition service_window (im : Impl) (rd : Round) (rt : FlowRuntime) (r : ResourceRuntime)
  (now : Ticks) : Window :=
  let d := fr_descriptor rt in
  let p := im_policy im in
  let remaining_work := monus (fd_estimated_work d) (fr_served_work rt) in
  let q1 := N.min (fd_service_quantum d) remaining_work in
  let q2 := N.min q1 (po_max_quantum p) in
  let q3 :=
    match im_qos_classes im !! bd_id (fd_qos d) with
    | None => q2
    | Some q =>
        if (qc_generation q =? bd_generation (fd_qos d)) && (0 <? qc_max_service_per_dispatch q)
        then N.min q2 (qc_max_service_per_dispatch q) else q2
    end in
  let capacity := monus (capacity_remaining r now)
                    (pending (rn_pending_capacity rd) (bd_id (fd_resource d))) in
  let q4 := N.min q3 capacity in
  let raw_reservation := reservation_remaining im rt now in
  let reservation_slack :=
    if bound (fd_reservation d)
    then monus raw_reservation
           (pending (rn_pending_reservation rd) (bd_id (fd_reservation d)))
    else raw_reservation in
  let q5 := N.min q4 reservation_slack in
  let q6 :=
    if has_deadline (fd_deadline_tick d) && po_strict_deadlines p
    then N.min q5 (monus (fd_deadline_tick d) now) else q5 in
  mkWindow remaining_work capacity reservation_slack q6.

Definition zero_quantum_reason (w : Window) : DecisionReason :=
  if wd_remaining_work w =? 0 then NoLegalQuantum
  else if wd_capacity w =? 0 then ResourceCapacityExhausted
  else if wd_reservation_slack w =? 0 then ReservationExhausted
  else NoLegalQuantum.

Definition run_entry (im : Impl) (rd : Round) (key : OrderKey) (rt : FlowRuntime) (quantum : N)
  (now : Ticks) : ScheduleEntry :=
  let d := fr_descriptor rt in
  mkScheduleEntry (rn_next_ordinal rd) Run (fd_flow d) (fd_generation d) 0
    (bd_id (fd_path d)) (bd_generation (fd_path d))
    (bd_id (fd_resource d)) (bd_generation (fd_resource d))
    (bd_id (fd_reservation d)) (bd_generation (fd_reservation d))
    (bd_id (fd_qos d)) (bd_generation (fd_qos d))
    (bd_id (fd_priority d)) (bd_generation (fd_priority d))
    quantum now (fd_deadline_tick d)
    (if bound (fd_reservation d) then reservation_window_end im (bd_id (fd_reservation d))
     else kNoWindowBound)
    (ok_tier key) Selected
    (bounded_detail ("tier " +:+ pretty (ok_tier key) +:+ " priority " +:+
                     pretty (ok_priority_rank key)))
    (digest_of_key key).

(** Pushes a Run entry and charges it to this round. *)
Definition grant (e : ScheduleEntry) (rd : Round) : Round :=
  let charged := rd
    <| rn_entries ::= fun l => l ++ [e] |>
    <| rn_next_ordinal ::= incr32 |>
    <| rn_pending_in_flight ::= fun m => <[ se_resource e := add64 (pending m (se_resource e)) 1 ]> m |>
    <| rn_pending_capacity ::= fun m =>
         <[ se_resource e := saturating_add (pending m (se_resource e)) (se_quantum e) ]> m |> in
  if id_valid (se_reservation e)
  then charged <| rn_pending_reservation ::= fun m =>
         <[ se_reservation e := saturating_add (pending m (se_reservation e)) (se_quantum e) ]> m |>
  else charged.

(** The end of the loop body: compute the window, and grant it or defer. *)
Definition place_window (c : Candidate) (now : Ticks) : RoundM unit :=
  let* (im, rd) := get in
  match im_flows im !! cd_flow c with
  | None => ret tt
  | Some rt =>
      match im_resources im !! bd_id (fd_resource (fr_descriptor rt)) with
      | None => ret tt
      | Some r =>
          let w := service_window im rd rt r now in
          if wd_quantum w =? 0
          then let reason := zero_quantum_reason w in
               deferring rt reason (reason_to_string reason)
          else modify_round (grant (run_entry im rd (cd_key c) rt (wd_quantum w) now))
      end
  end.

(** One turn of the placement loop. *)
Definition place_candidate (now : Ticks) (entry_limit : N) (c : Candidate) : RoundM unit :=
  let* (im, rd) := get in
  match im_flows im !! cd_flow c with
  | None => ret tt
  | Some rt =>
      if negb (bool_decide (fr_lifecycle rt = Ready)) then ret tt
      else if bool_decide (cd_flow c ∈ rn_decided rd) then ret tt
      else
        let '(still_ready, current) := derived_readiness im rt now in
        if negb still_ready then
          modify (fun '(im, rd) =>
            let '(im, o) := not_ready (cd_flow c) rt current now im (rn_outcome rd) in
            (im, rd <| rn_outcome := o |>))
        else if entry_limit <=? N.of_nat (length (rn_entries rd)) then
          deferring rt ScheduleEntryLimitReached "round entry bound reached"
        else
          let resource := bd_id (fd_resource (fr_descriptor rt)) in
          match im_resources im !! resource with
          | None =>
              deferring rt ResourceUnavailable
                "bound resource is missing or its generation advanced"
          | Some r =>
              if negb (rd_generation (rr_descriptor r) =? bd_generation (fd_resource (fr_descriptor rt)))
              then deferring rt ResourceUnavailable
                     "bound resource is missing or its generation advanced"
              else
                modify_impl (upd_resource resource (roll_interval now)) ;;;
                let* go :=
                  if rd_max_overlap (rr_descriptor r)
                     <=? add64 (rr_in_flight r) (pending (rn_pending_in_flight rd) resource)
                  then displace c rt now else ret true in
                if go then place_window c now else ret tt
          end
  end.

Fixpoint place_all (now : Ticks) (entry_limit : N) (cs : list Candidate) : RoundM unit :=
  match cs with
  | [] => ret tt
  | c :: rest => place_candidate now entry_limit c ;;; place_all now entry_limit rest
  end.

Definition entry_limit (p : SchedulingPolicy) : N :=
  let hard_entry_limit := kMaxJournalRecordPayload / kScheduleEntryBudgetBytes in
  if hard_entry_limit <? po_max_entries_per_schedule p then hard_entry_limit
  else po_max_entries_per_schedule p.

(** The throttle window rolls over with the tick. *)
Definition roll_preemption_window (now : Ticks) (im : Impl) : Impl :=
  let interval := po_preemption_interval_ticks (im_policy im) in
  let window := if interval =? 0 then 0 else now / interval in
  if negb (window =? im_preemption_window_index im)
  then im <| im_preemption_window_index := window |> <| im_preemptions_in_window := 0 |>
  else im.

Definition empty_round (o : ArbitrationOutcome) : Round := mkRound o [] ∅ 0 ∅ ∅ ∅.

(** ** The schedule of a round *)

Definition build_schedule (im : Impl) (entries : list ScheduleEntry) (now : Ticks) : Schedule :=
  let s := mkSchedule (im_next_schedule im) (im_next_schedule_generation im) (im_epoch im)
    (po_policy (im_policy im)) (po_generation (im_policy im)) (im_policy_binding im) now
    entries 0 (mkProvenance OInternal (im_provenance_sequence im) 0) in
  s <| sc_digest := compute_schedule_digest s |>.

Definition issue_schedule (entries : list ScheduleEntry) (now : Ticks)
  (o : ArbitrationOutcome) : Op ArbitrationOutcome :=
  match entries with
  | [] =>
      let* im := get in
      ret (o <| ao_schedule ::= fun s => s <| sc_at_tick := now |> <| sc_epoch := im_epoch im |>
             <| sc_policy := po_policy (im_policy im) |>
             <| sc_policy_generation := po_generation (im_policy im) |>
             <| sc_policy_binding := im_policy_binding im |> |>)
  | _ =>
      modify (fun im => im <| im_provenance_sequence ::= incr64 |>) ;;;
      let* im := get in
      let schedule := build_schedule im entries now in
      journal JScheduleIssued (write_schedule schedule) ;;;
      modify (apply_schedule schedule) ;;;
      let* next_schedule := lift (advance (im_next_schedule im)) in
      let* next_generation := lift (advance (im_next_schedule_generation im)) in
      modify (fun im => im <| im_next_schedule := next_schedule |>
                           <| im_next_schedule_generation := next_generation |>) ;;;
      ret (o <| ao_schedule := schedule |>)
  end.

Definition arbitrate (now : Ticks) : Op ArbitrationOutcome :=
  let* im := get in
  reject_if now <? im_last_tick im with InvalidArgument ;;
  modify (fun im => im <| im_last_tick := now |> <| im_arbitration_rounds ::= incr64 |>) ;;;
  let* o := (fun im =>
    let '(im, o) := reclaim_expired_deliveries now im empty_outcome in
    let '(im, o) := refresh_lifecycles now im o in (im, Ok o)) in
  let* im := get in
  close_overdue now (overdue_attempts now im) ;;;
  let* candidates := (fun im => let '(im, cs) := rank_candidates now im in (im, Ok cs)) in
  modify (roll_preemption_window now) ;;;
  let* im := get in
  let* rd := (fun im0 =>
    let '((im1, rd), r) :=
      place_all now (entry_limit (im_policy im)) candidates (im0, empty_round o) in
    (im1, match r with Ok _ => Ok rd | Err e => Err e end)) in
  let* outcome := issue_schedule (rn_entries rd) now (rn_outcome rd) in
  modify (normalize_transient_states now) ;;;
  modify maybe_retire_schedules ;;;
  ret outcome.
