(* ===== verification/Operations.v ===== *)
(** * The public operations

    Models the public methods of [Scheduler] in src/scheduler.cpp other than
    [arbitrate] and recovery: registration, the flow lifecycle, policy and
    epoch, dispatch, completion and the observers.  Each keeps the code's order
    of checks, of the journal append and of the in-memory transition. *)

From S2P Require Import Prelude Checked Bytes Hash Model Schedule Codec Journal State.
From S2P Require Import Transitions Arbitrate.

(** [last_tick_ = std::max(last_tick_, now)] *)
Definition observe_tick (now : Ticks) : Op unit :=
  modify (fun im => im <| im_last_tick ::= N.max now |>).

(** A new descriptor starts at generation 1 in a table with room for it; an
    update advances the known generation by exactly one. *)
Definition check_generation (known : option Generation) (new : Generation)
  (table_size bound : N) : Status :=
  match known with
  | None =>
      fail_if bound <=? table_size with Bounded ;;
      fail_if negb (new =? 1) with InvalidArgument ;; Ok tt
  | Some g =>
      let? expected := advance g in
      fail_if negb (new =? expected) with InvalidArgument ;; Ok tt
  end.

Definition map_size {V} (m : gmap N V) : N := N.of_nat (size m).

(** ** Registration *)

Definition register_resource (d : ResourceDescriptor) : Op unit :=
  lift (validate_resource d) ;;;
  let* im := get in
  lift (check_generation
          ((fun r => rd_generation (rr_descriptor r)) <$> im_resources im !! rd_resource d)
          (rd_generation d) (map_size (im_resources im)) (po_max_resources (im_policy im))) ;;;
  journal JResourceRegistered (write_resource d) ;;;
  modify (apply_resource d).

(** The resource binding shared by [register_reservation], [admit_flow] and
    [update_flow]. *)
Definition check_resource (im : Impl) (resource : ResourceId) (g : Generation) : Status :=
  match im_resources im !! resource with
  | None => Err UnknownResource
  | Some r =>
      fail_if negb (rd_generation (rr_descriptor r) =? g) with StaleResourceGeneration ;; Ok tt
  end.

Definition register_reservation (d : ReservationDescriptor) : Op unit :=
  lift (validate_reservation d) ;;;
  let* im := get in
  lift (check_resource im (rv_resource d) (rv_resource_generation d)) ;;;
  lift (check_generation
          ((fun v => rv_generation (vr_descriptor v)) <$> im_reservations im !! rv_reservation d)
          (rv_generation d) (map_size (im_reservations im))
          (po_max_reservations (im_policy im))) ;;;
  journal JReservationRegistered (write_reservation d) ;;;
  modify (apply_reservation d).

Definition retire_reservation (r : ReservationId) (g : Generation) : Op unit :=
  let* im := get in
  match im_reservations im !! r with
  | None => throw UnknownReservation
  | Some v =>
      reject_if negb (rv_generation (vr_descriptor v) =? g) with StaleReservationGeneration ;;
      if vr_retired v then ret tt
      else
        journal JReservationRetired [WU64 r; WU64 g] ;;;
        modify (apply_retire_reservation r g)
  end.

Definition register_priority_class (d : PriorityClassDescriptor) : Op unit :=
  lift (validate_priority_class d) ;;;
  let* im := get in
  lift (check_generation (pc_generation <$> im_priority_classes im !! pc_priority d)
          (pc_generation d) (map_size (im_priority_classes im)) kMaxPriorityClasses) ;;;
  journal JPriorityClassRegistered (write_priority_class d) ;;;
  modify (apply_priority_class d).

Definition register_qos_class (d : QoSClassDescriptor) : Op unit :=
  lift (validate_qos_class d) ;;;
  let* im := get in
  lift (check_generation (qc_generation <$> im_qos_classes im !! qc_qos d)
          (qc_generation d) (map_size (im_qos_classes im)) kMaxQoSClasses) ;;;
  journal JQoSClassRegistered (write_qos_class d) ;;;
  modify (apply_qos_class d).

(** ** Flow lifecycle *)

(** The binding checks of [admit_flow], in their order. *)
Definition check_bindings (im : Impl) (d : FlowDescriptor) : Status :=
  fail_if bool_decide (is_Some (im_flows im !! fd_flow d)) with AlreadyExists ;;
  let? _ := check_resource im (bd_id (fd_resource d)) (bd_generation (fd_resource d)) in
  match im_priority_classes im !! bd_id (fd_priority d) with
  | None => Err UnknownPolicy
  | Some pc =>
      fail_if negb (pc_generation pc =? bd_generation (fd_priority d))
        with StalePriorityGeneration ;;
      match im_qos_classes im !! bd_id (fd_qos d) with
      | None => Err UnknownPolicy
      | Some qc =>
          fail_if negb (qc_generation qc =? bd_generation (fd_qos d)) with StaleQoSGeneration ;;
          if bound (fd_reservation d) then
            match im_reservations im !! bd_id (fd_reservation d) with
            | None => Err UnknownReservation
            | Some v =>
                fail_if vr_retired v with UnknownReservation ;;
                fail_if negb (rv_generation (vr_descriptor v) =? bd_generation (fd_reservation d))
                  with StaleReservationGeneration ;;
                fail_if negb (rv_resource (vr_descriptor v) =? bd_id (fd_resource d))
                  with InvalidArgument ;;
                Ok tt
            end
          else Ok tt
      end
  end.

Definition admit_flow (d : FlowDescriptor) : Op unit :=
  lift (validate_flow d) ;;;
  let* im := get in
  lift (check_bindings im d) ;;;
  journal JFlowAdmitted (write_flow_descriptor d) ;;;
  apply_admit d.

Definition update_flow (d : FlowDescriptor) : Op unit :=
  lift (validate_flow d) ;;;
  let* im := get in
  match im_flows im !! fd_flow d with
  | None => throw UnknownFlow
  | Some rt =>
      let* expected := lift (advance (fd_generation (fr_descriptor rt))) in
      reject_if negb (fd_generation d =? expected) with InvalidArgument ;;
      reject_if
        (negb (bool_decide (fd_dependencies (fr_descriptor rt) = []))
         || negb (bool_decide (fd_dependencies d = []))
         || negb (fd_estimated_work (fr_descriptor rt) =? fd_estimated_work d))
        && (negb (bool_decide (fr_lifecycle rt = Waiting)) && (0 <? fr_served_work rt))
        with InvalidState ;;
      lift (check_resource im (bd_id (fd_resource d)) (bd_generation (fd_resource d))) ;;;
      journal JFlowUpdated (write_flow_descriptor d) ;;;
      apply_update d ;;;
      let* im := get in
      match im_flows im !! fd_flow d with
      | None => ret tt
      | Some rt =>
          if bool_decide (fr_lifecycle rt = Scheduled)
          then modify (release_held_window rt (im_last_tick im)) else ret tt
      end
  end.

(** The flow an operation names, at the generation it names. *)
Definition require_flow (flow : FlowId) (g : Generation) : Op FlowRuntime :=
  let* im := get in
  match im_flows im !! flow with
  | None => throw UnknownFlow
  | Some rt =>
      reject_if negb (fd_generation (fr_descriptor rt) =? g) with StaleFlowGeneration ;; ret rt
  end.

Definition cancel_flow (flow : FlowId) (g : Generation) (reason : string) (now : Ticks) : Op unit :=
  observe_tick now ;;;
  let* rt := require_flow flow g in
  if bool_decide (fr_lifecycle rt = Cancelled) then ret tt
  else
    reject_if is_terminal (fr_lifecycle rt) with InvalidState ;;
    journal JFlowCancelled [WU64 flow; WU64 g; WU64 now; WText (bounded_detail reason)] ;;;
    modify (apply_cancel flow g now) ;;;
    modify (normalize_transient_states now).

Definition notify_readiness (flow : FlowId) (g : Generation) (signal : ReadinessSignal)
  (now : Ticks) : Op unit :=
  observe_tick now ;;;
  let* rt := require_flow flow g in
  reject_if is_terminal (fr_lifecycle rt) with InvalidState ;;
  if fd_readiness_signal (fr_descriptor rt) =? signal_value signal then ret tt
  else
    journal JFlowReadinessChanged [WU64 flow; WU64 g; WU8 (signal_value signal); WU64 now] ;;;
    modify (apply_readiness flow g signal now).

Definition resolve_ambiguous (flow : FlowId) (g : Generation) (resolution : AmbiguityResolution)
  (now : Ticks) : Op unit :=
  observe_tick now ;;;
  let* rt := require_flow flow g in
  reject_if negb (bool_decide (fr_lifecycle rt = Ambiguous)) with InvalidState ;;
  journal JAmbiguityResolved
    [WU64 flow; WU64 g; WU8 (resolution_value resolution); WU64 now] ;;;
  modify (apply_ambiguity_resolved flow g resolution now).

Definition retire_flow (flow : FlowId) (g : Generation) : Op unit :=
  let* rt := require_flow flow g in
  reject_if negb (is_terminal (fr_lifecycle rt)) with InvalidState ;;
  journal JFlowRetired [WU64 flow; WU64 g] ;;;
  modify (apply_retire_flow flow g).

(** ** Policy and epoch *)

Definition install_policy (p : SchedulingPolicy) : Op unit :=
  lift (validate_policy p) ;;;
  let* im := get in
  let current := im_policy im in
  (if id_valid (po_policy current) && (po_policy p =? po_policy current) then
     let* expected := lift (advance (po_generation current)) in
     guard (negb (po_generation p =? expected)) InvalidArgument
   else guard (negb (po_generation p =? 1)) InvalidArgument) ;;;
  reject_if po_max_flows p <? map_size (im_flows im) with Bounded ;;
  journal JPolicyInstalled (write_policy p) ;;;
  modify (apply_policy p).

Definition epoch_record (previous next : FabricEpoch) (reason : EpochReason) (now : Ticks)
  : list WriteOp :=
  [WU64 previous; WU64 next; WU8 (epoch_reason_value reason); WU64 now].

Definition advance_epoch (reason : EpochReason) (now : Ticks) : Op FabricEpoch :=
  observe_tick now ;;;
  let* im := get in
  let previous := im_epoch im in
  let* next := lift (advance previous) in
  journal JEpochAdvanced (epoch_record previous next reason now) ;;;
  modify (apply_epoch_advance next now) ;;;
  ret next.

(** ** Dispatch *)

Definition release_schedule (schedule : ScheduleId) (g : Generation) (now : Ticks) : Op unit :=
  observe_tick now ;;;
  let* im := get in
  match find_schedule im schedule with
  | None => throw UnknownSchedule
  | Some s =>
      reject_if negb (sc_generation (sr_schedule s) =? g) with StaleScheduleGeneration ;;
      journal JScheduleReleased [WU64 schedule; WU64 now] ;;;
      modify (apply_release_schedule schedule now) ;;;
      modify (normalize_transient_states now)
  end.

(** The authority tuple [validate_ticket_fields] takes as its arguments. *)
Record Authority := mkAuthority {
  au_flow : Binding;
  au_resource : Binding;
  au_path : Binding;
  au_reservation : Binding;
  au_qos : Binding;
  au_priority : Binding;
  au_policy : Binding;
  au_epoch : FabricEpoch;
  au_deadline : Ticks;
  au_reservation_end : Ticks }.

Definition validate_reservation_field (im : Impl) (a : Authority) (now : Ticks) : Status :=
  if id_valid (bd_id (au_reservation a)) then
    match im_reservations im !! bd_id (au_reservation a) with
    | None => Err ReservationClosed
    | Some v =>
        fail_if vr_retired v with ReservationClosed ;;
        fail_if negb (rv_generation (vr_descriptor v) =? bd_generation (au_reservation a))
          with StaleReservationGeneration ;;
        fail_if negb (window_contains (vr_descriptor v) now) with ReservationClosed ;;
        Ok tt
    end
  else fail_if id_valid (bd_generation (au_reservation a)) with InvalidArgument ;; Ok tt.

Definition validate_ticket_fields (im : Impl) (a : Authority) (now : Ticks) : Status :=
  fail_if negb (id_valid (au_epoch a)) || negb (au_epoch a =? im_epoch im) with StaleEpoch ;;
  fail_if negb (bd_id (au_policy a) =? pb_policy (im_policy_binding im))
          || negb (bd_generation (au_policy a) =? pb_generation (im_policy_binding im))
    with StalePolicyGeneration ;;
  match im_flows im !! bd_id (au_flow a) with
  | None => Err UnknownFlow
  | Some rt =>
      let d := fr_descriptor rt in
      fail_if negb (fd_generation d =? bd_generation (au_flow a)) with StaleFlowGeneration ;;
      fail_if negb (bd_id (fd_path d) =? bd_id (au_path a))
              || negb (bd_generation (fd_path d) =? bd_generation (au_path a))
        with StalePathGeneration ;;
      let? _ := check_resource im (bd_id (au_resource a)) (bd_generation (au_resource a)) in
      match im_priority_classes im !! bd_id (au_priority a) with
      | None => Err UnknownPolicy
      | Some pc =>
          fail_if negb (pc_generation pc =? bd_generation (au_priority a))
            with StalePriorityGeneration ;;
          match im_qos_classes im !! bd_id (au_qos a) with
          | None => Err UnknownPolicy
          | Some qc =>
              fail_if negb (qc_generation qc =? bd_generation (au_qos a))
                with StaleQoSGeneration ;;
              let? _ := validate_reservation_field im a now in
              fail_if has_deadline (au_deadline a) && (au_deadline a <=? now)
                with DeadlinePassed ;;
              fail_if negb (au_reservation_end a =? kNoWindowBound)
                      && (au_reservation_end a <=? now) with ReservationClosed ;;
              Ok tt
          end
      end
  end.

Definition entry_authority (im : Impl) (e : ScheduleEntry) : Authority :=
  mkAuthority (mkBinding (se_flow e) (se_flow_generation e))
    (mkBinding (se_resource e) (se_resource_generation e))
    (mkBinding (se_path e) (se_path_generation e))
    (mkBinding (se_reservation e) (se_reservation_generation e))
    (mkBinding (se_qos e) (se_qos_generation e))
    (mkBinding (se_priority e) (se_priority_generation e))
    (mkBinding (po_policy (im_policy im)) (po_generation (im_policy im)))
    (im_epoch im) (se_deadline_tick e) (se_reservation_end e).

Definition ticket_authority (t : DispatchTicket) : Authority :=
  mkAuthority (mkBinding (tk_flow t) (tk_flow_generation t))
    (mkBinding (tk_resource t) (tk_resource_generation t))
    (mkBinding (tk_path t) (tk_path_generation t))
    (mkBinding (tk_reservation t) (tk_reservation_generation t))
    (mkBinding (tk_qos t) (tk_qos_generation t))
    (mkBinding (tk_priority t) (tk_priority_generation t))
    (mkBinding (tk_policy t) (tk_policy_generation t))
    (tk_epoch t) (tk_deadline_tick t) (tk_reservation_end t).

(** The ticket [begin_dispatch] issues for an entry. *)
Definition make_ticket (im : Impl) (schedule : ScheduleId) (g : Generation) (e : ScheduleEntry)
  (worker : WorkerId) (boot : BootId) (now : Ticks) : DispatchTicket :=
  let t := mkDispatchTicket (im_next_attempt im) (im_epoch im) schedule g
    (se_flow e) (se_flow_generation e) (se_path e) (se_path_generation e)
    (se_resource e) (se_resource_generation e) (se_reservation e)
    (se_reservation_generation e) (se_qos e) (se_qos_generation e)
    (se_priority e) (se_priority_generation e)
    (po_policy (im_policy im)) (po_generation (im_policy im)) worker boot now
    (se_deadline_tick e) (se_reservation_end e) (se_quantum e) AOpen 0 in
  t <| tk_digest := ticket_digest t |>.

(** The entry [begin_dispatch] may dispatch: every check before the authority
    tuple. *)
Definition dispatchable (im : Impl) (schedule : ScheduleId) (g : Generation) (ordinal : N)
  (worker : WorkerId) (boot : BootId) : Res (ScheduleEntry * FlowRuntime) :=
  fail_if negb (id_valid worker) || negb (id_valid boot) with InvalidArgument ;;
  match find_schedule im schedule with
  | None => Err UnknownSchedule
  | Some runtime =>
      fail_if negb (sc_generation (sr_schedule runtime) =? g) with StaleScheduleGeneration ;;
      fail_if negb (sc_epoch (sr_schedule runtime) =? im_epoch im) with StaleEpoch ;;
      match sc_entries (sr_schedule runtime) !! N.to_nat ordinal with
      | None => Err OutOfRange
      | Some e =>
          fail_if negb (is_run e) with InvalidArgument ;;
          fail_if negb (bool_decide (sr_consumed runtime !! N.to_nat ordinal = Some 0))
            with InvalidState ;;
          match im_flows im !! se_flow e with
          | None => Err UnknownFlow
          | Some rt =>
              fail_if negb (bool_decide (fr_lifecycle rt = Scheduled))
                      || negb (fr_scheduled_schedule rt =? schedule) with InvalidState ;;
              fail_if negb (fd_generation (fr_descriptor rt) =? se_flow_generation e)
                with StaleFlowGeneration ;;
              Ok (e, rt)
          end
      end
  end.

Definition begin_dispatch (schedule : ScheduleId) (g : Generation) (ordinal : N)
  (worker : WorkerId) (boot : BootId) (now : Ticks) : Op DispatchTicket :=
  observe_tick now ;;;
  let* im := get in
  let* (e, rt) := lift (dispatchable im schedule g ordinal worker boot) in
  lift (validate_ticket_fields im (entry_authority im e) now) ;;;
  let ticket := make_ticket im schedule g e worker boot now in
  journal JAttemptOpened
    (write_ticket ticket ++
     [WU64 (monus (fd_estimated_work (fr_descriptor rt)) (fr_served_work rt)); WU64 now]) ;;;
  modify (apply_attempt_opened ticket (tk_quantum ticket) now) ;;;
  modify (upd_schedule schedule (fun s =>
    s <| sr_consumed ::= <[ N.to_nat ordinal := 1 ]> |> <| sr_pending_entries ::= decr |>)) ;;;
  let* next := lift (advance (im_next_attempt im)) in
  modify (fun im => im <| im_next_attempt := next |>) ;;;
  ret ticket.

(** [revalidate_unlocked]; its state test can never fail, since every state is
    terminal, open or started. *)
Definition revalidate (im : Impl) (t : DispatchTicket) (now : Ticks) : Status :=
  fail_if tk_digest t =? 0 with InvalidArgument ;;
  fail_if negb (ticket_digest t =? tk_digest t) with ContradictoryCompletion ;;
  fail_if negb (is_attempt_terminal (tk_state t)) && negb (bool_decide (tk_state t = AOpen))
          && negb (bool_decide (tk_state t = AStarted)) with InvalidState ;;
  validate_ticket_fields im (ticket_authority t) now.

Definition mark_started (t : DispatchTicket) (now : Ticks) : Op unit :=
  observe_tick now ;;;
  let* im := get in
  match im_attempts im !! tk_attempt t with
  | None => throw UnknownAttempt
  | Some a =>
      reject_if is_attempt_terminal (at_state a) with CompletionForClosedAttempt ;;
      lift (revalidate im t now) ;;;
      if bool_decide (at_state a = AStarted) then ret tt
      else
        journal JAttemptStarted [WU64 (tk_attempt t); WU64 now] ;;;
        modify (apply_attempt_started (tk_attempt t) now)
  end.

Definition abandon_attempt (attempt : DispatchAttemptId) (reason : string) (now : Ticks)
  : Op unit :=
  observe_tick now ;;;
  let* im := get in
  match im_attempts im !! attempt with
  | None => throw UnknownAttempt
  | Some a =>
      if is_attempt_terminal (at_state a) then ret tt
      else
        close_attempt attempt AAbandoned reason now ;;;
        modify (normalize_transient_states now)
  end.

Definition preempt_attempt (attempt : DispatchAttemptId) (reason : string) (now : Ticks)
  : Op unit :=
  observe_tick now ;;;
  let* im := get in
  match im_attempts im !! attempt with
  | None => throw UnknownAttempt
  | Some a =>
      reject_if is_attempt_terminal (at_state a) with CompletionForClosedAttempt ;;
      close_attempt attempt APreempted reason now ;;;
      modify (fun im => im <| im_preemptions_issued ::= incr64 |>) ;;;
      modify (normalize_transient_states now)
  end.

(** ** Completion *)

(** What the checks of [complete] decide, before anything authoritative is
    written. *)
Inductive Verdict : Type :=
| Reject (code : ErrorCode) (counted_on_flow : bool)
| Duplicate (a : AttemptRuntime)
| Accept (a : AttemptRuntime).

(** The checks against the attempt the evidence names. *)
Definition judge_attempt (rt : FlowRuntime) (a : AttemptRuntime) (e : CompletionEvidence)
  (now : Ticks) : Verdict :=
  let t := at_ticket a in
  if negb (tk_flow t =? ev_flow e) || negb (tk_schedule t =? ev_schedule e)
  then Reject ContradictoryCompletion true
  else if negb (tk_schedule_generation t =? ev_schedule_generation e)
  then Reject StaleScheduleGeneration true
  else if negb (tk_worker t =? ev_worker e) || negb (tk_boot t =? ev_boot e)
  then Reject Fenced true
  else if is_attempt_terminal (at_state a) then
    if at_has_evidence a && (at_evidence_digest a =? evidence_digest e) then
      if bool_decide (at_state a = ACommitted) then Duplicate a
      else Reject CompletionForClosedAttempt true
    else if at_has_evidence a then Reject ContradictoryCompletion true
    else Reject CompletionForClosedAttempt true
  else if negb (fr_open_attempt rt =? ev_attempt e) then Reject StaleAttempt true
  else if tk_quantum t <? ev_served e then Reject ContradictoryCompletion true
  else if has_deadline (tk_deadline_tick t) && (tk_deadline_tick t <=? now)
          && bool_decide (ev_outcome e = CServed)
  then Reject DeadlinePassed true
  else Accept a.

Definition judge_completion (im : Impl) (e : CompletionEvidence) (now : Ticks) : Verdict :=
  if negb (established (ev_provenance e)) then Reject InvalidArgument false
  else if negb (evidence_bound e) then Reject InvalidArgument false
  else if kMaxServiceUnits <? ev_served e then Reject OutOfRange false
  else if negb (ev_epoch e =? im_epoch im) then Reject StaleEpoch false
  else
    match im_flows im !! ev_flow e with
    | None => Reject UnknownFlow false
    | Some rt =>
        if negb (fd_generation (fr_descriptor rt) =? ev_flow_generation e)
        then Reject StaleFlowGeneration true
        else
          match im_attempts im !! ev_attempt e with
          | None => Reject UnknownAttempt true
          | Some a => judge_attempt rt a e now
          end
    end.

Definition rejected (code : ErrorCode) : CommitOutcome :=
  mkCommitOutcome DRejected code Waiting 0 false 0.

Definition count_rejected (e : CompletionEvidence) (on_flow : bool) (im : Impl) : Impl :=
  let im1 := im <| im_completions_rejected ::= incr64 |> in
  if on_flow
  then upd_flow (ev_flow e) (fun rt => rt <| fr_accounting ::= fun a =>
         a <| ac_rejected_completions ::= incr64 |> |>) im1
  else im1.

Definition credit_of (e : CompletionEvidence) : N :=
  if bool_decide (ev_outcome e = CServed) then ev_served e else 0.

Definition lifecycle_after_completion (rt : FlowRuntime) (e : CompletionEvidence)
  : FlowLifecycle :=
  if bool_decide (ev_outcome e = CFailed) then Failed
  else if fd_estimated_work (fr_descriptor rt) <=? saturating_add (fr_served_work rt) (credit_of e)
  then Completed
  else Waiting.

(** A flow with remaining work is made ready at once when it can be. *)
Definition rearm (flow : FlowId) (credited : N) (now : Ticks) (im : Impl) : Impl :=
  match im_flows im !! flow with
  | None => im
  | Some rt =>
      if fst (derived_readiness im rt now)
      then transition flow Ready now Selected 0 0
             ("eligible again after " +:+ pretty credited +:+ " units of service") im
      else set_lifecycle flow Waiting now im
  end.

Definition commit_completion (e : CompletionEvidence) (now : Ticks) : Op CommitOutcome :=
  let* im := get in
  match im_flows im !! ev_flow e with
  | None => throw Internal
  | Some rt =>
      let credited := credit_of e in
      let lifecycle_after := lifecycle_after_completion rt e in
      journal JCompletionCommitted
        (write_evidence e ++
         [WU64 credited; WU8 (lifecycle_value lifecycle_after); WU64 now]) ;;;
      modify (apply_completion e credited lifecycle_after now) ;;;
      (if bool_decide (lifecycle_after = Waiting)
       then modify (rearm (ev_flow e) credited now) else ret tt) ;;;
      modify (normalize_transient_states now) ;;;
      let* im := get in
      let final := match im_flows im !! ev_flow e with
                   | None => Waiting
                   | Some rt => fr_lifecycle rt
                   end in
      ret (mkCommitOutcome Applied EOk final credited (bool_decide (final = Completed)) 0)
  end.

Definition complete (e : CompletionEvidence) (now : Ticks) : Op CommitOutcome :=
  observe_tick now ;;;
  modify (fun im => im <| im_completion_reports ::= incr64 |>) ;;;
  let* im := get in
  match judge_completion im e now with
  | Reject code on_flow =>
      modify (count_rejected e on_flow) ;;;
      ret (rejected code)
  | Duplicate a =>
      modify (fun im => im <| im_completions_duplicate ::= incr64 |>) ;;;
      modify (upd_flow (ev_flow e) (fun rt => rt <| fr_accounting ::= fun a =>
        a <| ac_duplicate_completions ::= incr64 |> |>)) ;;;
      let lifecycle := match im_flows im !! ev_flow e with
                       | None => Waiting
                       | Some rt => fr_lifecycle rt
                       end in
      ret (mkCommitOutcome IdempotentDuplicate DuplicateCompletion lifecycle (at_credited a)
             (bool_decide (lifecycle = Completed)) 0)
  | Accept _ => commit_completion e now
  end.

(** ** Observation *)

Definition count_lifecycle (l : FlowLifecycle) (im : Impl) : N :=
  foldl (fun n '(_, rt) => if bool_decide (fr_lifecycle rt = l) then incr64 n else n) 0
    (map_entries (im_flows im)).

Definition count_attempts (s : AttemptState) (im : Impl) : N :=
  foldl (fun n '(_, a) => if bool_decide (at_state a = s) then incr64 n else n) 0
    (map_entries (im_attempts im)).

(** The saturating sums over the flow table. *)
Definition sum_flows (f : FlowRuntime -> N) (im : Impl) : N :=
  foldl (fun n '(_, rt) => saturating_add n (f rt)) 0 (map_entries (im_flows im)).

(** [accounting], with the attempt counts of [account_unlocked]. *)
Definition accounting (im : Impl) : AccountingReport :=
  let total {V} (m : gmap N V) := foldl (fun n _ => incr64 n) 0 (map_entries m) in
  mkAccountingReport (total (im_flows im))
    (count_lifecycle Waiting im) (count_lifecycle Ready im) (count_lifecycle Scheduled im)
    (count_lifecycle Dispatched im) (count_lifecycle Running im)
    (count_lifecycle CompletionReported im) (count_lifecycle Cancelling im)
    (count_lifecycle Preempting im) (count_lifecycle Completed im)
    (count_lifecycle Cancelled im) (count_lifecycle Failed im) (count_lifecycle Ambiguous im)
    (total (im_attempts im)) (count_attempts AOpen im) (count_attempts AStarted im)
    (count_attempts ACommitted im) (count_attempts APreempted im)
    (count_attempts ACancelled im) (count_attempts AAbandoned im) (count_attempts ARejected im)
    (im_completion_reports im) (im_completions_applied im) (im_completions_duplicate im)
    (im_completions_rejected im) (im_schedules_issued im) (im_schedule_entries_issued im)
    (im_preemptions_issued im) (im_arbitration_rounds im)
    (sum_flows (fun rt => ac_starvation_boosts (fr_accounting rt)) im)
    (im_deadline_misses im) (im_reservations_retired im)
    (sum_flows fr_outstanding_reserved im)
    (sum_flows (fun rt => ac_service_credit (fr_accounting rt)) im)
    (sum_flows (fun rt => fd_estimated_work (fr_descriptor rt)) im)
    (im_epoch im) (rp_flows_restored (im_recovery im))
    (rp_attempts_abandoned (im_recovery im)).

Definition attempt (im : Impl) (id : DispatchAttemptId) : Res DispatchTicket :=
  match im_attempts im !! id with
  | None => Err UnknownAttempt
  | Some a => Ok ((at_ticket a) <| tk_state := at_state a |>)
  end.

Definition schedule (im : Impl) (id : ScheduleId) : Res Schedule :=
  match find_schedule im id with
  | None => Err UnknownSchedule
  | Some s => Ok (sr_schedule s)
  end.

Definition journal_position (im : Impl) : N :=
  match im_store im with None => 0 | Some ds => ds_last_sequence ds end.
