(* ===== verification/Recovery.v ===== *)
(** * Snapshots, replay and recovery

    Models the durable half of src/scheduler.cpp: [encode_state_snapshot],
    [apply_state_snapshot], [apply_record], [recover], [checkpoint],
    [initialize] and [Scheduler::create]. *)

From S2P Require Import Prelude Checked Bytes Hash Model Schedule Codec Journal State.
From S2P Require Import Transitions Arbitrate Operations.

(** ** The state image *)

Definition write_resource_runtime (r : ResourceRuntime) : list WriteOp :=
  write_resource (rr_descriptor r) ++
  [WU64 (rr_interval_index r); WBool (rr_interval_initialized r);
   WU64 (rr_reserved_this_interval r); WU64 (rr_in_flight r)].

Definition write_reservation_runtime (v : ReservationRuntime) : list WriteOp :=
  write_reservation (vr_descriptor v) ++ [WU64 (vr_reserved_units v); WBool (vr_retired v)].

Definition write_flow_accounting (a : FlowAccounting) : list WriteOp :=
  [WU64 (ac_service_credit a); WU64 (ac_dispatches_issued a); WU64 (ac_dispatches_started a);
   WU64 (ac_completions_committed a); WU64 (ac_duplicate_completions a);
   WU64 (ac_rejected_completions a); WU64 (ac_preemptions a); WU64 (ac_deadline_misses a);
   WU64 (ac_wait_ticks_total a); WU64 (ac_starvation_boosts a)].

Definition write_flow_runtime (rt : FlowRuntime) : list WriteOp :=
  write_flow_descriptor (fr_descriptor rt) ++
  [WU8 (lifecycle_value (fr_lifecycle rt)); WU64 (fr_served_work rt);
   WU64 (fr_outstanding_reserved rt); WU64 (fr_open_attempt rt);
   WU64 (fr_scheduled_schedule rt); WU64 (fr_scheduled_generation rt);
   WU32 (fr_scheduled_ordinal rt); WU64 (fr_scheduled_tick rt); WU64 (fr_last_change_tick rt);
   WU64 (fr_eligible_since_tick rt); WBool (fr_ever_ready rt);
   WU64 (fr_min_service_window_start rt); WU64 (fr_min_service_delivered rt);
   WU64 (fr_virtual_finish rt); WBool (fr_deadline_missed_counted rt)] ++
  write_flow_accounting (fr_accounting rt).

Definition write_attempt_runtime (a : AttemptRuntime) : list WriteOp :=
  write_ticket (at_ticket a) ++
  [WU8 (attempt_state_value (at_state a)); WU64 (at_opened_tick a); WU64 (at_closed_tick a);
   WBool (at_has_evidence a); WU64 (at_evidence_digest a); WU64 (at_credited a)].

Definition write_schedule_runtime (s : ScheduleRuntime) : list WriteOp :=
  write_schedule (sr_schedule s) ++
  [WU64 (N.of_nat (length (sr_consumed s)))] ++ (WU8 <$> sr_consumed s) ++
  [WU64 (sr_open_attempts s); WU64 (sr_pending_entries s)].

Definition write_clock (c : N * N) : list WriteOp := [WU64 c.1; WU64 c.2].

(** [writer.u64(map.size()); for (entry : map) write(entry.second)] *)
Definition write_table {V} (wr : V -> list WriteOp) (m : gmap N V) : list WriteOp :=
  WU64 (map_size m) :: ((map_entries m).*2 ≫= wr).

Definition snapshot_ops (im : Impl) : list WriteOp :=
  [WU16 kDurableFormatGeneration; WU64 (im_epoch im)] ++ write_policy (im_policy im) ++
  [WU64 (im_last_tick im)] ++
  write_table write_resource_runtime (im_resources im) ++
  write_table write_reservation_runtime (im_reservations im) ++
  write_table write_priority_class (im_priority_classes im) ++
  write_table write_qos_class (im_qos_classes im) ++
  write_table write_flow_runtime (im_flows im) ++
  write_table write_attempt_runtime (im_attempts im) ++
  write_table write_schedule_runtime (im_schedules im) ++
  (WU64 (map_size (im_virtual_time im)) :: (map_entries (im_virtual_time im) ≫= write_clock)) ++
  [WU64 (im_next_attempt im); WU64 (im_next_schedule im);
   WU64 (im_next_schedule_generation im); WU64 (im_arbitration_rounds im);
   WU64 (im_schedules_issued im); WU64 (im_schedule_entries_issued im);
   WU64 (im_completion_reports im); WU64 (im_completions_applied im);
   WU64 (im_completions_duplicate im); WU64 (im_completions_rejected im);
   WU64 (im_deadline_misses im); WU64 (im_preemptions_issued im);
   WU64 (im_reservations_retired im)].

(** The empty string stands for an image that exceeds the bound. *)
Definition encode_state_snapshot (im : Impl) : bytes :=
  let w := write_all (snapshot_ops im) (new_writer kMaxSnapshotPayload) in
  if rw_overflowed w then [] else rw_buffer w.

Definition read_resource_runtime : Reader ResourceRuntime :=
  let! descriptor := read_resource in
  let! interval_index := r_u64 in
  let! interval_initialized := r_boolean in
  let! reserved_this_interval := r_u64 in
  let! in_flight := r_u64 in
  r_ret (mkResourceRuntime descriptor interval_index interval_initialized
           reserved_this_interval in_flight).

Definition read_reservation_runtime : Reader ReservationRuntime :=
  let! descriptor := read_reservation in
  let! reserved_units := r_u64 in
  let! retired := r_boolean in
  r_ret (mkReservationRuntime descriptor reserved_units retired).

Definition read_flow_accounting : Reader FlowAccounting :=
  let! service_credit := r_u64 in
  let! dispatches_issued := r_u64 in
  let! dispatches_started := r_u64 in
  let! completions_committed := r_u64 in
  let! duplicate_completions := r_u64 in
  let! rejected_completions := r_u64 in
  let! preemptions := r_u64 in
  let! deadline_misses := r_u64 in
  let! wait_ticks_total := r_u64 in
  let! starvation_boosts := r_u64 in
  r_ret (mkFlowAccounting service_credit dispatches_issued dispatches_started
           completions_committed duplicate_completions rejected_completions preemptions
           deadline_misses wait_ticks_total starvation_boosts).

(** The history and the starvation flag are not part of the image. *)
Definition read_flow_runtime : Reader FlowRuntime :=
  let! descriptor := read_flow_descriptor in
  let! lifecycle := r_enum lifecycle_of_value CorruptData in
  let! served_work := r_u64 in
  let! outstanding_reserved := r_u64 in
  let! open_attempt := r_u64 in
  let! scheduled_schedule := r_u64 in
  let! scheduled_generation := r_u64 in
  let! scheduled_ordinal := r_u32 in
  let! scheduled_tick := r_u64 in
  let! last_change_tick := r_u64 in
  let! eligible_since_tick := r_u64 in
  let! ever_ready := r_boolean in
  let! min_service_window_start := r_u64 in
  let! min_service_delivered := r_u64 in
  let! virtual_finish := r_u64 in
  let! deadline_missed_counted := r_boolean in
  let! accounting := read_flow_accounting in
  r_ret (mkFlowRuntime descriptor lifecycle served_work outstanding_reserved open_attempt
           scheduled_schedule scheduled_generation scheduled_ordinal scheduled_tick
           last_change_tick eligible_since_tick ever_ready min_service_window_start
           min_service_delivered virtual_finish deadline_missed_counted false accounting
           [] false).

Definition read_attempt_runtime : Reader AttemptRuntime :=
  let! ticket := read_ticket in
  let! state := r_enum attempt_state_of_value CorruptData in
  let! opened_tick := r_u64 in
  let! closed_tick := r_u64 in
  let! has_evidence := r_boolean in
  let! evidence_digest := r_u64 in
  let! credited := r_u64 in
  r_ret (mkAttemptRuntime ticket state opened_tick closed_tick has_evidence evidence_digest
           credited "").

Definition read_consumed : Reader N :=
  let! consumed := r_u8 in
  r_fail_if 2 <? consumed with CorruptData ;; r_ret consumed.

Definition read_schedule_runtime : Reader ScheduleRuntime :=
  let! schedule := read_schedule in
  let! consumed_count := r_u64 in
  r_fail_if negb (consumed_count =? N.of_nat (length (sc_entries schedule))) with CorruptData ;;
  let! consumed := r_repeat (N.to_nat consumed_count) read_consumed in
  let! open_attempts := r_u64 in
  let! pending_entries := r_u64 in
  r_ret (mkScheduleRuntime schedule consumed open_attempts pending_entries).

Definition read_clock : Reader (N * N) :=
  let! group := r_u64 in let! clock := r_u64 in r_ret (group, clock).

(** A counted sequence, refused as corrupt above [bound]. *)
Definition read_counted {V} (bound : N) (rd : Reader V) : Reader (list V) :=
  let! count := r_u64 in
  r_fail_if bound <? count with CorruptData ;; r_repeat (N.to_nat count) rd.

Definition table_of {V} (key : V -> N) (l : list V) : gmap N V :=
  foldl (fun m v => <[ key v := v ]> m) ∅ l.

(** What [apply_state_snapshot] reads before it validates the policy. *)
Definition read_image_head : Reader (N * SchedulingPolicy) :=
  let! epoch := r_u64 in let! policy := read_policy in r_ret (epoch, policy).

(** The rest of the image, into the state whose tables were cleared. *)
Definition read_image_tail (im : Impl) : Reader Impl :=
  let p := im_policy im in
  let! last_tick := r_u64 in
  let! resources := read_counted (po_max_resources p) read_resource_runtime in
  let! reservations := read_counted (po_max_reservations p) read_reservation_runtime in
  let! priority_classes := read_counted kMaxPriorityClasses read_priority_class in
  let! qos_classes := read_counted kMaxQoSClasses read_qos_class in
  let! flows := read_counted (po_max_flows p) read_flow_runtime in
  let! attempts := read_counted (po_retained_schedule_history p + 1) read_attempt_runtime in
  let! schedules := read_counted (po_retained_schedule_history p + 1) read_schedule_runtime in
  let! clocks := read_counted (po_max_flows p) read_clock in
  let! next_attempt := r_u64 in
  let! next_schedule := r_u64 in
  let! next_schedule_generation := r_u64 in
  let! arbitration_rounds := r_u64 in
  let! schedules_issued := r_u64 in
  let! schedule_entries_issued := r_u64 in
  let! completion_reports := r_u64 in
  let! completions_applied := r_u64 in
  let! completions_duplicate := r_u64 in
  let! completions_rejected := r_u64 in
  let! deadline_misses := r_u64 in
  let! preemptions_issued := r_u64 in
  let! reservations_retired := r_u64 in
  let attempt_table := table_of (fun a => tk_attempt (at_ticket a)) attempts in
  r_ret (mkImpl p (im_policy_binding im) (im_epoch im)
    (table_of (fun rt => fd_flow (fr_descriptor rt)) flows)
    (table_of (fun r => rd_resource (rr_descriptor r)) resources)
    (table_of (fun v => rv_reservation (vr_descriptor v)) reservations)
    (table_of pc_priority priority_classes) (table_of qc_qos qos_classes)
    (foldl (fun m c => <[ c.1 := c.2 ]> m) ∅ clocks)
    (im_waiting_index im) (im_ready_index im) (im_inflight_index im)
    attempt_table
    (table_of (fun s => sc_schedule (sr_schedule s)) schedules)
    (foldl (fun m c => let s := tk_schedule (at_ticket (snd c)) in
                       <[ s := default [] (m !! s) ++ [fst c] ]> m) ∅ (map_entries attempt_table))
    ((fun s => sc_schedule (sr_schedule s)) <$> schedules)
    next_attempt next_schedule next_schedule_generation last_tick (im_provenance_sequence im)
    arbitration_rounds schedules_issued schedule_entries_issued completion_reports
    completions_applied completions_duplicate completions_rejected deadline_misses
    preemptions_issued (im_preemption_window_index im) (im_preemptions_in_window im)
    reservations_retired (im_store im) (im_recovery im)).

(** The tables are overwritten as they are read, so a failing image leaves a
    partly restored state; [create] then returns the error and the object is
    dropped, so the state of a failure is not modelled further. *)
Definition parse_state_image (im : Impl) (image : bytes) : Res Impl :=
  let? (format, rest) := r_u16 image in
  fail_if negb (format =? kDurableFormatGeneration) with Unsupported ;;
  let? ((epoch, policy), rest) := read_image_head rest in
  let? _ := validate_policy policy in
  let? (im1, rest) := read_image_tail (apply_policy policy (im <| im_epoch := epoch |>)) rest in
  match rest with
  | _ :: _ => Err CorruptData
  | [] => Ok (reindex_all im1)
  end.

Definition note_restored (im : Impl) : Impl :=
  im <| im_recovery ::= fun r =>
    r <| rp_resources_restored := map_size (im_resources im) |>
      <| rp_reservations_restored := map_size (im_reservations im) |>
      <| rp_priority_classes_restored := map_size (im_priority_classes im) |>
      <| rp_qos_classes_restored := map_size (im_qos_classes im) |>
      <| rp_flows_restored := map_size (im_flows im) |> |>.

Definition apply_state_snapshot (image : bytes) : Op unit := fun im =>
  match parse_state_image im image with
  | Ok im1 => (note_restored im1, Ok tt)
  | Err e => (im, Err e)
  end.

(** ** Replay *)

(** Parse the whole payload, then run the transition, then require that no
    bytes are left: the order of [apply_record]. *)
Definition replay_with {A} (rd : Reader A) (act : A -> Op unit) (payload : bytes) : Op unit :=
  let* (a, rest) := lift (rd payload) in
  act a ;;;
  lift (require_exhausted CorruptData rest).

Definition read_epoch_record : Reader (FabricEpoch * Ticks) :=
  let! _ := r_u64 in
  let! next := r_u64 in
  let! _ := r_enum epoch_reason_of_value CorruptData in
  let! tick := r_u64 in
  r_ret (next, tick).

Definition read_readiness_record : Reader (N * N * ReadinessSignal * Ticks) :=
  let! flow := r_u64 in
  let! generation := r_u64 in
  let! signal := r_enum signal_of_value CorruptData in
  let! tick := r_u64 in
  r_ret (flow, generation, signal, tick).

(** A cancellation is journaled with its reason, which replay does not read. *)
Definition read_cancel_record : Reader (N * N * Ticks) :=
  let! flow := r_u64 in
  let! generation := r_u64 in
  let! tick := r_u64 in
  r_ret (flow, generation, tick).

Definition read_ids : Reader (N * N) :=
  let! a := r_u64 in let! b := r_u64 in r_ret (a, b).

Definition read_opened_record : Reader (DispatchTicket * N * Ticks) :=
  let! ticket := read_ticket in
  let! nominal := r_u64 in
  let! tick := r_u64 in
  r_ret (ticket, nominal, tick).

Definition read_closed_record : Reader (N * AttemptState * Ticks * string) :=
  let! attempt := r_u64 in
  let! state := r_enum attempt_state_of_value CorruptData in
  let! tick := r_u64 in
  let! detail := r_text in
  r_ret (attempt, state, tick, detail).

Definition read_completion_record : Reader (CompletionEvidence * N * FlowLifecycle * Ticks) :=
  let! evidence := read_evidence in
  let! credited := r_u64 in
  let! lifecycle := r_enum lifecycle_of_value CorruptData in
  let! tick := r_u64 in
  r_ret (evidence, credited, lifecycle, tick).

Definition read_resolution_record : Reader (N * N * AmbiguityResolution * Ticks) :=
  let! flow := r_u64 in
  let! generation := r_u64 in
  let! resolution := r_enum resolution_of_value CorruptData in
  let! tick := r_u64 in
  r_ret (flow, generation, resolution, tick).

Definition apply_record (view : JournalRecordView) : Op unit :=
  let p := jv_payload view in
  match record_type_of_value (jv_type view) with
  | Some JPolicyInstalled =>
      replay_with read_policy (fun x => lift (validate_policy x) ;;; modify (apply_policy x)) p
  | Some JResourceRegistered =>
      replay_with read_resource
        (fun x => lift (validate_resource x) ;;; modify (apply_resource x)) p
  | Some JReservationRegistered =>
      replay_with read_reservation
        (fun x => lift (validate_reservation x) ;;; modify (apply_reservation x)) p
  | Some JReservationRetired =>
      replay_with read_ids (fun x => modify (apply_retire_reservation x.1 x.2)) p
  | Some JPriorityClassRegistered =>
      replay_with read_priority_class
        (fun x => lift (validate_priority_class x) ;;; modify (apply_priority_class x)) p
  | Some JQoSClassRegistered =>
      replay_with read_qos_class
        (fun x => lift (validate_qos_class x) ;;; modify (apply_qos_class x)) p
  | Some JEpochAdvanced =>
      replay_with read_epoch_record (fun x => modify (apply_epoch_advance x.1 x.2)) p
  | Some JFlowAdmitted =>
      replay_with read_flow_descriptor (fun x => lift (validate_flow x) ;;; apply_admit x) p
  | Some JFlowUpdated =>
      replay_with read_flow_descriptor (fun x => lift (validate_flow x) ;;; apply_update x) p
  | Some JFlowReadinessChanged =>
      replay_with read_readiness_record
        (fun x => let '(f, g, s, t) := x in modify (apply_readiness f g s t)) p
  | Some JFlowCancelled =>
      replay_with read_cancel_record
        (fun x => let '(f, g, t) := x in
           modify (apply_cancel f g t) ;;; modify (normalize_transient_states t)) p
  | Some JFlowRetired => replay_with read_ids (fun x => modify (apply_retire_flow x.1 x.2)) p
  | Some JScheduleIssued => replay_with read_schedule (fun x => modify (apply_schedule x)) p
  | Some JScheduleReleased =>
      replay_with read_ids (fun x => modify (apply_release_schedule x.1 x.2)) p
  | Some JAttemptOpened =>
      replay_with read_opened_record
        (fun x => let '(tk, n, t) := x in modify (apply_attempt_opened tk n t)) p
  | Some JAttemptStarted =>
      replay_with read_ids (fun x => modify (apply_attempt_started x.1 x.2)) p
  | Some JAttemptClosed =>
      replay_with read_closed_record
        (fun x => let '(a, s, t, d) := x in
           modify (apply_attempt_closed a s d t) ;;; modify (normalize_transient_states t)) p
  | Some JCompletionCommitted =>
      replay_with read_completion_record
        (fun x => let '(e, c, l, t) := x in modify (apply_completion e c l t)) p
  | Some JAmbiguityResolved =>
      replay_with read_resolution_record
        (fun x => let '(f, g, r, t) := x in modify (apply_ambiguity_resolved f g r t)) p
  | Some JCheckpoint | Some JUnknown => ret tt
  | None => throw Unsupported
  end.

(** ** Opening a scheduler *)

(** Runs a method of the store. *)
Definition on_store {A} (m : StoreM A) : Op A := fun im =>
  match im_store im with
  | None => (im, Err Internal)
  | Some ds => let '(ds, r) := m ds in (im <| im_store := Some ds |>, r)
  end.

Definition load_snapshot : Op bool := fun im =>
  match on_store read_snapshot im with
  | (im, Ok image) =>
      (apply_state_snapshot image ;;;
       modify (fun im => im <| im_recovery ::= fun r => r <| rp_snapshot_records := 1 |> |>) ;;;
       ret true) im
  | (im, Err NotFound) => (im, Ok false)
  | (im, Err e) => (im, Err e)
  end.

Definition replay_journal : Op JournalScanReport := fun im =>
  match im_store im with
  | None => (im, Err Internal)
  | Some ds =>
      let '((ds, im), r) := replay true apply_record ds im in
      (im <| im_store := Some ds |>, r)
  end.

(** What [recover] notes about the replay. *)
Definition note_replayed (have_snapshot : bool) (report : JournalScanReport) (im : Impl) : Impl :=
  let torn := match im_store im with None => false | Some ds => ds_open_tail_truncated ds end in
  im <| im_recovery ::= fun r =>
    r <| rp_journal_records_replayed := jr_records report |>
      <| rp_journal_bytes_replayed := jr_bytes report |>
      <| rp_tail_truncated := jr_tail_truncated report || torn |>
      <| rp_recovered := have_snapshot || (0 <? jr_records report) |>
      <| rp_epoch_before := im_epoch im |> |>.

(** Its end: the epoch that fences everything issued before the restart. *)
Definition fence_recovered : Op unit :=
  let* im := get in
  let previous := im_epoch im in
  let* next := lift (advance previous) in
  journal JEpochAdvanced (epoch_record previous next ReasonRecovery (im_last_tick im)) ;;;
  modify (apply_epoch_advance next (im_last_tick im)) ;;;
  modify (fun im => im <| im_recovery ::= fun r => r <| rp_epoch_after := im_epoch im |> |>).

Definition recover : Op unit :=
  let* have_snapshot := load_snapshot in
  let* report := replay_journal in
  modify (note_replayed have_snapshot report) ;;;
  modify note_restored ;;;
  fence_recovered.

(** [Scheduler::create] in volatile mode, and over a directory whose files
    hold [journal] and [snapshot]. *)
Definition create_volatile (p : SchedulingPolicy) : Res Impl :=
  let? _ := validate_policy p in Ok ((initial_impl p) <| im_epoch := 1 |>).

Definition create_durable (p : SchedulingPolicy) (journal_file : bytes)
  (snapshot_file : option bytes) (flush : bool) (io : list IoEvent) : Res Impl :=
  let? _ := validate_policy p in
  let? ds := open journal_file snapshot_file flush io in
  match recover ((initial_impl p) <| im_store := Some ds |>) with
  | (im, Ok _) => Ok im
  | (_, Err e) => Err e
  end.

Definition checkpoint : Op unit := fun im =>
  match im_store im with
  | None => (im, Ok tt)
  | Some _ =>
      match encode_state_snapshot im with
      | [] => (im, Err Bounded)
      | image => on_store (compact image) im
      end
  end.
