(* ===== verification/Observe.v ===== *)
(** * Observation

    Models the read side of the scheduler: the observers of src/scheduler.cpp
    ([flow], [explain_flow], [explain_schedule], the counters, the epoch and the
    policy), the facade calls that read the current tick, the printed names of
    the enumerations, and the one-line renderings ([Schedule::canonical_form],
    [AccountingReport::to_string]).

    The theorem groups: what an observer returns is a projection of the state
    that the other theorems are about, and printed names identify their
    constructors. *)

From S2P Require Import Prelude Checked Bytes Hash Model Schedule Codec Journal State.
From S2P Require Import Transitions Arbitrate Operations Recovery.

(** ** Printed names *)

Definition error_code_string (x : ErrorCode) : string :=
  match x with
  | EOk => "ok"
  | InvalidArgument => "invalid-argument"
  | OutOfRange => "out-of-range"
  | ArithmeticOverflow => "arithmetic-overflow"
  | Bounded => "bound-exceeded"
  | Unsupported => "unsupported"
  | Internal => "internal"
  | NotFound => "not-found"
  | AlreadyExists => "already-exists"
  | UnknownFlow => "unknown-flow"
  | UnknownSchedule => "unknown-schedule"
  | UnknownResource => "unknown-resource"
  | UnknownReservation => "unknown-reservation"
  | UnknownAttempt => "unknown-attempt"
  | UnknownPolicy => "unknown-policy"
  | UnknownWorker => "unknown-worker"
  | StaleFlowGeneration => "stale-flow-generation"
  | StalePathGeneration => "stale-path-generation"
  | StaleResourceGeneration => "stale-resource-generation"
  | StaleReservationGeneration => "stale-reservation-generation"
  | StalePolicyGeneration => "stale-policy-generation"
  | StaleQoSGeneration => "stale-qos-generation"
  | StalePriorityGeneration => "stale-priority-generation"
  | StaleScheduleGeneration => "stale-schedule-generation"
  | StaleEpoch => "stale-epoch"
  | StaleAttempt => "stale-attempt"
  | StaleAuthority => "stale-authority"
  | Fenced => "fenced"
  | InvalidState => "invalid-state"
  | NotReady => "not-ready"
  | NotReleased => "not-released"
  | DependencyUnsatisfied => "dependency-unsatisfied"
  | CapacityUnavailable => "capacity-unavailable"
  | ReservationClosed => "reservation-closed"
  | EReservationExhausted => "reservation-exhausted"
  | DeadlinePassed => "deadline-passed"
  | ECancelled => "cancelled"
  | ZeroQuantum => "zero-quantum"
  | ConcurrencyLimit => "concurrency-limit"
  | NotPreemptible => "not-preemptible"
  | EPreemptionThrottled => "preemption-throttled"
  | DuplicateCompletion => "duplicate-completion"
  | ContradictoryCompletion => "contradictory-completion"
  | CompletionForClosedAttempt => "completion-for-closed-attempt"
  | AmbiguousOutcome => "ambiguous-outcome"
  | CorruptData => "corrupt-data"
  | Truncated => "truncated"
  | Oversized => "oversized"
  | SequenceGap => "sequence-gap"
  | IoFailure => "io-failure"
  | TransportFailure => "transport-failure"
  | PeerClosed => "peer-closed"
  | HandshakeRejected => "handshake-rejected"
  | ProtocolViolation => "protocol-violation"
  | Busy => "busy"
  end.

Definition origin_string (x : ProvenanceOrigin) : string :=
  match x with
  | OUnknown => "unknown"
  | OExternal => "external"
  | OInternal => "internal"
  | ORecovered => "recovered"
  | OSynthetic => "synthetic"
  end.

Definition lifecycle_string (x : FlowLifecycle) : string :=
  match x with
  | Waiting => "waiting"
  | Ready => "ready"
  | Scheduled => "scheduled"
  | Dispatched => "dispatched"
  | Running => "running"
  | CompletionReported => "completion-reported"
  | Completed => "completed"
  | Cancelling => "cancelling"
  | Cancelled => "cancelled"
  | Preempting => "preempting"
  | Failed => "failed"
  | Ambiguous => "ambiguous"
  end.

Definition bucket_string (x : AccountingBucket) : string :=
  match x with
  | BWaiting => "waiting"
  | BReady => "ready"
  | BScheduled => "scheduled"
  | BInFlight => "in-flight"
  | BCompleted => "completed"
  | BCancelled => "cancelled"
  | BFailed => "failed"
  | BAmbiguous => "ambiguous"
  end.

Definition kind_string (x : DecisionKind) : string :=
  match x with
  | Run => "run"
  | Preempt => "preempt"
  end.

Definition preemption_string (x : PreemptionMode) : string :=
  match x with
  | PNone => "none"
  | PStrictPriority => "strict-priority"
  | PDeadline => "deadline"
  | PTiered => "tiered"
  end.

Definition record_type_string (x : JournalRecordType) : string :=
  match x with
  | JUnknown => "unknown"
  | JPolicyInstalled => "policy-installed"
  | JResourceRegistered => "resource-registered"
  | JReservationRegistered => "reservation-registered"
  | JReservationRetired => "reservation-retired"
  | JPriorityClassRegistered => "priority-class-registered"
  | JQoSClassRegistered => "qos-class-registered"
  | JEpochAdvanced => "epoch-advanced"
  | JFlowAdmitted => "flow-admitted"
  | JFlowUpdated => "flow-updated"
  | JFlowReadinessChanged => "flow-readiness-changed"
  | JFlowCancelled => "flow-cancelled"
  | JFlowRetired => "flow-retired"
  | JScheduleIssued => "schedule-issued"
  | JScheduleReleased => "schedule-released"
  | JAttemptOpened => "attempt-opened"
  | JAttemptStarted => "attempt-started"
  | JAttemptClosed => "attempt-closed"
  | JCompletionCommitted => "completion-committed"
  | JAmbiguityResolved => "ambiguity-resolved"
  | JCheckpoint => "checkpoint"
  end.

Definition attempt_state_string (x : AttemptState) : string :=
  match x with
  | AOpen => "open"
  | AStarted => "started"
  | ACommitted => "committed"
  | APreempted => "preempted"
  | ACancelled => "cancelled"
  | AAbandoned => "abandoned"
  | ARejected => "rejected"
  end.

Definition completion_outcome_string (x : CompletionOutcome) : string :=
  match x with
  | CServed => "served"
  | CNoService => "no-service"
  | CFailed => "failed"
  end.

Definition disposition_string (x : CommitDisposition) : string :=
  match x with
  | Applied => "applied"
  | IdempotentDuplicate => "idempotent-duplicate"
  | DRejected => "rejected"
  end.

Definition epoch_reason_string (x : EpochReason) : string :=
  match x with
  | ReasonExplicit => "explicit"
  | ReasonCoordinatorRestart => "coordinator-restart"
  | ReasonPolicyChange => "policy-change"
  | ReasonTopologyChange => "topology-change"
  | ReasonRecovery => "recovery"
  end.

Definition resolution_string (x : AmbiguityResolution) : string :=
  match x with
  | Retry => "retry"
  | Abandon => "abandon"
  end.

(** [to_string] of an identity: its family, a hash sign, its value. *)
Definition id_string (family : string) (id : N) : string := family +:+ "#" +:+ pretty id.

Definition provenance_string (p : Provenance) : string :=
  origin_string (pv_origin p) +:+ "/seq=" +:+ pretty (pv_sequence p) +:+ "/digest=" +:+
  pretty (pv_digest p).

(** [Error::to_string] of an error with this message. *)
Definition error_to_string (code : ErrorCode) (message : string) : string :=
  if bool_decide (code = EOk) then "ok"
  else
    match message with
    | EmptyString => error_code_string code
    | _ => error_code_string code +:+ ": " +:+ message
    end.

Definition is_transient (code : ErrorCode) : bool :=
  match code with
  | NotReady | NotReleased | DependencyUnsatisfied | CapacityUnavailable | ReservationClosed
  | EReservationExhausted | ConcurrencyLimit | EPreemptionThrottled | Busy => true
  | _ => false
  end.

Definition is_staleness (code : ErrorCode) : bool :=
  match code with
  | StaleFlowGeneration | StalePathGeneration | StaleResourceGeneration
  | StaleReservationGeneration | StalePolicyGeneration | StaleQoSGeneration
  | StalePriorityGeneration | StaleScheduleGeneration | StaleEpoch | StaleAttempt
  | StaleAuthority | Fenced | CompletionForClosedAttempt => true
  | _ => false
  end.

(** ** Renderings *)

Definition kMaxCanonicalFormEntries : N := 256.

(** [append_u64]: an equals sign and the decimal digits. *)
Definition field (name : string) (value : N) : string := name +:+ "=" +:+ pretty value.

Definition canonical_entry (e : ScheduleEntry) : string :=
  " | " +:+ kind_string (se_kind e) +:+ field " ordinal" (se_ordinal e) +:+
  field " flow" (se_flow e) +:+ field " flow-generation" (se_flow_generation e) +:+
  field " attempt" (se_attempt e) +:+
  field " path" (se_path e) +:+ field " path-generation" (se_path_generation e) +:+
  field " resource" (se_resource e) +:+ field " resource-generation" (se_resource_generation e) +:+
  field " reservation" (se_reservation e) +:+
  field " reservation-generation" (se_reservation_generation e) +:+
  field " qos" (se_qos e) +:+ field " qos-generation" (se_qos_generation e) +:+
  field " priority" (se_priority e) +:+ field " priority-generation" (se_priority_generation e) +:+
  field " quantum" (se_quantum e) +:+ field " start" (se_start_tick e) +:+
  field " deadline" (se_deadline_tick e) +:+ field " reservation-end" (se_reservation_end e) +:+
  field " tier" (se_tier e) +:+ " reason" +:+ reason_to_string (se_reason e) +:+
  field " ordering" (se_ordering_digest e).

Definition canonical_form (s : Schedule) : string :=
  let count := N.of_nat (length (sc_entries s)) in
  let limit := N.min count kMaxCanonicalFormEntries in
  field "schedule" (sc_schedule s) +:+ field " generation" (sc_generation s) +:+
  field " epoch" (sc_epoch s) +:+ field " policy" (sc_policy s) +:+
  field " policy-generation" (sc_policy_generation s) +:+ field " at" (sc_at_tick s) +:+
  field " entries" count +:+
  foldr (fun e out => canonical_entry e +:+ out) EmptyString
    (take (N.to_nat limit) (sc_entries s)) +:+
  (if limit <? count then field " | truncated" (count - limit) else EmptyString).

(** [operator==] on schedules: the explanatory detail, the policy digest and the
    provenance do not take part. *)
Definition entry_same (a b : ScheduleEntry) : bool :=
  (se_ordinal a =? se_ordinal b) && bool_decide (se_kind a = se_kind b) &&
  (se_flow a =? se_flow b) && (se_flow_generation a =? se_flow_generation b) &&
  (se_attempt a =? se_attempt b) && (se_path a =? se_path b) &&
  (se_path_generation a =? se_path_generation b) && (se_resource a =? se_resource b) &&
  (se_resource_generation a =? se_resource_generation b) &&
  (se_reservation a =? se_reservation b) &&
  (se_reservation_generation a =? se_reservation_generation b) && (se_qos a =? se_qos b) &&
  (se_qos_generation a =? se_qos_generation b) && (se_priority a =? se_priority b) &&
  (se_priority_generation a =? se_priority_generation b) && (se_quantum a =? se_quantum b) &&
  (se_start_tick a =? se_start_tick b) && (se_deadline_tick a =? se_deadline_tick b) &&
  (se_reservation_end a =? se_reservation_end b) && (se_tier a =? se_tier b) &&
  bool_decide (se_reason a = se_reason b) && (se_ordering_digest a =? se_ordering_digest b).

Fixpoint entries_same (l r : list ScheduleEntry) : bool :=
  match l, r with
  | a :: l, b :: r => entry_same a b && entries_same l r
  | _, _ => true
  end.

Definition schedule_same (a b : Schedule) : bool :=
  (sc_schedule a =? sc_schedule b) && (sc_generation a =? sc_generation b) &&
  (sc_epoch a =? sc_epoch b) && (sc_policy a =? sc_policy b) &&
  (sc_policy_generation a =? sc_policy_generation b) && (sc_at_tick a =? sc_at_tick b) &&
  (length (sc_entries a) =? length (sc_entries b))%nat &&
  entries_same (sc_entries a) (sc_entries b).

Definition report_string (r : AccountingReport) : string :=
  field "flows" (ar_total_flows r) +:+ field " waiting" (ar_waiting r) +:+
  field " ready" (ar_ready r) +:+ field " scheduled" (ar_scheduled r) +:+
  field " in-flight"
    (add64 (add64 (ar_dispatched r) (ar_running r)) (ar_completion_reported r)) +:+
  field " completed" (ar_completed r) +:+ field " cancelled" (ar_cancelled r) +:+
  field " failed" (ar_failed r) +:+ field " ambiguous" (ar_ambiguous r) +:+
  field " attempts" (ar_attempts_total r) +:+
  field " open" (add64 (ar_attempts_open r) (ar_attempts_started r)) +:+
  field " committed" (ar_attempts_committed r) +:+
  field " preempted" (ar_attempts_preempted r) +:+
  field " cancelled-attempts" (ar_attempts_cancelled r) +:+
  field " abandoned" (ar_attempts_abandoned r) +:+
  field " rejected-attempts" (ar_attempts_rejected r) +:+
  field " reports" (ar_completion_reports_received r) +:+
  field " applied" (ar_completions_applied r) +:+
  field " duplicates" (ar_completions_duplicate r) +:+
  field " rejected-completions" (ar_completions_rejected r) +:+
  field " schedules" (ar_schedules_issued r) +:+
  field " entries" (ar_schedule_entries_issued r) +:+
  field " rounds" (ar_arbitration_rounds r) +:+ field " preemptions" (ar_preemptions_issued r) +:+
  field " boosts" (ar_starvation_boosts r) +:+ field " deadline-misses" (ar_deadline_misses r) +:+
  field " reserved" (ar_outstanding_reserved_units r) +:+
  field " credit" (ar_service_credit_total r) +:+ field " epoch" (ar_epoch r).

(** ** Observers *)

Record FlowSnapshot := mkFlowSnapshot {
  fs_flow : FlowId;
  fs_generation : Generation;
  fs_lifecycle : FlowLifecycle;
  fs_estimated_work : N;
  fs_served_work : N;
  fs_outstanding_reserved : N;
  fs_release_tick : Ticks;
  fs_deadline_tick : Ticks;
  fs_last_change_tick : Ticks;
  fs_eligible_since_tick : Ticks;
  fs_open_attempt : DispatchAttemptId;
  fs_accounting : FlowAccounting;
  fs_provenance : Provenance }.

(** [Impl::flow] *)
Definition flow (im : Impl) (id : FlowId) : Res FlowSnapshot :=
  match im_flows im !! id with
  | None => Err UnknownFlow
  | Some rt =>
      let d := fr_descriptor rt in
      Ok (mkFlowSnapshot (fd_flow d) (fd_generation d) (fr_lifecycle rt)
            (fd_estimated_work d) (fr_served_work rt) (fr_outstanding_reserved rt)
            (fd_release_tick d) (fd_deadline_tick d) (fr_last_change_tick rt)
            (fr_eligible_since_tick rt) (fr_open_attempt rt) (fr_accounting rt)
            (fd_provenance d))
  end.

Record FlowExplanation := mkFlowExplanation {
  fe_flow : FlowId;
  fe_generation : Generation;
  fe_lifecycle : FlowLifecycle;
  fe_last_reason : DecisionReason;
  fe_ordering_digest : N;
  fe_tier : N;
  fe_accounting : FlowAccounting;
  fe_history : list ExplanationStep;
  fe_history_truncated : bool }.

Definition explain_flow (im : Impl) (id : FlowId) : Res FlowExplanation :=
  match im_flows im !! id with
  | None => Err UnknownFlow
  | Some rt =>
      let d := fr_descriptor rt in
      Ok (mkFlowExplanation (fd_flow d) (fd_generation d) (fr_lifecycle rt)
            (match last (fr_history rt) with None => Selected | Some s => xs_reason s end)
            (digest_of_key (compute_key im rt (im_last_tick im)))
            (tier_of im rt (im_last_tick im)) (fr_accounting rt)
            (fr_history rt) (fr_history_truncated rt))
  end.

Record ScheduleExplanation := mkScheduleExplanation {
  xe_schedule : ScheduleId;
  xe_generation : Generation;
  xe_epoch : FabricEpoch;
  xe_at_tick : Ticks;
  xe_digest : N;
  xe_entries : list string;
  xe_deferred : list string;
  xe_truncated : bool }.

Definition explain_line (e : ScheduleEntry) (consumed : N) : string :=
  kind_string (se_kind e) +:+ " " +:+ id_string "flow" (se_flow e) +:+
  field " quantum" (se_quantum e) +:+ field " tier" (se_tier e) +:+
  field " consumed" consumed +:+ " (" +:+ reason_to_string (se_reason e) +:+ ")".

(** [consumed] is kept as long as [entries], so that [zip_with] reads
    [consumed[index]] at every entry. *)
Definition explain_schedule (im : Impl) (id : ScheduleId) : Res ScheduleExplanation :=
  match find_schedule im id with
  | None => Err UnknownSchedule
  | Some s =>
      let sc := sr_schedule s in
      Ok (mkScheduleExplanation (sc_schedule sc) (sc_generation sc) (sc_epoch sc)
            (sc_at_tick sc) (sc_digest sc)
            (zip_with explain_line (sc_entries sc) (sr_consumed s)) [] false)
  end.

Definition flow_count (im : Impl) : N := map_size (im_flows im).
Definition attempt_count (im : Impl) : N := map_size (im_attempts im).
Definition policy_copy (im : Impl) : Res SchedulingPolicy := Ok (im_policy im).
Definition epoch (im : Impl) : Res FabricEpoch := Ok (im_epoch im).
Definition policy_binding (im : Impl) : Res PolicyBinding := Ok (im_policy_binding im).
Definition current_tick (im : Impl) : Ticks := im_last_tick im.
Definition recovery_report (im : Impl) : RecoveryReport := im_recovery im.

(** ** The facade

    [Scheduler::cancel_flow], [advance_epoch] and [release_schedule] take no
    tick: they pass the current one. *)

Definition facade_cancel_flow (id : FlowId) (g : Generation) (reason : string) : Op unit :=
  let* im := get in cancel_flow id g reason (current_tick im).
Definition facade_advance_epoch (reason : EpochReason) : Op FabricEpoch :=
  let* im := get in advance_epoch reason (current_tick im).
Definition facade_release_schedule (id : ScheduleId) (g : Generation) : Op unit :=
  let* im := get in release_schedule id g (current_tick im).

(** ** Properties *)

(** Decides injectivity by cases. *)
Ltac name_cases :=
  let x := fresh in let y := fresh in let H := fresh in
  intros x y H; destruct x; destruct y; (reflexivity || discriminate H).

#[export] Instance error_code_string_inj : Inj (=) (=) error_code_string.
Proof. name_cases. Qed.
#[export] Instance kind_string_inj : Inj (=) (=) kind_string.
Proof. name_cases. Qed.
#[export] Instance lifecycle_string_inj : Inj (=) (=) lifecycle_string.
Proof. name_cases. Qed.
#[export] Instance reason_to_string_inj : Inj (=) (=) reason_to_string.
Proof. name_cases. Qed.
#[export] Instance attempt_state_string_inj : Inj (=) (=) attempt_state_string.
Proof. name_cases. Qed.
#[export] Instance record_type_string_inj : Inj (=) (=) record_type_string.
Proof. name_cases. Qed.
