(* ===== verification/Commandline.v ===== *)
(** * The command lines of the tools

    Models [parse_u64], [parse_i64] and the two [parse_options] of
    tools/fs_coordinator.cpp and tools/fs_worker.cpp.  A usage error exits the
    process with status 2 whatever its message: here it is [None].

    The theorems: the overflow test of [parse_u64] is exact, so that a text is
    accepted exactly when it is a decimal number of 64 bits, and every accepted
    command line gives options in the ranges the tools rely on. *)

From S2P Require Import Prelude Checked Bytes Hash Model Schedule Codec Protocol.
From Stdlib Require Import Ascii.

(** ** Numbers *)

Definition char_code (c : ascii) : N := N_of_ascii c.

(** The loop over the characters; [value] is the number read so far. *)
Fixpoint parse_digits (text : string) (value : N) : option N :=
  match text with
  | EmptyString => Some value
  | String c text =>
      let code := char_code c in
      if (code <? 48) || (57 <? code) then None
      else
        let digit := code - 48 in
        if (u64_max - digit) / 10 <? value then None
        else parse_digits text (add64 (mul64 value 10) digit)
  end.

Definition parse_u64 (text : string) : option N :=
  match text with
  | EmptyString => None
  | _ => parse_digits text 0
  end.

Definition i64_max : N := 9223372036854775807.

Definition parse_i64 (text : string) : option Z :=
  let '(negative, text) :=
    match text with
    | String c rest =>
        if char_code c =? 45 then (true, rest)
        else if char_code c =? 43 then (false, rest)
        else (false, text)
    | EmptyString => (false, text)
    end in
  magnitude ← parse_u64 text;
  if i64_max <? magnitude then None
  else Some (if negative : bool then (- Z.of_N magnitude)%Z else Z.of_N magnitude).

(** ** The coordinator *)

Definition kMaxWorkers : N := 60.

Record CoordinatorOptions := mkCoordinatorOptions {
  co_port : N;
  co_state : string;
  co_workers : N;
  co_flows : N;
  co_rounds : N;
  co_interval : N;
  co_capacity : N;
  co_concurrency : N;
  co_quantum : N;
  co_work : N;
  co_seed : N;
  co_kill_after : N;
  co_exit_after : N }.

#[export] Instance eta_CoordinatorOptions : Eta CoordinatorOptions := fun o =>
  mkCoordinatorOptions (co_port o) (co_state o) (co_workers o) (co_flows o) (co_rounds o) (co_interval o) (co_capacity o)
    (co_concurrency o) (co_quantum o) (co_work o) (co_seed o) (co_kill_after o) (co_exit_after o).

Definition default_coordinator_options : CoordinatorOptions :=
  mkCoordinatorOptions 0 EmptyString 1 64 4096 1000 64 2 4 16 1 0 0.

(** [number_of] and the range check that follows it. *)
Definition number (lo hi : N) (value : string) (set : N -> CoordinatorOptions) : option CoordinatorOptions :=
  n ← parse_u64 value;
  if (n <? lo) || (hi <? n) then None else Some (set n).

(** One flag and its value. *)
Definition coordinator_flag (flag value : string) (o : CoordinatorOptions) : option CoordinatorOptions :=
  if String.eqb flag "--port" then number 0 65535 value (fun n => o <| co_port := n |>)
  else if String.eqb flag "--state" then
    match value with EmptyString => None | _ => Some (o <| co_state := value |>) end
  else if String.eqb flag "--workers" then
    number 0 kMaxWorkers value (fun n => o <| co_workers := n |>)
  else if String.eqb flag "--flows" then
    number 0 kMaxFlows value (fun n => o <| co_flows := n |>)
  else if String.eqb flag "--rounds" then
    number 1 100000000 value (fun n => o <| co_rounds := n |>)
  else if String.eqb flag "--interval" then
    number 1 kMaxTickHorizon value (fun n => o <| co_interval := n |>)
  else if String.eqb flag "--capacity" then
    number 1 kMaxServiceUnits value (fun n => o <| co_capacity := n |>)
  else if String.eqb flag "--concurrency" then
    number 1 kMaxServiceUnits value (fun n => o <| co_concurrency := n |>)
  else if String.eqb flag "--quantum" then
    number 1 kMaxQuantum value (fun n => o <| co_quantum := n |>)
  else if String.eqb flag "--work" then
    number 1 kMaxServiceUnits value (fun n => o <| co_work := n |>)
  else if String.eqb flag "--seed" then number 0 u64_max value (fun n => o <| co_seed := n |>)
  else if String.eqb flag "--kill-after" then
    number 0 u64_max value (fun n => o <| co_kill_after := n |>)
  else if String.eqb flag "--exit-after" then
    number 0 u64_max value (fun n => o <| co_exit_after := n |>)
  else None.

(** The loop over [argv]: a flag without a value, or an unknown flag, is a
    usage error. *)
Fixpoint coordinator_args (args : list string) (o : CoordinatorOptions) : option CoordinatorOptions :=
  match args with
  | [] => Some o
  | [_] => None
  | flag :: value :: args => o ← coordinator_flag flag value o; coordinator_args args o
  end.

Definition coordinator_options (args : list string) : option CoordinatorOptions := coordinator_args args default_coordinator_options.

(** What the run relies on. *)
Record coordinator_options_in_range (o : CoordinatorOptions) : Prop := {
  co_ok_port : co_port o <= 65535;
  co_ok_workers : co_workers o <= kMaxWorkers;
  co_ok_flows : co_flows o <= kMaxFlows;
  co_ok_rounds : 1 <= co_rounds o <= 100000000;
  co_ok_interval : 1 <= co_interval o <= kMaxTickHorizon;
  co_ok_capacity : 1 <= co_capacity o <= kMaxServiceUnits;
  co_ok_concurrency : 1 <= co_concurrency o <= kMaxServiceUnits;
  co_ok_quantum : 1 <= co_quantum o <= kMaxQuantum;
  co_ok_work : 1 <= co_work o <= kMaxServiceUnits;
  co_ok_seed : u64 (co_seed o) }.

(** ** The worker *)

Record WorkerOptions := mkWorkerOptions {
  wo_host : string;
  wo_port : N;
  wo_port_set : bool;
  wo_worker : N;
  wo_worker_set : bool;
  wo_boot : N;
  wo_label : string;
  wo_served : Z;
  wo_exit_after : N;
  wo_stale_evidence : bool;
  wo_quiet : bool }.

#[export] Instance eta_WorkerOptions : Eta WorkerOptions := fun o =>
  mkWorkerOptions (wo_host o) (wo_port o) (wo_port_set o) (wo_worker o) (wo_worker_set o) (wo_boot o) (wo_label o)
    (wo_served o) (wo_exit_after o) (wo_stale_evidence o) (wo_quiet o).

Definition default_worker_options : WorkerOptions :=
  mkWorkerOptions "127.0.0.1" 0 false 0 false 1 EmptyString (-1) 0 false false.

(** The flags that take no value. *)
Definition worker_switch (flag : string) (o : WorkerOptions) : option WorkerOptions :=
  if String.eqb flag "--stale-evidence" then Some (o <| wo_stale_evidence := true |>)
  else if String.eqb flag "--quiet" then Some (o <| wo_quiet := true |>)
  else None.

(** The flags that take one. *)
Definition worker_flag (flag value : string) (o : WorkerOptions) : option WorkerOptions :=
  if String.eqb flag "--host" then Some (o <| wo_host := value |>)
  else if String.eqb flag "--port" then
    n ← parse_u64 value;
    if (n =? 0) || (65535 <? n) then None else Some (o <| wo_port := n |> <| wo_port_set := true |>)
  else if String.eqb flag "--worker" then
    n ← parse_u64 value;
    if n =? 0 then None else Some (o <| wo_worker := n |> <| wo_worker_set := true |>)
  else if String.eqb flag "--boot" then
    n ← parse_u64 value;
    if n =? 0 then None else Some (o <| wo_boot := n |>)
  else if String.eqb flag "--label" then
    if (kMaxLabelBytes <? String.length value)%nat then None else Some (o <| wo_label := value |>)
  else if String.eqb flag "--served" then
    v ← parse_i64 value; Some (o <| wo_served := v |>)
  else if String.eqb flag "--exit-after" then
    n ← parse_u64 value; Some (o <| wo_exit_after := n |>)
  else None.

Fixpoint worker_args (args : list string) (o : WorkerOptions) : option WorkerOptions :=
  match args with
  | [] => Some o
  | flag :: args =>
      match worker_switch flag o with
      | Some o => worker_args args o
      | None =>
          match args with
          | [] => None
          | value :: args => o ← worker_flag flag value o; worker_args args o
          end
      end
  end.

Definition worker_options (args : list string) : option WorkerOptions :=
  o ← worker_args args default_worker_options;
  if negb (wo_port_set o) then None
  else if negb (wo_worker_set o) then None
  else Some o.

Record worker_options_in_range (o : WorkerOptions) : Prop := {
  wo_ok_port : 1 <= wo_port o <= 65535;
  wo_ok_worker : id_valid (wo_worker o) = true /\ u64 (wo_worker o);
  wo_ok_boot : id_valid (wo_boot o) = true /\ u64 (wo_boot o);
  wo_ok_label : (String.length (wo_label o) <= kMaxLabelBytes)%nat;
  wo_ok_served : (- Z.of_N i64_max <= wo_served o <= Z.of_N i64_max)%Z }.

(** ** Numbers, proved *)

(** The reference: decimal notation without a bound. *)
Fixpoint decimal (text : string) (value : N) : option N :=
  match text with
  | EmptyString => Some value
  | String c text =>
      if (48 <=? char_code c) && (char_code c <=? 57)
      then decimal text (value * 10 + (char_code c - 48)) else None
  end.

Lemma decimal_ge text value n : decimal text value = Some n -> value <= n.
Proof.
  revert value. induction text as [|c text IH]; simpl; intros value H.
  - injection H as ->. lia.
  - destruct (_ && _); [|done]. apply IH in H. lia.
Qed.

(** The test before the multiplication decides overflow exactly. *)
Lemma overflow_test value digit :
  digit <= 9 -> ((u64_max - digit) / 10 <? value) = (u64_max <? value * 10 + digit).
Proof.
  intros Hd. apply Bool.eq_true_iff_eq. rewrite !N.ltb_lt.
  pose proof (N.div_mod' (u64_max - digit) 10). pose proof (N.mod_lt (u64_max - digit) 10 ltac:(lia)).
  set (q := (u64_max - digit) / 10) in *. set (r := (u64_max - digit) mod 10) in *.
  clearbody q r. unfold u64_max in *. split; lia.
Qed.

Lemma parse_digits_spec text value :
  value <= u64_max ->
  parse_digits text value =
  match decimal text value with
  | Some n => if n <=? u64_max then Some n else None
  | None => None
  end.
Proof.
  revert value. induction text as [|c text IH]; intros value Hv; cbn [parse_digits decimal].
  { by rewrite (proj2 (N.leb_le _ _) Hv). }
  replace ((48 <=? char_code c) && (char_code c <=? 57))
    with (negb ((char_code c <? 48) || (57 <? char_code c))).
  2:{ by rewrite negb_orb, <- !N.leb_antisym. }
  destruct ((char_code c <? 48) || (57 <? char_code c)) eqn:Hc; cbn [negb]; [done|].
  apply orb_false_iff in Hc as [H1 H2]. apply N.ltb_ge in H1, H2.
  rewrite overflow_test by lia. destruct (N.ltb_spec u64_max (value * 10 + (char_code c - 48))).
  - destruct (decimal text _) eqn:Hn; [|done]. apply decimal_ge in Hn.
    by rewrite (proj2 (N.leb_gt _ _)) by lia.
  - unfold add64, mul64, wrap64. rewrite (N.mod_small (value * 10)), N.mod_small.
    + by apply IH.
    + unfold u64_max, u64_mod in *. lia.
    + unfold u64_max, u64_mod in *. lia.
Qed.

Lemma parse_u64_bound text n : parse_u64 text = Some n -> u64 n.
Proof.
  unfold parse_u64, u64. destruct text as [|c text]; [done|]. rewrite parse_digits_spec by done.
  destruct (decimal _ _); [|done]. destruct (N.leb_spec n0 u64_max); [|done]. congruence.
Qed.

Lemma digit_char d :
  d < 10 -> char_code (pretty_N_char d) = 48 + d.
Proof.
  intros H.
  assert (d = 0 \/ d = 1 \/ d = 2 \/ d = 3 \/ d = 4 \/ d = 5 \/ d = 6 \/ d = 7 \/ d = 8 \/ d = 9)
    as Hd by lia.
  by destruct_or! Hd; subst.
Qed.

Lemma decimal_pretty_go n text value :
  exists k, decimal (pretty_N_go n text) value = decimal text (value * 10 ^ k + n).
Proof.
  revert text value. induction (N.lt_wf_0 n) as [n _ IH]. intros text value.
  destruct (decide (0 < n)) as [Hn|Hn].
  - rewrite pretty_N_go_step by done.
    destruct (IH (n / 10) (N.div_lt n 10 Hn ltac:(lia)) (String (pretty_N_char (n mod 10)) text) value)
      as [k Hk].
    exists (k + 1). rewrite Hk. cbn [decimal].
    pose proof (N.mod_lt n 10 ltac:(lia)) as Hm. rewrite digit_char by done.
    replace ((48 <=? 48 + n mod 10) && (48 + n mod 10 <=? 57)) with true.
    2:{ symmetry. apply andb_true_iff. rewrite !N.leb_le. clear -Hm. revert Hm. generalize (n mod 10). lia. }
    f_equal. rewrite N.pow_add_r, N.pow_1_r. pose proof (N.div_mod' n 10) as Hdiv.
    set (q := n / 10) in *. set (r := n mod 10) in *. clearbody q r. subst n. lia.
  - assert (n = 0) as -> by lia. exists 0. rewrite pretty_N_go_0. f_equal. lia.
Qed.

Lemma parse_u64_pretty n : u64 n -> parse_u64 (pretty n) = Some n.
Proof.
  intros Hn. assert (decimal (pretty n) 0 = Some n) as Hd.
  { unfold pretty, pretty_N. case_decide as H; [by subst|].
    destruct (decimal_pretty_go n EmptyString 0) as [k ->]. cbn [decimal]. f_equal; lia. }
  assert (pretty n <> EmptyString) as He.
  { intros He. rewrite He in Hd. cbn in Hd. injection Hd as <-. by vm_compute in He. }
  unfold parse_u64. destruct (pretty n) eqn:E; [done|].
  rewrite parse_digits_spec, Hd by done. by rewrite (proj2 (N.leb_le _ _) Hn).
Qed.

(** ** Options, proved *)

Lemma number_range lo hi value set o :
  number lo hi value set = Some o -> exists n, o = set n /\ lo <= n <= hi.
Proof.
  unfold number. destruct (parse_u64 value) as [n|]; [|done]. cbn [mbind option_bind].
  destruct (_ || _) eqn:H; [done|]. intros [= <-]. apply orb_false_iff in H as [H1 H2].
  apply N.ltb_ge in H1, H2. by exists n.
Qed.

Lemma coordinator_default_ok : coordinator_options_in_range default_coordinator_options.
Proof. by constructor; vm_compute. Qed.

Lemma coordinator_flag_ok flag value o o' :
  coordinator_options_in_range o -> coordinator_flag flag value o = Some o' -> coordinator_options_in_range o'.
Proof.
  intros []. unfold coordinator_flag.
  repeat (destruct (String.eqb flag _);
    [first
       [ intros (n & -> & ? & ?)%number_range; constructor; upd_simpl; (done || by unfold u64)
       | destruct value; [done|]; intros [= <-]; constructor; upd_simpl; done ]|]).
  done.
Qed.

Lemma coordinator_args_ok args o o' : coordinator_options_in_range o -> coordinator_args args o = Some o' -> coordinator_options_in_range o'.
Proof.
  revert o. induction args as [args IH] using (induction_ltof1 _ length). unfold ltof in IH.
  destruct args as [|flag [|value args]]; intros o Ho H; cbn [coordinator_args] in H;
    [congruence | done |].
  destruct (coordinator_flag flag value o) as [o1|] eqn:E; [|done].
  apply (IH args ltac:(simpl; lia) o1); [by apply (coordinator_flag_ok flag value o) | done].
Qed.

Lemma coordinator_options_ok args o : coordinator_options args = Some o -> coordinator_options_in_range o.
Proof. apply coordinator_args_ok, coordinator_default_ok. Qed.

(** The invariant of the loop: an option that was set is in range. *)
Record scanned (o : WorkerOptions) : Prop := {
  sn_port : wo_port_set o = true -> 1 <= wo_port o <= 65535;
  sn_worker : wo_worker_set o = true -> id_valid (wo_worker o) = true /\ u64 (wo_worker o);
  sn_boot : id_valid (wo_boot o) = true /\ u64 (wo_boot o);
  sn_label : (String.length (wo_label o) <= kMaxLabelBytes)%nat;
  sn_served : (- Z.of_N i64_max <= wo_served o <= Z.of_N i64_max)%Z }.

Lemma parse_i64_range text v :
  parse_i64 text = Some v -> (- Z.of_N i64_max <= v <= Z.of_N i64_max)%Z.
Proof.
  unfold parse_i64.
  lazymatch goal with |- (let '(_, _) := ?x in _) = _ -> _ => destruct x as [negative s] end.
  destruct (parse_u64 s) as [n|]; [|done].
  cbn [mbind option_bind]. destruct (N.ltb_spec i64_max n); [done|]. intros [= <-].
  destruct negative; lia.
Qed.

Lemma worker_switch_ok flag o o' : scanned o -> worker_switch flag o = Some o' -> scanned o'.
Proof.
  intros []. unfold worker_switch.
  repeat (destruct (String.eqb flag _); [intros [= <-]; by constructor; upd_simpl|]). done.
Qed.

Lemma worker_flag_ok flag value o o' :
  scanned o -> worker_flag flag value o = Some o' -> scanned o'.
Proof.
  intros []. unfold worker_flag.
  destruct (String.eqb flag "--host"); [intros [= <-]; by constructor; upd_simpl|].
  repeat (destruct (String.eqb flag _);
    [try (destruct (parse_u64 value) as [n|] eqn:E; [|done]; apply parse_u64_bound in E;
          cbn [mbind option_bind]);
     try (destruct (_ || _) eqn:Hr; [done|]; apply orb_false_iff in Hr as [H0 H1];
          apply N.eqb_neq in H0; apply N.ltb_ge in H1);
     try (destruct (N.eqb_spec n 0); [done|]);
     try (destruct (Nat.ltb_spec kMaxLabelBytes (String.length value)); [done|]);
     try (destruct (parse_i64 value) as [v|] eqn:E; [|done]; apply parse_i64_range in E);
     intros [= <-]; constructor; upd_simpl; try done; intros;
     unfold id_valid; rewrite ?negb_true_iff, ?N.eqb_neq; try (split; [lia | done]); lia|]).
  done.
Qed.

Lemma worker_args_ok args o o' : scanned o -> worker_args args o = Some o' -> scanned o'.
Proof.
  revert o. induction args as [args IH] using (induction_ltof1 _ length). unfold ltof in IH.
  destruct args as [|flag args]; intros o Ho H; cbn [worker_args] in H; [congruence|].
  destruct (worker_switch flag o) as [o1|] eqn:E.
  { apply (IH args ltac:(simpl; lia) o1); [by apply (worker_switch_ok flag o) | done]. }
  destruct args as [|value args]; [done|].
  destruct (worker_flag flag value o) as [o1|] eqn:E1; [|done].
  apply (IH args ltac:(simpl; lia) o1); [by apply (worker_flag_ok flag value o) | done].
Qed.

Lemma worker_options_ok args o : worker_options args = Some o -> worker_options_in_range o.
Proof.
  unfold worker_options. destruct (worker_args args default_worker_options) as [o1|] eqn:E; [|done].
  cbn [mbind option_bind].
  assert (scanned default_worker_options) as H0.
  { constructor; cbn; try done; unfold kMaxLabelBytes, i64_max; try lia. }
  apply (worker_args_ok args default_worker_options o1 H0) in E as [].
  destruct (wo_port_set o1); [|done]. destruct (wo_worker_set o1); [|done]. intros [= <-].
  by constructor; auto.
Qed.

(** ** Properties *)

(** Numbers on the command line: [parse_u64] accepts exactly the
    non-empty strings of decimal digits whose value fits 64 bits, and returns
    that value; in particular it reads back every number the tools print.  The
    wrapping arithmetic of its loop therefore never wraps. *)
Theorem parse_u64_exact (text : string) (n : N) :
  (parse_u64 text = Some n <->
   text <> EmptyString /\ decimal text 0 = Some n /\ n <= u64_max) /\
  (n <= u64_max -> parse_u64 (pretty n) = Some n).
Proof.
  split; [|apply parse_u64_pretty]. unfold parse_u64. destruct text as [|c text].
  { split; [done | by intros []]. }
  rewrite parse_digits_spec by done. destruct (decimal (String c text) 0) as [m|].
  - destruct (N.leb_spec m u64_max); split; [by intros [= ->] | by intros (_ & [= ->] & _) | done |].
    intros (_ & [= ->] & ?). lia.
  - split; [done | by intros (_ & ? & _)].
Qed.

(** C33 Every command line the tools accept gives options in range: the
    coordinator's port, worker, flow and round counts, interval, capacity,
    concurrency, quantum and work are inside the bounds of the descriptors built
    from them, the worker has a port, a non-zero identity and boot, and a label
    that fits its frame. *)
Theorem accepted_options_in_range (args : list string) :
  (forall o, coordinator_options args = Some o -> coordinator_options_in_range o) /\
  (forall o, worker_options args = Some o -> worker_options_in_range o).
Proof.
  split; intros o; [apply coordinator_options_ok | apply worker_options_ok].
Qed.
