(* ===== verification/Coordinator.v ===== *)
(** * The coordinator process

    Models tools/fs_coordinator.cpp: class [Coordinator], one definition per
    method, and [run].

    The operating system is an input.  A socket carries the answers it will
    get ([Poll] for one [wait_readable] and the [recv] after it, [SendAnswer]
    for one [send]) and the bytes that were sent on it; accepted connections
    and the answers of the drain's [select] are lists of the state.  A call that
    finds no answer left is still waiting: the run is [Parked].

    Two things the code leaves open are parameters: the order in which the
    [std::unordered_map] of attempts is walked, and the text of an error, whose
    message the model does not keep. *)

From S2P Require Import Prelude Checked Bytes Hash Model Schedule Codec Framing Transport Protocol.
From S2P Require Import Journal State Transitions Arbitrate Operations Recovery Observe.
From S2P Require Import Commandline.

(** ** State *)

(** What the operating system answers in one turn of a bounded receive: the
    [select], the [recv] when the socket is readable, and the milliseconds since
    the call started. *)
Record Poll := mkPoll {
  pl_select : SelectAnswer;
  pl_recv : RecvAnswer;
  pl_elapsed : N }.

Record Socket := mkSocket {
  so_valid : bool;
  so_polls : list Poll;
  so_sends : list SendAnswer;
  so_sent : bytes }.

#[export] Instance eta_Socket : Eta Socket := fun s =>
  mkSocket (so_valid s) (so_polls s) (so_sends s) (so_sent s).

Record Peer := mkPeer {
  pe_socket : Socket;
  pe_accumulator : FrameAccumulator;
  pe_worker : WorkerId;
  pe_boot : BootId;
  pe_alive : bool }.

#[export] Instance eta_Peer : Eta Peer := fun p =>
  mkPeer (pe_socket p) (pe_accumulator p) (pe_worker p) (pe_boot p) (pe_alive p).

Record OpenAttempt := mkOpenAttempt {
  oa_peer : nat;
  oa_ticket : DispatchTicket;
  oa_started : bool }.

#[export] Instance eta_OpenAttempt : Eta OpenAttempt := fun a =>
  mkOpenAttempt (oa_peer a) (oa_ticket a) (oa_started a).

(** [ReceiveOutcome] *)
Inductive ReceiveOutcome : Type :=
| RFrame (type : N) (payload : bytes)
| RIdle
| RClosed.

(** [cd_refused] are the connections the handshake turned away, [cd_output]
    the lines on standard output, [cd_reported] the number of lines [report]
    wrote. *)
Record Coordinator := mkCoordinator {
  cd_options : CoordinatorOptions;
  cd_peers : list Peer;
  cd_attempts : gmap N OpenAttempt;
  cd_scheduler : Impl;
  cd_now : Ticks;
  cd_round_step : Ticks;
  cd_flows_admitted : N;
  cd_rounds_run : N;
  cd_dispatches_issued : N;
  cd_completions_applied : N;
  cd_completions_rejected : N;
  cd_dispatch_failures : N;
  cd_ambiguities_resolved : N;
  cd_abandoned_on_peer_loss : N;
  cd_diagnostics : N;
  cd_round_robin : nat;
  cd_worker_killed : bool;
  cd_converged : bool;
  cd_fatal : bool;
  cd_accepts : list (Res Socket);
  cd_selects : list SelectAnswer;
  cd_refused : list Peer;
  cd_reported : N;
  cd_output : list string }.

#[export] Instance eta_Coordinator : Eta Coordinator := fun c =>
  mkCoordinator (cd_options c) (cd_peers c) (cd_attempts c) (cd_scheduler c) (cd_now c)
    (cd_round_step c) (cd_flows_admitted c) (cd_rounds_run c) (cd_dispatches_issued c)
    (cd_completions_applied c) (cd_completions_rejected c) (cd_dispatch_failures c)
    (cd_ambiguities_resolved c) (cd_abandoned_on_peer_loss c) (cd_diagnostics c)
    (cd_round_robin c) (cd_worker_killed c) (cd_converged c) (cd_fatal c) (cd_accepts c)
    (cd_selects c) (cd_refused c) (cd_reported c) (cd_output c).

(** How a run ends early: the deliberate [_Exit] of [--exit-after], a system
    call that has not returned, or the fuel of a loop (which the theorems rule
    out). *)
Inductive Halt : Type :=
| Crashed
| Parked
| OutOfFuel.

Definition Co (A : Type) : Type := M Halt Coordinator A.

Definition new_coordinator (o : CoordinatorOptions) (im : Impl) (accepts : list (Res Socket))
  (selects : list SelectAnswer) : Coordinator :=
  mkCoordinator o [] ∅ im 0 1 0 0 0 0 0 0 0 0 0 0 false false false accepts selects [] 0 [].

(** A call of the scheduler. *)
Definition call {A} (op : Op A) : Co (Res A) := fun c =>
  let '(im, r) := op (cd_scheduler c) in (c <| cd_scheduler := im |>, Ok r).

Definition print (line : string) : Co unit :=
  modify (fun c => c <| cd_output ::= fun l => l ++ [line] |>).

Definition kMaxDiagnostics : N := 16.

Definition report : Co unit := modify (fun c =>
  if kMaxDiagnostics <=? cd_diagnostics c then
    if cd_diagnostics c =? kMaxDiagnostics
    then c <| cd_diagnostics ::= incr64 |> <| cd_reported ::= N.succ |>
    else c
  else c <| cd_diagnostics ::= incr64 |> <| cd_reported ::= N.succ |>).

(** A system call that has not returned parks the run. *)
Definition await {A} (r : Blocking A) : Co A :=
  match r with
  | Returned a => ret a
  | Blocked => throw Parked
  end.

(** ** Sockets *)

Definition kHandshakeBudgetMs : N := 30000.
Definition kMaxFramesPerDrain : N := 16384.

(** The loop of [receive_within]: buffered frames first, then one poll, and
    the clock only when nothing was readable. *)
Fixpoint receive_loop (budget_ms : N) (valid : bool) (polls : list Poll) (acc : FrameAccumulator)
  : list Poll * FrameAccumulator * Blocking (Res ReceiveOutcome) :=
  match fa_next acc with
  | (acc, Err e) => (polls, acc, Returned (Err e))
  | (acc, Ok (Some (header, body))) => (polls, acc, Returned (Ok (RFrame (fh_type header) body)))
  | (acc, Ok None) =>
      match polls with
      | [] => ([], acc, Blocked)
      | poll :: polls =>
          match wait_readable [valid] (pl_select poll) with
          | Err e => (polls, acc, Returned (Err e))
          | Ok [] =>
              if budget_ms <=? pl_elapsed poll then (polls, acc, Returned (Ok RIdle))
              else receive_loop budget_ms valid polls acc
          | Ok _ =>
              match recv_some (pl_recv poll) with
              | Err e => (polls, acc, Returned (Err e))
              | Ok [] => (polls, acc, Returned (Ok RClosed))
              | Ok received =>
                  match fa_push received acc with
                  | (acc, Err e) => (polls, acc, Returned (Err e))
                  | (acc, Ok _) => receive_loop budget_ms valid polls acc
                  end
              end
          end
      end
  end.

Definition receive_within (budget_ms : N) (peer : Peer) : Peer * Blocking (Res ReceiveOutcome) :=
  if negb (so_valid (pe_socket peer)) then (peer, Returned (Ok RClosed))
  else
    let '(polls, acc, r) :=
      receive_loop budget_ms true (so_polls (pe_socket peer)) (pe_accumulator peer) in
    (peer <| pe_socket ::= fun s => s <| so_polls := polls |> |> <| pe_accumulator := acc |>, r).

(** [send_to]: [encode_frame], then [send_all]. *)
Definition send_peer (type : MessageType) (payload : bytes) (peer : Peer)
  : Peer * Blocking Status :=
  let socket := pe_socket peer in
  let '(sends, sent, r) :=
    send_frame (so_valid socket) (so_sends socket) (message_type_value type) payload in
  (peer <| pe_socket ::= fun s => s <| so_sends := sends |> <| so_sent ::= fun b => b ++ sent |> |>,
   r).

(** A method on [peers_[index]]; the callers only pass positions of [peers_]. *)
Definition with_peer {A} (index : nat) (f : Peer -> Peer * Blocking A) : Co A :=
  let* c := get in
  match cd_peers c !! index with
  | None => throw Parked
  | Some peer =>
      let '(peer, r) := f peer in
      modify (fun c => c <| cd_peers ::= <[ index := peer ]> |>) ;;;
      await r
  end.

Definition receive_now (index : nat) : Co (Res ReceiveOutcome) :=
  with_peer index (receive_within 0).
Definition send_to (index : nat) (type : MessageType) (payload : bytes) : Co Status :=
  with_peer index (send_peer type payload).

(** ** Setup *)

Definition external_provenance (sequence : N) : Provenance :=
  mkProvenance OExternal sequence (mix64 sequence).

Definition policy_with (o : CoordinatorOptions) (digest : N) : SchedulingPolicy :=
  mkSchedulingPolicy 1 1 PTiered true true true true 1000 100 0 64 1000
    kMaxFlows kMaxResources kMaxReservations kMaxEntriesPerSchedule kMaxQuantum
    (co_concurrency o) 4096 100000 (mkProvenance OExternal 1 digest).

(** The provenance digest is the digest of the policy it is part of, taken
    before it is set. *)
Definition make_policy (o : CoordinatorOptions) : SchedulingPolicy :=
  policy_with o (digest_of_policy (policy_with o (mix64 1))).

Definition topology_resource (o : CoordinatorOptions) : ResourceDescriptor :=
  mkResourceDescriptor 1 1 (co_capacity o) (co_interval o) (co_concurrency o)
    (external_provenance 1).
Definition topology_priority (index : N) : PriorityClassDescriptor :=
  mkPriorityClassDescriptor (index + 1) 1 index 1 (external_provenance (index + 2)).
Definition topology_qos : QoSClassDescriptor :=
  mkQoSClassDescriptor 1 1 false 0 (external_provenance 6).

(** Calls until one is refused; [true] when none was. *)
Fixpoint all_ok (ops : list (Op unit)) : Co bool :=
  match ops with
  | [] => ret true
  | op :: ops =>
      let* r := call op in
      match r with
      | Ok _ => all_ok ops
      | Err _ => ret false
      end
  end.

Definition register_topology : Co bool :=
  let* c := get in
  all_ok ([register_resource (topology_resource (cd_options c))]
          ++ ((fun index => register_priority_class (topology_priority index)) <$> [0; 1; 2; 3])
          ++ [register_qos_class topology_qos]).

(** The synthetic flow [index + 1] with the three numbers drawn for it. *)
Definition synthetic_flow (o : CoordinatorOptions) (index release weight priority_slot : N)
  : FlowDescriptor :=
  let id := index + 1 in
  let deadline_span := mul64 (co_interval o) 64 in
  mkFlowDescriptor id 1 (mkBinding 1 1) (mkBinding 1 1) (mkBinding 0 0)
    (mkBinding (priority_slot + 1) 1) (mkBinding 1 1) (index mod 4 + 1)
    (co_work o) (co_quantum o) 0 0 release
    (if id mod 2 =? 1 then add64 release deadline_span else kNoDeadline)
    weight true true 0 [] id (external_provenance id).

(** The loop of [admit_flows] from [index]; [rng] is the generator's state and
    [draws] the fuel of one [next_below]. *)
Fixpoint admit_loop (draws count : nat) (index rng : N) : Co bool :=
  match count with
  | O => ret true
  | S count =>
      let* c := get in
      let o := cd_options c in
      match
        ('(rng, release) ← rng_next_below draws (co_interval o) rng;
         '(rng, weight) ← rng_next_below draws 4 rng;
         '(rng, priority_slot) ← rng_next_below draws 4 rng;
         Some (rng, synthetic_flow o index release (1 + weight) priority_slot))
      with
      | None => throw OutOfFuel
      | Some (rng, descriptor) =>
          let* admitted := call (admit_flow descriptor) in
          match admitted with
          | Err _ => ret false
          | Ok _ => admit_loop draws count (index + 1) rng
          end
      end
  end.

Definition admit_flows (draws : nat) : Co bool :=
  let* c := get in
  let o := cd_options c in
  if co_flows o =? 0 then
    modify (fun c => c <| cd_flows_admitted := 0 |>) ;;; ret true
  else
    let* ok := admit_loop draws (N.to_nat (co_flows o)) 0 (co_seed o) in
    if ok : bool then
      modify (fun c => c <| cd_flows_admitted := co_flows o |>) ;;; ret true
    else ret false.

(** The walk of [resolve_ambiguous_flows] over the identities [index + 1],
    [index + 2], ... *)
Fixpoint resolve_from (count : nat) (index : N) : Co unit :=
  match count with
  | O => ret tt
  | S count =>
      let* c := get in
      match flow (cd_scheduler c) (index + 1) with
      | Ok snapshot =>
          if bool_decide (fs_lifecycle snapshot = Ambiguous) then
            let* resolved :=
              call (resolve_ambiguous (index + 1) (fs_generation snapshot) Retry (cd_now c)) in
            match resolved with
            | Err _ => report
            | Ok _ => modify (fun c => c <| cd_ambiguities_resolved ::= incr64 |>)
            end ;;;
            resolve_from count (index + 1)
          else resolve_from count (index + 1)
      | Err _ => resolve_from count (index + 1)
      end
  end.

Definition resolve_ambiguous_flows : Co unit :=
  let* c := get in
  resolve_from (N.to_nat (flow_count (cd_scheduler c))) 0.

(** [open_scheduler] after [Scheduler::create]. *)
Definition open_scheduler (draws : nat) : Co bool :=
  let* c := get in
  let recovery := recovery_report (cd_scheduler c) in
  (if rp_recovered recovery then report else ret tt) ;;;
  if rp_recovered recovery && (0 <? flow_count (cd_scheduler c)) then
    modify (fun c => c <| cd_flows_admitted := flow_count (cd_scheduler c) |>) ;;;
    resolve_ambiguous_flows ;;;
    ret true
  else
    let* ok := register_topology in
    if ok : bool then admit_flows draws else ret false.

(** ** Handshake *)

(** The candidate is turned away: its socket is closed. *)
Definition refuse (candidate : Peer) : Co bool :=
  modify (fun c => c <| cd_refused ::= fun l =>
    l ++ [candidate <| pe_socket ::= fun s => s <| so_valid := false |> |>] |>) ;;;
  ret false.

(** Sends on a connection that is not in [peers_] yet. *)
Definition send_candidate (type : MessageType) (payload : bytes) (candidate : Peer)
  : Co (Peer * Status) :=
  let '(candidate, r) := send_peer type payload candidate in
  let* sent := await r in ret (candidate, sent).

Definition rejection (reason : ErrorCode) (detail : string) : HelloAckMessage :=
  mkHelloAckMessage false (error_code_value reason) detail 0 0 0 0 0 0 0 0.

Definition acknowledgement (im : Impl) (hello : HelloMessage) : HelloAckMessage :=
  let binding := im_policy_binding im in
  mkHelloAckMessage true (error_code_value EOk) "accepted" (hm_worker hello) (hm_boot hello)
    (im_epoch im) (pb_policy binding) (pb_generation binding) (pb_digest binding)
    kMaxFramePayload 0.

Definition protocol_error (detail : string) : bytes :=
  encode (mkErrorMessage (error_code_value ProtocolViolation) detail).

Section Run.

(** The order in which the attempt table is walked, and the message of an
    error with this code. *)
Context (order : gmap N OpenAttempt -> list N) (error_message : ErrorCode -> string).

(** One connection of [handshake] once it is accepted.  The code's loop over at
    most [kMaxHandshakeFrames] frames leaves at its first turn: every branch
    returns or greets. *)
Definition greet (socket : Socket) : Co bool :=
  let candidate := mkPeer socket new_accumulator 0 0 false in
  let '(candidate, r) := receive_within kHandshakeBudgetMs candidate in
  let* received := await r in
  match received with
  | Err _ | Ok RIdle | Ok RClosed => refuse candidate
  | Ok (RFrame type payload) =>
      if negb (type =? message_type_value MHello) then
        let* (candidate, _) :=
          send_candidate MError
            (protocol_error "the first frame on a worker connection must be a hello") candidate in
        refuse candidate
      else
        match decode_hello payload with
        | Err e =>
            let* (candidate, _) :=
              send_candidate MHelloAck (encode (rejection e (error_message e))) candidate in
            refuse candidate
        | Ok hello =>
            let* c := get in
            if existsb (fun peer => (pe_worker peer =? hm_worker hello)
                                    && (pe_boot peer =? hm_boot hello)) (cd_peers c)
            then
              let* (candidate, _) :=
                send_candidate MHelloAck
                  (encode (rejection Fenced "this worker incarnation is already connected"))
                  candidate in
              refuse candidate
            else
              let* (candidate, sent) :=
                send_candidate MHelloAck (encode (acknowledgement (cd_scheduler c) hello))
                  candidate in
              match sent with
              | Err _ => refuse candidate
              | Ok _ =>
                  let peer := candidate <| pe_worker := hm_worker hello |>
                                        <| pe_boot := hm_boot hello |> <| pe_alive := true |> in
                  modify (fun c => c <| cd_peers ::= fun l => l ++ [peer] |>) ;;;
                  match co_state (cd_options c) with
                  | EmptyString => ret tt
                  | _ => report
                  end ;;;
                  ret true
              end
        end
  end.

(** [handshake]: accepts [count] connections, stopping at the first refusal. *)
Fixpoint handshake (count : nat) : Co bool :=
  match count with
  | O => ret true
  | S count =>
      let* c := get in
      match cd_accepts c with
      | [] => throw Parked
      | accepted :: accepts =>
          modify (fun c => c <| cd_accepts := accepts |>) ;;;
          match accepted with
          | Err _ => ret false
          | Ok socket =>
              let* ok := greet socket in
              if ok : bool then handshake count else ret false
          end
      end
  end.

(** ** Dispatch *)

(** The first live peer at or after the round-robin position; [peers_.size()]
    when there is none. *)
Definition pick_worker : Co nat :=
  let* c := get in
  let peers := cd_peers c in
  let total := length peers in
  match list_find (fun index => pe_alive <$> peers !! index = Some true)
          ((fun probe => (cd_round_robin c + probe) mod total)%nat <$> seq 0 total) with
  | Some (_, index) =>
      modify (fun c => c <| cd_round_robin := ((index + 1) mod total)%nat |>) ;;; ret index
  | None => ret total
  end.

Definition nominal_work (im : Impl) (id : FlowId) : N :=
  match flow im id with
  | Err _ => 0
  | Ok snapshot =>
      if fs_served_work snapshot <? fs_estimated_work snapshot
      then fs_estimated_work snapshot - fs_served_work snapshot else 0
  end.

(** One attempt of a peer that is being retired. *)
Definition abandon_tracked (reason : string) (attempt : DispatchAttemptId) : Co unit :=
  let* c := get in
  let* status := call (abandon_attempt attempt reason (cd_now c)) in
  match status with
  | Ok _ | Err UnknownAttempt => ret tt
  | Err _ => report
  end ;;;
  modify (fun c => c <| cd_attempts ::= delete attempt |>).

Fixpoint abandon_all (reason : string) (attempts : list DispatchAttemptId) : Co unit :=
  match attempts with
  | [] => ret tt
  | attempt :: attempts => abandon_tracked reason attempt ;;; abandon_all reason attempts
  end.

(** The attempts of a peer, in the order of the walk. *)
Definition attempts_of (peer : nat) (attempts : gmap N OpenAttempt) : list DispatchAttemptId :=
  filter (fun a => oa_peer <$> attempts !! a = Some peer) (order attempts).

Definition close_peer (peer : Peer) : Peer :=
  if pe_alive peer
  then peer <| pe_alive := false |> <| pe_socket ::= fun s => s <| so_valid := false |> |>
  else peer.

Definition retire_peer (peer : nat) (reason : string) : Co unit :=
  let* c := get in
  if (length (cd_peers c) <=? peer)%nat then ret tt
  else
    modify (fun c => c <| cd_peers ::= alter close_peer peer |>) ;;;
    let attempts := attempts_of peer (cd_attempts c) in
    abandon_all reason attempts ;;;
    modify (fun c => c <| cd_abandoned_on_peer_loss ::=
      fun n => add64 n (N.of_nat (length attempts)) |>) ;;;
    resolve_ambiguous_flows.

Fixpoint dispatch_entries (schedule : ScheduleId) (g : Generation) (entries : list ScheduleEntry)
  : Co unit :=
  match entries with
  | [] => ret tt
  | entry :: entries =>
      if negb (is_run entry) then dispatch_entries schedule g entries
      else
        let* index := pick_worker in
        let* c := get in
        match cd_peers c !! index with
        | None => ret tt
        | Some peer =>
            let* ticket := call (begin_dispatch schedule g (se_ordinal entry)
                                   (pe_worker peer) (pe_boot peer) (cd_now c)) in
            match ticket with
            | Err _ =>
                modify (fun c => c <| cd_dispatch_failures ::= incr64 |>) ;;;
                report ;;;
                dispatch_entries schedule g entries
            | Ok ticket =>
                modify (fun c => c <| cd_attempts ::=
                  <[ tk_attempt ticket := mkOpenAttempt index ticket false ]> |>) ;;;
                let* c := get in
                let* sent := send_to index MDispatch
                  (encode (mkDispatchMessage ticket
                             (nominal_work (cd_scheduler c) (tk_flow ticket)))) in
                match sent with
                | Err _ =>
                    report ;;;
                    retire_peer index "the dispatch frame could not be delivered"
                | Ok _ => modify (fun c => c <| cd_dispatches_issued ::= incr64 |>)
                end ;;;
                dispatch_entries schedule g entries
            end
        end
  end.

Definition dispatch_schedule (s : Schedule) : Co unit :=
  dispatch_entries (sc_schedule s) (sc_generation s) (sc_entries s).

(** ** Frames from the workers *)

(** The code of an error frame as [to_string] prints it: any 16-bit value may
    arrive. *)
Definition all_error_codes : list ErrorCode :=
  [EOk; InvalidArgument; OutOfRange; ArithmeticOverflow; Bounded; Unsupported; Internal;
   NotFound; AlreadyExists; UnknownFlow; UnknownSchedule; UnknownResource; UnknownReservation;
   UnknownAttempt; UnknownPolicy; UnknownWorker; StaleFlowGeneration; StalePathGeneration;
   StaleResourceGeneration; StaleReservationGeneration; StalePolicyGeneration;
   StaleQoSGeneration; StalePriorityGeneration; StaleScheduleGeneration; StaleEpoch;
   StaleAttempt; StaleAuthority; Fenced; InvalidState; NotReady; NotReleased;
   DependencyUnsatisfied; CapacityUnavailable; ReservationClosed; EReservationExhausted;
   DeadlinePassed; ECancelled; ZeroQuantum; ConcurrencyLimit; NotPreemptible;
   EPreemptionThrottled; DuplicateCompletion; ContradictoryCompletion;
   CompletionForClosedAttempt; AmbiguousOutcome; CorruptData; Truncated; Oversized; SequenceGap;
   IoFailure; TransportFailure; PeerClosed; HandshakeRejected; ProtocolViolation; Busy].

Definition wire_code_string (value : N) : string :=
  match list_find (fun e => error_code_value e = value) all_error_codes with
  | Some (_, e) => error_code_string e
  | None => "unknown-error-code"
  end.

Definition wire_type_string (value : N) : string :=
  match list_find (fun t => message_type_value t = value)
          [MInvalid; MHello; MHelloAck; MDispatch; MDispatchRejected; MStarted; MCompletion;
           MShutdown; MError; MHeartbeat] with
  | Some (_, t) => message_type_name t
  | None => "unknown-message"
  end.

(** Honours [--exit-after], which never returns, and [--kill-after]. *)
Definition maybe_finish_after_completion : Co unit :=
  let* c := get in
  let o := cd_options c in
  if negb (co_exit_after o =? 0) && (co_exit_after o <=? cd_completions_applied c) then
    print ("CRASH " +:+ pretty (cd_completions_applied c)) ;;;
    throw Crashed
  else if negb (co_kill_after o =? 0) && (co_kill_after o <=? cd_completions_applied c)
          && negb (cd_worker_killed c) then
    modify (fun c => c <| cd_worker_killed := true |>) ;;;
    if negb (bool_decide (cd_peers c = [])) then
      retire_peer 0 "simulated worker death (--kill-after)"
    else ret tt
  else ret tt.

Definition handle_started (payload : bytes) : Co unit :=
  match decode_started payload with
  | Err _ => report
  | Ok started =>
      let* c := get in
      match cd_attempts c !! sm_attempt started with
      | None => report
      | Some open =>
          if oa_started open then ret tt
          else
            let* marked := call (mark_started (oa_ticket open) (cd_now c)) in
            match marked with
            | Err _ => report
            | Ok _ => modify (fun c => c <| cd_attempts ::=
                        <[ sm_attempt started := open <| oa_started := true |> ]> |>)
            end
      end
  end.

Definition handle_completion (payload : bytes) : Co unit :=
  match decode_completion payload with
  | Err _ => report
  | Ok completion =>
      let evidence := cm_evidence completion in
      let* c := get in
      let* committed := call (complete evidence (cd_now c)) in
      match committed with
      | Err _ => modify (fun c => c <| cd_fatal := true |>)
      | Ok outcome =>
          if bool_decide (co_disposition outcome = Applied) then
            modify (fun c => c <| cd_attempts ::= delete (ev_attempt evidence) |>
                               <| cd_completions_applied ::= incr64 |>) ;;;
            maybe_finish_after_completion
          else
            modify (fun c => c <| cd_completions_rejected ::= incr64 |>) ;;;
            report
      end
  end.

Definition handle_dispatch_rejected (payload : bytes) : Co unit :=
  match decode_dispatch_rejected payload with
  | Err _ => report
  | Ok rejected =>
      let* c := get in
      (if bool_decide (is_Some (cd_attempts c !! dr_attempt rejected))
       then abandon_tracked "the worker rejected the dispatch" (dr_attempt rejected)
       else ret tt) ;;;
      report
  end.

Definition handle_error (peer : nat) (payload : bytes) : Co unit :=
  retire_peer peer ("the worker reported " +:+
    match decode_error payload with
    | Ok e => wire_code_string (em_code e) +:+ ": " +:+ em_detail e
    | Err _ => "undecodable error frame"
    end).

Definition handle_frame (peer : nat) (type : N) (payload : bytes) : Co unit :=
  if type =? message_type_value MStarted then handle_started payload
  else if type =? message_type_value MCompletion then handle_completion payload
  else if type =? message_type_value MDispatchRejected then handle_dispatch_rejected payload
  else if type =? message_type_value MError then handle_error peer payload
  else
    send_to peer MError
      (protocol_error "unexpected frame type outside the dispatch protocol") ;;;
    retire_peer peer ("unexpected frame type " +:+ wire_type_string type).

(** The inner loop of [drain_pass]: the frames delivered so far, and whether
    the pass stops here.  A pass never delivers more than [kMaxFramesPerDrain],
    so that many turns are enough. *)
Fixpoint drain_peer (fuel : nat) (index : nat) (frames : N) : Co (N * bool) :=
  match fuel with
  | O => throw OutOfFuel
  | S fuel =>
      let* received := receive_now index in
      match received with
      | Err e =>
          retire_peer index
            ("transport failure: " +:+ error_to_string e (error_message e)) ;;;
          ret (frames, false)
      | Ok RClosed => retire_peer index "peer closed the connection" ;;; ret (frames, false)
      | Ok RIdle => ret (frames, false)
      | Ok (RFrame type payload) =>
          let frames := frames + 1 in
          handle_frame index type payload ;;;
          let* c := get in
          if cd_fatal c then ret (frames, true)
          else if kMaxFramesPerDrain <=? frames then report ;;; ret (frames, true)
          else drain_peer fuel index frames
      end
  end.

Fixpoint drain_peers (indices : list nat) (frames : N) : Co N :=
  match indices with
  | [] => ret frames
  | index :: indices =>
      let* c := get in
      match cd_peers c !! index with
      | Some peer =>
          if negb (pe_alive peer) then drain_peers indices frames
          else
            let* (frames, stop) :=
              drain_peer (N.to_nat (kMaxFramesPerDrain - frames)) index frames in
            if stop : bool then ret frames else drain_peers indices frames
      | None => drain_peers indices frames
      end
  end.

Definition drain_pass : Co N :=
  let* c := get in
  drain_peers (seq 0 (length (cd_peers c))) 0.

Definition drain (wait : bool) : Co unit :=
  let* frames := drain_pass in
  let* c := get in
  if (0 <? frames) || cd_fatal c || negb wait then ret tt
  else
    let sockets := (fun peer => so_valid (pe_socket peer)) <$>
                   filter (fun peer => pe_alive peer = true) (cd_peers c) in
    if bool_decide (sockets = []) then ret tt
    else
      match cd_selects c with
      | [] => throw Parked
      | answer :: selects =>
          modify (fun c => c <| cd_selects := selects |>) ;;;
          match wait_readable sockets answer with
          | Err _ => report
          | Ok [] => ret tt
          | Ok _ => drain_pass ;;; ret tt
          end
      end.

(** ** The run *)

Definition all_flows_terminal (c : Coordinator) : bool :=
  if cd_flows_admitted c =? 0 then true
  else
    let report := accounting (cd_scheduler c) in
    cd_flows_admitted c <=? add64 (add64 (ar_completed report) (ar_cancelled report))
                              (ar_failed report).

(** One turn of [main_loop]'s while: [Some] when the loop ends, with what
    [main_loop] returns. *)
Definition round : Co (option bool) :=
  let* c := get in
  if all_flows_terminal c then
    modify (fun c => c <| cd_converged := true |>) ;;; ret (Some true)
  else
    let* outcome := call (arbitrate (cd_now c)) in
    match outcome with
    | Err _ => ret (Some false)
    | Ok outcome =>
        modify (fun c => c <| cd_rounds_run ::= incr64 |>) ;;;
        dispatch_schedule (ao_schedule outcome) ;;;
        let* c := get in
        drain (negb (bool_decide (cd_attempts c = ∅))) ;;;
        let* c := get in
        if cd_fatal c then ret (Some false)
        else
          modify (fun c => c <| cd_now := add64 (cd_now c) (cd_round_step c) |>) ;;;
          ret None
    end.

Fixpoint rounds_loop (fuel : nat) : Co bool :=
  let* c := get in
  if cd_rounds_run c <? co_rounds (cd_options c) then
    match fuel with
    | O => throw OutOfFuel
    | S fuel =>
        let* ended := round in
        match ended with
        | Some result => ret result
        | None => rounds_loop fuel
        end
    end
  else ret true.

Definition main_loop : Co bool :=
  let* c := get in
  let step := co_interval (cd_options c) / 100 in
  modify (fun c => c <| cd_round_step := if step =? 0 then 1 else step |>) ;;;
  rounds_loop (N.to_nat (co_rounds (cd_options c))).

(** Tells every live peer to stop and ends its send direction. *)
Fixpoint shutdown_from (indices : list nat) : Co unit :=
  match indices with
  | [] => ret tt
  | index :: indices =>
      let* c := get in
      match cd_peers c !! index with
      | Some peer =>
          if pe_alive peer then
            let* sent := send_to index MShutdown (encode (mkShutdownMessage "run complete")) in
            match sent with Err _ => report | Ok _ => ret tt end ;;;
            modify (fun c => c <| cd_peers ::=
              alter (fun peer => peer <| pe_alive := false |>) index |>) ;;;
            shutdown_from indices
          else shutdown_from indices
      | None => shutdown_from indices
      end
  end.

Definition shutdown_peers : Co unit :=
  let* c := get in
  shutdown_from (seq 0 (length (cd_peers c))).

(** The SUMMARY line. *)
Definition summary (c : Coordinator) : string :=
  "SUMMARY" +:+ field " completed" (ar_completed (accounting (cd_scheduler c))) +:+
  field " rounds" (cd_rounds_run c) +:+ field " epoch" (im_epoch (cd_scheduler c)) +:+
  field " dispatches" (cd_dispatches_issued c).

(** [Coordinator::run] from the open scheduler to the end of [main_loop]. *)
Definition session (draws : nat) : Co bool :=
  let* opened := open_scheduler draws in
  if negb opened then ret false
  else
    let* c := get in
    let* greeted := handshake (N.to_nat (co_workers (cd_options c))) in
    if negb greeted then ret false else main_loop.

(** [Coordinator::run] once the scheduler exists: the exit status. *)
Definition serve (draws : nat) : Co N :=
  let* finished := session draws in
  if negb finished then ret 1
  else
    shutdown_peers ;;;
    let* c := get in
    match validate_report (accounting (cd_scheduler c)) with
    | Err _ => ret 1
    | Ok _ =>
        print (summary c) ;;;
        print (report_string (accounting (cd_scheduler c))) ;;;
        ret 0
    end.

End Run.

(** The durable directory [--state] names: its files and the answers of its
    writes. *)
Record StateDirectory := mkStateDirectory {
  sd_journal : bytes;
  sd_snapshot : option bytes;
  sd_io : list IoEvent }.

(** [Scheduler::create] with the options of [open_scheduler]. *)
Definition create (o : CoordinatorOptions) (dir : StateDirectory) : Res Impl :=
  match co_state o with
  | EmptyString => create_volatile (make_policy o)
  | _ => create_durable (make_policy o) (sd_journal dir) (sd_snapshot dir) true (sd_io dir)
  end.

(** [Coordinator::run]: binds, announces an ephemeral port, opens the scheduler
    and serves.  [bound] is the answer of [Listener::bind]. *)
Definition coordinator_run (order : gmap N OpenAttempt -> list N)
  (error_message : ErrorCode -> string) (draws : nat) (o : CoordinatorOptions)
  (bound : Res N) (dir : StateDirectory) (accepts : list (Res Socket))
  (selects : list SelectAnswer) : option Coordinator * Result Halt N :=
  match bound with
  | Err _ => (None, Ok 1)
  | Ok port =>
      match create o dir with
      | Err _ => (None, Ok 1)
      | Ok im =>
          let '(c, r) :=
            ((if co_port o =? 0 then print ("PORT " +:+ pretty port) else ret tt) ;;;
             serve order error_message draws) (new_coordinator o im accepts selects) in
          (Some c, r)
      end
  end.
