(* ===== verification/Worker.v ===== *)
(** * The worker process

    Models tools/fs_worker.cpp: [read_frame_bounded], [connect_with_retry],
    [make_evidence] and [run].

    As in Coordinator.v the operating system is an input: the answers of
    connecting, of [select] with the clock, of [recv] and of [send].  The
    process ends with an exit status, or is still waiting for the system. *)

From S2P Require Import Prelude Checked Bytes Hash Model Schedule Codec Framing Transport Protocol.
From S2P Require Import Observe Commandline.

(** [ws_sent] are the bytes the system accepted, [ws_output] the lines on
    standard output; [ws_channel] is the receiving half of the channel. *)
Record WorkerState := mkWorkerState {
  ws_polls : list (SelectAnswer * N);
  ws_receives : list RecvAnswer;
  ws_sends : list SendAnswer;
  ws_channel : FrameAccumulator;
  ws_sent : bytes;
  ws_observed_tick : N;
  ws_completions : N;
  ws_output : list string }.

#[export] Instance eta_WorkerState : Eta WorkerState := fun w =>
  mkWorkerState (ws_polls w) (ws_receives w) (ws_sends w) (ws_channel w) (ws_sent w)
    (ws_observed_tick w) (ws_completions w) (ws_output w).

Definition new_worker (polls : list (SelectAnswer * N)) (receives : list RecvAnswer)
  (sends : list SendAnswer) : WorkerState :=
  mkWorkerState polls receives sends new_accumulator [] 0 0 [].

Inductive WorkerEnd : Type :=
| Exited (status : N)
| StillWaiting
| WorkerOutOfFuel.

Definition Wk (A : Type) : Type := M WorkerEnd WorkerState A.

(** [fail]: a diagnostic and [std::exit]. *)
Definition fail {A} (status : N) : Wk A := throw (Exited status).

Definition settle {A} (r : Blocking A) : Wk A :=
  match r with
  | Returned a => ret a
  | Blocked => throw StillWaiting
  end.

Definition kConnectWindowMs : N := 10000.
Definition kReplyBudgetMs : N := 10000.

(** ** The channel *)

Definition channel_send (type : MessageType) (payload : bytes) : Wk Status :=
  let* w := get in
  let '(sends, sent, r) := send_frame true (ws_sends w) (message_type_value type) payload in
  modify (fun w => w <| ws_sends := sends |> <| ws_sent ::= fun b => b ++ sent |>) ;;;
  settle r.

Definition channel_read : Wk (Res (option (N * bytes))) :=
  let* w := get in
  let '(receives, acc, r) := read_frame true (ws_receives w) (ws_channel w) in
  modify (fun w => w <| ws_receives := receives |> <| ws_channel := acc |>) ;;;
  settle r.

(** The polls of [read_frame_bounded]: readable, failed or out of time. *)
Fixpoint await_readable (polls : list (SelectAnswer * N))
  : list (SelectAnswer * N) * Blocking Status :=
  match polls with
  | [] => ([], Blocked)
  | (answer, elapsed) :: polls =>
      match wait_readable [true] answer with
      | Err e => (polls, Returned (Err e))
      | Ok [] =>
          if kReplyBudgetMs <=? elapsed then (polls, Returned (Err TransportFailure))
          else await_readable polls
      | Ok _ => (polls, Returned (Ok tt))
      end
  end.

Definition read_frame_bounded : Wk (Res (option (N * bytes))) :=
  let* w := get in
  let '(polls, r) := await_readable (ws_polls w) in
  modify (fun w => w <| ws_polls := polls |>) ;;;
  let* readable := settle r in
  match readable with
  | Err e => ret (Err e)
  | Ok _ => channel_read
  end.

(** [connect_with_retry]: one answer per attempt, with the clock after it. *)
Fixpoint connect_with_retry (attempts : list (Status * N)) : Blocking Status :=
  match attempts with
  | [] => Blocked
  | (Ok _, _) :: _ => Returned (Ok tt)
  | (Err _, elapsed) :: attempts =>
      if kConnectWindowMs <=? elapsed then Returned (Err TransportFailure)
      else connect_with_retry attempts
  end.

(** ** Evidence *)

Definition make_evidence (t : DispatchTicket) (o : WorkerOptions) (observed_tick : N)
  : CompletionEvidence :=
  let epoch := if wo_stale_evidence o then add64 (tk_epoch t) 1 else tk_epoch t in
  let served := if (wo_served o <? 0)%Z then tk_quantum t
                else if Z.to_N (wo_served o) <? tk_quantum t then Z.to_N (wo_served o)
                else tk_quantum t in
  let effect_digest := mix64 (N.lxor (tk_digest t) (tk_attempt t)) in
  mkCompletionEvidence (tk_schedule t) (tk_schedule_generation t) (tk_attempt t) epoch
    (tk_flow t) (tk_flow_generation t) (tk_worker t) (tk_boot t) CServed served
    1 effect_digest observed_tick
    (mkProvenance OExternal (tk_attempt t) (mix64 effect_digest)).

Definition started_message (t : DispatchTicket) (observed_tick : N) : StartedMessage :=
  mkStartedMessage (tk_attempt t) (tk_epoch t) observed_tick.

(** ** The run *)

(** A Dispatch frame: a Started frame, then a Completion frame. *)
Definition serve_dispatch (o : WorkerOptions) (payload : bytes) : Wk unit :=
  match decode_dispatch payload with
  | Err _ => fail 4
  | Ok dispatch =>
      modify (fun w => w <| ws_observed_tick ::= incr64 |>) ;;;
      let* w := get in
      let ticket := dm_ticket dispatch in
      let tick := ws_observed_tick w in
      let* acknowledged := channel_send MStarted (encode (started_message ticket tick)) in
      match acknowledged with
      | Err _ => fail 4
      | Ok _ =>
          let* reported :=
            channel_send MCompletion
              (encode (mkCompletionMessage (make_evidence ticket o tick))) in
          match reported with
          | Err _ => fail 4
          | Ok _ =>
              modify (fun w => w <| ws_completions ::= incr64 |>) ;;;
              let* w := get in
              if negb (wo_exit_after o =? 0) && (wo_exit_after o <=? ws_completions w)
              then throw (Exited 0) else ret tt
          end
      end
  end.

(** One frame of the main loop: [Some] when the process returns from [run]. *)
Definition serve_frame (o : WorkerOptions) (type : N) (payload : bytes) : Wk (option N) :=
  if type =? message_type_value MDispatch then serve_dispatch o payload ;;; ret None
  else if type =? message_type_value MShutdown then
    match decode_shutdown payload with
    | Err _ => fail 4
    | Ok _ => modify (fun w => w <| ws_output ::= fun l => l ++ ["BYE"%string] |>) ;;; ret (Some 0)
    end
  else fail 4.

Fixpoint worker_loop (fuel : nat) (o : WorkerOptions) : Wk N :=
  match fuel with
  | O => throw WorkerOutOfFuel
  | S fuel =>
      let* next := channel_read in
      match next with
      | Err _ => fail 4
      | Ok None => fail 5
      | Ok (Some (type, payload)) =>
          let* ended := serve_frame o type payload in
          match ended with
          | Some status => ret status
          | None => worker_loop fuel o
          end
      end
  end.

Definition banner (ack : HelloAckMessage) (o : WorkerOptions) : string :=
  "WORKER" +:+ field " worker" (ha_worker ack) +:+ field " boot" (ha_boot ack) +:+
  field " epoch" (ha_epoch ack) +:+ field " port" (wo_port o).

Definition worker_hello (o : WorkerOptions) : HelloMessage :=
  mkHelloMessage (wo_worker o) (wo_boot o) (wo_label o) kProtocolVersion.

(** [run] behind a connection: the exit status. *)
Definition worker_session (fuel : nat) (o : WorkerOptions) : Wk N :=
  let* sent := channel_send MHello (encode (worker_hello o)) in
  match sent with
  | Err _ => fail 4
  | Ok _ =>
      let* received := read_frame_bounded in
      match received with
      | Err _ | Ok None => fail 4
      | Ok (Some (type, payload)) =>
          if negb (type =? message_type_value MHelloAck) then fail 4
          else
            match decode_hello_ack payload with
            | Err _ => fail 4
            | Ok ack =>
                if negb (ha_accepted ack) then ret 3
                else
                  (if negb (wo_quiet o)
                   then modify (fun w => w <| ws_output ::= fun l => l ++ [banner ack o] |>)
                   else ret tt) ;;;
                  worker_loop fuel o
            end
      end
  end.

Definition worker_run (fuel : nat) (o : WorkerOptions) (attempts : list (Status * N))
  (w : WorkerState) : WorkerState * Result WorkerEnd N :=
  match connect_with_retry attempts with
  | Blocked => (w, Err StillWaiting)
  | Returned (Err _) => (w, Err (Exited 2))
  | Returned (Ok _) => worker_session fuel o w
  end.
