(* ===== verification/Bench.v ===== *)
(** * The synthetic benchmark

    Models src/bench.cpp, [Rng::next_bool] of src/hash.cpp, and the driver
    bench/flow_scheduler_bench.cpp: the validated parameters, the seeded
    population, the run that drives a scheduler round by round through
    arbitration, dispatch, start and completion, and the figures it reports.

    A [double] is a binary64 of the Standard Library's SpecFloat, with its
    correctly rounded operations.  The wall clock is an input.  The rejection
    loops of the generator run on [draws] turns; [None] is a run that needed
    more.  The rounds are counted down from [max_rounds], as the loop's own
    condition does. *)

From S2P Require Import Prelude Checked Bytes Hash Model Schedule Codec Journal State.
From S2P Require Import Transitions Arbitrate Operations Recovery Observe Commandline Coordinator.
From Stdlib Require Import ZArith SpecFloat Ascii.

(** ** Doubles *)

Abbreviation double := spec_float (only parsing).

Definition dzero : double := S754_zero false.
Definition of_u64 (n : N) : double := binary_normalize 53 1024 (Z.of_N n) 0 false.
Definition dmul (x y : double) : double := SFmul 53 1024 x y.
Definition dadd (x y : double) : double := SFadd 53 1024 x y.
Definition ddiv (x y : double) : double := SFdiv 53 1024 x y.
Definition done1 : double := of_u64 1.
(** 0.5, 0.25 and 0.99 as the compiler rounds them. *)
Definition dhalf : double := ddiv done1 (of_u64 2).
Definition dquarter : double := ddiv done1 (of_u64 4).
Definition d99 : double := ddiv (of_u64 99) (of_u64 100).

(** [static_cast<std::uint64_t>]: truncation towards zero; undefined where the
    result does not fit. *)
Definition to_u64 (x : double) : option N :=
  match x with
  | S754_zero _ => Some 0
  | S754_finite false m e =>
      let v := match e with
               | Zneg k => N.pos m / 2 ^ N.pos k
               | _ => N.pos m * 2 ^ Z.to_N e
               end in
      if u64_max <? v then None else Some v
  | _ => None
  end.

(** [Rng::next_bool] *)
Definition kScale : N := 4294967296.
Definition rng_next_bool (draws : nat) (probability_true : double) (state : N)
  : option (N * bool) :=
  if SFleb probability_true dzero then Some (state, false)
  else if SFleb done1 probability_true then Some (state, true)
  else
    threshold ← to_u64 (dmul probability_true (of_u64 kScale));
    '(state, v) ← rng_next_below draws kScale state;
    Some (state, v <? threshold).

(** ** Parameters *)

Record BenchmarkParameters := mkBenchmarkParameters {
  bp_flow_count : N;
  bp_priority_classes : N;
  bp_fairness_groups : N;
  bp_deadline_density : double;
  bp_dependency_density : double;
  bp_concurrency : N;
  bp_capacity_per_interval : N;
  bp_interval_ticks : Ticks;
  bp_service_quantum : N;
  bp_estimated_work : N;
  bp_schedule_delivery_horizon : Ticks;
  bp_seed : N;
  bp_durable : bool;
  bp_durability_directory : string;
  bp_max_rounds : N;
  bp_round_advance_ticks : Ticks;
  bp_collect_histories : bool }.

#[export] Instance eta_BenchmarkParameters : Eta BenchmarkParameters := fun r =>
  mkBenchmarkParameters (bp_flow_count r) (bp_priority_classes r) (bp_fairness_groups r)
    (bp_deadline_density r) (bp_dependency_density r) (bp_concurrency r)
    (bp_capacity_per_interval r) (bp_interval_ticks r) (bp_service_quantum r)
    (bp_estimated_work r) (bp_schedule_delivery_horizon r) (bp_seed r) (bp_durable r)
    (bp_durability_directory r) (bp_max_rounds r) (bp_round_advance_ticks r)
    (bp_collect_histories r).

Definition default_parameters : BenchmarkParameters :=
  mkBenchmarkParameters 10000 4 4 dhalf dquarter 8 64 1000 4 16 5000 1592594996 false
    EmptyString 5000000 1000 false.

Definition in_unit_range (x : double) : bool := SFleb dzero x && SFleb x done1.

Definition validate_parameters (p : BenchmarkParameters) : Status :=
  fail_if (bp_flow_count p =? 0) || (kMaxFlows <? bp_flow_count p) with OutOfRange ;;
  fail_if (bp_priority_classes p =? 0) || (kMaxPriorityClasses <? bp_priority_classes p)
    with OutOfRange ;;
  fail_if (bp_fairness_groups p =? 0) || (kMaxFlows <? bp_fairness_groups p) with OutOfRange ;;
  fail_if negb (in_unit_range (bp_deadline_density p)) with InvalidArgument ;;
  fail_if negb (in_unit_range (bp_dependency_density p)) with InvalidArgument ;;
  fail_if (bp_concurrency p =? 0) || (kMaxServiceUnits <? bp_concurrency p) with OutOfRange ;;
  fail_if (bp_capacity_per_interval p =? 0) || (kMaxServiceUnits <? bp_capacity_per_interval p)
    with OutOfRange ;;
  fail_if (bp_interval_ticks p =? 0) || (kMaxTickHorizon <? bp_interval_ticks p)
    with OutOfRange ;;
  fail_if (bp_service_quantum p =? 0) || (kMaxQuantum <? bp_service_quantum p) with OutOfRange ;;
  fail_if (bp_estimated_work p =? 0) || (kMaxServiceUnits <? bp_estimated_work p)
    with OutOfRange ;;
  fail_if (bp_round_advance_ticks p =? 0) || (kMaxTickHorizon <? bp_round_advance_ticks p)
    with OutOfRange ;;
  fail_if bp_max_rounds p =? 0 with OutOfRange ;;
  Ok tt.

Definition saturating_mul (a b : N) : N :=
  if (a =? 0) || (b =? 0) then 0 else if u64_max / b <? a then u64_max else mul64 a b.

(** ** The population *)

Record SyntheticFlow := mkSyntheticFlow {
  sf_flow : FlowId;
  sf_generation : Generation;
  sf_resource : ResourceId;
  sf_resource_generation : Generation;
  sf_priority : PriorityClassId;
  sf_priority_generation : Generation;
  sf_qos : QoSClassId;
  sf_qos_generation : Generation;
  sf_fairness_group : FairnessGroupId;
  sf_release_tick : Ticks;
  sf_deadline_tick : Ticks;
  sf_estimated_work : N;
  sf_service_quantum : N;
  sf_weight : N;
  sf_dependency : FlowId;
  sf_has_dependency : bool }.

(** The intervals one service of the whole population takes. *)
Definition dispatches_per_interval (p : BenchmarkParameters) : N :=
  if bp_capacity_per_interval p / bp_service_quantum p =? 0 then 1
  else bp_capacity_per_interval p / bp_service_quantum p.
Definition service_intervals (p : BenchmarkParameters) : N :=
  let n := mul64 (bp_flow_count p) 8 / dispatches_per_interval p in
  if n =? 0 then 1 else n.

(** [a - b] on [std::uint64_t]. *)
Definition sub64 (a b : N) : N := wrap64 (a + (u64_mod - b)).

Definition draw_deadline (draws : nat) (p : BenchmarkParameters) (release : Ticks) (state : N)
  : option (N * Ticks) :=
  '(state, carries) ← rng_next_bool draws (bp_deadline_density p) state;
  if carries : bool then
    '(state, extra) ← rng_next_below draws (add64 (service_intervals p) 1) state;
    let slack_windows := add64 (service_intervals p) extra in
    let span := saturating_mul slack_windows (bp_interval_ticks p) in
    let deadline := if sub64 kMaxTickHorizon span <? release then kMaxTickHorizon
                    else add64 release span in
    Some (state, if release <? deadline then deadline else kNoDeadline)
  else Some (state, kNoDeadline).

(** One turn of the loop: the draws of flow [index], in their order. *)
Definition draw_flow (draws : nat) (p : BenchmarkParameters) (index state : N)
  : option (N * SyntheticFlow) :=
  let wave := if bp_concurrency p =? 0 then 1 else bp_concurrency p in
  '(state, priority) ← rng_next_below draws (bp_priority_classes p) state;
  '(state, group) ← rng_next_below draws (bp_fairness_groups p) state;
  let release := mul64 (index / wave) (bp_interval_ticks p) in
  '(state, deadline) ← draw_deadline draws p release state;
  '(state, work) ← rng_next_below draws 4 state;
  '(state, weight) ← rng_next_below draws 4 state;
  '(state, depends) ← (if 0 <? index
                       then rng_next_bool draws (bp_dependency_density p) state
                       else Some (state, false));
  Some (state,
    mkSyntheticFlow (add64 index 1) 1 1 1 (add64 priority 1) 1 1 1 (add64 group 1) release
      deadline (mul64 (bp_estimated_work p) (add64 1 work)) (bp_service_quantum p)
      (add64 1 weight) (if depends : bool then index else 0) depends).

(** [count] more flows from [index] on. *)
Fixpoint draw_flows (draws : nat) (p : BenchmarkParameters) (count : nat) (index state : N)
  : option (list SyntheticFlow) :=
  match count with
  | O => Some []
  | S count =>
      '(state, flow) ← draw_flow draws p index state;
      rest ← draw_flows draws p count (index + 1) state;
      Some (flow :: rest)
  end.

Definition generate_synthetic_population (draws : nat) (p : BenchmarkParameters)
  : option (Res (list SyntheticFlow)) :=
  match validate_parameters p with
  | Err e => Some (Err e)
  | Ok _ =>
      population ← draw_flows draws p (N.to_nat (bp_flow_count p)) 0 (mix64 (bp_seed p));
      Some (Ok population)
  end.

(** ** Setting the scheduler up *)

Definition synthetic_provenance (sequence : N) : Provenance := mkProvenance OSynthetic sequence 0.

(** The defaults of policy.hpp, overridden by the workload's parameters. *)
Definition bench_policy (p : BenchmarkParameters) : SchedulingPolicy :=
  let policy :=
    mkSchedulingPolicy 1 1 PTiered true true true true
      (mul64 (bp_interval_ticks p) 16) (mul64 (bp_interval_ticks p) 2) 1 64 1000000
      kMaxFlows kMaxResources kMaxReservations 4096 kMaxQuantum (bp_concurrency p) 4096
      (mul64 (bp_interval_ticks p) 4) (synthetic_provenance 1) in
  policy <| po_provenance := mkProvenance OSynthetic 1 (digest_of_policy policy) |>.

Definition bench_resource (p : BenchmarkParameters) : ResourceDescriptor :=
  mkResourceDescriptor 1 1 (bp_capacity_per_interval p) (bp_interval_ticks p) (bp_concurrency p)
    (synthetic_provenance 1).

Definition bench_priority (index : N) : PriorityClassDescriptor :=
  mkPriorityClassDescriptor (add64 index 1) 1 (wrap32 index) (add64 1 index)
    (synthetic_provenance (add64 index 1)).

Definition bench_qos : QoSClassDescriptor :=
  mkQoSClassDescriptor 1 1 false 0 (synthetic_provenance 1).

Definition bench_flow (s : SyntheticFlow) : FlowDescriptor :=
  mkFlowDescriptor (sf_flow s) (sf_generation s) (mkBinding (sf_flow s) 1)
    (mkBinding (sf_resource s) (sf_resource_generation s)) unbound_binding
    (mkBinding (sf_priority s) (sf_priority_generation s))
    (mkBinding (sf_qos s) (sf_qos_generation s)) (sf_fairness_group s)
    (sf_estimated_work s) (sf_service_quantum s) 0 0 (sf_release_tick s) (sf_deadline_tick s)
    (sf_weight s) true true 0 (if sf_has_dependency s then [sf_dependency s] else [])
    (sf_flow s) (synthetic_provenance (sf_flow s)).

(** Calls one after the other, until one fails. *)
Definition each {E S A} (f : A -> M E S unit) (l : list A) : M E S unit :=
  foldr (fun x rest => f x ;;; rest) (ret tt) l.

(** [0, 1, ..., count - 1] *)
Definition indices (count : N) : list N := N.of_nat <$> seq 0 (N.to_nat count).

Definition bench_topology (p : BenchmarkParameters) (population : list SyntheticFlow) : Op unit :=
  register_resource (bench_resource p) ;;;
  each (fun index => register_priority_class (bench_priority index))
    (indices (bp_priority_classes p)) ;;;
  register_qos_class bench_qos ;;;
  each (fun s => admit_flow (bench_flow s)) population.

(** ** The rounds *)

(** The scheduler and the function's accumulators. *)
Record Bench := mkBench {
  bn_scheduler : Impl;
  bn_dispatches : N;
  bn_service_units_total : N;
  bn_waits : list N;
  bn_max_continuous_wait : N }.

#[export] Instance eta_Bench : Eta Bench := fun r =>
  mkBench (bn_scheduler r) (bn_dispatches r) (bn_service_units_total r) (bn_waits r)
    (bn_max_continuous_wait r).

Abbreviation BenchM := (M ErrorCode Bench).

(** A call whose failure ends the run, and one whose failure is looked at. *)
Definition on_bench {A} (m : Op A) : BenchM A := fun b =>
  let '(im, r) := m (bn_scheduler b) in (b <| bn_scheduler := im |>, r).
Definition try_bench {A} (m : Op A) : BenchM (Res A) := fun b =>
  let '(im, r) := m (bn_scheduler b) in (b <| bn_scheduler := im |>, Ok r).

Definition record_wait (flow_id : FlowId) (now : Ticks) (b : Bench) : Bench :=
  match flow (bn_scheduler b) flow_id with
  | Ok snapshot =>
      let eligible := fs_eligible_since_tick snapshot in
      let waited := if eligible <=? now then now - eligible else 0 in
      b <| bn_waits ::= fun w => w ++ [waited] |>
        <| bn_max_continuous_wait ::= N.max waited |>
  | Err _ => b
  end.

Definition bench_evidence (t : DispatchTicket) (now : Ticks) : CompletionEvidence :=
  mkCompletionEvidence (tk_schedule t) (tk_schedule_generation t) (tk_attempt t) (tk_epoch t)
    (tk_flow t) (tk_flow_generation t) (tk_worker t) (tk_boot t) CServed (tk_quantum t) 1
    (mix64 (tk_attempt t)) now (synthetic_provenance (tk_attempt t)).

(** One entry of a schedule: dispatched, started and completed on the spot. *)
Definition serve_entry (p : BenchmarkParameters) (now : Ticks) (s : Schedule) (e : ScheduleEntry)
  : BenchM unit :=
  if negb (is_run e) then ret tt
  else
    let worker := add64 1 (se_flow e mod bp_concurrency p) in
    let* dispatch := try_bench (begin_dispatch (sc_schedule s) (sc_generation s) (se_ordinal e)
                                  worker 1 now) in
    match dispatch with
    | Err _ => ret tt
    | Ok ticket =>
        modify (record_wait (se_flow e) now) ;;;
        on_bench (mark_started ticket now) ;;;
        let* committed := on_bench (complete (bench_evidence ticket now) now) in
        modify (fun b => b <| bn_dispatches ::= incr64 |>
                           <| bn_service_units_total ::= fun w => add64 w (co_credited committed) |>)
    end.

(** The loop's variables. *)
Record Rounds := mkRounds {
  ro_now : Ticks;
  ro_rounds : N;
  ro_converged : bool;
  ro_stalled_rounds : N;
  ro_last_terminal : N;
  ro_last_dispatches : N }.

#[export] Instance eta_Rounds : Eta Rounds := fun r =>
  mkRounds (ro_now r) (ro_rounds r) (ro_converged r) (ro_stalled_rounds r)
    (ro_last_terminal r) (ro_last_dispatches r).

Definition kStallRounds : N := 4096.

(** Whether the loop goes on after a round, polled every sixteenth. *)
Definition poll (admitted dispatches : N) (report : AccountingReport) (r : Rounds)
  : Rounds * bool :=
  let terminal := sum64 [ar_completed report; ar_cancelled report; ar_failed report;
                         ar_ambiguous report] in
  if terminal =? admitted then (r <| ro_converged := true |>, false)
  else
    let still := (terminal =? ro_last_terminal r) && (dispatches =? ro_last_dispatches r) in
    let r := if still then r <| ro_stalled_rounds ::= incr64 |>
             else r <| ro_stalled_rounds := 0 |> <| ro_last_terminal := terminal |>
                    <| ro_last_dispatches := dispatches |> in
    if still && (kStallRounds <=? ro_stalled_rounds r) then (r, false)
    else if (ar_ready report =? 0) && (ar_waiting report =? 0) && (ar_scheduled report =? 0)
            && (ar_dispatched report =? 0) && (ar_running report =? 0)
    then (r <| ro_converged := terminal =? admitted |>, false)
    else (r, true).

Definition bench_round (p : BenchmarkParameters) (r : Rounds) : BenchM (Rounds * bool) :=
  let r := r <| ro_rounds ::= incr64 |> in
  let* outcome := on_bench (arbitrate (ro_now r)) in
  each (serve_entry p (ro_now r) (ao_schedule outcome)) (sc_entries (ao_schedule outcome)) ;;;
  let r := r <| ro_now ::= fun now => add64 now (bp_round_advance_ticks p) |> in
  if negb (ro_rounds r mod 16 =? 0) then ret (r, true)
  else
    let* b := get in
    ret (poll (bp_flow_count p) (bn_dispatches b) (accounting (bn_scheduler b)) r).

(** [while (rounds < max_rounds)], with [turns] rounds left. *)
Fixpoint bench_rounds (p : BenchmarkParameters) (turns : nat) (r : Rounds) : BenchM Rounds :=
  match turns with
  | O => ret r
  | S turns =>
      let* (r, again) := bench_round p r in
      if again : bool then bench_rounds p turns r else ret r
  end.

(** ** The report *)

Definition percentile_input (values : list N) : list N := merge_sort N.le values.

(** The index is a finite double for every vector that fits in memory. *)
Definition percentile (sorted : list N) (fraction : double) : N :=
  match sorted with
  | [] => 0
  | front :: _ =>
      if SFleb fraction dzero then front
      else if SFleb done1 fraction then default 0 (last sorted)
      else
        let top := N.of_nat (length sorted) - 1 in
        let index := default 0 (to_u64 (dadd (dmul fraction (of_u64 top)) dhalf)) in
        default 0 (sorted !! N.to_nat (N.min index top))
  end.

Record BenchmarkResult := mkBenchmarkResult {
  br_label : string;
  br_flows_admitted : N;
  br_flows_completed : N;
  br_flows_cancelled : N;
  br_flows_failed : N;
  br_flows_ambiguous : N;
  br_dispatches : N;
  br_arbitration_rounds : N;
  br_schedules_issued : N;
  br_schedule_entries : N;
  br_preemptions : N;
  br_starvation_boosts : N;
  br_deadline_misses : N;
  br_service_units_total : N;
  br_logical_ticks : N;
  br_wall_seconds : double;
  br_completions_per_second : double;
  br_service_units_per_second : double;
  br_rounds_per_second : double;
  br_wait_p50_ticks : N;
  br_wait_p99_ticks : N;
  br_wait_max_ticks : N;
  br_max_continuous_wait_ticks : N;
  br_converged : bool;
  br_detail : string }.

Definition bench_result (p : BenchmarkParameters) (wall_seconds : double) (r : Rounds) (b : Bench)
  (report : AccountingReport) : BenchmarkResult :=
  let sorted := percentile_input (bn_waits b) in
  let rate (n : N) := if SFltb dzero wall_seconds then ddiv (of_u64 n) wall_seconds else dzero in
  mkBenchmarkResult "SYNTHETIC" (bp_flow_count p) (ar_completed report) (ar_cancelled report)
    (ar_failed report) (ar_ambiguous report) (bn_dispatches b) (ro_rounds r)
    (ar_schedules_issued report) (ar_schedule_entries_issued report)
    (ar_preemptions_issued report) (ar_starvation_boosts report) (ar_deadline_misses report)
    (bn_service_units_total b) (ro_now r) wall_seconds (rate (ar_completed report))
    (rate (bn_service_units_total b)) (rate (ro_rounds r)) (percentile sorted dhalf)
    (percentile sorted d99) (default 0 (last sorted)) (bn_max_continuous_wait b)
    (ro_converged r)
    (if ro_converged r then "all admitted flows reached a terminal state"
     else "round budget exhausted before convergence").

Definition measure (p : BenchmarkParameters) (population : list SyntheticFlow)
  (wall_seconds : double) : BenchM BenchmarkResult :=
  on_bench (bench_topology p population) ;;;
  let* r := bench_rounds p (N.to_nat (bp_max_rounds p)) (mkRounds 0 0 false 0 0 0) in
  let* b := get in
  let report := accounting (bn_scheduler b) in
  lift (validate_report report) ;;;
  ret (bench_result p wall_seconds r b report).

Definition bench_create (p : BenchmarkParameters) (dir : StateDirectory) : Res Impl :=
  if bp_durable p then
    match bp_durability_directory p with
    | EmptyString => Err InvalidArgument
    | _ => create_durable (bench_policy p) (sd_journal dir) (sd_snapshot dir) true (sd_io dir)
    end
  else create_volatile (bench_policy p).

(** The result, with the scheduler the run leaves. *)
Definition run_synthetic_benchmark (draws : nat) (p : BenchmarkParameters) (dir : StateDirectory)
  (wall_seconds : double) : option (option Impl * Res BenchmarkResult) :=
  match validate_parameters p with
  | Err e => Some (None, Err e)
  | Ok _ =>
      generated ← generate_synthetic_population draws p;
      match generated with
      | Err e => Some (None, Err e)
      | Ok population =>
          match bench_create p dir with
          | Err e => Some (None, Err e)
          | Ok im =>
              let '(b, r) := measure p population wall_seconds (mkBench im 0 0 [] 0) in
              Some (Some (bn_scheduler b), r)
          end
      end
  end.

(** ** version.cpp *)

Definition kVersionString : string := "1.0.0".
Definition version_string : string := kVersionString.

(** The compiler's name is the build's. *)
Definition make_identification (compiler_name : string) : string :=
  "flow_scheduler/" +:+ kVersionString +:+ " [" +:+ compiler_name +:+ ", cxx20, durable-format "
    +:+ pretty kDurableFormatGeneration +:+ "]".

(** ** The driver: bench/flow_scheduler_bench.cpp *)

(** [std::strtoull] in base 10: the value and the text from [end] on.  Space is
    skipped and a sign accepted; an overflow gives the largest value, a text
    without digits is left alone. *)
Definition is_space (c : ascii) : bool :=
  let code := char_code c in (code =? 32) || ((9 <=? code) && (code <=? 13)).
Definition is_digit (c : ascii) : bool :=
  let code := char_code c in (48 <=? code) && (code <=? 57).

Fixpoint skip_space (text : string) : string :=
  match text with
  | String c rest => if is_space c then skip_space rest else text
  | EmptyString => EmptyString
  end.

(** The number before the first character that is not a digit, unbounded. *)
Fixpoint read_digits (text : string) (value : N) : N * string :=
  match text with
  | String c rest =>
      if is_digit c then read_digits rest (value * 10 + (char_code c - 48)) else (value, text)
  | EmptyString => (value, EmptyString)
  end.

Definition strtoull (text : string) : N * string :=
  let '(negative, digits) :=
    match skip_space text with
    | String c rest =>
        if char_code c =? 45 then (true, rest)
        else if char_code c =? 43 then (false, rest)
        else (false, String c rest)
    | EmptyString => (false, EmptyString)
    end in
  match digits with
  | String c _ =>
      if is_digit c then
        let '(value, rest) := read_digits digits 0 in
        (if u64_max <? value then u64_max
         else if negative : bool then wrap64 (u64_mod - value) else value, rest)
      else (0, text)
  | EmptyString => (0, text)
  end.

(** [parse_u64] of the driver accepts more than the tools' (Commandline.v). *)
Definition bench_parse_u64 (text : string) : option N :=
  match text with
  | EmptyString => None
  | _ => match strtoull text with (v, EmptyString) => Some v | _ => None end
  end.

Inductive BenchCommand : Type :=
| BenchHelp
| BenchUsage
| BenchRun (p : BenchmarkParameters) (sweep : bool).

Section Driver.
(** [std::strtod]: the value and the text from [end] on. *)
Context (strtod : string -> double * string).

Definition parse_double (text : string) : option double :=
  match text with
  | EmptyString => None
  | _ => match strtod text with (v, EmptyString) => Some v | _ => None end
  end.

(** The options that take a value. *)
Definition bench_option (flag value : string) (p : BenchmarkParameters)
  : option BenchmarkParameters :=
  if String.eqb flag "--flows" then
    v ← bench_parse_u64 value; Some (p <| bp_flow_count := v |>)
  else if String.eqb flag "--priority-classes" then
    v ← bench_parse_u64 value; Some (p <| bp_priority_classes := v |>)
  else if String.eqb flag "--fairness-groups" then
    v ← bench_parse_u64 value; Some (p <| bp_fairness_groups := v |>)
  else if String.eqb flag "--deadline-density" then
    v ← parse_double value; Some (p <| bp_deadline_density := v |>)
  else if String.eqb flag "--dependency-density" then
    v ← parse_double value; Some (p <| bp_dependency_density := v |>)
  else if String.eqb flag "--concurrency" then
    v ← bench_parse_u64 value; Some (p <| bp_concurrency := v |>)
  else if String.eqb flag "--capacity" then
    v ← bench_parse_u64 value; Some (p <| bp_capacity_per_interval := v |>)
  else if String.eqb flag "--interval" then
    v ← bench_parse_u64 value; Some (p <| bp_interval_ticks := v |>)
  else if String.eqb flag "--quantum" then
    v ← bench_parse_u64 value; Some (p <| bp_service_quantum := v |>)
  else if String.eqb flag "--work" then
    v ← bench_parse_u64 value; Some (p <| bp_estimated_work := v |>)
  else if String.eqb flag "--seed" then
    v ← bench_parse_u64 value; Some (p <| bp_seed := v |>)
  else if String.eqb flag "--rounds" then
    v ← bench_parse_u64 value; Some (p <| bp_max_rounds := v |>)
  else if String.eqb flag "--durable" then
    Some (p <| bp_durable := true |> <| bp_durability_directory := value |>)
  else None.

(** The loop over [argv]: an unknown flag, a missing value and a value that
    does not parse all print the usage and exit with status 2. *)
Fixpoint bench_args (args : list string) (p : BenchmarkParameters) (sweep : bool)
  : BenchCommand :=
  match args with
  | [] => BenchRun p sweep
  | flag :: rest =>
      if String.eqb flag "--help" then BenchHelp
      else if String.eqb flag "--sweep" then bench_args rest p true
      else
        match rest with
        | [] => BenchUsage
        | value :: rest =>
            match bench_option flag value p with
            | Some p => bench_args rest p sweep
            | None => BenchUsage
            end
        end
  end.

Definition bench_command (args : list string) : BenchCommand :=
  bench_args args (default_parameters <| bp_flow_count := 4000 |>) false.

(** The points of the sweep, one dimension at a time. *)
Definition at_least_one (n : N) : N := if n =? 0 then 1 else n.
Definition sweep_points (p : BenchmarkParameters) : list BenchmarkParameters :=
  let base_flows := at_least_one (bp_flow_count p) in
  let small_flows := if 8 <? base_flows then base_flows / 8 else 1 in
  let large_flows := if kMaxFlows / 2 <? base_flows then kMaxFlows else mul64 base_flows 2 in
  let base_priorities := at_least_one (bp_priority_classes p) in
  let base_groups := at_least_one (bp_fairness_groups p) in
  let base_concurrency := at_least_one (bp_concurrency p) in
  ((fun n => p <| bp_flow_count := n |>) <$> [small_flows; base_flows; large_flows]) ++
  ((fun n => p <| bp_priority_classes := n |>) <$> [1; base_priorities; mul64 base_priorities 4]) ++
  ((fun n => p <| bp_fairness_groups := n |>) <$> [1; base_groups; mul64 base_groups 8]) ++
  ((fun d => p <| bp_deadline_density := d |>) <$> [dzero; dhalf; done1]) ++
  ((fun d => p <| bp_dependency_density := d |>) <$> [dzero; dhalf; done1]) ++
  ((fun n => p <| bp_concurrency := n |>) <$> [1; base_concurrency; mul64 base_concurrency 8]).

(** The exit status of one point. *)
Definition run_one (draws : nat) (p : BenchmarkParameters) (dir : StateDirectory)
  (wall_seconds : double) : option N :=
  '(_, result) ← run_synthetic_benchmark draws p dir wall_seconds;
  Some match result with
       | Err _ => 1
       | Ok result => if br_converged result then 0 else 2
       end.

(** [main]: [world] is the directory and the elapsed time each run meets; the
    statuses of a sweep are joined bit by bit. *)
Definition bench_main (draws : nat) (world : nat -> StateDirectory * double)
  (args : list string) : option N :=
  match bench_command args with
  | BenchHelp => Some 0
  | BenchUsage => Some 2
  | BenchRun p sweep =>
      if sweep then
        codes ← mapM (fun '(i, p) => run_one draws p (world i).1 (world i).2)
                  (imap pair (sweep_points p));
        Some (foldl N.lor 0 codes)
      else run_one draws p (world O).1 (world O).2
  end.
End Driver.
