(* ===== verification/Inspect.v ===== *)
(** * The journal inspector

    Models tools/fs_inspect.cpp: option parsing, the classification of the files
    of a state directory, and [run] over the durable store of Journal.v, with
    everything it prints on standard output.

    The directory is an input: its entries in the order the directory iterator
    gives them, with their bytes and what the system allows.  The run returns the
    lines it printed, the exit status, and the directory it leaves behind, on
    every path out of it. *)

From S2P Require Import Prelude Checked Bytes Hash Model Schedule Codec Journal State Transitions.
From S2P Require Import Arbitrate Operations Observe.

(** ** Options *)

Record InspectOptions := mkInspectOptions {
  io_state : string;
  io_verify : bool;
  io_dump : bool }.

#[export] Instance eta_InspectOptions : Eta InspectOptions := fun o =>
  mkInspectOptions (io_state o) (io_verify o) (io_dump o).

Definition default_inspect_options : InspectOptions := mkInspectOptions EmptyString true false.

(** The loop of [parse_options]; [None] is a usage error. *)
Fixpoint inspect_args (args : list string) (state_set : bool) (o : InspectOptions)
  : option InspectOptions :=
  match args with
  | [] => if state_set then Some o else None
  | flag :: args =>
      if String.eqb flag "--state" then
        match args with
        | [] => None
        | EmptyString :: _ => None
        | value :: args => inspect_args args true (o <| io_state := value |>)
        end
      else if String.eqb flag "--verify" then inspect_args args state_set (o <| io_verify := true |>)
      else if String.eqb flag "--no-verify"
      then inspect_args args state_set (o <| io_verify := false |>)
      else if String.eqb flag "--dump" then inspect_args args state_set (o <| io_dump := true |>)
      else None
  end.

Definition inspect_options (args : list string) : option InspectOptions :=
  inspect_args args false default_inspect_options.

(** ** The directory *)

(** [de_sized] and [de_readable] tell whether the system gives the size and
    the first bytes of the file. *)
Record DirEntry := mkDirEntry {
  de_name : string;
  de_regular : bool;
  de_sized : bool;
  de_readable : bool;
  de_data : bytes }.

Inductive Listing : Type :=
| NotADirectory
| CannotEnumerate
| Entries (entries : list DirEntry).

(** [magic_of]: [None] when the file is not readable. *)
Definition magic_of (f : DirEntry) : option N :=
  if negb (de_sized f) then None
  else if blen (de_data f) <? 4 then Some 0
  else if negb (de_readable f) then None
  else Some (decode_u32_le (take 4 (de_data f))).

Record DurableFile := mkDurableFile {
  df_name : string;
  df_size : N;
  df_magic : N }.

(** The regular files in order; [None] when one cannot be read. *)
Fixpoint classify (entries : list DirEntry) : option (list DurableFile) :=
  match entries with
  | [] => Some []
  | f :: entries =>
      if negb (de_regular f) then classify entries
      else
        magic ← magic_of f;
        files ← classify entries;
        Some (mkDurableFile (de_name f) (blen (de_data f)) magic :: files)
  end.

Fixpoint first_file (p : DurableFile -> bool) (files : list DurableFile) : option DurableFile :=
  match files with
  | [] => None
  | f :: files => if p f then Some f else first_file p files
  end.

(** A file with the magic of a journal record, or else an empty one. *)
Definition find_journal (files : list DurableFile) : option DurableFile :=
  match first_file (fun f => df_magic f =? kJournalRecordMagic) files with
  | Some f => Some f
  | None => first_file (fun f => df_size f =? 0) files
  end.

Definition find_snapshot (files : list DurableFile) : option DurableFile :=
  first_file (fun f => df_magic f =? kSnapshotMagic) files.

(** ** The census *)

Record Census := mkCensus {
  ce_by_type : gmap N N;
  ce_epoch_current : N;
  ce_epoch_seen : bool;
  ce_lines : list string }.

#[export] Instance eta_Census : Eta Census := fun c =>
  mkCensus (ce_by_type c) (ce_epoch_current c) (ce_epoch_seen c) (ce_lines c).

Definition empty_census (lines : list string) : Census := mkCensus ∅ 0 false lines.

(** Reads as far as the payload goes; what is missing is zero. *)
Definition decode_epoch_record (payload : bytes) : N * N * N * N :=
  match r_u64 payload with
  | Err _ => (0, 0, 0, 0)
  | Ok (previous, rest) =>
      match r_u64 rest with
      | Err _ => (previous, 0, 0, 0)
      | Ok (next, rest) =>
          match r_u8 rest with
          | Err _ => (previous, next, 0, 0)
          | Ok (reason, rest) =>
              match r_u64 rest with
              | Err _ => (previous, next, reason, 0)
              | Ok (tick, _) => (previous, next, reason, tick)
              end
          end
      end
  end.

(** [to_string] of a record type read from a file. *)
Definition record_name (v : N) : string :=
  match record_type_of_value v with
  | Some t => record_type_string t
  | None => "unknown-record-type"
  end.

Definition epoch_line (sequence : N) (e : N * N * N * N) : string :=
  let '(previous, next, reason, tick) := e in
  "EPOCH" +:+ field " seq" sequence +:+ field " previous" previous +:+ field " next" next +:+
  field " reason" reason +:+ field " tick" tick.

Definition record_line (view : JournalRecordView) : string :=
  "RECORD" +:+ field " seq" (jv_sequence view) +:+ " type=" +:+ record_name (jv_type view) +:+
  field " payload" (blen (jv_payload view)).

(** The visitor [run] hands to [replay]. *)
Definition census_visitor (dump : bool) (view : JournalRecordView) : M ErrorCode Census unit :=
  modify (fun c => c <| ce_by_type ::= fun m =>
    <[ jv_type view := incr64 (default 0 (m !! jv_type view)) ]> m |>) ;;;
  (if (jv_type view =? record_type_value JEpochAdvanced) && (25 <=? blen (jv_payload view)) then
     let e := decode_epoch_record (jv_payload view) in
     let '(_, next, _, _) := e in
     modify (fun c => c <| ce_epoch_current := next |> <| ce_epoch_seen := true |>) ;;;
     if dump
     then modify (fun c => c <| ce_lines ::= fun l => l ++ [epoch_line (jv_sequence view) e] |>)
     else ret tt
   else ret tt) ;;;
  if dump then modify (fun c => c <| ce_lines ::= fun l => l ++ [record_line view] |>)
  else ret tt.

(** ** The run *)

Definition yes_no (b : bool) : string := if b then "yes" else "no".

Definition store_line (o : InspectOptions) (journal : DurableFile) (torn : bool) : string :=
  "STORE directory=" +:+ io_state o +:+ " journal=" +:+ df_name journal +:+
  field " bytes" (df_size journal) +:+ " tail_at_open=" +:+ (if torn then "torn" else "clean").

(** What is printed about the snapshot: the one the store reads, and the file
    with a snapshot's magic. *)
Definition snapshot_lines (present : option bytes) (file : option DurableFile) : list string :=
  match present with
  | Some payload =>
      ["SNAPSHOT present" +:+ field " bytes" (blen payload) +:+ " file=" +:+
       match file with Some f => df_name f | None => EmptyString end]
  | None =>
      "SNAPSHOT absent" ::
      match file with Some _ => ["SNAPSHOT-FILE unreferenced"] | None => [] end
  end.

Definition type_lines (by_type : gmap N N) : list string :=
  match map_entries by_type with
  | [] => ["RECORD-TYPE none count=0"]
  | entries =>
      (fun '(v, n) => "RECORD-TYPE " +:+ record_name v +:+ field " count" n) <$> entries
  end.

Definition scan_line (r : JournalScanReport) (torn : bool) : string :=
  "SCAN" +:+ field " records" (jr_records r) +:+ field " bytes" (jr_bytes r) +:+
  field " last_sequence" (jr_last_sequence r) +:+ field " skipped" (jr_skipped_records r) +:+
  " torn_tail=" +:+ yes_no torn +:+ field " truncate_to_bytes" (jr_truncate_to_bytes r).

Definition inspect_line (r : JournalScanReport) (snapshot torn : bool) : string :=
  "INSPECT" +:+ field " records" (jr_records r) +:+ field " bytes" (jr_bytes r) +:+
  field " last" (jr_last_sequence r) +:+ " snapshot=" +:+ yes_no snapshot +:+
  " torn_tail=" +:+ yes_no torn.

(** The lines after the replay. *)
Definition closing_lines (o : InspectOptions) (c : Census) (r : JournalScanReport)
  (snapshot torn : bool) : list string :=
  type_lines (ce_by_type c) ++ [scan_line r torn] ++
  (if io_dump o
   then ["EPOCH-CURRENT " +:+ pretty (if ce_epoch_seen c then ce_epoch_current c else 0)]
   else []) ++
  (if torn && negb (io_verify o)
   then ["REPAIR torn_tail=yes" +:+ field " truncated_to" (jr_truncate_to_bytes r)] else []) ++
  [inspect_line r snapshot torn].

Record Inspected := mkInspected {
  ip_lines : list string;
  ip_status : N;
  ip_directory : Listing }.

Definition kJournalFileName : string := "journal.log".
Definition kSnapshotFileName : string := "snapshot.bin".
Definition kSnapshotTempName : string := "snapshot.bin.tmp".

(** The bytes [DurableStore::open] finds under a name of the directory. *)
Fixpoint file_data (name : string) (entries : list DirEntry) : option bytes :=
  match entries with
  | [] => None
  | f :: entries =>
      if de_regular f && String.eqb (de_name f) name then Some (de_data f)
      else file_data name entries
  end.

(** The directory with the bytes of a file replaced, or the file created. *)
Fixpoint set_file (name : string) (data : bytes) (entries : list DirEntry) : list DirEntry :=
  match entries with
  | [] => [mkDirEntry name true true true data]
  | f :: entries =>
      if de_regular f && String.eqb (de_name f) name
      then mkDirEntry (de_name f) true (de_sized f) (de_readable f) data :: entries
      else f :: set_file name data entries
  end.

(** The directory behind an open store: its journal, and its snapshot files
    where it has them. *)
Definition store_directory (entries : list DirEntry) (ds : DurableStore) : list DirEntry :=
  let written name file entries :=
    match file with Some data => set_file name data entries | None => entries end in
  written kSnapshotTempName (ds_snapshot_temp ds)
    (written kSnapshotFileName (ds_snapshot ds) (set_file kJournalFileName (ds_journal ds) entries)).

(** [DurableStore::open] on the directory, with the directory it leaves: a
    failing [open_file] leaves it as it was, and from there on the journal exists. *)
Definition open_directory (entries : list DirEntry) (io : list IoEvent)
  : list DirEntry * Res DurableStore :=
  match open_file (closed_store (default [] (file_data kJournalFileName entries))
                     (file_data kSnapshotFileName entries) true io) with
  | (_, Err e) => (entries, Err e)
  | (ds, Ok _) =>
      match open_scan ds with
      | (ds, Err e) => (store_directory entries ds, Err e)
      | (ds, Ok _) => (store_directory entries ds, Ok ds)
      end
  end.

(** A snapshot that is absent is no failure; one that cannot be read is. *)
Definition snapshot_present (loaded : Res bytes) : option (option bytes) :=
  match loaded with
  | Ok payload => Some (Some payload)
  | Err NotFound => Some None
  | Err _ => None
  end.

(** [run] from the open store on. *)
Definition inspect_store (o : InspectOptions) (journal : DurableFile)
  (snapshot_file : option DurableFile) (entries : list DirEntry) (ds : DurableStore)
  : Inspected :=
  let after ds := Entries (store_directory entries ds) in
  let open_torn := ds_open_tail_truncated ds in
  let head := [store_line o journal open_torn] in
  let '(ds, loaded) := read_snapshot ds in
  match snapshot_present loaded with
  | None => mkInspected head 1 (after ds)
  | Some present =>
      let head := head ++ snapshot_lines present snapshot_file in
      let '((ds, census), replayed) :=
        replay (negb (io_verify o)) (census_visitor (io_dump o)) ds (empty_census head) in
      match replayed with
      | Err _ => mkInspected (ce_lines census) 1 (after ds)
      | Ok report =>
          let torn := open_torn || jr_tail_truncated report in
          mkInspected
            (ce_lines census ++
             closing_lines o census report (bool_decide (is_Some present)) torn)
            0 (after ds)
      end
  end.

Definition inspect_run (o : InspectOptions) (dir : Listing) (io : list IoEvent) : Inspected :=
  match dir with
  | NotADirectory | CannotEnumerate => mkInspected [] 1 dir
  | Entries entries =>
      match classify entries with
      | None => mkInspected [] 1 dir
      | Some files =>
          match find_journal files with
          | None => mkInspected [] 1 dir
          | Some journal =>
              match open_directory entries io with
              | (entries, Err _) => mkInspected [] 1 (Entries entries)
              | (entries, Ok ds) => inspect_store o journal (find_snapshot files) entries ds
              end
          end
      end
  end.

Definition inspect_main (args : list string) (dir : Listing) (io : list IoEvent) : Inspected :=
  match inspect_options args with
  | None => mkInspected [] 2 dir
  | Some o => inspect_run o dir io
  end.
