(* ===== verification/Fixture.v ===== *)
(** * A concrete fabric

    The inputs and the states the witnesses run on: one resource, one
    priority and one QoS class, and flows that are admitted, scheduled,
    dispatched and completed by the operations themselves. *)

From S2P Require Import Prelude Checked Bytes Hash Model Schedule Codec Journal State.
From S2P Require Import Transitions Arbitrate Operations Recovery.

Module Demo.

Definition provenance : Provenance := mkProvenance OExternal 1 0.

Definition policy : SchedulingPolicy :=
  mkSchedulingPolicy 1 1 PTiered true true true true 100 10 0 4 100 16 4 4 8 50 2 16 50 provenance.

Definition resource : ResourceDescriptor := mkResourceDescriptor 1 1 100 1000 2 provenance.
Definition reservation : ReservationDescriptor :=
  mkReservationDescriptor 1 1 1 1 0 5000 60 false provenance.
Definition priority_class : PriorityClassDescriptor := mkPriorityClassDescriptor 1 1 5 1 provenance.
Definition qos_class : QoSClassDescriptor := mkQoSClassDescriptor 1 1 false 0 provenance.

(** A flow of 60 units in quanta of 30. *)
Definition flow (id : FlowId) : FlowDescriptor :=
  mkFlowDescriptor id 1 (mkBinding 1 1) (mkBinding 1 1) (mkBinding 0 0) (mkBinding 1 1)
    (mkBinding 1 1) 1 60 30 0 0 0 kNoDeadline 1 true true 0 [] 0 provenance.

(** [id] bound to the reservation. *)
Definition reserved_flow (id : FlowId) : FlowDescriptor :=
  (flow id) <| fd_reservation := mkBinding 1 1 |>.

Definition topology : Op unit :=
  register_resource resource ;;; register_reservation reservation ;;;
  register_priority_class priority_class ;;; register_qos_class qos_class ;;;
  admit_flow (flow 1) ;;; admit_flow (reserved_flow 2) ;;; admit_flow (flow 3).

Definition start : Impl :=
  match create_volatile policy with Ok im => im | Err _ => initial_impl policy end.

(** Three flows admitted; arbitrated once; the first entry dispatched; and
    completed with its full quantum. *)
Definition admitted : Impl := exec topology start.
Definition arbitrated : Impl := exec (arbitrate 10) admitted.
Definition dispatch : Op DispatchTicket := begin_dispatch 1 1 0 7 9 11.
Definition dispatched : Impl := exec dispatch arbitrated.
Definition ticket : DispatchTicket :=
  match outcome dispatch arbitrated with
  | Ok t => t
  | Err _ => make_ticket arbitrated 0 0 (run_entry start (empty_round empty_outcome)
               (compute_key start (admitted_runtime (flow 1) 0) 0)
               (admitted_runtime (flow 1) 0) 0 0) 0 0 0
  end.

Definition evidence : CompletionEvidence :=
  mkCompletionEvidence 1 1 (tk_attempt ticket) 1 (tk_flow ticket) 1 7 9 CServed
    (tk_quantum ticket) 0 0 12 provenance.
Definition completed : Impl := exec (complete evidence 12) dispatched.

(** At tick 120 flow 3 has been ready since tick 10 and flow 4 only now. *)
Definition aged : Impl :=
  fst (refresh_lifecycles 120 (exec (admit_flow (flow 4)) arbitrated) empty_outcome).

(** The operations succeed and do what their names say. *)
Example demo_runs :
  outcome topology start = Ok tt /\
  (fr_lifecycle <$> im_flows arbitrated !! 1) = Some Scheduled /\
  (fr_lifecycle <$> im_flows dispatched !! 1) = Some Dispatched /\
  tk_quantum ticket = 30 /\
  (fr_served_work <$> im_flows completed !! 1) = Some 30 /\
  (co_disposition <$> match outcome (complete evidence 12) dispatched with
                      | Ok o => Some o | Err _ => None end) = Some Applied.
Proof. vm_compute. auto 10. Qed.

End Demo.
