(* ===== verification/Rehearsal.v ===== *)
(** * A rehearsed deployment

    One coordinator and one worker, run on each other's bytes: the inputs and
    states the witnesses about the two processes run on. *)

From S2P Require Import Prelude Checked Bytes Hash Model Schedule Codec Framing Transport Protocol.
From S2P Require Import Journal State Transitions Arbitrate Operations Recovery Observe Commandline.
From S2P Require Import Coordinator Worker.

Module Rehearsal.

(** Two flows of 8 units in quanta of 4, all released at tick 0. *)
Definition coordinator_args : list string :=
  ["--flows"; "2"; "--interval"; "1"; "--work"; "8"; "--rounds"; "12"; "--port"; "4000"]%string.
Definition worker_args : list string :=
  ["--port"; "4000"; "--worker"; "7"; "--boot"; "9"; "--quiet"]%string.

Definition coordinator : CoordinatorOptions :=
  default default_coordinator_options (coordinator_options coordinator_args).
Definition worker : WorkerOptions := default default_worker_options (worker_options worker_args).

Definition directory : StateDirectory := mkStateDirectory [] None [].
Definition scheduler : Impl :=
  match create coordinator directory with
  | Ok im => im
  | Err _ => initial_impl (make_policy coordinator)
  end.

(** The system sends everything at once and delivers what the other side sent. *)
Definition generous : list SendAnswer := repeat (Written 65536) 64.
Definition arrives (data : bytes) : Poll := mkPoll (SelectReady [true]) (RecvData data) 0.
Definition silence : Poll := mkPoll SelectTimeout RecvEnd 0.

Definition connection (polls : list Poll) : list (Res Socket) :=
  [Ok (mkSocket true polls generous [])].
Definition begin (polls : list Poll) : Coordinator :=
  new_coordinator coordinator scheduler (connection polls) (repeat SelectTimeout 16).
Definition play (polls : list Poll) : Coordinator * Result Halt bool :=
  session map_keys error_code_string 4 (begin polls).

(** What the coordinator has sent on its first connection. *)
Definition told (c : Coordinator) : bytes :=
  match cd_peers c with [] => [] | peer :: _ => so_sent (pe_socket peer) end.

(** What the worker answers to these bytes. *)
Definition answers (data : bytes) : bytes :=
  ws_sent (fst (worker_run 64 worker [(Ok tt, 0)]
    (new_worker [(SelectReady [true], 0)] (match data with [] => [] | _ => [RecvData data] end)
       generous))).

(** One exchange: the coordinator runs until it waits for the worker, and the
    worker answers everything it was told so far. *)
Definition heard (polls : list Poll) : bytes := mjoin ((fun p =>
  match pl_recv p with RecvData data => data | _ => [] end) <$> polls).
Definition exchange (polls : list Poll) : list Poll :=
  let reply := drop (length (heard polls)) (answers (told (fst (play polls)))) in
  match reply with
  | [] => polls ++ [silence]
  | _ => polls ++ [arrives reply; silence]
  end.

Definition script (n : nat) : list Poll :=
  Nat.iter n exchange [arrives (answers [])].

End Rehearsal.
