(* ===== verification/Ranking.v ===== *)
(** * The arbitration order

    [operator<] on [OrderKey] is a strict total order, so the result of
    [std::sort] is the same for every sorting algorithm; the ranking holds
    every ready flow exactly once; and a flow that has waited for the
    starvation bound outranks every flow of the lower tiers. *)

From S2P Require Import Prelude Checked Bytes Hash Model Schedule Codec Journal State.
From S2P Require Import Transitions Arbitrate Fixture.

(** ** Lexicographic order *)

Fixpoint lex_lt (a b : list N) : bool :=
  match a, b with
  | x :: a, y :: b => if negb (x =? y) then x <? y else lex_lt a b
  | _, _ => false
  end.

Lemma lex_lt_irrefl a : lex_lt a a = false.
Proof. induction a as [|x a IH]; [done|]. simpl. by rewrite N.eqb_refl. Qed.

Lemma lex_lt_trans a b c : lex_lt a b = true -> lex_lt b c = true -> lex_lt a c = true.
Proof.
  revert b c. induction a as [|x a IH]; intros [|y b] [|z c]; try done. simpl.
  destruct (N.eqb_spec x y) as [->|Hxy]; simpl.
  - destruct (N.eqb_spec y z) as [->|Hyz]; simpl; [apply IH | done].
  - destruct (N.eqb_spec y z) as [->|Hyz]; simpl.
    + destruct (N.eqb_spec x z); [done|]. done.
    + intros Hlt1%N.ltb_lt Hlt2%N.ltb_lt. destruct (N.eqb_spec x z); simpl.
      * lia.
      * apply N.ltb_lt. lia.
Qed.

Lemma lex_lt_total a b :
  length a = length b -> lex_lt a b = false -> lex_lt b a = false -> a = b.
Proof.
  revert b. induction a as [|x a IH]; intros [|y b]; try done. simpl. intros [= Hlen].
  rewrite (N.eqb_sym y x). destruct (N.eqb_spec x y) as [->|Hxy]; simpl.
  - intros H1 H2. f_equal. by apply IH.
  - intros Hge1%N.ltb_ge Hge2%N.ltb_ge. lia.
Qed.

Lemma key_lt_lex a b : key_lt a b = lex_lt (key_fields a) (key_fields b).
Proof.
  unfold key_lt, key_fields. cbn [lex_lt].
  repeat (case_match; [done|]). destruct (N.eqb_spec (ok_generation a) (ok_generation b)) as [->|];
    [|done]. simpl. apply N.ltb_irrefl.
Qed.

Lemma key_fields_inj a b : key_fields a = key_fields b -> a = b.
Proof. destruct a, b. unfold key_fields. simpl. by intros [= -> -> -> -> -> -> ->]. Qed.

Lemma key_lt_irrefl a : key_lt a a = false.
Proof. rewrite key_lt_lex. apply lex_lt_irrefl. Qed.

Lemma key_lt_trans a b c : key_lt a b = true -> key_lt b c = true -> key_lt a c = true.
Proof. rewrite !key_lt_lex. apply lex_lt_trans. Qed.

Lemma key_lt_total a b : key_lt a b = false -> key_lt b a = false -> a = b.
Proof. rewrite !key_lt_lex. intros. by apply key_fields_inj, lex_lt_total. Qed.

Lemma key_lt_asym a b : key_lt a b = true -> key_lt b a = false.
Proof.
  intros H. destruct (key_lt b a) eqn:E; [|done].
  pose proof (key_lt_trans _ _ _ H E) as C. by rewrite key_lt_irrefl in C.
Qed.

(** The ordering key is a strict total order: irreflexive, transitive,
    and two keys that neither precedes the other are equal in every field. *)
Theorem order_key_strict_total (a b c : OrderKey) :
  key_lt a a = false /\
  (key_lt a b = true -> key_lt b c = true -> key_lt a c = true) /\
  (key_lt a b = true \/ a = b \/ key_lt b a = true).
Proof.
  split_and!; [apply key_lt_irrefl | apply key_lt_trans |].
  destruct (key_lt a b) eqn:E1; [by left|]. destruct (key_lt b a) eqn:E2; [by right; right|].
  right; left. by apply key_lt_total.
Qed.

(** ** Sorting *)

#[export] Instance candidate_le_trans : Transitive candidate_le.
Proof.
  intros a b c. unfold candidate_le. intros H1 H2.
  destruct (key_lt (cd_key c) (cd_key a)) eqn:E; [|done].
  destruct (key_lt (cd_key b) (cd_key c)) eqn:Ebc.
  - by rewrite (key_lt_trans _ _ _ Ebc E) in H1.
  - assert (cd_key b = cd_key c) as Heq by (by apply key_lt_total).
    rewrite Heq, E in H1. done.
Qed.

#[export] Instance candidate_le_total : Total candidate_le.
Proof.
  intros a b. unfold candidate_le. destruct (key_lt (cd_key b) (cd_key a)) eqn:E; [|by left].
  right. by apply key_lt_asym.
Qed.

Definition keyed (c : Candidate) : Prop := cd_flow c = ok_flow (cd_key c).

Lemma candidate_le_antisym a b :
  keyed a -> keyed b -> candidate_le a b -> candidate_le b a -> a = b.
Proof.
  destruct a as [f k], b as [f' k']. unfold keyed, candidate_le. simpl. intros -> -> H1 H2.
  by rewrite (key_lt_total _ _ H2 H1).
Qed.

Lemma sort_candidates_perm cs : sort_candidates cs ≡ₚ cs.
Proof. apply merge_sort_Permutation. Qed.

Lemma sort_candidates_sorted cs : StronglySorted candidate_le (sort_candidates cs).
Proof. apply StronglySorted_merge_sort; apply _. Qed.

(** C38 The ranking does not depend on how [std::sort] works: any rearrangement of
    the candidates that is ordered by the key is the one the model computes. *)
Theorem sort_candidates_unique (cs l : list Candidate)
  (Hkeyed : Forall keyed cs) (Hperm : l ≡ₚ cs) (Hsorted : Sorted candidate_le l) :
  l = sort_candidates cs.
Proof.
  apply (StronglySorted_unique_strong candidate_le).
  - intros x y Hx Hy. rewrite Hperm in Hx. rewrite sort_candidates_perm in Hy.
    rewrite Forall_forall in Hkeyed. apply candidate_le_antisym; auto.
  - apply Sorted_StronglySorted; [apply candidate_le_trans | done].
  - apply sort_candidates_sorted.
  - by rewrite sort_candidates_perm.
Qed.

Lemma sort_candidates_unique_witness :
  let a := mkCandidate 1 (mkOrderKey 3 0 9 0 0 1 1) in
  let b := mkCandidate 2 (mkOrderKey 1 0 9 0 0 2 1) in
  [b; a] = sort_candidates [a; b].
Proof.
  apply sort_candidates_unique.
  - repeat constructor.
  - apply Permutation_swap.
  - repeat constructor.
Defined.

(** ** The ranking of a round *)

(** What [compute_key] reads of the state. *)
Lemma compute_key_ext im im' rt now :
  im_policy im' = im_policy im -> im_priority_classes im' = im_priority_classes im ->
  compute_key im' rt now = compute_key im rt now.
Proof. intros H1 H2. unfold compute_key, tier_of. by rewrite H1, H2. Qed.

Lemma compute_key_boost im rt now :
  compute_key im (rt <| fr_starvation_counted := true |>
    <| fr_accounting ::= fun a => a <| ac_starvation_boosts ::= incr64 |> |>) now
  = compute_key im rt now.
Proof. reflexivity. Qed.

Definition ready_candidate (im : Impl) (now : Ticks) (c : Candidate) : Prop :=
  exists rt, im_flows im !! cd_flow c = Some rt /\ fr_lifecycle rt = Ready /\
    cd_key c = compute_key im rt now.

(** [consider] only touches the starvation bookkeeping of the flow. *)
Lemma consider_key now im cs id im' cs' :
  consider now (im, cs) id = (im', cs') ->
  im_policy im' = im_policy im /\ im_priority_classes im' = im_priority_classes im /\
  (forall c, ready_candidate im' now c <-> ready_candidate im now c) /\
  (forall c, c ∈ cs' <-> c ∈ cs \/ (cd_flow c = id /\ ready_candidate im now c)).
Proof.
  unfold consider. destruct (im_flows im !! id) as [rt|] eqn:Hid.
  2:{ intros [= <- <-]. split_and!; try done. intros c. split; [by left|].
      intros [?|[<- (rt & Hrt & _)]]; [done | congruence]. }
  destruct (bool_decide_reflect (fr_lifecycle rt = Ready)) as [Hr|Hr]; simpl.
  2:{ intros [= <- <-]. split_and!; try done. intros c. split; [by left|].
      intros [?|[<- (rt' & Hrt & Hr' & _)]]; [done | congruence]. }
  intros [= <- <-].
  assert (forall c, c ∈ cs ++ [mkCandidate id (compute_key im rt now)] <->
    c ∈ cs \/ (cd_flow c = id /\ ready_candidate im now c)) as Hc.
  { intros c. rewrite elem_of_app, list_elem_of_singleton. split.
    - intros [?| ->]; [by left|]. right. split; [done|]. by exists rt.
    - intros [?|[<- (rt' & Hrt & _ & Hk)]]; [by left|]. right. destruct c as [f k].
      simpl in *. assert (rt' = rt) as -> by congruence. by rewrite Hk. }
  destruct (_ && _); [|done]. split_and!; try done.
  intros c. unfold ready_candidate, upd_flow. upd_simpl.
  destruct (decide (cd_flow c = id)) as [->|Hne].
  - rewrite lookup_alter_eq, Hid. simpl. split.
    + intros (rt' & [= <-] & Hr' & Hk). exists rt. split_and!; [done|done|].
      rewrite Hk. apply compute_key_boost.
    + intros (rt' & [= <-] & Hr' & Hk). eexists. split_and!; [done|done|].
      by rewrite Hk.
  - by rewrite lookup_alter_ne.
Qed.

Lemma consider_all now ids im cs im' cs' :
  foldl (consider now) (im, cs) ids = (im', cs') ->
  im_policy im' = im_policy im /\ im_priority_classes im' = im_priority_classes im /\
  (forall c, ready_candidate im' now c <-> ready_candidate im now c) /\
  (forall c, c ∈ cs' <-> c ∈ cs \/ (cd_flow c ∈ ids /\ ready_candidate im now c)).
Proof.
  revert im cs. induction ids as [|id ids IH]; intros im cs.
  - intros [= <- <-]. split_and!; try done. intros c. split; [by left|].
    intros [?|[H _]]; [done | by apply not_elem_of_nil in H].
  - cbn [foldl]. destruct (consider now (im, cs) id) as [im1 cs1] eqn:E1. intros E2.
    apply consider_key in E1 as (P1 & Q1 & R1 & S1). apply IH in E2 as (P2 & Q2 & R2 & S2).
    split_and!; [congruence | congruence | |].
    + intros c. by rewrite R2.
    + intros c. rewrite S2, S1, R1, elem_of_cons. clear. tauto.
Qed.

Lemma consider_all_NoDup now ids im cs im' cs' :
  foldl (consider now) (im, cs) ids = (im', cs') -> NoDup ids ->
  NoDup (cd_flow <$> cs) -> (forall c, c ∈ cs -> cd_flow c ∉ ids) -> NoDup (cd_flow <$> cs').
Proof.
  revert im cs. induction ids as [|id ids IH]; intros im cs; [by intros [= <- <-]|].
  cbn [foldl]. destruct (consider now (im, cs) id) as [im1 cs1] eqn:E1.
  intros E2 Hnd Hcs Hfr. apply NoDup_cons in Hnd as [Hid Hnd].
  assert (cs1 = cs \/ exists c, cs1 = cs ++ [c] /\ cd_flow c = id) as Hshape.
  { unfold consider in E1. repeat case_match; simplify_eq; eauto. }
  assert (forall c, c ∈ cs -> cd_flow c <> id) as Hne.
  { intros c Hc <-. apply (Hfr c Hc), list_elem_of_here. }
  apply IH in E2; [done|done| |].
  - destruct Hshape as [->|(c & -> & Hc)]; [done|]. rewrite fmap_app. apply NoDup_app.
    split_and!; [done| |apply NoDup_singleton].
    intros x (c' & -> & Hc')%list_elem_of_fmap.
    change (cd_flow <$> [c]) with [cd_flow c]. rewrite list_elem_of_singleton, Hc.
    by apply Hne.
  - intros c Hc. destruct Hshape as [->|(c' & -> & Hc')].
    + intros Hin. by apply (Hfr c Hc), list_elem_of_further.
    + apply elem_of_app in Hc as [Hc| ->%list_elem_of_singleton]; [|by rewrite Hc'].
      intros Hin. by apply (Hfr c Hc), list_elem_of_further.
Qed.

(** Every entry of the ready index that is really ready is ranked once, at the
    key computed from the state before the round's bookkeeping. *)
Lemma rank_candidates_spec now im im' cs :
  rank_candidates now im = (im', cs) ->
  StronglySorted candidate_le cs /\ NoDup (cd_flow <$> cs) /\
  (forall c, c ∈ cs <-> cd_flow c ∈ im_ready_index im /\ ready_candidate im now c).
Proof.
  unfold rank_candidates.
  destruct (foldl _ _ _) as [im1 cs1] eqn:E. intros [= <- <-]. split_and!.
  - apply sort_candidates_sorted.
  - rewrite sort_candidates_perm. apply (consider_all_NoDup _ _ _ _ _ _ E).
    + apply NoDup_set_elems.
    + constructor.
    + intros c Hc. by apply not_elem_of_nil in Hc.
  - intros c. rewrite sort_candidates_perm. apply consider_all in E as (_ & _ & _ & S).
    rewrite S, elem_of_set_elems. split; [intros [H%not_elem_of_nil|?]; done | by right].
Qed.

(** ** Starvation *)

Lemma tier_of_starved im rt now :
  fr_ever_ready rt = true -> fr_eligible_since_tick rt <= now ->
  po_starvation_bound_ticks (im_policy im) <= now - fr_eligible_since_tick rt ->
  tier_of im rt now <= kTierStarvation.
Proof.
  intros He Hle Hb. unfold tier_of. cbv zeta.
  rewrite (proj2 (N.leb_le _ now) Hle), He, (proj2 (N.leb_le _ _) Hb).
  destruct (_ && _ && _); unfold kTierDeadlineUrgent, kTierStarvation; simpl; lia.
Qed.

Lemma StronglySorted_before {A} (R : A -> A -> Prop) l i j x y :
  StronglySorted R l -> (i < j)%nat -> l !! i = Some x -> l !! j = Some y -> R x y.
Proof.
  intros Hs. revert i j. induction Hs as [|a l Hs IH Ha]; intros i j Hij Hi Hj; [done|].
  destruct i as [|i], j as [|j]; try lia; simpl in *.
  - injection Hi as ->. rewrite Forall_forall in Ha. eapply Ha, list_elem_of_lookup_2, Hj.
  - eapply IH; [|exact Hi | exact Hj]. lia.
Qed.

(** C25 Starvation is bounded by the order: once a ready flow has been eligible for
    the policy's starvation bound, it is placed before every flow that is
    neither starved itself nor inside its deadline-urgency window. *)
Theorem starved_flow_outranks (im im' : Impl) (now : Ticks) (cs : list Candidate)
  (starved other : FlowRuntime) (c d : Candidate) (i j : nat)
  (Hrank : rank_candidates now im = (im', cs))
  (Hc : cs !! i = Some c) (Hd : cs !! j = Some d)
  (Hstarved : im_flows im !! cd_flow c = Some starved)
  (Hother : im_flows im !! cd_flow d = Some other)
  (Hready : fr_ever_ready starved = true)
  (Hsince : fr_eligible_since_tick starved <= now)
  (Hwait : po_starvation_bound_ticks (im_policy im) <= now - fr_eligible_since_tick starved)
  (Htier : kTierStarvation < tier_of im other now) :
  (i < j)%nat.
Proof.
  destruct (rank_candidates_spec _ _ _ _ Hrank) as (Hs & _ & Hin).
  pose proof (tier_of_starved im starved now Hready Hsince Hwait) as Ht.
  assert (cd_key c = compute_key im starved now) as Hkc.
  { destruct (proj1 (Hin c)) as (_ & rt & Hrt & _ & Hk); [by eapply list_elem_of_lookup_2|].
    congruence. }
  assert (cd_key d = compute_key im other now) as Hkd.
  { destruct (proj1 (Hin d)) as (_ & rt & Hrt & _ & Hk); [by eapply list_elem_of_lookup_2|].
    congruence. }
  assert (key_lt (cd_key c) (cd_key d) = true) as Hlt.
  { unfold key_lt. rewrite Hkc, Hkd. cbn [compute_key ok_tier].
    destruct (N.eqb_spec (tier_of im starved now) (tier_of im other now)); [lia|].
    simpl. apply N.ltb_lt. lia. }
  destruct (Nat.lt_trichotomy i j) as [?|[->|Hji]]; [done| |].
  - assert (c = d) as -> by congruence. by rewrite key_lt_irrefl in Hlt.
  - pose proof (StronglySorted_before _ _ _ _ _ _ Hs Hji Hd Hc) as Hle.
    unfold candidate_le in Hle. congruence.
Qed.

Lemma starved_flow_outranks_witness :
  match rank_candidates 120 Demo.aged with
  | (_, cs) => (cd_flow <$> cs !! 0%nat) = Some 3 /\ (cd_flow <$> cs !! 1%nat) = Some 4 /\ (0 < 1)%nat
  end.
Proof.
  destruct (rank_candidates 120 Demo.aged) as [im' cs] eqn:E.
  assert (exists c d, cs !! 0%nat = Some c /\ cs !! 1%nat = Some d /\
    cd_flow c = 3 /\ cd_flow d = 4) as (c & d & Hc & Hd & Hcf & Hdf).
  { replace cs with (snd (rank_candidates 120 Demo.aged)) by by rewrite E.
    eexists _, _. vm_compute. auto. }
  split_and!; [by rewrite Hc; simpl; rewrite Hcf | by rewrite Hd; simpl; rewrite Hdf|].
  assert (exists a b, im_flows Demo.aged !! 3 = Some a /\ im_flows Demo.aged !! 4 = Some b /\
    fr_ever_ready a = true /\ fr_eligible_since_tick a <= 120 /\
    po_starvation_bound_ticks (im_policy Demo.aged) <= 120 - fr_eligible_since_tick a /\
    kTierStarvation < tier_of Demo.aged b 120) as (a & b & H1 & H2 & H3 & H4 & H5 & H6).
  { eexists _, _. split; [vm_compute; reflexivity|]. split; [vm_compute; reflexivity|].
    vm_compute. split_and!; congruence. }
  rewrite <- Hcf in H1. rewrite <- Hdf in H2.
  exact (starved_flow_outranks Demo.aged im' 120 cs a b c d 0 1 E Hc Hd H1 H2 H3 H4 H5 H6).
Defined.
