(* ===== verification/Invariants.v ===== *)
(** * Well-formedness of the scheduler state

    The invariants every reachable state satisfies, and their preservation by
    each transition of Transitions.v and Arbitrate.v:

    - [flows_wf]: a flow sits under its own identity, and the three indexes
      hold exactly the flows whose lifecycle belongs there;
    - [resources_wf]: no interval is ever committed beyond the capacity of the
      resource;
    - [schedules_wf]: a schedule sits under its own identity, with one
      consumption mark per entry. *)

From S2P Require Import Prelude Checked Bytes Hash Model Schedule Codec Journal State.
From S2P Require Import Transitions Arbitrate.

(** ** Methods that preserve a property whatever they return *)

Definition preserves {E S A} (P : S -> Prop) (m : M E S A) : Prop :=
  forall s, P s -> P (exec m s).

Section Preserves.
Context {E S : Type} (P : S -> Prop).

Lemma preserves_bind {A B} (m : M E S A) (k : A -> M E S B) :
  preserves P m -> (forall a, preserves P (k a)) -> preserves P (bind m k).
Proof.
  intros Hm Hk s Hs. specialize (Hm s Hs). unfold exec, bind in *.
  destruct (m s) as [s' [a|e]]; [apply Hk, Hm | exact Hm].
Qed.

Lemma preserves_ret {A} (a : A) : preserves P (ret (E := E) a).
Proof. by intros s Hs. Qed.
Lemma preserves_throw {A} (e : E) : preserves P (throw (A := A) e).
Proof. by intros s Hs. Qed.
Lemma preserves_get : preserves P (get (E := E)).
Proof. by intros s Hs. Qed.
Lemma preserves_lift {A} (r : Result E A) : preserves P (lift r).
Proof. by intros s Hs. Qed.
Lemma preserves_guard c (e : E) : preserves P (guard c e).
Proof. unfold guard. destruct c; [apply preserves_throw | apply preserves_ret]. Qed.
Lemma preserves_modify f : (forall s, P s -> P (f s)) -> preserves P (modify (E := E) f).
Proof. intros H s Hs. by apply H. Qed.

(** A method that reads the state it runs in. *)
Lemma preserves_bind_get {A} (k : S -> M E S A) :
  (forall s, P s -> P (exec (k s) s)) -> preserves P (bind get k).
Proof. intros H s Hs. exact (H s Hs). Qed.
End Preserves.

(** Journaling touches nothing but the store. *)
Lemma wp_journal t ops (Q : unit -> Impl -> Prop) X im :
  (forall st, Q tt (im <| im_store := st |>)) ->
  (forall e st, X e (im <| im_store := st |>)) -> wp (journal t ops) Q X im.
Proof.
  intros HQ HX. unfold wp, journal. destruct (im_store im) as [ds|] eqn:E.
  - destruct (append t (payload ops) ds) as [ds' [[]|e]]; auto.
  - replace im with (im <| im_store := None |>); [auto|].
    by destruct im; simpl in E; subst.
Qed.

(** Splits a method into its primitives. *)
Ltac preserve_step :=
  lazymatch goal with
  | |- preserves _ (bind _ _) => apply preserves_bind; [|intros ?]
  | |- preserves _ (ret _) => apply preserves_ret
  | |- preserves _ (throw _) => apply preserves_throw
  | |- preserves _ get => apply preserves_get
  | |- preserves _ (lift _) => apply preserves_lift
  | |- preserves _ (guard _ _) => apply preserves_guard
  | |- preserves _ (if ?c then _ else _) => destruct c
  | |- preserves _ (match ?x with _ => _ end) => destruct x
  | |- preserves _ (let _ := _ in _) => cbv zeta
  | |- preserves _ (modify _) => apply preserves_modify; intros ? ?
  end.

(** ** The flow table and its indexes *)

Definition index (s : Slot) (im : Impl) : gset N :=
  match s with
  | SlotNone => ∅
  | SlotWaiting => im_waiting_index im
  | SlotReady => im_ready_index im
  | SlotInFlight => im_inflight_index im
  end.

Record flows_wf (im : Impl) : Prop := {
  fw_key : forall id rt, im_flows im !! id = Some rt -> fd_flow (fr_descriptor rt) = id;
  fw_index : forall s id, s <> SlotNone ->
    (id ∈ index s im <-> exists rt, im_flows im !! id = Some rt /\ slot (fr_lifecycle rt) = s) }.

(** The four fields [flows_wf] reads. *)
Definition flow_core (im : Impl) :=
  (im_flows im, im_waiting_index im, im_ready_index im, im_inflight_index im).

Lemma flows_wf_core im im' : flow_core im' = flow_core im -> flows_wf im -> flows_wf im'.
Proof.
  unfold flow_core. intros [= H1 H2 H3 H4] [Hk Hi]. split.
  - intros id rt. rewrite H1. apply Hk.
  - intros s id Hs. rewrite H1, <- (Hi s id Hs).
    destruct s; unfold index; congruence || by rewrite ?H2, ?H3, ?H4.
Qed.

(** An update of a flow that keeps its identity and its lifecycle. *)
Definition plain (f : FlowRuntime -> FlowRuntime) : Prop := forall rt,
  fd_flow (fr_descriptor (f rt)) = fd_flow (fr_descriptor rt) /\
  fr_lifecycle (f rt) = fr_lifecycle rt.

Lemma index_upd_flow s id f im : index s (upd_flow id f im) = index s im.
Proof. by destruct s. Qed.

Lemma index_flows s g im : index s (im <| im_flows ::= g |>) = index s im.
Proof. by destruct s. Qed.

Lemma flows_wf_upd_flow id f im : plain f -> flows_wf im -> flows_wf (upd_flow id f im).
Proof.
  intros Hf [Hk Hi]. split.
  - intros i rt. unfold upd_flow. upd_simpl. rewrite lookup_alter_Some.
    intros [(<- & rt' & Hrt & ->)|[_ Hrt]]; [|by apply Hk].
    rewrite (proj1 (Hf rt')). by apply Hk.
  - intros s i Hs. rewrite index_upd_flow, (Hi s i Hs). unfold upd_flow. upd_simpl.
    setoid_rewrite lookup_alter_Some. split.
    + intros (rt & Hrt & Hsl). destruct (decide (id = i)) as [->|Hne].
      * exists (f rt). split; [left; eauto|]. by rewrite (proj2 (Hf rt)).
      * exists rt. split; [by right | done].
    + intros (rt & [(<- & rt' & Hrt & ->)|[_ Hrt]] & Hsl); [|by exists rt].
      exists rt'. by rewrite <- (proj2 (Hf rt')).
Qed.

Lemma elem_of_update_index s f from to im id :
  s <> SlotNone ->
  id ∈ index s (update_index f from to im) <->
  (id = f /\ slot to = s) \/ (id ∈ index s im /\ (id = f -> slot from <> s)).
Proof.
  intros Hs. unfold update_index.
  destruct s; [done| | |];
    destruct (slot from), (slot to); unfold index_insert, index_erase, index; upd_simpl;
    set_solver.
Qed.

Lemma update_index_flows f from to im : im_flows (update_index f from to im) = im_flows im.
Proof. unfold update_index, index_insert, index_erase. by destruct (slot from), (slot to). Qed.

Lemma refresh_window_plain now : plain (refresh_min_service_window now).
Proof. intros rt. unfold refresh_min_service_window. repeat case_match; done. Qed.

Lemma enter_lifecycle_plain im next now rt :
  fr_descriptor (enter_lifecycle im next now rt) = fr_descriptor rt /\
  fr_lifecycle (enter_lifecycle im next now rt) = next.
Proof.
  unfold enter_lifecycle, refresh_min_service_window. cbv zeta.
  repeat case_match; done.
Qed.

Lemma set_lifecycle_lookup id next now im rt :
  im_flows im !! id = Some rt ->
  exists rt', im_flows (set_lifecycle id next now im) !! id = Some rt' /\
    fr_descriptor rt' = fr_descriptor rt /\ fr_lifecycle rt' = next.
Proof.
  intros Hid. unfold set_lifecycle. rewrite Hid. case_bool_decide as Heq; [by exists rt|].
  rewrite update_index_flows. upd_simpl. rewrite lookup_insert_eq. eexists. split; [done|].
  apply enter_lifecycle_plain.
Qed.

Lemma set_lifecycle_lookup_ne id id' next now im :
  id <> id' -> im_flows (set_lifecycle id next now im) !! id' = im_flows im !! id'.
Proof.
  intros Hne. unfold set_lifecycle. repeat case_match; [done| |done].
  rewrite update_index_flows. upd_simpl. by rewrite lookup_insert_ne.
Qed.

Lemma flows_wf_set_lifecycle id next now im :
  flows_wf im -> flows_wf (set_lifecycle id next now im).
Proof.
  intros [Hk Hi]. unfold set_lifecycle. destruct (im_flows im !! id) as [rt|] eqn:Hid; [|done].
  case_bool_decide as Heq; [done|]. rewrite (Hk _ _ Hid).
  destruct (enter_lifecycle_plain im next now rt) as [Hd Hl]. split.
  - intros i rt'. rewrite update_index_flows. upd_simpl. rewrite lookup_insert_Some.
    intros [[<- <-]|[_ H]]; [rewrite Hd; by apply Hk | by apply Hk].
  - intros s i Hs. rewrite elem_of_update_index by done. rewrite update_index_flows.
    rewrite index_flows. upd_simpl. rewrite (Hi s i Hs). destruct (decide (i = id)) as [->|Hne].
    + setoid_rewrite lookup_insert_eq. split.
      * intros [[_ Hsl]|[(rt' & Hrt' & Hsl) Hn]].
        -- eexists. split; [done|]. by rewrite Hl.
        -- exfalso. apply Hn; [done|]. congruence.
      * intros (rt' & [= <-] & Hsl). left. by rewrite Hl in Hsl.
    + setoid_rewrite lookup_insert_ne; [|done]. naive_solver.
Qed.

Lemma plain_history h b : plain (fun rt => if b : bool
  then rt <| fr_history := h rt |> <| fr_history_truncated := true |>
  else rt <| fr_history := h rt |>).
Proof. by destruct b. Qed.

Lemma record_step_plain id step im : flows_wf im -> flows_wf (record_step id step im).
Proof.
  intros H. apply flows_wf_upd_flow; [|done]. intros rt. cbv zeta. by case_match.
Qed.

Lemma flows_wf_transition id next now reason sch att detail im :
  flows_wf im -> flows_wf (transition id next now reason sch att detail im).
Proof. intros H. by apply record_step_plain, flows_wf_set_lifecycle. Qed.

(** ** Every transition preserves [flows_wf] *)

Lemma flows_wf_upd_schedule id f im : flows_wf im -> flows_wf (upd_schedule id f im).
Proof. by apply flows_wf_core. Qed.
Lemma flows_wf_upd_resource id f im : flows_wf im -> flows_wf (upd_resource id f im).
Proof. by apply flows_wf_core. Qed.
Lemma flows_wf_upd_attempt id f im : flows_wf im -> flows_wf (upd_attempt id f im).
Proof. by apply flows_wf_core. Qed.
Lemma flows_wf_release_slot id im : flows_wf im -> flows_wf (release_slot id im).
Proof. by apply flows_wf_core. Qed.

(** Proves [flows_wf] of a state built from the primitives. *)
Ltac flows_step :=
  lazymatch goal with
  | |- flows_wf (transition _ _ _ _ _ _ _ _) => apply flows_wf_transition
  | |- flows_wf (record_step _ _ _) => apply record_step_plain
  | |- flows_wf (set_lifecycle _ _ _ _) => apply flows_wf_set_lifecycle
  | |- flows_wf (upd_flow _ _ _) =>
      apply flows_wf_upd_flow; [intros ?; repeat case_match; done|]
  | |- flows_wf (upd_schedule _ _ _) => apply flows_wf_upd_schedule
  | |- flows_wf (upd_resource _ _ _) => apply flows_wf_upd_resource
  | |- flows_wf (upd_attempt _ _ _) => apply flows_wf_upd_attempt
  | |- flows_wf (release_slot _ _) => apply flows_wf_release_slot
  | |- flows_wf (if ?c then _ else _) => destruct c
  | |- flows_wf (match ?x with _ => _ end) => destruct x eqn:?
  | |- flows_wf (@upd _ _ ?p ?u ?f ?r) =>
      let H := fresh in
      assert (forall i, flow_core (@upd _ _ p u f i) = flow_core i) as H by reflexivity;
      apply (flows_wf_core r _ (H r)); clear H
  | |- flows_wf (foldl _ _ _) => apply foldl_inv; [|intros ? ? _ ?]
  end.
#[export] Hint Extern 2 (flows_wf (if ?c then _ else _)) => destruct c : fs.
Ltac flows_solve := cbv zeta; repeat flows_step; try assumption; auto with fs.

Lemma flows_wf_apply_attempt_closed a st d now im :
  flows_wf im -> flows_wf (apply_attempt_closed a st d now im).
Proof. intros H. unfold apply_attempt_closed, close_flow. flows_solve. Qed.
#[export] Hint Resolve flows_wf_apply_attempt_closed : fs.

Lemma flows_wf_release_run_entry s i now im :
  flows_wf im -> flows_wf (release_run_entry s i now im).
Proof. intros H. unfold release_run_entry, clear_scheduled. flows_solve. Qed.
#[export] Hint Resolve flows_wf_release_run_entry : fs.

Lemma flows_wf_release_held_window rt now im :
  flows_wf im -> flows_wf (release_held_window rt now im).
Proof. intros H. unfold release_held_window. flows_solve. Qed.
#[export] Hint Resolve flows_wf_release_held_window : fs.

Lemma flows_wf_apply_cancel f g now im : flows_wf im -> flows_wf (apply_cancel f g now im).
Proof. intros H. unfold apply_cancel, clear_scheduled. flows_solve. Qed.

Lemma flows_wf_apply_retire_flow f g im : flows_wf im -> flows_wf (apply_retire_flow f g im).
Proof.
  intros [Hk Hi]. unfold apply_retire_flow. destruct (im_flows im !! f) as [rt|]; [|done].
  case_match; [done|]. split.
  - intros id rt'. upd_simpl. rewrite lookup_delete_Some. intros [_ Hrt]. by apply Hk.
  - intros s id Hs. upd_simpl. setoid_rewrite lookup_delete_Some.
    trans (id <> f /\ id ∈ index s im); [destruct s; [done|..]; unfold index; upd_simpl; set_solver|].
    rewrite (Hi s id Hs). naive_solver.
Qed.

Lemma flows_wf_apply_ambiguity_resolved f g r now im :
  flows_wf im -> flows_wf (apply_ambiguity_resolved f g r now im).
Proof. intros H. unfold apply_ambiguity_resolved. flows_solve. Qed.

Lemma flows_wf_apply_readiness f g s now im :
  flows_wf im -> flows_wf (apply_readiness f g s now im).
Proof. intros H. unfold apply_readiness. flows_solve. Qed.

Lemma flows_wf_apply_run_entry s e im : flows_wf im -> flows_wf (apply_run_entry s e im).
Proof. intros H. unfold apply_run_entry. flows_solve. Qed.
#[export] Hint Resolve flows_wf_apply_run_entry : fs.

Lemma flows_wf_apply_schedule s im : flows_wf im -> flows_wf (apply_schedule s im).
Proof. intros H. unfold apply_schedule. flows_solve. Qed.

Lemma flows_wf_apply_release_schedule s now im :
  flows_wf im -> flows_wf (apply_release_schedule s now im).
Proof. intros H. unfold apply_release_schedule. flows_solve. Qed.
#[export] Hint Resolve flows_wf_apply_release_schedule : fs.

Lemma flows_wf_apply_attempt_opened t n now im :
  flows_wf im -> flows_wf (apply_attempt_opened t n now im).
Proof. intros H. unfold apply_attempt_opened. flows_solve. Qed.

Lemma flows_wf_apply_attempt_started a now im :
  flows_wf im -> flows_wf (apply_attempt_started a now im).
Proof. intros H. unfold apply_attempt_started. flows_solve. Qed.

Lemma flows_wf_apply_completion e c l now im :
  flows_wf im -> flows_wf (apply_completion e c l now im).
Proof. intros H. unfold apply_completion, clear_scheduled. flows_solve. Qed.

Lemma flows_wf_normalize now im : flows_wf im -> flows_wf (normalize_transient_states now im).
Proof. intros H. unfold normalize_transient_states, normalize_flow. flows_solve. Qed.
#[export] Hint Resolve flows_wf_normalize : fs.

Lemma flows_wf_abandon now d im : flows_wf im -> flows_wf (abandon_open_attempts now d im).
Proof. intros H. unfold abandon_open_attempts. cbv zeta. apply flows_wf_normalize. flows_solve. Qed.

Lemma flows_wf_apply_admit d im : flows_wf im -> flows_wf (exec (apply_admit d) im).
Proof.
  intros [Hk Hi]. unfold exec, apply_admit. destruct (_ && _); [done|]. cbn [fst]. split.
  - intros id rt. upd_simpl. rewrite lookup_insert_Some. intros [[<- <-]|[_ H']]; [done|].
    by apply Hk.
  - intros s id Hs. upd_simpl. setoid_rewrite lookup_insert_Some.
    trans ((id = fd_flow d /\ s = SlotWaiting) \/ (id <> fd_flow d /\ id ∈ index s im)).
    { clear Hk Hi. destruct s; [done|..]; unfold index; upd_simpl;
        rewrite ?elem_of_union, ?elem_of_difference, ?elem_of_singleton;
        destruct (decide (id = fd_flow d)); naive_solver. }
    rewrite (Hi s id Hs). split.
    + intros [[-> ->]|[Hne (rt & Hrt & Hsl)]]; [|by eauto 6].
      eexists. split; [by left|]. done.
    + intros (rt & [[<- <-]|[Hne Hrt]] & Hsl); [|by eauto 6]. left. by rewrite <- Hsl.
Qed.

Lemma flows_wf_apply_update d im : flows_wf im -> flows_wf (exec (apply_update d) im).
Proof.
  intros Hw. pose proof Hw as [Hk Hi]. unfold exec, apply_update.
  destruct (im_flows im !! fd_flow d) as [rt|] eqn:Hid; [|done].
  destruct (holds_open_work _); [done|]. cbn [fst].
  unfold upd_flow. split.
  - intros id rt'. upd_simpl. rewrite lookup_alter_Some.
    intros [(<- & rt0 & _ & ->)|[_ H']]; [done | by apply Hk].
  - intros s id Hs. change (index s (upd im_flows (alter _ (fd_flow d)) im)) with
      (index s (upd_flow (fd_flow d) (fun rt => rt <| fr_descriptor := d |>) im)).
    rewrite index_upd_flow, (Hi s id Hs). upd_simpl. setoid_rewrite lookup_alter_Some.
    split.
    + intros (rt' & Hrt & Hsl). destruct (decide (fd_flow d = id)) as [<-|].
      * eexists. split; [left; eauto|]. by rewrite Hid in Hrt; injection Hrt as <-.
      * eauto 6.
    + intros (rt' & [(<- & rt0 & Hrt & ->)|[_ Hrt]] & Hsl); eauto.
Qed.

Lemma index_insert_flows id s im : im_flows (index_insert id s im) = im_flows im.
Proof. by destruct s. Qed.

Lemma elem_of_index_insert s id s' im i :
  s <> SlotNone -> i ∈ index s (index_insert id s' im) <-> (i = id /\ s' = s) \/ i ∈ index s im.
Proof.
  intros Hs. destruct s; [done|..]; destruct s'; unfold index_insert, index; upd_simpl; set_solver.
Qed.

Lemma reindex_fold l im :
  let im' := foldl (fun im '(id, rt) => index_insert id (slot (fr_lifecycle rt)) im) im l in
  im_flows im' = im_flows im /\
  forall s i, s <> SlotNone ->
    i ∈ index s im' <-> (exists rt, (i, rt) ∈ l /\ slot (fr_lifecycle rt) = s) \/ i ∈ index s im.
Proof.
  revert im. induction l as [|[id rt] l IH]; intros im; cbn [foldl].
  - split; [done|]. intros s i Hs. split; [by right|].
    intros [(rt & H%not_elem_of_nil & _)|?]; done.
  - destruct (IH (index_insert id (slot (fr_lifecycle rt)) im)) as [Hf Hi]. cbn zeta in *.
    split; [by rewrite Hf, index_insert_flows|]. intros s i Hs.
    rewrite (Hi s i Hs), elem_of_index_insert by done. setoid_rewrite elem_of_cons. split.
    + intros [(rt' & Hin & Hsl)|[[-> Hsl]|?]]; eauto.
    + intros [(rt' & [[= -> ->]|Hin] & Hsl)|?]; eauto.
Qed.

(** [reindex_all] rebuilds the indexes from scratch. *)
Lemma flows_wf_reindex im :
  (forall id rt, im_flows im !! id = Some rt -> fd_flow (fr_descriptor rt) = id) ->
  flows_wf (reindex_all im).
Proof.
  intros Hk. unfold reindex_all. cbv zeta.
  set (clear := im <| im_waiting_index := ∅ |> <| im_ready_index := ∅ |>
                   <| im_inflight_index := ∅ |>).
  destruct (reindex_fold (map_entries (im_flows im)) clear) as [Hf Hi]. cbn zeta in *. split.
  - intros id rt. rewrite Hf. apply Hk.
  - intros s id Hs. rewrite (Hi s id Hs), Hf. setoid_rewrite elem_of_map_entries.
    assert (index s clear = ∅) as -> by (by destruct s). clear. set_solver.
Qed.

Lemma flows_wf_apply_epoch_advance next now im :
  flows_wf im -> flows_wf (apply_epoch_advance next now im).
Proof.
  intros Hw. unfold apply_epoch_advance. cbv zeta.
  pose proof (flows_wf_abandon now "epoch advanced: prior dispatch authority retired" im Hw)
    as Hw1.
  set (im1 := abandon_open_attempts _ _ _) in *.
  repeat flows_step.
  apply flows_wf_reindex. intros id rt. upd_simpl. rewrite lookup_fmap_Some.
  intros (rt' & <- & Hrt). exact (fw_key _ Hw1 _ _ Hrt).
Qed.

(** ** The arbitration round preserves [flows_wf] *)

Lemma flows_wf_journal t ops : preserves flows_wf (journal t ops).
Proof.
  intros im H. unfold exec, journal. destruct (im_store im) as [ds|]; [|done].
  destruct (append t (payload ops) ds) as [ds' r]. cbn [fst]. by apply (flows_wf_core im).
Qed.

Lemma flows_wf_count_miss id im : flows_wf im -> flows_wf (count_deadline_miss id im).
Proof. intros H. unfold count_deadline_miss. flows_solve. Qed.

Lemma flows_wf_handle_miss id now im o :
  flows_wf im -> flows_wf (handle_deadline_miss id now im o).1.
Proof.
  intros H. unfold handle_deadline_miss. repeat case_match; try done; cbn [fst].
  - apply flows_wf_transition, flows_wf_count_miss, H.
  - apply flows_wf_count_miss, H.
Qed.

Lemma flows_wf_not_ready id rt reason now im o :
  flows_wf im -> flows_wf (not_ready id rt reason now im o).1.
Proof.
  intros H. unfold not_ready, fail_dependent. destruct reason; try done.
  - by apply flows_wf_handle_miss.
  - by apply flows_wf_transition.
Qed.

Lemma flows_wf_refresh now im o : flows_wf im -> flows_wf (refresh_lifecycles now im o).1.
Proof.
  intros H. unfold refresh_lifecycles.
  destruct (foldl (refresh_waiting now) (im, o) _) as [im1 o1] eqn:E1.
  assert (flows_wf im1) as H1.
  { change (flows_wf (im1, o1).1). rewrite <- E1.
    apply (foldl_inv (fun st => flows_wf st.1)); [done|]. intros [im2 o2] id _ H2.
    unfold refresh_waiting. repeat case_match; try done; cbn [fst];
      [by apply flows_wf_transition | by apply flows_wf_not_ready]. }
  apply (foldl_inv (fun st => flows_wf st.1)); [done|]. intros [im2 o2] id _ H2.
  unfold refresh_inflight. repeat case_match; try done. by apply flows_wf_count_miss.
Qed.

Lemma flows_wf_reclaim now im o : flows_wf im -> flows_wf (reclaim_expired_deliveries now im o).1.
Proof.
  unfold reclaim_expired_deliveries. generalize (im_schedule_order im) as order.
  intros order. revert im o. induction order as [|id order IH]; intros im o H; [done|].
  cbn [reclaim_loop]. repeat case_match; try done; try (by apply IH); cbn [fst];
    match goal with E : journal _ _ _ = (?i, _) |- _ =>
      assert (flows_wf i) by (pose proof (flows_wf_journal JScheduleReleased
        [WU64 id; WU64 now] im H) as Hj; unfold exec in Hj; by rewrite E in Hj) end.
  - apply IH. by apply flows_wf_apply_release_schedule.
  - done.
Qed.

Lemma flows_wf_close_attempt a st d now : preserves flows_wf (close_attempt a st d now).
Proof.
  unfold close_attempt. repeat preserve_step; [apply flows_wf_journal|].
  by apply flows_wf_apply_attempt_closed.
Qed.

Lemma flows_wf_close_overdue now l : preserves flows_wf (close_overdue now l).
Proof.
  induction l as [|a l IH]; cbn [close_overdue]; repeat preserve_step; try done.
  - apply flows_wf_close_attempt.
  - flows_solve.
Qed.

Lemma flows_wf_rank now im : flows_wf im -> flows_wf (rank_candidates now im).1.
Proof.
  intros H. unfold rank_candidates. destruct (foldl _ _ _) as [im1 cs] eqn:E.
  change (flows_wf (im1, cs).1). rewrite <- E.
  apply (foldl_inv (fun st => flows_wf st.1)); [done|]. intros [im2 cs2] id _ H2.
  unfold consider. repeat case_match; try done; cbn [fst]; simplify_eq. flows_solve.
Qed.

(** Lifting to the placement loop, whose state carries the round. *)
Definition impl_prop (P : Impl -> Prop) (st : Impl * Round) : Prop := P st.1.

Lemma preserves_on_impl {A} P (m : Op A) : preserves P m -> preserves (impl_prop P) (on_impl m).
Proof.
  intros Hm [im rd] H. unfold exec, on_impl, impl_prop in *. cbn [fst] in *.
  specialize (Hm im H). unfold exec in Hm. by destruct (m im).
Qed.

Lemma preserves_modify_impl P f :
  (forall im, P im -> P (f im)) -> preserves (impl_prop P) (modify_impl f).
Proof. intros Hf [im rd] H. apply Hf, H. Qed.

Lemma preserves_modify_round P f : preserves (impl_prop P) (modify_round f).
Proof. by intros [im rd] H. Qed.

Section PlacementPreserves.
Context (P : Impl -> Prop) (now : Ticks).
Hypotheses
  (Pclose : forall a d, preserves P (close_attempt a APreempted d now))
  (Pcount : forall im, P im ->
     P (im <| im_preemptions_issued ::= incr64 |> <| im_preemptions_in_window ::= incr32 |>))
  (Proll : forall r im, P im -> P (upd_resource r (roll_interval now) im))
  (Pnot : forall id rt reason im o, P im -> im_flows im !! id = Some rt ->
     fr_lifecycle rt = Ready -> P (not_ready id rt reason now im o).1).

Lemma preserves_displace c rt : preserves (impl_prop P) (displace c rt now).
Proof.
  unfold displace, deferring. apply preserves_bind; [apply preserves_get|]. intros [im rd].
  repeat preserve_step; try apply preserves_modify_round.
  - by apply preserves_on_impl.
  - by apply preserves_modify_impl.
  - apply preserves_modify_impl. by auto.
Qed.

Lemma preserves_place_window c : preserves (impl_prop P) (place_window c now).
Proof.
  unfold place_window, deferring. apply preserves_bind; [apply preserves_get|]. intros [im rd].
  repeat preserve_step; apply preserves_modify_round.
Qed.

Lemma preserves_exec {S A} (R : S -> Prop) (m : M ErrorCode S A) s :
  preserves R m -> R s -> R (exec m s).
Proof. intros Hm. apply Hm. Qed.

Lemma preserves_place_candidate limit c :
  preserves (impl_prop P) (place_candidate now limit c).
Proof.
  unfold place_candidate, deferring. apply preserves_bind_get. intros [im rd] H. cbv beta iota.
  destruct (im_flows im !! cd_flow c) as [rt|] eqn:Hrt; [|done].
  case_bool_decide as Hready; [|done]. cbn [negb]. destruct (bool_decide _); [done|].
  destruct (derived_readiness im rt now) as [still current].
  destruct (negb still).
  { unfold exec, modify. cbn [fst].
    pose proof (Pnot (cd_flow c) rt current im (rn_outcome rd) H Hrt Hready) as Hn.
    by destruct (not_ready _ _ _ _ _ _) as [im2 o2]. }
  apply preserves_exec; [|done].
  destruct (_ <=? _); [apply preserves_modify_round|]. cbv zeta.
  destruct (im_resources im !! _) as [r|]; [|apply preserves_modify_round].
  destruct (negb _); [apply preserves_modify_round|].
  apply preserves_bind; [apply preserves_modify_impl; by auto|]. intros _.
  apply preserves_bind.
  - destruct (_ <=? _); [apply preserves_displace | apply preserves_ret].
  - intros []; [apply preserves_place_window | apply preserves_ret].
Qed.

Lemma preserves_place_all limit cs : preserves (impl_prop P) (place_all now limit cs).
Proof.
  induction cs as [|c cs IH]; cbn [place_all]; [apply preserves_ret|].
  apply preserves_bind; [apply preserves_place_candidate | done].
Qed.
End PlacementPreserves.

(** The whole round, from what each of its steps preserves: [P] until the
    schedule is issued, [Q] from then on. *)
Section ArbitratePreserves.
Context (P Q : Impl -> Prop) (now : Ticks).
Hypotheses
  (Pclose : forall a d, preserves P (close_attempt a APreempted d now))
  (Pcount : forall im, P im ->
     P (im <| im_preemptions_issued ::= incr64 |> <| im_preemptions_in_window ::= incr32 |>))
  (Pissued : forall im, P im -> P (im <| im_preemptions_issued ::= incr64 |>))
  (Proll : forall r im, P im -> P (upd_resource r (roll_interval now) im))
  (Pnot : forall id rt reason im o, P im -> im_flows im !! id = Some rt ->
     fr_lifecycle rt = Ready -> P (not_ready id rt reason now im o).1)
  (Ptick : forall im, P im -> P (im <| im_last_tick := now |> <| im_arbitration_rounds ::= incr64 |>))
  (Preclaim : forall im o, P im -> P (reclaim_expired_deliveries now im o).1)
  (Prefresh : forall im o, P im -> P (refresh_lifecycles now im o).1)
  (Prank : forall im, P im -> P (rank_candidates now im).1)
  (Pwindow : forall im, P im -> P (roll_preemption_window now im))
  (PQ : forall im, P im -> Q im)
  (Pissue : forall entries o im, P im -> Q (exec (issue_schedule entries now o) im))
  (Qnormal : forall im, Q im -> Q (normalize_transient_states now im))
  (Qretire : forall im, Q im -> Q (maybe_retire_schedules im)).

Lemma preserves_close_overdue l : preserves P (close_overdue now l).
Proof.
  induction l as [|a l IH]; cbn [close_overdue]; repeat preserve_step; auto.
Qed.

Lemma exec_bind_PQ {A B} (m : Op A) (k : A -> Op B) :
  (forall im, P im -> P (exec m im)) -> (forall a im, P im -> Q (exec (k a) im)) ->
  forall im, P im -> Q (exec (bind m k) im).
Proof.
  intros Hm Hk im H. specialize (Hm im H). unfold exec, bind in *.
  destruct (m im) as [im' [a|e]]; [by apply Hk | by apply PQ].
Qed.

Lemma arbitrate_PQ : forall im, P im -> Q (exec (arbitrate now) im).
Proof.
  unfold arbitrate. apply exec_bind_PQ; [done|]. intros im0.
  apply exec_bind_PQ; [apply preserves_guard|]. intros _.
  apply exec_bind_PQ; [auto|]. intros _.
  apply exec_bind_PQ.
  { intros im H. unfold exec. specialize (Preclaim im empty_outcome H).
    destruct (reclaim_expired_deliveries now im empty_outcome) as [im1 o1]. cbn [fst] in *.
    specialize (Prefresh im1 o1 Preclaim). by destruct (refresh_lifecycles now im1 o1). }
  intros o. apply exec_bind_PQ; [done|]. intros im1.
  apply exec_bind_PQ; [apply preserves_close_overdue|]. intros _.
  apply exec_bind_PQ.
  { intros im H. unfold exec. specialize (Prank im H). by destruct (rank_candidates now im). }
  intros cs. apply exec_bind_PQ; [auto|]. intros _. apply exec_bind_PQ; [done|]. intros im2.
  apply exec_bind_PQ.
  { intros im H. unfold exec.
    match goal with |- context [place_all now ?l ?cs ?st] =>
      pose proof (preserves_place_all P now Pclose Pcount Proll Pnot l cs st H) as Hp;
      unfold exec in Hp; destruct (place_all now l cs st) as [[im3 rd] r] end.
    exact Hp. }
  intros rd im H. specialize (Pissue (rn_entries rd) (rn_outcome rd) im H).
  unfold exec, bind, modify, ret in *.
  destruct (issue_schedule _ _ _ _) as [im3 [o3|e]]; cbn [fst] in *; auto.
Qed.
End ArbitratePreserves.

Lemma flows_wf_retire order im : flows_wf im -> flows_wf (retire_loop order im).
Proof.
  revert im. induction order as [|id order IH]; intros im H; [done|]. cbn [retire_loop].
  repeat case_match; try done; apply IH; flows_solve.
Qed.

Lemma flows_wf_issue entries now o : preserves flows_wf (issue_schedule entries now o).
Proof.
  unfold issue_schedule. repeat preserve_step; try apply flows_wf_journal.
  - flows_solve.
  - by apply flows_wf_apply_schedule.
  - flows_solve.
Qed.

Lemma flows_wf_arbitrate now : preserves flows_wf (arbitrate now).
Proof.
  intros im. apply (arbitrate_PQ flows_wf flows_wf now).
  - intros. apply flows_wf_close_attempt.
  - intros. flows_solve.
  - intros. flows_solve.
  - intros. flows_solve.
  - intros. by apply flows_wf_not_ready.
  - intros. flows_solve.
  - intros. by apply flows_wf_reclaim.
  - intros. by apply flows_wf_refresh.
  - intros. by apply flows_wf_rank.
  - intros. unfold roll_preemption_window. flows_solve.
  - done.
  - intros. by apply flows_wf_issue.
  - intros. by apply flows_wf_normalize.
  - intros. by apply flows_wf_retire.
Qed.
