(* ===== verification/Frames.v ===== *)
(** * What the lifecycle plumbing leaves alone

    [set_lifecycle], [record_step] and the helpers built on them touch the flow
    table and its indexes only, and of a flow only a few fields.  [Blind]
    projections of the scheduler and [Stable] projections of a flow are
    therefore unchanged by them; the theorems about dispatch, completion and
    epochs read everything they need through such projections. *)

From S2P Require Import Prelude Checked Bytes Hash Model Schedule Codec Journal State.
From S2P Require Import Transitions Arbitrate Operations Invariants.

(** ** Projections that do not see flows *)

Class Blind {A : Type} (p : Impl -> A) : Prop := {
  blind_flows : forall f im, p (im <| im_flows ::= f |>) = p im;
  blind_waiting : forall f im, p (im <| im_waiting_index ::= f |>) = p im;
  blind_ready : forall f im, p (im <| im_ready_index ::= f |>) = p im;
  blind_inflight : forall f im, p (im <| im_inflight_index ::= f |>) = p im }.

#[export] Hint Extern 2 (Blind _) => (split; intros; reflexivity) : typeclass_instances.

Section BlindLemmas.
Context {A : Type} (p : Impl -> A) `{!Blind p}.

Lemma blind_upd_flow id f im : p (upd_flow id f im) = p im.
Proof. apply blind_flows. Qed.

Lemma blind_update_index f a b im : p (update_index f a b im) = p im.
Proof.
  unfold update_index, index_insert, index_erase.
  destruct (slot a), (slot b);
    repeat first [rewrite blind_waiting | rewrite blind_ready | rewrite blind_inflight]; done.
Qed.

Lemma blind_set_lifecycle id l now im : p (set_lifecycle id l now im) = p im.
Proof.
  unfold set_lifecycle. repeat case_match; [done| |done].
  by rewrite blind_update_index, blind_flows.
Qed.

Lemma blind_record_step id step im : p (record_step id step im) = p im.
Proof. apply blind_upd_flow. Qed.

Lemma blind_transition id l now r s a d im : p (transition id l now r s a d im) = p im.
Proof. unfold transition. by rewrite blind_record_step, blind_set_lifecycle. Qed.

Lemma blind_normalize now im : p (normalize_transient_states now im) = p im.
Proof.
  unfold normalize_transient_states. apply (foldl_inv (fun i => p i = p im)); [done|].
  intros i id _ Hi. unfold normalize_flow.
  repeat case_match; try done; by rewrite blind_set_lifecycle.
Qed.

Lemma blind_index_insert f sl im : p (index_insert f sl im) = p im.
Proof. unfold index_insert. destruct sl; auto using blind_waiting, blind_ready, blind_inflight. Qed.

Lemma blind_reindex im : p (reindex_all im) = p im.
Proof.
  unfold reindex_all. apply (foldl_inv (fun i => p i = p im)).
  - by rewrite blind_inflight, blind_ready, blind_waiting.
  - intros i [id rt] _ Hi. by rewrite blind_index_insert.
Qed.

Lemma blind_rearm f c now im : p (rearm f c now im) = p im.
Proof.
  unfold rearm. repeat case_match; [|by apply blind_set_lifecycle|done]. apply blind_transition.
Qed.
End BlindLemmas.

(** ** Fields of a flow that the plumbing does not write *)

Class Stable {A : Type} (g : FlowRuntime -> A) : Prop := {
  stable_enter : forall im l now rt, g (enter_lifecycle im l now rt) = g rt;
  stable_history : forall rt h, g (rt <| fr_history := h |>) = g rt;
  stable_truncated : forall rt b, g (rt <| fr_history_truncated := b |>) = g rt }.

Ltac stable_solve :=
  split; intros; try reflexivity;
  unfold enter_lifecycle, refresh_min_service_window; cbv zeta; repeat case_match; reflexivity.
#[export] Hint Extern 2 (Stable _) => stable_solve : typeclass_instances.

(** One field of every flow. *)
Definition view {A} (g : FlowRuntime -> A) (im : Impl) : gmap N A := g <$> im_flows im.

Section StableLemmas.
Context {A : Type} (g : FlowRuntime -> A).

Lemma lookup_view id im : view g im !! id = g <$> im_flows im !! id.
Proof. apply lookup_fmap. Qed.

Lemma view_upd_flow id f im :
  (forall rt, g (f rt) = g rt) -> view g (upd_flow id f im) = view g im.
Proof.
  intros H. unfold view, upd_flow. upd_simpl. apply map_eq. intros i.
  rewrite !lookup_fmap. destruct (decide (id = i)) as [<-|Hne].
  - rewrite lookup_alter_eq. by destruct (im_flows im !! id); simpl; rewrite ?H.
  - by rewrite lookup_alter_ne.
Qed.

(** An update that acts on the field alone. *)
Lemma view_upd_flow_alter id f h im :
  (forall rt, g (f rt) = h (g rt)) -> view g (upd_flow id f im) = alter h id (view g im).
Proof.
  intros H. unfold view, upd_flow. upd_simpl. apply map_eq. intros i.
  rewrite lookup_fmap. destruct (decide (id = i)) as [<-|Hne].
  - rewrite !lookup_alter_eq, lookup_fmap. by destruct (im_flows im !! id); simpl; rewrite ?H.
  - by rewrite !lookup_alter_ne, lookup_fmap.
Qed.

Context `{!Stable g}.

Lemma view_set_lifecycle id l now im : view g (set_lifecycle id l now im) = view g im.
Proof.
  unfold set_lifecycle. destruct (im_flows im !! id) as [rt|] eqn:E; [|done].
  case_bool_decide; [done|]. unfold view. rewrite update_index_flows. upd_simpl.
  rewrite fmap_insert, stable_enter. apply insert_id. by rewrite lookup_fmap, E.
Qed.

Lemma view_record_step id step im : view g (record_step id step im) = view g im.
Proof.
  apply view_upd_flow. intros rt. cbv zeta. case_match.
  - by rewrite stable_truncated, stable_history.
  - by rewrite stable_history.
Qed.

Lemma view_transition id l now r s a d im : view g (transition id l now r s a d im) = view g im.
Proof. unfold transition. by rewrite view_record_step, view_set_lifecycle. Qed.

Lemma view_normalize now im : view g (normalize_transient_states now im) = view g im.
Proof.
  unfold normalize_transient_states. apply (foldl_inv (fun i => view g i = view g im)); [done|].
  intros i id _ Hi. unfold normalize_flow.
  repeat case_match; try done; by rewrite view_set_lifecycle.
Qed.

Lemma view_rearm f c now im : view g (rearm f c now im) = view g im.
Proof.
  unfold rearm. repeat case_match; [|by apply view_set_lifecycle|done]. apply view_transition.
Qed.
End StableLemmas.

(** Updates outside the flow table. *)
Lemma view_flows {A} (g : FlowRuntime -> A) im im' :
  im_flows im' = im_flows im -> view g im' = view g im.
Proof. unfold view. by intros ->. Qed.

Lemma reindex_flows im : im_flows (reindex_all im) = im_flows im.
Proof.
  unfold reindex_all. apply (foldl_inv (fun i => im_flows i = im_flows im)); [done|].
  intros i [id rt] _ Hi. by destruct (slot _).
Qed.

Create Rewrite HintDb blind.
Create Rewrite HintDb view.
#[export] Hint Rewrite @blind_upd_flow @blind_set_lifecycle @blind_record_step @blind_transition
  @blind_normalize @blind_rearm using typeclasses eauto : blind.
#[export] Hint Rewrite @view_set_lifecycle @view_record_step @view_transition @view_normalize
  @view_rearm using typeclasses eauto : view.

(** The service every flow has received. *)
Definition served (im : Impl) : gmap N N := view fr_served_work im.

(** The lifecycle of every flow. *)
Definition life (im : Impl) : gmap N FlowLifecycle := view fr_lifecycle im.

Lemma alter_same {A} (h : A -> A) (k : N) (m : gmap N A) :
  (forall x, m !! k = Some x -> h x = x) -> alter h k m = m.
Proof.
  intros H. apply map_eq. intros i. destruct (decide (k = i)) as [<-|Hne].
  - rewrite lookup_alter_eq. destruct (m !! k) as [x|] eqn:E; simpl; [|done]. by rewrite H.
  - by rewrite lookup_alter_ne.
Qed.

Lemma life_set_lifecycle id l now im :
  life (set_lifecycle id l now im) = alter (fun _ => l) id (life im).
Proof.
  unfold set_lifecycle, life. destruct (im_flows im !! id) as [rt|] eqn:Hid.
  - case_bool_decide as Hl.
    + symmetry. apply alter_same. intros x. rewrite lookup_view, Hid. intros [= <-]. done.
    + unfold view. rewrite update_index_flows. upd_simpl. rewrite fmap_insert.
      rewrite (proj2 (enter_lifecycle_plain im l now rt)).
      apply map_eq. intros i. destruct (decide (id = i)) as [<-|Hne].
      * by rewrite lookup_insert_eq, lookup_alter_eq, lookup_fmap, Hid.
      * by rewrite lookup_insert_ne, lookup_alter_ne.
  - symmetry. apply alter_same. intros x. by rewrite lookup_view, Hid.
Qed.

Lemma life_upd_flow id f im :
  (forall rt, fr_lifecycle (f rt) = fr_lifecycle rt) -> life (upd_flow id f im) = life im.
Proof. apply view_upd_flow. Qed.

Lemma life_record_step id step im : life (record_step id step im) = life im.
Proof. apply life_upd_flow. intros rt. cbv zeta. by case_match. Qed.

Lemma life_transition id l now r s a d im :
  life (transition id l now r s a d im) = alter (fun _ => l) id (life im).
Proof. unfold transition. by rewrite life_record_step, life_set_lifecycle. Qed.

Lemma life_flows im im' : im_flows im' = im_flows im -> life im' = life im.
Proof. apply view_flows. Qed.
