(* ===== verification/Capacity.v ===== *)
(** * Capacity is never over-committed

    A round charges its grants to local tables ([pending_capacity]) and the
    resource tables are only written when the schedule is applied.  This file
    shows that the two together never exceed a resource's capacity: the
    entries of a round fit in what the interval has left, so
    [reserved_this_interval <= capacity] is an invariant. *)

From S2P Require Import Prelude Checked Bytes Hash Model Schedule Codec Journal State.
From S2P Require Import Transitions Arbitrate Operations Ranking Invariants.

(** ** Resources *)

Record resource_ok (id : ResourceId) (r : ResourceRuntime) : Prop := {
  ro_key : rd_resource (rr_descriptor r) = id;
  ro_capacity : rd_capacity (rr_descriptor r) <= kMaxServiceUnits;
  ro_reserved : rr_reserved_this_interval r <= rd_capacity (rr_descriptor r) }.

Definition resources_wf (im : Impl) : Prop :=
  forall id r, im_resources im !! id = Some r -> resource_ok id r.

Lemma resources_wf_ext im im' :
  im_resources im' = im_resources im -> resources_wf im -> resources_wf im'.
Proof. unfold resources_wf. by intros ->. Qed.

(** What a round may not change about a resource: its descriptor and what is
    left of the interval. *)
Definition same_capacity (now : Ticks) (r r' : ResourceRuntime) : Prop :=
  rr_descriptor r' = rr_descriptor r /\
  capacity_remaining r' now = capacity_remaining r now /\
  (rr_reserved_this_interval r <= rd_capacity (rr_descriptor r) ->
   rr_reserved_this_interval r' <= rd_capacity (rr_descriptor r')).

Lemma same_capacity_refl now r : same_capacity now r r.
Proof. done. Qed.

Lemma current_roll now r : current_interval (roll_interval now r) now = true.
Proof.
  unfold roll_interval. destruct (current_interval r now) eqn:E; simpl; [done|].
  unfold current_interval. upd_simpl. simpl. apply N.eqb_refl.
Qed.

Lemma same_capacity_roll now r : same_capacity now r (roll_interval now r).
Proof.
  pose proof (current_roll now r) as Hc. unfold roll_interval in *.
  destruct (current_interval r now) eqn:E; cbn [negb] in *; [apply same_capacity_refl|].
  unfold same_capacity. upd_simpl. split_and!; [done| |lia].
  unfold capacity_remaining. rewrite Hc, E. cbn [negb]. upd_simpl.
  destruct (N.leb_spec (rd_capacity (rr_descriptor r)) 0); lia.
Qed.

Lemma same_capacity_in_flight now r f : same_capacity now r (r <| rr_in_flight ::= f |>).
Proof. done. Qed.

(** States whose resource tables agree up to [same_capacity]. *)
Definition capacity_frame (now : Ticks) (im im' : Impl) : Prop :=
  forall id,
    match im_resources im !! id, im_resources im' !! id with
    | Some r, Some r' => same_capacity now r r'
    | None, None => True
    | _, _ => False
    end.

Lemma capacity_frame_eq now im im' :
  im_resources im' = im_resources im -> capacity_frame now im im'.
Proof. intros H id. rewrite H. by destruct (im_resources im !! id). Qed.

#[export] Instance capacity_frame_preorder now : PreOrder (capacity_frame now).
Proof.
  split.
  - intros im. by apply capacity_frame_eq.
  - intros a b c H1 H2 id. specialize (H1 id). specialize (H2 id).
    destruct (im_resources a !! id), (im_resources b !! id), (im_resources c !! id); try done.
    destruct H1 as (D1 & C1 & R1), H2 as (D2 & C2 & R2). split_and!; [congruence..|].
    intros H. by apply R2, R1.
Qed.

Lemma capacity_frame_wf now im im' :
  capacity_frame now im im' -> resources_wf im -> resources_wf im'.
Proof.
  intros Hf Hw id r' Hr'. specialize (Hf id). rewrite Hr' in Hf.
  destruct (im_resources im !! id) as [r|] eqn:Hr; [|done].
  destruct (Hw _ _ Hr) as [K C R], Hf as (D & _ & S). split; rewrite ?D; auto.
  specialize (S R). by rewrite D in S.
Qed.

Lemma capacity_frame_upd now id f im :
  (forall r, same_capacity now r (f r)) -> capacity_frame now im (upd_resource id f im).
Proof.
  intros Hf i. unfold upd_resource. upd_simpl. destruct (decide (id = i)) as [->|Hne].
  - rewrite lookup_alter_eq. destruct (im_resources im !! i); simpl; auto.
  - rewrite lookup_alter_ne by done. by destruct (im_resources im !! i).
Qed.

Lemma capacity_frame_release_slot now id im : capacity_frame now im (release_slot id im).
Proof. apply capacity_frame_upd. intros r. apply same_capacity_in_flight. Qed.

(** ** Transitions that leave the resources alone *)

Lemma update_index_resources f a b im : im_resources (update_index f a b im) = im_resources im.
Proof. unfold update_index, index_insert, index_erase. by destruct (slot a), (slot b). Qed.

Lemma set_lifecycle_resources id l now im :
  im_resources (set_lifecycle id l now im) = im_resources im.
Proof.
  unfold set_lifecycle. repeat case_match; [done| |done]. by rewrite update_index_resources.
Qed.

Lemma transition_resources id l now r s a d im :
  im_resources (transition id l now r s a d im) = im_resources im.
Proof. apply set_lifecycle_resources. Qed.

Lemma normalize_resources now im :
  im_resources (normalize_transient_states now im) = im_resources im.
Proof.
  unfold normalize_transient_states.
  apply (foldl_inv (fun i => im_resources i = im_resources im)); [done|]. intros i id _ Hi.
  unfold normalize_flow. repeat case_match; try done; by rewrite set_lifecycle_resources.
Qed.

Lemma close_flow_resources f a s st d now im :
  im_resources (close_flow f a s st d now im) = im_resources im.
Proof. unfold close_flow. destruct st; rewrite ?transition_resources; done. Qed.

Lemma capacity_frame_closed t a st d now im :
  capacity_frame t im (apply_attempt_closed a st d now im).
Proof.
  unfold apply_attempt_closed. repeat case_match; try (by apply capacity_frame_eq).
  trans (upd_flow (tk_flow (at_ticket a0)) (fun rt =>
    rt <| fr_outstanding_reserved ::= fun x => monus x (tk_quantum (at_ticket a0)) |>
       <| fr_open_attempt := 0 |>)
    (upd_schedule (tk_schedule (at_ticket a0)) (fun s => s <| sr_open_attempts ::= decr |>)
    (upd_attempt a (fun r => r <| at_state := st |> <| at_closed_tick := now |>
      <| at_close_detail := bounded_detail d |>) im))); [by apply capacity_frame_eq|].
  etrans; [apply (capacity_frame_release_slot t (tk_resource (at_ticket a0)))|].
  apply capacity_frame_eq. apply close_flow_resources.
Qed.

Lemma capacity_frame_run_entry t s i now im :
  capacity_frame t im (release_run_entry s i now im).
Proof.
  unfold release_run_entry. repeat case_match; try (by apply capacity_frame_eq).
  etrans; [|by apply capacity_frame_eq, transition_resources].
  etrans; [|apply capacity_frame_release_slot]. by apply capacity_frame_eq.
Qed.

Lemma capacity_frame_release_schedule t s now im :
  capacity_frame t im (apply_release_schedule s now im).
Proof.
  unfold apply_release_schedule. case_match; [|done]. apply (foldl_rel (capacity_frame t)).
  intros. apply capacity_frame_run_entry.
Qed.

Lemma journal_resources t ops im : im_resources (exec (journal t ops) im) = im_resources im.
Proof.
  unfold exec, journal. destruct (im_store im) as [ds|]; [|done].
  by destruct (append t (payload ops) ds).
Qed.

Lemma handle_miss_resources id now im o :
  im_resources (handle_deadline_miss id now im o).1 = im_resources im.
Proof.
  unfold handle_deadline_miss. repeat case_match; try done; cbn [fst].
  by rewrite transition_resources.
Qed.

Lemma not_ready_resources id rt reason now im o :
  im_resources (not_ready id rt reason now im o).1 = im_resources im.
Proof.
  unfold not_ready, fail_dependent. destruct reason; try done; cbn [fst].
  - apply handle_miss_resources.
  - apply transition_resources.
Qed.

(** ** The steps of a round before the schedule is applied *)

Section Frame.
Context (now : Ticks) (im0 : Impl).
Let P : Impl -> Prop := capacity_frame now im0.

Lemma frame_step im im' : capacity_frame now im im' -> P im -> P im'.
Proof. intros H1 H2. exact (transitivity H2 H1). Qed.

Lemma frame_same im im' : im_resources im' = im_resources im -> P im -> P im'.
Proof. intros H. by apply frame_step, capacity_frame_eq. Qed.

Lemma frame_journal t ops : preserves P (journal t ops).
Proof. intros im. apply frame_same, journal_resources. Qed.

Lemma frame_close_attempt a st d t : preserves P (close_attempt a st d t).
Proof.
  unfold close_attempt. repeat preserve_step; [apply frame_journal|].
  eapply frame_step; [apply capacity_frame_closed | done].
Qed.

Lemma frame_reclaim im o : P im -> P (reclaim_expired_deliveries now im o).1.
Proof.
  unfold reclaim_expired_deliveries. generalize (im_schedule_order im) as order.
  intros order. revert im o. induction order as [|id order IH]; intros im o H; [done|].
  cbn [reclaim_loop]. repeat case_match; try done; try (by apply IH); cbn [fst];
    match goal with E : journal _ _ _ = (?i, _) |- _ =>
      assert (P i) by (pose proof (frame_journal JScheduleReleased
        [WU64 id; WU64 now] im H) as Hj; unfold exec in Hj; by rewrite E in Hj) end.
  - apply IH. eapply frame_step; [apply capacity_frame_release_schedule | done].
  - done.
Qed.

Lemma frame_refresh im o : P im -> P (refresh_lifecycles now im o).1.
Proof.
  intros H. unfold refresh_lifecycles.
  destruct (foldl (refresh_waiting now) (im, o) _) as [im1 o1] eqn:E1.
  assert (P im1) as H1.
  { change (P (im1, o1).1). rewrite <- E1.
    apply (foldl_inv (fun st => P st.1)); [done|]. intros [im2 o2] id _ H2.
    unfold refresh_waiting. repeat case_match; try done; cbn [fst].
    - eapply frame_same; [apply transition_resources | done].
    - eapply frame_same; [apply not_ready_resources | done]. }
  apply (foldl_inv (fun st => P st.1)); [done|]. intros [im2 o2] id _ H2.
  unfold refresh_inflight. repeat case_match; try done.
Qed.

Lemma frame_rank im : P im -> P (rank_candidates now im).1.
Proof.
  intros H. unfold rank_candidates. destruct (foldl _ _ _) as [im1 cs] eqn:E.
  change (P (im1, cs).1). rewrite <- E.
  apply (foldl_inv (fun st => P st.1)); [done|]. intros [im2 cs2] id _ H2.
  unfold consider. repeat case_match; try done.
Qed.
End Frame.

(** ** The placement loop *)

(** The units the Run entries of a round take from a resource. *)
Definition charge (id : ResourceId) (e : ScheduleEntry) : N :=
  if is_run e && (se_resource e =? id) then se_quantum e else 0.

Fixpoint charged (id : ResourceId) (entries : list ScheduleEntry) : N :=
  match entries with
  | [] => 0
  | e :: rest => charge id e + charged id rest
  end.

Lemma charged_app id a b : charged id (a ++ b) = charged id a + charged id b.
Proof. induction a as [|e a IH]; simpl; [done|]. rewrite IH. lia. Qed.

Record round_ok (now : Ticks) (im : Impl) (rd : Round) : Prop := {
  rk_resources : resources_wf im;
  rk_fits : forall id r, im_resources im !! id = Some r ->
    charged id (rn_entries rd) <= capacity_remaining r now;
  rk_pending : forall id, pending (rn_pending_capacity rd) id = charged id (rn_entries rd);
  rk_start : Forall (fun e => is_run e = true -> se_start_tick e = now) (rn_entries rd) }.

Lemma capacity_remaining_le r now : capacity_remaining r now <= rd_capacity (rr_descriptor r).
Proof. unfold capacity_remaining. repeat case_match; lia. Qed.

Section Placement.
Context (now : Ticks).
Let R (st : Impl * Round) : Prop := round_ok now st.1 st.2.

Lemma round_frame im im' rd rd' :
  capacity_frame now im im' -> rn_entries rd' = rn_entries rd ->
  rn_pending_capacity rd' = rn_pending_capacity rd -> R (im, rd) -> R (im', rd').
Proof.
  intros Hf He Hp [Hw Hfit Hpend Hst]. split; cbn [fst snd] in *; rewrite ?He, ?Hp; try done.
  - by eapply capacity_frame_wf.
  - intros id r' Hr'. specialize (Hf id). rewrite Hr' in Hf.
    destruct (im_resources im !! id) as [r|] eqn:Hr; [|done].
    destruct Hf as (_ & -> & _). by apply Hfit.
Qed.

Lemma round_modify_round f :
  (forall rd, rn_entries (f rd) = rn_entries rd /\
              rn_pending_capacity (f rd) = rn_pending_capacity rd) ->
  preserves R (modify_round f).
Proof.
  intros Hf [im rd] H. destruct (Hf rd). unfold exec. cbn. by apply (round_frame im im rd).
Qed.

Lemma round_modify_impl f :
  (forall im, capacity_frame now im (f im)) -> preserves R (modify_impl f).
Proof. intros Hf [im rd] H. unfold exec. cbn. by apply (round_frame im _ rd). Qed.

Lemma round_on_impl {A} (m : Op A) :
  (forall im, capacity_frame now im (exec m im)) -> preserves R (on_impl m).
Proof.
  intros Hf [im rd] H. specialize (Hf im). unfold exec, on_impl in *.
  destruct (m im) as [im' r]. by apply (round_frame im _ rd).
Qed.

(** A Preempt entry charges nothing. *)
Lemma round_push_preempt e :
  is_run e = false ->
  preserves R (modify_round (fun rd => rd <| rn_entries ::= fun l => l ++ [e] |>
                                          <| rn_next_ordinal ::= incr32 |>)).
Proof.
  intros He [im rd] [Hw Hfit Hpend Hst]. unfold exec. cbn [modify_round modify fst].
  assert (forall id, charged id (rn_entries rd ++ [e]) = charged id (rn_entries rd)) as Hc.
  { intros id. rewrite charged_app. simpl. unfold charge. rewrite He. simpl. lia. }
  split; cbn [fst snd] in *; upd_simpl; try done.
  - intros id r Hr. rewrite Hc. by apply Hfit.
  - intros id. by rewrite Hc.
  - apply Forall_app. split; [done|]. constructor; [|done]. by rewrite He.
Qed.

Lemma round_displace c rt : preserves R (displace c rt now).
Proof.
  unfold displace, deferring. apply preserves_bind; [apply preserves_get|]. intros [im rd].
  repeat preserve_step; try (by apply round_modify_round).
  - by apply round_push_preempt.
  - apply round_on_impl. intros im'. apply (frame_close_attempt now im'). done.
  - apply round_modify_impl. intros im'. by apply capacity_frame_eq.
  - apply round_modify_impl. intros im'. apply capacity_frame_upd. apply same_capacity_roll.
Qed.

Lemma service_window_capacity im rd rt r :
  wd_quantum (service_window im rd rt r now) <=
  monus (capacity_remaining r now)
    (pending (rn_pending_capacity rd) (bd_id (fd_resource (fr_descriptor rt)))).
Proof.
  unfold service_window. cbn [wd_quantum].
  set (cap := monus (capacity_remaining r now) _). repeat case_match; lia.
Qed.

Lemma grant_entries e rd : rn_entries (grant e rd) = rn_entries rd ++ [e].
Proof. unfold grant. by destruct (id_valid _). Qed.

Lemma grant_pending_capacity e rd :
  rn_pending_capacity (grant e rd) =
  <[ se_resource e := saturating_add (pending (rn_pending_capacity rd) (se_resource e))
       (se_quantum e) ]> (rn_pending_capacity rd).
Proof. unfold grant. by destruct (id_valid _). Qed.

Lemma round_grant im rd e r :
  R (im, rd) -> is_run e = true -> se_start_tick e = now ->
  im_resources im !! se_resource e = Some r ->
  se_quantum e <= monus (capacity_remaining r now) (pending (rn_pending_capacity rd) (se_resource e)) ->
  R (im, grant e rd).
Proof.
  intros [Hw Hfit Hpend Hst] He Hs Hr Hq. cbn [fst snd] in *.
  pose proof (Hfit _ _ Hr) as Hf. rewrite Hpend in Hq.
  assert (charged (se_resource e) (rn_entries rd) + se_quantum e <= capacity_remaining r now)
    as Hsum by (unfold monus in Hq; destruct (N.leb_spec (charged (se_resource e) (rn_entries rd))
      (capacity_remaining r now)); lia).
  assert (forall id, charged id (rn_entries rd ++ [e]) =
    charged id (rn_entries rd) + if se_resource e =? id then se_quantum e else 0) as Hc.
  { intros id. rewrite charged_app. simpl. unfold charge. rewrite He. simpl. lia. }
  split; cbn [fst snd]; rewrite ?grant_entries, ?grant_pending_capacity; [done| | |].
  - intros id r' Hr'. rewrite Hc. destruct (N.eqb_spec (se_resource e) id) as [<-|].
    + by replace r' with r by congruence.
    + rewrite N.add_0_r. by apply Hfit.
  - intros id. rewrite Hc. unfold pending in *. destruct (N.eqb_spec (se_resource e) id) as [<-|Hne].
    + rewrite lookup_insert_eq. simpl. rewrite Hpend. apply saturating_add_exact.
      pose proof (capacity_remaining_le r now). pose proof (ro_capacity _ _ (Hw _ _ Hr)).
      unfold kMaxServiceUnits, u64_max in *. lia.
    + rewrite lookup_insert_ne by done. by rewrite Hpend, N.add_0_r.
  - apply Forall_app. split; [done|]. by constructor.
Qed.

Lemma round_place_window c : preserves R (place_window c now).
Proof.
  unfold place_window. apply preserves_bind_get. intros [im rd] H.
  destruct (im_flows im !! cd_flow c) as [rt|]; [|done].
  destruct (im_resources im !! _) as [r|] eqn:Hr; [|done]. cbv zeta.
  destruct (wd_quantum _ =? 0); [by apply round_modify_round|].
  unfold exec. cbn [modify_round modify fst]. apply (round_grant im rd _ r); try done.
  apply service_window_capacity.
Qed.

Lemma round_place_candidate limit c : preserves R (place_candidate now limit c).
Proof.
  unfold place_candidate, deferring. apply preserves_bind; [apply preserves_get|].
  intros [im rd]. cbv beta iota.
  destruct (im_flows im !! cd_flow c) as [rt|]; [|apply preserves_ret].
  destruct (negb _); [apply preserves_ret|]. destruct (bool_decide _); [apply preserves_ret|].
  destruct (derived_readiness im rt now) as [still current].
  destruct (negb still).
  { intros [im' rd'] H. unfold exec, modify. cbn [fst].
    pose proof (not_ready_resources (cd_flow c) rt current now im' (rn_outcome rd')) as Hn.
    destruct (not_ready _ _ _ _ _ _) as [im2 o2]. apply (round_frame im' im2 rd'); try done.
    by apply capacity_frame_eq. }
  destruct (_ <=? _); [by apply round_modify_round|]. cbv zeta.
  destruct (im_resources im !! _) as [r|]; [|by apply round_modify_round].
  destruct (negb _); [by apply round_modify_round|].
  apply preserves_bind.
  { apply round_modify_impl. intros im'. apply capacity_frame_upd, same_capacity_roll. }
  intros _. apply preserves_bind.
  - destruct (_ <=? _); [apply round_displace | apply preserves_ret].
  - intros []; [apply round_place_window | apply preserves_ret].
Qed.

Lemma round_place_all limit cs : preserves R (place_all now limit cs).
Proof.
  induction cs as [|c cs IH]; cbn [place_all]; [apply preserves_ret|].
  apply preserves_bind; [apply round_place_candidate | done].
Qed.
End Placement.

(** ** Applying the schedule *)

Definition charge_resource (e : ScheduleEntry) (r : ResourceRuntime) : ResourceRuntime :=
  if rd_generation (rr_descriptor r) =? se_resource_generation e
  then (roll_interval (se_start_tick e) r)
         <| rr_reserved_this_interval ::= fun x => saturating_add x (se_quantum e) |>
         <| rr_in_flight ::= incr64 |>
  else r.

Lemma apply_run_entry_resources s e im :
  im_resources (apply_run_entry s e im) =
  alter (charge_resource e) (se_resource e) (im_resources im).
Proof.
  unfold apply_run_entry. cbv zeta.
  assert (forall i, im_resources (if po_weighted_fairness (im_policy i) then
    match im_flows i !! se_flow e with
    | None => i
    | Some rt =>
        i <| im_virtual_time ::= <[ fd_fairness_group (fr_descriptor rt) :=
               if default 0 (im_virtual_time i !! fd_fairness_group (fr_descriptor rt))
                  <? fr_virtual_finish rt then fr_virtual_finish rt
               else default 0 (im_virtual_time i !! fd_fairness_group (fr_descriptor rt)) ]> |>
    end else i) = im_resources i) as H by (intros i; by repeat case_match).
  rewrite H. destruct (id_valid (se_reservation e)); upd_simpl;
    unfold upd_resource, upd_schedule; upd_simpl; by rewrite transition_resources.
Qed.

Lemma capacity_remaining_current r now :
  current_interval r now = true -> rr_reserved_this_interval r <= rd_capacity (rr_descriptor r) ->
  capacity_remaining r now = rd_capacity (rr_descriptor r) - rr_reserved_this_interval r.
Proof.
  intros Hc Hr. unfold capacity_remaining. rewrite Hc. cbn [negb].
  destruct (N.leb_spec (rd_capacity (rr_descriptor r)) (rr_reserved_this_interval r)); lia.
Qed.

Lemma charge_resource_ok now id e r :
  resource_ok id r -> se_start_tick e = now -> se_quantum e <= capacity_remaining r now ->
  resource_ok id (charge_resource e r) /\
  capacity_remaining r now - se_quantum e <= capacity_remaining (charge_resource e r) now.
Proof.
  intros [K C Rr] Hs Hq. unfold charge_resource. destruct (_ =? _); [|split; [done|lia]].
  destruct (same_capacity_roll now r) as (D & Hcap & HR). specialize (HR Rr).
  rewrite Hs. set (r1 := roll_interval now r) in *.
  assert (current_interval r1 now = true) as Hcur by apply current_roll.
  rewrite <- Hcap in *. rewrite (capacity_remaining_current r1) in * by done.
  rewrite D in HR, Hq.
  assert (saturating_add (rr_reserved_this_interval r1) (se_quantum e)
          = rr_reserved_this_interval r1 + se_quantum e) as Hsat.
  { apply saturating_add_exact. unfold kMaxServiceUnits, u64_max in *. lia. }
  split.
  - split; upd_simpl; rewrite ?D, ?Hsat; [done|done|lia].
  - rewrite capacity_remaining_current; upd_simpl; rewrite ?Hsat, ?D; [lia| |lia].
    exact Hcur.
Qed.

Lemma apply_entries_wf now s l im :
  Forall (fun e => is_run e = true -> se_start_tick e = now) l ->
  resources_wf im ->
  (forall id r, im_resources im !! id = Some r -> charged id l <= capacity_remaining r now) ->
  resources_wf (foldl (fun im e => if schedule_entry_applies e im then apply_run_entry s e im
                                   else im) im l).
Proof.
  revert im. induction l as [|e l IH]; intros im Hst Hw Hfit; [done|]. cbn [foldl].
  inversion Hst as [|? ? He Hl]; subst. apply IH; [done| |];
    destruct (schedule_entry_applies e im) eqn:Happ; try done.
  - intros id r'. rewrite apply_run_entry_resources, lookup_alter_Some.
    intros [(<- & r & Hr & ->)|[_ Hr]]; [|by apply Hw].
    apply andb_true_iff in Happ as [Hrun _].
    apply (charge_resource_ok now); [by apply Hw | by apply He|].
    pose proof (Hfit _ _ Hr) as Hf. cbn [charged] in Hf. unfold charge in Hf.
    rewrite Hrun, N.eqb_refl in Hf. simpl in Hf. lia.
  - intros id r'. rewrite apply_run_entry_resources, lookup_alter_Some.
    apply andb_true_iff in Happ as [Hrun _].
    intros [(<- & r & Hr & ->)|[Hne Hr]].
    + pose proof (Hfit _ _ Hr) as Hf. cbn [charged] in Hf. unfold charge in Hf.
      rewrite Hrun, N.eqb_refl in Hf. simpl in Hf.
      destruct (charge_resource_ok now (se_resource e) e r) as [_ Hc];
        [by apply Hw | by apply He | lia|]. lia.
    + pose proof (Hfit _ _ Hr) as Hf. cbn [charged] in Hf. lia.
  - intros id r Hr. pose proof (Hfit _ _ Hr) as Hf. cbn [charged] in Hf. lia.
Qed.

Lemma issue_schedule_wf now entries o im :
  Forall (fun e => is_run e = true -> se_start_tick e = now) entries ->
  resources_wf im ->
  (forall id r, im_resources im !! id = Some r -> charged id entries <= capacity_remaining r now) ->
  resources_wf (exec (issue_schedule entries now o) im).
Proof.
  intros Hst Hw Hfit. unfold exec, issue_schedule. destruct entries as [|e l]; [done|].
  set (im1 := im <| im_provenance_sequence ::= incr64 |>).
  unfold bind, modify, get, lift. fold im1.
  pose proof (journal_resources JScheduleIssued (write_schedule (build_schedule im1 (e :: l) now)) im1)
    as Hj. unfold exec in Hj. destruct (journal _ _ _) as [im2 [[]|err]]; cbn [fst] in Hj.
  2:{ cbn [fst]. eapply resources_wf_ext; [|exact Hw]. by rewrite Hj. }
  assert (resources_wf (apply_schedule (build_schedule im1 (e :: l) now) im2)) as Happ.
  { unfold apply_schedule. cbv zeta. apply (apply_entries_wf now); [done| |]; upd_simpl.
    - eapply resources_wf_ext; [|exact Hw]. upd_simpl. by rewrite Hj.
    - intros id r. rewrite Hj. apply Hfit. }
  repeat case_match; simplify_eq; cbn [fst]; try done;
    (eapply resources_wf_ext; [|exact Happ]; done).
Qed.

Lemma retire_resources order im : im_resources (retire_loop order im) = im_resources im.
Proof.
  revert im. induction order as [|id order IH]; intros im; [done|]. cbn [retire_loop].
  repeat case_match; try done; by rewrite IH.
Qed.

Lemma roll_window_resources now im :
  im_resources (roll_preemption_window now im) = im_resources im.
Proof. unfold roll_preemption_window. by case_match. Qed.


Lemma frame_count_overdue now im0 l : preserves (capacity_frame now im0) (close_overdue now l).
Proof.
  apply (preserves_close_overdue (capacity_frame now im0) now).
  - intros. apply frame_close_attempt.
  - intros im. by apply frame_same.
Qed.

Lemma resources_wf_of_frame {A} now (m : Op A) :
  (forall im0, preserves (capacity_frame now im0) m) -> preserves resources_wf m.
Proof. intros H im Hw. eapply capacity_frame_wf; [apply (H im)|]; done. Qed.

Lemma round_ok_start now im o : resources_wf im -> round_ok now im (empty_round o).
Proof. intros H. split; try done. intros. simpl. lia. Qed.

(** The tail of a round: placement against the state, then the schedule. *)
Lemma place_and_issue_wf now limit cs o :
  preserves resources_wf
    (let* rd := (fun im0 =>
       let '((im1, rd), r) := place_all now limit cs (im0, empty_round o) in
       (im1, match r with Ok _ => Ok rd | Err e => Err e end)) in
     let* outcome := issue_schedule (rn_entries rd) now (rn_outcome rd) in
     modify (normalize_transient_states now) ;;;
     modify maybe_retire_schedules ;;;
     ret outcome).
Proof.
  intros im Hw. unfold exec, bind at 1.
  pose proof (round_place_all now limit cs (im, empty_round o) (round_ok_start now im o Hw)) as Hr.
  unfold exec in Hr. destruct (place_all _ _ _ _) as [[im1 rd] [[]|e]]; cbn [fst snd] in *.
  2: exact (rk_resources _ _ _ Hr).
  assert (forall B (k : _ -> Op B), (forall a, preserves resources_wf (k a)) ->
    resources_wf (exec (bind (issue_schedule (rn_entries rd) now (rn_outcome rd)) k) im1)) as Hb.
  { intros B k Hk.
    pose proof (issue_schedule_wf now (rn_entries rd) (rn_outcome rd) im1
      (rk_start _ _ _ Hr) (rk_resources _ _ _ Hr) (rk_fits _ _ _ Hr)) as Hi.
    unfold exec, bind in *. destruct (issue_schedule _ _ _ _) as [im2 [a|e]]; [|done].
    by apply Hk. }
  apply Hb. intros a. repeat preserve_step; try done.
  - by eapply resources_wf_ext, H; apply normalize_resources.
  - by eapply resources_wf_ext, H; apply retire_resources.
Qed.

Lemma resources_wf_arbitrate now : preserves resources_wf (arbitrate now).
Proof.
  unfold arbitrate. apply preserves_bind; [apply preserves_get|]. intros im0.
  do 2 (preserve_step; [repeat preserve_step; auto|]).
  preserve_step.
  { apply (resources_wf_of_frame now). intros im1 im H. unfold exec.
    pose proof (frame_reclaim now im1 im empty_outcome H) as Hr.
    destruct (reclaim_expired_deliveries now im empty_outcome) as [im2 o2]. cbn [fst] in *.
    pose proof (frame_refresh now im1 im2 o2 Hr) as Hf.
    by destruct (refresh_lifecycles now im2 o2). }
  preserve_step; [apply preserves_get|].
  preserve_step; [apply (resources_wf_of_frame now); intros; apply frame_count_overdue|].
  preserve_step.
  { apply (resources_wf_of_frame now). intros im1 im H. unfold exec.
    pose proof (frame_rank now im1 im H) as Hr. by destruct (rank_candidates now im). }
  preserve_step.
  { intros im H. eapply resources_wf_ext, H. apply roll_window_resources. }
  preserve_step; [apply preserves_get|]. apply place_and_issue_wf.
Qed.

(** ** The other operations *)

Create HintDb frame.
#[export] Hint Resolve capacity_frame_closed capacity_frame_run_entry
  capacity_frame_release_schedule : frame.

(** Proves a frame between a state and what a transition makes of it. *)
Ltac frame_step :=
  lazymatch goal with
  | |- capacity_frame _ ?a ?a => reflexivity
  | |- capacity_frame _ _ (transition _ _ _ _ _ _ _ _) =>
      etrans; [|by apply capacity_frame_eq, transition_resources]
  | |- capacity_frame _ _ (set_lifecycle _ _ _ _) =>
      etrans; [|by apply capacity_frame_eq, set_lifecycle_resources]
  | |- capacity_frame _ _ (record_step _ _ ?i) => trans i; [|by apply capacity_frame_eq]
  | |- capacity_frame _ _ (upd_flow _ _ ?i) => trans i; [|by apply capacity_frame_eq]
  | |- capacity_frame _ _ (upd_schedule _ _ ?i) => trans i; [|by apply capacity_frame_eq]
  | |- capacity_frame _ _ (upd_attempt _ _ ?i) => trans i; [|by apply capacity_frame_eq]
  | |- capacity_frame _ _ (release_slot _ _) => etrans; [|apply capacity_frame_release_slot]
  | |- capacity_frame _ _ (if ?c then _ else _) => destruct c
  | |- capacity_frame _ _ (match ?x with _ => _ end) => destruct x eqn:?
  | |- capacity_frame _ _ (@upd _ _ ?p ?u ?f ?im0) =>
      let H := fresh in
      assert (forall i, im_resources (@upd _ _ p u f i) = im_resources i) as H by done;
      trans im0; [|apply capacity_frame_eq, H]; clear H
  end.
Ltac frame_solve := cbv zeta; repeat frame_step; auto with frame.

Lemma capacity_frame_held t rt now im : capacity_frame t im (release_held_window rt now im).
Proof. unfold release_held_window. frame_solve. Qed.
#[export] Hint Resolve capacity_frame_held : frame.

Lemma capacity_frame_cancel t f g now im : capacity_frame t im (apply_cancel f g now im).
Proof.
  unfold apply_cancel. cbv zeta. destruct (im_flows im !! f) as [rt|]; [|done].
  destruct (negb _); [done|]. do 3 frame_step.
  match goal with |- context [apply_attempt_closed ?a ?s ?d ?n ?i] =>
    trans (if id_valid (fr_open_attempt rt) then apply_attempt_closed a s d n i else i) end;
    frame_solve.
Qed.

Lemma capacity_frame_opened t tk n now im : capacity_frame t im (apply_attempt_opened tk n now im).
Proof. unfold apply_attempt_opened. frame_solve. Qed.
Lemma capacity_frame_started t a now im : capacity_frame t im (apply_attempt_started a now im).
Proof. unfold apply_attempt_started. frame_solve. Qed.
Lemma capacity_frame_completion t e c l now im :
  capacity_frame t im (apply_completion e c l now im).
Proof. unfold apply_completion. frame_solve. Qed.
Lemma capacity_frame_rearm t f c now im : capacity_frame t im (rearm f c now im).
Proof. unfold rearm. frame_solve. Qed.
Lemma capacity_frame_normalize t now im :
  capacity_frame t im (normalize_transient_states now im).
Proof. apply capacity_frame_eq, normalize_resources. Qed.
Lemma capacity_frame_resolved t f g r now im :
  capacity_frame t im (apply_ambiguity_resolved f g r now im).
Proof. unfold apply_ambiguity_resolved. frame_solve. Qed.
Lemma capacity_frame_readiness t f g s now im :
  capacity_frame t im (apply_readiness f g s now im).
Proof. unfold apply_readiness. frame_solve. Qed.
Lemma capacity_frame_retire_flow t f g im : capacity_frame t im (apply_retire_flow f g im).
Proof. unfold apply_retire_flow. frame_solve. Qed.
Lemma capacity_frame_retire_reservation t r g im :
  capacity_frame t im (apply_retire_reservation r g im).
Proof. unfold apply_retire_reservation. frame_solve. Qed.
#[export] Hint Resolve capacity_frame_cancel capacity_frame_opened capacity_frame_started
  capacity_frame_completion capacity_frame_rearm capacity_frame_normalize
  capacity_frame_resolved capacity_frame_readiness capacity_frame_retire_flow
  capacity_frame_retire_reservation : frame.

Lemma reindex_resources im : im_resources (reindex_all im) = im_resources im.
Proof.
  unfold reindex_all. cbv zeta.
  apply (foldl_inv (fun i => im_resources i = im_resources im)); [done|].
  intros i [id rt] _ Hi. rewrite <- Hi. by destruct (slot _).
Qed.

Lemma capacity_frame_epoch t next now im :
  capacity_frame t im (apply_epoch_advance next now im).
Proof.
  unfold apply_epoch_advance. cbv zeta. do 7 frame_step.
  etrans; [|by apply capacity_frame_eq, reindex_resources]. frame_step.
  trans (abandon_open_attempts now "epoch advanced: prior dispatch authority retired" im).
  - unfold abandon_open_attempts. cbv zeta. etrans; [|apply capacity_frame_normalize].
    etrans; [|apply (foldl_rel (capacity_frame t)); intros; apply capacity_frame_release_schedule].
    apply (foldl_rel (capacity_frame t)). intros im' a _. frame_solve.
  - set (im1 := abandon_open_attempts _ _ _). intros id. upd_simpl. rewrite lookup_fmap.
    destruct (im_resources im1 !! id); done.
Qed.
#[export] Hint Resolve capacity_frame_epoch : frame.

(** A registration is refused unless it moves the generation, and a moved
    generation starts a fresh interval. *)
Lemma resources_wf_register d im : resources_wf im -> resources_wf (exec (register_resource d) im).
Proof.
  intros Hw. apply wp_exec. unfold register_resource. do 2 wp_step.
  destruct (validate_resource d) as [[]|] eqn:Hv; [|done]. do 4 wp_step.
  destruct (check_generation _ _ _ _) as [[]|] eqn:Hg; [|done]. wp_step.
  apply wp_journal; [|intros; by apply (resources_wf_ext im)]. intros st. wp_step.
  assert (rd_resource d <> 0 /\ rd_capacity d <= kMaxServiceUnits) as [Hid Hcap].
  { unfold validate_resource, guard_err in Hv.
    destruct (negb (id_valid (rd_resource d))) eqn:E1; [done|].
    destruct (negb (id_valid (rd_generation d))); [done|].
    destruct (_ || _) eqn:E2 in Hv; [done|].
    apply negb_false_iff, id_valid_true in E1. by apply orb_false_iff in E2 as [_ E2%N.ltb_ge]. }
  intros id r. unfold apply_resource. upd_simpl. rewrite lookup_insert_Some.
  intros [[<- <-]|[_ Hr]]; [|by apply Hw].
  destruct (im_resources im !! rd_resource d) as [r|] eqn:Hr; [|by split; simpl; lia].
  destruct (Hw _ _ Hr) as [Hk _ _]. cbn in Hg.
  destruct (advance (rd_generation (rr_descriptor r))) as [g|] eqn:Ha; [|discriminate].
  cbn in Hg. unfold guard_err in Hg.
  destruct (N.eqb_spec (rd_generation d) g) as [->|]; [|discriminate].
  rewrite Hk. apply advance_Ok in Ha as [-> _].
  rewrite (proj2 (id_valid_true _) Hid). destruct (N.eqb_spec (rd_generation (rr_descriptor r))
    (rd_generation (rr_descriptor r) + 1)); [lia|]. cbn [negb andb].
  split; upd_simpl; [done|done|lia].
Qed.
