(* ===== verification/Bounds.v ===== *)
(** * Bounded tables

    The flow table stays within the bound of the policy in force and the
    explanation history of a flow within [kMaxExplanationSteps], through every
    transition. *)

From S2P Require Import Prelude Checked Bytes Hash Model Schedule Codec Journal State.
From S2P Require Import Transitions Arbitrate Operations Invariants.

Definition history_ok (rt : FlowRuntime) : Prop :=
  N.of_nat (length (fr_history rt)) <= kMaxExplanationSteps.

(** The flow table never outgrows the policy, and no flow keeps more than
    [kMaxExplanationSteps] steps of history. *)
Record bounded (im : Impl) : Prop := {
  bo_flows : map_size (im_flows im) <= po_max_flows (im_policy im);
  bo_history : map_Forall (fun _ rt => history_ok rt) (im_flows im) }.

Lemma bounded_core im im' :
  im_flows im' = im_flows im -> im_policy im' = im_policy im -> bounded im -> bounded im'.
Proof. intros Hf Hp [H1 H2]. split; by rewrite Hf, ?Hp. Qed.

Lemma bounded_upd_flow id f im :
  (forall rt, history_ok rt -> history_ok (f rt)) -> bounded im -> bounded (upd_flow id f im).
Proof.
  intros Hf [H1 H2]. unfold upd_flow. split; upd_simpl.
  - unfold map_size in *. rewrite <- size_dom, dom_alter, size_dom. done.
  - intros i rt. rewrite lookup_alter_Some. intros [(<- & rt' & Hrt & ->)|[_ Hrt]].
    + by eapply Hf, H2.
    + by eapply H2.
Qed.

Lemma enter_lifecycle_history im next now rt :
  fr_history (enter_lifecycle im next now rt) = fr_history rt.
Proof. unfold enter_lifecycle, refresh_min_service_window. cbv zeta. repeat case_match; done. Qed.

Lemma update_index_policy f a b im : im_policy (update_index f a b im) = im_policy im.
Proof. unfold update_index, index_insert, index_erase. by destruct (slot a), (slot b). Qed.

Lemma bounded_set_lifecycle id next now im : bounded im -> bounded (set_lifecycle id next now im).
Proof.
  intros [H1 H2]. unfold set_lifecycle. destruct (im_flows im !! id) as [rt|] eqn:Hid; [|done].
  case_bool_decide; [done|].
  split; rewrite update_index_flows, ?update_index_policy; upd_simpl.
  - unfold map_size in *. rewrite map_size_insert_Some by eauto. done.
  - apply map_Forall_insert_2; [|done]. unfold history_ok. rewrite enter_lifecycle_history.
    by eapply H2.
Qed.

Lemma bounded_record_step id step im : bounded im -> bounded (record_step id step im).
Proof.
  apply bounded_upd_flow. intros rt Hrt. unfold history_ok in *. cbv zeta.
  case_match eqn:E; unfold history_ok; upd_simpl.
  - rewrite length_tl, length_app. simpl. lia.
  - apply N.ltb_ge in E. done.
Qed.

Lemma bounded_transition id next now reason sch att detail im :
  bounded im -> bounded (transition id next now reason sch att detail im).
Proof. intros H. by apply bounded_record_step, bounded_set_lifecycle. Qed.

Create HintDb bounded.
#[export] Hint Extern 2 (bounded (if ?c then _ else _)) => destruct c : bounded.
Ltac bounded_step :=
  lazymatch goal with
  | |- bounded (transition _ _ _ _ _ _ _ _) => apply bounded_transition
  | |- bounded (record_step _ _ _) => apply bounded_record_step
  | |- bounded (set_lifecycle _ _ _ _) => apply bounded_set_lifecycle
  | |- bounded (upd_flow _ _ _) =>
      apply bounded_upd_flow; [intros ? ?; repeat case_match; done|]
  | |- bounded (upd_schedule _ _ ?im) => apply (bounded_core im); [done..|]
  | |- bounded (upd_resource _ _ ?im) => apply (bounded_core im); [done..|]
  | |- bounded (upd_attempt _ _ ?im) => apply (bounded_core im); [done..|]
  | |- bounded (release_slot _ ?im) => apply (bounded_core im); [done..|]
  | |- bounded (if ?c then _ else _) => destruct c
  | |- bounded (match ?x with _ => _ end) => destruct x eqn:?
  | |- bounded (@upd _ _ ?p ?u ?f ?im) =>
      let H := fresh in
      assert (forall i, im_flows (@upd _ _ p u f i) = im_flows i /\
                        im_policy (@upd _ _ p u f i) = im_policy i) as H by (by split);
      apply (bounded_core im _ (proj1 (H im)) (proj2 (H im))); clear H
  | |- bounded (foldl _ _ _) => apply foldl_inv; [|intros ? ? _ ?]
  end.
Ltac bounded_solve := cbv zeta; repeat bounded_step; try assumption; auto with bounded.

Lemma bounded_apply_attempt_closed a st d now im :
  bounded im -> bounded (apply_attempt_closed a st d now im).
Proof. intros H. unfold apply_attempt_closed, close_flow. bounded_solve. Qed.
Lemma bounded_release_run_entry s i now im :
  bounded im -> bounded (release_run_entry s i now im).
Proof. intros H. unfold release_run_entry, clear_scheduled. bounded_solve. Qed.
#[export] Hint Resolve bounded_apply_attempt_closed bounded_release_run_entry : bounded.
Lemma bounded_release_held_window rt now im :
  bounded im -> bounded (release_held_window rt now im).
Proof. intros H. unfold release_held_window. bounded_solve. Qed.
#[export] Hint Resolve bounded_release_held_window : bounded.
Lemma bounded_apply_cancel f g now im : bounded im -> bounded (apply_cancel f g now im).
Proof. intros H. unfold apply_cancel, clear_scheduled. bounded_solve. Qed.
Lemma bounded_apply_retire_flow f g im : bounded im -> bounded (apply_retire_flow f g im).
Proof.
  intros [H1 H2]. unfold apply_retire_flow. repeat case_match; try done. split; upd_simpl.
  - etrans; [|exact H1]. unfold map_size.
    enough (size (delete f (im_flows im)) <= size (im_flows im))%nat by lia.
    rewrite <- !size_dom, dom_delete_L. apply subseteq_size. set_solver.
  - by apply map_Forall_delete.
Qed.
Lemma bounded_apply_ambiguity_resolved f g r now im :
  bounded im -> bounded (apply_ambiguity_resolved f g r now im).
Proof. intros H. unfold apply_ambiguity_resolved. bounded_solve. Qed.
Lemma bounded_apply_readiness f g s now im :
  bounded im -> bounded (apply_readiness f g s now im).
Proof. intros H. unfold apply_readiness. bounded_solve. Qed.
Lemma bounded_apply_run_entry s e im : bounded im -> bounded (apply_run_entry s e im).
Proof. intros H. unfold apply_run_entry. bounded_solve. Qed.
#[export] Hint Resolve bounded_apply_run_entry : bounded.
Lemma bounded_apply_schedule s im : bounded im -> bounded (apply_schedule s im).
Proof. intros H. unfold apply_schedule. bounded_solve. Qed.
Lemma bounded_apply_release_schedule s now im :
  bounded im -> bounded (apply_release_schedule s now im).
Proof. intros H. unfold apply_release_schedule. bounded_solve. Qed.
Lemma bounded_apply_attempt_opened t n now im :
  bounded im -> bounded (apply_attempt_opened t n now im).
Proof. intros H. unfold apply_attempt_opened. bounded_solve. Qed.
Lemma bounded_apply_attempt_started a now im :
  bounded im -> bounded (apply_attempt_started a now im).
Proof. intros H. unfold apply_attempt_started. bounded_solve. Qed.
Lemma bounded_apply_completion e c l now im :
  bounded im -> bounded (apply_completion e c l now im).
Proof. intros H. unfold apply_completion, clear_scheduled. bounded_solve. Qed.
Lemma bounded_normalize now im : bounded im -> bounded (normalize_transient_states now im).
Proof. intros H. unfold normalize_transient_states, normalize_flow. bounded_solve. Qed.
#[export] Hint Resolve bounded_apply_cancel bounded_apply_retire_flow
  bounded_apply_ambiguity_resolved bounded_apply_readiness bounded_apply_schedule
  bounded_apply_release_schedule bounded_apply_attempt_opened bounded_apply_attempt_started
  bounded_apply_completion bounded_normalize : bounded.

Lemma bounded_abandon now d im : bounded im -> bounded (abandon_open_attempts now d im).
Proof. intros H. unfold abandon_open_attempts. cbv zeta. apply bounded_normalize. bounded_solve. Qed.

Lemma bounded_reindex im : bounded im -> bounded (reindex_all im).
Proof.
  intros H. unfold reindex_all. cbv zeta. apply foldl_inv; [bounded_solve|].
  intros im' [id rt] _ H'. apply (bounded_core im'); [..|done]; by destruct (slot _).
Qed.

Lemma bounded_apply_epoch_advance next now im :
  bounded im -> bounded (apply_epoch_advance next now im).
Proof.
  intros Hw. unfold apply_epoch_advance. cbv zeta.
  pose proof (bounded_abandon now "epoch advanced: prior dispatch authority retired" im Hw) as H1.
  set (im1 := abandon_open_attempts _ _ _) in *.
  do 7 bounded_step. apply bounded_reindex. destruct H1 as [Ha Hb].
  split; upd_simpl.
  - unfold map_size in *. by rewrite map_size_fmap.
  - intros id rt. rewrite lookup_fmap_Some. intros (rt' & <- & Hrt). exact (Hb _ _ Hrt).
Qed.
#[export] Hint Resolve bounded_apply_epoch_advance : bounded.

(** ** Arbitration *)

Lemma bounded_journal t ops : preserves bounded (journal t ops).
Proof.
  intros im H. unfold exec, journal. destruct (im_store im) as [ds|]; [|done].
  destruct (append t (payload ops) ds) as [ds' r]. cbn [fst]. by apply (bounded_core im).
Qed.

Lemma bounded_handle_miss id now im o :
  bounded im -> bounded (handle_deadline_miss id now im o).1.
Proof.
  intros H. unfold handle_deadline_miss, count_deadline_miss.
  repeat case_match; try done; cbn [fst]; bounded_solve.
Qed.

Lemma bounded_not_ready id rt reason now im o :
  bounded im -> bounded (not_ready id rt reason now im o).1.
Proof.
  intros H. unfold not_ready, fail_dependent. destruct reason; try done.
  - by apply bounded_handle_miss.
  - by apply bounded_transition.
Qed.

Lemma bounded_refresh now im o : bounded im -> bounded (refresh_lifecycles now im o).1.
Proof.
  intros H. unfold refresh_lifecycles.
  destruct (foldl (refresh_waiting now) (im, o) _) as [im1 o1] eqn:E1.
  assert (bounded im1) as H1.
  { change (bounded (im1, o1).1). rewrite <- E1.
    apply (foldl_inv (fun st => bounded st.1)); [done|]. intros [im2 o2] id _ H2.
    unfold refresh_waiting. repeat case_match; try done; cbn [fst];
      [by apply bounded_transition | by apply bounded_not_ready]. }
  apply (foldl_inv (fun st => bounded st.1)); [done|]. intros [im2 o2] id _ H2.
  unfold refresh_inflight, count_deadline_miss. repeat case_match; try done. cbn [fst].
  bounded_solve.
Qed.

Lemma bounded_reclaim now im o : bounded im -> bounded (reclaim_expired_deliveries now im o).1.
Proof.
  unfold reclaim_expired_deliveries. generalize (im_schedule_order im) as order.
  intros order. revert im o. induction order as [|id order IH]; intros im o H; [done|].
  cbn [reclaim_loop]. repeat case_match; try done; try (by apply IH); cbn [fst];
    match goal with E : journal _ _ _ = (?i, _) |- _ =>
      assert (bounded i) by (pose proof (bounded_journal JScheduleReleased
        [WU64 id; WU64 now] im H) as Hj; unfold exec in Hj; by rewrite E in Hj) end.
  - apply IH. by apply bounded_apply_release_schedule.
  - done.
Qed.

Lemma bounded_close_attempt a st d now : preserves bounded (close_attempt a st d now).
Proof.
  unfold close_attempt. repeat preserve_step; [apply bounded_journal|].
  by apply bounded_apply_attempt_closed.
Qed.

Lemma bounded_rank now im : bounded im -> bounded (rank_candidates now im).1.
Proof.
  intros H. unfold rank_candidates. destruct (foldl _ _ _) as [im1 cs] eqn:E.
  change (bounded (im1, cs).1). rewrite <- E.
  apply (foldl_inv (fun st => bounded st.1)); [done|]. intros [im2 cs2] id _ H2.
  unfold consider. repeat case_match; try done; cbn [fst]; simplify_eq. bounded_solve.
Qed.

Lemma bounded_retire order im : bounded im -> bounded (retire_loop order im).
Proof.
  revert im. induction order as [|id order IH]; intros im H; [done|]. cbn [retire_loop].
  repeat case_match; try done; apply IH; bounded_solve.
Qed.

Lemma bounded_issue entries now o : preserves bounded (issue_schedule entries now o).
Proof.
  unfold issue_schedule. repeat preserve_step; try apply bounded_journal; bounded_solve.
Qed.

Lemma bounded_arbitrate now : preserves bounded (arbitrate now).
Proof.
  intros im. apply (arbitrate_PQ bounded bounded now).
  - intros. apply bounded_close_attempt.
  - intros. bounded_solve.
  - intros. bounded_solve.
  - intros. bounded_solve.
  - intros. by apply bounded_not_ready.
  - intros. bounded_solve.
  - intros. by apply bounded_reclaim.
  - intros. by apply bounded_refresh.
  - intros. by apply bounded_rank.
  - intros. unfold roll_preemption_window. bounded_solve.
  - done.
  - intros. by apply bounded_issue.
  - intros. by apply bounded_normalize.
  - intros. by apply bounded_retire.
Qed.

Lemma bounded_apply_admit d im : bounded im -> bounded (exec (apply_admit d) im).
Proof.
  intros [H1 H2]. unfold exec, apply_admit. destruct (_ && _) eqn:E; [done|]. cbn [fst].
  split; upd_simpl.
  - unfold map_size in *. destruct (im_flows im !! fd_flow d) as [rt|] eqn:Hd.
    + rewrite map_size_insert_Some by eauto. done.
    + rewrite map_size_insert_None by done. rewrite bool_decide_eq_true_2, andb_true_r in E by done.
      apply N.leb_gt in E. lia.
  - by apply map_Forall_insert_2.
Qed.

Lemma bounded_apply_update d im : bounded im -> bounded (exec (apply_update d) im).
Proof.
  intros H. unfold exec, apply_update. destruct (im_flows im !! fd_flow d); [|done].
  destruct (holds_open_work _); [done|]. cbn [fst]. bounded_solve.
Qed.
#[export] Hint Resolve bounded_journal bounded_close_attempt bounded_apply_admit
  bounded_apply_update : bounded.

Lemma bounded_rearm f c now im : bounded im -> bounded (rearm f c now im).
Proof. intros H. unfold rearm. bounded_solve. Qed.
Lemma bounded_count_rejected e b im : bounded im -> bounded (count_rejected e b im).
Proof. intros H. unfold count_rejected. bounded_solve. Qed.
Lemma bounded_apply_retire_reservation r g im :
  bounded im -> bounded (apply_retire_reservation r g im).
Proof. intros H. unfold apply_retire_reservation. bounded_solve. Qed.
#[export] Hint Resolve bounded_rearm bounded_count_rejected bounded_apply_retire_reservation
  : bounded.

(** Installing a policy is refused when the table would not fit in it. *)
Lemma bounded_install_policy p : preserves bounded (install_policy p).
Proof.
  intros im H. apply wp_exec. unfold install_policy. do 2 wp_step.
  destruct (validate_policy p) as [[]|]; [|done]. do 2 wp_step.
  assert (forall k : Op unit, wp k (fun _ => bounded) (fun _ => bounded) im ->
    wp (bind (if id_valid (po_policy (im_policy im)) && (po_policy p =? po_policy (im_policy im))
        then let* expected := lift (advance (po_generation (im_policy im))) in
             guard (negb (po_generation p =? expected)) InvalidArgument
        else guard (negb (po_generation p =? 1)) InvalidArgument) (fun _ => k))
      (fun _ => bounded) (fun _ => bounded) im) as Hguard.
  { intros k Hk. wp_step. destruct (_ && _).
    - do 2 wp_step. destruct (advance _); [|done]. wp_step. by destruct (negb _).
    - wp_step. by destruct (negb _). }
  apply Hguard. clear Hguard. do 2 wp_step.
  destruct (N.ltb_spec (po_max_flows p) (map_size (im_flows im))) as [|Hle]; [done|].
  wp_step. apply wp_journal; [|intros; by apply (bounded_core im)].
  intros st. wp_step. destruct H as [H1 H2]. by split.
Qed.
