(* ===== verification/Rounds.v ===== *)
(** * The shape of a schedule

    What [arbitrate] returns, whatever the state: a bounded list of entries,
    numbered by position, in which every Run entry authorises at least one unit
    of service. *)

From S2P Require Import Prelude Checked Bytes Hash Model Schedule Codec Journal State.
From S2P Require Import Transitions Arbitrate Operations Recovery Fixture Invariants Capacity.

(** The entry limit no policy can raise: what a journal record can hold. *)
Definition hard_entry_limit : N := kMaxJournalRecordPayload / kScheduleEntryBudgetBytes.

Lemma entry_limit_hard p : entry_limit p <= hard_entry_limit.
Proof.
  unfold entry_limit, hard_entry_limit. cbv zeta. case_match eqn:E; [done|].
  by apply N.ltb_ge in E.
Qed.

(** Numbered by position, with a unit of service for every Run entry. *)
Definition entries_ok (l : list ScheduleEntry) : Prop :=
  forall i e, l !! i = Some e ->
    se_ordinal e = N.of_nat i /\ (is_run e = true -> 1 <= se_quantum e).

(** The outcome under construction has no schedule yet. *)
Definition blank (o : ArbitrationOutcome) : Prop := ao_schedule o = default_schedule.

Lemma blank_defer rt reason detail o : blank o -> blank (defer rt reason detail o).
Proof. unfold defer. by case_match. Qed.
Lemma blank_miss f o : blank o -> blank (report_deadline_miss f o).
Proof. unfold report_deadline_miss. by case_match. Qed.
Lemma blank_handle_miss id now im o : blank o -> blank (handle_deadline_miss id now im o).2.
Proof.
  intros H. unfold handle_deadline_miss. repeat case_match; try done; by apply blank_miss.
Qed.
Lemma blank_not_ready id rt reason now im o : blank o -> blank (not_ready id rt reason now im o).2.
Proof. intros H. destruct reason; try (by apply blank_defer). by apply blank_handle_miss. Qed.

Lemma blank_refresh now im o : blank o -> blank (refresh_lifecycles now im o).2.
Proof.
  intros H. unfold refresh_lifecycles.
  destruct (foldl (refresh_waiting now) (im, o) _) as [im1 o1] eqn:E1.
  assert (blank o1) as H1.
  { change (blank (im1, o1).2). rewrite <- E1.
    apply (foldl_inv (fun st => blank st.2)); [done|]. intros [im2 o2] id _ H2.
    unfold refresh_waiting. repeat case_match; try done;
      [by apply blank_defer | by apply blank_defer | by apply blank_not_ready]. }
  apply (foldl_inv (fun st => blank st.2)); [done|]. intros [im2 o2] id _ H2.
  unfold refresh_inflight. repeat case_match; try done. by apply blank_miss.
Qed.

Lemma blank_reclaim now im o : blank o -> blank (reclaim_expired_deliveries now im o).2.
Proof.
  unfold reclaim_expired_deliveries. generalize (im_schedule_order im) as order.
  intros order. revert im o. induction order as [|id order IH]; intros im o H; [done|].
  cbn [reclaim_loop]. repeat case_match; try done; try (by apply IH). apply IH.
  unfold reclaimed_flows. apply (foldl_inv blank); [done|]. intros o2 e _ Ho2. by repeat case_match.
Qed.

Definition numbered (n : N) (st : Impl * Round) : Prop :=
  N.of_nat (length (rn_entries st.2)) <= n /\
  rn_next_ordinal st.2 = N.of_nat (length (rn_entries st.2)) /\ entries_ok (rn_entries st.2) /\
  blank (rn_outcome st.2).

Lemma numbered_same n im im' rd rd' :
  rn_entries rd' = rn_entries rd -> rn_next_ordinal rd' = rn_next_ordinal rd ->
  (blank (rn_outcome rd) -> blank (rn_outcome rd')) ->
  numbered n (im, rd) -> numbered n (im', rd').
Proof. unfold numbered. cbn. intros -> -> H. naive_solver. Qed.

Lemma numbered_more m n st : m <= n -> numbered m st -> numbered n st.
Proof. intros ? [? ?]. split; [lia | done]. Qed.

(** Pushing the entry with the next number. *)
Lemma numbered_push n im im' rd rd' e :
  n < hard_entry_limit + 1 -> rn_entries rd' = rn_entries rd ++ [e] ->
  rn_next_ordinal rd' = incr32 (rn_next_ordinal rd) -> se_ordinal e = rn_next_ordinal rd ->
  (is_run e = true -> 1 <= se_quantum e) -> rn_outcome rd' = rn_outcome rd ->
  numbered n (im, rd) -> numbered (n + 1) (im', rd').
Proof.
  intros Hn He Ho Hord Hq Hout (Hlen & Hnext & Hok & Hb). unfold numbered. cbn [snd] in *.
  rewrite He, Ho, Hnext, Hout, length_app. cbn [length]. split; [lia|]. split; [|split; [|done]].
  - unfold incr32, wrap32. rewrite N.mod_small; [lia|].
    change hard_entry_limit with 3276 in Hn. unfold u32_mod. lia.
  - intros i e' [Hi|[Hi Hi']]%lookup_app_Some; [by apply Hok|].
    destruct (i - length (rn_entries rd))%nat eqn:Hk; [|done]. injection Hi' as <-.
    split; [|done]. rewrite Hord, Hnext. f_equal. lia.
Qed.

Section Placement.
Context (now : Ticks).

Lemma numbered_modify_round n f :
  (forall rd, rn_entries (f rd) = rn_entries rd /\ rn_next_ordinal (f rd) = rn_next_ordinal rd /\
              (blank (rn_outcome rd) -> blank (rn_outcome (f rd)))) ->
  preserves (numbered n) (modify_round f).
Proof. intros Hf [im rd] H. destruct (Hf rd) as (? & ? & ?). by apply (numbered_same n im im rd). Qed.

Lemma numbered_modify_impl n f : preserves (numbered n) (modify_impl f).
Proof. intros [im rd] H. by apply (numbered_same n im _ rd). Qed.

Lemma numbered_on_impl {A} n (m : Op A) : preserves (numbered n) (on_impl m).
Proof.
  intros [im rd] H. unfold exec, on_impl. destruct (m im). by apply (numbered_same n im _ rd).
Qed.

Lemma numbered_deferring n rt reason detail :
  preserves (numbered n) (deferring rt reason detail).
Proof.
  apply numbered_modify_round. intros rd. upd_simpl. split_and!; [done..|]. apply blank_defer.
Qed.

Lemma numbered_displace n c rt st :
  n < hard_entry_limit + 1 -> numbered n st -> numbered (n + 1) (exec (displace c rt now) st).
Proof.
  intros Hn H. apply wp_exec. unfold displace. do 2 wp_step. destruct st as [im rd].
  assert (forall reason detail,
    wp (deferring rt reason detail ;;; ret false) (fun _ => numbered (n + 1))
      (fun _ => numbered (n + 1)) (im, rd)) as Hdefer.
  { intros reason detail. unfold deferring, modify_round. do 3 wp_step. eapply (numbered_same (n + 1) im _ rd);
      [done|done| |by apply (numbered_more n); [lia|]]. upd_simpl. apply blank_defer. }
  repeat (case_match; try (by apply Hdefer)). unfold modify_round at 1. do 2 wp_step.
  match goal with |- wp ?m _ _ ?st => assert (numbered (n + 1) st) as Hst;
    [|revert Hst; generalize st; intros st' Hst; apply wp_exec; revert st' Hst;
      change (preserves (numbered (n + 1)) m)] end.
  - by eapply numbered_push.
  - repeat preserve_step;
      auto using numbered_on_impl, numbered_modify_impl.
    apply numbered_modify_round. intros rd'. upd_simpl. split_and!; [done..|]. apply blank_defer.
Qed.

Lemma numbered_window n c st :
  n < hard_entry_limit + 1 -> numbered n st -> numbered (n + 1) (exec (place_window c now) st).
Proof.
  intros Hn H. apply wp_exec. unfold place_window. do 2 wp_step. destruct st as [im rd].
  assert (numbered (n + 1) (im, rd)) as H1 by (by apply (numbered_more n); [lia|]).
  destruct (im_flows im !! cd_flow c) as [rt|]; [|done].
  destruct (im_resources im !! _) as [r|]; [|done]. cbv zeta.
  destruct (N.eqb_spec (wd_quantum (service_window im rd rt r now)) 0) as [Hq|Hq].
  - apply wp_exec. by apply numbered_deferring.
  - unfold modify_round. wp_step. eapply numbered_push; [done|apply grant_entries| | | | |done].
    + unfold grant. by destruct (id_valid _).
    + done.
    + intros _. change (1 <= wd_quantum (service_window im rd rt r now)).
      generalize dependent (wd_quantum (service_window im rd rt r now)). lia.
    + unfold grant. by destruct (id_valid _).
Qed.

Lemma numbered_candidate limit c st :
  limit <= hard_entry_limit -> numbered (limit + 1) st ->
  numbered (limit + 1) (exec (place_candidate now limit c) st).
Proof.
  intros Hlim H. apply wp_exec. unfold place_candidate. do 2 wp_step. destruct st as [im rd].
  destruct (im_flows im !! cd_flow c) as [rt|]; [|done].
  destruct (negb _); [done|]. destruct (bool_decide _); [done|].
  destruct (derived_readiness im rt now) as [ready current]. destruct (negb ready).
  { wp_step. pose proof (blank_not_ready (cd_flow c) rt current now im (rn_outcome rd)) as Hb.
    destruct (not_ready _ _ _ _ _ _) as [im' o]. by apply (numbered_same _ im _ rd). }
  destruct (N.leb_spec limit (N.of_nat (length (rn_entries rd)))) as [Hfull|Hroom].
  { apply wp_exec. by apply numbered_deferring. }
  destruct (im_resources im !! _) as [r|]; [|apply wp_exec; by apply numbered_deferring].
  destruct (negb _); [apply wp_exec; by apply numbered_deferring|]. unfold modify_impl. do 2 wp_step.
  assert (numbered (limit - 1) (im, rd)) as H0.
  { destruct H as (_ & Hnext). split; [cbn; lia | done]. }
  assert (forall st, numbered limit st -> wp (place_window c now) (fun _ => numbered (limit + 1))
    (fun _ => numbered (limit + 1)) st) as Hwin.
  { intros st Hst. apply wp_exec. apply numbered_window; [lia | done]. }
  match goal with |- wp _ _ _ ?st => assert (numbered (limit - 1) st) as H1 end.
  { by apply (numbered_same _ im _ rd). }
  wp_step. destruct (_ <=? _).
  - eapply wp_conseq; [apply wp_exec, (numbered_displace (limit - 1)); [lia | exact H1]| |].
    + intros go st Hst. replace (limit - 1 + 1) with limit in Hst by lia.
      destruct go; [by apply Hwin|]. wp_step. by apply (numbered_more limit); [lia|].
    + intros e st Hst. apply (numbered_more (limit - 1 + 1)); [lia | done].
  - wp_step. apply Hwin. by apply (numbered_more (limit - 1)); [lia|].
Qed.

Lemma numbered_place_all limit cs st :
  limit <= hard_entry_limit -> numbered (limit + 1) st ->
  numbered (limit + 1) (exec (place_all now limit cs) st).
Proof.
  intros Hlim. revert st. induction cs as [|c cs IH]; intros st H; [done|]. cbn [place_all].
  apply (preserves_bind (numbered (limit + 1))); [|intros []; exact IH|done].
  intros st' Hst'. by apply numbered_candidate.
Qed.
End Placement.

(** The schedule of a round, whatever the state it runs in. *)
Definition schedule_ok (s : Schedule) : Prop :=
  N.of_nat (length (sc_entries s)) <= hard_entry_limit + 1 /\ entries_ok (sc_entries s).

Lemma issue_ok entries now o im :
  N.of_nat (length entries) <= hard_entry_limit + 1 -> entries_ok entries -> blank o ->
  wp (issue_schedule entries now o) (fun o' _ => schedule_ok (ao_schedule o')) (fun _ _ => True) im.
Proof.
  intros Hlen Hok Hb. unfold issue_schedule. destruct entries as [|e l].
  - do 3 wp_step. split; upd_simpl; rewrite Hb; [by vm_compute | done].
  - do 4 wp_step. cbv zeta. wp_step. apply wp_journal; [|done]. intros st. do 4 wp_step.
    destruct (advance _); [|done]. do 2 wp_step. destruct (advance _); [|done]. by do 3 wp_step.
Qed.

Lemma arbitrate_schedule_ok now im :
  wp (arbitrate now) (fun o _ => schedule_ok (ao_schedule o)) (fun _ _ => True) im.
Proof.
  unfold arbitrate. do 4 wp_step. destruct (now <? _); [done|]. do 3 wp_step.
  match goal with |- wp _ _ _ ?i => generalize i end. clear im. intros im. unfold wp at 1.
  pose proof (blank_reclaim now im empty_outcome eq_refl) as H1.
  destruct (reclaim_expired_deliveries now im empty_outcome) as [im1 o1]. cbn [snd] in H1.
  pose proof (blank_refresh now im1 o1 H1) as H2.
  destruct (refresh_lifecycles now im1 o1) as [im2 o2]. cbn [snd] in H2.
  do 3 wp_step. unfold wp at 1. destruct (close_overdue now _ im2) as [im3 [[]|]]; [|done].
  wp_step. unfold wp at 1. destruct (rank_candidates now im3) as [im4 cs]. do 4 wp_step. wp_step.
  unfold wp at 1.
  match goal with |- context [place_all now ?lim cs ?st] =>
    pose proof (numbered_place_all now lim cs st (entry_limit_hard _)) as H3 end.
  unfold exec in H3. destruct (place_all _ _ _ _) as [[im5 rd] r]. cbn [fst] in H3.
  destruct H3 as (Hlen & _ & Hok & Hb).
  { split; [cbn; lia|]. split; [done|]. split; [by intros []|done]. }
  cbn [snd] in *. destruct r as [[]|]; [|done]. wp_step.
  eapply wp_conseq; [apply issue_ok| |done]; [|done|done|].
  - pose proof (entry_limit_hard (im_policy (roll_preemption_window now im4))). lia.
  - intros o im6 Ho. by do 5 wp_step.
Qed.

Lemma arbitrate_schedule now im o : outcome (arbitrate now) im = Ok o -> schedule_ok (ao_schedule o).
Proof.
  pose proof (arbitrate_schedule_ok now im) as H. unfold wp, outcome in *. intros Ho.
  destruct (arbitrate now im) as [im' [o'|e]]; cbn [snd] in Ho; [|done]. by injection Ho as ->.
Qed.

(** ** Properties *)

(** C26 Every schedule a round returns is well formed, whatever the
    scheduler's state: it has at most one entry more than fits the journal's
    entry budget, its entries are numbered by their position (so that an
    ordinal always names the entry it came from), and every Run entry authorises
    at least one unit of service. *)
Theorem schedule_well_formed (now : Ticks) (im : Impl) (o : ArbitrationOutcome)
  (Hround : outcome (arbitrate now) im = Ok o) :
  N.of_nat (length (sc_entries (ao_schedule o))) <=
    kMaxJournalRecordPayload / kScheduleEntryBudgetBytes + 1 /\
  (forall i e, sc_entries (ao_schedule o) !! i = Some e ->
     se_ordinal e = N.of_nat i /\ (is_run e = true -> 1 <= se_quantum e)).
Proof. by apply (arbitrate_schedule now im). Qed.

Lemma schedule_well_formed_witness :
  match outcome (arbitrate 10) Demo.admitted with
  | Ok o => length (sc_entries (ao_schedule o)) = 2%nat /\
            forall e, sc_entries (ao_schedule o) !! 1%nat = Some e -> se_ordinal e = 1
  | Err _ => False
  end.
Proof.
  destruct (outcome (arbitrate 10) Demo.admitted) as [o|e] eqn:H; [|by vm_compute in H].
  split.
  - vm_compute in H. injection H as <-. reflexivity.
  - intros e He. apply (schedule_well_formed 10 Demo.admitted o H) in He as [He _]. exact He.
Defined.
