(* ===== verification/Random.v ===== *)
(** * The generator of synthetic workloads

    [Rng::next_below] draws until a value is below a limit.  The loop ends: the
    mixing function of the generator is injective, so that two draws of a run
    never agree, and only few values are rejected. *)

From S2P Require Import Prelude Checked Bytes Hash.

(** ** The mixing function is injective *)

Lemma lxor_shiftr_inj k x y :
  0 < k -> N.lxor x (N.shiftr x k) = N.lxor y (N.shiftr y k) -> x = y.
Proof.
  intros Hk H. apply N.lxor_eq. set (d := N.lxor x y).
  assert (d = N.shiftr d k) as Hd.
  { apply N.lxor_eq. subst d. rewrite N.shiftr_lxor.
    rewrite N.lxor_assoc, (N.lxor_comm y), !N.lxor_assoc, <- (N.lxor_assoc x), H.
    by rewrite (N.lxor_comm (N.shiftr y k) y), N.lxor_nilpotent. }
  destruct (N.eq_dec d 0) as [->|Hne]; [done|]. exfalso.
  rewrite N.shiftr_div_pow2 in Hd.
  assert (d / 2 ^ k < d); [|lia]. apply N.div_lt; [lia|]. apply N.pow_gt_1; lia.
Qed.

Lemma lxor_shiftr_bound k x : x < u64_mod -> N.lxor x (N.shiftr x k) < u64_mod.
Proof.
  intros H. change u64_mod with (2 ^ 64) in *.
  destruct (N.eq_dec (N.lxor x (N.shiftr x k)) 0) as [->|Hne]; [done|].
  apply N.log2_lt_pow2; [lia|]. eapply N.le_lt_trans; [apply N.log2_lxor|].
  rewrite N.log2_shiftr. destruct (N.eq_dec x 0) as [->|Hx]; [done|].
  apply N.log2_lt_pow2 in H; [|lia]. lia.
Qed.

(** Multiplication by a number with an inverse. *)
Lemma mul64_inj c inv x y :
  (c * inv) mod u64_mod = 1 -> x < u64_mod -> y < u64_mod -> mul64 x c = mul64 y c -> x = y.
Proof.
  intros Hc Hx Hy H. apply (f_equal (fun z => (z * inv) mod u64_mod)) in H. revert H.
  unfold mul64, wrap64.
  assert (forall z, z < u64_mod -> ((z * c) mod u64_mod * inv) mod u64_mod = z) as Hinv.
  { intros z Hz. rewrite N.Div0.mul_mod_idemp_l, <- N.mul_assoc, <- N.Div0.mul_mod_idemp_r, Hc,
      N.mul_1_r. by apply N.mod_small. }
  by rewrite !Hinv.
Qed.

Lemma add64_inj c x y :
  c < u64_mod -> x < u64_mod -> y < u64_mod -> add64 x c = add64 y c -> x = y.
Proof.
  intros Hc Hx Hy H. apply (f_equal (fun z => (z + (u64_mod - c)) mod u64_mod)) in H. revert H.
  unfold add64, wrap64.
  assert (forall z, z < u64_mod -> ((z + c) mod u64_mod + (u64_mod - c)) mod u64_mod = z) as Hinv.
  { intros z Hz. rewrite N.Div0.add_mod_idemp_l. replace (z + c + (u64_mod - c)) with (z + 1 * u64_mod) by lia.
    rewrite N.Div0.mod_add. by apply N.mod_small. }
  by rewrite !Hinv.
Qed.

Lemma mul64_bound x y : mul64 x y < u64_mod.
Proof. by apply N.mod_lt. Qed.
Lemma add64_bound x y : add64 x y < u64_mod.
Proof. by apply N.mod_lt. Qed.

Lemma mix64_inj x y : x < u64_mod -> y < u64_mod -> mix64 x = mix64 y -> x = y.
Proof.
  intros Hx Hy H. unfold mix64 in H.
  apply lxor_shiftr_inj in H; [|done].
  apply (mul64_inj _ 3573116690164977347) in H; [|done|by apply lxor_shiftr_bound, mul64_bound..].
  apply lxor_shiftr_inj in H; [|done].
  apply (mul64_inj _ 10871156337175269513) in H; [|done|by apply lxor_shiftr_bound, add64_bound..].
  apply lxor_shiftr_inj in H; [|done]. by apply add64_inj in H.
Qed.

Lemma mix64_bound x : mix64 x < u64_mod.
Proof. apply lxor_shiftr_bound, mul64_bound. Qed.

(** ** A run of draws *)

Definition gamma : N := 11400714819323198485.

(** The generator's state after [n] draws. *)
Fixpoint rng_state (n : nat) (state : N) : N :=
  match n with
  | O => state
  | S n => rng_state n (add64 state gamma)
  end.

Definition draws (n : nat) (state : N) : list N :=
  (fun i => mix64 (rng_state (S i) state)) <$> seq 0 n.

Lemma rng_state_eq n state :
  state < u64_mod -> rng_state n state = (state + N.of_nat n * gamma) mod u64_mod.
Proof.
  revert state. induction n as [|n IH]; intros state H; cbn [rng_state].
  - rewrite N.mul_0_l, N.add_0_r. symmetry. by apply N.mod_small.
  - rewrite IH by apply add64_bound. unfold add64, wrap64. rewrite N.Div0.add_mod_idemp_l.
    f_equal. lia.
Qed.

Lemma rng_state_inj i j state :
  state < u64_mod -> N.of_nat i < u64_mod -> N.of_nat j < u64_mod ->
  rng_state i state = rng_state j state -> i = j.
Proof.
  intros Hs Hi Hj. rewrite !rng_state_eq by done. intros H.
  assert (N.of_nat i = N.of_nat j); [|lia].
  apply (mul64_inj gamma 17428512612931826493); [done..|]. unfold mul64, wrap64.
  apply (f_equal (fun z => (z + (u64_mod - state)) mod u64_mod)) in H. revert H.
  rewrite !N.Div0.add_mod_idemp_l.
  assert (forall m, state + m + (u64_mod - state) = m + 1 * u64_mod) as Hcancel by lia.
  by rewrite !Hcancel, !N.Div0.mod_add.
Qed.

Lemma NoDup_draws n state :
  state < u64_mod -> N.of_nat n < u64_mod -> NoDup (draws n state).
Proof.
  intros Hs Hn. unfold draws. apply NoDup_fmap_2_strong; [|apply NoDup_seq].
  intros i j Hi%elem_of_seq Hj%elem_of_seq H.
  assert (forall k, rng_state (S k) state < u64_mod) as Hb.
  { intros k. rewrite rng_state_eq by done. by apply N.mod_lt. }
  apply mix64_inj in H; [|apply Hb..]. apply rng_state_inj in H; [lia|done|lia|lia].
Qed.

(** Distinct numbers of an interval are no more than its length. *)
Lemma NoDup_interval (l : list N) lo hi :
  NoDup l -> (forall x, x ∈ l -> lo <= x < hi) -> N.of_nat (length l) <= hi - lo.
Proof.
  intros Hl Hx.
  assert ((fun x => N.to_nat (x - lo)) <$> l ⊆+ seq 0 (N.to_nat (hi - lo))) as H.
  { apply NoDup_submseteq.
    - apply NoDup_fmap_2_strong; [|done]. intros x y Hx'%Hx Hy'%Hx H. lia.
    - intros k (x & -> & Hx'%Hx)%list_elem_of_fmap. apply elem_of_seq. lia. }
  apply submseteq_length in H. rewrite length_fmap, length_seq in H. lia.
Qed.

(** When the loop of [next_below] runs out of fuel, every draw was rejected. *)
Lemma rng_draw_None fuel limit bound state :
  rng_draw fuel limit bound state = None -> forall x, x ∈ draws fuel state -> limit <= x.
Proof.
  revert state. induction fuel as [|fuel IH]; intros state H x Hx; [by apply elem_of_nil in Hx|].
  cbn [rng_draw rng_next_u64] in H. fold gamma in H. unfold rng_next_u64 in H.
  destruct (mix64 (add64 state gamma) <? limit) eqn:E; [done|]. apply N.ltb_ge in E.
  unfold draws in Hx. apply list_elem_of_fmap in Hx as (i & -> & Hi%elem_of_seq).
  destruct i as [|i]; [exact E|]. apply (IH _ H). unfold draws. apply list_elem_of_fmap.
  exists i. split; [done|]. apply elem_of_seq. lia.
Qed.

Lemma rng_draw_Some fuel limit bound state state' v :
  rng_draw fuel limit bound state = Some (state', v) -> 0 < bound ->
  v < bound /\ state' < u64_mod.
Proof.
  intros H Hb. revert state H. induction fuel as [|fuel IH]; intros state H; [done|].
  cbn [rng_draw] in H. unfold rng_next_u64 in H. destruct (_ <? _).
  - injection H as <- <-. split; [apply N.mod_lt; lia | apply add64_bound].
  - by apply (IH _ H).
Qed.

(** One more turn than there are rejected values is enough. *)
Lemma rng_draw_enough fuel bound state :
  0 < bound <= u64_max -> state < u64_mod -> bound < N.of_nat fuel ->
  rng_draw fuel (u64_max - u64_max mod bound) bound state <> None.
Proof.
  intros [Hb Hb'] Hs Hf H.
  pose proof (N.mod_lt u64_max bound ltac:(lia)) as Hmod.
  assert (u64_max mod bound + 2 <= u64_max) as Hsmall.
  { destruct (N.eq_dec bound u64_max) as [->|]; [by vm_compute | lia]. }
  set (m := u64_max mod bound) in *. set (n := N.to_nat (m + 2)).
  assert (rng_draw n (u64_max - m) bound state = None) as Hn.
  { assert (n <= fuel)%nat as Hle by lia. clearbody n m. revert n state Hs Hle H. clear.
    induction fuel as [|fuel IH]; intros n state Hs Hle H; [by replace n with 0%nat by lia|].
    destruct n as [|n]; [done|]. cbn [rng_draw] in *. unfold rng_next_u64 in *.
    destruct (_ <? _); [done|]. apply IH; [apply add64_bound | lia | done]. }
  pose proof (NoDup_interval (draws n state) (u64_max - m) u64_mod) as Hlen.
  unfold draws in Hlen at 3. rewrite length_fmap, length_seq in Hlen.
  assert (N.of_nat n <= u64_mod - (u64_max - m)).
  { apply Hlen; [apply NoDup_draws; [done|]|].
    - unfold u64_mod, u64_max in *. lia.
    - intros x Hx. split; [by apply (rng_draw_None _ _ _ _ Hn)|].
      unfold draws in Hx. apply list_elem_of_fmap in Hx as (j & -> & _). apply mix64_bound. }
  unfold u64_mod, u64_max in *. lia.
Qed.

(** The rejection loop of [Rng::next_below] ends: from every state and for every
    bound at most [bound] draws are rejected, so that one turn more than the
    bound is enough, and the value is below the bound (zero for the bound zero). *)
Lemma rng_next_below_ok fuel bound state :
  bound <= u64_max -> state < u64_mod -> bound < N.of_nat fuel ->
  exists state' v, rng_next_below fuel bound state = Some (state', v) /\
    state' < u64_mod /\ (0 < bound -> v < bound) /\ (bound = 0 -> v = 0).
Proof.
  intros Hb Hs Hf. unfold rng_next_below. destruct (N.eqb_spec bound 0) as [->|Hne].
  { exists state, 0. by split_and!. }
  destruct (rng_draw fuel _ bound state) as [[s' v]|] eqn:E.
  - destruct (rng_draw_Some _ _ _ _ _ _ E) as [Hv Hs']; [lia|]. exists s', v. split_and!; auto; lia.
  - by apply rng_draw_enough in E; [|lia|done|done].
Qed.
