(* ===== verification/Doubles.v ===== *)
(** * The conversions of the benchmark's doubles are defined

    [Rng::next_bool] converts a scaled probability to an integer, which C++
    defines only when the value fits.  The facts on rounding that show it does,
    on the definitions of the Standard Library's SpecFloat. *)

From S2P Require Import Prelude Checked Bytes Hash Bench.
From Stdlib Require Import ZArith SpecFloat.

Local Open Scope Z_scope.

(** ** Shifts *)

Lemma shr_1_div r : 0 <= shr_m r -> shr_m (shr_1 r) = shr_m r / 2.
Proof.
  destruct r as [m rb sb]. cbn [shr_m]. intros H. rewrite <- Z.div2_div.
  destruct m as [|[p|p|]|p]; try reflexivity. lia.
Qed.

Lemma iter_shr n r :
  0 <= shr_m r -> shr_m (iter_pos shr_1 n r) = shr_m r / 2 ^ Zpos n.
Proof.
  revert r. induction n as [n IH|n IH|]; intros r H; cbn [iter_pos].
  - assert (0 <= shr_m (shr_1 r)) as H1 by (rewrite shr_1_div by done; apply Z.div_pos; lia).
    rewrite !IH; [|done|rewrite IH by done; apply Z.div_pos; lia]. rewrite shr_1_div by done.
    rewrite !Z.div_div by lia. f_equal.
    replace (Zpos n~1) with (Zpos n + Zpos n + 1) by lia. rewrite !Z.pow_add_r by lia. lia.
  - rewrite !IH; [|done|rewrite IH by done; apply Z.div_pos; lia].
    rewrite Z.div_div by lia. f_equal.
    replace (Zpos n~0) with (Zpos n + Zpos n) by lia. rewrite Z.pow_add_r by lia. lia.
  - by apply shr_1_div.
Qed.

(** ** Digits *)

Lemma digits2_bounds m : 2 ^ (Zpos (digits2_pos m) - 1) <= Zpos m < 2 ^ Zpos (digits2_pos m).
Proof.
  induction m as [m IH|m IH|]; cbn [digits2_pos]; [| |done]; rewrite Pos2Z.inj_succ;
    (replace (Z.succ (Zpos (digits2_pos m)) - 1) with (Z.succ (Zpos (digits2_pos m) - 1)) by lia);
    rewrite !Z.pow_succ_r by lia; lia.
Qed.

Lemma Zdigits2_upper m : 0 <= m -> m < 2 ^ Zdigits2 m.
Proof. destruct m as [|m|m]; [done| |done]. intros _. apply digits2_bounds. Qed.

Lemma Zdigits2_le m k : 0 <= m < 2 ^ k -> 0 <= k -> Zdigits2 m <= k.
Proof.
  intros [H1 H2] Hk. destruct m as [|m|m]; [done| |done]. cbn [Zdigits2].
  pose proof (digits2_bounds m) as [Hl _].
  assert (Zpos (digits2_pos m) - 1 < k); [|lia]. apply (Z.pow_lt_mono_r_iff 2); lia.
Qed.

Lemma Zdigits2_nonneg m : 0 <= Zdigits2 m.
Proof. by destruct m. Qed.

(** ** Rounding *)

Lemma shr_fexp_bound m e l mrs e' :
  0 <= m -> shr_fexp 53 1024 m e l = (mrs, e') ->
  e' = Z.max e (fexp 53 1024 (Zdigits2 m + e)) /\ 0 <= shr_m mrs <= m /\ shr_m mrs < 2 ^ 53.
Proof.
  intros Hm. unfold shr_fexp, shr.
  assert (shr_m (shr_record_of_loc m l) = m) as Hr by (destruct l as [|[]]; done).
  pose proof (Zdigits2_upper m Hm) as Hd. pose proof (Zdigits2_nonneg m) as Hd0.
  set (n := fexp 53 1024 (Zdigits2 m + e) - e).
  assert (Zdigits2 m - 53 <= n) as Hn by (unfold n, fexp; lia).
  destruct n as [|k|k] eqn:En; intros [= <- <-]; rewrite ?iter_shr, ?Hr by (rewrite Hr; done).
  - split; [lia|]. split; [lia|]. eapply Z.lt_le_trans; [exact Hd|]. apply Z.pow_le_mono_r; lia.
  - split; [lia|]. split; [split; [apply Z.div_pos; lia | apply Z.div_le_upper_bound; nia]|].
    apply Z.div_lt_upper_bound; [lia|]. rewrite <- Z.pow_add_r by lia.
    eapply Z.lt_le_trans; [exact Hd|]. apply Z.pow_le_mono_r; lia.
  - split; [lia|]. split; [lia|]. eapply Z.lt_le_trans; [exact Hd|]. apply Z.pow_le_mono_r; lia.
Qed.

Lemma round_nearest_bound m l : m <= round_nearest_even m l <= m + 1.
Proof. destruct l as [|[]]; cbn [round_nearest_even]; try lia. destruct (Z.even m); lia. Qed.

(** A rounded value keeps a small mantissa, and an exponent close to that of
    the exact value. *)
Lemma round_aux_shape m e :
  0 <= m -> Z.max e (Zdigits2 m + e - 53) <= 900 ->
  binary_round_aux 53 1024 false m e loc_Exact = S754_zero false \/
  exists m' e', binary_round_aux 53 1024 false m e loc_Exact = S754_finite false m' e' /\
    Zpos m' <= 2 ^ 53 /\ e' <= Z.max (Z.max e (Zdigits2 m + e - 53)) (-1074) + 1.
Proof.
  intros Hm He. unfold binary_round_aux.
  destruct (shr_fexp 53 1024 m e loc_Exact) as [r1 e1] eqn:E1.
  destruct (shr_fexp_bound _ _ _ _ _ Hm E1) as (He1 & Hr1 & Hb1).
  pose proof (round_nearest_bound (shr_m r1) (loc_of_shr_record r1)) as Hround.
  set (m2 := round_nearest_even _ _) in *. destruct (shr_fexp 53 1024 m2 e1 loc_Exact) as [r2 e2] eqn:E2.
  destruct (shr_fexp_bound m2 e1 _ _ _ ltac:(lia) E2) as (He2 & Hr2 & Hb2).
  assert (Zdigits2 m2 <= 54) as Hd2 by (apply Zdigits2_le; lia).
  unfold fexp, emin in *.
  destruct (shr_m r2) as [|m'|m'] eqn:Em; [by left | | lia].
  right. exists m', e2. rewrite (proj2 (Z.leb_le _ _)) by lia. split; [done|]. lia.
Qed.

(** ** The scaled probability *)

Lemma in_unit_finite x :
  in_unit_range x = true -> SFleb x dzero = false -> SFleb done1 x = false ->
  exists m e, x = S754_finite false m e /\ e <= -52.
Proof.
  change done1 with (S754_finite false 4503599627370496 (-52)).
  unfold in_unit_range, dzero, SFleb, SFcompare.
  destruct x as [s|s| |s m e]; try done; try (by destruct s).
  destruct s; [done|]. intros _ _ H. exists m, e. split; [done|].
  destruct (Z.compare_spec (-52) e); try done; lia.
Qed.

Lemma scaled_probability_defined x :
  valid_binary 53 1024 x = true -> in_unit_range x = true ->
  SFleb x dzero = false -> SFleb done1 x = false ->
  exists n, to_u64 (dmul x (of_u64 kScale)) = Some n.
Proof.
  intros Hv H1 H2 H3. destruct (in_unit_finite x H1 H2 H3) as (m & e & -> & He).
  change (of_u64 kScale) with (S754_finite false 4503599627370496 (-20)).
  unfold dmul. cbn [SFmul xorb].
  cbn [valid_binary] in Hv. unfold bounded, canonical_mantissa in Hv.
  apply andb_prop in Hv as [Hc _]. apply Z.eqb_eq in Hc. unfold fexp, emin in Hc.
  pose proof (digits2_bounds m) as [_ Hm].
  assert (Zpos m < 2 ^ 53) as Hm'.
  { eapply Z.lt_le_trans; [exact Hm|]. apply Z.pow_le_mono_r; lia. }
  assert (Zdigits2 (Zpos (m * 4503599627370496)) <= 105) as Hd by (apply Zdigits2_le; lia).
  destruct (round_aux_shape (Zpos (m * 4503599627370496)) (e + -20)) as [->|(m' & e' & -> & Hm2 & He2)];
    [lia | lia | by exists 0%N |].
  cbn [to_u64]. destruct e' as [|k|k]; [lia|lia|].
  assert (N.pos m' / 2 ^ N.pos k <= N.pos m')%N as Hq by (apply N.Div0.div_le_upper_bound; nia).
  rewrite (proj2 (N.ltb_ge _ _)); [by eexists|]. unfold u64_max. lia.
Qed.
