(* ===== verification/Population.v ===== *)
(** * The seeded population

    [generate_synthetic_population] ends, whatever the seed, with the number of
    flows asked for; and as long as the ticks and the work of the workload stay
    below the structural bounds, the scheduler admits every one of them. *)

From S2P Require Import Prelude Checked Bytes Hash Model Schedule Codec Journal State.
From S2P Require Import Transitions Arbitrate Operations Recovery Observe Commandline Coordinator.
From S2P Require Import Bench Invariants Random Doubles.
From Stdlib Require Import SpecFloat.

(** ** Draws *)

(** Turns enough for every loop of the generator. *)
Definition enough (draws : nat) : Prop := kScale < N.of_nat draws.

Lemma wrap64_small x : x < u64_mod -> wrap64 x = x.
Proof. apply N.mod_small. Qed.

Lemma guard_err_intro {E A} (c : bool) (e : E) (k : Result E A) a :
  c = false -> k = Ok a -> guard_err c e k = Ok a.
Proof. by intros ->. Qed.

(** A test that can only fail on a deadline out of place. *)
Ltac pass_deadline H :=
  apply andb_false_iff; destruct H as [H|[? ?]];
  [left; exact H | right; first [apply N.ltb_ge | apply N.leb_gt]; done].

Section Draws.
Context (draws : nat) (Hdraws : enough draws).

Lemma next_below_some bound state :
  0 < bound <= kScale -> state < u64_mod ->
  exists state' v, rng_next_below draws bound state = Some (state', v) /\
    state' < u64_mod /\ v < bound.
Proof.
  intros [H1 H2] Hs. unfold enough, kScale in *.
  destruct (rng_next_below_ok draws bound state) as (s' & v & H & Hs' & Hv & _);
    [unfold u64_max; lia | done | lia |].
  exists s', v. auto.
Qed.

Lemma next_bool_some x state :
  valid_binary 53 1024 x = true -> in_unit_range x = true -> state < u64_mod ->
  exists state' b, rng_next_bool draws x state = Some (state', b) /\ state' < u64_mod.
Proof.
  intros Hv Hu Hs. unfold rng_next_bool. destruct (SFleb x dzero) eqn:H0; [by eauto|].
  destruct (SFleb done1 x) eqn:H1; [by eauto|].
  destruct (scaled_probability_defined x Hv Hu H0 H1) as [n ->].
  destruct (next_below_some kScale state) as (s' & v & -> & Hs' & _); [done|done|].
  cbn. by eauto.
Qed.

(** ** One flow *)

(** What [validate_parameters] guarantees. *)
Record valid (p : BenchmarkParameters) : Prop := {
  va_flows : 0 < bp_flow_count p <= kMaxFlows;
  va_classes : 0 < bp_priority_classes p <= kMaxPriorityClasses;
  va_groups : 0 < bp_fairness_groups p <= kMaxFlows;
  va_deadline : in_unit_range (bp_deadline_density p) = true;
  va_dependency : in_unit_range (bp_dependency_density p) = true;
  va_concurrency : 0 < bp_concurrency p <= kMaxServiceUnits;
  va_capacity : 0 < bp_capacity_per_interval p <= kMaxServiceUnits;
  va_interval : 0 < bp_interval_ticks p <= kMaxTickHorizon;
  va_quantum : 0 < bp_service_quantum p <= kMaxQuantum;
  va_work : 0 < bp_estimated_work p <= kMaxServiceUnits }.

Lemma validated p : validate_parameters p = Ok tt -> valid p.
Proof.
  intros H. unfold validate_parameters in H. peel_guards H.
  repeat match goal with H : orb _ _ = false |- _ => apply orb_false_iff in H as [?%N.eqb_neq ?%N.ltb_ge] end.
  repeat match goal with H : negb _ = false |- _ => apply negb_false_iff in H end.
  split; done || lia.
Qed.

(** The densities are binary64 values. *)
Definition binary64 (p : BenchmarkParameters) : Prop :=
  valid_binary 53 1024 (bp_deadline_density p) = true /\
  valid_binary 53 1024 (bp_dependency_density p) = true.

(** The workload stays below the structural bounds. *)
Record fits (p : BenchmarkParameters) : Prop := {
  ft_ticks : 16 * bp_flow_count p * bp_interval_ticks p <= kMaxTickHorizon;
  ft_work : 4 * bp_estimated_work p <= kMaxServiceUnits }.

Context (p : BenchmarkParameters) (Hp : valid p) (Hbin : binary64 p).

Lemma service_intervals_bound : 0 < service_intervals p <= 8 * bp_flow_count p.
Proof.
  destruct Hp. unfold service_intervals, mul64. cbv zeta.
  rewrite wrap64_small by (unfold kMaxFlows, u64_mod in *; lia).
  assert (0 < dispatches_per_interval p) as Hd.
  { unfold dispatches_per_interval. generalize (bp_capacity_per_interval p / bp_service_quantum p).
    intros n. destruct (N.eqb_spec n 0); lia. }
  assert (bp_flow_count p * 8 / dispatches_per_interval p <= bp_flow_count p * 8)
    as H by (apply N.Div0.div_le_upper_bound; nia).
  revert H. generalize (bp_flow_count p * 8 / dispatches_per_interval p). intros n Hn.
  destruct (N.eqb_spec n 0); lia.
Qed.

Lemma saturating_mul_exact a b : a * b <= u64_max -> saturating_mul a b = a * b.
Proof.
  intros H. unfold saturating_mul. destruct (N.eqb_spec a 0) as [->|Ha]; [done|].
  destruct (N.eqb_spec b 0) as [->|Hb]; cbn [orb]; [lia|].
  rewrite (proj2 (N.ltb_ge _ _)) by (apply N.div_le_lower_bound; lia).
  apply wrap64_small. unfold u64_max, u64_mod in *. lia.
Qed.

Lemma sub64_exact a b : b <= a < u64_mod -> sub64 a b = a - b.
Proof.
  intros H. unfold sub64, wrap64. replace (a + (u64_mod - b)) with (a - b + 1 * u64_mod) by lia.
  rewrite N.Div0.mod_add. apply N.mod_small. lia.
Qed.

(** A deadline is none, or after the release and within the horizon. *)
Definition proper_deadline (release deadline : Ticks) : Prop :=
  deadline = kNoDeadline \/ release < deadline <= kMaxTickHorizon.

Lemma draw_deadline_some release state :
  state < u64_mod ->
  exists state' d, draw_deadline draws p release state = Some (state', d) /\ state' < u64_mod /\
    (fits p -> release <= kMaxTickHorizon -> proper_deadline release d).
Proof.
  intros Hs. unfold draw_deadline. pose proof service_intervals_bound as Hi. destruct Hp.
  destruct (next_bool_some (bp_deadline_density p) state) as (s1 & c & -> & Hs1);
    [apply Hbin | done | done |]. cbn [mbind option_bind].
  destruct c; [|exists s1, kNoDeadline; split_and!; [done..|by left]].
  assert (add64 (service_intervals p) 1 = service_intervals p + 1) as ->
    by (apply wrap64_small; unfold kMaxFlows, u64_mod in *; lia).
  destruct (next_below_some (service_intervals p + 1) s1) as (s2 & x & -> & Hs2 & Hx);
    [unfold kMaxFlows, kScale in *; lia | done |]. cbn [mbind option_bind].
  eexists s2, _. split; [reflexivity|]. split; [done|]. intros [Ht _] Hr.
  assert (add64 (service_intervals p) x = service_intervals p + x) as ->
    by (apply wrap64_small; unfold kMaxFlows, u64_mod in *; lia).
  set (n := service_intervals p + x) in *.
  assert (n * bp_interval_ticks p <= kMaxTickHorizon) as Hn by nia.
  rewrite saturating_mul_exact by (unfold kMaxTickHorizon, u64_max in *; lia).
  rewrite sub64_exact by (unfold kMaxTickHorizon, u64_mod in *; lia).
  unfold proper_deadline, add64.
  destruct (N.ltb_spec (kMaxTickHorizon - n * bp_interval_ticks p) release) as [H1|H1].
  - destruct (N.ltb_spec release kMaxTickHorizon); [right | left]; lia || done.
  - rewrite wrap64_small by (unfold kMaxTickHorizon, u64_mod in *; lia).
    destruct (N.ltb_spec release (release + n * bp_interval_ticks p)); [right | left]; lia || done.
Qed.

(** What the draws of flow [index] fix. *)
Record drawn (index : N) (f : SyntheticFlow) : Prop := {
  dr_flow : sf_flow f = index + 1;
  dr_generations : sf_generation f = 1 /\ sf_resource f = 1 /\ sf_resource_generation f = 1 /\
    sf_priority_generation f = 1 /\ sf_qos f = 1 /\ sf_qos_generation f = 1;
  dr_priority : 1 <= sf_priority f <= bp_priority_classes p;
  dr_group : 1 <= sf_fairness_group f <= bp_fairness_groups p;
  dr_weight : 1 <= sf_weight f <= 4;
  dr_quantum : sf_service_quantum f = bp_service_quantum p;
  dr_dependency : sf_has_dependency f = true -> 0 < index /\ sf_dependency f = index;
  dr_work : fits p -> 1 <= sf_estimated_work f <= kMaxServiceUnits;
  dr_release : fits p -> sf_release_tick f <= kMaxTickHorizon;
  dr_deadline : fits p -> proper_deadline (sf_release_tick f) (sf_deadline_tick f) }.

Lemma release_bound index :
  fits p -> index < bp_flow_count p ->
  mul64 (index / bp_concurrency p) (bp_interval_ticks p) <= kMaxTickHorizon.
Proof.
  intros [Ht _] Hi. destruct Hp.
  assert (index / bp_concurrency p <= index) by (apply N.Div0.div_le_upper_bound; nia).
  unfold mul64. rewrite wrap64_small; [nia|]. unfold kMaxTickHorizon, u64_mod in *. nia.
Qed.

Lemma add64_small a b : a + b < u64_mod -> add64 a b = a + b.
Proof. apply wrap64_small. Qed.

Lemma draw_flow_some index state :
  index < bp_flow_count p -> state < u64_mod ->
  exists state' f, draw_flow draws p index state = Some (state', f) /\ state' < u64_mod /\
    drawn index f.
Proof.
  intros Hi Hs. pose proof (release_bound index) as Hrel. destruct Hp. unfold draw_flow.
  rewrite (proj2 (N.eqb_neq (bp_concurrency p) 0)) by lia. cbv zeta.
  destruct (next_below_some (bp_priority_classes p) state) as (s1 & pr & -> & Hs1 & Hpr);
    [unfold kMaxPriorityClasses, kScale in *; lia | done |]. cbn [mbind option_bind].
  destruct (next_below_some (bp_fairness_groups p) s1) as (s2 & gr & -> & Hs2 & Hgr);
    [unfold kMaxFlows, kScale in *; lia | done |]. cbn [mbind option_bind].
  set (release := mul64 (index / bp_concurrency p) (bp_interval_ticks p)) in *.
  destruct (draw_deadline_some release s2 Hs2) as (s3 & d & -> & Hs3 & Hd). cbn [mbind option_bind].
  destruct (next_below_some 4 s3) as (s4 & wk & -> & Hs4 & Hwk); [done..|]. cbn [mbind option_bind].
  destruct (next_below_some 4 s4) as (s5 & wt & -> & Hs5 & Hwt); [done..|]. cbn [mbind option_bind].
  assert (exists s6 dep, (if 0 <? index then rng_next_bool draws (bp_dependency_density p) s5
    else Some (s5, false)) = Some (s6, dep) /\ s6 < u64_mod /\ (dep = true -> 0 < index))
    as (s6 & dep & -> & Hs6 & Hdep).
  { destruct (N.ltb_spec 0 index) as [H0|H0]; [|by eexists s5, false].
    destruct (next_bool_some (bp_dependency_density p) s5) as (s6 & dep & -> & Hs6);
      [apply Hbin | done | done |]. by eauto 10. }
  cbn [mbind option_bind]. eexists s6, _. split; [reflexivity|]. split; [done|].
  unfold kMaxFlows, kMaxPriorityClasses in *.
  rewrite !add64_small by (unfold u64_mod; lia).
  split; cbn; try done; try lia.
  - intros Hdt. specialize (Hdep Hdt). by subst dep.
  - intros [_ Hw]. unfold mul64. unfold kMaxServiceUnits in *.
    rewrite wrap64_small; [nia | unfold u64_mod; nia].
  - intros Hf. by apply Hrel.
  - intros Hf. by apply Hd; [|apply Hrel].
Qed.

Lemma draw_flows_some count index state :
  index + N.of_nat count <= bp_flow_count p -> state < u64_mod ->
  exists fs, draw_flows draws p count index state = Some fs /\ length fs = count /\
    forall i f, fs !! i = Some f -> drawn (index + N.of_nat i) f.
Proof.
  revert index state. induction count as [|count IH]; intros index state Hc Hs; cbn [draw_flows].
  { by exists []. }
  destruct (draw_flow_some index state) as (s1 & f & -> & Hs1 & Hf); [lia|done|].
  cbn [mbind option_bind]. destruct (IH (index + 1) s1) as (fs & -> & Hl & Hfs); [lia|done|].
  cbn [mbind option_bind]. exists (f :: fs). split; [done|]. split; [by cbn; f_equal|].
  intros [|i] g Hg; cbn in Hg.
  - injection Hg as <-. by rewrite N.add_0_r.
  - specialize (Hfs i g Hg). by replace (index + N.of_nat (S i)) with (index + 1 + N.of_nat i) by lia.
Qed.

Lemma admissible index f :
  fits p -> index < bp_flow_count p -> drawn index f -> validate_flow (bench_flow f) = Ok tt.
Proof.
  intros Hf Hi []. destruct dr_generations0 as (E1 & E2 & E3 & E4 & E5 & E6).
  specialize (dr_work0 Hf). specialize (dr_release0 Hf). specialize (dr_deadline0 Hf).
  destruct Hp. unfold validate_flow, bench_flow, bound, id_valid, unbound_binding.
  cbn [fd_flow fd_generation fd_path fd_resource fd_reservation fd_priority fd_qos
    fd_fairness_group fd_estimated_work fd_service_quantum fd_min_service fd_min_service_window
    fd_release_tick fd_deadline_tick fd_weight fd_readiness_signal fd_dependencies fd_provenance
    bd_id bd_generation].
  rewrite E1, E2, E3, E4, E5, E6, dr_flow0, dr_quantum0.
  repeat match goal with
    | |- context [N.eqb ?a 0] => rewrite (proj2 (N.eqb_neq a 0)) by lia
    end.
  assert (has_deadline (sf_deadline_tick f) = false \/
    sf_release_tick f < sf_deadline_tick f <= kMaxTickHorizon) as Hd.
  { destruct dr_deadline0 as [->|?]; [left | by right]. done. }
  repeat (apply guard_err_intro; [first [reflexivity | pass_deadline Hd |
    cbn [orb]; apply N.ltb_ge; unfold kMaxServiceUnits in *; lia]|]).
  destruct (sf_has_dependency f).
  2:{ repeat (apply guard_err_intro; [reflexivity|]). done. }
  destruct dr_dependency0 as [H0 ->]; [done|].
  repeat (apply guard_err_intro; [try reflexivity|]); [..|done].
  - apply bool_decide_eq_false_2. intros H. unfold sort_ids in H.
    rewrite merge_sort_Permutation in H. apply list_elem_of_singleton in H. lia.
  - cbn. by rewrite (proj2 (N.eqb_neq index 0)) by lia.
Qed.
End Draws.

Lemma population_drawn draws p :
  enough draws -> validate_parameters p = Ok tt -> binary64 p ->
  exists population, generate_synthetic_population draws p = Some (Ok population) /\
    length population = N.to_nat (bp_flow_count p) /\
    forall i f, population !! i = Some f -> drawn p (N.of_nat i) f.
Proof.
  intros Hd Hv Hb. unfold generate_synthetic_population. rewrite Hv.
  destruct (draw_flows_some draws Hd p (validated p Hv) Hb (N.to_nat (bp_flow_count p)) 0
    (mix64 (bp_seed p))) as (fs & -> & Hl & Hf); [lia | apply mix64_bound |].
  cbn [mbind option_bind]. exists fs. split_and!; [done..|]. intros i f Hi. by apply Hf.
Qed.

(** ** The scheduler admits it *)

(** A method that succeeds. *)
Definition succeeds {St A} (m : M ErrorCode St A) (Q : St -> Prop) (s : St) : Prop :=
  wp m (fun _ => Q) (fun _ _ => False) s.

Lemma succeeds_each {St A} (f : A -> M ErrorCode St unit) (I : nat -> St -> Prop) l k s :
  (forall i x s, l !! i = Some x -> I (k + i)%nat s -> succeeds (f x) (I (S (k + i))) s) ->
  I k s -> succeeds (each f l) (I (k + length l)%nat) s.
Proof.
  revert k s. induction l as [|x l IH]; intros k s Hf HI; unfold succeeds, each; cbn [foldr length].
  { wp_step. by rewrite Nat.add_0_r. }
  wp_step. eapply (wp_conseq (fun _ => I (S k)) (fun _ _ => False)); [| |done].
  - specialize (Hf 0%nat x s eq_refl). rewrite Nat.add_0_r in Hf. by apply Hf.
  - intros [] s' Hs'. replace (k + S (length l))%nat with (S k + length l)%nat by lia.
    apply IH; [|done]. intros i y s2 Hy. specialize (Hf (S i) y s2 Hy).
    by rewrite Nat.add_succ_r in Hf.
Qed.

Lemma succeeds_bind {St A B} (m : M ErrorCode St A) (k : A -> M ErrorCode St B) P Q s :
  succeeds m P s -> (forall a s', P s' -> succeeds (k a) Q s') -> succeeds (bind m k) Q s.
Proof.
  intros Hm Hk. unfold succeeds. wp_step. eapply wp_conseq; [exact Hm| |done].
  intros a s' Hs'. by apply Hk.
Qed.

Lemma journal_volatile t ops im : im_store im = None -> journal t ops im = (im, Ok tt).
Proof. intros H. unfold journal. by rewrite H. Qed.

(** The first [n] positive numbers: the identities a table holds. *)
Definition first_ids (n : nat) : gset N := list_to_set (N.of_nat <$> seq 1 n).

Lemma elem_of_first_ids n k : k ∈ first_ids n <-> 1 <= k <= N.of_nat n.
Proof.
  unfold first_ids. rewrite elem_of_list_to_set, list_elem_of_fmap. split.
  - intros (i & -> & Hi%elem_of_seq). lia.
  - intros H. exists (N.to_nat k). rewrite elem_of_seq. lia.
Qed.

Lemma first_ids_S n : first_ids (S n) = {[ N.of_nat n + 1 ]} ∪ first_ids n.
Proof.
  apply set_eq. intros k. rewrite elem_of_union, elem_of_singleton, !elem_of_first_ids. lia.
Qed.

Lemma size_first_ids n : size (first_ids n) = n.
Proof.
  unfold first_ids. rewrite size_list_to_set; [by rewrite length_fmap, length_seq|].
  apply NoDup_fmap_2_strong; [lia | apply NoDup_seq].
Qed.

(** The scheduler after the resource, [classes] priority classes, the QoS class
    if [qos], and [flows] flows. *)
Record set_up (p : BenchmarkParameters) (classes : nat) (qos : bool) (flows : nat) (im : Impl)
  : Prop := {
  su_store : im_store im = None;
  su_policy : im_policy im = bench_policy p;
  su_resource : check_resource im 1 1 = Ok tt;
  su_classes : dom (im_priority_classes im) = first_ids classes;
  su_generation : map_Forall (fun _ c => pc_generation c = 1) (im_priority_classes im);
  su_qos : if qos then exists q, im_qos_classes im !! 1 = Some q /\ qc_generation q = 1
           else im_qos_classes im = ∅;
  su_flows : dom (im_flows im) = first_ids flows }.

Section Setup.
Context (p : BenchmarkParameters) (Hp : valid p) (Hfits : fits p).

Lemma bench_policy_valid : validate_policy (bench_policy p) = Ok tt.
Proof.
  destruct Hp, Hfits.
  assert (forall k, k <= 16 -> mul64 (bp_interval_ticks p) k = bp_interval_ticks p * k) as Hk.
  { intros k ?. apply wrap64_small. unfold kMaxTickHorizon, u64_mod in *. nia. }
  unfold validate_policy, bench_policy. cbv zeta. upd_simpl.
  cbn [po_policy po_generation po_max_flows po_max_resources po_max_reservations
    po_max_entries_per_schedule po_max_quantum po_default_max_overlap po_starvation_bound_ticks
    po_deadline_urgency_ticks po_min_preempt_service po_preemption_interval_ticks
    po_max_preemptions_per_interval po_dispatch_delivery_horizon po_retained_schedule_history].
  rewrite !Hk by lia.
  repeat (apply guard_err_intro; [first [reflexivity |
    apply orb_false_iff; split; [apply N.eqb_neq; nia | apply N.ltb_ge; nia] |
    apply N.ltb_ge; nia]|]).
  reflexivity.
Qed.

Lemma succeeds_resource im :
  im = (initial_impl (bench_policy p)) <| im_epoch := 1 |> ->
  succeeds (register_resource (bench_resource p)) (set_up p 0 false 0) im.
Proof.
  intros ->. unfold succeeds, register_resource, wp, bind, lift.
  assert (validate_resource (bench_resource p) = Ok tt) as ->.
  { destruct Hp. unfold validate_resource, bench_resource. cbn [rd_resource rd_generation rd_capacity
      rd_interval rd_max_overlap rd_provenance].
    repeat (apply guard_err_intro; [first [reflexivity |
      apply orb_false_iff; split; [apply N.eqb_neq; lia | apply N.ltb_ge; lia]]|]).
    reflexivity. }
  cbn. by split.
Qed.

Lemma succeeds_class i im :
  (i < N.to_nat (bp_priority_classes p))%nat -> set_up p i false 0 im ->
  succeeds (register_priority_class (bench_priority (N.of_nat i))) (set_up p (S i) false 0) im.
Proof.
  intros Hi [H1 H2 H3 H4 H5 H6 H7]. destruct Hp. unfold kMaxPriorityClasses in *.
  unfold succeeds, register_priority_class. do 2 wp_step.
  assert (add64 (N.of_nat i) 1 = N.of_nat i + 1) as E1 by (apply wrap64_small; unfold u64_mod; lia).
  assert (add64 1 (N.of_nat i) = 1 + N.of_nat i) as E2 by (apply wrap64_small; unfold u64_mod; lia).
  unfold bench_priority. rewrite E1, E2. unfold validate_priority_class, id_valid.
  cbn [pc_priority pc_generation pc_weight pc_provenance].
  rewrite !(proj2 (N.eqb_neq _ 0)) by lia. cbn [negb guard_err orb].
  rewrite (proj2 (N.ltb_ge _ _)) by (unfold kMaxServiceUnits; lia). cbn [guard_err negb established].
  change (established (synthetic_provenance (N.of_nat i + 1))) with true. cbn [negb guard_err].
  do 4 wp_step.
  assert (im_priority_classes im !! (N.of_nat i + 1) = None) as Hn.
  { apply not_elem_of_dom. rewrite H4, elem_of_first_ids. lia. }
  rewrite Hn. cbn [fmap option_fmap option_map check_generation].
  unfold map_size. rewrite <- size_dom, H4, size_first_ids.
  rewrite (proj2 (N.leb_gt _ _)) by (unfold kMaxPriorityClasses; lia). cbn [guard_err N.eqb negb Pos.eqb].
  wp_step. unfold wp at 1. rewrite journal_volatile by done. wp_step.
  unfold apply_priority_class. split; upd_simpl; try done.
  - cbn [pc_priority]. by rewrite dom_insert_L, H4, first_ids_S.
  - by apply map_Forall_insert_2.
Qed.

Lemma succeeds_qos n im :
  set_up p n false 0 im -> succeeds (register_qos_class bench_qos) (set_up p n true 0) im.
Proof.
  intros [H1 H2 H3 H4 H5 H6 H7]. cbv iota in H6. unfold succeeds, register_qos_class.
  do 2 wp_step. change (validate_qos_class bench_qos) with (Ok (E := ErrorCode) tt).
  cbv iota. do 4 wp_step. rewrite H6.
  change (check_generation _ _ _ _) with (Ok (E := ErrorCode) tt). cbv iota. wp_step. unfold wp at 1. rewrite journal_volatile by done. wp_step.
  unfold apply_qos_class. split; upd_simpl; try done. rewrite H6. by eexists.
Qed.

Lemma succeeds_admit i f im :
  (i < N.to_nat (bp_flow_count p))%nat -> drawn p (N.of_nat i) f ->
  set_up p (N.to_nat (bp_priority_classes p)) true i im ->
  succeeds (admit_flow (bench_flow f))
    (set_up p (N.to_nat (bp_priority_classes p)) true (S i)) im.
Proof.
  intros Hi Hf [H1 H2 H3 H4 H5 (q & H6 & H6') H7].
  pose proof (admissible p Hp (N.of_nat i) f Hfits ltac:(lia) Hf) as Ha.
  destruct Hf. destruct dr_generations0 as (E1 & E2 & E3 & E4 & E5 & E6). destruct Hp.
  unfold succeeds, admit_flow. do 2 wp_step. rewrite Ha. do 4 wp_step.
  assert (im_flows im !! sf_flow f = None) as Hn.
  { apply not_elem_of_dom. rewrite H7, elem_of_first_ids. lia. }
  assert (sf_priority f ∈ dom (im_priority_classes im)) as [c Hc]%elem_of_dom
    by (rewrite H4, elem_of_first_ids; lia).
  assert (check_bindings im (bench_flow f) = Ok tt) as ->.
  { unfold check_bindings, bench_flow. cbn [fd_flow fd_resource fd_priority fd_qos fd_reservation
      bd_id bd_generation]. rewrite Hn, E2, E3, E4, E5, E6, H3, H6, Hc. cbn [result_bind].
    by rewrite (H5 _ _ Hc), H6'. }
  wp_step. unfold wp at 1. rewrite journal_volatile by done. unfold wp, apply_admit.
  change (fd_flow (bench_flow f)) with (sf_flow f). rewrite Hn, H2, <- size_dom, H7, size_first_ids.
  change (po_max_flows (bench_policy p)) with kMaxFlows.
  rewrite (proj2 (N.leb_gt _ _)) by lia. cbn [andb]. split; upd_simpl; try done.
  - by exists q.
  - by rewrite dom_insert_L, H7, first_ids_S, dr_flow0.
Qed.

Lemma succeeds_topology population im :
  im = (initial_impl (bench_policy p)) <| im_epoch := 1 |> ->
  length population = N.to_nat (bp_flow_count p) ->
  (forall i f, population !! i = Some f -> drawn p (N.of_nat i) f) ->
  succeeds (bench_topology p population)
    (set_up p (N.to_nat (bp_priority_classes p)) true (N.to_nat (bp_flow_count p))) im.
Proof.
  intros Him Hl Hdr. unfold bench_topology.
  eapply succeeds_bind; [by apply succeeds_resource|]. intros [] im1 H1.
  eapply succeeds_bind.
  { apply (succeeds_each _ (fun k => set_up p k false 0) _ 0 im1); [|done].
    intros i x im2 Hx H2. unfold indices in Hx. apply list_lookup_fmap_Some in Hx as (j & -> & Hj).
    apply lookup_seq in Hj as [-> Hj]. by apply succeeds_class. }
  intros [] im2 H2. unfold indices in H2. rewrite length_fmap, length_seq in H2.
  eapply succeeds_bind; [by apply succeeds_qos|]. intros [] im3 H3. rewrite <- Hl.
  apply (succeeds_each _ (fun k => set_up p _ true k) population 0); [|done].
  intros i f im4 Hf H4. apply succeeds_admit; [|by apply Hdr|done].
  apply lookup_lt_Some in Hf. lia.
Qed.
End Setup.

(** ** The rounds are bounded *)

Lemma poll_rounds admitted dispatches report r :
  ro_rounds (poll admitted dispatches report r).1 = ro_rounds r.
Proof. unfold poll. cbv zeta. by repeat case_match. Qed.

Lemma bench_round_rounds p r :
  forall b, wp (bench_round p r) (fun r' _ => ro_rounds r'.1 <= ro_rounds r + 1) (fun _ _ => True) b.
Proof.
  intros b. unfold bench_round. cbv zeta. wp_step.
  assert (incr64 (ro_rounds r) <= ro_rounds r + 1) as Hi by apply N.Div0.mod_le.
  unfold wp at 1. destruct (on_bench _ b) as [b1 [o|e]]; [|done]. wp_step.
  unfold wp at 1. destruct (each _ _ b1) as [b2 [[]|e]]; [|done].
  destruct (negb _); [wp_step; exact Hi|]. do 3 wp_step. by rewrite poll_rounds.
Qed.

Lemma bench_rounds_bounded p turns r b :
  wp (bench_rounds p turns r) (fun r' _ => ro_rounds r' <= ro_rounds r + N.of_nat turns)
    (fun _ _ => True) b.
Proof.
  revert r b. induction turns as [|turns IH]; intros r b; cbn [bench_rounds]; wp_step; cbv beta; [lia|].
  eapply wp_conseq; [apply bench_round_rounds| |done]. intros [r' again] b' Hr. cbn [fst] in Hr.
  destruct again; [|wp_step; cbv beta; lia]. eapply wp_conseq; [apply IH| |done]. intros r2 b2 H2. cbv beta in *. lia.
Qed.

Lemma measure_rounds p population wall b :
  wp (measure p population wall) (fun r _ => br_arbitration_rounds r <= bp_max_rounds p)
    (fun _ _ => True) b.
Proof.
  unfold measure. wp_step. unfold wp at 1. destruct (on_bench _ b) as [b1 [[]|]]; [|done].
  wp_step. eapply wp_conseq; [apply bench_rounds_bounded| |done]. intros r b2 Hr.
  do 4 wp_step. destruct (validate_report _); [|done]. wp_step.
  cbn [br_arbitration_rounds bench_result]. cbn [ro_rounds] in Hr. lia.
Qed.

(** ** Properties *)

(** C30 A benchmark run ends whatever the seed, the files it finds and
    the workload, also one that never converges: 2^32 + 1 turns are enough for
    every rejection loop of the generator, every scaled probability fits the
    integer it is converted to, and at most [max_rounds] rounds are played. *)
Theorem benchmark_terminates (draws : nat) (p : BenchmarkParameters) (dir : StateDirectory)
  (wall_seconds : spec_float) (Hdraws : enough draws) (Hbin : binary64 p) :
  exists left result, run_synthetic_benchmark draws p dir wall_seconds = Some (left, result) /\
    match result with
    | Ok r => br_arbitration_rounds r <= bp_max_rounds p
    | Err _ => True
    end.
Proof.
  unfold run_synthetic_benchmark. destruct (validate_parameters p) as [[]|e] eqn:Hv; [|by eexists _, _].
  destruct (population_drawn draws p Hdraws Hv Hbin) as (population & -> & _).
  cbn [mbind option_bind]. destruct (bench_create p dir) as [im|]; [|by eexists _, _].
  pose proof (measure_rounds p population wall_seconds (mkBench im 0 0 [] 0)) as W. unfold wp in W.
  destruct (measure _ _ _ _) as [b [r|e]]; by eexists _, _.
Qed.

Lemma benchmark_terminates_witness :
  exists left result,
    run_synthetic_benchmark (N.to_nat 4294967297) default_parameters (mkStateDirectory [] None [])
      done1 = Some (left, result).
Proof.
  destruct (benchmark_terminates (N.to_nat 4294967297) default_parameters
    (mkStateDirectory [] None []) done1) as (l & r & H & _).
  - unfold enough. rewrite N2Nat.id. reflexivity.
  - split; vm_compute; reflexivity.
  - exists l, r. exact H.
Defined.

(** C29 Within the structural bounds the workload is one the scheduler
    takes: the generated population has the number of flows asked for, numbered
    from one, each depending at most on its predecessor and with no deadline or
    one after its release within the tick horizon; the policy derived from the
    parameters is valid, and registering the topology and admitting every flow
    succeeds, leaving exactly those flows. *)
Theorem population_admitted (draws : nat) (p : BenchmarkParameters) (dir : StateDirectory)
  (Hdraws : enough draws) (Hvalid : validate_parameters p = Ok tt) (Hbin : binary64 p)
  (Hfits : fits p) (Hvolatile : bp_durable p = false) :
  exists population im im',
    generate_synthetic_population draws p = Some (Ok population) /\
    N.of_nat (length population) = bp_flow_count p /\
    (forall i f, population !! i = Some f ->
       sf_flow f = N.of_nat i + 1 /\
       (sf_has_dependency f = true -> 0 < N.of_nat i /\ sf_dependency f = N.of_nat i) /\
       proper_deadline (sf_release_tick f) (sf_deadline_tick f)) /\
    bench_create p dir = Ok im /\ bench_topology p population im = (im', Ok tt) /\
    forall f, is_Some (im_flows im' !! f) <-> 1 <= f <= bp_flow_count p.
Proof.
  destruct (population_drawn draws p Hdraws Hvalid Hbin) as (population & Hg & Hl & Hd).
  pose proof (validated p Hvalid) as Hp.
  pose proof (succeeds_topology p Hp Hfits population _ eq_refl Hl Hd) as Hs.
  unfold succeeds, wp in Hs. destruct (bench_topology p population _) as [im' [[]|e]] eqn:Ht; [|done].
  eexists population, _, im'. split_and!; [done | lia | | | exact Ht |].
  - intros i f Hi. destruct (Hd i f Hi). auto.
  - unfold bench_create, create_volatile. by rewrite Hvolatile, (bench_policy_valid p Hp Hfits).
  - intros f. rewrite <- elem_of_dom, (su_flows _ _ _ _ _ Hs), elem_of_first_ids. lia.
Qed.

Lemma population_admitted_witness :
  exists population im im',
    generate_synthetic_population (N.to_nat 4294967297) default_parameters = Some (Ok population) /\
    bench_create default_parameters (mkStateDirectory [] None []) = Ok im /\
    bench_topology default_parameters population im = (im', Ok tt).
Proof.
  destruct (population_admitted (N.to_nat 4294967297) default_parameters
    (mkStateDirectory [] None [])) as (population & im & im' & H1 & _ & _ & H2 & H3 & _).
  - unfold enough. rewrite N2Nat.id. reflexivity.
  - vm_compute. reflexivity.
  - split; vm_compute; reflexivity.
  - split; vm_compute; discriminate.
  - reflexivity.
  - exists population, im, im'. auto.
Defined.

(** The bound is needed: an interval of the whole tick horizon is accepted by
    [validate_parameters], but sixteen of them wrap to a starvation bound of zero,
    and the derived policy is refused. *)
Definition widest : BenchmarkParameters :=
  default_parameters <| bp_interval_ticks := kMaxTickHorizon |>.

Example accepted_parameters_refused :
  validate_parameters widest = Ok tt /\ po_starvation_bound_ticks (bench_policy widest) = 0 /\
  bench_create widest (mkStateDirectory [] None []) = Err OutOfRange.
Proof. vm_compute. auto. Qed.
