(* ===== verification/Ledger.v ===== *)
(** * The accounting report adds up

    [accounting] counts the flows by lifecycle and the attempts by state, each
    count by its own walk over its table in 64-bit arithmetic.  The counts
    partition the tables, whatever state they are in. *)

From S2P Require Import Prelude Checked Bytes Hash Model Schedule Codec Journal State Transitions.
From S2P Require Import Arbitrate Operations.

Section Tally.
Context {A : Type}.

(** How many elements satisfy [p], without a width. *)
Definition tally (p : A -> bool) (l : list A) : N :=
  N.of_nat (length (filter (fun x => p x = true) l)).

Lemma tally_cons p x l : tally p (x :: l) = (if p x then 1 else 0) + tally p l.
Proof. unfold tally. rewrite filter_cons. destruct (p x); case_decide; cbn [length]; (lia || done). Qed.

Lemma tally_all l : tally (fun _ => true) l = N.of_nat (length l).
Proof. induction l as [|x l IH]; [done|]. rewrite tally_cons, IH. cbn [length]. lia. Qed.

(** A counter that wraps counts modulo 2^64. *)
Lemma foldl_tally (p : A -> bool) l n :
  foldl (fun n x => if p x then incr64 n else n) (wrap64 n) l = wrap64 (n + tally p l).
Proof.
  revert n. induction l as [|x l IH]; intros n; cbn [foldl].
  - unfold tally. cbn. by rewrite N.add_0_r.
  - rewrite tally_cons. destruct (p x).
    + assert (incr64 (wrap64 n) = wrap64 (n + 1)) as ->.
      { unfold incr64, wrap64. by rewrite N.Div0.add_mod_idemp_l. }
      rewrite IH. f_equal. lia.
    + rewrite IH. f_equal; lia.
Qed.

(** [k] sorts every element under exactly one of [keys]. *)
Lemma tally_partition {K} `{!EqDecision K} (k : A -> K) (keys : list K) l :
  NoDup keys -> (forall x, k x ∈ keys) ->
  foldr N.add 0 ((fun c => tally (fun x => bool_decide (k x = c)) l) <$> keys) =
  N.of_nat (length l).
Proof.
  intros Hnd Hall. induction l as [|x l IH].
  - clear. induction keys as [|c keys IH]; cbn; [done|]. by rewrite IH.
  - assert (forall L : list K, NoDup L ->
      foldr N.add 0 ((fun c => tally (fun y => bool_decide (k y = c)) (x :: l)) <$> L) =
      (if bool_decide (k x ∈ L) then 1 else 0) +
      foldr N.add 0 ((fun c => tally (fun y => bool_decide (k y = c)) l) <$> L)) as Hstep.
    { induction 1 as [|c L Hc HL IHL]; [done|]. rewrite !fmap_cons. cbn [foldr].
      rewrite IHL, tally_cons. repeat case_bool_decide; set_solver by lia. }
    rewrite (Hstep keys Hnd), IH, bool_decide_eq_true_2 by apply Hall. cbn [length]. lia.
Qed.
End Tally.

Lemma sum64_wrap l n : foldl add64 (wrap64 n) (wrap64 <$> l) = wrap64 (n + foldr N.add 0 l).
Proof.
  revert n. induction l as [|x l IH]; intros n; cbn [fmap list_fmap foldl foldr].
  - by rewrite N.add_0_r.
  - assert (add64 (wrap64 n) (wrap64 x) = wrap64 (n + x)) as ->.
    { unfold add64, wrap64. by rewrite <- N.Div0.add_mod. }
    rewrite IH. f_equal. lia.
Qed.

(** ** The two tables *)

Lemma count_tally {V} (p : V -> bool) (m : gmap N V) :
  foldl (fun n '(_, v) => if p v then incr64 n else n) 0 (map_entries m) =
  wrap64 (tally p (map_entries m).*2).
Proof.
  change 0 with (wrap64 0) at 1. rewrite <- (N.add_0_l (tally p _)), <- foldl_tally.
  generalize (wrap64 0). induction (map_entries m) as [|[k v] l IH]; intros n; [done|]. apply IH.
Qed.

Lemma count_all {V} (m : gmap N V) :
  foldl (fun n _ => incr64 n) 0 (map_entries m) = wrap64 (map_size m).
Proof.
  unfold map_size. rewrite <- length_map_entries, <- (length_fmap snd), <- tally_all, <- count_tally.
  generalize 0. induction (map_entries m) as [|[k v] l IH]; intros n; [done|]. apply IH.
Qed.

(** The counts under every key of [keys] add up to the size of the table. *)
Lemma counts_partition {V K} `{!EqDecision K} (k : V -> K) (keys : list K) (m : gmap N V) :
  NoDup keys -> (forall x, k x ∈ keys) ->
  sum64 ((fun c => foldl (fun n '(_, v) => if bool_decide (k v = c) then incr64 n else n) 0
                     (map_entries m)) <$> keys) = wrap64 (map_size m).
Proof.
  intros Hnd Hall. unfold map_size.
  rewrite <- length_map_entries, <- (length_fmap snd), <- (tally_partition k keys) by done.
  unfold sum64. change 0 with (wrap64 0) at 1.
  rewrite <- (N.add_0_l (foldr _ _ _)), <- sum64_wrap, <- list_fmap_compose. f_equal.
  apply list_fmap_ext. intros i c _. apply count_tally.
Qed.

Definition lifecycles : list FlowLifecycle :=
  [Waiting; Ready; Scheduled; Dispatched; Running; CompletionReported; Cancelling; Preempting;
   Completed; Cancelled; Failed; Ambiguous].
Definition attempt_states : list AttemptState :=
  [AOpen; AStarted; ACommitted; APreempted; ACancelled; AAbandoned; ARejected].

Lemma lifecycles_all : NoDup lifecycles /\ forall l, l ∈ lifecycles.
Proof.
  split; [by apply (bool_decide_unpack _)|]. intros l. apply (bool_decide_unpack _). by destruct l.
Qed.
Lemma attempt_states_all : NoDup attempt_states /\ forall s, s ∈ attempt_states.
Proof.
  split; [by apply (bool_decide_unpack _)|]. intros s. apply (bool_decide_unpack _). by destruct s.
Qed.

(** C27 The report balances.  In every state of the scheduler, the twelve
    lifecycle counts of [accounting] add up, in the 64-bit arithmetic of
    [AccountingReport::validate], to its number of flows and the seven attempt
    counts to its number of attempts, and these numbers are the sizes of the two
    tables: the first and the third check of [validate] never raise an alarm. *)
Theorem accounting_balanced (im : Impl) :
  let r := accounting im in
  sum64 [ar_waiting r; ar_ready r; ar_scheduled r; ar_dispatched r; ar_running r;
         ar_completion_reported r; ar_cancelling r; ar_preempting r; ar_completed r;
         ar_cancelled r; ar_failed r; ar_ambiguous r] = ar_total_flows r /\
  sum64 [ar_attempts_open r; ar_attempts_started r; ar_attempts_committed r;
         ar_attempts_preempted r; ar_attempts_cancelled r; ar_attempts_abandoned r;
         ar_attempts_rejected r] = ar_attempts_total r /\
  ar_total_flows r = wrap64 (map_size (im_flows im)) /\
  ar_attempts_total r = wrap64 (map_size (im_attempts im)).
Proof.
  pose proof (counts_partition fr_lifecycle lifecycles (im_flows im)
    (proj1 lifecycles_all) (fun rt => proj2 lifecycles_all _)) as Hf.
  pose proof (counts_partition at_state attempt_states (im_attempts im)
    (proj1 attempt_states_all) (fun a => proj2 attempt_states_all _)) as Ha.
  intros r. assert (ar_total_flows r = wrap64 (map_size (im_flows im))) as H1 by apply count_all.
  assert (ar_attempts_total r = wrap64 (map_size (im_attempts im))) as H2 by apply count_all.
  rewrite H1, H2. split; [exact Hf|]. by split; [exact Ha|].
Qed.
