(* ===== verification/Canon.v ===== *)
(** * The canonical form identifies a schedule

    [Schedule::canonical_form] renders a schedule as one line of
    space-separated fields.  The line can be read back field by field: a word
    holds no space, and every field is followed by a space or by the end. *)

From Stdlib Require Import Ascii.
From S2P Require Import Prelude Checked Bytes Hash Model Schedule State Transitions Arbitrate Operations.
From S2P Require Import Observe.

(** ** Words *)

Fixpoint spaceless (s : string) : bool :=
  match s with
  | EmptyString => true
  | String c s => negb (bool_decide (c = " "%char)) && spaceless s
  end.

(** What may follow a word. *)
Definition spaced (s : string) : Prop :=
  match s with
  | EmptyString => True
  | String c _ => c = " "%char
  end.

Lemma word_peel a b r r' :
  spaceless a = true -> spaceless b = true -> spaced r -> spaced r' ->
  a +:+ r = b +:+ r' -> a = b /\ r = r'.
Proof.
  revert b. induction a as [|c a IH]; intros [|d b] Ha Hb Hr Hr' H.
  - done.
  - exfalso. change (r = String d (b +:+ r')) in H. subst r. cbn in Hr, Hb. subst d. done.
  - exfalso. change (String c (a +:+ r) = r') in H. subst r'. cbn in Hr', Ha. subst c. done.
  - change (String c (a +:+ r) = String d (b +:+ r')) in H. injection H as -> H.
    cbn in Ha, Hb. apply andb_true_iff in Ha as [_ Ha], Hb as [_ Hb].
    by destruct (IH b Ha Hb Hr Hr' H) as [-> ->].
Qed.

Lemma pretty_spaceless (n : N) : spaceless (pretty n) = true.
Proof.
  unfold pretty, pretty_N. case_decide as Hn; [done|]. clear Hn.
  assert (forall s, spaceless s = true -> spaceless (pretty_N_go n s) = true) as Hgo; [|by apply Hgo].
  induction (N.lt_wf_0 n) as [x _ IH]. intros s Hs.
  destruct (decide (x = 0)) as [->|Hx]; [by rewrite pretty_N_go_0|].
  rewrite pretty_N_go_step by lia. destruct (decide (x / 10 = 0)) as [E|E].
  - rewrite E, pretty_N_go_0. cbn. unfold pretty_N_char. by repeat case_match.
  - apply IH; [apply N.div_lt; lia|]. cbn. unfold pretty_N_char. by repeat case_match.
Qed.

(** ** Fields *)

#[local] Instance append_assoc : Assoc (=) String.append.
Proof. intros x y z. induction x as [|c x IH]; [done|]. exact (f_equal (String c) IH). Qed.

Lemma field_peel name v v' r r' :
  field name v +:+ r = field name v' +:+ r' -> spaced r -> spaced r' -> v = v' /\ r = r'.
Proof.
  unfold field. rewrite <- !(assoc_L String.append). intros H Hr Hr'.
  apply (inj (String.append name)), (inj (String.append "=")) in H.
  apply word_peel in H as [H ->]; [|by apply pretty_spaceless..|done|done].
  split; [by apply (inj pretty) | done].
Qed.

(** An entry without its detail, which is not rendered. *)
Definition printed (e : ScheduleEntry) : ScheduleEntry := e <| se_detail := EmptyString |>.

Lemma kind_spaceless k : spaceless (kind_string k) = true.
Proof. by destruct k. Qed.
Lemma reason_spaceless r : spaceless (reason_to_string r) = true.
Proof. by destruct r. Qed.

(** Peels one field off both sides of an equation between lines. *)
Ltac peel H :=
  let E := fresh "E" in
  apply field_peel in H as [E H]; [|done..].

Lemma entry_peel e e' r r' :
  canonical_entry e +:+ r = canonical_entry e' +:+ r' -> spaced r -> spaced r' ->
  printed e = printed e' /\ r = r'.
Proof.
  unfold canonical_entry. rewrite <- !(assoc_L String.append). intros H Hr Hr'.
  apply (inj (String.append _)) in H.
  apply word_peel in H as [Ek H]; [|apply kind_spaceless..|done|done].
  do 19 peel H. apply (inj (String.append _)) in H.
  apply word_peel in H as [Er H]; [|apply reason_spaceless..|done|done].
  peel H. apply (inj kind_string) in Ek. apply (inj reason_to_string) in Er.
  split; [|done]. unfold printed. destruct e, e'. cbn in *. by subst.
Qed.

Definition entry_lines (l : list ScheduleEntry) : string :=
  foldr (fun e out => canonical_entry e +:+ out) EmptyString l.

Lemma entry_lines_cons e l r : entry_lines (e :: l) +:+ r = canonical_entry e +:+ (entry_lines l +:+ r).
Proof. symmetry. apply append_assoc. Qed.

Lemma entry_lines_spaced l r : spaced r -> spaced (entry_lines l +:+ r).
Proof. by destruct l. Qed.

Lemma entries_peel l l' r r' :
  length l = length l' -> spaced r -> spaced r' ->
  entry_lines l +:+ r = entry_lines l' +:+ r' -> printed <$> l = printed <$> l'.
Proof.
  revert l'. induction l as [|e l IH]; intros [|e' l'] Hlen Hr Hr' H; try done.
  rewrite !entry_lines_cons in H.
  apply entry_peel in H as [He H]; [|by apply entry_lines_spaced..].
  cbn. rewrite He, (IH l'); [done|by injection Hlen|done..].
Qed.

(** Two schedules with the same canonical form agree on identity, generation,
    epoch, policy, tick and number of entries, and, entry by entry, on everything
    but the explanatory detail, as far as the form renders entries. *)
Lemma canonical_form_identifies (s s' : Schedule) (H : canonical_form s = canonical_form s') :
  (sc_schedule s, sc_generation s, sc_epoch s, sc_policy s, sc_policy_generation s, sc_at_tick s) =
  (sc_schedule s', sc_generation s', sc_epoch s', sc_policy s', sc_policy_generation s',
   sc_at_tick s') /\
  length (sc_entries s) = length (sc_entries s') /\
  printed <$> take (N.to_nat kMaxCanonicalFormEntries) (sc_entries s) =
  printed <$> take (N.to_nat kMaxCanonicalFormEntries) (sc_entries s').
Proof.
  unfold canonical_form in H. cbv zeta in H.
  change (foldr _ _ ?l) with (entry_lines l) in H.
  assert (forall (b : bool) n, spaced (if b then field " | truncated" n else EmptyString)) as Htail
    by (by intros []).
  do 6 peel H. apply field_peel in H as [En H]; [|by apply entry_lines_spaced..].
  apply Nat2N.inj in En.
  split; [congruence|]. split; [done|].
  assert (forall l : list ScheduleEntry,
    take (N.to_nat (N.min (N.of_nat (length l)) kMaxCanonicalFormEntries)) l =
    take (N.to_nat kMaxCanonicalFormEntries) l) as Htake.
  { intros l. rewrite N2Nat.inj_min, Nat2N.id, Nat.min_comm, <- take_take. by rewrite firstn_all. }
  rewrite !Htake in H. eapply entries_peel; [|apply Htail|apply Htail|exact H].
  by rewrite !length_take, En.
Qed.

(** ** The form and [operator==] *)

Lemma entry_same_printed a b : entry_same a b = true <-> printed a = printed b.
Proof.
  unfold entry_same. split.
  - rewrite !andb_true_iff, !N.eqb_eq, !bool_decide_eq_true. destruct a, b. cbn.
    intros H. destruct_and!. by subst.
  - intros H. destruct a, b. injection H as -> -> -> -> -> -> -> -> -> -> -> -> -> -> -> -> -> -> ->
      -> -> ->. cbn. by rewrite !N.eqb_refl, !bool_decide_eq_true_2.
Qed.

Lemma entries_same_printed l r :
  length l = length r -> entries_same l r = true <-> printed <$> l = printed <$> r.
Proof.
  revert r. induction l as [|a l IH]; intros [|b r] H; try done. cbn [entries_same fmap list_fmap].
  rewrite andb_true_iff, entry_same_printed, IH by (by injection H). split.
  - by intros [-> ->].
  - intros Hc. split; [|by apply (f_equal tail) in Hc].
    apply (f_equal head) in Hc. by apply (inj Some) in Hc.
Qed.

Lemma canonical_printed e : canonical_entry (printed e) = canonical_entry e.
Proof. by destruct e. Qed.

Lemma entry_lines_printed l : entry_lines (printed <$> l) = entry_lines l.
Proof.
  induction l as [|e l IH]; [done|]. cbn [fmap list_fmap]. unfold entry_lines in *. cbn [foldr].
  by rewrite canonical_printed, IH.
Qed.

(** C34 The canonical form decides [operator==]: schedules that compare
    equal have the same canonical form, and two schedules of at most
    [kMaxCanonicalFormEntries] entries with the same form compare equal, whatever
    their identities, quanta and reasons are; beyond that number the form is only
    a necessary condition. *)
Theorem canonical_form_decides (s s' : Schedule) :
  (schedule_same s s' = true -> canonical_form s = canonical_form s') /\
  (N.of_nat (length (sc_entries s)) <= kMaxCanonicalFormEntries ->
   canonical_form s = canonical_form s' -> schedule_same s s' = true).
Proof.
  unfold schedule_same. rewrite !andb_true_iff, !N.eqb_eq, Nat.eqb_eq. split.
  - intros H. destruct_and!.
    match goal with H : entries_same _ _ = true |- _ => apply entries_same_printed in H as Hp; [|done] end.
    unfold canonical_form. cbv zeta. change (foldr _ _ ?l) with (entry_lines l).
    rewrite <- (entry_lines_printed (take _ (sc_entries s))),
      <- (entry_lines_printed (take _ (sc_entries s'))), !fmap_take, Hp.
    repeat match goal with H : _ s = _ s' |- _ => rewrite H; clear H end.
    by match goal with H : length _ = length _ |- _ => rewrite H end.
  - intros Hle H. apply canonical_form_identifies in H as ([= -> -> -> -> -> ->] & Hl & Hp).
    rewrite !take_ge in Hp by lia. split_and!; try done. by apply entries_same_printed.
Qed.
