(* ===== verification/System.v ===== *)
(** * The scheduler as a transition system

    A scheduler is created volatile or over an empty durable directory, and
    then serves one public call at a time.  [run] is the effect of a call,
    whatever it returns; [reachable] the states a sequence of calls leads to. *)

From S2P Require Import Prelude Checked Bytes Hash Model Schedule Codec Journal State.
From S2P Require Import Transitions Arbitrate Operations Recovery Fixture Invariants Capacity Bounds.

Inductive Call : Type :=
| CRegisterResource (d : ResourceDescriptor)
| CRegisterReservation (d : ReservationDescriptor)
| CRetireReservation (r : ReservationId) (g : Generation)
| CRegisterPriorityClass (d : PriorityClassDescriptor)
| CRegisterQoSClass (d : QoSClassDescriptor)
| CAdmitFlow (d : FlowDescriptor)
| CUpdateFlow (d : FlowDescriptor)
| CCancelFlow (f : FlowId) (g : Generation) (reason : string) (now : Ticks)
| CNotifyReadiness (f : FlowId) (g : Generation) (s : ReadinessSignal) (now : Ticks)
| CResolveAmbiguous (f : FlowId) (g : Generation) (r : AmbiguityResolution) (now : Ticks)
| CRetireFlow (f : FlowId) (g : Generation)
| CInstallPolicy (p : SchedulingPolicy)
| CAdvanceEpoch (reason : EpochReason) (now : Ticks)
| CArbitrate (now : Ticks)
| CReleaseSchedule (s : ScheduleId) (g : Generation) (now : Ticks)
| CBeginDispatch (s : ScheduleId) (g : Generation) (ordinal : N) (w : WorkerId) (b : BootId)
    (now : Ticks)
| CMarkStarted (t : DispatchTicket) (now : Ticks)
| CAbandonAttempt (a : DispatchAttemptId) (reason : string) (now : Ticks)
| CPreemptAttempt (a : DispatchAttemptId) (reason : string) (now : Ticks)
| CComplete (e : CompletionEvidence) (now : Ticks)
| CCheckpoint.

(** The state a call leaves behind, also when it fails. *)
Definition run (c : Call) (im : Impl) : Impl :=
  match c with
  | CRegisterResource d => exec (register_resource d) im
  | CRegisterReservation d => exec (register_reservation d) im
  | CRetireReservation r g => exec (retire_reservation r g) im
  | CRegisterPriorityClass d => exec (register_priority_class d) im
  | CRegisterQoSClass d => exec (register_qos_class d) im
  | CAdmitFlow d => exec (admit_flow d) im
  | CUpdateFlow d => exec (update_flow d) im
  | CCancelFlow f g r now => exec (cancel_flow f g r now) im
  | CNotifyReadiness f g s now => exec (notify_readiness f g s now) im
  | CResolveAmbiguous f g r now => exec (resolve_ambiguous f g r now) im
  | CRetireFlow f g => exec (retire_flow f g) im
  | CInstallPolicy p => exec (install_policy p) im
  | CAdvanceEpoch r now => exec (advance_epoch r now) im
  | CArbitrate now => exec (arbitrate now) im
  | CReleaseSchedule s g now => exec (release_schedule s g now) im
  | CBeginDispatch s g o w b now => exec (begin_dispatch s g o w b now) im
  | CMarkStarted t now => exec (mark_started t now) im
  | CAbandonAttempt a r now => exec (abandon_attempt a r now) im
  | CPreemptAttempt a r now => exec (preempt_attempt a r now) im
  | CComplete e now => exec (complete e now) im
  | CCheckpoint => exec checkpoint im
  end.

Definition run_all (calls : list Call) (im : Impl) : Impl := foldl (fun im c => run c im) im calls.

Inductive reachable : Impl -> Prop :=
| reach_volatile p im : create_volatile p = Ok im -> reachable im
| reach_fresh p flush io im : create_durable p [] None flush io = Ok im -> reachable im
| reach_call c im : reachable im -> reachable (run c im).

Lemma reachable_run_all calls im : reachable im -> reachable (run_all calls im).
Proof. intros H. unfold run_all. apply foldl_inv; [done|]. intros. by apply reach_call. Qed.

(** ** Preservation, operation by operation *)

#[export] Hint Resolve flows_wf_journal flows_wf_apply_attempt_closed flows_wf_apply_cancel
  flows_wf_apply_retire_flow flows_wf_apply_ambiguity_resolved flows_wf_apply_readiness
  flows_wf_apply_attempt_opened flows_wf_apply_attempt_started flows_wf_apply_completion
  flows_wf_normalize flows_wf_apply_epoch_advance flows_wf_close_attempt
  flows_wf_arbitrate flows_wf_upd_schedule flows_wf_apply_schedule : fs.

Lemma flows_wf_same_core f :
  (forall im, flow_core (f im) = flow_core im) -> preserves flows_wf (modify (E := ErrorCode) f).
Proof. intros Hf im. apply flows_wf_core, Hf. Qed.

Lemma flows_wf_apply_resource d im : flows_wf im -> flows_wf (apply_resource d im).
Proof. by apply flows_wf_core. Qed.
Lemma flows_wf_apply_reservation d im : flows_wf im -> flows_wf (apply_reservation d im).
Proof. by apply flows_wf_core. Qed.
Lemma flows_wf_apply_retire_reservation r g im :
  flows_wf im -> flows_wf (apply_retire_reservation r g im).
Proof. apply flows_wf_core. unfold apply_retire_reservation. by repeat case_match. Qed.
Lemma flows_wf_apply_priority_class d im : flows_wf im -> flows_wf (apply_priority_class d im).
Proof. by apply flows_wf_core. Qed.
Lemma flows_wf_apply_qos_class d im : flows_wf im -> flows_wf (apply_qos_class d im).
Proof. by apply flows_wf_core. Qed.
Lemma flows_wf_apply_policy p im : flows_wf im -> flows_wf (apply_policy p im).
Proof. by apply flows_wf_core. Qed.
#[export] Hint Resolve flows_wf_apply_resource flows_wf_apply_reservation
  flows_wf_apply_retire_reservation flows_wf_apply_priority_class flows_wf_apply_qos_class
  flows_wf_apply_policy flows_wf_apply_admit flows_wf_apply_update : fs.

Lemma flows_wf_rearm f c now im : flows_wf im -> flows_wf (rearm f c now im).
Proof. intros H. unfold rearm. flows_solve. Qed.
#[export] Hint Resolve flows_wf_rearm : fs.

Lemma flows_wf_count_rejected e b im : flows_wf im -> flows_wf (count_rejected e b im).
Proof. intros H. unfold count_rejected. flows_solve. Qed.
#[export] Hint Resolve flows_wf_count_rejected : fs.

Lemma flows_wf_on_store {A} (m : StoreM A) : preserves flows_wf (on_store m).
Proof.
  intros im H. unfold exec, on_store. destruct (im_store im) as [ds|]; [|done].
  destruct (m ds) as [ds' r]. cbn [fst]. by apply (flows_wf_core im).
Qed.

Lemma flows_wf_checkpoint : preserves flows_wf checkpoint.
Proof.
  intros im H. unfold exec, checkpoint. destruct (im_store im); [|done].
  destruct (encode_state_snapshot im) as [|b l]; [done|]. by apply flows_wf_on_store.
Qed.

(** Closes the leaves of a method split by [preserve_step]. *)
Ltac method_solve :=
  unfold observe_tick, require_flow; repeat preserve_step; try done; eauto with fs;
  try (intros ? ?; eauto with fs); try (progress flows_solve).

Lemma flows_wf_run c : forall im, flows_wf im -> flows_wf (run c im).
Proof.
  destruct c; cbn [run]; lazymatch goal with |- forall im, _ -> _ (exec ?m im) =>
    change (preserves flows_wf m) end.
  - unfold register_resource. method_solve.
  - unfold register_reservation. method_solve.
  - unfold retire_reservation. method_solve.
  - unfold register_priority_class. method_solve.
  - unfold register_qos_class. method_solve.
  - unfold admit_flow. method_solve.
  - unfold update_flow. method_solve.
  - unfold cancel_flow. method_solve.
  - unfold notify_readiness. method_solve.
  - unfold resolve_ambiguous. method_solve.
  - unfold retire_flow. method_solve.
  - unfold install_policy. method_solve.
  - unfold advance_epoch. method_solve.
  - apply flows_wf_arbitrate.
  - unfold release_schedule. method_solve.
  - unfold begin_dispatch. method_solve.
  - unfold mark_started. method_solve.
  - unfold abandon_attempt. method_solve.
  - unfold preempt_attempt. method_solve.
  - unfold complete, commit_completion. method_solve.
  - apply flows_wf_checkpoint.
Qed.

Lemma resources_wf_frame f im :
  capacity_frame 0 im (f im) -> resources_wf im -> resources_wf (f im).
Proof. apply capacity_frame_wf. Qed.

Lemma resources_wf_journal t ops : preserves resources_wf (journal t ops).
Proof. intros im. apply resources_wf_ext, journal_resources. Qed.
Lemma resources_wf_close_attempt a st d now : preserves resources_wf (close_attempt a st d now).
Proof. apply (resources_wf_of_frame 0). intros im0. apply frame_close_attempt. Qed.
Lemma resources_wf_admit d : preserves resources_wf (apply_admit d).
Proof. intros im. apply resources_wf_ext. unfold exec, apply_admit. by case_match. Qed.
Lemma resources_wf_update d : preserves resources_wf (apply_update d).
Proof. intros im. apply resources_wf_ext. unfold exec, apply_update. by repeat case_match. Qed.
Lemma resources_wf_checkpoint : preserves resources_wf checkpoint.
Proof.
  intros im. apply resources_wf_ext. unfold exec, checkpoint, on_store.
  destruct (im_store im) as [ds|]; [|done]. destruct (encode_state_snapshot im); [done|].
  by destruct (compact _ ds).
Qed.
#[export] Hint Resolve resources_wf_journal resources_wf_close_attempt resources_wf_admit
  resources_wf_update : frame.

Ltac resources_leaf :=
  lazymatch goal with
  | H : resources_wf ?im |- resources_wf (apply_reservation _ ?im) => by apply (resources_wf_ext im)
  | H : resources_wf ?im |- resources_wf (count_rejected _ _ ?im) =>
      apply (resources_wf_ext im); [unfold count_rejected; by case_match | done]
  | H : resources_wf ?im |- resources_wf _ => apply (capacity_frame_wf 0 im); [|done]
  end.
Ltac resources_method :=
  unfold observe_tick, require_flow; repeat preserve_step; try done; eauto with frame;
  try resources_leaf; try (by apply capacity_frame_eq); frame_solve.

Lemma resources_wf_run c : forall im, resources_wf im -> resources_wf (run c im).
Proof.
  destruct c; cbn [run]; lazymatch goal with |- forall im, _ -> _ (exec ?m im) =>
    change (preserves resources_wf m) end.
  - intros im. apply resources_wf_register.
  - unfold register_reservation. resources_method.
  - unfold retire_reservation. resources_method.
  - unfold register_priority_class. resources_method.
  - unfold register_qos_class. resources_method.
  - unfold admit_flow. resources_method.
  - unfold update_flow. resources_method.
  - unfold cancel_flow. resources_method.
  - unfold notify_readiness. resources_method.
  - unfold resolve_ambiguous. resources_method.
  - unfold retire_flow. resources_method.
  - unfold install_policy. resources_method.
  - unfold advance_epoch. resources_method.
  - apply resources_wf_arbitrate.
  - unfold release_schedule. resources_method.
  - unfold begin_dispatch. resources_method.
  - unfold mark_started. resources_method.
  - unfold abandon_attempt. resources_method.
  - unfold preempt_attempt. resources_method.
  - unfold complete, commit_completion. resources_method.
  - apply resources_wf_checkpoint.
Qed.

Lemma bounded_checkpoint : preserves bounded checkpoint.
Proof.
  intros im. apply bounded_core; unfold exec, checkpoint, on_store;
    (destruct (im_store im) as [ds|]; [|done]; destruct (encode_state_snapshot im); [done|];
     by destruct (compact _ ds)).
Qed.

Lemma bounded_epoch next now : preserves bounded (modify (E := ErrorCode) (apply_epoch_advance next now)).
Proof. intros im. apply bounded_apply_epoch_advance. Qed.

Ltac bounded_method :=
  unfold observe_tick, require_flow; repeat preserve_step; try done; eauto with bounded;
  try (intros ? ?; eauto with bounded); try (progress bounded_solve).

Lemma bounded_run c : forall im, bounded im -> bounded (run c im).
Proof.
  destruct c; cbn [run]; lazymatch goal with |- forall im, _ -> _ (exec ?m im) =>
    change (preserves bounded m) end.
  - unfold register_resource, apply_resource. bounded_method.
  - unfold register_reservation, apply_reservation. bounded_method.
  - unfold retire_reservation. bounded_method.
  - unfold register_priority_class, apply_priority_class. bounded_method.
  - unfold register_qos_class, apply_qos_class. bounded_method.
  - unfold admit_flow. bounded_method.
  - unfold update_flow. bounded_method.
  - unfold cancel_flow. bounded_method.
  - unfold notify_readiness. bounded_method.
  - unfold resolve_ambiguous. bounded_method.
  - unfold retire_flow. bounded_method.
  - apply bounded_install_policy.
  - unfold advance_epoch. bounded_method.
  - apply bounded_arbitrate.
  - unfold release_schedule. bounded_method.
  - unfold begin_dispatch. bounded_method.
  - unfold mark_started. bounded_method.
  - unfold abandon_attempt. bounded_method.
  - unfold preempt_attempt. bounded_method.
  - unfold complete, commit_completion. bounded_method.
  - apply bounded_checkpoint.
Qed.

(** ** A fresh scheduler *)

(** The files a store holds. *)
Definition files (ds : DurableStore) : bytes * option bytes := (ds_journal ds, ds_snapshot ds).

Lemma open_files j s flush io ds : open j s flush io = Ok ds -> files ds = (j, s).
Proof. intros H%opened_files. unfold files. by injection H as -> -> _. Qed.

Lemma load_snapshot_fresh im ds :
  im_store im = Some ds -> ds_snapshot ds = None ->
  load_snapshot im = (im <| im_store := Some ds |>, Ok false).
Proof.
  intros Hs Hn. unfold load_snapshot, on_store. rewrite Hs. unfold read_snapshot, bind, get.
  by rewrite Hn.
Qed.

Lemma replay_journal_fresh im ds :
  im_store im = Some ds -> ds_journal ds = [] ->
  exists st, exec replay_journal im = im <| im_store := st |>.
Proof.
  intros Hs Hj. unfold exec, replay_journal. rewrite Hs. unfold replay.
  pose proof (wp_io_call (fun _ ds => ds_journal ds = []) (fun _ _ => True) ds
    (fun _ => Hj) (fun _ => I)) as Hio.
  unfold wp in Hio. destruct (io_call ds) as [ds1 [[]|e]]; [|by eexists].
  rewrite Hio. change (scan_bytes true apply_record [] im) with (im, initial_scan).
  cbn -[io_call]. unfold bind, ret.
  rewrite bool_decide_eq_false_2 by done. cbn -[io_call].
  destruct (io_call ds1) as [ds2 [[]|e]]; by exists (Some ds2).
Qed.

Section Fresh.
Context (P : Impl -> Prop).
Hypotheses
  (Pstore : forall im st, P im -> P (im <| im_store := st |>))
  (Precovery : forall im f, P im -> P (im <| im_recovery ::= f |>))
  (Pepoch : forall next now im, P im -> P (apply_epoch_advance next now im)).

(** Recovering from empty files visits no record. *)
Lemma recover_fresh im ds :
  P im -> im_store im = Some ds -> files ds = ([], None) -> P (exec recover im).
Proof.
  intros H Hs [= Hj Hsn]. apply wp_exec. unfold recover. wp_step.
  unfold wp at 1. rewrite (load_snapshot_fresh im ds) by done. wp_step.
  set (im1 := im <| im_store := Some ds |>).
  destruct (replay_journal_fresh im1 ds) as [st Hst]; [done|done|].
  unfold wp at 1. unfold exec in Hst. destruct (replay_journal im1) as [im2 [rep|e]];
    cbn [fst] in Hst; subst im2 im1; [|by apply Pstore, Pstore].
  do 4 wp_step. unfold fence_recovered. do 4 wp_step.
  destruct (advance _) as [next|e]; [|unfold note_restored, note_replayed; by auto 6].
  wp_step. apply wp_journal; [|unfold note_restored, note_replayed; by auto 7]. intros st'.
  do 3 wp_step. unfold note_restored, note_replayed. auto 8.
Qed.

Lemma create_durable_fresh p flush io im :
  P (initial_impl p) -> create_durable p [] None flush io = Ok im -> P im.
Proof.
  intros H. unfold create_durable. destruct (validate_policy p); [|done].
  destruct (open [] None flush io) as [ds|] eqn:Ho; [|done]. cbn.
  pose proof (recover_fresh ((initial_impl p) <| im_store := Some ds |>) ds
    (Pstore _ _ H) eq_refl (open_files _ _ _ _ _ Ho)) as Hr. unfold exec in Hr.
  destruct (recover _) as [im' [[]|]]; intros [= <-]. exact Hr.
Qed.
End Fresh.

(** ** Every reachable state is well formed *)

Lemma flows_wf_initial p : flows_wf (initial_impl p).
Proof.
  split; [done|]. intros s id Hs. split; [by destruct s|].
  intros (rt & Hrt & _). cbn in Hrt. by rewrite lookup_empty in Hrt.
Qed.

Lemma bounded_initial p : bounded (initial_impl p).
Proof. split; [unfold map_size; simpl; rewrite map_size_empty; lia | done]. Qed.

Lemma reachable_invariant im : reachable im -> flows_wf im /\ resources_wf im /\ bounded im.
Proof.
  intros H. induction H as [p im Hc|p flush io im Hc|c im _ (H1 & H2 & H3)].
  - unfold create_volatile in Hc. destruct (validate_policy p); [|done]. injection Hc as <-.
    split_and!; [|done|].
    + by apply (flows_wf_core (initial_impl p)), flows_wf_initial.
    + by apply (bounded_core (initial_impl p)), bounded_initial.
  - split_and!; eapply create_durable_fresh; try exact Hc.
    + intros im' st. by apply flows_wf_core.
    + intros im' f. by apply flows_wf_core.
    + intros. by apply flows_wf_apply_epoch_advance.
    + apply flows_wf_initial.
    + intros im' st. by apply resources_wf_ext.
    + intros im' f. by apply resources_wf_ext.
    + intros next now im'. apply (capacity_frame_wf 0), capacity_frame_epoch.
    + done.
    + intros im' st. by apply bounded_core.
    + intros im' f. by apply bounded_core.
    + intros. by apply bounded_apply_epoch_advance.
    + apply bounded_initial.
  - split_and!; [by apply flows_wf_run | by apply resources_wf_run | by apply bounded_run].
Qed.

(** C3 A reachable scheduler is well formed: every flow sits under its identity and
    in exactly the index of its lifecycle, no resource has promised more than its
    capacity in an interval, the flow table fits the policy and every flow's
    explanation history is bounded. *)
Theorem reachable_wf (im : Impl) (H : reachable im) :
  flows_wf im /\ resources_wf im /\ bounded im.
Proof. by apply reachable_invariant. Qed.

(** The calls that lead to the states of the fixture. *)
Definition demo_calls : list Call :=
  [CRegisterResource Demo.resource; CRegisterReservation Demo.reservation;
   CRegisterPriorityClass Demo.priority_class; CRegisterQoSClass Demo.qos_class;
   CAdmitFlow (Demo.flow 1); CAdmitFlow (Demo.reserved_flow 2); CAdmitFlow (Demo.flow 3);
   CArbitrate 10; CBeginDispatch 1 1 0 7 9 11; CComplete Demo.evidence 12].

Lemma demo_reachable calls : reachable (run_all calls Demo.start).
Proof. apply reachable_run_all. apply (reach_volatile Demo.policy). reflexivity. Qed.

Lemma reachable_wf_witness :
  flows_wf (run_all demo_calls Demo.start) /\ resources_wf (run_all demo_calls Demo.start) /\
  bounded (run_all demo_calls Demo.start).
Proof. exact (reachable_wf _ (demo_reachable demo_calls)). Defined.

Example demo_calls_complete : (fr_served_work <$> im_flows (run_all demo_calls Demo.start) !! 1) = Some 30.
Proof. vm_compute. reflexivity. Qed.
