(* ===== verification/Lease.v ===== *)
(** * Dispatch authority, abstractly

    What the scheduler promises about dispatch, without its data structures: a
    dispatch attempt is a lease of one flow, issued from one schedule.  A flow
    holds at most one live lease; a lease dies once and never comes back; a
    schedule is forgotten only when none of its leases is alive; identities are
    never reused.

    Authority.v shows that every call of the scheduler is a sequence of these
    steps. *)

From S2P Require Import Prelude Checked.

Record Lease := mkLease {
  ls_attempt : N;      (** the identity in the ticket *)
  ls_flow : N;
  ls_schedule : N;
  ls_live : bool }.

Record Leases := mkLeases {
  lt_holds : gmap N (N * bool);     (** per flow: its lease (0: none), and whether it is in flight *)
  lt_leases : gmap N Lease;
  lt_open : gmap N N;               (** per schedule: the number of live leases *)
  lt_lists : gmap N (list N);       (** per schedule: the leases it issued *)
  lt_next_attempt : N;
  lt_next_schedule : N;
  lt_next_generation : N }.

#[export] Instance eta_Leases : Eta Leases := fun r =>
  mkLeases (lt_holds r) (lt_leases r) (lt_open r) (lt_lists r) (lt_next_attempt r)
    (lt_next_schedule r) (lt_next_generation r).

Definition bury (l : Lease) : Lease :=
  mkLease (ls_attempt l) (ls_flow l) (ls_schedule l) false.

Definition add_flow (f : N) (A : Leases) : Leases :=
  A <| lt_holds ::= <[ f := (0, false) ]> |>.
Definition drop_flow (f : N) (A : Leases) : Leases := A <| lt_holds ::= delete f |>.
Definition close_lease (a : N) (l : Lease) (A : Leases) : Leases :=
  A <| lt_holds ::= alter (fun _ => (0, false)) (ls_flow l) |>
    <| lt_leases ::= alter bury a |>
    <| lt_open ::= alter (fun n => n - 1) (ls_schedule l) |>.
Definition forget_schedule (s : N) (A : Leases) : Leases :=
  A <| lt_leases ::= fun m => foldl (fun m a => delete a m) m (default [] (lt_lists A !! s)) |>
    <| lt_lists ::= delete s |>
    <| lt_open ::= delete s |>.
Definition fence (A : Leases) : Leases :=
  A <| lt_leases := ∅ |> <| lt_open := ∅ |> <| lt_lists := ∅ |>.
Definition open_lease (f s : N) (A : Leases) : Leases :=
  let a := lt_next_attempt A in
  A <| lt_holds ::= <[ f := (a, true) ]> |>
    <| lt_leases ::= <[ a := mkLease a f s true ]> |>
    <| lt_open ::= alter (fun n => n + 1) s |>
    <| lt_lists ::= fun m => <[ s := default [] (m !! s) ++ [a] ]> m |>
    <| lt_next_attempt := a + 1 |>.
Definition add_schedule (A : Leases) : Leases :=
  A <| lt_open ::= <[ lt_next_schedule A := 0 ]> |>
    <| lt_next_schedule ::= fun s => s + 1 |>
    <| lt_next_generation ::= fun g => g + 1 |>.

(** Steps that issue nothing. *)
Inductive quiet (A : Leases) : Leases -> Prop :=
| quiet_add_flow f : lt_holds A !! f = None -> quiet A (add_flow f A)
| quiet_drop_flow f : lt_holds A !! f = Some (0, false) -> quiet A (drop_flow f A)
| quiet_close a l :
    lt_leases A !! a = Some l -> ls_live l = true -> quiet A (close_lease a l A)
| quiet_forget s : lt_open A !! s = Some 0 -> quiet A (forget_schedule s A)
| quiet_fence :
    (forall a l, lt_leases A !! a = Some l -> ls_live l = false) -> quiet A (fence A).

Inductive step (A : Leases) : Leases -> Prop :=
| step_quiet B : quiet A B -> step A B
| step_open f s n :
    lt_holds A !! f = Some (0, false) -> lt_open A !! s = Some n -> step A (open_lease f s A)
| step_schedule : step A (add_schedule A).

(** What a call that opens no lease does: quiet steps, around at most one new
    schedule. *)
Inductive tacit (A B : Leases) : Prop :=
| tacit_quiet : rtc quiet A B -> tacit A B
| tacit_issue C : rtc quiet A C -> rtc quiet (add_schedule C) B -> tacit A B.

(** The number of live leases of a schedule. *)
Definition live_of (s : N) (l : Lease) : Prop := ls_live l = true /\ ls_schedule l = s.
#[export] Instance live_of_dec s l : Decision (live_of s l).
Proof. unfold live_of. apply _. Defined.

Definition live_count (s : N) (m : gmap N Lease) : N :=
  N.of_nat (size (filter (fun x => live_of s x.2) m)).

Record lease_inv (A : Leases) : Prop := {
  li_id : forall a l, lt_leases A !! a = Some l ->
    ls_attempt l = a /\ a <> 0 /\ a < lt_next_attempt A;
  li_flag : forall f a h, lt_holds A !! f = Some (a, h) -> h = id_valid a;
  li_held : forall f a h, lt_holds A !! f = Some (a, h) -> a <> 0 ->
    exists l, lt_leases A !! a = Some l /\ ls_live l = true /\ ls_flow l = f;
  li_live : forall a l, lt_leases A !! a = Some l -> ls_live l = true ->
    (exists h, lt_holds A !! ls_flow l = Some (a, h)) /\ is_Some (lt_open A !! ls_schedule l);
  li_count : forall s n, lt_open A !! s = Some n -> n = live_count s (lt_leases A);
  li_list : forall s L a, lt_lists A !! s = Some L -> a ∈ L ->
    a < lt_next_attempt A /\
    forall l, lt_leases A !! a = Some l -> ls_schedule l = s;
  li_schedule : forall s, is_Some (lt_open A !! s) -> s < lt_next_schedule A;
  li_next : 0 < lt_next_attempt A }.

(** ** Counting *)

Lemma live_count_dead s m a l :
  m !! a = None -> ~ live_of s l -> live_count s (<[ a := l ]> m) = live_count s m.
Proof. intros Hn Hl. unfold live_count. by rewrite map_filter_insert_not'; [|done|naive_solver]. Qed.

Lemma live_count_live s m a l :
  m !! a = None -> live_of s l -> live_count s (<[ a := l ]> m) = live_count s m + 1.
Proof.
  intros Hn Hl. unfold live_count. rewrite map_filter_insert_True by done.
  rewrite map_size_insert_None; [lia|]. apply map_lookup_filter_None. by left.
Qed.

Lemma live_count_zero s m :
  live_count s m = 0 <-> forall a l, m !! a = Some l -> ~ live_of s l.
Proof.
  unfold live_count. split.
  - intros H a l Hl Hlive. assert (size (filter (fun x => live_of s x.2) m) = 0%nat) as H0 by lia.
    apply map_size_empty_inv in H0.
    eapply map_empty with (i := a) in H0. rewrite map_lookup_filter_None in H0.
    destruct H0 as [|H0]; [congruence|]. by apply (H0 l).
  - intros H. assert (filter (fun x => live_of s x.2) m = ∅) as ->; [|by rewrite map_size_empty].
    apply map_empty. intros a. apply map_lookup_filter_None. right. intros l Hl. by apply (H a).
Qed.

Lemma live_count_bury s m a l :
  m !! a = Some l -> ls_live l = true ->
  live_count s (alter bury a m) = live_count s m - if ls_schedule l =? s then 1 else 0.
Proof.
  intros Hl Hlive. assert (alter bury a m = <[ a := bury l ]> (delete a m)) as ->.
  { rewrite insert_delete_eq. apply map_eq. intros i. destruct (decide (i = a)) as [->|].
    - by rewrite lookup_alter_eq, lookup_insert_eq, Hl.
    - by rewrite lookup_alter_ne, lookup_insert_ne. }
  rewrite live_count_dead; [|apply lookup_delete_eq | by intros [? _]].
  rewrite <- (insert_id m a l) at 2 by done. rewrite <- insert_delete_eq.
  destruct (N.eqb_spec (ls_schedule l) s) as [Hs|Hs].
  - rewrite live_count_live; [lia | apply lookup_delete_eq | done].
  - rewrite live_count_dead; [lia | apply lookup_delete_eq | by intros [_ ?]].
Qed.

Lemma lookup_delete_all (L : list N) (m : gmap N Lease) a :
  foldl (fun m a => delete a m) m L !! a = if decide (a ∈ L) then None else m !! a.
Proof.
  revert m. induction L as [|b L IH]; intros m; cbn [foldl]; [by rewrite decide_False by set_solver|].
  rewrite IH. destruct (decide (a ∈ L)) as [Ha|Ha].
  - by rewrite decide_True by set_solver.
  - destruct (decide (a = b)) as [->|].
    + rewrite decide_True by set_solver. apply lookup_delete_eq.
    + rewrite decide_False by set_solver. by apply lookup_delete_ne.
Qed.

(** ** The invariant *)

(** A live lease is the one its flow holds, so a flow has at most one. *)
Lemma live_unique A a b la lb :
  lease_inv A -> lt_leases A !! a = Some la -> lt_leases A !! b = Some lb ->
  ls_live la = true -> ls_live lb = true -> ls_flow la = ls_flow lb -> a = b.
Proof.
  intros H Ha Hb Hla Hlb Hf.
  destruct (li_live _ H _ _ Ha Hla) as [[ha H1] _].
  destruct (li_live _ H _ _ Hb Hlb) as [[hb H2] _]. congruence.
Qed.

Lemma inv_add_flow A f : lt_holds A !! f = None -> lease_inv A -> lease_inv (add_flow f A).
Proof.
  intros Hf [I1 I2 I3 I4 I5 I6 I7 I8]. unfold add_flow. split; upd_simpl; try done.
  - intros g a h [[<- [= <- <-]]|[_ H]]%lookup_insert_Some; eauto.
  - intros g a h [[<- [= <- <-]]|[_ H]]%lookup_insert_Some; [done | eauto].
  - intros a l Ha Hl. destruct (I4 a l Ha Hl) as [[h Hh] Hs]. split; [|done].
    exists h. rewrite lookup_insert_ne; [done|]. congruence.
Qed.

Lemma inv_drop_flow A f :
  lt_holds A !! f = Some (0, false) -> lease_inv A -> lease_inv (drop_flow f A).
Proof.
  intros Hf [I1 I2 I3 I4 I5 I6 I7 I8]. unfold drop_flow. split; upd_simpl; try done.
  - intros g a h [_ H]%lookup_delete_Some; eauto.
  - intros g a h [_ H]%lookup_delete_Some; eauto.
  - intros a l Ha Hl. destruct (I4 a l Ha Hl) as [[h Hh] Hs]. split; [|done].
    exists h. apply lookup_delete_Some. split; [|done]. intros ->. rewrite Hf in Hh.
    injection Hh as <- <-. by destruct (I1 _ _ Ha) as (_ & ? & _).
Qed.

Lemma inv_close A a l :
  lt_leases A !! a = Some l -> ls_live l = true -> lease_inv A -> lease_inv (close_lease a l A).
Proof.
  intros Ha Hl Hinv. pose proof Hinv as [I1 I2 I3 I4 I5 I6 I7 I8].
  destruct (I4 _ _ Ha Hl) as [[h Hh] [n Hn]].
  assert (forall b lb, alter bury a (lt_leases A) !! b = Some lb ->
    exists l0, lt_leases A !! b = Some l0 /\ ls_attempt lb = ls_attempt l0 /\
      ls_schedule lb = ls_schedule l0 /\ ls_flow lb = ls_flow l0 /\
      (ls_live lb = true -> lb = l0 /\ b <> a)) as Hold.
  { intros b lb [(<- & l0 & H0 & ->)|[Hne H0]]%lookup_alter_Some; exists l0 || exists lb; done. }
  unfold close_lease. split; upd_simpl; try done.
  - intros b lb (l0 & H0 & -> & _)%Hold. eauto.
  - intros f b hb [(<- & ? & H0 & [= -> ->])|[_ H0]]%lookup_alter_Some; [done | eauto].
  - intros f b hb [(<- & ? & H0 & [= -> ->])|[Hne H0]]%lookup_alter_Some Hb; [done|].
    destruct (I3 _ _ _ H0 Hb) as (lb & Hlb & Hlive & Hflow). exists lb. split_and!; try done.
    apply lookup_alter_Some. right. split; [|done]. intros ->. congruence.
  - intros b lb Hb Hlive. destruct (Hold _ _ Hb) as (l0 & H0 & _ & _ & _ & Hl0).
    destruct (Hl0 Hlive) as [-> Hne]. destruct (I4 _ _ H0 Hlive) as [[hb Hhb] Hs].
    split; [|by apply lookup_alter_is_Some]. exists hb. apply lookup_alter_Some. right.
    split; [|done]. intros Hf. apply Hne. by eapply (live_unique A b a l0 l).
  - intros s k Hk. erewrite live_count_bury by done. apply lookup_alter_Some in Hk.
    destruct Hk as [(<- & k0 & Hk0 & ->)|[Hne Hk]].
    + rewrite N.eqb_refl. by rewrite (I5 _ _ Hk0).
    + destruct (N.eqb_spec (ls_schedule l) s) as [|_]; [congruence|].
      rewrite N.sub_0_r. by apply I5.
  - intros s L b HL Hb. destruct (I6 _ _ _ HL Hb) as [? Hs]. split; [done|].
    intros lb (l0 & H0 & _ & -> & _)%Hold. eauto.
  - intros s Hs. apply I7. by apply lookup_alter_is_Some in Hs.
Qed.

Lemma inv_forget A s : lt_open A !! s = Some 0 -> lease_inv A -> lease_inv (forget_schedule s A).
Proof.
  intros Hs [I1 I2 I3 I4 I5 I6 I7 I8].
  set (L := default [] (lt_lists A !! s)).
  assert (forall b lb, foldl (fun m a => delete a m) (lt_leases A) L !! b = Some lb ->
    lt_leases A !! b = Some lb) as Hold.
  { intros b lb. rewrite lookup_delete_all. by case_decide. }
  assert (forall b lb, lt_leases A !! b = Some lb -> ls_live lb = true ->
    ls_schedule lb <> s /\ foldl (fun m a => delete a m) (lt_leases A) L !! b = Some lb) as Hkeep.
  { intros b lb Hb Hlive. assert (ls_schedule lb <> s) as Hne.
    { intros Heq. pose proof (eq_sym (I5 _ _ Hs)) as H0. by eapply (proj1 (live_count_zero _ _) H0). }
    split; [done|]. rewrite lookup_delete_all. case_decide as Hin; [|done]. exfalso. apply Hne.
    unfold L in Hin. destruct (lt_lists A !! s) as [L'|] eqn:HL; [|by apply not_elem_of_nil in Hin].
    by apply (I6 _ _ _ HL Hin). }
  unfold forget_schedule. split; upd_simpl; fold L; try done.
  - intros b lb ?%Hold. eauto.
  - intros f b h Hf Hb. destruct (I3 _ _ _ Hf Hb) as (lb & Hlb & Hlive & Hflow).
    exists lb. split_and!; try done. by apply Hkeep.
  - intros b lb Hb%Hold Hlive. destruct (I4 _ _ Hb Hlive) as [Hf Ho]. split; [done|].
    rewrite lookup_delete_ne; [done|]. symmetry. by apply (Hkeep b lb).
  - intros t n [Hne Hn]%lookup_delete_Some. rewrite (I5 _ _ Hn). unfold live_count. do 2 f_equal.
    apply map_eq. intros b. apply option_eq. intros lb. rewrite !map_lookup_filter_Some.
    split; intros [Hb Hlive]; (split; [|done]); [|by apply Hold].
    apply Hkeep; [done | apply Hlive].
  - intros t L' b [Hne HL]%lookup_delete_Some Hb. destruct (I6 _ _ _ HL Hb) as [? Ht].
    split; [done|]. intros lb ?%Hold. eauto.
  - intros t [n [_ Hn]%lookup_delete_Some]. apply I7. eauto.
Qed.

Lemma inv_fence A :
  (forall a l, lt_leases A !! a = Some l -> ls_live l = false) -> lease_inv A -> lease_inv (fence A).
Proof.
  intros Hdead [I1 I2 I3 I4 I5 I6 I7 I8]. unfold fence. split; upd_simpl; try done.
  - intros f a h Hf Ha. destruct (I3 _ _ _ Hf Ha) as (l & Hl & Hlive & _).
    by rewrite (Hdead _ _ Hl) in Hlive.
  - by intros s [n Hn].
Qed.

Lemma inv_open A f s n :
  lt_holds A !! f = Some (0, false) -> lt_open A !! s = Some n -> lease_inv A ->
  lease_inv (open_lease f s A).
Proof.
  intros Hf Hs Hinv. pose proof Hinv as [I1 I2 I3 I4 I5 I6 I7 I8].
  set (a := lt_next_attempt A).
  assert (lt_leases A !! a = None) as Hnone.
  { destruct (lt_leases A !! a) as [l|] eqn:E; [|done]. destruct (I1 _ _ E) as (_ & _ & ?). lia. }
  unfold open_lease. cbv zeta. fold a. split; upd_simpl.
  - intros b lb [[<- <-]|[_ Hb]]%lookup_insert_Some; [simpl; lia|].
    destruct (I1 _ _ Hb) as (? & ? & ?). split_and!; [done|done|lia].
  - intros g b h [[<- [= <- <-]]|[_ H]]%lookup_insert_Some; [|eauto].
    symmetry. apply id_valid_true. lia.
  - intros g b h [[<- [= <- <-]]|[Hne H]]%lookup_insert_Some Hb.
    + eexists. rewrite lookup_insert_eq. by split.
    + destruct (I3 _ _ _ H Hb) as (lb & Hlb & Hlive & Hflow). exists lb.
      rewrite lookup_insert_ne by congruence. done.
  - intros b lb [[<- <-]|[Hne Hb]]%lookup_insert_Some Hlive; cbn [ls_flow ls_schedule].
    + split; [exists true; apply lookup_insert_eq|]. apply lookup_alter_is_Some. eauto.
    + destruct (I4 _ _ Hb Hlive) as [[h Hh] Ho]. split; [|by apply lookup_alter_is_Some].
      exists h. rewrite lookup_insert_ne; [done|]. intros ->. rewrite Hf in Hh.
      injection Hh as <- _. by destruct (I1 _ _ Hb) as (_ & ? & _).
  - intros t k [(<- & k0 & Hk0 & ->)|[Hne Hk]]%lookup_alter_Some.
    + rewrite live_count_live by done. by rewrite (I5 _ _ Hk0).
    + rewrite live_count_dead; [by apply I5 | done | by intros [_ ?]].
  - intros t L b [[<- <-]|[Hne HL]]%lookup_insert_Some Hb.
    + apply elem_of_app in Hb as [Hb|Hb%list_elem_of_singleton].
      * destruct (lt_lists A !! s) as [L|] eqn:HL; [|by apply not_elem_of_nil in Hb].
        destruct (I6 _ _ _ HL Hb) as [? Ht]. split; [lia|].
        intros lb [[<- <-]|[_ Hlb]]%lookup_insert_Some; eauto.
      * subst b. split; [lia|]. intros lb. rewrite lookup_insert_eq. by intros [= <-].
    + destruct (I6 _ _ _ HL Hb) as [? Ht]. split; [lia|].
      intros lb [[<- <-]|[_ Hlb]]%lookup_insert_Some; [lia | eauto].
  - intros t Ht. apply I7. by apply lookup_alter_is_Some in Ht.
  - lia.
Qed.

Lemma inv_add_schedule A : lease_inv A -> lease_inv (add_schedule A).
Proof.
  intros [I1 I2 I3 I4 I5 I6 I7 I8].
  assert (lt_open A !! lt_next_schedule A = None) as Hnone.
  { destruct (lt_open A !! _) eqn:E; [|done]. pose proof (I7 _ (mk_is_Some _ _ E)). lia. }
  unfold add_schedule. split; upd_simpl; try done.
  - intros a l Ha Hl. destruct (I4 _ _ Ha Hl) as [? Ho]. split; [done|].
    apply lookup_insert_is_Some'. by right.
  - intros s n [[<- <-]|[_ Hn]]%lookup_insert_Some; [|by apply I5]. symmetry.
    apply live_count_zero. intros a l Ha [Hl Hs]. destruct (I4 _ _ Ha Hl) as [_ Ho].
    rewrite Hs, Hnone in Ho. by destruct Ho.
  - intros s [n [[<- _]|[_ Hn]]%lookup_insert_Some]; [lia|].
    pose proof (I7 _ (mk_is_Some _ _ Hn)). lia.
Qed.

Lemma lease_inv_quiet A B : quiet A B -> lease_inv A -> lease_inv B.
Proof.
  intros []; [by apply inv_add_flow | by apply inv_drop_flow | by apply inv_close
             | by apply inv_forget | by apply inv_fence].
Qed.

Lemma lease_inv_quiets A B : rtc quiet A B -> lease_inv A -> lease_inv B.
Proof. induction 1; eauto using lease_inv_quiet. Qed.

Lemma lease_inv_step A B : step A B -> lease_inv A -> lease_inv B.
Proof.
  intros []; [by apply lease_inv_quiet | by eapply inv_open | by apply inv_add_schedule].
Qed.

Lemma lease_inv_steps A B : rtc step A B -> lease_inv A -> lease_inv B.
Proof. induction 1; eauto using lease_inv_step. Qed.

Lemma quiets_steps A B : rtc quiet A B -> rtc step A B.
Proof. induction 1; [done|]. eapply rtc_l; [by apply step_quiet | done]. Qed.

(** Quiet steps issue no identity. *)
Lemma quiets_next A B :
  rtc quiet A B ->
  lt_next_attempt B = lt_next_attempt A /\ lt_next_schedule B = lt_next_schedule A /\
  lt_next_generation B = lt_next_generation A.
Proof.
  induction 1 as [|A B C HAB _ (-> & -> & ->)]; [done|].
  destruct HAB; unfold add_flow, drop_flow, close_lease, forget_schedule, fence; by upd_simpl.
Qed.

Lemma tacit_more A B C : tacit A B -> rtc quiet B C -> tacit A C.
Proof.
  intros [H|D H1 H2] HC; [apply tacit_quiet | apply (tacit_issue _ _ D); [done|]]; by etrans.
Qed.

Lemma tacit_steps A B : tacit A B -> rtc step A B.
Proof.
  intros [H|C H1 H2]; [by apply quiets_steps|]. etrans; [by apply quiets_steps|].
  eapply rtc_l; [apply step_schedule | by apply quiets_steps].
Qed.

Lemma tacit_next A B :
  tacit A B ->
  lt_next_attempt B = lt_next_attempt A /\ lt_next_schedule B <= lt_next_schedule A + 1 /\
  lt_next_generation B <= lt_next_generation A + 1.
Proof.
  intros [(-> & -> & ->)%quiets_next|C (H1 & H2 & H3)%quiets_next (-> & -> & ->)%quiets_next].
  - lia.
  - unfold add_schedule. upd_simpl. lia.
Qed.

(** A lease never comes back to life: along any sequence of steps an identity that
    was issued is afterwards dead or forgotten once it has been either. *)
Definition dead (a : N) (A : Leases) : Prop :=
  a < lt_next_attempt A /\ forall l, lt_leases A !! a = Some l -> ls_live l = false.

Lemma dead_step a A B : step A B -> dead a A -> dead a B.
Proof.
  intros Hs [Hn Hd]. destruct Hs as [B HAB|f s n Hf Ho|].
  - destruct HAB; unfold add_flow, drop_flow, close_lease, forget_schedule, fence;
      split; upd_simpl; try done.
    + intros l' [(-> & l0 & Hl0 & ->)|[_ Hl0]]%lookup_alter_Some; [done | by apply Hd].
    + intros l'. rewrite lookup_delete_all. case_decide; [done | by apply Hd].
  - unfold open_lease. cbv zeta. split; upd_simpl; [lia|].
    intros l [[<- <-]|[_ H0]]%lookup_insert_Some; [lia | by apply Hd].
  - unfold add_schedule. by split; upd_simpl.
Qed.

Lemma dead_steps a A B : rtc step A B -> dead a A -> dead a B.
Proof. induction 1; eauto using dead_step. Qed.

(** Identities are never reused, so there are fewer live leases than identities. *)
Lemma live_count_lt A s : lease_inv A -> live_count s (lt_leases A) < lt_next_attempt A.
Proof.
  intros H. unfold live_count. set (m := filter _ (lt_leases A)).
  set (keys := N.to_nat <$> (map_to_list m).*1).
  assert (NoDup keys) as Hnd.
  { apply NoDup_fmap_2; [intros x y; apply N2Nat.inj | apply NoDup_fst_map_to_list]. }
  assert (keys ⊆ seq 1 (N.to_nat (lt_next_attempt A) - 1)) as Hsub.
  { intros k Hk. unfold keys in Hk. apply list_elem_of_fmap in Hk as (a & -> & Ha).
    apply list_elem_of_fmap in Ha as ([a' l] & -> & Hal). apply elem_of_map_to_list in Hal.
    apply map_lookup_filter_Some in Hal as [Hal _]. destruct (li_id _ H _ _ Hal) as (_ & ? & ?).
    apply elem_of_seq. cbn. lia. }
  pose proof (submseteq_length _ _ (NoDup_submseteq _ _ Hnd Hsub)) as Hlen.
  unfold keys in Hlen. rewrite !length_fmap, length_map_to_list, length_seq in Hlen.
  pose proof (li_next _ H). lia.
Qed.
