(* ===== verification/Authority.v ===== *)
(** * The scheduler implements the lease discipline

    [leases] reads the abstract state of Lease.v off a scheduler.  Every
    transition is a sequence of abstract steps; hence every call is, and the
    invariant of the abstract machine holds in every state of a scheduler that
    has not exhausted its 64-bit identities. *)

From S2P Require Import Prelude Checked Bytes Hash Model Schedule Codec Journal State.
From S2P Require Import Transitions Arbitrate Operations Recovery Fixture Invariants System Lease.

(** ** The abstraction *)

Definition in_flight (l : FlowLifecycle) : bool :=
  match l with Dispatched | Running => true | _ => false end.

Definition hold_of (rt : FlowRuntime) : N * bool :=
  (fr_open_attempt rt, in_flight (fr_lifecycle rt)).

Definition lease_of (a : AttemptRuntime) : Lease :=
  mkLease (tk_attempt (at_ticket a)) (tk_flow (at_ticket a)) (tk_schedule (at_ticket a))
    (negb (is_attempt_terminal (at_state a))).

Definition leases (im : Impl) : Leases :=
  mkLeases (hold_of <$> im_flows im) (lease_of <$> im_attempts im)
    (sr_open_attempts <$> im_schedules im) (im_schedule_attempts im)
    (im_next_attempt im) (im_next_schedule im) (im_next_schedule_generation im).

Lemma Leases_eq A B :
  lt_holds A = lt_holds B -> lt_leases A = lt_leases B -> lt_open A = lt_open B ->
  lt_lists A = lt_lists B -> lt_next_attempt A = lt_next_attempt B ->
  lt_next_schedule A = lt_next_schedule B -> lt_next_generation A = lt_next_generation B -> A = B.
Proof. destruct A, B. cbn. by intros -> -> -> -> -> -> ->. Qed.

(** The components of the abstraction of an updated state. *)
Ltac leases_simpl :=
  apply Leases_eq; unfold leases; upd_simpl;
  cbn [lt_holds lt_leases lt_open lt_lists lt_next_attempt lt_next_schedule lt_next_generation];
  upd_simpl.

(** ** Updates that the abstraction does not see *)

Lemma fmap_alter_same {A B} (g : A -> B) (f : A -> A) (k : N) (m : gmap N A) :
  (forall x, m !! k = Some x -> g (f x) = g x) -> g <$> alter f k m = g <$> m.
Proof.
  intros H. apply map_eq. intros i. rewrite !lookup_fmap. destruct (decide (k = i)) as [<-|Hne].
  - rewrite lookup_alter_eq. destruct (m !! k) as [x|] eqn:E; simpl; [|done]. by rewrite H.
  - by rewrite lookup_alter_ne.
Qed.

Lemma fmap_alter_commute {A B} (g : A -> B) (f : A -> A) (h : B -> B) (k : N) (m : gmap N A) :
  (forall x, m !! k = Some x -> g (f x) = h (g x)) -> g <$> alter f k m = alter h k (g <$> m).
Proof.
  intros H. apply map_eq. intros i. rewrite lookup_fmap. destruct (decide (k = i)) as [<-|Hne].
  - rewrite !lookup_alter_eq, lookup_fmap. destruct (m !! k) as [x|] eqn:E; simpl; [|done].
    by rewrite H.
  - by rewrite !lookup_alter_ne, lookup_fmap.
Qed.

Lemma leases_upd_flow id f im :
  (forall rt, im_flows im !! id = Some rt -> hold_of (f rt) = hold_of rt) ->
  leases (upd_flow id f im) = leases im.
Proof.
  intros H. unfold leases, upd_flow. upd_simpl. f_equal. by apply fmap_alter_same.
Qed.

Lemma leases_upd_schedule id f im :
  (forall s, sr_open_attempts (f s) = sr_open_attempts s) ->
  leases (upd_schedule id f im) = leases im.
Proof.
  intros H. unfold leases, upd_schedule. upd_simpl. f_equal. by apply fmap_alter_same.
Qed.

Lemma leases_upd_resource id f im : leases (upd_resource id f im) = leases im.
Proof. done. Qed.

Lemma leases_record_step id step im : leases (record_step id step im) = leases im.
Proof. apply leases_upd_flow. intros rt _. cbv zeta. by case_match. Qed.

Lemma enter_lifecycle_hold im next now rt :
  hold_of (enter_lifecycle im next now rt) = (fr_open_attempt rt, in_flight next).
Proof.
  unfold hold_of. rewrite (proj2 (enter_lifecycle_plain im next now rt)). f_equal.
  unfold enter_lifecycle, refresh_min_service_window. cbv zeta. repeat case_match; done.
Qed.

(** A change of the flow table alone. *)
Lemma leases_flows m g im :
  hold_of <$> m = g (hold_of <$> im_flows im) ->
  leases (im <| im_flows := m |>) = (leases im) <| lt_holds ::= g |>.
Proof. intros H. unfold leases, upd. cbn. by rewrite H. Qed.

Lemma leases_update_index f a b im : leases (update_index f a b im) = leases im.
Proof. unfold update_index, index_insert, index_erase. by destruct (slot a), (slot b). Qed.

(** A change of lifecycle is a change of the in-flight flag. *)
Lemma leases_set_lifecycle id next now im :
  leases (set_lifecycle id next now im) =
  (leases im) <| lt_holds ::= alter (fun h => (h.1, in_flight next)) id |>.
Proof.
  set (g := alter (fun h : N * bool => (h.1, in_flight next)) id : gmap N (N * bool) -> _).
  assert (forall i, i <> id -> forall m, g m !! i = m !! i) as Hne
    by (intros; by apply lookup_alter_ne).
  assert (forall m, hold_of <$> m = g (hold_of <$> im_flows im) ->
    leases (im <| im_flows := m |>) = (leases im) <| lt_holds ::= g |>) as Hflows
    by (intros; by apply leases_flows).
  unfold set_lifecycle. destruct (im_flows im !! id) as [rt|] eqn:Hid;
    [case_bool_decide as Heq|].
  - rewrite <- (Hflows (im_flows im)); [by destruct im|]. apply map_eq. intros i.
    destruct (decide (i = id)) as [->|]; [|by rewrite Hne]. unfold g.
    rewrite lookup_alter_eq, lookup_fmap, Hid. simpl. unfold hold_of. simpl. by rewrite Heq.
  - rewrite leases_update_index. apply Hflows. apply map_eq. intros i. rewrite lookup_fmap.
    destruct (decide (i = id)) as [->|].
    + unfold g. rewrite lookup_insert_eq, lookup_alter_eq, lookup_fmap, Hid. simpl.
      by rewrite enter_lifecycle_hold.
    + by rewrite lookup_insert_ne, Hne, lookup_fmap.
  - rewrite <- (Hflows (im_flows im)); [by destruct im|]. apply map_eq. intros i.
    destruct (decide (i = id)) as [->|]; [|by rewrite Hne]. unfold g.
    by rewrite lookup_alter_eq, lookup_fmap, Hid.
Qed.

Lemma leases_transition id next now reason sch att detail im :
  leases (transition id next now reason sch att detail im) =
  (leases im) <| lt_holds ::= alter (fun h => (h.1, in_flight next)) id |>.
Proof. unfold transition. by rewrite leases_record_step, leases_set_lifecycle. Qed.

Lemma alter_hold_same id b (A : Leases) :
  (forall h, lt_holds A !! id = Some h -> h.2 = b) ->
  A <| lt_holds ::= alter (fun h => (h.1, b)) id |> = A.
Proof.
  intros H. destruct A as [holds ls o l n1 n2 n3]. unfold upd. cbn in *. f_equal. apply map_eq.
  intros i. destruct (decide (id = i)) as [<-|]; [|by rewrite lookup_alter_ne].
  rewrite lookup_alter_eq. destruct (holds !! id) as [[x y]|] eqn:E; simpl; [|done].
  by rewrite <- (H (x, y) eq_refl).
Qed.

(** A flow that is not in flight, moving to a lifecycle that is not either. *)
Definition grounded (id : FlowId) (im : Impl) : Prop :=
  forall rt, im_flows im !! id = Some rt -> in_flight (fr_lifecycle rt) = false.

Lemma grounded_holds id im :
  grounded id im <-> forall h, lt_holds (leases im) !! id = Some h -> h.2 = false.
Proof.
  unfold grounded, leases. cbn. setoid_rewrite lookup_fmap_Some. split.
  - intros H h (rt & <- & Hrt). by apply H.
  - intros H rt Hrt. by apply (H (hold_of rt)); eauto.
Qed.

Lemma grounded_ext id im im' : leases im' = leases im -> grounded id im -> grounded id im'.
Proof. rewrite !grounded_holds. by intros ->. Qed.

Lemma leases_transition_same id next now reason sch att detail im :
  in_flight next = false -> grounded id im ->
  leases (transition id next now reason sch att detail im) = leases im.
Proof.
  intros Hn Hg. rewrite leases_transition, Hn. apply alter_hold_same. by apply grounded_holds.
Qed.

Lemma leases_set_lifecycle_same id next now im :
  in_flight next = false -> grounded id im -> leases (set_lifecycle id next now im) = leases im.
Proof.
  intros Hn Hg. rewrite leases_set_lifecycle, Hn. apply alter_hold_same. by apply grounded_holds.
Qed.

(** ** Transitions as abstract steps *)

Lemma lookup_leases im a l :
  lt_leases (leases im) !! a = Some l <-> exists r, im_attempts im !! a = Some r /\ l = lease_of r.
Proof. cbn. rewrite lookup_fmap_Some. naive_solver. Qed.

Lemma lookup_holds im f h :
  lt_holds (leases im) !! f = Some h <-> exists rt, im_flows im !! f = Some rt /\ h = hold_of rt.
Proof. cbn. rewrite lookup_fmap_Some. naive_solver. Qed.

Lemma lookup_open im s n :
  lt_open (leases im) !! s = Some n <->
  exists r, im_schedules im !! s = Some r /\ n = sr_open_attempts r.
Proof. cbn. rewrite lookup_fmap_Some. naive_solver. Qed.

(** Closing an attempt: the three tables first, then the flow moves on. *)
Definition release_lease (a : N) (l : Lease) (A : Leases) : Leases :=
  A <| lt_holds ::= alter (fun h => (0, h.2)) (ls_flow l) |>
    <| lt_leases ::= alter bury a |>
    <| lt_open ::= alter (fun n => n - 1) (ls_schedule l) |>.

Lemma release_then_ground a l A :
  (release_lease a l A) <| lt_holds ::= alter (fun h => (h.1, false)) (ls_flow l) |> =
  close_lease a l A.
Proof.
  destruct A as [holds ls o lists n1 n2 n3]. unfold release_lease, close_lease, upd. cbn. f_equal.
  apply map_eq. intros i. destruct (decide (ls_flow l = i)) as [<-|].
  - rewrite !lookup_alter_eq. by destruct (holds !! ls_flow l).
  - by rewrite !lookup_alter_ne.
Qed.

Lemma leases_release a r f g st im im1 :
  is_attempt_terminal st = true ->
  im_attempts im1 = alter f a (im_attempts im) ->
  (forall x, at_ticket (f x) = at_ticket x /\ at_state (f x) = st) ->
  im_schedules im1 = alter (fun s => s <| sr_open_attempts ::= decr |>)
                       (tk_schedule (at_ticket r)) (im_schedules im) ->
  im_flows im1 = alter g (tk_flow (at_ticket r)) (im_flows im) ->
  (forall x, fr_open_attempt (g x) = 0 /\ fr_lifecycle (g x) = fr_lifecycle x) ->
  im_schedule_attempts im1 = im_schedule_attempts im ->
  im_next_attempt im1 = im_next_attempt im -> im_next_schedule im1 = im_next_schedule im ->
  im_next_schedule_generation im1 = im_next_schedule_generation im ->
  leases im1 = release_lease a (lease_of r) (leases im).
Proof.
  intros Hst Ha Hf Hs Hg Hh Hl Hn1 Hn2 Hn3. unfold release_lease, leases, upd. cbn.
  rewrite Ha, Hs, Hg, Hl, Hn1, Hn2, Hn3. f_equal.
  - apply fmap_alter_commute. intros x _. unfold hold_of. cbn. by destruct (Hh x) as [-> ->].
  - apply fmap_alter_commute. intros x _. unfold lease_of, bury. cbn.
    destruct (Hf x) as [-> ->]. by rewrite Hst.
  - apply fmap_alter_commute. intros x _. upd_simpl. unfold decr.
    destruct (N.ltb_spec 0 (sr_open_attempts x)); lia.
Qed.

Definition closing (st : AttemptState) : bool :=
  match st with APreempted | ACancelled | AAbandoned | ARejected => true | _ => false end.

Lemma leases_close_flow f a s st d now im :
  closing st = true ->
  leases (close_flow f a s st d now im) =
  (leases im) <| lt_holds ::= alter (fun h => (h.1, false)) f |>.
Proof.
  intros Hst. destruct st; try done; cbn [close_flow]; rewrite leases_transition; try done.
  by rewrite leases_upd_flow.
Qed.

(** A live attempt is the one its flow holds. *)
Lemma live_attempt_flow im a r :
  lease_inv (leases im) -> im_attempts im !! a = Some r ->
  is_attempt_terminal (at_state r) = false ->
  exists rt, im_flows im !! tk_flow (at_ticket r) = Some rt /\ fr_open_attempt rt = a.
Proof.
  intros Hinv Hr Hlive. destruct (li_live _ Hinv a (lease_of r)) as [[h Hh] _].
  { apply lookup_leases. eauto. } { unfold lease_of. cbn. by rewrite Hlive. }
  apply lookup_holds in Hh as (rt & Hrt & Hhold). injection Hhold as Hopen _. by exists rt.
Qed.

Lemma leases_closed a st d now im :
  closing st = true -> lease_inv (leases im) ->
  leases (apply_attempt_closed a st d now im) =
  match im_attempts im !! a with
  | Some r => if is_attempt_terminal (at_state r) then leases im
              else close_lease a (lease_of r) (leases im)
  | None => leases im
  end.
Proof.
  intros Hst Hinv. unfold apply_attempt_closed.
  destruct (im_attempts im !! a) as [r|] eqn:Hr; [|done].
  destruct (is_attempt_terminal (at_state r)) eqn:Hlive; [done|]. cbv zeta.
  destruct (live_attempt_flow im a r Hinv Hr Hlive) as (rt & Hrt & Hopen).
  unfold upd_schedule at 1, upd_attempt at 1. upd_simpl. rewrite Hrt.
  rewrite Hopen, N.eqb_refl. cbn [negb].
  rewrite leases_close_flow by done. rewrite <- release_then_ground.
  unfold lease_of at 1. cbn [ls_flow]. f_equal.
  eapply (leases_release a r _ _ st); try reflexivity; try done. by destruct st.
Qed.

Lemma quiet_closed a st d now im :
  closing st = true -> lease_inv (leases im) ->
  rtc quiet (leases im) (leases (apply_attempt_closed a st d now im)).
Proof.
  intros Hst Hinv. rewrite leases_closed by done. destruct (im_attempts im !! a) as [r|] eqn:Hr;
    [|done]. destruct (is_attempt_terminal (at_state r)) eqn:Hl; [done|].
  apply rtc_once, quiet_close; [apply lookup_leases; eauto|]. unfold lease_of. cbn. by rewrite Hl.
Qed.

(** ** Transitions the abstraction does not see *)

Lemma leases_release_run_entry s i now im : leases (release_run_entry s i now im) = leases im.
Proof.
  unfold release_run_entry. destruct (im_schedules im !! s) as [sr|]; [|done].
  destruct (sc_entries (sr_schedule sr) !! i) as [e|]; [|done].
  destruct (sr_consumed sr !! i) as [[|]|]; [|done|done]. cbv zeta.
  destruct (negb (is_run e)); [by apply leases_upd_schedule|].
  set (im2 := upd_schedule s _ (upd_schedule s _ im)).
  assert (leases im2 = leases im) as Hl by (unfold im2; by rewrite !leases_upd_schedule).
  change (im_flows im2) with (im_flows im).
  destruct (im_flows im !! se_flow e) as [rt|] eqn:Hrt; [|done].
  case_bool_decide as Hsch; [|done]. cbn [negb orb]. destruct (negb _); [done|].
  set (im3 := upd_flow (se_flow e) _ im2).
  assert (leases im3 = leases im) as Hl3 by (unfold im3; by rewrite leases_upd_flow).
  rewrite leases_transition_same; [exact Hl3 | done|].
  apply (grounded_ext _ im); [exact Hl3|]. intros rt' Hrt'.
  replace rt' with rt by congruence. by rewrite Hsch.
Qed.

Lemma leases_apply_release_schedule s now im :
  leases (apply_release_schedule s now im) = leases im.
Proof.
  unfold apply_release_schedule. case_match; [|done].
  apply (foldl_inv (fun i => leases i = leases im)); [done|]. intros i x _ Hi.
  by rewrite leases_release_run_entry.
Qed.

Lemma leases_release_held rt now im : leases (release_held_window rt now im) = leases im.
Proof. unfold release_held_window. repeat case_match; try done. apply leases_release_run_entry. Qed.

Lemma leases_normalize now im : leases (normalize_transient_states now im) = leases im.
Proof.
  unfold normalize_transient_states.
  apply (foldl_inv (fun i => leases i = leases im)); [done|]. intros i id _ Hi.
  unfold normalize_flow. destruct (im_flows i !! id) as [rt|] eqn:Hrt; [|done].
  destruct (fr_lifecycle rt) eqn:Hl; try done;
    (rewrite leases_set_lifecycle_same; [done|done|]; intros rt' Hrt';
     replace rt' with rt by congruence; by rewrite Hl).
Qed.

Lemma leases_resolved f g r now im : leases (apply_ambiguity_resolved f g r now im) = leases im.
Proof.
  unfold apply_ambiguity_resolved. destruct (im_flows im !! f) as [rt|] eqn:Hrt; [|done].
  destruct (negb _); [done|]. case_bool_decide as Hl; [|done]. cbn [negb].
  assert (grounded f im) as Hg
    by (intros rt' Hrt'; replace rt' with rt by congruence; by rewrite Hl).
  destruct r.
  - rewrite leases_record_step, leases_upd_flow by done. by apply leases_set_lifecycle_same.
  - by apply leases_transition_same.
Qed.

Lemma leases_readiness f g s now im : leases (apply_readiness f g s now im) = leases im.
Proof.
  unfold apply_readiness. repeat case_match; try done. by rewrite leases_upd_flow.
Qed.

Lemma leases_rearm f c now im : grounded f im -> leases (rearm f c now im) = leases im.
Proof.
  intros Hg. unfold rearm. repeat case_match; try done;
    [by apply leases_transition_same | by apply leases_set_lifecycle_same].
Qed.

Lemma open_in_flight f rt im :
  lease_inv (leases im) -> im_flows im !! f = Some rt ->
  in_flight (fr_lifecycle rt) = id_valid (fr_open_attempt rt).
Proof. intros Hinv Hrt. eapply (li_flag _ Hinv f). apply lookup_holds. eauto. Qed.

Lemma leases_started a now im :
  lease_inv (leases im) -> leases (apply_attempt_started a now im) = leases im.
Proof.
  intros Hinv. unfold apply_attempt_started. destruct (im_attempts im !! a) as [r|] eqn:Hr; [|done].
  destruct (is_attempt_terminal (at_state r)) eqn:Ht; [done|]. cbn [orb].
  case_bool_decide; [done|]. cbv zeta.
  set (im1 := upd_attempt a _ im).
  assert (leases im1 = leases im) as Hl.
  { unfold im1, leases, upd_attempt. upd_simpl. f_equal. apply fmap_alter_same.
    intros x Hx. replace x with r by congruence. unfold lease_of. cbn. by rewrite Ht. }
  change (im_flows im1) with (im_flows im).
  destruct (im_flows im !! tk_flow (at_ticket r)) as [rt|] eqn:Hrt; [|done].
  destruct (N.eqb_spec (fr_open_attempt rt) a) as [Ho|]; [|done]. cbn [negb].
  rewrite leases_set_lifecycle. rewrite leases_upd_flow by done. rewrite Hl.
  apply alter_hold_same. intros h (rt' & Hrt' & ->)%lookup_holds. cbn.
  rewrite (open_in_flight _ _ _ Hinv Hrt'). replace rt' with rt by congruence.
  apply id_valid_true. rewrite Ho.
  destruct (li_id _ Hinv a (lease_of r)) as (_ & ? & _); [apply lookup_leases; eauto | done].
Qed.

Lemma leases_update d im : leases (exec (apply_update d) im) = leases im.
Proof.
  unfold exec, apply_update. repeat case_match; try done. cbn [fst]. by apply leases_upd_flow.
Qed.

Lemma leases_run_entry s e im :
  schedule_entry_applies e im = true -> leases (apply_run_entry s e im) = leases im.
Proof.
  intros Happ. unfold schedule_entry_applies in Happ. apply andb_true_iff in Happ as [_ Happ].
  unfold apply_run_entry. cbv zeta.
  set (im2 := transition (se_flow e) _ _ _ _ _ _ _).
  assert (leases im2 = leases im) as Hl.
  { unfold im2. rewrite leases_transition_same; [by rewrite leases_upd_flow | done|].
    apply (grounded_ext _ im); [by rewrite leases_upd_flow|]. intros rt Hrt. rewrite Hrt in Happ.
    by destruct (fr_lifecycle rt); rewrite ?andb_false_r in Happ. }
  clearbody im2. set (im3 := upd_schedule _ _ im2).
  assert (leases im3 = leases im) as Hl3 by (unfold im3; by rewrite leases_upd_schedule).
  clearbody im3. repeat case_match; exact Hl3.
Qed.

Lemma leases_apply_schedule s im :
  leases (apply_schedule s im) =
  (leases im) <| lt_open ::= <[ sc_schedule s := 0 ]> |>.
Proof.
  unfold apply_schedule. cbv zeta.
  apply (foldl_inv (fun i => leases i = _)).
  - leases_simpl; try reflexivity. by rewrite fmap_insert.
  - intros i e _ Hi. destruct (schedule_entry_applies e i) eqn:E; [|done].
    by rewrite leases_run_entry.
Qed.

(** ** Transitions that are steps *)

Lemma leases_admit d im :
  im_flows im !! fd_flow d = None ->
  rtc quiet (leases im) (leases (exec (apply_admit d) im)).
Proof.
  intros Hd. unfold exec, apply_admit. destruct (_ && _); [done|]. cbn [fst].
  eapply rtc_once. match goal with |- quiet _ ?B =>
    replace B with (add_flow (fd_flow d) (leases im)) end.
  - apply quiet_add_flow. cbn. by rewrite lookup_fmap, Hd.
  - unfold add_flow. leases_simpl; try reflexivity. by rewrite fmap_insert.
Qed.

Lemma leases_retire_flow f g rt im :
  lease_inv (leases im) -> im_flows im !! f = Some rt -> is_terminal (fr_lifecycle rt) = true ->
  rtc quiet (leases im) (leases (apply_retire_flow f g im)).
Proof.
  intros Hinv Hrt Ht. unfold apply_retire_flow. rewrite Hrt. destruct (negb _); [done|].
  eapply rtc_once. match goal with |- quiet _ ?B => replace B with (drop_flow f (leases im)) end.
  - apply quiet_drop_flow. cbn. rewrite lookup_fmap, Hrt. simpl. unfold hold_of.
    pose proof (open_in_flight _ _ _ Hinv Hrt) as Ho.
    assert (in_flight (fr_lifecycle rt) = false) as Hn by (by destruct (fr_lifecycle rt)).
    rewrite Hn in *. symmetry in Ho. apply id_valid_false in Ho. by rewrite Ho.
  - unfold drop_flow. leases_simpl; try reflexivity. by rewrite fmap_delete.
Qed.

Lemma grounded_close a l f im im' :
  leases im' = close_lease a l (leases im) -> ls_flow l = f -> grounded f im'.
Proof.
  intros Hl <-. apply grounded_holds. intros h. rewrite Hl. unfold close_lease. upd_simpl.
  rewrite lookup_alter_Some. by intros [(_ & ? & _ & ->)|[? _]].
Qed.

Lemma leases_cancel f g now im :
  lease_inv (leases im) -> rtc quiet (leases im) (leases (apply_cancel f g now im)).
Proof.
  intros Hinv. unfold apply_cancel. destruct (im_flows im !! f) as [rt|] eqn:Hrt; [|done].
  destruct (negb _); [done|]. cbv zeta.
  set (im1 := if id_valid (fr_open_attempt rt) then _ else im).
  assert (rtc quiet (leases im) (leases im1) /\ grounded f im1) as [Hq Hg].
  { unfold im1. destruct (id_valid (fr_open_attempt rt)) eqn:Ho.
    - split; [by apply quiet_closed|]. apply id_valid_true in Ho.
      destruct (li_held _ Hinv f (fr_open_attempt rt) (in_flight (fr_lifecycle rt)))
        as (l & Hl & Hlive & Hflow); [apply lookup_holds; eauto | done|].
      apply lookup_leases in Hl as (r & Hr & ->).
      pose proof (leases_closed (fr_open_attempt rt) ACancelled "flow cancelled" now im
        eq_refl Hinv) as Hc. rewrite Hr in Hc. unfold lease_of in Hlive. cbn in Hlive.
      apply negb_true_iff in Hlive. rewrite Hlive in Hc. by eapply grounded_close.
    - split; [done|]. intros rt' Hrt'. rewrite (open_in_flight _ _ _ Hinv Hrt').
      by replace rt' with rt by congruence. }
  set (im2 := match im_flows im1 !! f with Some _ => _ | None => _ end).
  assert (leases im2 = leases im1) as Hl2.
  { unfold im2. repeat case_match; try done. apply leases_release_held. }
  rewrite leases_record_step, leases_upd_flow by done.
  rewrite leases_set_lifecycle_same; [by rewrite Hl2 | done|].
  by apply (grounded_ext _ im1).
Qed.

Lemma leases_opened tk n now im rt sr :
  tk_attempt tk = im_next_attempt im ->
  im_flows im !! tk_flow tk = Some rt -> fr_lifecycle rt = Scheduled ->
  fd_generation (fr_descriptor rt) = tk_flow_generation tk ->
  im_schedules im !! tk_schedule tk = Some sr -> sr_open_attempts sr < u64_max ->
  (leases (apply_attempt_opened tk n now im)) <| lt_next_attempt := im_next_attempt im + 1 |> =
  open_lease (tk_flow tk) (tk_schedule tk) (leases im).
Proof.
  intros Hid Hrt Hsch Hg Hsr Hmax. unfold apply_attempt_opened. cbv zeta.
  set (im2 := upd_schedule (tk_schedule tk) _ _).
  change (im_flows im2) with (im_flows im). rewrite Hrt, Hg, N.eqb_refl. cbn [negb].
  rewrite leases_transition. unfold open_lease. cbv zeta.
  change (lt_next_attempt (leases im)) with (im_next_attempt im).
  apply Leases_eq; upd_simpl; unfold leases; cbn [lt_holds lt_leases lt_open lt_lists
    lt_next_attempt lt_next_schedule lt_next_generation]; unfold upd_flow, im2, upd_schedule; upd_simpl; try done.
  - apply map_eq. intros i. destruct (decide (tk_flow tk = i)) as [<-|].
    + rewrite lookup_alter_eq, lookup_fmap, lookup_alter_eq, Hrt, lookup_insert_eq.
      simpl. unfold hold_of. upd_simpl. by rewrite Hid.
    + by rewrite lookup_alter_ne, lookup_insert_ne, lookup_fmap, lookup_alter_ne, lookup_fmap.
  - rewrite fmap_insert. unfold lease_of at 1. cbn. by rewrite Hid.
  - apply fmap_alter_commute. intros x Hx. replace x with sr by congruence. upd_simpl.
    unfold incr64, wrap64. unfold u64_max, u64_mod in *. rewrite N.mod_small; lia.
  - by rewrite Hid.
Qed.

Lemma leases_completion e c l now im r rt :
  lease_inv (leases im) -> im_attempts im !! ev_attempt e = Some r ->
  is_attempt_terminal (at_state r) = false -> tk_flow (at_ticket r) = ev_flow e ->
  im_flows im !! ev_flow e = Some rt -> in_flight l = false ->
  leases (apply_completion e c l now im) = close_lease (ev_attempt e) (lease_of r) (leases im).
Proof.
  intros Hinv Hr Hlive Hf Hrt Hl. unfold apply_completion. rewrite Hr. cbv zeta.
  unfold upd_schedule at 1, upd_attempt at 1. upd_simpl. rewrite Hrt.
  rewrite leases_transition, Hl. rewrite <- release_then_ground. unfold lease_of at 1.
  cbn [ls_flow]. rewrite Hf. f_equal.
  match goal with |- leases (upd im_completions_applied _ ?i) = _ =>
    change (leases i = release_lease (ev_attempt e) (lease_of r) (leases im)) end.
  rewrite leases_upd_flow by done.
  match goal with |- leases (if _ then _ else ?i) = _ =>
    transitivity (leases i); [destruct (0 <? c); [by apply leases_upd_flow | done]|] end.
  rewrite <- Hf. eapply (leases_release _ r _ _ ACommitted); try reflexivity; done.
Qed.

(** ** Epochs and retirement *)

Lemma live_close a l A b lb :
  lt_leases (close_lease a l A) !! b = Some lb -> ls_live lb = true ->
  b <> a /\ lt_leases A !! b = Some lb.
Proof.
  unfold close_lease. upd_simpl. rewrite lookup_alter_Some.
  intros [(_ & l0 & _ & ->)|[Hne H]] Hlive; [done|]. by split.
Qed.

Definition abandon_one (now : Ticks) (detail : string) (im : Impl) (a : DispatchAttemptId) : Impl :=
  (apply_attempt_closed a AAbandoned detail now im)
    <| im_recovery ::= fun r => r <| rp_attempts_abandoned ::= incr64 |> |>.

Lemma leases_abandon_all now d l im :
  lease_inv (leases im) ->
  let im' := foldl (abandon_one now d) im l in
  rtc quiet (leases im) (leases im') /\
  forall a la, lt_leases (leases im') !! a = Some la -> ls_live la = true ->
    (a ∉ l) /\ lt_leases (leases im) !! a = Some la.
Proof.
  revert im. induction l as [|a l IH]; intros im Hinv; cbn [foldl].
  { split; [done|]. intros a la Ha _. split; [apply not_elem_of_nil | done]. }
  set (im1 := abandon_one now d im a).
  assert (leases im1 = leases (apply_attempt_closed a AAbandoned d now im)) as Hl by done.
  assert (rtc quiet (leases im) (leases im1)) as Hq by (rewrite Hl; by apply quiet_closed).
  destruct (IH im1) as [Hq' Hlive]; [by eapply lease_inv_quiets|].
  split; [by etrans|]. intros b lb Hb Hlb. destruct (Hlive _ _ Hb Hlb) as [Hnin Hb1].
  rewrite Hl, leases_closed in Hb1 by done.
  assert (b <> a /\ lt_leases (leases im) !! b = Some lb) as [Hne Hb0].
  { destruct (im_attempts im !! a) as [r|] eqn:Hr.
    - destruct (is_attempt_terminal (at_state r)) eqn:Ht; [|by eapply live_close].
      split; [|done]. intros ->. apply lookup_leases in Hb1 as (r' & Hr' & ->).
      unfold lease_of in Hlb. cbn in Hlb. replace r' with r in Hlb by congruence.
      by rewrite Ht in Hlb.
    - split; [|done]. intros ->. apply lookup_leases in Hb1 as (r' & Hr' & ->). congruence. }
  split; [|done]. by apply not_elem_of_cons.
Qed.

Lemma elem_of_open_attempts a im :
  a ∈ open_attempts im <->
  exists r, im_attempts im !! a = Some r /\ is_attempt_terminal (at_state r) = false.
Proof.
  unfold open_attempts. rewrite list_elem_of_omap. split.
  - intros ([b r] & Hin%elem_of_map_entries & Hb). destruct (is_attempt_terminal _) eqn:E; [done|].
    injection Hb as ->. eauto.
  - intros (r & Hr & Ht). exists (a, r). split; [by apply elem_of_map_entries|]. by rewrite Ht.
Qed.

Lemma leases_abandon now d im :
  lease_inv (leases im) ->
  rtc quiet (leases im) (leases (abandon_open_attempts now d im)) /\
  forall a l, lt_leases (leases (abandon_open_attempts now d im)) !! a = Some l -> ls_live l = false.
Proof.
  intros Hinv. unfold abandon_open_attempts. cbv zeta. rewrite leases_normalize.
  change (foldl _ im (open_attempts im)) with (foldl (abandon_one now d) im (open_attempts im)).
  destruct (leases_abandon_all now d (open_attempts im) im Hinv) as [Hq Hlive].
  set (im1 := foldl (abandon_one now d) im (open_attempts im)) in *.
  assert (leases (foldl (fun i id => apply_release_schedule id now i) im1 (im_schedule_order im1))
    = leases im1) as ->.
  { apply (foldl_inv (fun i => leases i = leases im1)); [done|]. intros i x _ Hi.
    by rewrite leases_apply_release_schedule. }
  split; [done|]. intros a l Ha. destruct (ls_live l) eqn:El; [|done].
  destruct (Hlive a l Ha El) as [Hnin H0]. exfalso. apply Hnin. apply elem_of_open_attempts.
  apply lookup_leases in H0 as (r & Hr & ->). exists r. split; [done|].
  unfold lease_of in El. cbn in El. by apply negb_true_iff in El.
Qed.

Lemma leases_reindex im : leases (reindex_all im) = leases im.
Proof.
  unfold reindex_all. cbv zeta. apply (foldl_inv (fun i => leases i = leases im)); [done|].
  intros i [id rt] _ Hi. rewrite <- Hi. by destruct (slot _).
Qed.

Lemma leases_clear_tables im e :
  leases (im <| im_schedules := ∅ |> <| im_schedule_attempts := ∅ |> <| im_schedule_order := [] |>
    <| im_attempts := ∅ |> <| im_epoch := e |>
    <| im_preemptions_in_window := 0 |> <| im_preemption_window_index := 0 |>) =
  fence (leases im).
Proof. unfold fence. leases_simpl; first [reflexivity | by rewrite fmap_empty]. Qed.

Lemma leases_epoch next now im :
  lease_inv (leases im) -> rtc quiet (leases im) (leases (apply_epoch_advance next now im)).
Proof.
  intros Hinv. unfold apply_epoch_advance. cbv zeta. rewrite leases_clear_tables, leases_reindex.
  destruct (leases_abandon now "epoch advanced: prior dispatch authority retired" im Hinv)
    as [Hq Hdead].
  set (im1 := abandon_open_attempts _ _ _) in *.
  match goal with |- rtc _ _ (fence (leases ?i)) => assert (leases i = leases im1) as -> end.
  { leases_simpl; try reflexivity. rewrite <- map_fmap_compose. by apply map_fmap_ext. }
  eapply rtc_r; [done|]. by apply quiet_fence.
Qed.

Lemma leases_retire order im : rtc quiet (leases im) (leases (retire_loop order im)).
Proof.
  revert im. induction order as [|s order IH]; intros im; cbn [retire_loop]; [done|].
  destruct (_ <=? _); [done|]. unfold find_schedule.
  destruct (im_schedules im !! s) as [sr|] eqn:Hs; 
    [|by etrans; [|apply IH]].
  destruct (N.ltb_spec 0 (sr_open_attempts sr)) as [|H0]; [done|]. cbn [orb].
  destruct (0 <? sr_pending_entries sr); [done|]. cbv zeta.
  etrans; [|apply IH]. apply rtc_once.
  match goal with |- quiet _ ?B => replace B with (forget_schedule s (leases im)) end.
  - apply quiet_forget. apply lookup_open. exists sr. split; [done|lia].
  - unfold forget_schedule. apply Leases_eq; unfold leases; upd_simpl; cbn [lt_holds lt_leases
      lt_open lt_lists lt_next_attempt lt_next_schedule lt_next_generation];
      destruct (im_schedule_attempts im !! s) as [L|] eqn:HL; upd_simpl; try done; cbn [default].
    + clear. generalize (im_attempts im) as m. induction L as [|a L IH]; intros m; [done|].
      cbn [foldl]. by rewrite <- IH, fmap_delete.
    + by rewrite fmap_delete.
    + by rewrite fmap_delete.
    + by rewrite delete_id.
Qed.

(** ** Calls as sequences of quiet steps *)

Section Quiet.
Context (A0 : Leases) (Hinv0 : lease_inv A0).
Let P (im : Impl) : Prop := rtc quiet A0 (leases im).

Lemma quiet_inv im : P im -> lease_inv (leases im).
Proof. intros H. by eapply lease_inv_quiets. Qed.

Lemma quiet_same im im' : leases im' = leases im -> P im -> P im'.
Proof. unfold P. by intros ->. Qed.

Lemma quiet_more im im' :
  (lease_inv (leases im) -> rtc quiet (leases im) (leases im')) -> P im -> P im'.
Proof. intros H HP. unfold P. etrans; [exact HP|]. apply H, quiet_inv, HP. Qed.

Lemma quiet_journal t ops : preserves P (journal t ops).
Proof.
  intros im H. unfold exec, journal. destruct (im_store im) as [ds|]; [|done].
  destruct (append t (payload ops) ds) as [ds' r]. cbn [fst]. by apply (quiet_same im).
Qed.

Lemma quiet_close_attempt a st d now : closing st = true -> preserves P (close_attempt a st d now).
Proof.
  intros Hst. unfold close_attempt. repeat preserve_step; [apply quiet_journal|].
  eapply quiet_more; [|done]. intros. by apply quiet_closed.
Qed.

Lemma quiet_on_store {A} (m : StoreM A) : preserves P (on_store m).
Proof.
  intros im H. unfold exec, on_store. destruct (im_store im) as [ds|]; [|done].
  destruct (m ds) as [ds' r]. cbn [fst]. by apply (quiet_same im).
Qed.

Lemma quiet_checkpoint : preserves P checkpoint.
Proof.
  intros im H. unfold exec, checkpoint. destruct (im_store im); [|done].
  destruct (encode_state_snapshot im) as [|b l]; [done|]. by apply quiet_on_store.
Qed.

(** A leaf of a method: one of the updates the abstraction does not see. *)
Ltac quiet_leaf :=
  lazymatch goal with
  | |- preserves _ (journal _ _) => apply quiet_journal
  | |- preserves _ (close_attempt _ _ _ _) => by apply quiet_close_attempt
  | |- preserves _ (apply_update _) => intros ?; apply quiet_same, leases_update
  | H : P ?im |- P _ =>
      first [ by apply (quiet_same im)
            | by apply (quiet_same im); rewrite ?leases_normalize, ?leases_apply_release_schedule,
                ?leases_release_held, ?leases_resolved, ?leases_readiness
            | apply (quiet_more im); [intros ?|done] ]
  end.
Ltac quiet_method := unfold observe_tick, require_flow; repeat preserve_step; try quiet_leaf; try done.

Lemma quiet_admit_flow d : preserves P (admit_flow d).
Proof.
  intros im H. apply wp_exec. unfold admit_flow. do 2 wp_step.
  destruct (validate_flow d) as [[]|]; [|done]. do 4 wp_step.
  destruct (check_bindings im d) as [[]|] eqn:Hc; [|done]. wp_step.
  assert (im_flows im !! fd_flow d = None) as Hn.
  { unfold check_bindings, guard_err in Hc. case_bool_decide as Hs; [done|].
    by apply eq_None_not_Some. }
  apply wp_journal; [|intros; by apply (quiet_same im)]. intros st. apply wp_exec.
  apply (quiet_more (im <| im_store := st |>)); [|by apply (quiet_same im)].
  intros _. by apply leases_admit.
Qed.

Lemma wp_require_flow f g (Q : FlowRuntime -> Impl -> Prop) X im :
  (forall rt, im_flows im !! f = Some rt -> Q rt im) -> (forall e, X e im) ->
  wp (require_flow f g) Q X im.
Proof.
  intros HQ HX. unfold require_flow. do 2 wp_step.
  destruct (im_flows im !! f) as [rt|] eqn:E; [|apply HX]. do 2 wp_step.
  destruct (negb _); [apply HX | by apply HQ].
Qed.

Lemma quiet_retire_flow f g : preserves P (retire_flow f g).
Proof.
  intros im H. apply wp_exec. unfold retire_flow. wp_step. apply wp_require_flow; [|done].
  intros rt Hrt. do 2 wp_step. destruct (is_terminal (fr_lifecycle rt)) eqn:Ht; [|done].
  cbn [negb]. wp_step. apply wp_journal; [|intros; by apply (quiet_same im)].
  intros st. wp_step. apply (quiet_more (im <| im_store := st |>)); [|by apply (quiet_same im)].
  intros Hinv. by apply (leases_retire_flow f g rt).
Qed.

(** What the checks of [complete] establish when they accept. *)
Lemma judge_accept im e now a :
  judge_completion im e now = Accept a ->
  im_attempts im !! ev_attempt e = Some a /\ is_attempt_terminal (at_state a) = false /\
  tk_flow (at_ticket a) = ev_flow e /\
  exists rt, im_flows im !! ev_flow e = Some rt /\ fr_open_attempt rt = ev_attempt e /\
    fd_generation (fr_descriptor rt) = ev_flow_generation e /\
    ev_epoch e = im_epoch im /\
    tk_schedule (at_ticket a) = ev_schedule e /\
    tk_schedule_generation (at_ticket a) = ev_schedule_generation e /\
    tk_worker (at_ticket a) = ev_worker e /\ tk_boot (at_ticket a) = ev_boot e /\
    ev_served e <= tk_quantum (at_ticket a).
Proof.
  unfold judge_completion. destruct (negb (established _)); [done|].
  destruct (negb (evidence_bound e)); [done|]. destruct (_ <? _); [done|].
  destruct (N.eqb_spec (ev_epoch e) (im_epoch im)) as [Hep|]; [|done]. cbn [negb].
  destruct (im_flows im !! ev_flow e) as [rt|] eqn:Hrt; [|done].
  destruct (N.eqb_spec (fd_generation (fr_descriptor rt)) (ev_flow_generation e)) as [Hg|]; [|done].
  cbn [negb]. destruct (im_attempts im !! ev_attempt e) as [r|] eqn:Hr; [|done].
  unfold judge_attempt.
  destruct (N.eqb_spec (tk_flow (at_ticket r)) (ev_flow e)) as [Hf|]; [|done].
  destruct (N.eqb_spec (tk_schedule (at_ticket r)) (ev_schedule e)) as [Hs|]; [|done].
  cbn [negb orb].
  destruct (N.eqb_spec (tk_schedule_generation (at_ticket r)) (ev_schedule_generation e))
    as [Hsg|]; [|done]. cbn [negb].
  destruct (N.eqb_spec (tk_worker (at_ticket r)) (ev_worker e)) as [Hw|]; [|done].
  destruct (N.eqb_spec (tk_boot (at_ticket r)) (ev_boot e)) as [Hb|]; [|done]. cbn [negb orb].
  destruct (is_attempt_terminal (at_state r)) eqn:Ht; [by repeat case_match|].
  destruct (N.eqb_spec (fr_open_attempt rt) (ev_attempt e)) as [Ho|]; [|done]. cbn [negb].
  destruct (N.ltb_spec (tk_quantum (at_ticket r)) (ev_served e)) as [|Hq]; [done|].
  destruct (_ && _); [done|]. intros [= <-]. eauto 20.
Qed.

Lemma lifecycle_after_grounded rt e : in_flight (lifecycle_after_completion rt e) = false.
Proof. unfold lifecycle_after_completion. by repeat case_match. Qed.

Lemma quiet_commit im e now a :
  P im -> judge_completion im e now = Accept a -> P (exec (commit_completion e now) im).
Proof.
  intros H (Ha & Ht & Hf & rt & Hrt & _)%judge_accept. apply wp_exec. unfold commit_completion.
  do 2 wp_step. rewrite Hrt. cbv zeta. wp_step.
  apply wp_journal; [|intros; by apply (quiet_same im)]. intros st. do 2 wp_step.
  set (im1 := im <| im_store := st |>).
  assert (P im1) as H1 by (by apply (quiet_same im)). pose proof (quiet_inv im1 H1) as Hinv.
  pose proof (lifecycle_after_grounded rt e) as Hl.
  pose proof (leases_completion e (credit_of e) (lifecycle_after_completion rt e) now im1 a rt
    Hinv Ha Ht Hf Hrt Hl) as Hc.
  set (im2 := apply_completion _ _ _ _ im1) in *.
  assert (P im2) as H2.
  { apply (quiet_more im1); [|done]. intros _. rewrite Hc. apply rtc_once, quiet_close.
    - apply lookup_leases. eauto.
    - unfold lease_of. cbn. by rewrite Ht. }
  assert (grounded (ev_flow e) im2) as Hg by (by eapply grounded_close).
  rewrite wp_bind. case_bool_decide; do 4 wp_step; wp_step;
    [|by apply (quiet_same im2); rewrite ?leases_normalize].
  apply (quiet_same im2); [|done]. by rewrite leases_normalize, leases_rearm.
Qed.

Lemma quiet_complete e now : preserves P (complete e now).
Proof.
  intros im H. apply wp_exec. unfold complete, observe_tick. do 6 wp_step.
  match goal with |- wp _ _ _ ?i => set (im1 := i) end.
  assert (P im1) as H1 by (by apply (quiet_same im)).
  destruct (judge_completion im1 e now) as [code b|r|a] eqn:Hj.
  - do 3 wp_step. apply (quiet_same im1); [|done]. unfold count_rejected.
    destruct b; [|done]. by rewrite leases_upd_flow.
  - do 5 wp_step. apply (quiet_same im1); [|done]. by rewrite leases_upd_flow.
  - apply wp_exec. by eapply quiet_commit.
Qed.
End Quiet.

(** ** The arbitration round *)

Lemma leases_handle_miss id now im o :
  grounded id im -> leases (handle_deadline_miss id now im o).1 = leases im.
Proof.
  intros Hg. unfold handle_deadline_miss, count_deadline_miss.
  destruct (im_flows im !! id) as [rt|]; [|done].
  destruct (fr_deadline_missed_counted rt); [done|]. cbv zeta.
  assert (forall i, leases (upd im_deadline_misses incr64 i) = leases i) as Hd by done.
  destruct (_ && _); cbn [fst].
  - rewrite leases_transition_same; [by rewrite Hd, leases_upd_flow | done|].
    apply (grounded_ext _ im); [by rewrite Hd, leases_upd_flow | done].
  - by rewrite Hd, leases_upd_flow.
Qed.

Lemma leases_not_ready id rt reason now im o :
  grounded id im -> leases (not_ready id rt reason now im o).1 = leases im.
Proof.
  intros Hg. unfold not_ready, fail_dependent. destruct reason; try done; cbn [fst].
  - by apply leases_handle_miss.
  - by apply leases_transition_same.
Qed.

Lemma waiting_grounded id im : flows_wf im -> id ∈ im_waiting_index im -> grounded id im.
Proof.
  intros Hw Hin rt Hrt. destruct (fw_index _ Hw SlotWaiting id) as [Hi _]; [done|].
  destruct (Hi Hin) as (rt' & Hrt' & Hsl). replace rt with rt' by congruence.
  by destruct (fr_lifecycle rt').
Qed.

Lemma leases_refresh now im o : flows_wf im -> leases (refresh_lifecycles now im o).1 = leases im.
Proof.
  intros Hw. unfold refresh_lifecycles.
  destruct (foldl (refresh_waiting now) (im, o) _) as [im1 o1] eqn:E1.
  assert (leases im1 = leases im) as H1.
  { change (leases (im1, o1).1 = leases im). rewrite <- E1.
    apply (foldl_inv (fun st => leases st.1 = leases im)); [done|].
    intros [im2 o2] id Hin H2. cbn [fst] in H2.
    assert (grounded id im2) as Hg.
    { apply (grounded_ext _ im); [done|]. apply waiting_grounded; [done|].
      by apply elem_of_set_elems. }
    unfold refresh_waiting. repeat case_match; try done; cbn [fst]; rewrite <- H2.
    - by apply leases_transition_same.
    - by apply leases_not_ready. }
  apply (foldl_inv (fun st => leases st.1 = leases im)); [done|]. intros [im2 o2] id _ H2.
  cbn [fst] in H2. unfold refresh_inflight, count_deadline_miss. repeat case_match; try done.
  cbn [fst]. rewrite <- H2. by apply (leases_upd_flow id).
Qed.

Lemma leases_journal t ops im : leases (exec (journal t ops) im) = leases im.
Proof.
  unfold exec, journal. destruct (im_store im) as [ds|]; [|done].
  by destruct (append t (payload ops) ds) as [ds' r].
Qed.

Lemma leases_reclaim now im o : leases (reclaim_expired_deliveries now im o).1 = leases im.
Proof.
  unfold reclaim_expired_deliveries. generalize (im_schedule_order im) as order.
  intros order. revert im o. induction order as [|id order IH]; intros im o; [done|].
  cbn [reclaim_loop]. repeat case_match; try done; try apply IH; cbn [fst];
    match goal with E : journal ?t ?ops im = (?i, _) |- _ =>
      assert (leases i = leases im) as Hj
        by (rewrite <- (leases_journal t ops im); unfold exec; by rewrite E) end; [|done].
  by rewrite IH, leases_apply_release_schedule.
Qed.

Lemma leases_rank now im : leases (rank_candidates now im).1 = leases im.
Proof.
  unfold rank_candidates. destruct (foldl _ _ _) as [im1 cs] eqn:E.
  change (leases (im1, cs).1 = leases im). rewrite <- E.
  apply (foldl_inv (fun st => leases st.1 = leases im)); [done|]. intros [im2 cs2] id _ H2.
  cbn [fst] in H2. unfold consider. destruct (im_flows im2 !! id) as [rt|]; [|done].
  destruct (negb _); [done|]. cbv zeta. cbn [fst]. destruct (_ && _); [|done].
  by rewrite leases_upd_flow.
Qed.

Definition ids_left (im : Impl) : Prop :=
  im_next_attempt im < u64_max /\ im_next_schedule im < u64_max /\
  im_next_schedule_generation im < u64_max.

Lemma leases_issue entries now o im :
  im_next_schedule im < u64_max -> im_next_schedule_generation im < u64_max ->
  tacit (leases im) (leases (exec (issue_schedule entries now o) im)).
Proof.
  intros Hs Hg. apply wp_exec. unfold issue_schedule. destruct entries as [|e l].
  { do 3 wp_step. by apply tacit_quiet. }
  do 5 wp_step. set (im1 := im <| im_provenance_sequence ::= incr64 |>).
  apply wp_journal; [|intros; by apply tacit_quiet]. intros st. do 4 wp_step.
  rewrite (advance_lt (im_next_schedule im1)) by done. do 2 wp_step.
  rewrite (advance_lt (im_next_schedule_generation im1)) by done. do 3 wp_step.
  match goal with |- tacit _ ?B => replace B with (add_schedule (leases im)) end;
    [by apply (tacit_issue _ _ (leases im))|].
  match goal with |- _ = leases (upd _ _ (upd _ _ (apply_schedule ?s ?i))) =>
    pose proof (leases_apply_schedule s i) as Ha; set (im2 := apply_schedule s i) in * end.
  match goal with |- _ = leases (upd _ ?f (upd _ ?g _)) =>
    transitivity ((leases im2) <| lt_next_schedule ::= g |> <| lt_next_generation ::= f |>) end;
    [|done].
  rewrite Ha. done.
Qed.

Section Round.
Context (A0 : Leases) (Hinv0 : lease_inv A0) (now : Ticks)
  (Hs : lt_next_schedule A0 < u64_max) (Hg : lt_next_generation A0 < u64_max).
Let P (im : Impl) : Prop := flows_wf im /\ rtc quiet A0 (leases im).

Lemma round_same im im' : flows_wf im' -> leases im' = leases im -> P im -> P im'.
Proof. intros Hw Hl [_ H]. split; [done|]. by rewrite Hl. Qed.

Lemma tacit_arbitrate im : P im -> tacit A0 (leases (exec (arbitrate now) im)).
Proof.
  apply (arbitrate_PQ P (fun im => tacit A0 (leases im)) now).
  - intros a d i [Hw H]. split; [by apply flows_wf_close_attempt|].
    by apply (quiet_close_attempt A0 Hinv0).
  - intros i H. apply (round_same i); [|done|done]. destruct H. flows_solve.
  - intros i H. apply (round_same i); [|done|done]. destruct H. flows_solve.
  - intros r i H. apply (round_same i); [|done|done]. destruct H. flows_solve.
  - intros id rt reason i o H Hrt Hl. apply (round_same i); [|apply leases_not_ready|done].
    + apply flows_wf_not_ready. apply H.
    + intros rt' Hrt'. replace rt' with rt by congruence. by rewrite Hl.
  - intros i H. apply (round_same i); [|done|done]. destruct H. flows_solve.
  - intros i o H. apply (round_same i); [|apply leases_reclaim|done].
    apply flows_wf_reclaim. apply H.
  - intros i o H. apply (round_same i); [|apply leases_refresh; apply H|done].
    apply flows_wf_refresh. apply H.
  - intros i H. apply (round_same i); [|apply leases_rank|done]. apply flows_wf_rank. apply H.
  - intros i H. unfold roll_preemption_window. cbv zeta. destruct (negb _); [|done].
    apply (round_same i); [|done|done]. destruct H. flows_solve.
  - intros i [_ H]. by apply tacit_quiet.
  - intros entries o i [_ H]. destruct (quiets_next _ _ H) as (_ & Hn & Hn').
    destruct (leases_issue entries now o i) as [Hq|C Hq1 Hq2].
    + change (lt_next_schedule (leases i) < u64_max). by rewrite Hn.
    + change (lt_next_generation (leases i) < u64_max). by rewrite Hn'.
    + apply tacit_quiet. by etrans.
    + apply (tacit_issue _ _ C); [by etrans | done].
  - intros i H. by rewrite leases_normalize.
  - intros i H. eapply tacit_more; [exact H|]. apply leases_retire.
Qed.
End Round.

(** ** Dispatch *)

Lemma dispatchable_Ok im s g o w b e rt :
  dispatchable im s g o w b = Ok (e, rt) ->
  exists sr, im_schedules im !! s = Some sr /\
    id_valid w = true /\ id_valid b = true /\
    sc_generation (sr_schedule sr) = g /\ sc_epoch (sr_schedule sr) = im_epoch im /\
    sc_entries (sr_schedule sr) !! N.to_nat o = Some e /\ is_run e = true /\
    sr_consumed sr !! N.to_nat o = Some 0 /\
    im_flows im !! se_flow e = Some rt /\ fr_lifecycle rt = Scheduled /\
    fr_scheduled_schedule rt = s /\ fd_generation (fr_descriptor rt) = se_flow_generation e.
Proof.
  unfold dispatchable, guard_err. destruct (id_valid w), (id_valid b); try done. cbn [negb orb].
  unfold find_schedule. destruct (im_schedules im !! s) as [sr|]; [|done].
  destruct (N.eqb_spec (sc_generation (sr_schedule sr)) g); [|done]. cbn [negb].
  destruct (N.eqb_spec (sc_epoch (sr_schedule sr)) (im_epoch im)); [|done]. cbn [negb].
  destruct (sc_entries (sr_schedule sr) !! N.to_nat o) as [e'|] eqn:He; [|done].
  destruct (is_run e') eqn:Hrun; [|done]. cbn [negb]. case_bool_decide as Hc; [|done]. cbn [negb].
  destruct (im_flows im !! se_flow e') as [rt'|] eqn:Hrt; [|done].
  case_bool_decide as Hl; [|done]. destruct (N.eqb_spec (fr_scheduled_schedule rt') s); [|done].
  cbn [negb orb].
  destruct (N.eqb_spec (fd_generation (fr_descriptor rt')) (se_flow_generation e')); [|done].
  cbn [negb]. intros [= <- <-]. exists sr. by split_and!.
Qed.

(** A dispatch that returns a ticket opens exactly the lease of that ticket; one
    that fails opens none. *)
Lemma begin_dispatch_lease s g o w b now im :
  lease_inv (leases im) -> im_next_attempt im < u64_max ->
  wp (begin_dispatch s g o w b now)
    (fun t im' => tk_attempt t = im_next_attempt im /\ tk_worker t = w /\ tk_boot t = b /\
       exists f n, lt_holds (leases im) !! f = Some (0, false) /\
         lt_open (leases im) !! s = Some n /\ leases im' = open_lease f s (leases im))
    (fun _ im' => leases im' = leases im) im.
Proof.
  intros Hinv Hn. unfold begin_dispatch, observe_tick. do 6 wp_step.
  set (im1 := im <| im_last_tick ::= N.max now |>).
  destruct (dispatchable im1 s g o w b) as [[e rt]|] eqn:Hd; [|done].
  apply dispatchable_Ok in Hd as (sr & Hsr & _ & _ & _ & _ & _ & _ & _ & Hrt & Hl & _ & Hg).
  do 2 wp_step. destruct (validate_ticket_fields _ _ _) as [[]|]; [|done]. cbv zeta. wp_step.
  apply wp_journal; [|done]. intros st. do 6 wp_step. rewrite (advance_lt (im_next_attempt im1)) by done.
  do 3 wp_step. split; [done|]. split; [done|]. split; [done|].
  set (im2 := im1 <| im_store := st |>).
  set (tk := make_ticket im1 s g e w b now).
  assert (forall i, leases (i <| im_next_attempt := im_next_attempt im1 + 1 |>) =
    (leases i) <| lt_next_attempt := im_next_attempt im1 + 1 |>) as Hnext by done.
  rewrite Hnext, leases_upd_schedule by done.
  assert (leases im2 = leases im) as Him2 by done.
  pose proof (leases_opened tk (tk_quantum tk) now im2 rt sr eq_refl Hrt Hl Hg Hsr) as Ho.
  change (im_next_attempt im2) with (im_next_attempt im1) in Ho. rewrite Ho, Him2.
  - exists (tk_flow tk), (sr_open_attempts sr). split_and!; [| |done].
    + apply lookup_holds. exists rt. split; [exact Hrt|]. unfold hold_of.
      pose proof (open_in_flight _ rt im Hinv Hrt) as Hf. rewrite Hl in *.
      symmetry in Hf. apply id_valid_false in Hf. by rewrite Hf.
    + apply lookup_open. exists sr. by split.
  - assert (sr_open_attempts sr = live_count s (lt_leases (leases im))) as ->.
    { apply (li_count _ Hinv). apply lookup_open. exists sr. by split. }
    pose proof (live_count_lt _ s Hinv) as Hlt. cbn [lt_next_attempt leases] in Hlt. lia.
Qed.

Lemma steps_begin_dispatch s g o w b now im :
  lease_inv (leases im) -> im_next_attempt im < u64_max ->
  rtc step (leases im) (leases (exec (begin_dispatch s g o w b now) im)).
Proof.
  intros Hinv Hn. apply wp_exec. eapply wp_conseq; [by apply begin_dispatch_lease|..].
  - intros t im' (_ & _ & _ & f & n & Hf & Ho & ->). by eapply rtc_once, step_open.
  - by intros e im' ->.
Qed.

(** ** Every call is a sequence of lease steps *)

Ltac quiet_call :=
  match goal with
  | Hinv : lease_inv (leases ?im) |- rtc quiet _ (leases (exec ?m ?im)) =>
      apply (preserves_exec (fun i => rtc quiet (leases im) (leases i))); [|done]
  end.

Ltac quiet_leaf Hinv :=
  lazymatch goal with
  | |- preserves _ (journal _ _) => apply quiet_journal
  | |- preserves _ (close_attempt _ _ _ _) => by apply (quiet_close_attempt _ Hinv)
  | |- preserves _ (apply_update _) => intros ? ?; by rewrite leases_update
  | H : rtc quiet ?A (leases ?im) |- rtc quiet ?A (leases _) =>
      first [ exact H
            | by rewrite ?leases_normalize, ?leases_apply_release_schedule, ?leases_release_held,
                ?leases_resolved, ?leases_readiness
            | eapply (quiet_more _ Hinv im); [intros ?|exact H] ]
  end.
Ltac quiet_method Hinv :=
  unfold observe_tick, require_flow; repeat preserve_step; try quiet_leaf Hinv; try done.

Definition opens (c : Call) : bool :=
  match c with CBeginDispatch _ _ _ _ _ _ | CArbitrate _ => true | _ => false end.

Lemma quiet_run c im :
  opens c = false -> lease_inv (leases im) -> rtc quiet (leases im) (leases (run c im)).
Proof.
  intros Hc Hinv. destruct c; cbn [run]; try done; quiet_call.
  - unfold register_resource. quiet_method Hinv.
  - unfold register_reservation. quiet_method Hinv.
  - unfold retire_reservation. quiet_method Hinv. unfold apply_retire_reservation.
    repeat case_match; done.
  - unfold register_priority_class. quiet_method Hinv.
  - unfold register_qos_class. quiet_method Hinv.
  - by apply quiet_admit_flow.
  - unfold update_flow. quiet_method Hinv.
  - unfold cancel_flow. quiet_method Hinv. by apply leases_cancel.
  - unfold notify_readiness. quiet_method Hinv.
  - unfold resolve_ambiguous. quiet_method Hinv.
  - by apply quiet_retire_flow.
  - unfold install_policy. quiet_method Hinv.
  - unfold advance_epoch. quiet_method Hinv. by apply leases_epoch.
  - unfold release_schedule. quiet_method Hinv.
  - unfold mark_started. quiet_method Hinv. by rewrite leases_started.
  - unfold abandon_attempt. quiet_method Hinv.
  - unfold preempt_attempt. quiet_method Hinv.
  - by apply quiet_complete.
  - apply quiet_checkpoint.
Qed.

Lemma steps_run c im :
  flows_wf im -> lease_inv (leases im) -> ids_left im ->
  rtc step (leases im) (leases (run c im)).
Proof.
  intros Hw Hinv Hids. destruct (opens c) eqn:Hc.
  - destruct Hids as (Hn1 & Hn2 & Hn3). destruct c; try done; cbn [run].
    + by apply tacit_steps, (tacit_arbitrate _ Hinv).
    + by apply steps_begin_dispatch.
  - by apply quiets_steps, quiet_run.
Qed.

(** ** Schedulers in service *)

(** States of a scheduler that had identities left before each of its calls. *)
Inductive in_service : Impl -> Prop :=
| serve_volatile p im : create_volatile p = Ok im -> in_service im
| serve_fresh p flush io im : create_durable p [] None flush io = Ok im -> in_service im
| serve_call c im : in_service im -> ids_left im -> in_service (run c im).

(** One more call. *)
Definition serves (im im' : Impl) : Prop := ids_left im /\ exists c, im' = run c im.

Lemma lease_inv_initial p : lease_inv (leases (initial_impl p)).
Proof.
  split; cbn; intros *; rewrite ?fmap_empty, ?lookup_empty; try done.
Qed.

Lemma in_service_reachable im : in_service im -> reachable im.
Proof. induction 1; [by eapply reach_volatile | by eapply reach_fresh | by apply reach_call]. Qed.

Lemma in_service_flows_wf im : in_service im -> flows_wf im.
Proof. intros H. apply (reachable_invariant _ (in_service_reachable _ H)). Qed.

Lemma in_service_lease_inv im : in_service im -> lease_inv (leases im).
Proof.
  induction 1 as [p im Hc|p flush io im Hc|c im H IH Hids].
  - unfold create_volatile in Hc. destruct (validate_policy p); [|done]. injection Hc as <-.
    apply lease_inv_initial.
  - apply (create_durable_fresh (fun i => lease_inv (leases i))) in Hc;
      [done|done|done| |apply lease_inv_initial].
    intros next now im' H. eapply lease_inv_quiets; [by apply leases_epoch | done].
  - eapply lease_inv_steps; [|exact IH]. apply steps_run; [|done|done].
    by apply in_service_flows_wf.
Qed.

Lemma serves_in_service im im' : rtc serves im im' -> in_service im -> in_service im'.
Proof. induction 1 as [|a b c [Hi [k ->]] _ IH]; [done|]. intros H. by apply IH, serve_call. Qed.

Lemma serves_steps im im' :
  rtc serves im im' -> in_service im -> rtc step (leases im) (leases im').
Proof.
  induction 1 as [|a b c [Hi [k ->]] _ IH]; [done|]. intros H.
  etrans; [|by apply IH, serve_call].
  by apply steps_run; [apply in_service_flows_wf | apply in_service_lease_inv|].
Qed.

(** C1 Every call of a scheduler refines the lease discipline: seen through
    [leases], what the call does to flows, attempts and schedules is a sequence
    of abstract steps (admit, retire, open, close, forget, fence, issue), also
    when the call fails half way. *)
Theorem call_refines_leases (c : Call) (im : Impl) (H : in_service im) (Hids : ids_left im) :
  rtc step (leases im) (leases (run c im)).
Proof.
  by apply steps_run; [apply in_service_flows_wf | apply in_service_lease_inv|].
Qed.

Lemma in_service_run_all calls im :
  in_service im -> (forall k, (k <= length calls)%nat -> ids_left (run_all (take k calls) im)) ->
  in_service (run_all calls im).
Proof.
  revert im. induction calls as [|c calls IH]; intros im H Hids; [done|]. apply IH.
  - apply serve_call; [done|]. apply (Hids 0%nat). lia.
  - intros k Hk. apply (Hids (S k)). simpl. lia.
Qed.

Lemma demo_in_service_prefix n : in_service (run_all (take n demo_calls) Demo.start).
Proof.
  apply in_service_run_all; [by apply (serve_volatile Demo.policy)|].
  intros k _. rewrite take_take. generalize (k `min` n)%nat. clear k n. intros k.
  do 10 (destruct k as [|k]; [vm_compute; done|]).
  rewrite take_ge by (cbn; lia). vm_compute. done.
Qed.

Lemma demo_in_service : in_service (run_all demo_calls Demo.start).
Proof. apply (demo_in_service_prefix 10). Qed.

Lemma call_refines_leases_witness :
  rtc step (leases (run_all demo_calls Demo.start))
           (leases (run (CArbitrate 20) (run_all demo_calls Demo.start))).
Proof.
  apply (call_refines_leases (CArbitrate 20)); [exact demo_in_service|].
  vm_compute. repeat split.
Defined.

(** C2 Dispatch authority is exclusive: a flow is in flight exactly while it
    holds an attempt; that attempt is on record, open or started, and issued
    for this flow; no flow has two live attempts; and a schedule counts exactly
    its live attempts. *)
Theorem single_dispatch_authority (im : Impl) (H : in_service im) :
  (forall f rt, im_flows im !! f = Some rt ->
     (fr_open_attempt rt <> 0 <-> fr_lifecycle rt = Dispatched \/ fr_lifecycle rt = Running) /\
     (fr_open_attempt rt <> 0 -> exists r, im_attempts im !! fr_open_attempt rt = Some r /\
        is_attempt_terminal (at_state r) = false /\
        tk_flow (at_ticket r) = f /\ tk_attempt (at_ticket r) = fr_open_attempt rt)) /\
  (forall a b ra rb, im_attempts im !! a = Some ra -> im_attempts im !! b = Some rb ->
     is_attempt_terminal (at_state ra) = false -> is_attempt_terminal (at_state rb) = false ->
     tk_flow (at_ticket ra) = tk_flow (at_ticket rb) -> a = b) /\
  (forall s sr, im_schedules im !! s = Some sr ->
     sr_open_attempts sr = live_count s (lease_of <$> im_attempts im)).
Proof.
  pose proof (in_service_lease_inv im H) as Hinv. split_and!.
  - intros f rt Hrt. split.
    + rewrite <- id_valid_true, <- (open_in_flight f rt im Hinv Hrt).
      destruct (fr_lifecycle rt); naive_solver.
    + intros Ho. destruct (li_held _ Hinv f _ _ (proj2 (lookup_holds im f _)
        (ex_intro _ rt (conj Hrt eq_refl))) Ho) as (l & Hl & Hlive & Hf).
      destruct (li_id _ Hinv _ _ Hl) as [Hid _].
      apply lookup_leases in Hl as (r & Hr & ->). exists r. unfold lease_of in *. cbn in *.
      apply negb_true_iff in Hlive. by split_and!.
  - intros a b ra rb Ha Hb Hta Htb Hf.
    apply (live_unique (leases im) a b (lease_of ra) (lease_of rb)); try done;
      try (apply lookup_leases; eauto); unfold lease_of; cbn; by rewrite ?Hta, ?Htb.
  - intros s sr Hs. apply (li_count _ Hinv). apply lookup_open. eauto.
Qed.

Lemma single_dispatch_authority_witness :
  in_service (run_all demo_calls Demo.start) /\
  forall s sr, im_schedules (run_all demo_calls Demo.start) !! s = Some sr ->
    sr_open_attempts sr =
    live_count s (lease_of <$> im_attempts (run_all demo_calls Demo.start)).
Proof.
  split; [exact demo_in_service|].
  exact (proj2 (proj2 (single_dispatch_authority _ demo_in_service))).
Defined.

(** C4 A dispatch attempt dies once: when an identity has been issued and its
    attempt is terminal or forgotten, then after any further calls it is still
    terminal or forgotten, whatever was started, completed or recovered. *)
Theorem closed_attempt_stays_closed (im im' : Impl) (a : DispatchAttemptId)
  (H : in_service im) (Hcalls : rtc serves im im') (Hissued : a < im_next_attempt im)
  (Hclosed : forall r, im_attempts im !! a = Some r -> is_attempt_terminal (at_state r) = true) :
  forall r, im_attempts im' !! a = Some r -> is_attempt_terminal (at_state r) = true.
Proof.
  destruct (dead_steps a (leases im) (leases im')) as [_ Hd]; [by apply serves_steps| |].
  - split; [done|]. intros l (r & Hr & ->)%lookup_leases. unfold lease_of. cbn.
    by rewrite (Hclosed r Hr).
  - intros r Hr. specialize (Hd (lease_of r)). unfold lease_of in Hd. cbn in Hd.
    apply negb_false_iff, Hd. change (lt_leases (leases im') !! a = Some (lease_of r)).
    apply lookup_leases. eauto.
Qed.

Lemma closed_attempt_stays_closed_witness :
  1 < im_next_attempt (run_all demo_calls Demo.start) /\
  forall r, im_attempts (run (CArbitrate 20) (run_all demo_calls Demo.start)) !! 1 = Some r ->
    is_attempt_terminal (at_state r) = true.
Proof.
  split; [vm_compute; reflexivity|].
  apply (closed_attempt_stays_closed (run_all demo_calls Demo.start) _ 1 demo_in_service).
  - apply rtc_once. split; [vm_compute; repeat split|]. by exists (CArbitrate 20).
  - vm_compute. reflexivity.
  - intros r. vm_compute. intros [= <-]. reflexivity.
Defined.
