(* ===== verification/Completion.v ===== *)
(** * Completion: service is credited exactly once

    What [complete] does to the service a flow has received, and why evidence
    that was committed can never be committed again. *)

From S2P Require Import Prelude Checked Bytes Hash Model Schedule Codec Journal State.
From S2P Require Import Transitions Arbitrate Operations Recovery Fixture Invariants Frames.
From S2P Require Import System Lease Authority.

(** ** The transition *)

(** What [apply_completion] leaves of the attempt. *)
Definition committed (e : CompletionEvidence) (credited : N) (now : Ticks) (r : AttemptRuntime)
  : AttemptRuntime :=
  r <| at_state := ACommitted |> <| at_closed_tick := now |> <| at_has_evidence := true |>
    <| at_evidence_digest := evidence_digest e |> <| at_credited := credited |>.

Section Apply.
Context (e : CompletionEvidence) (c : N) (l : FlowLifecycle) (now : Ticks) (im : Impl)
  (r : AttemptRuntime) (rt : FlowRuntime)
  (Hr : im_attempts im !! ev_attempt e = Some r) (Hrt : im_flows im !! ev_flow e = Some rt).

Lemma saturating_add_0 w : saturating_add w 0 = w.
Proof. unfold saturating_add. rewrite (proj2 (N.ltb_ge _ _)) by lia. lia. Qed.

Lemma apply_completion_attempts :
  im_attempts (apply_completion e c l now im) =
  alter (committed e c now) (ev_attempt e) (im_attempts im).
Proof.
  unfold apply_completion. rewrite Hr. cbv zeta.
  unfold upd_schedule at 1, upd_attempt at 1. upd_simpl. rewrite Hrt.
  rewrite (blind_transition im_attempts). upd_simpl. rewrite (blind_upd_flow im_attempts).
  destruct (0 <? c); rewrite ?(blind_upd_flow im_attempts); unfold release_slot, upd_resource;
    upd_simpl; rewrite (blind_upd_flow im_attempts); reflexivity.
Qed.

Lemma apply_completion_blind {A} (p : Impl -> A) `{!Blind p} :
  (forall f i, p (i <| im_attempts ::= f |>) = p i) ->
  (forall f i, p (i <| im_schedules ::= f |>) = p i) ->
  (forall f i, p (i <| im_resources ::= f |>) = p i) ->
  (forall f i, p (i <| im_completions_applied ::= f |>) = p i) ->
  p (apply_completion e c l now im) = p im.
Proof.
  intros H1 H2 H3 H4. unfold apply_completion. rewrite Hr. cbv zeta.
  unfold upd_schedule at 1, upd_attempt at 1. upd_simpl. rewrite Hrt.
  rewrite (blind_transition p), H4, (blind_upd_flow p).
  destruct (0 <? c); rewrite ?(blind_upd_flow p); unfold release_slot, upd_resource;
    rewrite H3, (blind_upd_flow p); unfold upd_schedule, upd_attempt; by rewrite H2, H1.
Qed.

(** A field the bookkeeping of a completion does not write, acted on by [h]
    when service is credited. *)
Lemma apply_completion_view {A} (g : FlowRuntime -> A) `{!Stable g} (h : A -> A) :
  (forall x y, g (clear_scheduled (y <| fr_outstanding_reserved ::= x |>
                                     <| fr_open_attempt := 0 |>)) = g y) ->
  (forall x y, g (y <| fr_accounting ::= x |>) = g y) ->
  (forall y, g (y <| fr_served_work ::= fun w => saturating_add w c |>
                  <| fr_accounting ::= fun a =>
                       a <| ac_service_credit ::= fun w => saturating_add w c |> |>
                  <| fr_min_service_delivered ::= fun w => saturating_add w c |>) = h (g y)) ->
  (c = 0 -> forall x, h x = x) ->
  view g (apply_completion e c l now im) = alter h (ev_flow e) (view g im).
Proof.
  intros H1 H2 H3 H0. unfold apply_completion. rewrite Hr. cbv zeta.
  unfold upd_schedule at 1, upd_attempt at 1. upd_simpl. rewrite Hrt.
  rewrite view_transition by apply _.
  match goal with |- view _ (upd im_completions_applied ?f ?i) = _ =>
    rewrite (view_flows g i (upd im_completions_applied f i)) by reflexivity end.
  rewrite view_upd_flow by (intros; apply H2).
  set (im3 := upd_flow (ev_flow e) _ (upd_schedule _ _ (upd_attempt _ _ im))).
  assert (view g im3 = view g im) as V3.
  { unfold im3. rewrite view_upd_flow by (intros; apply H1). by apply view_flows. }
  assert (forall id, view g (release_slot id im3) = view g im) as V4.
  { intros id. rewrite <- V3. by apply view_flows. }
  destruct (N.ltb_spec 0 c) as [Hc|Hc].
  - rewrite (view_upd_flow_alter _ _ _ h) by apply H3. by rewrite V4.
  - rewrite V4. symmetry. apply map_eq. intros i.
    destruct (decide (ev_flow e = i)) as [<-|Hne]; [|by rewrite lookup_alter_ne].
    rewrite lookup_alter_eq. destruct (view g im !! ev_flow e); simpl; [|done].
    rewrite H0 by lia. done.
Qed.

Lemma apply_completion_served :
  served (apply_completion e c l now im) =
  alter (fun w => saturating_add w c) (ev_flow e) (served im).
Proof.
  apply (apply_completion_view fr_served_work (fun w => saturating_add w c)); try done.
  intros -> x. apply saturating_add_0.
Qed.

Lemma apply_completion_descriptors :
  view fr_descriptor (apply_completion e c l now im) = view fr_descriptor im.
Proof.
  rewrite (apply_completion_view fr_descriptor (fun d => d)) by done.
  apply map_eq. intros i. destruct (decide (ev_flow e = i)) as [<-|Hne].
  - rewrite lookup_alter_eq. by destruct (view _ im !! ev_flow e).
  - by rewrite lookup_alter_ne.
Qed.
End Apply.

(** ** The whole call *)

(** What a committed completion leaves behind. *)
Record commits (e : CompletionEvidence) (now : Ticks) (im im' : Impl) : Prop := {
  cm_served : served im' = alter (fun w => saturating_add w (credit_of e)) (ev_flow e) (served im);
  cm_attempts : im_attempts im' =
    alter (committed e (credit_of e) now) (ev_attempt e) (im_attempts im);
  cm_epoch : im_epoch im' = im_epoch im;
  cm_descriptors : view fr_descriptor im' = view fr_descriptor im }.

Lemma commits_same e now im im1 im2 :
  served im2 = served im1 -> im_attempts im2 = im_attempts im1 -> im_epoch im2 = im_epoch im1 ->
  view fr_descriptor im2 = view fr_descriptor im1 ->
  commits e now im im1 -> commits e now im im2.
Proof. intros H1 H2 H3 H4 []. split; congruence. Qed.

Lemma commits_apply e l now im r rt :
  im_attempts im !! ev_attempt e = Some r -> im_flows im !! ev_flow e = Some rt ->
  commits e now im (apply_completion e (credit_of e) l now im).
Proof.
  intros Hr Hrt. split.
  - by eapply apply_completion_served.
  - by eapply apply_completion_attempts.
  - eapply (apply_completion_blind _ _ _ _ _ _ _ Hr Hrt im_epoch); reflexivity.
  - by eapply apply_completion_descriptors.
Qed.

Lemma commits_rearm e now im im1 f c t : commits e now im im1 -> commits e now im (rearm f c t im1).
Proof.
  apply commits_same; [by apply view_rearm; apply _ | by apply blind_rearm; apply _
    | by apply blind_rearm; apply _ | by apply view_rearm; apply _].
Qed.

Lemma commits_normalize e now im im1 t :
  commits e now im im1 -> commits e now im (normalize_transient_states t im1).
Proof.
  apply commits_same; [by apply view_normalize; apply _ | by apply blind_normalize; apply _
    | by apply blind_normalize; apply _ | by apply view_normalize; apply _].
Qed.

Lemma commit_completion_wp im e now a :
  judge_completion im e now = Accept a ->
  wp (commit_completion e now)
    (fun o im' => co_disposition o = Applied /\ co_credited o = credit_of e /\
                  exists st, commits e now (im <| im_store := st |>) im')
    (fun _ im' => exists st, im' = im <| im_store := st |>) im.
Proof.
  intros (Ha & Ht & Hf & rt & Hrt & _)%judge_accept. unfold commit_completion.
  do 2 wp_step. rewrite Hrt. cbv zeta. wp_step. apply wp_journal; [|intros; by eexists].
  intros st. do 2 wp_step.
  assert (commits e now (im <| im_store := st |>)
    (apply_completion e (credit_of e) (lifecycle_after_completion rt e) now
       (im <| im_store := st |>))) as Hc by (by eapply commits_apply).
  rewrite wp_bind. case_bool_decide; do 4 wp_step; wp_step; (split; [done|]; split; [done|];
    exists st; by repeat first [apply commits_normalize | apply commits_rearm]).
Qed.

(** The calls counts the report first; the checks do not see that. *)
Lemma complete_wp im e now :
  wp (complete e now)
    (fun o im' =>
       match judge_completion im e now with
       | Accept a => co_disposition o = Applied /\ co_credited o = credit_of e /\
                     commits e now im im'
       | Duplicate a => co_disposition o = IdempotentDuplicate /\ co_credited o = at_credited a /\
                        served im' = served im
       | Reject code _ => o = rejected code /\ served im' = served im
       end)
    (fun _ im' => served im' = served im) im.
Proof.
  unfold complete, observe_tick. do 6 wp_step.
  match goal with |- wp _ _ _ ?i => set (im1 := i) end.
  change (judge_completion im e now) with (judge_completion im1 e now).
  destruct (judge_completion im1 e now) as [code b|r|a] eqn:Hj.
  - do 3 wp_step. split; [done|]. unfold count_rejected. destruct b; [|done].
    unfold served. by rewrite view_upd_flow.
  - do 5 wp_step. split; [done|]. split; [done|]. unfold served. by rewrite view_upd_flow.
  - eapply wp_conseq; [by apply (commit_completion_wp _ _ _ a)| |].
    + intros o im' (Hd & Hc & st & Hcm). split; [done|]. split; [done|].
      destruct Hcm as [H1 H2 H3 H4]. by split.
    + by intros err im' [st ->].
Qed.

Lemma complete_outcome im e now im' o :
  complete e now im = (im', Ok o) ->
  match judge_completion im e now with
  | Accept a => co_disposition o = Applied /\ co_credited o = credit_of e /\ commits e now im im'
  | Duplicate a => co_disposition o = IdempotentDuplicate /\ co_credited o = at_credited a /\
                   served im' = served im
  | Reject code _ => o = rejected code /\ served im' = served im
  end.
Proof. intros H. pose proof (complete_wp im e now) as W. unfold wp in W. by rewrite H in W. Qed.

Lemma complete_applied im e now im' o :
  complete e now im = (im', Ok o) -> co_disposition o = Applied ->
  co_credited o = credit_of e /\ commits e now im im' /\
  exists a, judge_completion im e now = Accept a.
Proof.
  intros H Ho. apply complete_outcome in H.
  destruct (judge_completion im e now) as [code b|r|a].
  - destruct H as [-> _]. done.
  - destruct H as (Hd & _). congruence.
  - destruct H as (_ & Hc & Hm). eauto.
Qed.

Lemma credit_le e : credit_of e <= ev_served e.
Proof. unfold credit_of. case_bool_decide; lia. Qed.

(** ** Evidence that was committed *)

Lemma complete_dead im e now im' o :
  lease_inv (leases im) -> complete e now im = (im', Ok o) -> co_disposition o = Applied ->
  dead (ev_attempt e) (leases im').
Proof.
  intros Hinv H Ho. destruct (complete_applied _ _ _ _ _ H Ho) as (_ & Hm & a & Ha).
  apply judge_accept in Ha as (Ha & Ht & _).
  assert (rtc quiet (leases im) (leases im')) as Hq.
  { pose proof (quiet_complete _ Hinv e now im (rtc_refl _ _)) as Hq. unfold exec in Hq.
    by rewrite H in Hq. }
  destruct (quiets_next _ _ Hq) as (Hn & _).
  split.
  - rewrite Hn. eapply (li_id _ Hinv). apply lookup_leases. eauto.
  - intros l (r & Hr & ->)%lookup_leases. rewrite (cm_attempts _ _ _ _ Hm) in Hr.
    rewrite lookup_alter_eq, Ha in Hr. injection Hr as <-. done.
Qed.

Lemma judge_dead im e now :
  dead (ev_attempt e) (leases im) -> forall a, judge_completion im e now <> Accept a.
Proof.
  intros [_ Hd] a (Ha & Ht & _)%judge_accept.
  specialize (Hd (lease_of a)). rewrite (proj2 (lookup_leases _ _ _)) in Hd by eauto.
  specialize (Hd eq_refl). unfold lease_of in Hd. cbn in Hd. by rewrite Ht in Hd.
Qed.

(** The checks of [complete] on the evidence that has just been committed. *)
Lemma judge_again im e now im' now' a :
  judge_completion im e now = Accept a -> commits e now im im' ->
  judge_completion im' e now' = Duplicate (committed e (credit_of e) now a).
Proof.
  intros Hj [Hs Hat He Hd]. pose proof Hj as (Ha & Ht & Hf & rt & Hrt & _)%judge_accept.
  assert (exists rt', im_flows im' !! ev_flow e = Some rt' /\ fr_descriptor rt' = fr_descriptor rt)
    as (rt' & Hrt' & Hdesc).
  { apply (f_equal (lookup (ev_flow e))) in Hd. rewrite !lookup_view, Hrt in Hd.
    destruct (im_flows im' !! ev_flow e) as [rt'|]; [|done]. exists rt'. by injection Hd. }
  unfold judge_completion in *. rewrite He, Hrt', Hat, lookup_alter_eq, Ha, Hdesc.
  rewrite Hrt, Ha in Hj.
  destruct (negb (established _)); [done|]. destruct (negb (evidence_bound e)); [done|].
  destruct (kMaxServiceUnits <? _); [done|]. destruct (negb (ev_epoch e =? _)); [done|].
  destruct (negb (_ =? ev_flow_generation e)); [done|].
  cbn [fmap option_fmap option_map]. unfold judge_attempt in *. cbv zeta in *.
  change (at_ticket (committed e (credit_of e) now a)) with (at_ticket a).
  destruct (_ || _); [done|]. destruct (negb (_ =? ev_schedule_generation e)); [done|].
  destruct (_ || _); [done|].
  change (at_state (committed e (credit_of e) now a)) with ACommitted.
  change (at_has_evidence (committed e (credit_of e) now a)) with true.
  change (at_evidence_digest (committed e (credit_of e) now a)) with (evidence_digest e).
  by rewrite N.eqb_refl.
Qed.

(** ** Properties *)

(** C7 A completion report changes the service of no flow unless it is
    applied; an applied one adds exactly the reported credit to exactly its own
    flow, the report names a live attempt of the current epoch held by that very
    worker incarnation, and the credit is at most the quantum the attempt was
    authorised for. *)
Theorem completion_credit (e : CompletionEvidence) (now : Ticks) (im : Impl) :
  let im' := exec (complete e now) im in
  match outcome (complete e now) im with
  | Ok o =>
      match co_disposition o with
      | Applied =>
          served im' =
            alter (fun w => saturating_add w (co_credited o)) (ev_flow e) (served im) /\
          exists a, im_attempts im !! ev_attempt e = Some a /\
            is_attempt_terminal (at_state a) = false /\
            tk_flow (at_ticket a) = ev_flow e /\ tk_schedule (at_ticket a) = ev_schedule e /\
            tk_worker (at_ticket a) = ev_worker e /\ tk_boot (at_ticket a) = ev_boot e /\
            ev_epoch e = im_epoch im /\ co_credited o <= tk_quantum (at_ticket a)
      | _ => served im' = served im
      end
  | Err _ => served im' = served im
  end.
Proof.
  cbv zeta. unfold exec, outcome. pose proof (complete_wp im e now) as W. unfold wp in W.
  destruct (complete e now im) as [im' [o|err]] eqn:H; cbn [fst snd]; [|done].
  destruct (judge_completion im e now) as [code b|r|a] eqn:Hj.
  - destruct W as [-> Hs]. done.
  - destruct W as (-> & _ & Hs). done.
  - destruct W as (-> & Hc & [Hs _ _ _]). rewrite Hc. split; [done|]. exists a.
    apply judge_accept in Hj as (Ha & Ht & Hf & rt & _ & _ & _ & He & Hsc & _ & Hw & Hb & Hq).
    pose proof (credit_le e). split_and!; try done. lia.
Qed.

(** C6 Service is credited at most once per dispatch: after an attempt's
    completion was applied, no report for that attempt is applied again, from
    this worker or another, with the same or different evidence, after any
    number of further calls. *)
Theorem completion_applied_once (im im1 im2 : Impl) (e e' : CompletionEvidence)
  (now now' : Ticks) (o o' : CommitOutcome)
  (H : in_service im) (Hids : ids_left im)
  (Hfirst : complete e now im = (im1, Ok o)) (Happlied : co_disposition o = Applied)
  (Hcalls : rtc serves im1 im2) (Hsame : ev_attempt e' = ev_attempt e)
  (Hagain : outcome (complete e' now') im2 = Ok o') :
  co_disposition o' <> Applied.
Proof.
  assert (in_service im1) as H1.
  { pose proof (serve_call (CComplete e now) im H Hids) as Hs. cbn [run] in Hs.
    unfold exec in Hs. by rewrite Hfirst in Hs. }
  assert (dead (ev_attempt e') (leases im2)) as Hd.
  { rewrite Hsame. eapply dead_steps; [by apply serves_steps|].
    by apply (complete_dead im e now im1 o); [apply in_service_lease_inv|..]. }
  intros Ho'. unfold outcome in Hagain. destruct (complete e' now' im2) as [im3 r] eqn:Hc.
  cbn in Hagain. subst r. destruct (complete_applied _ _ _ _ _ Hc Ho') as (_ & _ & a & Ha).
  by apply (judge_dead im2 e' now' Hd a).
Qed.

(** C22 Reporting the same evidence again is harmless: the repeat of an
    applied report is answered as a duplicate with the credit of the first, at
    any tick, and changes no flow's service. *)
Theorem duplicate_completion_idempotent (im im1 : Impl) (e : CompletionEvidence)
  (now now' : Ticks) (o : CommitOutcome)
  (Hfirst : complete e now im = (im1, Ok o)) (Happlied : co_disposition o = Applied) :
  exists o', outcome (complete e now') im1 = Ok o' /\
    co_disposition o' = IdempotentDuplicate /\ co_credited o' = co_credited o /\
    served (exec (complete e now') im1) = served im1.
Proof.
  destruct (complete_applied _ _ _ _ _ Hfirst Happlied) as (Hc & Hm & a & Ha).
  pose proof (judge_again _ _ _ _ now' _ Ha Hm) as Hj.
  pose proof (complete_wp im1 e now') as W. unfold wp in W. rewrite Hj in W.
  unfold outcome, exec. destruct (complete e now' im1) as [im2 [o'|err]] eqn:H2.
  - exists o'. rewrite Hc. destruct W as (? & ? & ?). done.
  - exfalso. revert H2. unfold complete, observe_tick, bind, modify, get, ret.
    match goal with |- context [judge_completion ?i e now'] =>
      change (judge_completion i e now') with (judge_completion im1 e now') end.
    rewrite Hj. done.
Qed.

(** ** Witnesses *)

Definition before : Impl := run_all (take 9 demo_calls) Demo.start.
Definition first_outcome : CommitOutcome :=
  match outcome (complete Demo.evidence 12) before with
  | Ok o => o
  | Err c => rejected c
  end.

Lemma first_report :
  complete Demo.evidence 12 before = (exec (complete Demo.evidence 12) before, Ok first_outcome).
Proof. vm_compute. reflexivity. Qed.

Lemma completion_applied_once_witness :
  co_disposition first_outcome = Applied /\
  exists o', outcome (complete Demo.evidence 30) (exec (complete Demo.evidence 12) before) = Ok o' /\
    co_disposition o' <> Applied.
Proof.
  split; [vm_compute; reflexivity|].
  eexists. split; [vm_compute; reflexivity|].
  eapply (completion_applied_once before _ _ Demo.evidence Demo.evidence 12 30).
  - apply (demo_in_service_prefix 9).
  - vm_compute. repeat split.
  - exact first_report.
  - vm_compute. reflexivity.
  - apply rtc_refl.
  - reflexivity.
  - vm_compute. reflexivity.
Defined.

Lemma duplicate_completion_idempotent_witness :
  exists o', outcome (complete Demo.evidence 99) (exec (complete Demo.evidence 12) before) = Ok o' /\
    co_disposition o' = IdempotentDuplicate /\ co_credited o' = 30 /\
    served (exec (complete Demo.evidence 99) (exec (complete Demo.evidence 12) before)) =
    served (exec (complete Demo.evidence 12) before).
Proof.
  apply (duplicate_completion_idempotent before _ Demo.evidence 12 99 first_outcome).
  - exact first_report.
  - vm_compute. reflexivity.
Defined.
