(* ===== verification/Epoch.v ===== *)
(** * Epochs: what fencing retires stays retired

    Only [advance_epoch] moves the epoch, forward and by one.  Tickets and
    completion evidence carry the epoch they were issued in, so once the epoch
    has moved they are refused for good; and an advance leaves no dispatch
    authority behind. *)

From S2P Require Import Prelude Checked Bytes Hash Model Schedule Codec Journal State.
From S2P Require Import Transitions Arbitrate Operations Recovery Fixture Invariants Frames.
From S2P Require Import System Lease Authority Completion.

(** What every call but [advance_epoch] leaves alone: the epoch, and whether
    there is a durable store. *)
Definition durable_mode (im : Impl) : bool :=
  match im_store im with None => false | Some _ => true end.
Definition anchor (im : Impl) : FabricEpoch * bool := (im_epoch im, durable_mode im).

Definition at_epoch (ep : FabricEpoch * bool) (im : Impl) : Prop := anchor im = ep.

Section AtEpoch.
Context (ep : FabricEpoch * bool).

Lemma at_epoch_eq im im' : anchor im' = anchor im -> at_epoch ep im -> at_epoch ep im'.
Proof. unfold at_epoch. by intros ->. Qed.

Lemma at_epoch_index_insert f s im : at_epoch ep im -> at_epoch ep (index_insert f s im).
Proof. by destruct s. Qed.
End AtEpoch.

Create HintDb epoch.
#[export] Hint Extern 2 (at_epoch _ (if ?c then _ else _)) => destruct c : epoch.
Ltac epoch_step :=
  lazymatch goal with
  | |- at_epoch _ (transition _ _ _ _ _ _ _ ?i) =>
      apply (at_epoch_eq _ i); [apply (blind_transition anchor)|]
  | |- at_epoch _ (record_step _ _ ?i) =>
      apply (at_epoch_eq _ i); [apply (blind_record_step anchor)|]
  | |- at_epoch _ (set_lifecycle _ _ _ ?i) =>
      apply (at_epoch_eq _ i); [apply (blind_set_lifecycle anchor)|]
  | |- at_epoch _ (normalize_transient_states _ ?i) =>
      apply (at_epoch_eq _ i); [apply (blind_normalize anchor)|]
  | |- at_epoch _ (rearm _ _ _ ?i) =>
      apply (at_epoch_eq _ i); [apply (blind_rearm anchor)|]
  | |- at_epoch _ (upd_flow _ _ ?i) => apply (at_epoch_eq _ i); [reflexivity|]
  | |- at_epoch _ (upd_schedule _ _ ?i) => apply (at_epoch_eq _ i); [reflexivity|]
  | |- at_epoch _ (upd_resource _ _ ?i) => apply (at_epoch_eq _ i); [reflexivity|]
  | |- at_epoch _ (upd_attempt _ _ ?i) => apply (at_epoch_eq _ i); [reflexivity|]
  | |- at_epoch _ (release_slot _ ?i) => apply (at_epoch_eq _ i); [reflexivity|]
  | |- at_epoch _ (if ?c then _ else _) => destruct c
  | |- at_epoch _ (match ?x with _ => _ end) => destruct x eqn:?
  | |- at_epoch _ (@upd _ _ ?p ?u ?f ?i) =>
      let H := fresh in
      assert (forall x, anchor (@upd _ _ p u f x) = anchor x) as H by done;
      apply (at_epoch_eq _ i _ (H i)); clear H
  | |- at_epoch _ (foldl _ _ _) => apply foldl_inv; [|intros ? ? _ ?]
  end.
Ltac epoch_solve := cbv zeta; repeat epoch_step; try assumption; auto with epoch.

Section Transitions.
Context (ep : FabricEpoch * bool).
Abbreviation E := (at_epoch ep).

Lemma epoch_closed a st d now im : E im -> E (apply_attempt_closed a st d now im).
Proof. intros H. unfold apply_attempt_closed, close_flow. epoch_solve. Qed.
Lemma epoch_run_entry s i now im : E im -> E (release_run_entry s i now im).
Proof. intros H. unfold release_run_entry. epoch_solve. Qed.
Hint Resolve epoch_closed epoch_run_entry : epoch.
Lemma epoch_held rt now im : E im -> E (release_held_window rt now im).
Proof. intros H. unfold release_held_window. epoch_solve. Qed.
Lemma epoch_release_schedule s now im : E im -> E (apply_release_schedule s now im).
Proof. intros H. unfold apply_release_schedule. epoch_solve. Qed.
Hint Resolve epoch_held epoch_release_schedule : epoch.
Lemma epoch_cancel f g now im : E im -> E (apply_cancel f g now im).
Proof. intros H. unfold apply_cancel. epoch_solve. Qed.
Lemma epoch_retire_flow f g im : E im -> E (apply_retire_flow f g im).
Proof. intros H. unfold apply_retire_flow. epoch_solve. Qed.
Lemma epoch_resolved f g r now im : E im -> E (apply_ambiguity_resolved f g r now im).
Proof. intros H. unfold apply_ambiguity_resolved. epoch_solve. Qed.
Lemma epoch_readiness f g s now im : E im -> E (apply_readiness f g s now im).
Proof. intros H. unfold apply_readiness. epoch_solve. Qed.
Lemma epoch_apply_entry s e im : E im -> E (apply_run_entry s e im).
Proof. intros H. unfold apply_run_entry. epoch_solve. Qed.
Hint Resolve epoch_apply_entry : epoch.
Lemma epoch_schedule s im : E im -> E (apply_schedule s im).
Proof. intros H. unfold apply_schedule. epoch_solve. Qed.
Lemma epoch_opened t n now im : E im -> E (apply_attempt_opened t n now im).
Proof. intros H. unfold apply_attempt_opened. epoch_solve. Qed.
Lemma epoch_started a now im : E im -> E (apply_attempt_started a now im).
Proof. intros H. unfold apply_attempt_started. epoch_solve. Qed.
Lemma epoch_completion e c l now im : E im -> E (apply_completion e c l now im).
Proof. intros H. unfold apply_completion. epoch_solve. Qed.
Lemma epoch_retire_loop order im : E im -> E (retire_loop order im).
Proof.
  revert im. induction order as [|id order IH]; intros im H; [done|]. cbn [retire_loop].
  repeat case_match; try done; apply IH; epoch_solve.
Qed.
Lemma epoch_admit d im : E im -> E (exec (apply_admit d) im).
Proof. intros H. unfold exec, apply_admit. destruct (_ && _); [done|]. cbn [fst]. epoch_solve. Qed.
Lemma epoch_update d im : E im -> E (exec (apply_update d) im).
Proof.
  intros H. unfold exec, apply_update. destruct (im_flows im !! fd_flow d); [|done].
  destruct (holds_open_work _); [done|]. cbn [fst]. epoch_solve.
Qed.
Lemma epoch_retire_reservation r g im : E im -> E (apply_retire_reservation r g im).
Proof. intros H. unfold apply_retire_reservation. epoch_solve. Qed.
Lemma epoch_count_rejected e b im : E im -> E (count_rejected e b im).
Proof. intros H. unfold count_rejected. epoch_solve. Qed.
End Transitions.

#[export] Hint Resolve epoch_closed epoch_run_entry epoch_held epoch_release_schedule epoch_cancel
  epoch_retire_flow epoch_resolved epoch_readiness epoch_apply_entry epoch_schedule epoch_opened
  epoch_started epoch_completion epoch_retire_loop epoch_admit epoch_update
  epoch_retire_reservation epoch_count_rejected : epoch.

(** ** Methods *)

Section Methods.
Context (ep : FabricEpoch * bool).
Abbreviation E := (at_epoch ep).

Lemma anchor_store im ds ds' :
  im_store im = Some ds -> E im -> E (im <| im_store := Some ds' |>).
Proof. unfold at_epoch, anchor, durable_mode. upd_simpl. by intros ->. Qed.

Lemma epoch_journal t ops : preserves E (journal t ops).
Proof.
  intros im H. unfold exec, journal. destruct (im_store im) as [ds|] eqn:Hs; [|done].
  destruct (append t (payload ops) ds) as [ds' r]. by apply (anchor_store im ds ds').
Qed.

Lemma epoch_on_store {A} (m : StoreM A) : preserves E (on_store m).
Proof.
  intros im H. unfold exec, on_store. destruct (im_store im) as [ds|] eqn:Hs; [|done].
  destruct (m ds) as [ds' r]. by apply (anchor_store im ds ds').
Qed.

Lemma epoch_close_attempt a st d now : preserves E (close_attempt a st d now).
Proof.
  unfold close_attempt. repeat preserve_step; [apply epoch_journal|]. by apply epoch_closed.
Qed.

Lemma epoch_handle_miss id now im o : E im -> E (handle_deadline_miss id now im o).1.
Proof.
  intros H. unfold handle_deadline_miss, count_deadline_miss.
  repeat case_match; try done; cbn [fst]; epoch_solve.
Qed.

Lemma epoch_not_ready id rt reason now im o : E im -> E (not_ready id rt reason now im o).1.
Proof.
  intros H. unfold not_ready, fail_dependent. destruct reason; try done.
  - by apply epoch_handle_miss.
  - cbn [fst]. epoch_solve.
Qed.

Lemma epoch_refresh now im o : E im -> E (refresh_lifecycles now im o).1.
Proof.
  intros H. unfold refresh_lifecycles.
  destruct (foldl (refresh_waiting now) (im, o) _) as [im1 o1] eqn:E1.
  assert (E im1) as H1.
  { change (E (im1, o1).1). rewrite <- E1.
    apply (foldl_inv (fun st => E st.1)); [done|]. intros [im2 o2] id _ H2.
    unfold refresh_waiting. repeat case_match; try done; cbn [fst];
      [epoch_solve | by apply epoch_not_ready]. }
  apply (foldl_inv (fun st => E st.1)); [done|]. intros [im2 o2] id _ H2.
  unfold refresh_inflight, count_deadline_miss. by repeat case_match.
Qed.

Lemma epoch_reclaim now im o : E im -> E (reclaim_expired_deliveries now im o).1.
Proof.
  unfold reclaim_expired_deliveries. generalize (im_schedule_order im) as order.
  intros order. revert im o. induction order as [|id order IH]; intros im o H; [done|].
  cbn [reclaim_loop]. repeat case_match; try done; try (by apply IH); cbn [fst];
    match goal with J : journal _ _ _ = (?i, _) |- _ =>
      assert (E i) by (pose proof (epoch_journal JScheduleReleased
        [WU64 id; WU64 now] im H) as Hj; unfold exec in Hj; by rewrite J in Hj) end.
  - apply IH. by apply epoch_release_schedule.
  - done.
Qed.

Lemma epoch_rank now im : E im -> E (rank_candidates now im).1.
Proof.
  intros H. unfold rank_candidates. destruct (foldl _ _ _) as [im1 cs] eqn:Ef.
  change (E (im1, cs).1). rewrite <- Ef.
  apply (foldl_inv (fun st => E st.1)); [done|]. intros [im2 cs2] id _ H2.
  unfold consider. by repeat case_match.
Qed.

Lemma epoch_issue entries now o : preserves E (issue_schedule entries now o).
Proof.
  unfold issue_schedule. repeat preserve_step; try apply epoch_journal; epoch_solve.
Qed.

Lemma epoch_arbitrate now : preserves E (arbitrate now).
Proof.
  intros im. apply (arbitrate_PQ E E now).
  - intros. apply epoch_close_attempt.
  - intros. epoch_solve.
  - intros. epoch_solve.
  - intros. epoch_solve.
  - intros. by apply epoch_not_ready.
  - intros. epoch_solve.
  - intros. by apply epoch_reclaim.
  - intros. by apply epoch_refresh.
  - intros. by apply epoch_rank.
  - intros. unfold roll_preemption_window. epoch_solve.
  - done.
  - intros. by apply epoch_issue.
  - intros. epoch_solve.
  - intros. by apply epoch_retire_loop.
Qed.

Lemma epoch_checkpoint : preserves E checkpoint.
Proof.
  intros im H. unfold exec, checkpoint. destruct (im_store im); [|done].
  destruct (encode_state_snapshot im) as [|b l]; [done|]. by apply epoch_on_store.
Qed.
End Methods.
#[export] Hint Resolve epoch_journal epoch_close_attempt : epoch.

Ltac epoch_method :=
  unfold observe_tick, require_flow; repeat preserve_step; try done; eauto with epoch;
  try (intros ? ?; eauto with epoch); try (progress epoch_solve).

(** Every call but [advance_epoch] leaves the epoch where it is. *)
Lemma epoch_run c ep :
  (forall r now, c <> CAdvanceEpoch r now) ->
  forall im, at_epoch ep im -> at_epoch ep (run c im).
Proof.
  intros Hc. destruct c; cbn [run]; lazymatch goal with |- forall im, _ -> _ (exec ?m im) =>
    change (preserves (at_epoch ep) m) end.
  - unfold register_resource, apply_resource. epoch_method.
  - unfold register_reservation, apply_reservation. epoch_method.
  - unfold retire_reservation. epoch_method.
  - unfold register_priority_class, apply_priority_class. epoch_method.
  - unfold register_qos_class, apply_qos_class. epoch_method.
  - unfold admit_flow. epoch_method.
  - unfold update_flow. epoch_method.
  - unfold cancel_flow. epoch_method.
  - unfold notify_readiness. epoch_method.
  - unfold resolve_ambiguous. epoch_method.
  - unfold retire_flow. epoch_method.
  - unfold install_policy, apply_policy. epoch_method.
  - by destruct (Hc reason now).
  - apply epoch_arbitrate.
  - unfold release_schedule. epoch_method.
  - unfold begin_dispatch. epoch_method.
  - unfold mark_started. epoch_method.
  - unfold abandon_attempt. epoch_method.
  - unfold preempt_attempt. epoch_method.
  - unfold complete, commit_completion. epoch_method.
  - apply epoch_checkpoint.
Qed.

(** ** Abandoning what is in flight *)

(** Flow [f] is ambiguous, or it still holds the live attempt [a]. *)
Definition settling (f : FlowId) (a : DispatchAttemptId) (im : Impl) : Prop :=
  life im !! f = Some Ambiguous \/
  exists rt r, im_flows im !! f = Some rt /\ fr_open_attempt rt = a /\
    im_attempts im !! a = Some r /\ is_attempt_terminal (at_state r) = false /\
    tk_flow (at_ticket r) = f.

Lemma life_closed_abandoned b d now im :
  life (apply_attempt_closed b AAbandoned d now im) =
  match im_attempts im !! b with
  | None => life im
  | Some r =>
      if is_attempt_terminal (at_state r) then life im
      else match im_flows im !! tk_flow (at_ticket r) with
           | None => life im
           | Some rt =>
               if fr_open_attempt rt =? b
               then alter (fun _ => Ambiguous) (tk_flow (at_ticket r)) (life im)
               else life im
           end
  end.
Proof.
  unfold apply_attempt_closed. destruct (im_attempts im !! b) as [r|]; [|done].
  destruct (is_attempt_terminal (at_state r)); [done|]. cbv zeta.
  unfold upd_schedule at 1, upd_attempt at 1. upd_simpl.
  destruct (im_flows im !! tk_flow (at_ticket r)) as [rt|]; [|by apply life_flows].
  destruct (fr_open_attempt rt =? b); cbn [negb]; [|by apply life_flows].
  cbn [close_flow]. rewrite life_transition. f_equal.
  match goal with |- life (release_slot _ ?i) = _ => transitivity (life i); [by apply life_flows|] end.
  rewrite life_upd_flow by done. by apply life_flows.
Qed.

(** Closing another attempt does not touch a flow that holds its own. *)
Lemma closed_other f a b d now im rt :
  im_flows im !! f = Some rt -> fr_open_attempt rt = a -> b <> a ->
  im_flows (apply_attempt_closed b AAbandoned d now im) !! f = Some rt /\
  im_attempts (apply_attempt_closed b AAbandoned d now im) !! a = im_attempts im !! a.
Proof.
  intros Hf Ho Hne. unfold apply_attempt_closed. destruct (im_attempts im !! b) as [r|]; [|done].
  destruct (is_attempt_terminal (at_state r)); [done|]. cbv zeta.
  set (im2 := upd_schedule _ _ _). change (im_flows im2) with (im_flows im).
  assert (im_attempts im2 !! a = im_attempts im !! a) as Ha2.
  { unfold im2, upd_schedule, upd_attempt. upd_simpl. by apply lookup_alter_ne. }
  destruct (im_flows im !! tk_flow (at_ticket r)) as [rt'|] eqn:Hrt'; [|done].
  destruct (N.eqb_spec (fr_open_attempt rt') b) as [Ho'|]; cbn [negb]; [|done].
  assert (tk_flow (at_ticket r) <> f) as Hff by congruence.
  cbn [close_flow]. unfold transition. split.
  - unfold record_step. unfold upd_flow at 1. upd_simpl. rewrite lookup_alter_ne by done.
    rewrite set_lifecycle_lookup_ne by done. unfold release_slot, upd_resource, upd_flow.
    upd_simpl. by rewrite lookup_alter_ne.
  - rewrite (blind_record_step im_attempts), (blind_set_lifecycle im_attempts).
    unfold release_slot, upd_resource. upd_simpl. by rewrite (blind_upd_flow im_attempts).
Qed.

Lemma settling_close f a b d now im :
  settling f a im -> settling f a (apply_attempt_closed b AAbandoned d now im).
Proof.
  intros [Hl|(rt & r & Hf & Ho & Ha & Ht & Hfl)].
  - left. rewrite life_closed_abandoned. repeat case_match; try done.
    destruct (decide (tk_flow (at_ticket a0) = f)) as [->|Hne].
    + by rewrite lookup_alter_eq, Hl.
    + by rewrite lookup_alter_ne.
  - destruct (decide (b = a)) as [->|Hne].
    + left. rewrite life_closed_abandoned, Ha, Ht, Hfl, Hf, Ho, N.eqb_refl, lookup_alter_eq.
      unfold life. by rewrite lookup_view, Hf.
    + right. exists rt, r. destruct (closed_other f a b d now im rt Hf Ho Hne) as [-> ->]. done.
Qed.

Lemma settled_close f a d now im :
  settling f a im -> life (apply_attempt_closed a AAbandoned d now im) !! f = Some Ambiguous.
Proof.
  intros [Hl|(rt & r & Hf & Ho & Ha & Ht & Hfl)].
  - rewrite life_closed_abandoned. repeat case_match; try done.
    destruct (decide (tk_flow (at_ticket a0) = f)) as [->|Hne].
    + by rewrite lookup_alter_eq, Hl.
    + by rewrite lookup_alter_ne.
  - rewrite life_closed_abandoned, Ha, Ht, Hfl, Hf, Ho, N.eqb_refl, lookup_alter_eq.
    unfold life. by rewrite lookup_view, Hf.
Qed.

Lemma settled_abandon_all f a d now l im :
  settling f a im -> a ∈ l -> life (foldl (abandon_one now d) im l) !! f = Some Ambiguous.
Proof.
  revert im. induction l as [|b l IH]; intros im Hs Hin; [by apply not_elem_of_nil in Hin|].
  cbn [foldl]. apply elem_of_cons in Hin as [->|Hin].
  - assert (life (abandon_one now d im b) !! f = Some Ambiguous) as Hb by (by apply (settled_close f b)).
    apply (foldl_inv (fun i => life i !! f = Some Ambiguous)); [done|].
    intros i c _ Hi. apply (settled_close f c). by left.
  - apply IH; [|done]. by apply (settling_close f a b d now im).
Qed.

(** Releasing a schedule changes only flows that hold one of its windows. *)
Lemma life_release_run_entry f l s i now im :
  l <> Scheduled -> life im !! f = Some l -> life (release_run_entry s i now im) !! f = Some l.
Proof.
  intros Hl Hf. unfold release_run_entry. destruct (im_schedules im !! s) as [sr|]; [|done].
  destruct (sc_entries (sr_schedule sr) !! i) as [e|]; [|done].
  destruct (sr_consumed sr !! i) as [[|]|]; [|done|done]. cbv zeta.
  destruct (negb (is_run e)); [done|].
  set (im2 := upd_schedule s _ (upd_schedule s _ im)). change (im_flows im2) with (im_flows im).
  destruct (im_flows im !! se_flow e) as [rt|] eqn:Hrt; [|done].
  case_bool_decide as Hs; [|done]. cbn [negb orb]. destruct (negb _); [done|].
  rewrite life_transition, lookup_alter_ne.
  - match goal with |- life (release_slot _ ?i) !! _ = _ => change (life i !! f = Some l) end.
    by rewrite life_upd_flow.
  - intros <-. unfold life in Hf. rewrite lookup_view, Hrt in Hf. injection Hf as Hf. congruence.
Qed.

Lemma life_release_schedule f l s now im :
  l <> Scheduled -> life im !! f = Some l ->
  life (apply_release_schedule s now im) !! f = Some l.
Proof.
  intros Hl Hf. unfold apply_release_schedule. case_match; [|done].
  apply (foldl_inv (fun i => life i !! f = Some l)); [done|].
  intros. by apply life_release_run_entry.
Qed.

Lemma life_normalize f l now im :
  l <> Preempting -> l <> Cancelling -> life im !! f = Some l ->
  life (normalize_transient_states now im) !! f = Some l.
Proof.
  intros H1 H2 Hf. unfold normalize_transient_states.
  apply (foldl_inv (fun i => life i !! f = Some l)); [done|]. intros i id _ Hi.
  unfold normalize_flow. destruct (im_flows i !! id) as [rt|] eqn:Hrt; [|done].
  assert (id = f -> fr_lifecycle rt = l) as Hid.
  { intros ->. unfold life in Hi. rewrite lookup_view, Hrt in Hi. by injection Hi. }
  destruct (fr_lifecycle rt) eqn:E; try done; rewrite life_set_lifecycle, lookup_alter_ne; try done;
    intros ->; specialize (Hid eq_refl); congruence.
Qed.

Lemma life_epoch_advance next now im :
  life (apply_epoch_advance next now im) =
  life (abandon_open_attempts now "epoch advanced: prior dispatch authority retired" im).
Proof.
  unfold apply_epoch_advance. cbv zeta. set (im1 := abandon_open_attempts _ _ _).
  match goal with |- life ?x = _ =>
    assert (im_flows x = (fun rt => (clear_scheduled rt) <| fr_outstanding_reserved := 0 |>)
                           <$> im_flows im1) as Hf end.
  { upd_simpl. rewrite reindex_flows. by upd_simpl. }
  unfold life, view. rewrite Hf, <- map_fmap_compose. by apply map_fmap_ext.
Qed.

Lemma epoch_advance_ambiguous f rt next now im :
  lease_inv (leases im) -> im_flows im !! f = Some rt -> fr_open_attempt rt <> 0 ->
  life (apply_epoch_advance next now im) !! f = Some Ambiguous.
Proof.
  intros Hinv Hf Ha. rewrite life_epoch_advance. unfold abandon_open_attempts. cbv zeta.
  destruct (li_held _ Hinv f (fr_open_attempt rt) (in_flight (fr_lifecycle rt)))
    as (l & Hl & Hlive & Hlf); [by apply lookup_holds; eauto | done|].
  apply lookup_leases in Hl as (r & Hr & ->). unfold lease_of in Hlive, Hlf. cbn in Hlive, Hlf.
  apply negb_true_iff in Hlive.
  apply life_normalize; [done|done|].
  apply (foldl_inv (fun i => life i !! f = Some Ambiguous)).
  - apply (settled_abandon_all f (fr_open_attempt rt)).
    + right. exists rt, r. done.
    + apply elem_of_open_attempts. eauto.
  - intros. by apply life_release_schedule.
Qed.

(** ** The call *)

(** What an epoch advance leaves: nothing dispatched, nothing scheduled,
    nothing reserved. *)
Record fenced (next : FabricEpoch) (im : Impl) : Prop := {
  fe_epoch : im_epoch im = next;
  fe_attempts : im_attempts im = ∅;
  fe_schedules : im_schedules im = ∅;
  fe_order : im_schedule_order im = [];
  fe_reserved : forall f rt, im_flows im !! f = Some rt -> fr_outstanding_reserved rt = 0;
  fe_slots : forall r res, im_resources im !! r = Some res -> rr_in_flight res = 0 }.

Lemma reindex_resources_same im : im_resources (reindex_all im) = im_resources im.
Proof.
  unfold reindex_all. cbv zeta.
  apply (foldl_inv (fun i => im_resources i = im_resources im)); [done|].
  intros i [id rt] _ Hi. rewrite <- Hi. by destruct (slot _).
Qed.

Lemma apply_epoch_fenced next now im : fenced next (apply_epoch_advance next now im).
Proof.
  unfold apply_epoch_advance. cbv zeta. set (im1 := abandon_open_attempts _ _ _).
  split; upd_simpl; try done.
  - intros f rt. rewrite reindex_flows. upd_simpl. rewrite lookup_fmap_Some.
    by intros (rt' & <- & _).
  - intros r res. rewrite reindex_resources_same. upd_simpl. rewrite lookup_fmap_Some.
    by intros (res' & <- & _).
Qed.

Lemma fenced_not_in_flight next im :
  fenced next im -> lease_inv (leases im) ->
  forall f l, life im !! f = Some l -> l <> Dispatched /\ l <> Running.
Proof.
  intros Hfe Hinv f l. unfold life. rewrite lookup_view.
  destruct (im_flows im !! f) as [rt|] eqn:Hrt; [|done]. intros [= <-].
  pose proof (open_in_flight f rt im Hinv Hrt) as Ho.
  destruct (N.eq_dec (fr_open_attempt rt) 0) as [Hz|Hnz].
  - rewrite Hz in Ho. by destruct (fr_lifecycle rt).
  - exfalso. destruct (li_held _ Hinv f (fr_open_attempt rt) (in_flight (fr_lifecycle rt)))
      as (l & Hl & _); [by apply lookup_holds; eauto | done|].
    apply lookup_leases in Hl as (r & Hr & _). by rewrite (fe_attempts _ _ Hfe) in Hr.
Qed.

Lemma advance_epoch_wp reason now im :
  wp (advance_epoch reason now)
    (fun next im' => next = im_epoch im + 1 /\
       exists im0, im_flows im0 = im_flows im /\ leases im0 = leases im /\
         im' = apply_epoch_advance next now im0)
    (fun _ im' => im_epoch im' = im_epoch im) im.
Proof.
  unfold advance_epoch, observe_tick. do 4 wp_step. cbv zeta. upd_simpl. do 2 wp_step.
  destruct (advance (im_epoch im)) as [next|] eqn:Ha; [|done].
  apply advance_Ok in Ha as [-> _]. wp_step. apply wp_journal; [|by intros].
  intros st. do 3 wp_step. split; [done|].
  eexists. split; [|split; [|reflexivity]]; reflexivity.
Qed.

Lemma advance_or_not (c : Call) :
  (exists r now, c = CAdvanceEpoch r now) \/ (forall r now, c <> CAdvanceEpoch r now).
Proof. destruct c; first [by right | left; by eexists _, _]. Qed.

Lemma epoch_step_run c im : im_epoch im <= im_epoch (run c im).
Proof.
  destruct (advance_or_not c) as [(r & now & ->)|Hc].
  - pose proof (advance_epoch_wp r now im) as W. cbn [run]. unfold wp, exec in *.
    destruct (advance_epoch r now im) as [im' [next|e]]; cbn [fst].
    + destruct W as (-> & im0 & _ & _ & ->). rewrite (fe_epoch _ _ (apply_epoch_fenced _ _ _)). lia.
    + rewrite W. lia.
  - pose proof (epoch_run c (anchor im) Hc im eq_refl) as [= H _]. lia.
Qed.

(** Any number of further calls, whatever they return. *)
Definition later : Impl -> Impl -> Prop := rtc (fun im im' => exists c, im' = run c im).

Lemma epoch_later im im' : later im im' -> im_epoch im <= im_epoch im'.
Proof.
  induction 1 as [|a b c [k ->] _ IH]; [lia|]. pose proof (epoch_step_run k a). lia.
Qed.

(** ** Properties *)

(** C9 Authority from an earlier epoch is refused for good: once the epoch
    is past [ep], then after any further calls no ticket of epoch [ep] passes
    revalidation, and every completion report of epoch [ep] is rejected without
    changing the service of any flow. *)
Theorem fenced_forever (ep : FabricEpoch) (im im' : Impl)
  (Hpast : ep < im_epoch im) (Hcalls : later im im') :
  (forall t now, tk_epoch t = ep -> revalidate im' t now <> Ok tt) /\
  (forall e now, ev_epoch e = ep ->
     exists code, outcome (complete e now) im' = Ok (rejected code) /\
       served (exec (complete e now) im') = served im').
Proof.
  apply epoch_later in Hcalls. split.
  - intros t now Ht. unfold revalidate, validate_ticket_fields, guard_err. cbn [ticket_authority au_epoch].
    repeat (case_match; [done|]). apply orb_false_elim in H2 as [_ H2].
    apply negb_false_iff, N.eqb_eq in H2. lia.
  - intros e now He.
    assert (exists code b, judge_completion im' e now = Reject code b) as (code & b & Hj).
    { unfold judge_completion. do 3 (case_match; [by eexists _, _|]).
      rewrite (proj2 (N.eqb_neq _ _)) by lia. by eexists _, _. }
    exists code. pose proof (complete_wp im' e now) as W. unfold wp in W. rewrite Hj in W.
    unfold outcome, exec. destruct (complete e now im') as [im2 [o|err]] eqn:Hc.
    + cbn [fst snd]. destruct W as [-> ->]. done.
    + exfalso. revert Hc. unfold complete, observe_tick, bind, modify, get, ret.
      match goal with |- context [judge_completion ?i e now] =>
        change (judge_completion i e now) with (judge_completion im' e now) end.
      by rewrite Hj.
Qed.

(** C10 Advancing the epoch retires all dispatch authority: the epoch
    moves by one, no attempt, schedule, reserved unit or occupied slot remains,
    no flow stays dispatched or running, and every flow that was in flight is
    left ambiguous, to be resolved explicitly rather than retried silently. *)
Theorem advance_epoch_fences (im im' : Impl) (reason : EpochReason) (now : Ticks)
  (next : FabricEpoch) (H : in_service im)
  (Hcall : advance_epoch reason now im = (im', Ok next)) :
  next = im_epoch im + 1 /\ fenced next im' /\
  (forall f rt, im_flows im !! f = Some rt -> fr_open_attempt rt <> 0 ->
     life im' !! f = Some Ambiguous) /\
  (forall f l, life im' !! f = Some l -> l <> Dispatched /\ l <> Running).
Proof.
  apply in_service_lease_inv in H.
  pose proof (advance_epoch_wp reason now im) as W. unfold wp in W. rewrite Hcall in W.
  destruct W as (-> & im0 & Hf & Hl & ->). split; [done|]. split; [apply apply_epoch_fenced|].
  rewrite <- Hl in H. split.
  - intros f rt Hrt Ho. rewrite <- Hf in Hrt. by apply (epoch_advance_ambiguous f rt).
  - apply (fenced_not_in_flight (im_epoch im + 1)); [apply apply_epoch_fenced|].
    eapply lease_inv_quiets; [by apply leases_epoch | done].
Qed.

(** ** Witnesses *)

Definition advanced : Impl := exec (advance_epoch ReasonExplicit 20) before.

Lemma fenced_forever_witness :
  1 < im_epoch advanced /\
  exists code, outcome (complete Demo.evidence 21) (run (CArbitrate 21) advanced) = Ok (rejected code) /\
    served (exec (complete Demo.evidence 21) (run (CArbitrate 21) advanced)) =
    served (run (CArbitrate 21) advanced).
Proof.
  split; [vm_compute; reflexivity|].
  apply (fenced_forever 1 advanced).
  - vm_compute. reflexivity.
  - apply rtc_once. by exists (CArbitrate 21).
  - vm_compute. reflexivity.
Defined.

Lemma advance_epoch_fences_witness :
  fenced 2 advanced /\ life advanced !! 1 = Some Ambiguous.
Proof.
  destruct (advance_epoch_fences before advanced ReasonExplicit 20 2) as (_ & Hf & Ha & _).
  - apply (demo_in_service_prefix 9).
  - vm_compute. reflexivity.
  - split; [exact Hf|]. destruct (im_flows before !! 1) as [rt|] eqn:E; [|by vm_compute in E].
    apply (Ha 1 rt E). vm_compute in E. injection E as <-. discriminate.
Defined.
