(* ===== verification/Replay.v ===== *)
(** * Replay: what the journal remembers

    The events the operations write to the journal, and the transition each of
    them stands for.  Replaying the record of an event runs exactly that
    transition, so recovery after a crash rebuilds the state from the events
    whose records were written completely, and then fences it with a new epoch.

    A cancellation is the exception: its record carries the caller's reason,
    which replay does not read, so replaying it ends in an error after the
    cancellation itself has been applied. *)

From S2P Require Import Prelude Checked Bytes Hash Model Schedule Codec Framing Transport Protocol.
From S2P Require Import Journal State Transitions Arbitrate Operations Recovery Fixture Invariants Frames Capacity Bounds System.

Inductive Event : Type :=
| EvPolicy (p : SchedulingPolicy)
| EvResource (d : ResourceDescriptor)
| EvReservation (d : ReservationDescriptor)
| EvReservationRetired (r : ReservationId) (g : Generation)
| EvPriorityClass (d : PriorityClassDescriptor)
| EvQoSClass (d : QoSClassDescriptor)
| EvEpoch (previous next : FabricEpoch) (reason : EpochReason) (now : Ticks)
| EvAdmitted (d : FlowDescriptor)
| EvUpdated (d : FlowDescriptor)
| EvCancelled (f : FlowId) (g : Generation) (now : Ticks) (reason : string)
| EvReadiness (f : FlowId) (g : Generation) (s : ReadinessSignal) (now : Ticks)
| EvRetired (f : FlowId) (g : Generation)
| EvSchedule (s : Schedule)
| EvReleased (s : ScheduleId) (now : Ticks)
| EvOpened (t : DispatchTicket) (nominal : N) (now : Ticks)
| EvStarted (a : DispatchAttemptId) (now : Ticks)
| EvClosed (a : DispatchAttemptId) (st : AttemptState) (now : Ticks) (detail : string)
| EvCompletion (e : CompletionEvidence) (credited : N) (l : FlowLifecycle) (now : Ticks)
| EvResolved (f : FlowId) (g : Generation) (r : AmbiguityResolution) (now : Ticks).

(** The record an operation appends for the event. *)
Definition event_record (ev : Event) : JournalRecordType * list WriteOp :=
  match ev with
  | EvPolicy p => (JPolicyInstalled, write_policy p)
  | EvResource d => (JResourceRegistered, write_resource d)
  | EvReservation d => (JReservationRegistered, write_reservation d)
  | EvReservationRetired r g => (JReservationRetired, [WU64 r; WU64 g])
  | EvPriorityClass d => (JPriorityClassRegistered, write_priority_class d)
  | EvQoSClass d => (JQoSClassRegistered, write_qos_class d)
  | EvEpoch previous next reason now => (JEpochAdvanced, epoch_record previous next reason now)
  | EvAdmitted d => (JFlowAdmitted, write_flow_descriptor d)
  | EvUpdated d => (JFlowUpdated, write_flow_descriptor d)
  | EvCancelled f g now reason => (JFlowCancelled, [WU64 f; WU64 g; WU64 now; WText reason])
  | EvReadiness f g s now =>
      (JFlowReadinessChanged, [WU64 f; WU64 g; WU8 (signal_value s); WU64 now])
  | EvRetired f g => (JFlowRetired, [WU64 f; WU64 g])
  | EvSchedule s => (JScheduleIssued, write_schedule s)
  | EvReleased s now => (JScheduleReleased, [WU64 s; WU64 now])
  | EvOpened t nominal now => (JAttemptOpened, write_ticket t ++ [WU64 nominal; WU64 now])
  | EvStarted a now => (JAttemptStarted, [WU64 a; WU64 now])
  | EvClosed a st now detail =>
      (JAttemptClosed, [WU64 a; WU8 (attempt_state_value st); WU64 now; WText detail])
  | EvCompletion e credited l now =>
      (JCompletionCommitted,
       write_evidence e ++ [WU64 credited; WU8 (lifecycle_value l); WU64 now])
  | EvResolved f g r now =>
      (JAmbiguityResolved, [WU64 f; WU64 g; WU8 (resolution_value r); WU64 now])
  end.

(** The transition it stands for. *)
Definition apply_event (ev : Event) : Op unit :=
  match ev with
  | EvPolicy p => lift (validate_policy p) ;;; modify (apply_policy p)
  | EvResource d => lift (validate_resource d) ;;; modify (apply_resource d)
  | EvReservation d => lift (validate_reservation d) ;;; modify (apply_reservation d)
  | EvReservationRetired r g => modify (apply_retire_reservation r g)
  | EvPriorityClass d => lift (validate_priority_class d) ;;; modify (apply_priority_class d)
  | EvQoSClass d => lift (validate_qos_class d) ;;; modify (apply_qos_class d)
  | EvEpoch _ next _ now => modify (apply_epoch_advance next now)
  | EvAdmitted d => lift (validate_flow d) ;;; apply_admit d
  | EvUpdated d => lift (validate_flow d) ;;; apply_update d
  | EvCancelled f g now _ =>
      modify (apply_cancel f g now) ;;; modify (normalize_transient_states now) ;;;
      throw CorruptData
  | EvReadiness f g s now => modify (apply_readiness f g s now)
  | EvRetired f g => modify (apply_retire_flow f g)
  | EvSchedule s => modify (apply_schedule s)
  | EvReleased s now => modify (apply_release_schedule s now)
  | EvOpened t nominal now => modify (apply_attempt_opened t nominal now)
  | EvStarted a now => modify (apply_attempt_started a now)
  | EvClosed a st now detail =>
      modify (apply_attempt_closed a st detail now) ;;; modify (normalize_transient_states now)
  | EvCompletion e credited l now => modify (apply_completion e credited l now)
  | EvResolved f g r now => modify (apply_ambiguity_resolved f g r now)
  end.

(** Every field fits its type, and the record fits the writer. *)
Definition event_wf (ev : Event) : Prop :=
  ops_size (event_record ev).2 <= kMaxJournalRecordPayload /\
  match ev with
  | EvPolicy p => wf_policy p
  | EvResource d => wf_resource d
  | EvReservation d => wf_reservation d
  | EvReservationRetired r g => u64 r /\ u64 g
  | EvPriorityClass d => wf_priority_class d
  | EvQoSClass d => wf_qos_class d
  | EvEpoch previous next reason now => u64 previous /\ u64 next /\ u64 now
  | EvAdmitted d | EvUpdated d => wf_flow d
  | EvCancelled f g now _ | EvReadiness f g _ now => u64 f /\ u64 g /\ u64 now
  | EvRetired f g => u64 f /\ u64 g
  | EvSchedule s => wf_schedule s
  | EvReleased s now => u64 s /\ u64 now
  | EvOpened t nominal now => wf_ticket t /\ u64 nominal /\ u64 now
  | EvStarted a now => u64 a /\ u64 now
  | EvClosed a st now detail => u64 a /\ u64 now
  | EvCompletion e credited l now => wf_evidence e /\ u64 credited /\ u64 now
  | EvResolved f g r now => u64 f /\ u64 g /\ u64 now
  end.

(** ** One record *)

Lemma replay_with_all {A} (rd : Reader A) (act : A -> Op unit) data a :
  rd (data ++ []) = Ok (a, []) ->
  forall im, replay_with rd act data im = act a im.
Proof.
  rewrite app_nil_r. intros H im. unfold replay_with, bind, lift. rewrite H.
  by destruct (act a im) as [im' [[]|e]].
Qed.

(** Bytes the reader leaves make the record corrupt, after the transition has run. *)
Lemma replay_with_some {A} (rd : Reader A) (act : A -> Op unit) data a rest :
  rd data = Ok (a, rest) -> rest <> [] ->
  forall im, replay_with rd act data im = (act a ;;; throw CorruptData) im.
Proof.
  intros H Hr im. unfold replay_with, bind, lift. rewrite H.
  destruct (act a im) as [im' [[]|e]]; [|done]. by destruct rest.
Qed.

Lemma kDefaultLimit_record ops :
  ops_size ops <= kMaxJournalRecordPayload -> payload ops = ops_bytes ops.
Proof.
  intros H. apply payload_bytes. rewrite blen_ops_bytes.
  unfold kMaxJournalRecordPayload, kDefaultLimit in *. lia.
Qed.

(** The bytes of a record, field by field. *)
Ltac record_flat :=
  rewrite ?ops_bytes_app, ?ops_bytes_cons; cbn [op_bytes]; rewrite <- ?app_assoc;
  rewrite ?ops_bytes_nil_app.

Ltac enum_step x :=
  rewrite (r_enum_op _ _ _ _ _ x); [|by destruct x|by destruct x]; cbv beta.

Lemma blen_text_le ops s : WText s ∈ ops -> blen (string_bytes s) <= ops_size ops.
Proof.
  induction ops as [|op ops IH]; intros Hin; [by apply not_elem_of_nil in Hin|].
  apply elem_of_cons in Hin as [<-|Hin].
  - unfold ops_size. cbn [foldr]. cbn [op_size WText]. lia.
  - specialize (IH Hin). unfold ops_size in *. cbn [foldr]. lia.
Qed.

(** Replaying the record of an event is running its transition. *)
Lemma replay_event (ev : Event) (sequence : N) :
  event_wf ev ->
  forall im,
    apply_record (mkJournalRecordView (record_type_value (event_record ev).1) sequence
                    (payload (event_record ev).2)) im = apply_event ev im.
Proof.
  intros [Hsize Hwf]. rewrite kDefaultLimit_record by done.
  unfold apply_record. cbn [jv_payload jv_type]. rewrite record_type_roundtrip.
  destruct ev; cbn [event_record fst snd apply_event] in *.
  - intros im; rewrite (replay_with_all _ _ _ p); [reflexivity|]. by apply codec_read.
  - intros im; rewrite (replay_with_all _ _ _ d); [reflexivity|]. by apply codec_read.
  - intros im; rewrite (replay_with_all _ _ _ d); [reflexivity|]. by apply codec_read.
  - intros im; rewrite (replay_with_all _ _ _ (r, g)); [reflexivity|]. destruct Hwf. unfold read_ids. record_flat.
    by repeat message_step.
  - intros im; rewrite (replay_with_all _ _ _ d); [reflexivity|]. by apply codec_read.
  - intros im; rewrite (replay_with_all _ _ _ d); [reflexivity|]. by apply codec_read.
  - intros im; rewrite (replay_with_all _ _ _ (next, now)); [reflexivity|]. destruct Hwf as (? & ? & ?).
    unfold read_epoch_record, epoch_record. record_flat. do 2 message_step. enum_step reason.
    by message_step.
  - intros im; rewrite (replay_with_all _ _ _ d); [reflexivity|]. by apply codec_read.
  - intros im; rewrite (replay_with_all _ _ _ d); [reflexivity|]. by apply codec_read.
  - intros im. destruct Hwf as (? & ? & ?). erewrite (replay_with_some _ _ _ (f, g, now)).
    + reflexivity.
    + unfold read_cancel_record. record_flat. do 3 message_step. reflexivity.
    + done.
  - intros im; rewrite (replay_with_all _ _ _ (f, g, s, now)); [reflexivity|]. destruct Hwf as (? & ? & ?).
    unfold read_readiness_record. record_flat. do 2 message_step. enum_step s. by message_step.
  - intros im; rewrite (replay_with_all _ _ _ (f, g)); [reflexivity|]. destruct Hwf. unfold read_ids. record_flat.
    by repeat message_step.
  - intros im; rewrite (replay_with_all _ _ _ s); [reflexivity|]. by apply codec_read.
  - intros im; rewrite (replay_with_all _ _ _ (s, now)); [reflexivity|]. destruct Hwf. unfold read_ids. record_flat.
    by repeat message_step.
  - intros im; rewrite (replay_with_all _ _ _ (t, nominal, now)); [reflexivity|]. destruct Hwf as (? & ? & ?).
    unfold read_opened_record. rewrite ops_bytes_app, <- app_assoc. message_step. record_flat.
    by repeat message_step.
  - intros im; rewrite (replay_with_all _ _ _ (a, now)); [reflexivity|]. destruct Hwf. unfold read_ids. record_flat.
    by repeat message_step.
  - intros im; rewrite (replay_with_all _ _ _ (a, st, now, detail)); [reflexivity|]. destruct Hwf.
    assert (u64 (blen (string_bytes detail))) as Hd.
    { unfold u64. etrans; [apply blen_text_le; do 3 apply list_elem_of_further;
        apply list_elem_of_here|]. etrans; [exact Hsize | done]. }
    unfold read_closed_record. record_flat. message_step. enum_step st. message_step.
    by rewrite r_text_op.
  - intros im; rewrite (replay_with_all _ _ _ (e, credited, l, now)); [reflexivity|]. destruct Hwf as (? & ? & ?).
    unfold read_completion_record. rewrite ops_bytes_app, <- app_assoc. message_step. record_flat.
    message_step. enum_step l. by message_step.
  - intros im; rewrite (replay_with_all _ _ _ (f, g, r, now)); [reflexivity|]. destruct Hwf as (? & ? & ?).
    unfold read_resolution_record. record_flat. do 2 message_step. enum_step r. by message_step.
Qed.

(** ** The log of a run *)

(** The records the events leave in the journal. *)
Definition event_log (evs : list Event) : Log :=
  (fun ev => ((event_record ev).1, payload (event_record ev).2)) <$> evs.

Fixpoint apply_events (evs : list Event) : Op unit :=
  match evs with
  | [] => ret tt
  | ev :: evs => apply_event ev ;;; apply_events evs
  end.

Lemma event_log_wf evs :
  Forall event_wf evs -> 1 + N.of_nat (length evs) <= u64_max -> log_wf 1 (event_log evs).
Proof.
  intros H Hn. split; [|by unfold event_log; rewrite length_fmap].
  apply Forall_fmap. eapply Forall_impl; [exact H|]. intros ev [Hs _]. simpl.
  by rewrite kDefaultLimit_record, blen_ops_bytes.
Qed.

Lemma visit_events evs q im :
  Forall event_wf evs ->
  visit_all apply_record (log_views q (event_log evs)) im = apply_events evs im.
Proof.
  intros H. revert q im. induction H as [|ev evs Hev _ IH]; intros q im; [done|].
  cbn [event_log fmap list_fmap log_views visit_all apply_events]. rewrite replay_event by done.
  unfold bind. destruct (apply_event ev im) as [im' [[]|e]]; [apply IH | done].
Qed.

Lemma surviving_events k evs :
  exists n, surviving k (event_log evs) = event_log (take n evs).
Proof.
  destruct (surviving_prefix k (event_log evs)) as [l E].
  exists (length (surviving k (event_log evs))). unfold event_log at 2.
  rewrite fmap_take. fold (event_log evs). rewrite E at 3. by rewrite take_app_length.
Qed.

(** ** Recovery *)

(** The scheduler [create] hands to [recover]. *)
Definition booted (p : SchedulingPolicy) (ds : DurableStore) : Impl :=
  (initial_impl p) <| im_store := Some ds |>.

Lemma fence_recovered_rep im evs ds :
  im_store im = Some ds -> store_rep ds (event_log evs) [] -> ds_io ds = [] ->
  match advance (im_epoch im) with
  | Err e => outcome fence_recovered im = Err e
  | Ok next =>
      blen (encode_log 1 (event_log evs)) + journal_record_bytes 25 <= kMaxJournalBytes ->
      exists ds' f, fence_recovered im =
        ((apply_epoch_advance next (im_last_tick im) (im <| im_store := Some ds' |>))
            <| im_recovery ::= f |>, Ok tt) /\
      store_rep ds' (event_log (evs ++ [EvEpoch (im_epoch im) next ReasonRecovery
                                          (im_last_tick im)])) [] /\
      ds_io ds' = []
  end.
Proof.
  intros Hs Hrep Hio. unfold fence_recovered, bind, get, lift, modify.
  destruct (advance (im_epoch im)) as [next|e] eqn:Ha; [|unfold outcome; by rewrite Ha].
  intros Hb. unfold journal. rewrite Hs. cbv beta iota zeta.
  set (rec := payload (epoch_record (im_epoch im) next ReasonRecovery (im_last_tick im))).
  assert (blen rec = 25) as Hrec.
  { unfold rec. rewrite payload_bytes; rewrite blen_ops_bytes; done. }
  assert (rec = payload (event_record (EvEpoch (im_epoch im) next ReasonRecovery
                                         (im_last_tick im))).2) as Hev by reflexivity.
  destruct (append_ok JEpochAdvanced rec ds) as [ds' Happ].
  - done.
  - by rewrite Hrec.
  - rewrite (rep_last _ _ _ Hrep). destruct (rep_wf _ _ _ Hrep). lia.
  - by rewrite (rep_valid _ _ _ Hrep), Hrec.
  - done.
  - pose proof (append_wp JEpochAdvanced rec ds _ _ Hrep) as Hwp. unfold wp in Hwp.
    pose proof (append_quiet JEpochAdvanced rec ds Hio) as Hq. cbv zeta in Hq.
    rewrite Happ in Hwp, Hq |- *. exists ds'. eexists. split_and!; [reflexivity| |done].
    unfold event_log. rewrite fmap_app. cbn [fmap list_fmap]. rewrite <- Hev. apply Hwp.
Qed.

Lemma bind_run {S A B} (m : M ErrorCode S A) (k : A -> M ErrorCode S B) s s' a :
  m s = (s', Ok a) -> bind m k s = k a s'.
Proof. intros H. unfold bind. by rewrite H. Qed.

Lemma replay_journal_run im ds ds' im' report :
  im_store im = Some ds -> replay true apply_record ds im = ((ds', im'), Ok report) ->
  replay_journal im = (im' <| im_store := Some ds' |>, Ok report).
Proof. intros Hs H. unfold replay_journal. by rewrite Hs, H. Qed.

Lemma recovery_shape f g im st :
  im <| im_store := st |> <| im_recovery ::= f |> <| im_recovery ::= g |> =
  im <| im_recovery := g (f (im_recovery im)) |> <| im_store := st |>.
Proof. by destruct im. Qed.

Lemma note_shape have report im ds :
  exists r, note_restored (note_replayed have report (im <| im_store := Some ds |>)) =
    im <| im_recovery := r |> <| im_store := Some ds |>.
Proof. eexists. unfold note_restored, note_replayed. apply recovery_shape. Qed.

Lemma bind_fail {S A B} (m : M ErrorCode S A) (k : A -> M ErrorCode S B) s s' e :
  m s = (s', Err e) -> bind m k s = (s', Err e).
Proof. intros H. unfold bind. by rewrite H. Qed.

(** What [recover] does with a store that holds some log and no snapshot. *)
Lemma recover_log p ds log torn :
  store_rep ds log torn -> ds_io ds = [] -> ds_snapshot ds = None ->
  match visit_all apply_record (log_views 1 log) (booted p ds) with
  | (_, Err e) => outcome recover (booted p ds) = Err e
  | (im1, Ok _) =>
      exists ds1 r, recover (booted p ds) =
        fence_recovered (im1 <| im_recovery := r |> <| im_store := Some ds1 |>) /\
        store_rep ds1 log [] /\ ds_io ds1 = []
  end.
Proof.
  intros Hrep Hio Hsn.
  assert (forall im, im_store im = Some ds -> im <| im_store := Some ds |> = im) as Hid.
  { intros im <-. by destruct im. }
  unfold outcome. assert (recover (booted p ds) = bind replay_journal (fun report =>
    modify (note_replayed false report) ;;; modify note_restored ;;; fence_recovered)
    (booted p ds)) as ->.
  { unfold recover. erewrite bind_run by (apply load_snapshot_fresh; done).
    by rewrite Hid. }
  destruct (visit_all apply_record _ (booted p ds)) as [im1 [[]|e]] eqn:Hvis.
  - destruct (replay_visits_log apply_record ds log torn (booted p ds) im1)
      as (ds1 & Hreplay & Hrep1 & Hio1); [done|done|done|].
    exists ds1. erewrite bind_run by (eapply replay_journal_run; done).
    erewrite bind_run by reflexivity. erewrite bind_run by reflexivity.
    edestruct note_shape as [r Hr]. rewrite Hr. by exists r.
  - destruct (replay_refused apply_record ds log torn (booted p ds) im1 e)
      as [ds1 Hreplay]; [done|done|done|].
    assert (replay_journal (booted p ds) = (im1 <| im_store := Some ds1 |>, Err e)) as Hj.
    { unfold replay_journal. change (im_store (booted p ds)) with (Some ds). cbv beta iota.
      by rewrite Hreplay. }
    by rewrite (bind_fail _ _ _ _ _ Hj).
Qed.

(** The log of well-formed events. *)
Lemma recover_events p ds evs torn :
  store_rep ds (event_log evs) torn -> ds_io ds = [] -> ds_snapshot ds = None ->
  Forall event_wf evs ->
  match apply_events evs (booted p ds) with
  | (_, Err e) => outcome recover (booted p ds) = Err e
  | (im1, Ok _) =>
      exists ds1 r, recover (booted p ds) =
        fence_recovered (im1 <| im_recovery := r |> <| im_store := Some ds1 |>) /\
        store_rep ds1 (event_log evs) [] /\ ds_io ds1 = []
  end.
Proof.
  intros Hrep Hio Hsn Hwf. rewrite <- (visit_events evs 1 (booted p ds) Hwf).
  by apply (recover_log p ds (event_log evs) torn).
Qed.

(** Opening the files a crash at byte [k] leaves. *)
Lemma open_events evs k flush :
  Forall event_wf evs -> 1 + N.of_nat (length evs) <= u64_max ->
  exists ds n torn, open (take k (encode_log 1 (event_log evs))) None flush [] = Ok ds /\
    surviving k (event_log evs) = event_log (take n evs) /\
    store_rep ds (event_log (take n evs)) torn /\ ds_io ds = [] /\ ds_snapshot ds = None.
Proof.
  intros Hwf Hn. destruct (surviving_events k evs) as [n Hk].
  pose proof (open_prefix (event_log evs) k None flush [] (event_log_wf _ Hwf Hn)) as H.
  destruct (open _ _ _ _) as [ds|e] eqn:Ho; [|by destruct H as [_ []]].
  destruct H as (torn & Hrep & _ & Hs & _). rewrite Hk in Hrep.
  exists ds, n, torn. split_and!; try done. by eapply open_io.
Qed.

Lemma encode_prefix_le evs n :
  blen (encode_log 1 (event_log (take n evs))) <= blen (encode_log 1 (event_log evs)).
Proof.
  rewrite <- (take_drop n evs) at 2. unfold event_log. rewrite fmap_app, encode_log_app, blen_app.
  lia.
Qed.

(** [create_durable] on the journal of some events, cut at any byte. *)
Lemma create_durable_events p evs k flush :
  validate_policy p = Ok tt -> Forall event_wf evs ->
  blen (encode_log 1 (event_log evs)) + journal_record_bytes 25 <= kMaxJournalBytes ->
  exists n ds, surviving k (event_log evs) = event_log (take n evs) /\
    let recovered := create_durable p (take k (encode_log 1 (event_log evs))) None flush [] in
    match apply_events (take n evs) (booted p ds) with
    | (_, Err e) => recovered = Err e
    | (im1, Ok _) =>
        match advance (im_epoch im1) with
        | Err e => recovered = Err e
        | Ok next => exists ds' r f,
            recovered = Ok ((apply_epoch_advance next (im_last_tick im1)
                               (im1 <| im_recovery := r |> <| im_store := Some ds' |>))
                              <| im_recovery ::= f |>) /\
            store_rep ds' (event_log (take n evs ++ [EvEpoch (im_epoch im1) next ReasonRecovery
                                                       (im_last_tick im1)])) [] /\
            ds_io ds' = []
        end
    end.
Proof.
  intros Hp Hwf Hb.
  assert (1 + N.of_nat (length evs) <= u64_max) as Hn.
  { pose proof (encode_log_length 1 (event_log evs)) as Hl. unfold event_log in Hl at 1.
    rewrite length_fmap in Hl.
    unfold blen, kMaxJournalBytes, journal_record_bytes, u64_max in *. lia. }
  destruct (open_events evs k flush Hwf Hn) as (ds & n & torn & Ho & Hk & Hrep & Hio & Hsn).
  exists n, ds. split; [done|]. cbv zeta. unfold create_durable. rewrite Hp, Ho.
  cbn [result_bind]. change ((initial_impl p) <| im_store := Some ds |>) with (booted p ds).
  pose proof (recover_events p ds (take n evs) torn Hrep Hio Hsn (Forall_take _ _ _ Hwf)) as H.
  destruct (apply_events (take n evs) (booted p ds)) as [im1 [[]|e]].
  2:{ unfold outcome in H. destruct (recover (booted p ds)) as [im [[]|e']]; by cbn in H; simplify_eq. }
  destruct H as (ds1 & r & -> & Hrep1 & Hio1).
  remember (im1 <| im_recovery := r |> <| im_store := Some ds1 |>) as im2.
  assert (im_epoch im2 = im_epoch im1) as He by by subst im2.
  assert (im_last_tick im2 = im_last_tick im1) as Ht by by subst im2.
  assert (forall ds', im2 <| im_store := Some ds' |> =
            im1 <| im_recovery := r |> <| im_store := Some ds' |>) as Hst by by subst im2.
  pose proof (fence_recovered_rep im2 (take n evs) ds1) as Hf. rewrite He, Ht in Hf.
  specialize (Hf ltac:(by subst im2) Hrep1 Hio1).
  destruct (advance (im_epoch im1)) as [next|e] eqn:Ha.
  - destruct Hf as (ds' & f & Hf & Hr); [pose proof (encode_prefix_le evs n); lia|].
    rewrite Hf, Hst. by exists ds', r, f.
  - unfold outcome in Hf. destruct (fence_recovered im2) as [im [[]|e']]; by cbn in Hf; simplify_eq.
Qed.

(** C12 After a crash at any byte of the journal, reopening the scheduler
    runs exactly the transitions of the events whose records were written
    completely, in order, on the fresh state, and then advances the epoch; the
    journal it leaves holds those events and the new epoch.  It fails exactly
    when one of those transitions fails or the epoch is exhausted. *)
Theorem recovery_replays (p : SchedulingPolicy) (evs : list Event) (k : nat) (flush : bool)
  (Hp : validate_policy p = Ok tt) (Hwf : Forall event_wf evs)
  (Hb : blen (encode_log 1 (event_log evs)) + journal_record_bytes 25 <= kMaxJournalBytes) :
  exists n ds, surviving k (event_log evs) = event_log (take n evs) /\
    let recovered := create_durable p (take k (encode_log 1 (event_log evs))) None flush [] in
    match apply_events (take n evs) (booted p ds) with
    | (_, Err e) => recovered = Err e
    | (im1, Ok _) =>
        match advance (im_epoch im1) with
        | Err e => recovered = Err e
        | Ok next => exists ds' r f,
            recovered = Ok ((apply_epoch_advance next (im_last_tick im1)
                               (im1 <| im_recovery := r |> <| im_store := Some ds' |>))
                              <| im_recovery ::= f |>) /\
            store_rep ds' (event_log (take n evs ++ [EvEpoch (im_epoch im1) next ReasonRecovery
                                                       (im_last_tick im1)])) [] /\
            ds_io ds' = []
        end
    end.
Proof. by apply create_durable_events. Qed.

(** A journal that registers a topology and admits a flow, cut inside its last
    record. *)
Definition admission : list Event :=
  [EvResource Demo.resource; EvReservation Demo.reservation;
   EvPriorityClass Demo.priority_class; EvQoSClass Demo.qos_class;
   EvAdmitted (Demo.flow 1); EvAdmitted (Demo.flow 3)].

Lemma admission_wf : Forall event_wf admission.
Proof.
  repeat constructor; vm_compute; discriminate.
Qed.

Lemma recovery_replays_witness :
  exists n, surviving 600 (event_log admission) = event_log (take n admission) /\
    exists im, create_durable Demo.policy (take 600 (encode_log 1 (event_log admission))) None
      true [] = Ok im /\ map_size (im_flows im) = 1.
Proof.
  destruct (recovery_replays Demo.policy admission 600 true eq_refl admission_wf) as
    (n & ds & Hn & H); [vm_compute; discriminate|].
  exists n. split; [exact Hn|]. clear Hn H. eexists. split; vm_compute; reflexivity.
Defined.
