(* ===== verification/Durability.v ===== *)
(** * Durability: committed service survives a crash

    The service ledger is what the journal promises to remember: for every
    flow its generation and the service it has been credited, and the attempts
    that may still be credited.  The running scheduler keeps the ledger of the
    events it has journaled, and replay rebuilds the ledger of the events it
    reads, so reopening a scheduler after a crash finds every flow with exactly
    the service its surviving completion records credit. *)

From S2P Require Import Prelude Checked Bytes Hash Model Schedule Codec Framing Transport Protocol.
From S2P Require Import Journal State Transitions Arbitrate Operations Recovery Fixture Invariants.
From S2P Require Import Frames Capacity Bounds System Lease Authority Completion Replay.

(** ** The ledger *)

Record Ledger := mkLedger {
  lg_flows : gmap N (Generation * N);
  lg_attempts : gset N }.

Definition ledger_step (L : Ledger) (ev : Event) : Ledger :=
  match ev with
  | EvEpoch _ _ _ _ => mkLedger (lg_flows L) ∅
  | EvAdmitted d => mkLedger (<[ fd_flow d := (fd_generation d, 0) ]> (lg_flows L)) (lg_attempts L)
  | EvUpdated d =>
      mkLedger (alter (fun '(_, served) => (fd_generation d, served)) (fd_flow d) (lg_flows L))
        (lg_attempts L)
  | EvRetired f g =>
      match lg_flows L !! f with
      | Some (g', _) => if g' =? g then mkLedger (delete f (lg_flows L)) (lg_attempts L) else L
      | None => L
      end
  | EvOpened t _ _ => mkLedger (lg_flows L) ({[ tk_attempt t ]} ∪ lg_attempts L)
  | EvCompletion e credited _ _ =>
      if bool_decide (ev_attempt e ∈ lg_attempts L)
      then mkLedger (alter (fun '(g, served) => (g, saturating_add served credited)) (ev_flow e)
                       (lg_flows L)) (lg_attempts L)
      else L
  | _ => L
  end.

Definition ledger (evs : list Event) : Ledger := foldl ledger_step (mkLedger ∅ ∅) evs.

Lemma ledger_snoc evs ev : ledger (evs ++ [ev]) = ledger_step (ledger evs) ev.
Proof. unfold ledger. by rewrite foldl_app. Qed.

(** The ledger's part of the scheduler. *)
Definition account_of (rt : FlowRuntime) : Generation * N :=
  (fd_generation (fr_descriptor rt), fr_served_work rt).
Definition account (im : Impl) : gmap N (Generation * N) := view account_of im.

#[export] Instance account_stable : Stable account_of.
Proof.
  split; intros; try reflexivity. unfold account_of, enter_lifecycle, refresh_min_service_window.
  cbv zeta. repeat case_match; reflexivity.
Qed.

(** ** What most of the scheduler leaves alone *)

(** The journal, and the identity of the next dispatch attempt. *)
Definition held (im : Impl) : option DurableStore * N := (im_store im, im_next_attempt im).

Record calm (im im' : Impl) : Prop := {
  cl_held : held im' = held im;
  cl_account : account im' = account im;
  cl_attempts : dom (im_attempts im') = dom (im_attempts im) }.

#[export] Instance calm_preorder : PreOrder calm.
Proof.
  split; [by split|]. intros im1 im2 im3 [H1 H2 H3] [K1 K2 K3]. split; congruence.
Qed.

Section Calm.
Context (im0 : Impl).

Lemma calm_other im im' :
  held im' = held im -> im_flows im' = im_flows im -> im_attempts im' = im_attempts im ->
  calm im0 im -> calm im0 im'.
Proof.
  intros H1 H2 H3 H. etrans; [exact H|]. split; [done | by apply view_flows | by rewrite H3].
Qed.

Lemma calm_after im im' : calm im im' -> calm im0 im -> calm im0 im'.
Proof. intros H1 H2. by etrans. Qed.

Lemma calm_flow id f im :
  (forall rt, account_of (f rt) = account_of rt) -> calm im0 im -> calm im0 (upd_flow id f im).
Proof. intros Hf H. etrans; [exact H|]. split; [done | by apply view_upd_flow | done]. Qed.

Lemma calm_attempt id f im : calm im0 im -> calm im0 (upd_attempt id f im).
Proof.
  intros H. etrans; [exact H|]. split; [done | by apply view_flows |].
  unfold upd_attempt. upd_simpl. apply dom_alter_L.
Qed.

Lemma calm_upd_schedule id f im : calm im0 im -> calm im0 (upd_schedule id f im).
Proof. by apply calm_other. Qed.
Lemma calm_upd_resource id f im : calm im0 im -> calm im0 (upd_resource id f im).
Proof. by apply calm_other. Qed.
Lemma calm_release_slot id im : calm im0 im -> calm im0 (release_slot id im).
Proof. by apply calm_other. Qed.

(** The plumbing of Frames.v. *)
Lemma calm_plumbing im im' :
  held im' = held im -> account im' = account im -> im_attempts im' = im_attempts im ->
  calm im0 im -> calm im0 im'.
Proof. intros H1 H2 H3 H. etrans; [exact H|]. split; [done | done | by rewrite H3]. Qed.

Lemma calm_set_lifecycle id l now im : calm im0 im -> calm im0 (set_lifecycle id l now im).
Proof.
  apply calm_plumbing; [apply (blind_set_lifecycle held) | apply (view_set_lifecycle account_of) |
    apply (blind_set_lifecycle im_attempts)].
Qed.

Lemma calm_record_step id step im : calm im0 im -> calm im0 (record_step id step im).
Proof.
  apply calm_plumbing; [apply (blind_record_step held) | apply (view_record_step account_of) |
    apply (blind_record_step im_attempts)].
Qed.

Lemma calm_transition id l now r s a d im : calm im0 im -> calm im0 (transition id l now r s a d im).
Proof. intros H. unfold transition. by apply calm_record_step, calm_set_lifecycle. Qed.

Lemma calm_normalize now im : calm im0 im -> calm im0 (normalize_transient_states now im).
Proof.
  apply calm_plumbing; [apply (blind_normalize held) | apply (view_normalize account_of) |
    apply (blind_normalize im_attempts)].
Qed.

Lemma calm_rearm f c now im : calm im0 im -> calm im0 (rearm f c now im).
Proof.
  apply calm_plumbing; [apply (blind_rearm held) | apply (view_rearm account_of) |
    apply (blind_rearm im_attempts)].
Qed.
End Calm.

Create HintDb calm.
#[export] Hint Resolve calm_set_lifecycle calm_record_step calm_transition calm_normalize
  calm_rearm calm_attempt : calm.
#[export] Hint Extern 0 (calm ?x ?x) => reflexivity : calm.
#[export] Hint Extern 2 (calm _ (if ?c then _ else _)) => destruct c : calm.

Ltac calm_step :=
  lazymatch goal with
  | |- calm ?x ?x => reflexivity
  | |- calm _ (transition _ _ _ _ _ _ _ _) => apply calm_transition
  | |- calm _ (record_step _ _ _) => apply calm_record_step
  | |- calm _ (set_lifecycle _ _ _ _) => apply calm_set_lifecycle
  | |- calm _ (normalize_transient_states _ _) => apply calm_normalize
  | |- calm _ (rearm _ _ _ _) => apply calm_rearm
  | |- calm _ (upd_flow _ _ _) => apply calm_flow; [intros; reflexivity|]
  | |- calm _ (upd_attempt _ _ _) => apply calm_attempt
  | |- calm _ (upd_schedule _ _ _) => apply calm_upd_schedule
  | |- calm _ (upd_resource _ _ _) => apply calm_upd_resource
  | |- calm _ (release_slot _ _) => apply calm_release_slot
  | |- calm _ (if ?c then _ else _) => destruct c
  | |- calm _ (match ?x with _ => _ end) => destruct x eqn:?
  | |- calm _ (@upd _ _ ?p ?u ?f ?i) =>
      let H := fresh in
      assert (forall x, calm x (@upd _ _ p u f x)) as H
        by (intros x; apply (calm_other x x); reflexivity);
      apply (calm_after _ _ _ (H i)); clear H
  | |- calm _ (foldl _ _ _) => apply foldl_inv; [|intros ? ? _ ?]
  end.
Ltac calm_solve := cbv zeta; repeat calm_step; try assumption; auto with calm.

Section CalmTransitions.
Context (im0 : Impl).

Lemma calm_closed a st d now im : calm im0 im -> calm im0 (apply_attempt_closed a st d now im).
Proof. intros H. unfold apply_attempt_closed, close_flow. calm_solve. Qed.
Lemma calm_run_entry s i now im : calm im0 im -> calm im0 (release_run_entry s i now im).
Proof. intros H. unfold release_run_entry. calm_solve. Qed.
Hint Resolve calm_closed calm_run_entry : calm.
Lemma calm_held rt now im : calm im0 im -> calm im0 (release_held_window rt now im).
Proof. intros H. unfold release_held_window. calm_solve. Qed.
Lemma calm_release_schedule s now im : calm im0 im -> calm im0 (apply_release_schedule s now im).
Proof. intros H. unfold apply_release_schedule. calm_solve. Qed.
Hint Resolve calm_held calm_release_schedule : calm.
Lemma calm_cancel f g now im : calm im0 im -> calm im0 (apply_cancel f g now im).
Proof. intros H. unfold apply_cancel. calm_solve. Qed.
Lemma calm_resolved f g r now im : calm im0 im -> calm im0 (apply_ambiguity_resolved f g r now im).
Proof. intros H. unfold apply_ambiguity_resolved. calm_solve. Qed.
Lemma calm_readiness f g s now im : calm im0 im -> calm im0 (apply_readiness f g s now im).
Proof. intros H. unfold apply_readiness. calm_solve. Qed.
Lemma calm_apply_entry s e im : calm im0 im -> calm im0 (apply_run_entry s e im).
Proof. intros H. unfold apply_run_entry. calm_solve. Qed.
Hint Resolve calm_apply_entry : calm.
Lemma calm_schedule s im : calm im0 im -> calm im0 (apply_schedule s im).
Proof. intros H. unfold apply_schedule. calm_solve. Qed.
Lemma calm_started a now im : calm im0 im -> calm im0 (apply_attempt_started a now im).
Proof. intros H. unfold apply_attempt_started. calm_solve. Qed.
Lemma calm_retire_reservation r g im : calm im0 im -> calm im0 (apply_retire_reservation r g im).
Proof. intros H. unfold apply_retire_reservation. calm_solve. Qed.
Lemma calm_count_rejected e b im : calm im0 im -> calm im0 (count_rejected e b im).
Proof. intros H. unfold count_rejected. calm_solve. Qed.
Lemma calm_abandon now d im : calm im0 im -> calm im0 (abandon_open_attempts now d im).
Proof. intros H. unfold abandon_open_attempts. calm_solve. Qed.
End CalmTransitions.
#[export] Hint Resolve calm_closed calm_run_entry calm_held calm_release_schedule calm_cancel
  calm_resolved calm_readiness calm_schedule calm_started calm_retire_reservation
  calm_count_rejected calm_abandon : calm.

(** ** The transitions the ledger records *)

(** A scheduler that holds exactly a ledger, as replay does. *)
Definition holds_ledger (L : Ledger) (im : Impl) : Prop :=
  account im = lg_flows L /\ dom (im_attempts im) = lg_attempts L.

(** A running scheduler may have forgotten attempts of retired schedules. *)
Definition keeps_ledger (L : Ledger) (im : Impl) : Prop :=
  account im = lg_flows L /\ dom (im_attempts im) ⊆ lg_attempts L.

Lemma account_admit d im :
  outcome (apply_admit d) im = Ok tt ->
  account (exec (apply_admit d) im) = <[ fd_flow d := (fd_generation d, 0) ]> (account im) /\
  im_attempts (exec (apply_admit d) im) = im_attempts im /\
  held (exec (apply_admit d) im) = held im.
Proof.
  unfold outcome, exec, apply_admit. destruct (_ && _); [done|]. cbn [fst snd]. intros _.
  split_and!; [|done|done]. unfold account, view. upd_simpl. by rewrite fmap_insert.
Qed.

Lemma account_update d im :
  outcome (apply_update d) im = Ok tt ->
  account (exec (apply_update d) im) =
    alter (fun '(_, served) => (fd_generation d, served)) (fd_flow d) (account im) /\
  im_attempts (exec (apply_update d) im) = im_attempts im /\
  held (exec (apply_update d) im) = held im.
Proof.
  unfold outcome, exec, apply_update. destruct (im_flows im !! fd_flow d); [|done].
  destruct (holds_open_work _); [done|]. cbn [fst snd]. intros _.
  split_and!; [|done|done]. by apply (view_upd_flow_alter account_of).
Qed.

Lemma account_retire f g im :
  account (apply_retire_flow f g im) = lg_flows (ledger_step (mkLedger (account im) ∅) (EvRetired f g)) /\
  im_attempts (apply_retire_flow f g im) = im_attempts im /\
  held (apply_retire_flow f g im) = held im.
Proof.
  unfold apply_retire_flow. cbn [ledger_step lg_flows].
  assert (account im !! f = account_of <$> im_flows im !! f) as -> by apply lookup_view.
  destruct (im_flows im !! f) as [rt|]; [|done].
  cbn [fmap option_fmap option_map account_of]. destruct (_ =? g); [|done]. cbn [negb].
  split_and!; [|done|done]. unfold account, view. upd_simpl. cbn [lg_flows]. apply fmap_delete.
Qed.

Lemma account_opened t n now im :
  account (apply_attempt_opened t n now im) = account im /\
  dom (im_attempts (apply_attempt_opened t n now im)) =
    {[ tk_attempt t ]} ∪ dom (im_attempts im) /\
  held (apply_attempt_opened t n now im) = held im.
Proof.
  unfold apply_attempt_opened. cbv zeta.
  match goal with |- context [im_flows ?i !! _] => set (im2 := i) end.
  assert (account im2 = account im) as Ha by by apply view_flows.
  assert (dom (im_attempts im2) = {[ tk_attempt t ]} ∪ dom (im_attempts im)) as Hd.
  { unfold im2, upd_schedule. upd_simpl. apply dom_insert_L. }
  assert (held im2 = held im) as Hs by done. clearbody im2.
  rewrite <- Ha, <- Hd, <- Hs.
  match goal with |- account ?x = _ /\ _ => assert (calm im2 x) as [] by calm_solve end. done.
Qed.

Lemma account_cleared (h : FlowRuntime -> FlowRuntime) f1 f2 f3 im :
  (forall rt, account_of (h rt) = account_of rt) ->
  account (im <| im_recovery ::= f1 |> <| im_flows ::= fmap h |> <| im_resources ::= f2 |>
              <| im_recovery ::= f3 |>) = account im.
Proof.
  intros Hh. unfold account, view. upd_simpl. rewrite <- map_fmap_compose.
  apply map_fmap_ext. intros i rt _. apply Hh.
Qed.

(** The end of [apply_epoch_advance]. *)
Lemma account_reset next im :
  let im' := (reindex_all im) <| im_schedules := ∅ |> <| im_schedule_attempts := ∅ |>
    <| im_schedule_order := [] |> <| im_attempts := ∅ |> <| im_epoch := next |>
    <| im_preemptions_in_window := 0 |> <| im_preemption_window_index := 0 |> in
  account im' = account im /\ im_attempts im' = ∅ /\ held im' = held im.
Proof.
  cbv zeta. rewrite <- (blind_reindex held im).
  assert (account im = account (reindex_all im)) as ->.
  { symmetry. apply view_flows, reindex_flows. }
  by generalize (reindex_all im) as i.
Qed.

Lemma account_epoch next now im :
  account (apply_epoch_advance next now im) = account im /\
  im_attempts (apply_epoch_advance next now im) = ∅ /\
  held (apply_epoch_advance next now im) = held im.
Proof.
  unfold apply_epoch_advance. cbv zeta.
  pose proof (calm_abandon im now "epoch advanced: prior dispatch authority retired" im
    (reflexivity im)) as [Hs Ha _].
  set (im1 := abandon_open_attempts _ _ im) in *. clearbody im1. rewrite <- Ha, <- Hs.
  match goal with |- context [reindex_all ?i] => set (im2 := i) end.
  assert (account im2 = account im1) as <- by by apply account_cleared.
  assert (held im2 = held im1) as <- by by unfold im2; upd_simpl.
  apply account_reset.
Qed.

Lemma account_completion e c l now im :
  holds_ledger (ledger_step (mkLedger (account im) (dom (im_attempts im)))
                  (EvCompletion e c l now)) (apply_completion e c l now im) /\
  held (apply_completion e c l now im) = held im.
Proof.
  unfold holds_ledger. cbn [ledger_step lg_attempts lg_flows].
  destruct (im_attempts im !! ev_attempt e) as [r|] eqn:Hr.
  2:{ rewrite bool_decide_eq_false_2 by by apply not_elem_of_dom. unfold apply_completion.
      by rewrite Hr. }
  rewrite bool_decide_eq_true_2 by (by apply elem_of_dom). cbn [lg_flows lg_attempts].
  destruct (im_flows im !! ev_flow e) as [rt|] eqn:Hrt.
  - split_and!.
    + apply (apply_completion_view e c l now im r rt Hr Hrt account_of); try done.
      intros -> [g w]. by rewrite saturating_add_0.
    + rewrite (apply_completion_attempts e c l now im r rt Hr Hrt). apply dom_alter_L.
    + by apply (apply_completion_blind e c l now im r rt Hr Hrt held).
  - rewrite alter_same.
    2:{ intros x. unfold account. by rewrite lookup_view, Hrt. }
    assert (calm im (apply_completion e c l now im)) as [].
    { unfold apply_completion. rewrite Hr. cbv zeta.
      unfold upd_schedule at 1, upd_attempt at 1. upd_simpl. rewrite Hrt. calm_solve. }
    by split_and!.
Qed.

(** ** Replay *)

Lemma holds_calm L im im' : calm im im' -> holds_ledger L im -> holds_ledger L im'.
Proof. intros [_ Ha Hd] [H1 H2]. split; congruence. Qed.

(** Replaying an event takes the ledger one step. *)
Lemma apply_event_ledger ev im im' L :
  apply_event ev im = (im', Ok tt) -> holds_ledger L im -> holds_ledger (ledger_step L ev) im'.
Proof.
  intros Hev H. assert (L = mkLedger (account im) (dom (im_attempts im))) as HL.
  { destruct L, H as [H1 H2]. cbn in H1, H2. congruence. }
  destruct ev; cbn [apply_event] in Hev; unfold modify, lift, bind in Hev;
    repeat case_match; simplify_eq/=;
    try (apply (holds_calm _ im); [|done]; unfold apply_policy, apply_resource, apply_reservation,
      apply_priority_class, apply_qos_class; calm_solve; fail).
  - destruct (account_epoch next now im) as (Ha & Hd & _). split; [done|]. rewrite Hd.
    apply dom_empty_L.
  - pose proof (account_admit d im) as Ha. unfold outcome, exec in Ha. rewrite Hev in Ha.
    destruct Ha as (Ha & Hd & _); [done|]. cbn [fst] in *. split; [done | by rewrite Hd].
  - pose proof (account_update d im) as Ha. unfold outcome, exec in Ha. rewrite Hev in Ha.
    destruct Ha as (Ha & Hd & _); [done|]. cbn [fst] in *. split; [done | by rewrite Hd].
  - destruct (account_retire f g im) as (Ha & Hd & _). split.
    + rewrite Ha. cbn [ledger_step lg_flows]. by repeat case_match.
    + rewrite Hd. cbn [ledger_step lg_flows]. by repeat case_match.
  - destruct (account_opened t nominal now im) as (Ha & Hd & _). by split.
  - apply account_completion.
Qed.

Lemma holds_booted p ds : holds_ledger (ledger []) (booted p ds).
Proof. split; [apply fmap_empty | apply dom_empty_L]. Qed.

(** *** Replaying a record

    Most records leave the ledger alone whatever values they decode to.  The
    ones that move it are the records of values that fit their types, so they
    decode to those values. *)
Definition ledger_fits (ev : Event) : Prop :=
  match ev with
  | EvAdmitted d | EvUpdated d => wf_flow d
  | EvRetired f g => u64 f /\ u64 g
  | EvOpened t _ _ => u64 (tk_attempt t)
  | EvCompletion e credited _ now => wf_evidence e /\ u64 credited /\ u64 now
  | _ => True
  end.

Lemma replay_with_ok {A} (rd : Reader A) (act : A -> Op unit) data im im' :
  replay_with rd act data im = (im', Ok tt) ->
  exists a rest, rd data = Ok (a, rest) /\ act a im = (im', Ok tt).
Proof.
  unfold replay_with, bind, lift. destruct (rd data) as [[a rest]|e]; [|done].
  destruct (act a im) as [im1 [[]|e]] eqn:E; [|done].
  destruct (require_exhausted _ rest) as [[]|e]; [|done]. intros [= <-]. by exists a, rest.
Qed.

(** What every value a reader returns satisfies. *)
Definition r_yields {A} (P : A -> Prop) (rd : Reader A) : Prop :=
  forall data a rest, rd data = Ok (a, rest) -> P a.

Lemma r_yields_bind {A B} (P : A -> Prop) (Q : B -> Prop) (rd : Reader A) (k : A -> Reader B) :
  r_yields P rd -> (forall a, P a -> r_yields Q (k a)) -> r_yields Q (r_bind rd k).
Proof.
  intros Hrd Hk data b rest. unfold r_bind. destruct (rd data) as [[a rest']|e] eqn:E; [|done].
  apply Hk. by eapply Hrd.
Qed.

Lemma r_yields_any {A} (rd : Reader A) : r_yields (fun _ => True) rd.
Proof. done. Qed.

Lemma r_yields_ret {A} (P : A -> Prop) a : P a -> r_yields P (r_ret a).
Proof. intros H data a' rest. by intros [= <- _]. Qed.

Lemma r_yields_fail_if {A} (P : A -> Prop) (b : bool) e (rd : Reader A) :
  r_yields P rd -> r_yields P (r_fail_if b with e ;; rd).
Proof. intros H. by destruct b. Qed.

(** The attempt of a ticket is its first field. *)
Lemma read_ticket_attempt a rest tk rest' :
  u64 a -> read_ticket (encode_u64_le a ++ rest) = Ok (tk, rest') -> tk_attempt tk = a.
Proof.
  intros Ha. unfold read_ticket. rewrite r_u64_op by done. cbv beta. revert rest tk rest'.
  match goal with |- forall rest tk rest', ?rd rest = _ -> _ =>
    change (r_yields (fun tk => tk_attempt tk = a) rd) end.
  repeat (eapply r_yields_bind; [apply r_yields_any|]; intros ? _).
  cbv zeta. do 3 apply r_yields_fail_if. by apply r_yields_ret.
Qed.

Lemma read_opened_attempt t ops data tk nominal now rest :
  u64 (tk_attempt t) -> data = ops_bytes (write_ticket t ++ ops) ->
  read_opened_record data = Ok ((tk, nominal, now), rest) -> tk_attempt tk = tk_attempt t.
Proof.
  intros Ht -> H. unfold read_opened_record, r_bind at 1 in H. unfold write_ticket in H.
  cbn [app] in H. rewrite ops_bytes_cons in H. cbn [op_bytes] in H.
  destruct (read_ticket _) as [[tk' rest']|e] eqn:E; [|done].
  apply read_ticket_attempt in E; [|done]. unfold r_bind, r_ret in H.
  destruct (r_u64 rest') as [[n r1]|]; [|done]. destruct (r_u64 r1) as [[m r2]|]; [|done].
  by injection H as <- _ _ _.
Qed.

Lemma ops_size_app l l' : ops_size (l ++ l') = ops_size l + ops_size l'.
Proof. rewrite <- !blen_ops_bytes, ops_bytes_app. apply blen_app. Qed.

Lemma ops_size_u64s (l : list N) : ops_size (WU64 <$> l) = 8 * N.of_nat (length l).
Proof.
  induction l as [|x l IH]; [done|]. rewrite fmap_cons. unfold ops_size in *. cbn [foldr length].
  rewrite IH. cbn [op_size]. lia.
Qed.

Lemma flow_record_size d : wf_flow d -> ops_size (write_flow_descriptor d) <= kMaxJournalRecordPayload.
Proof.
  intros (_ & _ & _ & _ & Hn & _). unfold write_flow_descriptor.
  rewrite !ops_size_app, ops_size_u64s. unfold kMaxDependenciesPerFlow in Hn.
  unfold kMaxJournalRecordPayload, write_binding, write_provenance, ops_size.
  cbn [foldr op_size]. lia.
Qed.

(** An operation whose record the codec carries runs its own transition. *)
Lemma replay_event_ledger ev q im im' L :
  event_wf ev ->
  apply_record (mkJournalRecordView (record_type_value (event_record ev).1) q
                  (payload (event_record ev).2)) im = (im', Ok tt) ->
  holds_ledger L im -> holds_ledger (ledger_step L ev) im'.
Proof. intros Hwf. rewrite replay_event by done. apply apply_event_ledger. Qed.

(** The records that move the flow table. *)
Definition moves_flows (ev : Event) : bool :=
  match ev with
  | EvAdmitted _ | EvUpdated _ | EvRetired _ _ | EvCompletion _ _ _ _ => true
  | _ => false
  end.

Lemma ledger_fits_wf ev : moves_flows ev = true -> ledger_fits ev -> event_wf ev.
Proof.
  destruct ev; cbn [moves_flows ledger_fits]; intros Hm Hf; try discriminate Hm; (split; [|exact Hf]);
    cbn [event_record snd].
  - by apply flow_record_size.
  - by apply flow_record_size.
  - by vm_compute.
  - by vm_compute.
Qed.

Lemma replay_record_ledger ev q im im' L :
  ledger_fits ev ->
  apply_record (mkJournalRecordView (record_type_value (event_record ev).1) q
                  (payload (event_record ev).2)) im = (im', Ok tt) ->
  holds_ledger L im -> holds_ledger (ledger_step L ev) im'.
Proof.
  intros Hf Hr HL. destruct (moves_flows ev) eqn:Hm.
  { revert Hr HL. apply replay_event_ledger. by apply ledger_fits_wf. }
  unfold apply_record in Hr. cbn [jv_payload jv_type] in Hr. rewrite record_type_roundtrip in Hr.
  destruct ev; try discriminate Hm; cbn [event_record fst snd] in Hr;
    apply replay_with_ok in Hr as (v & rest & Hx & Ha);
    lazymatch goal with
    | |- holds_ledger (ledger_step _ (EvOpened _ _ _)) _ =>
        rewrite kDefaultLimit_record in Hx by (by vm_compute);
        destruct v as [[tk n] opened];
        eapply read_opened_attempt in Hx; [|exact Hf|reflexivity]
    | _ => clear Hx
    end; unfold modify, lift, bind in Ha; repeat case_match; simplify_eq/=;
    try (apply (holds_calm _ im); [|done]; unfold apply_policy, apply_resource, apply_reservation,
      apply_priority_class, apply_qos_class; calm_solve; fail); destruct HL as [HL1 HL2].
  - destruct (account_epoch v.1 v.2 im) as (Ha & Hd & _). split; [by rewrite Ha|]. rewrite Hd.
    apply dom_empty_L.
  - destruct (account_opened tk n opened im) as (Ha & Hd & _).
    split; cbn [lg_flows lg_attempts]; [by rewrite Ha | by rewrite Hd, Hx, HL2].
Qed.

Lemma visit_log_ledger evs q im im' L :
  Forall ledger_fits evs ->
  visit_all apply_record (log_views q (event_log evs)) im = (im', Ok tt) -> holds_ledger L im ->
  holds_ledger (foldl ledger_step L evs) im'.
Proof.
  intros Hf. revert q im L. induction Hf as [|ev evs Hev _ IH]; intros q im L.
  - by intros [= <-].
  - cbn [event_log fmap list_fmap log_views visit_all foldl]. intros Hv HL.
    destruct (apply_record _ im) as [im1 [[]|e]] eqn:E; [|done].
    eapply IH; [exact Hv|]. by eapply replay_record_ledger.
Qed.

(** ** The running scheduler *)

(** The store holds exactly the records of the events, and works. *)
Record journaled (evs : list Event) (im : Impl) : Prop := {
  jn_store : exists ds, im_store im = Some ds /\ store_rep ds (event_log evs) [] /\ ds_io ds = [];
  jn_fits : Forall ledger_fits evs;
  jn_next : u64 (im_next_attempt im) }.

Record recorded (evs : list Event) (im : Impl) : Prop := {
  rc_journal : journaled evs im;
  rc_ledger : keeps_ledger (ledger evs) im }.

Definition durable (im : Impl) : Prop := exists evs, recorded evs im.

Lemma keeps_calm L im im' : calm im im' -> keeps_ledger L im -> keeps_ledger L im'.
Proof. intros [_ Ha Hd] [H1 H2]. split; [congruence | by rewrite Hd]. Qed.

Lemma journaled_held evs im im' : held im' = held im -> journaled evs im -> journaled evs im'.
Proof. intros [= Hs Hn] [H1 H2 H3]. split; [by rewrite Hs | done | by rewrite Hn]. Qed.

Lemma recorded_calm evs im im' : calm im im' -> recorded evs im -> recorded evs im'.
Proof.
  intros Hc [Hj Hk]. split; [|by eapply keeps_calm]. eapply journaled_held; [apply Hc | done].
Qed.

Lemma durable_calm im im' : calm im im' -> durable im -> durable im'.
Proof. intros Hc [evs H]. exists evs. by eapply recorded_calm. Qed.

(** Appending the record of an event: refused without a trace, or journaled. *)
Lemma wp_journal_event evs ev (Q : unit -> Impl -> Prop) X im :
  ledger_fits ev -> journaled evs im ->
  (forall st, journaled (evs ++ [ev]) (im <| im_store := st |>) -> Q tt (im <| im_store := st |>)) ->
  (forall e, X e im) -> wp (journal (event_record ev).1 (event_record ev).2) Q X im.
Proof.
  intros Hev [(ds & Hs & Hrep & Hio) Hfits Hnext] HQ HX. unfold wp, journal. rewrite Hs.
  pose proof (append_quiet (event_record ev).1 (payload (event_record ev).2) ds Hio) as Hq.
  pose proof (append_wp (event_record ev).1 (payload (event_record ev).2) ds _ _ Hrep) as Hw.
  unfold wp in Hw. cbv zeta in Hq. destruct (append _ _ ds) as [ds' [[]|e]].
  - apply HQ. split; [|by apply Forall_app; split; [|apply Forall_singleton]|exact Hnext].
    exists ds'. split_and!; [done| |done]. unfold event_log. rewrite fmap_app. apply Hw.
  - destruct Hq as [-> _]. replace (im <| im_store := Some ds |>) with im; [apply HX|].
    clear -Hs. destruct im. cbn in *. by rewrite Hs.
Qed.

(** Events that leave the ledger alone. *)
Class Neutral (ev : Event) : Prop := {
  neutral : forall L, ledger_step L ev = L;
  neutral_fits : ledger_fits ev }.
#[export] Hint Extern 1 (Neutral _) => (split; [intros ?; reflexivity | exact I]) : typeclass_instances.

Lemma durable_journal ev : Neutral ev ->
  preserves durable (journal (event_record ev).1 (event_record ev).2).
Proof.
  intros Hn im [evs [Hj Hk]]. apply wp_exec. apply (wp_journal_event evs); [apply Hn|done| |].
  - intros st Hj'. exists (evs ++ [ev]). split; [done|]. by rewrite ledger_snoc, neutral.
  - intros _. by exists evs.
Qed.

(** Dropping attempts of retired schedules. *)
Lemma durable_fewer im im' :
  held im' = held im -> account im' = account im ->
  dom (im_attempts im') ⊆ dom (im_attempts im) -> durable im -> durable im'.
Proof.
  intros H1 H2 H3 [evs [Hj [Ha Hd]]]. exists evs.
  split; [by eapply journaled_held | split; [congruence | set_solver]].
Qed.

Lemma foldl_delete_dom (l : list N) (m : gmap N AttemptRuntime) :
  dom (foldl (fun m a => delete a m) m l) ⊆ dom m.
Proof.
  revert m. induction l as [|a l IH]; intros m; [done|]. cbn [foldl].
  etrans; [apply IH|]. rewrite dom_delete_L. set_solver.
Qed.

(** What a predicate needs for the operations that leave the ledger alone to
    preserve it. *)
Section Undisturbed.
Context (P : Impl -> Prop)
  (Pfewer : forall im im', held im' = held im -> account im' = account im ->
     dom (im_attempts im') ⊆ dom (im_attempts im) -> P im -> P im')
  (Pjournal : forall ev, Neutral ev ->
     preserves P (journal (event_record ev).1 (event_record ev).2)).

Lemma undisturbed_calm im im' : calm im im' -> P im -> P im'.
Proof. intros [H1 H2 H3]. apply Pfewer; [done | done | by rewrite H3]. Qed.

Lemma undisturbed_close_attempt a st d now : preserves P (close_attempt a st d now).
Proof.
  unfold close_attempt. apply preserves_bind.
  - by apply (Pjournal (EvClosed a st now (bounded_detail d))).
  - intros _. apply preserves_modify. intros im. apply undisturbed_calm. calm_solve.
Qed.

Lemma undisturbed_retire_loop order im : P im -> P (retire_loop order im).
Proof.
  revert im. induction order as [|id order IH]; intros im H; [done|]. cbn [retire_loop].
  case_match; [done|]. destruct (find_schedule im id) as [r|].
  2:{ apply IH. eapply undisturbed_calm; [|exact H]. calm_solve. }
  case_match; [done|]. apply IH.
  destruct (im_schedule_attempts im !! id) as [l|].
  - eapply Pfewer; [..|exact H]; [done | by apply view_flows |]. upd_simpl.
    apply foldl_delete_dom.
  - eapply undisturbed_calm; [|exact H]. calm_solve.
Qed.

(** ** Arbitration *)

Lemma undisturbed_handle_miss id now im o : P im -> P (handle_deadline_miss id now im o).1.
Proof.
  unfold handle_deadline_miss, count_deadline_miss. intros H.
  repeat case_match; try done; cbn [fst]; eapply undisturbed_calm; try exact H; calm_solve.
Qed.

Lemma undisturbed_not_ready id rt reason now im o :
  P im -> P (not_ready id rt reason now im o).1.
Proof.
  intros H. unfold not_ready, fail_dependent. destruct reason; try done.
  - by apply undisturbed_handle_miss.
  - cbn [fst]. eapply undisturbed_calm; [|exact H]. calm_solve.
Qed.

Lemma undisturbed_refresh now im o : P im -> P (refresh_lifecycles now im o).1.
Proof.
  intros H. unfold refresh_lifecycles.
  destruct (foldl (refresh_waiting now) (im, o) _) as [im1 o1] eqn:E1.
  assert (P im1) as H1.
  { change (P (im1, o1).1). rewrite <- E1.
    apply (foldl_inv (fun st => P st.1)); [done|]. intros [im2 o2] id _ H2.
    unfold refresh_waiting. repeat case_match; try done; cbn [fst];
      first [by apply undisturbed_not_ready | apply (undisturbed_calm im2); [calm_solve | done]]. }
  apply (foldl_inv (fun st => P st.1)); [done|]. intros [im2 o2] id _ H2.
  unfold refresh_inflight, count_deadline_miss. repeat case_match; try done; cbn [fst].
  apply (undisturbed_calm im2); [calm_solve | done].
Qed.

Lemma undisturbed_reclaim now im o : P im -> P (reclaim_expired_deliveries now im o).1.
Proof.
  unfold reclaim_expired_deliveries. generalize (im_schedule_order im) as order.
  intros order. revert im o. induction order as [|id order IH]; intros im o H; [done|].
  cbn [reclaim_loop]. repeat case_match; try done; try (by apply IH); cbn [fst];
    match goal with J : journal _ _ _ = (?i, _) |- _ =>
      assert (P i) by (pose proof (Pjournal (EvReleased id now) _ im H) as Hj;
        unfold exec in Hj; cbn [event_record fst snd] in Hj; by rewrite J in Hj) end.
  - apply IH. eapply undisturbed_calm; [|done]. calm_solve.
  - done.
Qed.

Lemma undisturbed_rank now im : P im -> P (rank_candidates now im).1.
Proof.
  intros H. unfold rank_candidates. destruct (foldl _ _ _) as [im1 cs] eqn:Ef.
  change (P (im1, cs).1). rewrite <- Ef.
  apply (foldl_inv (fun st => P st.1)); [done|]. intros [im2 cs2] id _ H2.
  unfold consider. repeat case_match; try done. cbn [fst].
  apply (undisturbed_calm im2); [calm_solve | done].
Qed.

(** A calm state change inside a method. *)
Local Ltac settle :=
  lazymatch goal with
  | H : P ?i |- P _ => apply (undisturbed_calm i); [calm_solve | exact H]
  end.

Lemma undisturbed_issue entries now o : preserves P (issue_schedule entries now o).
Proof.
  unfold issue_schedule.
  repeat preserve_step; try settle.
  match goal with |- preserves _ (journal _ (write_schedule ?s)) =>
    by apply (Pjournal (EvSchedule s)) end.
Qed.

Lemma undisturbed_arbitrate now : preserves P (arbitrate now).
Proof.
  intros im. apply (arbitrate_PQ P P now).
  - intros. apply undisturbed_close_attempt.
  - intros. settle.
  - intros. settle.
  - intros. settle.
  - intros. by apply undisturbed_not_ready.
  - intros. settle.
  - intros. by apply undisturbed_reclaim.
  - intros. by apply undisturbed_refresh.
  - intros. by apply undisturbed_rank.
  - intros. unfold roll_preemption_window. settle.
  - done.
  - intros. by apply undisturbed_issue.
  - intros. settle.
  - intros. by apply undisturbed_retire_loop.
Qed.

End Undisturbed.

Lemma durable_close_attempt a st d now : preserves durable (close_attempt a st d now).
Proof. apply undisturbed_close_attempt; [apply durable_fewer | apply durable_journal]. Qed.

Lemma durable_arbitrate now : preserves durable (arbitrate now).
Proof. apply undisturbed_arbitrate; [apply durable_fewer | apply durable_journal]. Qed.

Ltac durable_calm_solve :=
  lazymatch goal with
  | H : durable ?i |- durable _ => apply (durable_calm i); [calm_solve | exact H]
  end.

(** ** Operations that move the ledger *)

Lemma durable_next next im :
  u64 next -> durable im -> durable (im <| im_next_attempt := next |>).
Proof.
  intros Hn [evs [[H1 H2 _] [H3 H4]]]. exists evs. split; [by split|]. by split.
Qed.

Lemma journaled_grows evs ev im im' :
  journaled evs im -> journaled (evs ++ [ev]) im' -> im_store im' <> im_store im.
Proof.
  intros [(ds & Hs & Hr & _) _ _] [(ds' & Hs' & Hr' & _) _ _] H.
  rewrite Hs, Hs' in H. injection H as ->.
  pose proof (rep_last _ _ _ Hr) as H1. pose proof (rep_last _ _ _ Hr') as H2.
  rewrite H1 in H2. unfold event_log in H2. rewrite !length_fmap, length_app in H2.
  cbn [length] in H2. lia.
Qed.

(** A transition that was journaled before it was applied. *)
Lemma durable_step evs ev im' :
  journaled (evs ++ [ev]) im' -> keeps_ledger (ledger_step (ledger evs) ev) im' -> durable im'.
Proof. intros Hj Hk. exists (evs ++ [ev]). split; [done|]. by rewrite ledger_snoc. Qed.

(** The values of a descriptor fit their types. *)
Definition flow_fits (d : FlowDescriptor) : Prop :=
  Forall wf_binding [fd_path d; fd_resource d; fd_reservation d; fd_priority d; fd_qos d]
  /\ Forall u64 [fd_flow d; fd_generation d; fd_fairness_group d; fd_estimated_work d;
                 fd_service_quantum d; fd_min_service d; fd_min_service_window d;
                 fd_release_tick d; fd_deadline_tick d; fd_weight d; fd_trace d]
  /\ Forall u64 (fd_dependencies d) /\ wf_provenance (fd_provenance d).

Lemma validated_flow_wf d u : validate_flow d = Ok u -> flow_fits d -> wf_flow d.
Proof.
  unfold validate_flow, guard_err. intros H (Hb & Hu & Hd & Hp).
  repeat match type of H with (if ?c then _ else _) = _ => destruct c eqn:?; [discriminate H|] end.
  split_and!; try done; by apply N.ltb_ge.
Qed.

Lemma durable_admit d im :
  flow_fits d -> durable im ->
  wp (admit_flow d) (fun _ => durable)
    (fun _ im' => durable im' \/ im_store im' <> im_store im) im.
Proof.
  intros Hd H. pose proof H as (evs & Hj & Hk). unfold admit_flow.
  do 2 wp_step. destruct (validate_flow d) as [u|] eqn:Hv; [|by left]. do 4 wp_step.
  destruct (check_bindings im d); [|by left]. wp_step.
  apply (wp_journal_event evs (EvAdmitted d)); [by eapply validated_flow_wf|done| |by left].
  intros st Hj'. clear Hd. pose proof (account_admit d (im <| im_store := st |>)) as Ha. unfold wp, outcome, exec in *.
  destruct (apply_admit d (im <| im_store := st |>)) as [im' [[]|e]] eqn:E; cbn [fst snd] in *.
  - destruct Ha as (Ha & Hd & Hs); [done|].
    eapply (durable_step evs (EvAdmitted d)); [by eapply journaled_held|].
    destruct Hk as [Hk1 Hk2]. split; [by rewrite Ha; cbn; f_equal | by rewrite Hd].
  - right. unfold apply_admit in E. destruct (_ && _); [|done]. injection E as <- _.
    by eapply journaled_grows.
Qed.

Lemma durable_update d im :
  flow_fits d -> durable im ->
  wp (update_flow d) (fun _ => durable)
    (fun _ im' => durable im' \/ im_store im' <> im_store im) im.
Proof.
  intros Hd H. pose proof H as (evs & Hj & Hk). unfold update_flow.
  do 2 wp_step. destruct (validate_flow d) as [u|] eqn:Hv; [|by left]. do 2 wp_step.
  destruct (im_flows im !! fd_flow d) as [rt|]; [|by left]. do 2 wp_step.
  destruct (advance _); [|by left]. do 2 wp_step. destruct (negb _); [by left|].
  do 2 wp_step. destruct (_ && _); [by left|]. do 2 wp_step.
  destruct (check_resource _ _ _); [|by left]. wp_step.
  apply (wp_journal_event evs (EvUpdated d)); [by eapply validated_flow_wf|done| |by left].
  intros st Hj'. clear Hd. wp_step.
  pose proof (account_update d (im <| im_store := st |>)) as Ha. unfold wp at 1.
  unfold outcome, exec in Ha.
  destruct (apply_update d (im <| im_store := st |>)) as [im' [[]|e]] eqn:E; cbn [fst snd] in *.
  - destruct Ha as (Ha & Hd & Hs); [done|].
    assert (durable im') as H'.
    { eapply (durable_step evs (EvUpdated d)); [by eapply journaled_held|].
      destruct Hk as [Hk1 Hk2]. split; [by rewrite Ha; cbn; f_equal | by rewrite Hd]. }
    do 2 wp_step. case_match; [|by wp_step]. case_match; wp_step; [|done].
    durable_calm_solve.
  - right. unfold apply_update in E. repeat case_match; try done; injection E as <- _;
      by eapply journaled_grows.
Qed.

Lemma durable_retire_flow f g : u64 f -> u64 g -> preserves durable (retire_flow f g).
Proof.
  intros Hf Hg im H. pose proof H as (evs & Hj & Hk). apply wp_exec. unfold retire_flow.
  wp_step. apply wp_require_flow; [intros rt _|by intros]. do 2 wp_step.
  destruct (negb _); [done|]. wp_step.
  apply (wp_journal_event evs (EvRetired f g)); [done|done| |done]. intros st Hj'. wp_step.
  destruct (account_retire f g (im <| im_store := st |>)) as (Ha & Hd & Hs).
  eapply (durable_step evs (EvRetired f g)); [by eapply journaled_held|].
  destruct Hk as [Hk1 Hk2]. unfold keeps_ledger. rewrite Ha, Hd.
  replace (account (im <| im_store := st |>)) with (lg_flows (ledger evs)) by (by rewrite <- Hk1).
  cbn [ledger_step lg_flows]. by repeat case_match.
Qed.

Lemma durable_observe now im (H : durable im) : durable (exec (observe_tick now) im).
Proof. unfold observe_tick, exec, modify. cbn [fst]. durable_calm_solve. Qed.

Lemma durable_begin_dispatch s g o w b now : preserves durable (begin_dispatch s g o w b now).
Proof.
  intros im0 H0. unfold begin_dispatch. apply wp_exec. wp_step.
  unfold observe_tick. wp_step. match goal with |- wp _ _ _ ?i => set (im := i) end.
  assert (durable im) as H by (unfold im; durable_calm_solve). clearbody im.
  pose proof H as (evs & Hj & Hk). do 4 wp_step.
  destruct (dispatchable _ _ _ _ _ _) as [[e rt]|err]; [|done]. do 2 wp_step.
  destruct (validate_ticket_fields _ _ _); [|done]. cbv zeta. wp_step.
  set (t := make_ticket _ _ _ _ _ _ _).
  apply (wp_journal_event evs (EvOpened t (monus (fd_estimated_work (fr_descriptor rt))
    (fr_served_work rt)) now)); [exact (jn_next _ _ Hj)|done| |done]. intros st Hj'. do 2 wp_step.
  destruct (account_opened t (tk_quantum t) now (im <| im_store := st |>)) as (Ha & Hd & Hs).
  set (im1 := apply_attempt_opened _ _ _ _) in *.
  assert (durable im1) as H1.
  { eapply (durable_step evs); [by eapply journaled_held|]. destruct Hk as [Hk1 Hk2].
    split; cbn [ledger_step lg_flows lg_attempts]; [by rewrite Ha|]. rewrite Hd. set_solver. }
  clearbody im1. do 4 wp_step. destruct (advance _) as [next|] eqn:Hn; [|durable_calm_solve].
  rewrite advance_spec in Hn by exact (jn_next _ _ Hj). destruct (N.ltb_spec (im_next_attempt im) u64_max) as [Hlt|];
    [|done]. injection Hn as <-. do 3 wp_step.
  apply durable_next; [unfold u64; lia|]. durable_calm_solve.
Qed.

Lemma judge_accept_attempt im e now a :
  judge_completion im e now = Accept a -> im_attempts im !! ev_attempt e = Some a.
Proof.
  unfold judge_completion. repeat case_match; try done. unfold judge_attempt.
  repeat case_match; try done. by intros [= ->].
Qed.

Lemma durable_commit e now im a :
  wf_evidence e -> u64 now -> durable im -> im_attempts im !! ev_attempt e = Some a ->
  durable (exec (commit_completion e now) im).
Proof.
  intros He Hnow H Hat. pose proof H as (evs & Hj & Hk). unfold commit_completion. apply wp_exec.
  do 2 wp_step. destruct (im_flows im !! ev_flow e) as [rt|] eqn:Hrt; [|done]. cbv zeta. wp_step.
  set (l := lifecycle_after_completion rt e).
  apply (wp_journal_event evs (EvCompletion e (credit_of e) l now)).
  { split_and!; [done| |done]. unfold credit_of, wf_evidence in *. wf_destruct.
    destruct (bool_decide _); [done|]. by vm_compute. }
  { done. }
  2:{ done. }
  intros st Hj'. do 2 wp_step.
  destruct (account_completion e (credit_of e) l now (im <| im_store := st |>)) as [[Ha Hd] Hs].
  set (im1 := apply_completion _ _ _ _ _) in *.
  assert (durable im1) as H1.
  { eapply (durable_step evs); [by eapply journaled_held|]. destruct Hk as [Hk1 Hk2].
    assert (ev_attempt e ∈ dom (im_attempts im)) as Hin by by apply elem_of_dom.
    unfold keeps_ledger. rewrite Ha, Hd. cbn [ledger_step lg_attempts lg_flows].
    rewrite bool_decide_eq_true_2 by exact Hin.
    rewrite bool_decide_eq_true_2 by set_solver. cbn [lg_attempts lg_flows].
    split; [|exact Hk2]. by rewrite <- Hk1. }
  clearbody im1. wp_step. destruct (bool_decide _); repeat wp_step; durable_calm_solve.
Qed.

(** The values of a report fit their types. *)
Definition evidence_fits (e : CompletionEvidence) : Prop :=
  Forall u64 [ev_schedule e; ev_schedule_generation e; ev_attempt e; ev_epoch e; ev_flow e;
              ev_flow_generation e; ev_worker e; ev_boot e; ev_served e; ev_effect_digest e;
              ev_observed_tick e]
  /\ u32 (ev_effect_code e) /\ wf_provenance (ev_provenance e).

Lemma judge_accept_wf im e now a :
  judge_completion im e now = Accept a -> evidence_fits e -> wf_evidence e.
Proof.
  unfold judge_completion. intros H (Hu & He & Hp). destruct (negb (established _)); [done|].
  destruct (evidence_bound e) eqn:Hb; [|done]. cbn [negb] in H.
  destruct (N.ltb_spec kMaxServiceUnits (ev_served e)); [done|]. by split_and!.
Qed.

Lemma durable_complete e now :
  evidence_fits e -> u64 now -> preserves durable (complete e now).
Proof.
  intros He Hnow im0 H0. unfold complete. apply wp_exec. wp_step. unfold observe_tick. do 3 wp_step.
  match goal with |- wp _ _ _ ?i => set (im := i) end.
  assert (durable im) as H by (unfold im; durable_calm_solve). clearbody im. do 2 wp_step.
  destruct (judge_completion im e now) as [code on|a|a] eqn:Hj.
  - do 3 wp_step. durable_calm_solve.
  - do 5 wp_step. durable_calm_solve.
  - apply wp_exec. eapply durable_commit; [by eapply judge_accept_wf|done|done|].
    by eapply judge_accept_attempt.
Qed.

Lemma durable_advance_epoch r now : preserves durable (advance_epoch r now).
Proof.
  intros im0 H0. unfold advance_epoch. apply wp_exec. wp_step. unfold observe_tick. wp_step.
  match goal with |- wp _ _ _ ?i => set (im := i) end.
  assert (durable im) as H by (unfold im; durable_calm_solve). clearbody im.
  pose proof H as (evs & Hj & Hk). do 2 wp_step. cbv zeta. do 2 wp_step.
  destruct (advance _) as [next|]; [|done]. wp_step.
  apply (wp_journal_event evs (EvEpoch (im_epoch im) next r now)); [done|done| |done].
  intros st Hj'. do 3 wp_step.
  destruct (account_epoch next now (im <| im_store := st |>)) as (Ha & Hd & Hs).
  eapply (durable_step evs); [by eapply journaled_held|]. destruct Hk as [Hk1 Hk2].
  split; cbn [ledger_step lg_flows lg_attempts]; [by rewrite Ha|]. rewrite Hd, dom_empty_L. done.
Qed.

(** The calls after which the ledger of the journal is the scheduler's: every
    call but [checkpoint], except an admission or an update that fails after it
    was journaled. *)
Definition clean (c : Call) (im : Impl) : Prop :=
  match c with
  | CAdmitFlow d => outcome (admit_flow d) im = Ok tt \/ im_store (run c im) = im_store im
  | CUpdateFlow d => outcome (update_flow d) im = Ok tt \/ im_store (run c im) = im_store im
  | CCheckpoint => False
  | _ => True
  end.

(** The arguments fit their C++ types, where the ledger depends on them. *)
Definition call_fits (c : Call) : Prop :=
  match c with
  | CAdmitFlow d | CUpdateFlow d => flow_fits d
  | CRetireFlow f g => u64 f /\ u64 g
  | CComplete e now => evidence_fits e /\ u64 now
  | _ => True
  end.

Lemma wp_clean {A} (m : Op A) im :
  wp m (fun _ => durable) (fun _ im' => durable im' \/ im_store im' <> im_store im) im ->
  (exists a, outcome m im = Ok a) \/ im_store (exec m im) = im_store im -> durable (exec m im).
Proof.
  unfold wp, outcome, exec. destruct (m im) as [im' [a|e]]; cbn [fst snd]; [done|].
  intros [H|H] [[a Ha]|Hs]; done.
Qed.

Ltac durable_event :=
  lazymatch goal with
  | |- preserves _ (journal JResourceRegistered (write_resource ?d)) =>
      by apply (durable_journal (EvResource d))
  | |- preserves _ (journal JReservationRegistered (write_reservation ?d)) =>
      by apply (durable_journal (EvReservation d))
  | |- preserves _ (journal JReservationRetired [WU64 ?r; WU64 ?g]) =>
      by apply (durable_journal (EvReservationRetired r g))
  | |- preserves _ (journal JPriorityClassRegistered (write_priority_class ?d)) =>
      by apply (durable_journal (EvPriorityClass d))
  | |- preserves _ (journal JQoSClassRegistered (write_qos_class ?d)) =>
      by apply (durable_journal (EvQoSClass d))
  | |- preserves _ (journal JFlowCancelled [WU64 ?f; WU64 ?g; WU64 ?now; WText ?r]) =>
      by apply (durable_journal (EvCancelled f g now r))
  | |- preserves _ (journal JFlowReadinessChanged [WU64 ?f; WU64 ?g; WU8 (signal_value ?s); WU64 ?now]) =>
      by apply (durable_journal (EvReadiness f g s now))
  | |- preserves _ (journal JAmbiguityResolved [WU64 ?f; WU64 ?g; WU8 (resolution_value ?r); WU64 ?now]) =>
      by apply (durable_journal (EvResolved f g r now))
  | |- preserves _ (journal JPolicyInstalled (write_policy ?p)) =>
      by apply (durable_journal (EvPolicy p))
  | |- preserves _ (journal JScheduleReleased [WU64 ?s; WU64 ?now]) =>
      by apply (durable_journal (EvReleased s now))
  | |- preserves _ (journal JAttemptStarted [WU64 ?a; WU64 ?now]) =>
      by apply (durable_journal (EvStarted a now))
  end.

Ltac durable_method :=
  unfold observe_tick, require_flow; repeat preserve_step;
  try first [durable_event | apply durable_close_attempt | durable_calm_solve].

Lemma durable_run c im : durable im -> call_fits c -> clean c im -> durable (run c im).
Proof.
  intros H Hf Hc. destruct c; cbn [run clean call_fits] in *;
    try (match type of Hc with True => idtac end; clear Hc; revert im H;
         lazymatch goal with |- forall im, _ -> _ (exec ?m im) => change (preserves durable m) end).
  - unfold register_resource, apply_resource. durable_method.
  - unfold register_reservation, apply_reservation. durable_method.
  - unfold retire_reservation. durable_method.
  - unfold register_priority_class, apply_priority_class. durable_method.
  - unfold register_qos_class, apply_qos_class. durable_method.
  - apply wp_clean; [by apply durable_admit|]. destruct Hc; [left; by exists tt | by right].
  - apply wp_clean; [by apply durable_update|]. destruct Hc; [left; by exists tt | by right].
  - unfold cancel_flow. durable_method.
  - unfold notify_readiness. durable_method.
  - unfold resolve_ambiguous. durable_method.
  - by apply durable_retire_flow; destruct Hf.
  - unfold install_policy, apply_policy. durable_method.
  - apply durable_advance_epoch.
  - apply durable_arbitrate.
  - unfold release_schedule. durable_method.
  - apply durable_begin_dispatch.
  - unfold mark_started. durable_method.
  - unfold abandon_attempt. durable_method.
  - unfold preempt_attempt. durable_method.
  - by apply durable_complete; destruct Hf.
  - done.
Qed.

(** ** Sessions *)

(** What clean calls make of a scheduler opened on empty files. *)
Inductive session (p : SchedulingPolicy) (flush : bool) : Impl -> Prop :=
| session_open im : create_durable p [] None flush [] = Ok im -> session p flush im
| session_call c im :
    session p flush im -> call_fits c -> clean c im -> session p flush (run c im).

Lemma session_durable p flush im : session p flush im -> durable im.
Proof.
  induction 1 as [im Hc|c im _ IH Hf Hc]; [|by apply durable_run].
  assert (validate_policy p = Ok tt) as Hp.
  { unfold create_durable in Hc. by destruct (validate_policy p) as [[]|]. }
  destruct (create_durable_events p [] 0 flush Hp) as (n & ds & _ & H); [done|done|].
  cbv zeta in H. rewrite take_nil in H. cbn [apply_events] in H. unfold ret in H.
  change (take 0 (encode_log 1 (event_log []))) with (@nil Byte.byte) in H. rewrite Hc in H.
  change (advance (im_epoch (booted p ds))) with (Ok (E := ErrorCode) 1) in H. cbv iota in H.
  destruct H as (ds' & r & f & [= ->] & Hrep & Hio). exists [EvEpoch 0 1 ReasonRecovery 0].
  set (im1 := (booted p ds) <| im_recovery := r |> <| im_store := Some ds' |>).
  destruct (account_epoch 1 0 im1) as (Ha & Hd & Hs).
  apply pair_equal_spec in Hs as [Hs Hn].
  apply (recorded_calm _ (apply_epoch_advance 1 0 im1)); [calm_solve|]. split; [split|].
  - exists ds'. by rewrite Hs.
  - by constructor.
  - rewrite Hn. by vm_compute.
  - split; [by rewrite Ha | by rewrite Hd].
Qed.

Lemma event_log_inj_length evs n : event_log (take n evs) = event_log evs -> take n evs = evs.
Proof.
  intros H. apply (f_equal length) in H. unfold event_log in H. rewrite !length_fmap in H.
  rewrite length_take in H. apply take_ge. lia.
Qed.

Lemma account_recovery f im : account (im <| im_recovery ::= f |>) = account im.
Proof. by apply view_flows. Qed.

Lemma fence_recovered_account im im' :
  fence_recovered im = (im', Ok tt) -> account im' = account im.
Proof.
  intros H. assert (wp fence_recovered (fun _ i => account i = account im) (fun _ _ => True) im) as Hw.
  { unfold fence_recovered. do 2 wp_step. cbv zeta. do 2 wp_step. destruct (advance _) as [next|]; [|done].
    wp_step. apply wp_journal; [|done]. intros st. do 3 wp_step. rewrite account_recovery.
    rewrite (proj1 (account_epoch _ _ _)). by apply view_flows. }
  unfold wp in Hw. by rewrite H in Hw.
Qed.

(** Reopening what a crash at byte [k] leaves of a log: if it succeeds, every
    record that survived was replayed, and the accounts are what replay made of
    them. *)
Lemma reopened_log p log k flush im' :
  log_wf 1 log -> create_durable p (take k (encode_log 1 log)) None flush [] = Ok im' ->
  exists ds im1, visit_all apply_record (log_views 1 (surviving k log)) (booted p ds) = (im1, Ok tt) /\
    account im' = account im1.
Proof.
  intros Hwf Hc. unfold create_durable in Hc. destruct (validate_policy p); [|done].
  cbn [result_bind] in Hc. pose proof (open_prefix log k None flush [] Hwf) as Ho.
  destruct (open _ _ _ _) as [ds|e] eqn:Eo; [|done]. cbn [result_bind] in Hc.
  destruct Ho as (torn & Hrep & _ & Hsn & _).
  pose proof (recover_log p ds _ torn Hrep (open_io _ _ _ _ Eo) Hsn) as Hr.
  change ((initial_impl p) <| im_store := Some ds |>) with (booted p ds) in Hc.
  exists ds. destruct (visit_all apply_record _ (booted p ds)) as [im1 [[]|e]].
  - exists im1. split; [done|]. destruct Hr as (ds1 & r & Hr & _). rewrite Hr in Hc.
    destruct (fence_recovered _) as [im2 [[]|e]] eqn:Ef; [|done]. injection Hc as ->.
    rewrite (fence_recovered_account _ _ Ef). by apply view_flows.
  - unfold outcome in Hr. destruct (recover (booted p ds)) as [im2 [[]|e']]; done.
Qed.

Lemma reopened_ledger p evs k flush im' :
  log_wf 1 (event_log evs) -> Forall ledger_fits evs ->
  create_durable p (take k (encode_log 1 (event_log evs))) None flush [] = Ok im' ->
  exists n, surviving k (event_log evs) = event_log (take n evs) /\
    account im' = lg_flows (ledger (take n evs)).
Proof.
  intros Hwf Hf Hc. destruct (surviving_events k evs) as [n Hn]. exists n. split; [done|].
  destruct (reopened_log _ _ _ _ _ Hwf Hc) as (ds & im1 & Hv & ->). rewrite Hn in Hv.
  by apply (visit_log_ledger _ _ _ _ _ (Forall_take _ _ _ Hf) Hv (holds_booted p ds)).
Qed.

(** C11 After any session the journal file determines what every flow has
    been served: the scheduler's accounts are the ledger of the journaled events,
    and whenever the file, whole or cut anywhere by a crash, can be reopened, the
    reopened scheduler has exactly the accounts of the events whose records
    survived; with the whole file, exactly the accounts of the scheduler that
    stopped.  No committed service is lost, and none is credited twice.  A
    session starts on empty files, its files never fail, its calls carry values
    of their C++ types, and it takes no checkpoint and makes no admission or
    update that fails after it was journaled. *)
Theorem service_survives_crash (p : SchedulingPolicy) (flush : bool) (im : Impl)
  (Hs : session p flush im) :
  exists ds evs, im_store im = Some ds /\ ds_journal ds = encode_log 1 (event_log evs) /\
    account im = lg_flows (ledger evs) /\
    forall k im', create_durable p (take k (ds_journal ds)) None flush [] = Ok im' ->
      exists n, surviving k (event_log evs) = event_log (take n evs) /\
        account im' = lg_flows (ledger (take n evs)) /\
        ((length (ds_journal ds) <= k)%nat -> account im' = account im).
Proof.
  destruct (session_durable _ _ _ Hs) as (evs & [(ds & Hst & Hrep & _) Hf _] & Ha & _).
  exists ds, evs. pose proof (rep_journal _ _ _ Hrep) as Hj. rewrite app_nil_r in Hj.
  split_and!; [done|done|done|]. intros k im' Hc. rewrite Hj in Hc |- *.
  destruct (reopened_ledger p evs k flush im' (rep_wf _ _ _ Hrep) Hf Hc) as (n & Hn & Hacc).
  exists n. split_and!; [done|done|]. intros Hk.
  rewrite (surviving_all 1 _ _ Hk) in Hn. by rewrite Hacc, Ha, (event_log_inj_length evs n).
Qed.

(** The fixture's calls on a scheduler with a store. *)
Definition durable_start : Impl :=
  match create_durable Demo.policy [] None true [] with
  | Ok im => im
  | Err _ => initial_impl Demo.policy
  end.

Lemma demo_session : session Demo.policy true (run_all demo_calls durable_start).
Proof.
  unfold run_all, demo_calls. cbn [foldl].
  repeat (apply session_call; [|first [exact I | repeat constructor; vm_compute; discriminate]|
                                first [exact I | left; vm_compute; reflexivity]]).
  apply session_open. vm_compute. reflexivity.
Qed.

(** The store the fixture's calls leave, and what reopening its journal finds. *)
Definition demo_files : bytes :=
  match im_store (run_all demo_calls durable_start) with Some ds => ds_journal ds | None => [] end.
Definition demo_reopened : Impl :=
  match create_durable Demo.policy demo_files None true [] with
  | Ok im => im
  | Err _ => durable_start
  end.

Lemma demo_reopens :
  create_durable Demo.policy (take (length demo_files) demo_files) None true [] = Ok demo_reopened.
Proof. vm_compute. reflexivity. Qed.

Lemma service_survives_crash_witness :
  account demo_reopened = account (run_all demo_calls durable_start) /\
  account (run_all demo_calls durable_start) !! 1 = Some (1, 30).
Proof.
  destruct (service_survives_crash _ _ _ demo_session) as (ds & evs & Hs & _ & _ & H).
  split; [|vm_compute; reflexivity].
  assert (ds_journal ds = demo_files) as Hd by (unfold demo_files; rewrite Hs; reflexivity).
  rewrite Hd in H.
  destruct (H (length demo_files) demo_reopened demo_reopens) as (n & _ & _ & Hall).
  exact (Hall (le_n _)).
Defined.

(** ** Cancellation *)

Lemma substring_length n m (s : string) : (String.length (String.substring n m s) <= m)%nat.
Proof.
  revert n m. induction s as [|c s IH]; intros [|n] [|m]; cbn [String.substring String.length];
    try lia; [specialize (IH 0%nat m); lia | apply IH | apply IH].
Qed.

Lemma bounded_detail_length s : N.of_nat (String.length (bounded_detail s)) <= kMaxExplanationBytes.
Proof.
  unfold bounded_detail. cbv zeta. destruct (N.ltb_spec kMaxExplanationBytes
    (N.of_nat (String.length (bounded_detail_go 0 s)))); [|done].
  pose proof (substring_length 0 (N.to_nat kMaxExplanationBytes) (bounded_detail_go 0 s)). lia.
Qed.

Lemma r_u64_any v rest : exists x, r_u64 (encode_u64_le v ++ rest) = Ok (x, rest).
Proof.
  unfold r_u64, r_bind, encode_u64_le. rewrite r_raw_app by (unfold blen; by rewrite length_encode_le).
  by eexists.
Qed.

Lemma read_cancel_any f g now rest :
  exists x, read_cancel_record (encode_u64_le f ++ encode_u64_le g ++ encode_u64_le now ++ rest) =
    Ok (x, rest).
Proof.
  unfold read_cancel_record, r_bind.
  destruct (r_u64_any f (encode_u64_le g ++ encode_u64_le now ++ rest)) as [f' ->].
  destruct (r_u64_any g (encode_u64_le now ++ rest)) as [g' ->].
  destruct (r_u64_any now rest) as [t' ->]. by eexists.
Qed.

(** The record of a cancellation carries a reason that replay does not read. *)
Lemma replay_cancelled f g now reason q im :
  N.of_nat (String.length reason) <= kMaxExplanationBytes ->
  exists e, outcome (apply_record (mkJournalRecordView (record_type_value JFlowCancelled) q
    (payload [WU64 f; WU64 g; WU64 now; WText reason]))) im = Err e.
Proof.
  intros Hl. unfold apply_record. cbn [jv_payload jv_type].
  rewrite record_type_roundtrip, kDefaultLimit_record.
  2:{ unfold ops_size, kMaxJournalRecordPayload, kMaxExplanationBytes in *.
      cbn [foldr op_size WText]. unfold blen. rewrite length_string_bytes. lia. }
  assert (ops_bytes [WU64 f; WU64 g; WU64 now; WText reason] =
    encode_u64_le f ++ encode_u64_le g ++ encode_u64_le now ++ ops_bytes [WText reason]) as ->
    by (by record_flat).
  destruct (read_cancel_any f g now (ops_bytes [WText reason])) as [x Hx]. unfold outcome.
  rewrite (replay_with_some _ _ _ _ _ Hx) by done. unfold bind.
  match goal with |- context [match ?m im with _ => _ end] => destruct (m im) as [im' [[]|e]] end;
    by eexists.
Qed.

Lemma visit_all_app {S} (visitor : JournalRecordView -> M ErrorCode S unit) l l' s :
  visit_all visitor (l ++ l') s =
  match visit_all visitor l s with
  | (s', Ok _) => visit_all visitor l' s'
  | (s', Err e) => (s', Err e)
  end.
Proof.
  revert s. induction l as [|v l IH]; intros s; [done|]. cbn [app visit_all].
  destruct (visitor v s) as [s' [[]|e]]; [apply IH | done].
Qed.

Lemma log_views_app q l l' :
  log_views q (l ++ l') = log_views q l ++ log_views (q + N.of_nat (length l)) l'.
Proof.
  revert q. induction l as [|[t p] l IH]; intros q; cbn [app log_views length].
  - by rewrite N.add_0_r.
  - rewrite IH. do 3 f_equal. lia.
Qed.

(** What a cancellation that is not a repetition writes. *)
Lemma cancel_journals evs f g reason now im rt :
  recorded evs im -> im_flows im !! f = Some rt -> fr_lifecycle rt <> Cancelled ->
  outcome (cancel_flow f g reason now) im = Ok tt ->
  journaled (evs ++ [EvCancelled f g now (bounded_detail reason)]) (exec (cancel_flow f g reason now) im).
Proof.
  intros Hr Hrt Hl Hok.
  assert (wp (cancel_flow f g reason now)
    (fun _ im' => journaled (evs ++ [EvCancelled f g now (bounded_detail reason)]) im')
    (fun _ _ => True) im) as H.
  { unfold cancel_flow, observe_tick. do 2 wp_step.
    set (im1 := im <| im_last_tick ::= N.max now |>).
    assert (recorded evs im1) as [Hj _] by (eapply recorded_calm; [|exact Hr]; unfold im1; calm_solve).
    wp_step. apply wp_require_flow; [|done]. intros rt' Hrt'.
    replace rt' with rt by (change (im_flows im1) with (im_flows im) in Hrt'; congruence).
    rewrite bool_decide_eq_false_2 by done. do 2 wp_step. destruct (is_terminal _); [done|].
    wp_step. apply (wp_journal_event evs (EvCancelled f g now (bounded_detail reason)));
      [done|done| |done].
    intros st Hj'. do 3 wp_step. clearbody im1. eapply journaled_held; [|exact Hj'].
    match goal with |- held ?x = held ?y => assert (calm y x) as [] by calm_solve end.
    done. }
  unfold wp, outcome, exec in *. by destruct (cancel_flow f g reason now im) as [im' [[]|e]].
Qed.

(** C35 A cancellation cannot be recovered: once a live flow has been
    cancelled, the journal of the session refuses to replay, and the scheduler
    cannot be reopened from it. *)
Theorem cancelled_session_unrecoverable (p : SchedulingPolicy) (flush : bool) (im : Impl)
  (f : FlowId) (g : Generation) (reason : string) (now : Ticks) (rt : FlowRuntime)
  (Hs : session p flush im)
  (Hrt : im_flows im !! f = Some rt) (Hl : fr_lifecycle rt <> Cancelled)
  (Hok : outcome (cancel_flow f g reason now) im = Ok tt) :
  exists ds e, im_store (exec (cancel_flow f g reason now) im) = Some ds /\
    create_durable p (ds_journal ds) None flush [] = Err e.
Proof.
  destruct (session_durable _ _ _ Hs) as (evs & Hr).
  destruct (cancel_journals evs f g reason now im rt Hr Hrt Hl Hok) as [(ds & Hst & Hrep & _) _ _].
  pose proof (rep_journal _ _ _ Hrep) as Hj. rewrite app_nil_r in Hj. exists ds.
  destruct (create_durable p (ds_journal ds) None flush []) as [im'|e] eqn:Hc; [|by exists e].
  exfalso. rewrite Hj, <- (firstn_all (encode_log _ _)) in Hc.
  destruct (reopened_log _ _ _ _ _ (rep_wf _ _ _ Hrep) Hc) as (ds' & im1 & Hv & _).
  rewrite (surviving_all 1) in Hv by done. unfold event_log in Hv.
  rewrite fmap_app, log_views_app, visit_all_app in Hv.
  destruct (visit_all _ _ _) as [im2 [[]|e]]; [|done].
  cbn [fmap list_fmap log_views visit_all event_record fst snd] in Hv.
  match type of Hv with context [mkJournalRecordView _ ?q _] =>
    destruct (replay_cancelled f g now (bounded_detail reason) q im2) as [e He] end.
  { apply bounded_detail_length. }
  unfold outcome in He. by destruct (apply_record _ im2) as [im3 [[]|e']].
Qed.

Lemma cancelled_session_unrecoverable_witness :
  exists ds e, im_store (exec (cancel_flow 3 1 "operator" 20) (run_all demo_calls durable_start)) =
      Some ds /\ create_durable Demo.policy (ds_journal ds) None true [] = Err e.
Proof.
  eapply (cancelled_session_unrecoverable Demo.policy true (run_all demo_calls durable_start)
    3 1 "operator" 20);
    [exact demo_session | vm_compute; reflexivity | vm_compute; discriminate |
     vm_compute; reflexivity].
Defined.
