(* ===== verification/Measurement.v ===== *)
(** * What the benchmark reports

    The figures of [run_synthetic_benchmark] against the scheduler it drove:
    the service it reports is the service its flows received, no more and no
    less; and the seeded population is one the scheduler admits. *)

From S2P Require Import Prelude Checked Bytes Hash Model Schedule Codec Journal State.
From S2P Require Import Transitions Arbitrate Operations Recovery Observe Commandline Coordinator.
From S2P Require Import Bench Fixture Invariants Frames Random System Lease Authority Completion.
From S2P Require Import Replay Durability.
From Stdlib Require Import SpecFloat.

(** ** Service and its ledger *)

(** The total of a table, and a table after a list of credits. *)
Definition total (m : gmap N N) : N := map_fold (fun _ w n => w + n) 0 m.
Definition credit (m : gmap N N) (c : FlowId * N) : gmap N N :=
  alter (fun w => saturating_add w c.2) c.1 m.
Definition credit_all (cs : list (FlowId * N)) (m : gmap N N) : gmap N N := foldl credit m cs.
Definition sum_credits (cs : list (FlowId * N)) : N := foldr N.add 0 cs.*2.

(** Every flow of the table, without service. *)
Definition unserved (m : gmap N N) : gmap N N := (fun _ => 0) <$> m.

Lemma total_insert m k w : m !! k = None -> total (<[ k := w ]> m) = w + total m.
Proof. intros Hk. unfold total. apply map_fold_insert_L; [intros; lia | done]. Qed.

Lemma total_alter m k w f : m !! k = Some w -> total (alter f k m) + w = total m + f w.
Proof.
  intros Hk.
  assert (alter f k m = <[ k := f w ]> (delete k m)) as ->.
  { apply map_eq. intros i. destruct (decide (k = i)) as [<-|Hne].
    - by rewrite lookup_alter_eq, lookup_insert_eq, Hk.
    - by rewrite lookup_alter_ne, lookup_insert_ne, lookup_delete_ne. }
  rewrite <- (insert_delete_id m k w Hk) at 2.
  rewrite !total_insert by apply lookup_delete_eq. lia.
Qed.

Lemma total_unserved m : total (unserved m) = 0.
Proof.
  unfold unserved. induction m as [|k w m Hk IH] using map_ind; [done|].
  rewrite fmap_insert, total_insert; [lia|]. by rewrite lookup_fmap, Hk.
Qed.

Lemma lookup_le_total m k w : m !! k = Some w -> w <= total m.
Proof. intros Hk. pose proof (total_alter m k w (fun _ => 0) Hk) as H. cbv beta in H. lia. Qed.

Lemma dom_credit_all cs m : dom (credit_all cs m) = dom m.
Proof.
  unfold credit_all. apply (foldl_inv (fun m' => dom m' = dom m)); [done|].
  intros m' c _ <-. apply dom_alter_L.
Qed.

(** Credits to known flows add up, as long as no account saturates. *)
Lemma total_credit_all cs m :
  Forall (fun c => c.2 = 0 \/ c.1 ∈ dom m) cs -> total m + sum_credits cs <= u64_max ->
  total (credit_all cs m) = total m + sum_credits cs.
Proof.
  unfold credit_all, sum_credits. revert m.
  induction cs as [|[f c] cs IH]; intros m Hcs Hle; cbn [fmap list_fmap foldr foldl snd] in *; [lia|].
  apply Forall_cons in Hcs as [Hc Hcs]. cbn [fst snd] in Hc.
  assert (total (credit m (f, c)) = total m + c) as Ht.
  { unfold credit. cbn [fst snd]. destruct (m !! f) as [w|] eqn:Hf.
    - pose proof (lookup_le_total _ _ _ Hf).
      pose proof (total_alter m f w (fun w => saturating_add w c) Hf) as Ha. cbv beta in Ha.
      rewrite saturating_add_exact in Ha by lia. lia.
    - destruct Hc as [->|Hc]; [|by apply not_elem_of_dom in Hf].
      rewrite alter_same; [lia|]. intros x. by rewrite Hf. }
  rewrite IH, Ht; [lia| |lia].
  eapply Forall_impl; [exact Hcs|]. intros [f' c']. cbn. by rewrite dom_alter_L.
Qed.

(** ** The calls of a round *)

Lemma served_account im im' : account im' = account im -> served im' = served im.
Proof.
  intros H. apply (f_equal (fmap snd)) in H. unfold account, view in H.
  rewrite <- !map_fmap_compose in H. exact H.
Qed.

(** What the journal does is not seen by the accounts. *)
Lemma account_arbitrate now im : account (exec (arbitrate now) im) = account im.
Proof.
  apply (undisturbed_arbitrate (fun i => account i = account im)); [| |done].
  - by intros i i' _ -> _.
  - intros ev _ i Hi. apply wp_exec, wp_journal; [|done]. intros st. exact Hi.
Qed.

Lemma account_begin_dispatch s g o w b now im :
  account (exec (begin_dispatch s g o w b now) im) = account im.
Proof.
  unfold begin_dispatch. apply wp_exec. wp_step. unfold observe_tick. do 5 wp_step.
  match goal with |- context [dispatchable ?i] => set (im1 := i) end.
  assert (account im1 = account im) as H1 by reflexivity. clearbody im1.
  destruct (dispatchable _ _ _ _ _ _) as [[e rt]|err]; [|done]. do 2 wp_step.
  destruct (validate_ticket_fields _ _ _); [|done]. cbv zeta. wp_step.
  apply wp_journal; [|done]. intros st. do 2 wp_step.
  destruct (account_opened (make_ticket im1 s g e w b now)
    (tk_quantum (make_ticket im1 s g e w b now)) now (im1 <| im_store := st |>)) as (Ha & _ & _).
  set (im2 := apply_attempt_opened _ _ _ _) in *. clearbody im2.
  change (account (im1 <| im_store := st |>)) with (account im1) in Ha.
  do 4 wp_step.
  destruct (advance _); [do 3 wp_step|]; (transitivity (account im2); [reflexivity | congruence]).
Qed.

(** A ticket accepted by [mark_started] names a live attempt. *)
Definition live_attempt (im : Impl) (a : DispatchAttemptId) : Prop :=
  exists r, im_attempts im !! a = Some r /\ is_attempt_terminal (at_state r) = false.

Lemma live_started a now im r :
  im_attempts im !! a = Some r -> is_attempt_terminal (at_state r) = false ->
  live_attempt (apply_attempt_started a now im) a.
Proof.
  intros Hr Ht. unfold apply_attempt_started. rewrite Hr, Ht. cbn [orb].
  case_bool_decide; [by exists r|]. cbv zeta.
  set (im1 := upd_attempt a _ im).
  assert (live_attempt im1 a) as H1.
  { eexists. unfold im1, upd_attempt. upd_simpl. by rewrite lookup_alter_eq, Hr. }
  clearbody im1. destruct (im_flows im1 !! _) as [rt|]; [|done]. destruct (negb _); [done|].
  unfold live_attempt. by rewrite (blind_set_lifecycle im_attempts), (blind_upd_flow im_attempts).
Qed.

Lemma mark_started_wp t now im :
  wp (mark_started t now)
    (fun _ im' => account im' = account im /\ live_attempt im' (tk_attempt t))
    (fun _ im' => account im' = account im) im.
Proof.
  unfold mark_started, observe_tick. do 4 wp_step.
  match goal with |- context [im_attempts ?i !! _] => set (im1 := i) end.
  assert (account im1 = account im) as H1 by reflexivity. clearbody im1.
  destruct (im_attempts im1 !! tk_attempt t) as [r|] eqn:Hr; [|done]. do 2 wp_step.
  destruct (is_attempt_terminal (at_state r)) eqn:Ht; [done|]. do 2 wp_step.
  destruct (revalidate im1 t now); [|done]. destruct (bool_decide _); wp_step; [by split; [|exists r]|].
  apply wp_journal; [|done]. intros st. wp_step.
  set (im2 := im1 <| im_store := st |>).
  assert (account im2 = account im) as H2 by exact H1.
  assert (im_attempts im2 !! tk_attempt t = Some r) as Hr2 by exact Hr. clearbody im2.
  split.
  - assert (calm im2 (apply_attempt_started (tk_attempt t) now im2)) as [_ Ha _]
      by (apply calm_started; reflexivity). congruence.
  - by eapply live_started.
Qed.

Lemma credit_nothing m f : credit m (f, 0) = m.
Proof.
  unfold credit. cbn [fst snd]. apply map_eq. intros i. destruct (decide (f = i)) as [<-|Hne].
  - rewrite lookup_alter_eq. destruct (m !! f); cbn; [by rewrite saturating_add_0|done].
  - by rewrite lookup_alter_ne.
Qed.

Lemma judge_live im e now r :
  live_attempt im (ev_attempt e) -> judge_completion im e now <> Duplicate r.
Proof.
  intros (a & Ha & Ht). unfold judge_completion. rewrite Ha. repeat case_match; try done.
  unfold judge_attempt. rewrite Ht. repeat case_match; done.
Qed.

(** The evidence of a live attempt moves its flow's account by what the outcome
    says. *)
Lemma complete_credits e now im :
  live_attempt im (ev_attempt e) ->
  wp (complete e now)
    (fun o im' => served im' = credit (served im) (ev_flow e, co_credited o) /\
                  (co_credited o = 0 \/ ev_flow e ∈ dom (served im)))
    (fun _ im' => served im' = served im) im.
Proof.
  intros Hlive. eapply wp_conseq; [apply complete_wp| |done].
  intros o im' H. cbv beta in H. destruct (judge_completion im e now) as [code on|r|a] eqn:Hj.
  - destruct H as [-> Hs]. rewrite credit_nothing. by split; [|left].
  - by apply judge_live in Hj.
  - destruct H as (_ & -> & Hm). split; [apply (cm_served _ _ _ _ Hm)|]. right.
    apply judge_accept in Hj as (_ & _ & _ & rt & Hrt & _).
    apply elem_of_dom. unfold served. rewrite lookup_view, Hrt. by eexists.
Qed.

(** ** The accumulators *)

(** What was counted since the accounts were [Z]. *)
Record counted (Z : gmap N N) (cs : list (FlowId * N)) (b : Bench) : Prop := {
  ct_known : Forall (fun c => c.2 = 0 \/ c.1 ∈ dom Z) cs;
  ct_dispatches : bn_dispatches b = wrap64 (N.of_nat (length cs));
  ct_service : bn_service_units_total b = wrap64 (sum_credits cs);
  ct_served : served (bn_scheduler b) = credit_all cs Z }.

Lemma counted_same Z cs b b' :
  bn_dispatches b' = bn_dispatches b -> bn_service_units_total b' = bn_service_units_total b ->
  served (bn_scheduler b') = served (bn_scheduler b) -> counted Z cs b -> counted Z cs b'.
Proof. intros H1 H2 H3 []. split; congruence. Qed.

Lemma counted_more Z cs b b' c :
  c.2 = 0 \/ c.1 ∈ dom (served (bn_scheduler b)) ->
  bn_dispatches b' = incr64 (bn_dispatches b) ->
  bn_service_units_total b' = add64 (bn_service_units_total b) c.2 ->
  served (bn_scheduler b') = credit (served (bn_scheduler b)) c ->
  counted Z cs b -> counted Z (cs ++ [c]) b'.
Proof.
  intros Hc Hd Hu Hs [H1 H2 H3 H4]. split.
  - apply Forall_app. split; [done|]. apply Forall_singleton. by rewrite H4, dom_credit_all in Hc.
  - rewrite Hd, H2, length_app. cbn [length]. unfold incr64, wrap64.
    rewrite N.Div0.add_mod_idemp_l. f_equal. lia.
  - rewrite Hu, H3. unfold sum_credits. rewrite fmap_app, foldr_app. cbn [fmap list_fmap foldr].
    rewrite N.add_0_r. unfold add64, wrap64. rewrite N.Div0.add_mod_idemp_l. f_equal.
    generalize (cs.*2) as l. induction l as [|x l IH]; cbn [foldr]; lia.
  - rewrite Hs, H4. unfold credit_all. by rewrite foldl_app.
Qed.

Lemma wp_on_bench {A} (m : Op A) (Q : A -> Bench -> Prop) X b :
  wp m (fun a im => Q a (b <| bn_scheduler := im |>)) (fun e im => X e (b <| bn_scheduler := im |>))
    (bn_scheduler b) -> wp (on_bench m) Q X b.
Proof. unfold wp, on_bench. by destruct (m _) as [im [a|e]]. Qed.

Lemma wp_try_bench {A} (m : Op A) (Q : Res A -> Bench -> Prop) X b :
  (forall r, Q r (b <| bn_scheduler := exec m (bn_scheduler b) |>)) -> wp (try_bench m) Q X b.
Proof. unfold wp, try_bench, exec. by destruct (m _) as [im r]. Qed.

Section Counting.
Context (Z : gmap N N) (p : BenchmarkParameters).
Let inv (b : Bench) : Prop := exists cs, counted Z cs b.

Lemma inv_same b b' :
  bn_dispatches b' = bn_dispatches b -> bn_service_units_total b' = bn_service_units_total b ->
  served (bn_scheduler b') = served (bn_scheduler b) -> inv b -> inv b'.
Proof. intros H1 H2 H3 [cs H]. exists cs. by eapply counted_same. Qed.

Lemma inv_scheduler b im :
  served im = served (bn_scheduler b) -> inv b -> inv (b <| bn_scheduler := im |>).
Proof. intros H. by apply inv_same. Qed.

Lemma record_wait_same f now b :
  bn_scheduler (record_wait f now b) = bn_scheduler b /\
  bn_dispatches (record_wait f now b) = bn_dispatches b /\
  bn_service_units_total (record_wait f now b) = bn_service_units_total b.
Proof. unfold record_wait. by destruct (flow _ f). Qed.

Lemma serve_entry_counts now s e : preserves inv (serve_entry p now s e).
Proof.
  intros b H. unfold serve_entry. apply wp_exec. destruct (negb (is_run e)); [exact H|].
  cbv zeta. wp_step. apply wp_try_bench. intros r.
  match goal with |- context [exec ?m (bn_scheduler b)] => set (im1 := exec m (bn_scheduler b)) end.
  assert (inv (b <| bn_scheduler := im1 |>)) as H1
    by (apply inv_scheduler; [apply served_account, account_begin_dispatch | exact H]).
  set (b1 := b <| bn_scheduler := im1 |>) in *. clearbody b1. clear im1 H b.
  destruct r as [t|]; [|exact H1]. do 2 wp_step.
  destruct (record_wait_same (se_flow e) now b1) as (E1 & E2 & E3).
  set (b2 := record_wait (se_flow e) now b1) in *.
  assert (inv b2) as H2 by (by eapply inv_same; [..|exact H1]; rewrite ?E1).
  clearbody b2. clear E1 E2 E3 H1 b1. wp_step. apply wp_on_bench.
  eapply wp_conseq; [apply mark_started_wp | |].
  2:{ intros err im Ha. by apply inv_scheduler; [apply served_account|]. }
  intros [] im [Ha Hlive]. wp_step. apply wp_on_bench.
  assert (inv (b2 <| bn_scheduler := im |>)) as [cs H3] by (by apply inv_scheduler; [apply served_account|]).
  set (b3 := b2 <| bn_scheduler := im |>) in *.
  change (bn_scheduler b3) with im.
  eapply wp_conseq; [by apply complete_credits | |].
  - intros o im' [Hs Hc]. wp_step. exists (cs ++ [(tk_flow t, co_credited o)]).
    by eapply (counted_more Z cs b3).
  - intros err im' Hs. exists cs. by eapply (counted_same Z cs b3).
Qed.

Lemma preserves_each {S A} (P : S -> Prop) (f : A -> M ErrorCode S unit) l :
  (forall x, x ∈ l -> preserves P (f x)) -> preserves P (each f l).
Proof.
  intros Hf. unfold each. induction l as [|x l IH]; cbn [foldr]; [apply preserves_ret|].
  apply preserves_bind; [apply Hf, list_elem_of_here|]. intros _. apply IH.
  intros y Hy. by apply Hf, list_elem_of_further.
Qed.

Lemma bench_round_counts r : preserves inv (bench_round p r).
Proof.
  unfold bench_round. cbv zeta. repeat preserve_step.
  - intros b H. apply wp_exec, wp_on_bench. unfold wp.
    pose proof (account_arbitrate (ro_now (r <| ro_rounds ::= incr64 |>)) (bn_scheduler b)) as Ha.
    unfold exec in Ha. destruct (arbitrate _ _) as [im [o|err]];
      by apply inv_scheduler; [apply served_account|].
  - apply preserves_each. intros e _. apply serve_entry_counts.
Qed.

Lemma bench_rounds_counts turns r : preserves inv (bench_rounds p turns r).
Proof.
  revert r. induction turns as [|turns IH]; intros r; cbn [bench_rounds]; [apply preserves_ret|].
  apply preserves_bind; [apply bench_round_counts|]. intros [r' []]; [apply IH | apply preserves_ret].
Qed.
End Counting.

(** ** Before the first round *)

(** No flow has been served. *)
Definition idle (im : Impl) : Prop := unserved (served im) = served im.

Lemma unserved_dom (m m' : gmap N N) : dom m = dom m' -> unserved m = unserved m'.
Proof.
  intros H. apply map_eq. intros i. unfold unserved. rewrite !lookup_fmap.
  assert (is_Some (m !! i) <-> is_Some (m' !! i)) as Hi by by rewrite <- !elem_of_dom, H.
  destruct (m !! i), (m' !! i); try done; exfalso.
  - destruct (proj1 Hi) as [? [=]]. by eexists.
  - destruct (proj2 Hi) as [? [=]]. by eexists.
Qed.

Lemma idle_flows im im' : im_flows im' = im_flows im -> idle im -> idle im'.
Proof. unfold idle, served, view. by intros ->. Qed.

Lemma idle_journal t ops : preserves idle (journal t ops).
Proof. intros im H. apply wp_exec, wp_journal; [|done]. intros st. exact H. Qed.

Lemma idle_admit d : preserves idle (admit_flow d).
Proof.
  unfold admit_flow. repeat preserve_step; [apply idle_journal|].
  intros im H. unfold exec, apply_admit. destruct (_ && _); [exact H|]. cbn [fst].
  unfold idle, served, view, unserved in *. upd_simpl. rewrite !fmap_insert, H. done.
Qed.

Lemma idle_topology p population : preserves idle (bench_topology p population).
Proof.
  unfold bench_topology, register_resource, register_priority_class, register_qos_class.
  repeat preserve_step; try apply idle_journal; try (by eapply idle_flows).
  - apply preserves_each. intros i _. repeat preserve_step; [apply idle_journal | by eapply idle_flows].
  - apply preserves_each. intros s _. apply idle_admit.
Qed.

Lemma idle_created p im : create_volatile p = Ok im -> idle im.
Proof. unfold create_volatile. destruct (validate_policy p); [|done]. intros [= <-]. reflexivity. Qed.

(** The whole run, from a scheduler that has served nothing. *)
Lemma measure_counts p population wall im :
  idle im ->
  wp (measure p population wall)
    (fun r b => exists cs, counted (unserved (served (bn_scheduler b))) cs b /\
       br_dispatches r = bn_dispatches b /\ br_service_units_total r = bn_service_units_total b)
    (fun _ _ => True) (mkBench im 0 0 [] 0).
Proof.
  intros Hi. unfold measure. wp_step. apply wp_on_bench. cbn [bn_scheduler].
  pose proof (idle_topology p population im Hi) as Ht. unfold exec in Ht. unfold wp at 1.
  destruct (bench_topology p population im) as [im1 [[]|e]]; [|done]. cbn [fst] in Ht.
  set (b1 := (mkBench im 0 0 [] 0) <| bn_scheduler := im1 |>).
  assert (exists cs, counted (served im1) cs b1) as H1 by (by exists []; split).
  pose proof (bench_rounds_counts (served im1) p (N.to_nat (bp_max_rounds p))
    (mkRounds 0 0 false 0 0 0) b1 H1) as H2.
  wp_step. unfold wp at 1. unfold exec in H2. destruct (bench_rounds _ _ _ b1) as [b2 [r|e]]; [|done].
  cbn [fst] in H2. destruct H2 as [cs H2]. do 4 wp_step. destruct (validate_report _); [|done].
  wp_step. exists cs. split; [|done].
  replace (unserved (served (bn_scheduler b2))) with (served im1); [done|].
  rewrite <- Ht. apply unserved_dom. by rewrite (ct_served _ _ _ H2), dom_credit_all.
Qed.

(** C28 What an in-memory benchmark run reports is what the scheduler did:
    there is one credit per counted dispatch, none to an unknown flow, the accounts of the flows at the
    end are those credits on top of nothing, the reported service is their sum
    modulo 2^64, and, when the sum fits, it is exactly the service the flows of
    the scheduler have received; no admission, rejected report or duplicate is
    counted as work. *)
Theorem benchmark_measures_service (draws : nat) (p : BenchmarkParameters) (dir : StateDirectory)
  (wall_seconds : spec_float) (im : Impl) (r : BenchmarkResult)
  (Hvolatile : bp_durable p = false)
  (Hrun : run_synthetic_benchmark draws p dir wall_seconds = Some (Some im, Ok r)) :
  exists credits : list (FlowId * N),
    br_dispatches r = wrap64 (N.of_nat (length credits)) /\
    br_service_units_total r = wrap64 (sum_credits credits) /\
    (forall f c, (f, c) ∈ credits -> c = 0 \/ is_Some (im_flows im !! f)) /\
    served im = credit_all credits (unserved (served im)) /\
    (sum_credits credits <= u64_max -> br_service_units_total r = total (served im)).
Proof.
  unfold run_synthetic_benchmark in Hrun. destruct (validate_parameters p); [|done].
  destruct (generate_synthetic_population draws p) as [[population|]|]; [|done..]. cbn in Hrun.
  unfold bench_create in Hrun. rewrite Hvolatile in Hrun.
  destruct (create_volatile _) as [im0|] eqn:Hc; [|done].
  pose proof (measure_counts p population wall_seconds im0 (idle_created _ _ Hc)) as W.
  unfold wp in W. destruct (measure _ _ _ _) as [b [r'|]]; [|done].
  injection Hrun as <- ->. destruct W as (cs & [H1 H2 H3 H4] & Hd & Hu). exists cs.
  split_and!; [congruence | congruence | | done |].
  { intros f c Hin. rewrite Forall_forall in H1. destruct (H1 _ Hin) as [Hc0|Hf]; [by left | right].
    apply elem_of_dom in Hf as [w Hw]. cbn [fst] in Hw. unfold unserved, served in Hw.
    rewrite lookup_fmap, lookup_view in Hw. by destruct (im_flows _ !! f). }
  intros Hle. rewrite Hu, H3, H4.
  rewrite total_credit_all by (rewrite ?total_unserved; done).
  rewrite total_unserved. apply N.mod_small. unfold u64_max, u64_mod in *. lia.
Qed.

(** Two flows, served to the end within sixteen rounds. *)
Definition small_workload : BenchmarkParameters :=
  default_parameters <| bp_flow_count := 2 |> <| bp_max_rounds := 16 |>
    <| bp_deadline_density := dzero |>.
Definition small_run : option (option Impl * Res BenchmarkResult) :=
  run_synthetic_benchmark 8 small_workload (mkStateDirectory [] None []) done1.

Lemma benchmark_measures_service_witness :
  exists im r, small_run = Some (Some im, Ok r) /\
    br_service_units_total r = 80 /\ br_converged r = true /\
    exists credits : list (FlowId * N),
      br_service_units_total r = wrap64 (sum_credits credits) /\
      served im = credit_all credits (unserved (served im)).
Proof.
  assert (match small_run with
          | Some (Some _, Ok r) => Some (br_service_units_total r, br_converged r)
          | _ => None
          end = Some (80, true)) as Hv by (vm_compute; reflexivity).
  destruct small_run as [[[im|] [r|e]]|] eqn:Hrun; try discriminate Hv.
  apply (inj Some), pair_equal_spec in Hv as [Hu Hc]. exists im, r. split; [reflexivity|].
  split; [exact Hu|]. split; [exact Hc|].
  destruct (benchmark_measures_service 8 small_workload (mkStateDirectory [] None []) done1 im r)
    as (cs & _ & H1 & _ & H2 & _).
  - reflexivity.
  - exact Hrun.
  - exists cs. split; [exact H1 | exact H2].
Defined.
