(* ===== verification/Checkpoint.v ===== *)
(** * Checkpoints: the state image restores the state

    [encode_state_snapshot] followed by [apply_state_snapshot] gives back every
    table and counter of the scheduler, except the parts the image leaves out on
    purpose (explanation histories, close details, the per-round starvation
    mark), so a scheduler reopened from a checkpoint has the accounts of the one
    that wrote it.

    An interrupted checkpoint is the exception: when the snapshot is in place
    and the journal is not yet cut, reopening replays the journal on top of the
    image that already contains it, and credits committed service twice. *)

From S2P Require Import Prelude Checked Bytes Hash Model Schedule Codec.
From S2P Require Import Journal State Transitions Arbitrate Operations Recovery Fixture Invariants.
From S2P Require Import Frames Capacity Bounds System Lease Authority Completion Replay Durability.

(** ** Reading back what was written, up to what the format drops *)

Class Restores {A} (wr : A -> list WriteOp) (rd : Reader A) (wf : A -> Prop) (keep : A -> A) : Prop :=
  restores_read : forall a rest, wf a -> rd (ops_bytes (wr a) ++ rest) = Ok (keep a, rest).

#[export] Instance codec_restores {A} (wr : A -> list WriteOp) rd wf :
  Codec wr rd wf -> Restores wr rd wf (fun a => a).
Proof. intros H a rest Ha. by apply codec_read. Qed.

Lemma r_repeat_restores {A B} (wr : A -> list WriteOp) rd wf keep `{!Restores wr rd wf keep}
  (k : list A -> Reader B) rest (l : list A) :
  Forall wf l -> r_bind (r_repeat (length l) rd) k (ops_bytes (l ≫= wr) ++ rest) = k (keep <$> l) rest.
Proof.
  intros Hl. revert B k. induction Hl as [|a l Ha Hl IH]; intros B k; [reflexivity|].
  cbn [length r_repeat]. rewrite bind_cons, ops_bytes_app, <- app_assoc.
  unfold r_bind at 1 2. rewrite (restores_read a) by done.
  rewrite (IH _ (fun x => r_ret (keep a :: x))). reflexivity.
Qed.

Lemma read_counted_restores {A B} (wr : A -> list WriteOp) rd wf keep `{!Restores wr rd wf keep}
  bound (k : list A -> Reader B) rest (l : list A) :
  Forall wf l -> N.of_nat (length l) <= bound -> u64 bound ->
  r_bind (read_counted bound rd) k
    (ops_bytes (WU64 (N.of_nat (length l)) :: (l ≫= wr)) ++ rest) = k (keep <$> l) rest.
Proof.
  intros Hl Hb Hu. unfold read_counted. rewrite ops_bytes_cons. cbn [op_bytes].
  rewrite <- app_assoc. unfold r_bind at 1.
  rewrite r_u64_op by (unfold u64 in *; lia).
  rewrite r_fail_if_false by (apply N.ltb_ge; lia). rewrite Nat2N.id.
  exact (r_repeat_restores wr rd wf keep k rest l Hl).
Qed.

(** ** The runtime records *)

Definition wf_resource_runtime (r : ResourceRuntime) : Prop :=
  wf_resource (rr_descriptor r) /\
  Forall u64 [rr_interval_index r; rr_reserved_this_interval r; rr_in_flight r].

Definition wf_reservation_runtime (v : ReservationRuntime) : Prop :=
  wf_reservation (vr_descriptor v) /\ u64 (vr_reserved_units v).

Definition wf_flow_accounting (a : FlowAccounting) : Prop :=
  Forall u64 [ac_service_credit a; ac_dispatches_issued a; ac_dispatches_started a;
    ac_completions_committed a; ac_duplicate_completions a; ac_rejected_completions a;
    ac_preemptions a; ac_deadline_misses a; ac_wait_ticks_total a; ac_starvation_boosts a].

Definition wf_flow_runtime (rt : FlowRuntime) : Prop :=
  wf_flow (fr_descriptor rt) /\
  Forall u64 [fr_served_work rt; fr_outstanding_reserved rt; fr_open_attempt rt;
    fr_scheduled_schedule rt; fr_scheduled_generation rt; fr_scheduled_tick rt;
    fr_last_change_tick rt; fr_eligible_since_tick rt; fr_min_service_window_start rt;
    fr_min_service_delivered rt; fr_virtual_finish rt] /\
  u32 (fr_scheduled_ordinal rt) /\ wf_flow_accounting (fr_accounting rt).

Definition wf_attempt_runtime (a : AttemptRuntime) : Prop :=
  wf_ticket (at_ticket a) /\
  Forall u64 [at_opened_tick a; at_closed_tick a; at_evidence_digest a; at_credited a].

Definition wf_schedule_runtime (s : ScheduleRuntime) : Prop :=
  wf_schedule (sr_schedule s) /\ length (sr_consumed s) = length (sc_entries (sr_schedule s)) /\
  Forall (fun c => c <= 2) (sr_consumed s) /\ Forall u64 [sr_open_attempts s; sr_pending_entries s].

(** What the image keeps of a flow and of an attempt. *)
Definition kept_flow (rt : FlowRuntime) : FlowRuntime :=
  rt <| fr_starvation_counted := false |> <| fr_history := [] |> <| fr_history_truncated := false |>.
Definition kept_attempt (a : AttemptRuntime) : AttemptRuntime := a <| at_close_detail := "" |>.

Ltac image_step :=
  lazymatch goal with
  | |- r_bind read_resource _ _ = _ => rewrite (r_codec_op _ _ wf_resource) by assumption
  | |- r_bind read_reservation _ _ = _ => rewrite (r_codec_op _ _ wf_reservation) by assumption
  | |- r_bind read_flow_descriptor _ _ = _ => rewrite (r_codec_op _ _ wf_flow) by assumption
  | |- r_bind read_ticket _ _ = _ => rewrite (r_codec_op _ _ wf_ticket) by assumption
  | |- r_bind read_schedule _ _ = _ => rewrite (r_codec_op _ _ wf_schedule) by assumption
  | _ => read_step
  end; cbv beta.

(** A record body followed by single fields. *)
Ltac image_fields := rewrite ?ops_bytes_app, <- ?app_assoc; image_step; flat_ops; repeat image_step.

#[export] Instance resource_runtime_codec :
  Codec write_resource_runtime read_resource_runtime wf_resource_runtime.
Proof.
  intros r rest [Hd Hu]. wf_destruct. unfold read_resource_runtime, write_resource_runtime.
  image_fields. by destruct r.
Qed.

#[export] Instance reservation_runtime_codec :
  Codec write_reservation_runtime read_reservation_runtime wf_reservation_runtime.
Proof.
  intros r rest [Hd Hu]. unfold read_reservation_runtime, write_reservation_runtime.
  image_fields. by destruct r.
Qed.

#[export] Instance flow_accounting_codec :
  Codec write_flow_accounting read_flow_accounting wf_flow_accounting.
Proof.
  intros a rest Hwf. unfold wf_flow_accounting in Hwf. wf_destruct.
  unfold read_flow_accounting, write_flow_accounting. flat_ops. repeat image_step. by destruct a.
Qed.

#[export] Instance flow_runtime_restores :
  Restores write_flow_runtime read_flow_runtime wf_flow_runtime kept_flow.
Proof.
  intros rt rest (Hd & Hu & Ho & Ha). wf_destruct.
  unfold read_flow_runtime, write_flow_runtime. rewrite !ops_bytes_app, <- !app_assoc. image_step.
  rewrite !ops_bytes_cons. cbn [op_bytes]. rewrite <- !app_assoc.
  rewrite (r_enum_op _ _ _ _ _ (fr_lifecycle rt));
    [| by destruct (fr_lifecycle rt) | by destruct (fr_lifecycle rt)].
  repeat image_step. rewrite ops_bytes_nil_app.
  rewrite (r_codec_op write_flow_accounting _ wf_flow_accounting) by assumption.
  by destruct rt.
Qed.

#[export] Instance attempt_runtime_restores :
  Restores write_attempt_runtime read_attempt_runtime wf_attempt_runtime kept_attempt.
Proof.
  intros a rest [Hd Hu]. wf_destruct. unfold read_attempt_runtime, write_attempt_runtime.
  rewrite ops_bytes_app, <- app_assoc. image_step. flat_ops.
  rewrite (r_enum_op _ _ _ _ _ (at_state a));
    [| by destruct (at_state a) | by destruct (at_state a)].
  repeat image_step. by destruct a.
Qed.

#[export] Instance consumed_codec : Codec (fun c => [WU8 c]) read_consumed (fun c => c <= 2).
Proof.
  intros c rest Hc. unfold read_consumed. flat_ops. rewrite r_u8_op by lia.
  by rewrite r_fail_if_false by (by apply N.ltb_ge).
Qed.

Lemma fmap_WU8 (l : list N) : WU8 <$> l = l ≫= (fun v => [WU8 v]).
Proof. induction l as [|v l IH]; [done|]. rewrite fmap_cons, bind_cons, IH. done. Qed.

#[export] Instance schedule_runtime_codec :
  Codec write_schedule_runtime read_schedule_runtime wf_schedule_runtime.
Proof.
  intros s rest (Hd & Hl & Hc & Hu). wf_destruct.
  unfold read_schedule_runtime, write_schedule_runtime.
  rewrite !ops_bytes_app, <- !app_assoc. image_step.
  rewrite ops_bytes_cons, <- app_assoc. cbn [op_bytes].
  assert (N.of_nat (length (sr_consumed s)) <= kMaxEntriesPerSchedule) as Hb.
  { rewrite Hl. apply Hd. }
  rewrite r_u64_op by (unfold u64, u64_max, kMaxEntriesPerSchedule in *; lia).
  rewrite r_fail_if_false by (rewrite Hl; by apply negb_false_iff, N.eqb_eq).
  rewrite Nat2N.id, ops_bytes_nil_app, fmap_WU8.
  rewrite (r_repeat_op _ _ (fun c => c <= 2)) by assumption.
  flat_ops. repeat image_step. by destruct s.
Qed.

(** ** Tables *)

Lemma list_to_map_entries {V} (m : gmap N V) : list_to_map (map_entries m) = m.
Proof.
  apply map_eq. intros i. apply option_eq. intros v.
  rewrite <- elem_of_list_to_map by apply NoDup_map_entries. apply elem_of_map_entries.
Qed.

Lemma Forall_entries {V} (P : V -> Prop) (m : gmap N V) :
  map_Forall (fun _ => P) m -> Forall P (map_entries m).*2.
Proof.
  intros H. apply Forall_fmap, Forall_forall. intros [k v] Hkv.
  apply elem_of_map_entries in Hkv. by apply (H k).
Qed.

Lemma foldl_insert {X V} (f : X -> N) (g : X -> V) (l : list X) (m0 : gmap N V) :
  NoDup (f <$> l) ->
  foldl (fun m x => <[ f x := g x ]> m) m0 l = list_to_map ((fun x => (f x, g x)) <$> l) ∪ m0.
Proof.
  revert m0. induction l as [|x l IH]; intros m0 Hn; [by cbn; rewrite (left_id_L ∅ (∪))|].
  cbn [foldl fmap list_fmap list_to_map]. rewrite fmap_cons in Hn. apply NoDup_cons in Hn as [Hx Hn].
  rewrite IH by done. rewrite <- insert_union_r.
  - apply insert_union_l.
  - apply not_elem_of_list_to_map_1. rewrite <- list_fmap_compose. exact Hx.
Qed.

(** The table read back from the values of a table, by key. *)
Lemma table_of_entries {V} (key : V -> N) (keep : V -> V) (m : gmap N V) :
  map_Forall (fun k v => key (keep v) = k) m ->
  table_of key (keep <$> (map_entries m).*2) = keep <$> m.
Proof.
  intros Hk. unfold table_of.
  assert ((fun v => (key v, v)) <$> (keep <$> (map_entries m).*2) =
          prod_map (fun k => k) keep <$> map_entries m) as Hl.
  { rewrite <- !list_fmap_compose. apply list_fmap_ext. intros i [k v] Hi. cbn.
    f_equal. apply Hk. apply elem_of_map_entries. by eapply list_elem_of_lookup_2. }
  rewrite foldl_insert.
  - rewrite (right_id_L ∅ (∪)). rewrite Hl. rewrite <- (list_to_map_entries m) at 2.
    by rewrite list_to_map_fmap.
  - assert (key <$> (keep <$> (map_entries m).*2) = (map_entries m).*1) as ->.
    { rewrite <- !list_fmap_compose. apply list_fmap_ext. intros i [k v] Hi. cbn. apply Hk.
      apply elem_of_map_entries. by eapply list_elem_of_lookup_2. }
    apply NoDup_map_entries.
Qed.

Lemma clocks_of_entries {V} (m : gmap N V) :
  foldl (fun m c => <[ c.1 := c.2 ]> m) ∅ (map_entries m) = m.
Proof.
  rewrite (foldl_insert fst snd) by apply NoDup_map_entries.
  rewrite (right_id_L ∅ (∪)).
  assert ((fun x : N * V => (x.1, x.2)) <$> map_entries m = map_entries m) as ->.
  { rewrite <- (list_fmap_id (map_entries m)) at 2. apply list_fmap_ext. by intros i []. }
  apply list_to_map_entries.
Qed.

#[export] Instance clock_codec : Codec write_clock read_clock (fun c => u64 c.1 /\ u64 c.2).
Proof.
  intros [g c] rest [Hg Hc]. unfold read_clock, write_clock. flat_ops. cbn [fst snd] in *.
  by repeat read_step.
Qed.

(** A whole table. *)
Lemma read_table {V B} (wr : V -> list WriteOp) rd wf keep `{!Restores wr rd wf keep}
  bound (k : list V -> Reader B) rest (m : gmap N V) :
  map_Forall (fun _ => wf) m -> map_size m <= bound -> u64 bound ->
  r_bind (read_counted bound rd) k (ops_bytes (write_table wr m) ++ rest) =
  k (keep <$> (map_entries m).*2) rest.
Proof.
  intros Hm Hb Hu. unfold write_table.
  assert (map_size m = N.of_nat (length (map_entries m).*2)) as Hs
    by (by unfold map_size; rewrite length_fmap, length_map_entries).
  rewrite Hs in *. apply (read_counted_restores wr rd wf keep); [|done|done].
  by apply Forall_entries.
Qed.

(** ** The image *)

(** The scheduler after the image of [im] was read into [im0]. *)
Definition image_state (im im0 : Impl) : Impl :=
  mkImpl (im_policy im) (policy_binding_of (im_policy im)) (im_epoch im)
    (kept_flow <$> im_flows im) (im_resources im) (im_reservations im) (im_priority_classes im)
    (im_qos_classes im) (im_virtual_time im)
    (im_waiting_index im0) (im_ready_index im0) (im_inflight_index im0)
    (kept_attempt <$> im_attempts im) (im_schedules im)
    (foldl (fun m c => let s := tk_schedule (at_ticket (snd c)) in
                       <[ s := default [] (m !! s) ++ [fst c] ]> m) ∅
       (map_entries (kept_attempt <$> im_attempts im)))
    (map_keys (im_schedules im))
    (im_next_attempt im) (im_next_schedule im) (im_next_schedule_generation im) (im_last_tick im)
    (im_provenance_sequence im0) (im_arbitration_rounds im) (im_schedules_issued im)
    (im_schedule_entries_issued im) (im_completion_reports im) (im_completions_applied im)
    (im_completions_duplicate im) (im_completions_rejected im) (im_deadline_misses im)
    (im_preemptions_issued im) (im_preemption_window_index im0) (im_preemptions_in_window im0)
    (im_reservations_retired im) (im_store im0) (im_recovery im0).

Definition restored (im im0 : Impl) : Impl := reindex_all (image_state im im0).

(** A state whose image can be read back: every value fits its type, every
    table holds its records under their identities, and the tables are within
    the bounds the reader insists on. *)
Record image_wf (im : Impl) : Prop := {
  iw_policy : wf_policy (im_policy im) /\ validate_policy (im_policy im) = Ok tt;
  iw_scalars : Forall u64 [im_epoch im; im_last_tick im; im_next_attempt im; im_next_schedule im;
    im_next_schedule_generation im; im_arbitration_rounds im; im_schedules_issued im;
    im_schedule_entries_issued im; im_completion_reports im; im_completions_applied im;
    im_completions_duplicate im; im_completions_rejected im; im_deadline_misses im;
    im_preemptions_issued im; im_reservations_retired im];
  iw_resources : map_Forall (fun k r => rd_resource (rr_descriptor r) = k /\
    wf_resource_runtime r) (im_resources im);
  iw_reservations : map_Forall (fun k v => rv_reservation (vr_descriptor v) = k /\
    wf_reservation_runtime v) (im_reservations im);
  iw_priority : map_Forall (fun k c => pc_priority c = k /\ wf_priority_class c)
    (im_priority_classes im);
  iw_qos : map_Forall (fun k c => qc_qos c = k /\ wf_qos_class c) (im_qos_classes im);
  iw_flows : map_Forall (fun k rt => fd_flow (fr_descriptor rt) = k /\ wf_flow_runtime rt)
    (im_flows im);
  iw_attempts : map_Forall (fun k a => tk_attempt (at_ticket a) = k /\ wf_attempt_runtime a)
    (im_attempts im);
  iw_schedules : map_Forall (fun k s => sc_schedule (sr_schedule s) = k /\ wf_schedule_runtime s)
    (im_schedules im);
  iw_clocks : map_Forall (fun k c => u64 k /\ u64 c) (im_virtual_time im);
  iw_bounds : map_size (im_resources im) <= po_max_resources (im_policy im) /\
    map_size (im_reservations im) <= po_max_reservations (im_policy im) /\
    map_size (im_priority_classes im) <= kMaxPriorityClasses /\
    map_size (im_qos_classes im) <= kMaxQoSClasses /\
    map_size (im_flows im) <= po_max_flows (im_policy im) /\
    map_size (im_attempts im) <= po_retained_schedule_history (im_policy im) + 1 /\
    map_size (im_schedules im) <= po_retained_schedule_history (im_policy im) + 1 /\
    map_size (im_virtual_time im) <= po_max_flows (im_policy im);
  iw_size : blen (ops_bytes (snapshot_ops im)) <= kMaxSnapshotPayload }.

(** Whether a state is such a state can be computed. *)
Ltac decide_wf := intros x; unfold Decision;
  match goal with |- {?P} + {_} => let Q := eval unfold wf_resource_runtime, wf_reservation_runtime,
    wf_flow_runtime, wf_flow_accounting, wf_attempt_runtime, wf_schedule_runtime, wf_resource,
    wf_reservation, wf_priority_class, wf_qos_class, wf_flow, wf_binding, wf_ticket, wf_schedule,
    wf_entry, wf_policy, wf_provenance, u64, u32 in P in change (Decision Q) end; apply _.

#[export] Instance wf_policy_dec x : Decision (wf_policy x).
Proof. revert x. decide_wf. Defined.
#[export] Instance wf_resource_runtime_dec x : Decision (wf_resource_runtime x).
Proof. revert x. decide_wf. Defined.
#[export] Instance wf_reservation_runtime_dec x : Decision (wf_reservation_runtime x).
Proof. revert x. decide_wf. Defined.
#[export] Instance wf_priority_class_dec x : Decision (wf_priority_class x).
Proof. revert x. decide_wf. Defined.
#[export] Instance wf_qos_class_dec x : Decision (wf_qos_class x).
Proof. revert x. decide_wf. Defined.
#[export] Instance wf_binding_dec x : Decision (wf_binding x).
Proof. revert x. decide_wf. Defined.
#[export] Instance wf_flow_runtime_dec x : Decision (wf_flow_runtime x).
Proof. revert x. decide_wf. Defined.
#[export] Instance wf_attempt_runtime_dec x : Decision (wf_attempt_runtime x).
Proof. revert x. decide_wf. Defined.
#[export] Instance wf_entry_dec x : Decision (wf_entry x).
Proof. revert x. decide_wf. Defined.
#[export] Instance wf_schedule_runtime_dec x : Decision (wf_schedule_runtime x).
Proof. revert x. decide_wf. Defined.

#[export] Hint Opaque wf_policy wf_resource_runtime wf_reservation_runtime wf_priority_class
  wf_qos_class wf_flow_runtime wf_attempt_runtime wf_schedule_runtime : typeclass_instances.

Lemma encode_state_bytes im :
  blen (ops_bytes (snapshot_ops im)) <= kMaxSnapshotPayload ->
  encode_state_snapshot im = ops_bytes (snapshot_ops im).
Proof.
  intros H. unfold encode_state_snapshot. cbv zeta. rewrite write_all_fits; [done|].
  split; [done|]. change (0 + blen (ops_bytes (snapshot_ops im)) <= kMaxSnapshotPayload). lia.
Qed.

Lemma keyed_wf {V} (key : V -> N) (wf : V -> Prop) (m : gmap N V) :
  map_Forall (fun k v => key v = k /\ wf v) m ->
  map_Forall (fun _ => wf) m /\ table_of key (map_entries m).*2 = m.
Proof.
  intros H. split; [intros k v Hv; by apply (H k v)|].
  pose proof (table_of_entries key (fun v => v) m) as Ht.
  rewrite list_fmap_id, map_fmap_id in Ht. apply Ht. intros k v Hv. by apply (H k v).
Qed.

Lemma read_image im im0 :
  image_wf im ->
  read_image_tail (apply_policy (im_policy im) (im0 <| im_epoch := im_epoch im |>))
    (ops_bytes ([WU64 (im_last_tick im)] ++
       write_table write_resource_runtime (im_resources im) ++
       write_table write_reservation_runtime (im_reservations im) ++
       write_table write_priority_class (im_priority_classes im) ++
       write_table write_qos_class (im_qos_classes im) ++
       write_table write_flow_runtime (im_flows im) ++
       write_table write_attempt_runtime (im_attempts im) ++
       write_table write_schedule_runtime (im_schedules im) ++
       (WU64 (map_size (im_virtual_time im)) :: (map_entries (im_virtual_time im) ≫= write_clock)) ++
       [WU64 (im_next_attempt im); WU64 (im_next_schedule im);
        WU64 (im_next_schedule_generation im); WU64 (im_arbitration_rounds im);
        WU64 (im_schedules_issued im); WU64 (im_schedule_entries_issued im);
        WU64 (im_completion_reports im); WU64 (im_completions_applied im);
        WU64 (im_completions_duplicate im); WU64 (im_completions_rejected im);
        WU64 (im_deadline_misses im); WU64 (im_preemptions_issued im);
        WU64 (im_reservations_retired im)])) =
  Ok (image_state im im0, []).
Proof.
  intros [[Hp Hpv] Hs Hr Hv Hpc Hq Hf Ha Hsc Hc (B1 & B2 & B3 & B4 & B5 & B6 & B7 & B8) _].
  unfold wf_policy in Hp. wf_destruct.
  assert ((fun s => sc_schedule (sr_schedule s)) <$> (map_entries (im_schedules im)).*2 =
          map_keys (im_schedules im)) as Ho.
  { rewrite <- map_entries_keys, <- list_fmap_compose. apply list_fmap_ext. intros i [k v] Hi.
    apply Hsc, elem_of_map_entries. by eapply list_elem_of_lookup_2. }
  apply keyed_wf in Hr as [Hr Er], Hv as [Hv Ev], Hpc as [Hpc Epc], Hq as [Hq Eq], Hsc as [Hsc Esc].
  assert (map_Forall (fun _ => wf_flow_runtime) (im_flows im)) as Hf' by (intros k v Hk; by apply (Hf k v)).
  assert (map_Forall (fun _ => wf_attempt_runtime) (im_attempts im)) as Ha' by (intros k v Hk; by apply (Ha k v)).
  unfold read_image_tail. cbv zeta. rewrite !ops_bytes_app.
  change (im_policy (apply_policy (im_policy im) (im0 <| im_epoch := im_epoch im |>))) with (im_policy im).
  rewrite ops_bytes_cons, <- app_assoc. cbn [op_bytes]. read_step. rewrite ops_bytes_nil_app.
  assert (forall x, u32 x -> u64 x) as Hu by (unfold u32, u64, u32_mod, u64_max; lia).
  rewrite (read_table _ _ wf_resource_runtime (fun a => a)) by auto.
  rewrite (read_table _ _ wf_reservation_runtime (fun a => a)) by auto.
  rewrite (read_table _ _ wf_priority_class (fun a => a)) by done.
  rewrite (read_table _ _ wf_qos_class (fun a => a)) by done.
  rewrite (read_table _ _ wf_flow_runtime kept_flow) by auto.
  assert (u64 (po_retained_schedule_history (im_policy im) + 1)) as Hh
    by (unfold u32, u64, u32_mod, u64_max in *; lia).
  rewrite (read_table _ _ wf_attempt_runtime kept_attempt) by done.
  rewrite (read_table _ _ wf_schedule_runtime (fun a => a)) by done.
  assert (map_size (im_virtual_time im) = N.of_nat (length (map_entries (im_virtual_time im)))) as Hvt
    by (by unfold map_size; rewrite length_map_entries).
  rewrite Hvt in *.
  rewrite (read_counted_restores write_clock _ (fun c => u64 c.1 /\ u64 c.2) (fun a => a)); [|..].
  2:{ apply Forall_forall. intros [k c] Hkc. apply elem_of_map_entries in Hkc. by apply (Hc k c). }
  2:{ done. }
  2:{ auto. }
  rewrite !ops_bytes_cons. cbn [op_bytes]. repeat read_step.
  rewrite !list_fmap_id, Er, Ev, Epc, Eq, Esc, Ho, clocks_of_entries.
  rewrite (table_of_entries _ kept_flow) by (intros k v Hk; by apply (Hf k v)).
  rewrite (table_of_entries _ kept_attempt) by (intros k v Hk; by apply (Ha k v)).
  reflexivity.
Qed.

Lemma r_u16_read v rest : v < u16_mod -> r_u16 (encode_u16_le v ++ rest) = Ok (v, rest).
Proof.
  intros Hv. pose proof (r_u16_op r_ret rest v Hv) as H. unfold r_bind, r_ret in H.
  by destruct (r_u16 _) as [[a r]|].
Qed.

(** The start of the image: its format, the epoch and the policy. *)
Lemma parse_image_head im im0 :
  wf_policy (im_policy im) -> validate_policy (im_policy im) = Ok tt -> u64 (im_epoch im) ->
  blen (ops_bytes (snapshot_ops im)) <= kMaxSnapshotPayload ->
  parse_state_image im0 (encode_state_snapshot im) =
  let? (im1, rest) := read_image_tail (apply_policy (im_policy im) (im0 <| im_epoch := im_epoch im |>))
                        (ops_bytes (drop (2 + length (write_policy (im_policy im))) (snapshot_ops im))) in
  match rest with _ :: _ => Err CorruptData | [] => Ok (reindex_all im1) end.
Proof.
  intros Hp Hv He Hb. rewrite encode_state_bytes by done. unfold snapshot_ops, parse_state_image.
  rewrite (drop_app_add' [_; _]), (drop_app_length' (write_policy (im_policy im))) by done.
  rewrite (ops_bytes_app [_; _]), ops_bytes_app, !ops_bytes_cons. cbn [op_bytes].
  rewrite <- !app_assoc, ops_bytes_nil_app. rewrite r_u16_read by done. cbn [result_bind].
  rewrite N.eqb_refl. cbn [negb].
  match goal with |- context [read_image_head (_ ++ _ ++ ?rest)] =>
    assert (read_image_head (encode_u64_le (im_epoch im) ++ ops_bytes (write_policy (im_policy im)) ++ rest)
            = Ok ((im_epoch im, im_policy im), rest)) as -> end.
  { unfold read_image_head. read_step. by rewrite (r_codec_op _ _ wf_policy). }
  cbn [result_bind]. by rewrite Hv.
Qed.

(** The image of a state that fits is read back into that state. *)
Lemma parse_encoded im im0 :
  image_wf im -> parse_state_image im0 (encode_state_snapshot im) = Ok (restored im im0).
Proof.
  intros Hw. pose proof (iw_policy _ Hw) as [Hp Hv].
  rewrite parse_image_head; [|done|done|apply (Forall_inv (iw_scalars _ Hw))|apply Hw].
  unfold snapshot_ops. rewrite (drop_app_add' [_; _]), (drop_app_length' (write_policy _)) by done.
  by rewrite read_image.
Qed.

(** ** A state with too many attempts *)

(** A state that fits but for its attempts: more of them than the reader admits. *)
Record crowded (im : Impl) : Prop := {
  cw_policy : wf_policy (im_policy im) /\ validate_policy (im_policy im) = Ok tt;
  cw_scalars : u64 (im_epoch im) /\ u64 (im_last_tick im);
  cw_resources : map_Forall (fun _ => wf_resource_runtime) (im_resources im);
  cw_reservations : map_Forall (fun _ => wf_reservation_runtime) (im_reservations im);
  cw_priority : map_Forall (fun _ => wf_priority_class) (im_priority_classes im);
  cw_qos : map_Forall (fun _ => wf_qos_class) (im_qos_classes im);
  cw_flows : map_Forall (fun _ => wf_flow_runtime) (im_flows im);
  cw_bounds : map_size (im_resources im) <= po_max_resources (im_policy im) /\
    map_size (im_reservations im) <= po_max_reservations (im_policy im) /\
    map_size (im_priority_classes im) <= kMaxPriorityClasses /\
    map_size (im_qos_classes im) <= kMaxQoSClasses /\
    map_size (im_flows im) <= po_max_flows (im_policy im);
  cw_attempts : po_retained_schedule_history (im_policy im) + 1 < map_size (im_attempts im) <= u64_max;
  cw_size : blen (ops_bytes (snapshot_ops im)) <= kMaxSnapshotPayload }.

Lemma read_table_over {V B} (wr : V -> list WriteOp) rd bound (k : list V -> Reader B) rest (m : gmap N V) :
  bound < map_size m <= u64_max ->
  r_bind (read_counted bound rd) k (ops_bytes (write_table wr m) ++ rest) = Err CorruptData.
Proof.
  intros [Hb Hu]. unfold write_table, read_counted. rewrite ops_bytes_cons. cbn [op_bytes].
  rewrite <- app_assoc. unfold r_bind at 1. rewrite r_u64_op by done.
  by rewrite (proj2 (N.ltb_lt _ _)).
Qed.

Lemma parse_crowded im im0 :
  crowded im -> parse_state_image im0 (encode_state_snapshot im) = Err CorruptData.
Proof.
  intros [[Hp Hv] [He Hl] Hr Hrv Hpc Hq Hf (B1 & B2 & B3 & B4 & B5) Ha Hsz].
  rewrite parse_image_head by done. unfold snapshot_ops.
  rewrite (drop_app_add' [_; _]), (drop_app_length' (write_policy _)) by done.
  unfold wf_policy in Hp. wf_destruct. unfold read_image_tail. cbv zeta. rewrite !ops_bytes_app.
  change (im_policy (apply_policy (im_policy im) (im0 <| im_epoch := im_epoch im |>))) with (im_policy im).
  rewrite ops_bytes_cons, <- app_assoc. cbn [op_bytes]. rewrite r_u64_op by done.
  rewrite ops_bytes_nil_app.
  assert (forall x, u32 x -> u64 x) as Hu by (unfold u32, u64, u32_mod, u64_max; lia).
  rewrite (read_table _ _ wf_resource_runtime (fun a => a)) by auto.
  rewrite (read_table _ _ wf_reservation_runtime (fun a => a)) by auto.
  rewrite (read_table _ _ wf_priority_class (fun a => a)) by done.
  rewrite (read_table _ _ wf_qos_class (fun a => a)) by done.
  rewrite (read_table _ _ wf_flow_runtime kept_flow) by auto.
  by rewrite read_table_over.
Qed.

(** ** The store *)

Lemma io_call_quiet ds : ds_io ds = [] -> io_call ds = (ds, Ok tt).
Proof. intros H. unfold io_call, bind, io_event. by rewrite H. Qed.

Lemma flush_quiet ds : ds_io ds = [] -> flush_to_stable_storage ds = (ds, Ok tt).
Proof.
  intros H. unfold flush_to_stable_storage. by rewrite (bind_run _ _ _ _ _ (io_call_quiet _ H)), io_call_quiet.
Qed.

Lemma write_snapshot_ok image ds :
  ds_io ds = [] -> blen image <= kMaxSnapshotPayload ->
  write_snapshot image ds =
    (ds <| ds_snapshot_temp := Some [] |> <| ds_snapshot_temp := Some (build_snapshot_blob image) |>
        <| ds_snapshot := Some (build_snapshot_blob image) |> <| ds_snapshot_temp := None |>, Ok tt).
Proof.
  intros Hio Hb. unfold write_snapshot. unfold guard. rewrite (proj2 (N.ltb_ge _ _)) by done.
  erewrite bind_run by reflexivity. cbv zeta.
  rewrite (bind_run _ _ _ _ _ (io_call_quiet _ Hio)). erewrite bind_run by reflexivity.
  unfold bind at 1, io_write, bind at 1, io_event, modify. upd_simpl. rewrite Hio.
  rewrite flush_quiet by done. by rewrite io_call_quiet.
Qed.

Lemma compact_ok image ds :
  ds_io ds = [] -> blen image <= kMaxSnapshotPayload ->
  exists ds', compact image ds = (ds', Ok tt) /\ ds_journal ds' = [] /\
    ds_snapshot ds' = Some (build_snapshot_blob image).
Proof.
  intros Hio Hb. unfold compact.
  rewrite (bind_run _ _ _ _ _ (write_snapshot_ok image ds Hio Hb)).
  set (ds1 := upd _ _ _). assert (ds_io ds1 = []) as Hio1 by done.
  assert (ds_snapshot ds1 = Some (build_snapshot_blob image)) as Hs1 by done. clearbody ds1.
  assert (truncate_file 0 ds1 = (ds1 <| ds_journal := [] |>, Ok tt)) as Ht.
  { unfold truncate_file. do 2 rewrite (bind_run _ _ _ _ _ (io_call_quiet _ Hio1)). reflexivity. }
  rewrite (bind_run _ _ _ _ _ Ht).
  erewrite bind_run by by apply flush_quiet. erewrite bind_run by by apply io_call_quiet.
  eexists. split; [reflexivity|]. by split.
Qed.

(** A snapshot that [write_snapshot] completed is read back. *)
Lemma read_snapshot_ok image ds :
  ds_io ds = [] -> blen image <= kMaxSnapshotPayload ->
  ds_snapshot ds = Some (build_snapshot_blob image) -> read_snapshot ds = (ds, Ok image).
Proof.
  intros Hio Hb Hs. unfold read_snapshot. erewrite bind_run by reflexivity. rewrite Hs.
  rewrite (bind_run _ _ _ _ _ (io_call_quiet _ Hio)).
  assert (blen (build_snapshot_blob image) = kSnapshotHeaderBytes + blen image) as Hl.
  { unfold build_snapshot_blob. cbv zeta. rewrite !blen_app. unfold encode_u32_le, encode_u16_le, blen.
    rewrite !length_encode_le. unfold kSnapshotHeaderBytes. lia. }
  unfold guard. rewrite Hl, (proj2 (N.ltb_ge _ _)), (proj2 (N.ltb_ge _ _)) by lia. cbn [orb].
  erewrite bind_run by reflexivity. rewrite (bind_run _ _ _ _ _ (io_call_quiet _ Hio)).
  unfold lift. by rewrite parse_build_snapshot.
Qed.

(** ** Reopening *)

Lemma account_restored im im0 : account (restored im im0) = account im.
Proof.
  unfold restored, account. rewrite (view_flows _ _ _ (reindex_flows _)). unfold view, image_state.
  cbn [im_flows]. rewrite <- map_fmap_compose. by apply map_fmap_ext.
Qed.

Lemma recovery_twice f r im : im <| im_recovery ::= f |> <| im_recovery := r |> = im <| im_recovery := r |>.
Proof. by destruct im. Qed.

(** The whole of [recover] over the image of [im] and some log. *)
Lemma recover_image p ds im log torn :
  store_rep ds log torn -> ds_io ds = [] ->
  ds_snapshot ds = Some (build_snapshot_blob (encode_state_snapshot im)) -> image_wf im ->
  exists f, match visit_all apply_record (log_views 1 log)
                    ((restored im (booted p ds)) <| im_recovery ::= f |>) with
  | (_, Err e) => outcome recover (booted p ds) = Err e
  | (im1, Ok _) => exists ds' r,
      recover (booted p ds) = fence_recovered (im1 <| im_recovery := r |> <| im_store := Some ds' |>) /\
      store_rep ds' log [] /\ ds_io ds' = []
  end.
Proof.
  intros Hrep Hio Hs Hw.
  assert (blen (encode_state_snapshot im) <= kMaxSnapshotPayload) as Hb.
  { rewrite encode_state_bytes; apply Hw. }
  set (im1 := restored im (booted p ds)).
  assert (im_store im1 = Some ds) as Hst by (unfold im1, restored; by rewrite (blind_reindex im_store)).
  assert (exists f, load_snapshot (booted p ds) = (im1 <| im_recovery ::= f |>, Ok true)) as [f Hl].
  { unfold load_snapshot, on_store. change (im_store (booted p ds)) with (Some ds). cbv iota.
    rewrite (read_snapshot_ok _ _ Hio Hb Hs). cbv iota.
    change ((booted p ds) <| im_store := Some ds |>) with (booted p ds).
    unfold apply_state_snapshot, bind, modify, ret. rewrite (parse_encoded im _ Hw). fold im1.
    clearbody im1. unfold note_restored. by eexists (fun r => _). }
  exists f. set (im2 := im1 <| im_recovery ::= f |>) in *.
  assert (im_store im2 = Some ds) as Hst2 by exact Hst.
  unfold outcome, recover. rewrite (bind_run _ _ _ _ _ Hl). clearbody im2. clear Hl.
  destruct (visit_all apply_record (log_views 1 log) im2) as [im3 [[]|e]] eqn:Hv.
  - destruct (replay_visits_log apply_record ds log torn im2 im3) as (ds' & Hr & Hrep' & Hio'); try done.
    exists ds'. rewrite (bind_run _ _ _ _ _ (replay_journal_run im2 ds ds' im3 _ Hst2 Hr)).
    erewrite bind_run by reflexivity. erewrite bind_run by reflexivity.
    edestruct note_shape as [r Hn]. exists r. by rewrite Hn.
  - destruct (replay_refused apply_record ds log torn im2 im3 e) as [ds' Hr]; try done.
    assert (replay_journal im2 = (im3 <| im_store := Some ds' |>, Err e)) as Hj.
    { unfold replay_journal. by rewrite Hst2, Hr. }
    by rewrite (bind_fail _ _ _ _ _ Hj).
Qed.

(** With an empty journal. *)
Lemma recover_checkpoint p ds im :
  store_rep ds [] [] -> ds_io ds = [] ->
  ds_snapshot ds = Some (build_snapshot_blob (encode_state_snapshot im)) -> image_wf im ->
  exists ds' r, recover (booted p ds) =
    fence_recovered ((restored im (booted p ds)) <| im_recovery := r |> <| im_store := Some ds' |>) /\
    store_rep ds' [] [] /\ ds_io ds' = [].
Proof.
  intros Hrep Hio Hs Hw. destruct (recover_image p ds im [] [] Hrep Hio Hs Hw) as (f & H).
  cbn [log_views visit_all] in H. unfold ret in H. destruct H as (ds' & r & H & Hrest).
  exists ds', r. by rewrite recovery_twice in H.
Qed.

Lemma advanced_epoch next now im : im_epoch (apply_epoch_advance next now im) = next.
Proof. reflexivity. Qed.

(** A checkpoint whose image fits is written and empties the journal. *)
Lemma checkpoint_written im ds :
  blen (ops_bytes (snapshot_ops im)) <= kMaxSnapshotPayload ->
  im_store im = Some ds -> ds_io ds = [] ->
  exists ds', checkpoint im = (im <| im_store := Some ds' |>, Ok tt) /\ ds_journal ds' = [] /\
    ds_snapshot ds' = Some (build_snapshot_blob (encode_state_snapshot im)).
Proof.
  intros Hb Hs Hio. pose proof (encode_state_bytes im Hb) as Henc.
  assert (blen (encode_state_snapshot im) <= kMaxSnapshotPayload) as Hb' by (by rewrite Henc).
  destruct (compact_ok (encode_state_snapshot im) ds Hio Hb') as (ds' & Hc & Hj & Hsn).
  exists ds'. split_and!; [|done|done]. unfold checkpoint, on_store. rewrite Hs.
  destruct (encode_state_snapshot im) as [|b image]; [|by rewrite Hc].
  apply (f_equal length) in Henc. unfold snapshot_ops in Henc.
  rewrite ops_bytes_app, ops_bytes_cons, !length_app in Henc. by cbn in Henc.
Qed.

(** C13 A checkpoint that fits is written, empties the journal, and can
    be reopened: the new scheduler has the accounts of the one that wrote it, in
    the next epoch. *)
Theorem checkpoint_reopens (p : SchedulingPolicy) (flush : bool) (im : Impl) (ds : DurableStore)
  (Hp : validate_policy p = Ok tt) (Hw : image_wf im) (He : im_epoch im < u64_max)
  (Hs : im_store im = Some ds) (Hio : ds_io ds = []) :
  exists ds', checkpoint im = (im <| im_store := Some ds' |>, Ok tt) /\ ds_journal ds' = [] /\
    exists im', create_durable p (ds_journal ds') (ds_snapshot ds') flush [] = Ok im' /\
      account im' = account im /\ im_epoch im' = im_epoch im + 1.
Proof.
  destruct (checkpoint_written im ds (iw_size _ Hw) Hs Hio) as (ds' & Hc & Hj & Hsn).
  exists ds'. split_and!; [done|done|].
  unfold create_durable. rewrite Hp, Hj, Hsn. cbn [result_bind].
  pose proof (open_prefix [] 0 (Some (build_snapshot_blob (encode_state_snapshot im))) flush []) as Ho.
  cbn [encode_log take surviving] in Ho.
  destruct (open [] _ flush []) as [ds2|e] eqn:E; [|by destruct Ho as [_ []]].
  destruct Ho as (torn & Hrep & _ & Hsn2 & _); [done|]. cbn [result_bind].
  pose proof (open_io _ _ _ _ E) as Hio2.
  assert (torn = []) as ->.
  { pose proof (open_files _ _ _ _ _ E) as Hf. unfold files in Hf. injection Hf as Hf _.
    pose proof (rep_journal _ _ _ Hrep) as Hr. rewrite Hf in Hr. by destruct torn. }
  change ((initial_impl p) <| im_store := Some ds2 |>) with (booted p ds2).
  destruct (recover_checkpoint p ds2 im Hrep Hio2 Hsn2 Hw) as (ds3 & r & -> & Hrep3 & Hio3).
  remember ((restored im (booted p ds2)) <| im_recovery := r |> <| im_store := Some ds3 |>) as im2.
  assert (im_epoch im2 = im_epoch im) as He2.
  { subst im2. change (im_epoch (restored im (booted p ds2)) = im_epoch im).
    unfold restored. by rewrite (blind_reindex im_epoch). }
  assert (account im2 = account im) as Ha2.
  { rewrite <- (account_restored im (booted p ds2)). subst im2. by apply view_flows. }
  pose proof (fence_recovered_rep im2 [] ds3) as Hf. specialize (Hf ltac:(by subst im2) Hrep3 Hio3).
  rewrite He2 in Hf. clear Heqim2.
  rewrite (advance_lt _ He) in Hf. destruct Hf as (ds4 & f & -> & _ & _); [done|].
  eexists. split; [reflexivity|]. split; [|done].
  rewrite account_recovery, (proj1 (account_epoch _ _ _)). rewrite <- Ha2. by apply view_flows.
Qed.

(** ** A crowded checkpoint *)

(** C36 A checkpoint of a scheduler with more dispatch attempts than the
    policy's [retained_schedule_history] plus one succeeds and empties the
    journal, but its snapshot is refused as corrupt by every later start: nothing
    that was durable can be recovered.  (The bound is on schedules; a schedule may
    have many attempts.) *)
Theorem crowded_checkpoint_lost (p : SchedulingPolicy) (flush : bool) (im : Impl)
  (ds : DurableStore) (Hp : validate_policy p = Ok tt) (Hw : crowded im)
  (Hs : im_store im = Some ds) (Hio : ds_io ds = []) :
  exists ds', checkpoint im = (im <| im_store := Some ds' |>, Ok tt) /\ ds_journal ds' = [] /\
    create_durable p (ds_journal ds') (ds_snapshot ds') flush [] = Err CorruptData.
Proof.
  destruct (checkpoint_written im ds (cw_size _ Hw) Hs Hio) as (ds' & Hc & Hj & Hsn).
  exists ds'. split_and!; [done|done|]. unfold create_durable. rewrite Hp, Hj, Hsn. cbn [result_bind].
  pose proof (open_prefix [] 0 (Some (build_snapshot_blob (encode_state_snapshot im))) flush []) as Ho.
  cbn [encode_log take surviving] in Ho.
  destruct (open [] _ flush []) as [ds2|e] eqn:E; [|by destruct Ho as [_ []]].
  destruct Ho as (torn & Hrep & _ & Hsn2 & _); [done|]. cbn [result_bind].
  change ((initial_impl p) <| im_store := Some ds2 |>) with (booted p ds2).
  assert (blen (encode_state_snapshot im) <= kMaxSnapshotPayload) as Hb.
  { rewrite encode_state_bytes; apply Hw. }
  assert (exists im', load_snapshot (booted p ds2) = (im', Err CorruptData)) as [im' Hl].
  { unfold load_snapshot, on_store. change (im_store (booted p ds2)) with (Some ds2). cbv iota.
    rewrite (read_snapshot_ok _ _ (open_io _ _ _ _ E) Hb Hsn2). cbv iota.
    unfold apply_state_snapshot, bind. rewrite (parse_crowded im _ Hw). by eexists. }
  unfold recover. by rewrite (bind_fail _ _ _ _ _ Hl).
Qed.

(** Nine rounds over three long flows, two dispatches each, every one of them
    completed: eighteen attempts in a scheduler that retains sixteen schedules. *)
Definition long_flow (id : FlowId) : FlowDescriptor := (Demo.flow id) <| fd_estimated_work := 100000 |>.
Definition long_calls : list Call :=
  take 4 demo_calls ++ [CAdmitFlow (long_flow 1); CAdmitFlow (long_flow 2); CAdmitFlow (long_flow 3)].

Definition serve_ticket (schedule ordinal now : N) (im : Impl) : Impl :=
  match outcome (begin_dispatch schedule schedule ordinal 7 9 now) im with
  | Ok t =>
      run (CComplete (mkCompletionEvidence schedule schedule (tk_attempt t) 1 (tk_flow t) 1 7 9 CServed
                        (tk_quantum t) 0 0 now Demo.provenance) now)
        (run (CBeginDispatch schedule schedule ordinal 7 9 now) im)
  | Err _ => im
  end.

Definition long_round (im : Impl) (schedule : N) : Impl :=
  let now := 1000 * schedule in
  serve_ticket schedule 1 now (serve_ticket schedule 0 now (run (CArbitrate now) im)).

Definition long_served : Impl :=
  foldl long_round (run_all long_calls durable_start) [1; 2; 3; 4; 5; 6; 7; 8; 9].

#[export] Hint Opaque long_served : typeclass_instances.

Lemma long_served_crowded : crowded long_served.
Proof.
  split; try (apply (bool_decide_unpack _); vm_compute; exact I).
  split; [apply (bool_decide_unpack _); vm_compute; exact I | vm_compute; reflexivity].
Qed.

Lemma long_served_reachable : reachable long_served.
Proof.
  assert (forall s o now im, reachable im -> reachable (serve_ticket s o now im)) as Ht.
  { intros s o now im H. unfold serve_ticket. case_match; [by repeat apply reach_call | done]. }
  unfold long_served. apply foldl_inv; [|intros im s _ H; by apply Ht, Ht, reach_call].
  apply reachable_run_all, (reach_fresh Demo.policy true []). vm_compute. reflexivity.
Qed.

Lemma crowded_checkpoint_lost_witness :
  reachable long_served /\
  exists ds', checkpoint long_served = (long_served <| im_store := Some ds' |>, Ok tt) /\
    ds_journal ds' = [] /\
    create_durable Demo.policy (ds_journal ds') (ds_snapshot ds') true [] = Err CorruptData.
Proof.
  split; [exact long_served_reachable|].
  assert (exists ds, im_store long_served = Some ds /\ ds_io ds = []) as (ds & Hs & Hio).
  { eexists. split; vm_compute; reflexivity. }
  exact (crowded_checkpoint_lost Demo.policy true long_served ds eq_refl long_served_crowded Hs Hio).
Defined.

(** ** An interrupted checkpoint *)



(** The fixture: three flows admitted and checkpointed, then flow 1 is served. *)
Definition checkpointed : Impl := exec checkpoint (run_all (take 7 demo_calls) durable_start).
Definition served_once : Impl := run_all (drop 7 demo_calls) checkpointed.


#[export] Hint Opaque served_once : typeclass_instances.

Lemma served_once_image : image_wf served_once.
Proof.
  split; try (apply (bool_decide_unpack _); vm_compute; exact I).
  split; [apply (bool_decide_unpack _); vm_compute; exact I | vm_compute; reflexivity].
Qed.

Lemma checkpoint_reopens_witness :
  exists ds', checkpoint served_once = (served_once <| im_store := Some ds' |>, Ok tt) /\
    exists im', create_durable Demo.policy (ds_journal ds') (ds_snapshot ds') true [] = Ok im' /\
      account im' = account served_once /\ im_epoch im' = im_epoch served_once + 1.
Proof.
  assert (exists ds, im_store served_once = Some ds /\ ds_io ds = []) as (ds & Hs & Hio).
  { eexists. split; vm_compute; reflexivity. }
  destruct (checkpoint_reopens Demo.policy true served_once ds eq_refl served_once_image)
    as (ds' & Hc & _ & H); [vm_compute; reflexivity | exact Hs | exact Hio |].
  exists ds'. split; [exact Hc | exact H].
Defined.








(** C21 Reading the image of a state that fits gives back that state, without
    the parts the image leaves out: the tables under their identities, the
    counters, the epoch and the policy, with the indexes rebuilt. *)
Theorem state_image_roundtrip (im im0 : Impl) (Hw : image_wf im) :
  apply_state_snapshot (encode_state_snapshot im) im0 = (note_restored (restored im im0), Ok tt) /\
  flows_wf (restored im im0) /\ account (restored im im0) = account im.
Proof.
  unfold apply_state_snapshot. rewrite (parse_encoded im im0 Hw). split_and!; [done| |apply account_restored].
  apply flows_wf_reindex. cbn [image_state im_flows]. intros id rt.
  rewrite lookup_fmap_Some. intros (rt' & <- & Hrt). by apply (iw_flows _ Hw id rt').
Qed.

Lemma state_image_roundtrip_witness :
  outcome (apply_state_snapshot (encode_state_snapshot served_once)) Demo.start = Ok tt /\
  flows_wf (restored served_once Demo.start).
Proof.
  destruct (state_image_roundtrip served_once Demo.start served_once_image) as (H1 & H2 & _).
  split; [|exact H2]. unfold outcome. rewrite H1. reflexivity.
Defined.
