(* ===== verification/Inspection.v ===== *)
(** * What the inspector does to a directory, and what it says of it

    Theorems about Inspect.v over the durable store of Journal.v. *)

From S2P Require Import Prelude Checked Bytes Hash Model Schedule Codec Journal State Transitions.
From S2P Require Import Arbitrate Operations Observe Inspect Invariants Ledger Replay Checkpoint.

(** ** Reading only *)

Lemma read_snapshot_files ds : files_of (exec read_snapshot ds) = files_of ds.
Proof.
  change ((fun ds' => files_of ds' = files_of ds) (exec read_snapshot ds)).
  apply wp_exec. unfold read_snapshot. do 2 wp_step.
  destruct (ds_snapshot ds); [|by wp_step].
  wp_step. apply wp_io_call_files; [|done]. intros ds1 H1. wp_step. wp_step.
  destruct (_ || _); [done|]. wp_step. apply wp_io_call_files; [|by intros; etrans].
  intros ds2 H2. wp_step. destruct (parse_snapshot _); by etrans.
Qed.

Lemma replay_files {S} (visitor : JournalRecordView -> M ErrorCode S unit) ds s :
  files_of (replay false visitor ds s).1.1 = files_of ds.
Proof.
  unfold replay. pose proof (io_call_files ds) as H1. unfold exec in H1.
  destruct (io_call ds) as [ds1 [[]|e]]; cbn [fst] in H1; [|done].
  destruct (scan_bytes _ _ _ _) as [s1 outcome]. destruct (so_status outcome); [|done].
  rewrite andb_false_r. unfold bind, ret. pose proof (io_call_files ds1) as H2. unfold exec in H2.
  destruct (io_call ds1) as [ds2 [[]|e]]; cbn in *; congruence.
Qed.

(** ** Files of a directory *)

Lemma file_data_set name data entries : file_data name (set_file name data entries) = Some data.
Proof.
  induction entries as [|f entries IH]; cbn [set_file file_data].
  - cbn [de_regular de_name de_data andb]. by rewrite String.eqb_refl.
  - destruct (de_regular f && String.eqb (de_name f) name) eqn:E; cbn [file_data].
    + apply andb_true_iff in E as [_ E]. cbn [de_regular de_name de_data andb]. by rewrite E.
    + by rewrite E.
Qed.

Lemma file_data_set_other name name' data entries :
  name <> name' -> file_data name (set_file name' data entries) = file_data name entries.
Proof.
  intros Hn. induction entries as [|f entries IH]; cbn [set_file file_data].
  - cbn [de_regular de_name andb]. destruct (String.eqb_spec name' name); congruence.
  - destruct (de_regular f && String.eqb (de_name f) name') eqn:E; cbn [file_data]; [|by rewrite IH].
    apply andb_true_iff in E as [_ E%String.eqb_eq]. cbn [de_regular de_name]. rewrite E.
    destruct (String.eqb_spec name' name); [congruence|]. by rewrite !andb_false_r.
Qed.

Lemma set_file_same name data entries :
  file_data name entries = Some data -> set_file name data entries = entries.
Proof.
  induction entries as [|f entries IH]; cbn [set_file file_data]; [done|].
  destruct (de_regular f && _) eqn:E; intros H.
  - apply andb_true_iff in E as [E _]. injection H as <-. destruct f. cbn in *. by subst.
  - by rewrite IH.
Qed.

Lemma set_file_new name data entries :
  file_data name entries = None ->
  set_file name data entries = entries ++ [mkDirEntry name true true true data].
Proof.
  induction entries as [|f entries IH]; cbn [set_file file_data app]; [done|].
  destruct (de_regular f && _); [done|]. intros H. by rewrite IH.
Qed.

Lemma store_directory_journal entries ds :
  file_data kJournalFileName (store_directory entries ds) = Some (ds_journal ds).
Proof.
  unfold store_directory. destruct (ds_snapshot ds), (ds_snapshot_temp ds);
    rewrite ?file_data_set_other by done; apply file_data_set.
Qed.

(** A store whose files are those of the directory. *)
Lemma store_directory_same entries ds :
  file_data kJournalFileName entries = Some (ds_journal ds) ->
  file_data kSnapshotFileName entries = ds_snapshot ds -> ds_snapshot_temp ds = None ->
  store_directory entries ds = entries.
Proof.
  intros Hj Hs Ht. unfold store_directory. rewrite Ht, set_file_same by done.
  destruct (ds_snapshot ds); [|done]. by apply set_file_same.
Qed.

(** The directory once [open_file] has made sure the journal exists. *)
Definition with_journal (entries : list DirEntry) : list DirEntry :=
  set_file kJournalFileName (default [] (file_data kJournalFileName entries)) entries.

Lemma with_journal_cases entries :
  with_journal entries = entries \/
  file_data kJournalFileName entries = None /\
  with_journal entries = entries ++ [mkDirEntry kJournalFileName true true true []].
Proof.
  unfold with_journal. destruct (file_data kJournalFileName entries) as [j|] eqn:E.
  - left. by apply set_file_same.
  - right. split; [done|]. by apply set_file_new.
Qed.

(** What the store holds after opening it on the directory. *)
Definition opened_on (entries : list DirEntry) (ds : DurableStore) : Prop :=
  files_of ds = (default [] (file_data kJournalFileName entries),
    file_data kSnapshotFileName entries, None).

Lemma opened_on_directory entries ds :
  opened_on entries ds ->
  store_directory entries ds = with_journal entries /\
  store_directory (with_journal entries) ds = with_journal entries.
Proof.
  intros [= Hj Hs Ht].
  assert (store_directory (with_journal entries) ds = with_journal entries) as H.
  { apply store_directory_same; [|rewrite Hs|done]; unfold with_journal.
    - by rewrite file_data_set, Hj.
    - by rewrite file_data_set_other. }
  split; [|done]. unfold store_directory in *. rewrite Ht in *. rewrite Hj.
  fold (with_journal entries). destruct (ds_snapshot ds) as [d|] eqn:E; [|done].
  apply set_file_same. unfold with_journal. by rewrite file_data_set_other.
Qed.

Lemma open_directory_files entries io :
  let opened := open (default [] (file_data kJournalFileName entries))
                  (file_data kSnapshotFileName entries) true io in
  match open_directory entries io with
  | (after, Ok ds) => after = with_journal entries /\ opened_on entries ds /\ opened = Ok ds
  | (after, Err e) => (after = entries \/ after = with_journal entries) /\ opened = Err e
  end.
Proof.
  unfold open_directory, open, bind, opened_on. set (ds0 := closed_store _ _ _ _).
  pose proof (open_file_files ds0) as H1. unfold exec in H1.
  destruct (open_file ds0) as [ds1 [[]|e]]; [|by split; [left|]].
  pose proof (open_scan_files ds1) as H2. unfold exec in H2.
  destruct (open_scan ds1) as [ds2 [[]|e]]; cbn [fst] in *.
  - assert (opened_on entries ds2) as Ho by (by etrans; [exact H2|]).
    split_and!; [|done|done]. by apply opened_on_directory.
  - split; [right|done]. apply opened_on_directory. by etrans; [exact H2|].
Qed.

(** The journal of a directory is among its files. *)
Lemma classify_file name entries files data :
  classify entries = Some files -> file_data name entries = Some data ->
  exists f, f ∈ files /\ df_size f = blen data /\
    (4 <= blen data -> df_magic f = decode_u32_le (take 4 data)).
Proof.
  revert files. induction entries as [|f entries IH]; intros files; cbn [classify file_data]; [done|].
  destruct (de_regular f); cbn [negb andb]; [|apply IH].
  destruct (magic_of f) as [magic|] eqn:Hm; [|done]. cbn.
  destruct (classify entries) as [rest|]; [|done]. cbn. intros [= <-].
  destruct (String.eqb (de_name f) name).
  - intros [= <-]. eexists. split; [apply list_elem_of_here|]. cbn [df_size df_magic]. split; [done|].
    intros H. unfold magic_of in Hm. destruct (de_sized f); [|done].
    rewrite (proj2 (N.ltb_ge _ _)) in Hm by done. destruct (de_readable f); [|done].
    by injection Hm as <-.
  - intros H. destruct (IH rest eq_refl H) as (g & Hg & Hrest). exists g.
    split; [by apply list_elem_of_further | done].
Qed.

Lemma first_file_found p files f : f ∈ files -> p f = true -> is_Some (first_file p files).
Proof.
  intros Hin Hp. induction files as [|g files IH]; [by apply not_elem_of_nil in Hin|].
  cbn [first_file]. destruct (p g) eqn:E; [by eexists|].
  apply IH. apply elem_of_cons in Hin as [->|]; [congruence | done].
Qed.

(** A journal cut at its start or behind its first magic is recognised. *)
Lemma journal_found entries files log (k : nat) :
  classify entries = Some files ->
  file_data kJournalFileName entries = Some (take k (encode_log 1 log)) ->
  (k = 0 \/ 4 <= k)%nat -> is_Some (find_journal files).
Proof.
  intros Hc Hd Hk. destruct (classify_file _ _ _ _ Hc Hd) as (f & Hf & Hs & Hm).
  unfold find_journal. destruct (first_file _ files) as [g|] eqn:Hg; [by eexists|].
  destruct (decide (take k (encode_log 1 log) = [])) as [Hn|Hn].
  - apply (first_file_found _ _ f Hf). by rewrite Hs, Hn.
  - exfalso. destruct Hk as [->|Hk]; [done|].
    destruct log as [|[t p] log]; [by destruct k|].
    eapply (first_file_found (fun f => df_magic f =? kJournalRecordMagic)) in Hf.
    { rewrite Hg in Hf. by destruct Hf. }
    rewrite Hm.
    + apply N.eqb_eq. rewrite take_take. replace (4 `min` k)%nat with 4%nat by lia.
      cbn [encode_log]. rewrite build_journal_record_split. reflexivity.
    + cbn [encode_log]. unfold blen. rewrite length_take, length_app, length_build. lia.
Qed.

(** ** The census of a log *)

Lemma replay_reads_log {S} (visitor : JournalRecordView -> M ErrorCode S unit)
  ds log torn (s s' : S) :
  store_rep ds log torn -> ds_io ds = [] ->
  visit_all visitor (log_views 1 log) s = (s', Ok tt) ->
  replay false visitor ds s =
  ((ds, s'), Ok (mkJournalScanReport (N.of_nat (length log)) (blen (encode_log 1 log))
                   (N.of_nat (length log)) 0 (bool_decide (torn <> []))
                   (blen (encode_log 1 log)))).
Proof.
  intros [Hw Ht Hj Hl Hv Hp] Hio Hvis. unfold replay. rewrite io_call_quiet by done.
  rewrite Hj, (scan_bytes_log _ _ _ _ s s') by done. cbn [so_status so_stop so_records
    so_valid_bytes so_last_sequence so_skipped]. rewrite torn_flag, andb_false_r.
  unfold bind, ret. by rewrite io_call_quiet.
Qed.

Definition of_type (t : JournalRecordType) (r : JournalRecordType * bytes) : bool :=
  bool_decide (r.1 = t).

Definition count_type (t : JournalRecordType) (log : Log) : N := tally (of_type t) log.

(** The table of counts that belongs to a log. *)
Definition counted (log : Log) (counts : gmap N N) : Prop := forall v n,
  counts !! v = Some n <->
  exists t, v = record_type_value t /\ n = count_type t log /\ 0 < n.

#[local] Instance record_type_value_inj : Inj (=) (=) record_type_value.
Proof. intros x y H. apply (inj Some). by rewrite <- !record_type_roundtrip, H. Qed.

Lemma counted_default log counts t :
  counted log counts -> default 0 (counts !! record_type_value t) = count_type t log.
Proof.
  intros H. destruct (counts !! record_type_value t) as [n|] eqn:E; cbn.
  - apply H in E as (t' & ->%(inj record_type_value) & -> & _). done.
  - destruct (decide (count_type t log = 0)) as [->|Hn]; [done|].
    assert (counts !! record_type_value t = Some (count_type t log)) as E' by
      (apply H; exists t; split_and!; [done|done|lia]). congruence.
Qed.

Lemma count_type_app t log log' : count_type t (log ++ log') = count_type t log + count_type t log'.
Proof. unfold count_type, tally. rewrite filter_app, length_app. lia. Qed.

Lemma count_type_snoc t log t' p :
  count_type t (log ++ [(t', p)]) = count_type t log + (if decide (t' = t) then 1 else 0).
Proof.
  rewrite count_type_app. f_equal. unfold count_type. rewrite tally_cons. unfold of_type at 1.
  cbn [fst]. case_bool_decide; case_decide; done.
Qed.

Lemma count_type_le t log : count_type t log <= N.of_nat (length log).
Proof. unfold count_type, tally. pose proof (length_filter (fun x => of_type t x = true) log). lia. Qed.

Lemma counted_snoc log counts t p :
  counted log counts -> N.of_nat (length log) < u64_max ->
  counted (log ++ [(t, p)])
    (<[ record_type_value t := incr64 (default 0 (counts !! record_type_value t)) ]> counts).
Proof.
  intros H Hlen. rewrite (counted_default _ _ _ H).
  pose proof (count_type_le t log) as Hle. unfold incr64, wrap64.
  rewrite N.mod_small by (unfold u64_mod, u64_max in *; lia).
  intros v n. destruct (decide (v = record_type_value t)) as [->|Hv].
  - rewrite lookup_insert_eq. split.
    + intros [= <-]. exists t. rewrite count_type_snoc. rewrite decide_True by done.
      split_and!; [done|done|lia].
    + intros (t' & ->%(inj record_type_value) & -> & _). rewrite count_type_snoc.
      by rewrite decide_True.
  - rewrite lookup_insert_ne by done. rewrite (H v n). split; intros (t' & -> & -> & Hn); exists t';
      rewrite count_type_snoc in *; (destruct (decide (t = t')) as [<-|]; [done|]);
      rewrite N.add_0_r in *; done.
Qed.

(** What the visitor prints for one record. *)
Definition view_lines (dump : bool) (view : JournalRecordView) : list string :=
  if dump then
    (if (jv_type view =? record_type_value JEpochAdvanced) && (25 <=? blen (jv_payload view))
     then [epoch_line (jv_sequence view) (decode_epoch_record (jv_payload view))] else []) ++
    [record_line view]
  else [].

Lemma census_visitor_step dump view c :
  exists c', census_visitor dump view c = (c', Ok tt) /\
    ce_lines c' = ce_lines c ++ view_lines dump view /\
    ce_by_type c' = <[ jv_type view := incr64 (default 0 (ce_by_type c !! jv_type view)) ]>
                      (ce_by_type c).
Proof.
  unfold census_visitor, view_lines, bind, modify.
  destruct (_ && _); [destruct (decode_epoch_record _) as [[[pr nx] re] ti]|];
    destruct dump; eexists; (split; [reflexivity|]); upd_simpl;
    rewrite ?app_nil_r, <- ?app_assoc; done.
Qed.

Lemma census_of_log dump q pre log c :
  counted pre (ce_by_type c) -> N.of_nat (length (pre ++ log)) <= u64_max ->
  exists c', visit_all (census_visitor dump) (log_views q log) c = (c', Ok tt) /\
    ce_lines c' = ce_lines c ++ mjoin (view_lines dump <$> log_views q log) /\
    counted (pre ++ log) (ce_by_type c').
Proof.
  revert q pre c. induction log as [|[t p] log IH]; intros q pre c Hc Hlen.
  { exists c. rewrite !app_nil_r. done. }
  cbn [log_views visit_all fmap list_fmap mjoin list_join].
  destruct (census_visitor_step dump (mkJournalRecordView (record_type_value t) q p) c)
    as (c1 & -> & Hl & Ht).
  destruct (IH (q + 1) (pre ++ [(t, p)]) c1) as (c2 & -> & Hl2 & Ht2).
  - rewrite Ht. apply counted_snoc; [done|]. rewrite length_app in Hlen. cbn [length] in Hlen. lia.
  - by rewrite <- app_assoc.
  - exists c2. rewrite Hl2, Hl, <- !app_assoc. split_and!; [done|done|]. by rewrite <- app_assoc in Ht2.
Qed.

(** ** The whole run *)

(** What [run] reads when nothing fails: the store opens on the surviving
    records, and the snapshot is the one in the directory. *)
Lemma inspect_store_log o journal file entries ds log torn snapshot :
  store_rep ds log torn -> ds_io ds = [] -> ds_open_tail_truncated ds = bool_decide (torn <> []) ->
  ds_snapshot ds = build_snapshot_blob <$> snapshot ->
  (forall p, snapshot = Some p -> blen p <= kMaxSnapshotPayload) ->
  exists c ds',
    let after := Entries (store_directory entries ds') in
    let report := mkJournalScanReport (N.of_nat (length log)) (blen (encode_log 1 log))
      (N.of_nat (length log)) 0 (bool_decide (torn <> [])) (blen (encode_log 1 log)) in
    inspect_store o journal file entries ds = mkInspected
      ([store_line o journal (bool_decide (torn <> []))] ++ snapshot_lines snapshot file ++
       mjoin (view_lines (io_dump o) <$> log_views 1 log) ++
       closing_lines o c report (bool_decide (is_Some snapshot)) (bool_decide (torn <> [])))
      0 after /\
    counted log (ce_by_type c) /\
    ds_journal ds' = (if io_verify o then encode_log 1 log ++ torn else encode_log 1 log).
Proof.
  intros Hrep Hio Htorn Hs Hb. unfold inspect_store.
  assert (exists r, read_snapshot ds = (ds, r) /\
    snapshot_present r = Some snapshot) as (r & -> & Hr).
  { destruct snapshot as [p|]; cbn in Hs.
    - exists (Ok p). split; [by apply read_snapshot_ok; auto | done].
    - exists (Err NotFound). split; [|done]. unfold read_snapshot.
      erewrite bind_run by reflexivity. by rewrite Hs. }
  cbv zeta. rewrite Hr, Htorn.
  set (head := _ ++ snapshot_lines snapshot file).
  destruct (census_of_log (io_dump o) 1 [] log (empty_census head)) as (c & Hv & Hl & Hc).
  { intros v n. cbn [ce_by_type empty_census]. rewrite lookup_empty. split; [done|]. intros (t & _ & -> & Hn). done. }
  { cbn [app]. pose proof (proj2 (rep_wf _ _ _ Hrep)). lia. }
  exists c. destruct (io_verify o); cbn [negb].
  - rewrite (replay_reads_log _ _ _ _ _ _ Hrep Hio Hv). exists ds. cbn [jr_tail_truncated].
    rewrite orb_diag, Hl. subst head. split; [by rewrite <- !app_assoc|].
    split; [done | by destruct Hrep].
  - destruct (replay_visits_log _ _ _ _ _ _ Hrep Hio Hv) as (ds' & -> & Hrep' & _).
    exists ds'. cbn [jr_tail_truncated]. rewrite orb_diag, Hl. subst head.
    split; [by rewrite <- !app_assoc|]. split; [done|].
    destruct Hrep' as [_ _ Hj _ _ _]. by rewrite Hj, app_nil_r.
Qed.

(** ** Properties *)

(** C15 Inspecting with [--verify] reads only.  Whatever the directory
    holds, corrupt or torn, whatever file operations fail, at whatever point the
    run ends and with whatever exit status, the directory is afterwards what it
    was, entry for entry and byte for byte; only a directory without a journal,
    where another file was taken for one, may have gained an empty journal. *)
Theorem inspect_verify_reads_only (o : InspectOptions) (entries : list DirEntry)
  (io : list IoEvent) (Hverify : io_verify o = true) :
  let after := ip_directory (inspect_run o (Entries entries) io) in
  after = Entries entries \/
  file_data kJournalFileName entries = None /\
  after = Entries (entries ++ [mkDirEntry kJournalFileName true true true []]).
Proof.
  intros after.
  assert (after = Entries entries \/ after = Entries (with_journal entries)) as H.
  2:{ destruct H as [->| ->]; [by left|]. destruct (with_journal_cases entries) as [->|[Hn ->]]; auto. }
  subst after. unfold inspect_run. destruct (classify entries) as [files|]; [|by left].
  destruct (find_journal files) as [journal|]; [|by left].
  pose proof (open_directory_files entries io) as Ho.
  destruct (open_directory entries io) as [after [ds0|e]]; [|by destruct Ho as [[->| ->] _]; auto].
  destruct Ho as (-> & Hfiles & _). right. unfold inspect_store.
  pose proof (read_snapshot_files ds0) as H1. unfold exec in H1.
  destruct (read_snapshot ds0) as [ds1 loaded]. cbn [fst] in H1.
  assert (forall ds, files_of ds = files_of ds0 ->
    store_directory (with_journal entries) ds = with_journal entries) as Hsame.
  { intros ds Hds. apply opened_on_directory. unfold opened_on. by rewrite Hds. }
  destruct (snapshot_present loaded) as [present|]; cbn [ip_directory]; [|by rewrite Hsame].
  rewrite Hverify. cbn [negb]. cbv zeta.
  match goal with |- context [replay false ?v ds1 ?s] =>
    pose proof (replay_files v ds1 s) as H2; destruct (replay false v ds1 s) as [[ds2 c] r] end.
  cbn [fst] in H2. destruct r; cbn [ip_directory]; rewrite Hsame by congruence; done.
Qed.

(** C14 The inspector tells the truth about a journal.  When the journal
    file is what a crash left of a log, cut anywhere but inside the first four
    bytes of the file, and every file of the directory can be read: it exits with
    0; its last line gives the number and the bytes of exactly the records that
    were written whole, and whether something is behind them; the RECORD-TYPE
    lines are the counts of those records by type; with [--dump] every one of them
    has its line; and it leaves the file as it was, or, with [--no-verify], cut
    back to those records.  (A journal torn inside its first four bytes is not
    recognised as one.) *)
Theorem inspect_reports_log (o : InspectOptions) (entries : list DirEntry) (log : Log) (k : nat)
  (files : list DurableFile) (snapshot : option bytes)
  (Hwf : log_wf 1 log) (Hfiles : classify entries = Some files)
  (Hk : (k = 0 \/ 4 <= k)%nat)
  (Hdata : file_data kJournalFileName entries = Some (take k (encode_log 1 log)))
  (Hsnapshot : file_data kSnapshotFileName entries = build_snapshot_blob <$> snapshot)
  (Hbound : forall p, snapshot = Some p -> blen p <= kMaxSnapshotPayload) :
  let r := inspect_run o (Entries entries) [] in
  let whole := surviving k log in
  exists torn counts after,
    take k (encode_log 1 log) = encode_log 1 whole ++ torn /\
    ip_status r = 0 /\
    last (ip_lines r) = Some (inspect_line (mkJournalScanReport (N.of_nat (length whole))
      (blen (encode_log 1 whole)) (N.of_nat (length whole)) 0 (bool_decide (torn <> []))
      (blen (encode_log 1 whole))) (bool_decide (is_Some snapshot)) (bool_decide (torn <> []))) /\
    counted whole counts /\ type_lines counts ⊆ ip_lines r /\
    (io_dump o = true -> forall view, view ∈ log_views 1 whole -> record_line view ∈ ip_lines r) /\
    ip_directory r = Entries after /\
    file_data kJournalFileName after =
      Some (if io_verify o then take k (encode_log 1 log) else encode_log 1 whole).
Proof.
  intros r whole. destruct (journal_found _ _ _ _ Hfiles Hdata Hk) as [journal Hjournal].
  pose proof (open_prefix log k (file_data kSnapshotFileName entries) true [] Hwf) as Ho.
  pose proof (open_directory_files entries []) as Hd. cbv zeta in Hd. rewrite Hdata in Hd.
  cbn [from_option id] in Hd. subst r. unfold inspect_run. rewrite Hfiles, Hjournal.
  destruct (open_directory entries []) as [after [ds|e]];
    [destruct Hd as (-> & _ & Hopen) | destruct Hd as [_ Hopen]]; rewrite Hopen in Ho;
    [|by destruct Ho as [_ []]].
  destruct Ho as (torn & Hrep & Htorn & Hs & _). rewrite Hsnapshot in Hs.
  destruct (inspect_store_log o journal (find_snapshot files) (with_journal entries) ds whole torn
    snapshot Hrep (open_io _ _ _ _ Hopen) Htorn Hs Hbound) as (c & ds' & -> & Hc & Hj').
  apply opened_files in Hopen. injection Hopen as Hj _ _.
  assert (take k (encode_log 1 log) = encode_log 1 whole ++ torn) as Hcut
    by (rewrite <- Hj; by destruct Hrep).
  exists torn, (ce_by_type c), (store_directory (with_journal entries) ds').
  cbn [ip_status ip_lines ip_directory].
  split_and!; try done.
  - unfold closing_lines. by rewrite !app_assoc, last_snoc.
  - unfold closing_lines. intros l Hl. rewrite !elem_of_app. auto.
  - intros Hd view Hview. rewrite !elem_of_app. right. right. left.
    apply list_elem_of_join. exists (view_lines (io_dump o) view). split; [|by apply list_elem_of_fmap_2].
    rewrite Hd. unfold view_lines. rewrite elem_of_app. right. apply list_elem_of_here.
  - rewrite store_directory_journal, Hj'. by destruct (io_verify o); rewrite ?Hcut.
Qed.

(** A directory whose journal holds one record and ten bytes of the next. *)
Definition torn_directory : list DirEntry :=
  [mkDirEntry "lost+found" false true true [];
   mkDirEntry kJournalFileName true true true (take 42 (encode_log 1 example_log))].
Definition dumping (verify : bool) : InspectOptions := mkInspectOptions "/var/fs" verify true.

(** Another journal, and no file under the journal's name. *)
Definition foreign_directory : list DirEntry :=
  [mkDirEntry "old.log" true true true (encode_log 1 example_log)].

Lemma inspect_verify_reads_only_witness :
  ip_status (inspect_run (dumping true) (Entries torn_directory) [IoOk; IoOk; IoOk; IoOk; IoFail 0]) = 1 /\
  ip_directory (inspect_run (dumping true) (Entries torn_directory)
    [IoOk; IoOk; IoOk; IoOk; IoFail 0]) = Entries torn_directory.
Proof.
  split; [vm_compute; reflexivity|].
  destruct (inspect_verify_reads_only (dumping true) torn_directory
    [IoOk; IoOk; IoOk; IoOk; IoFail 0] eq_refl) as [H|[H _]]; [exact H|].
  vm_compute in H. discriminate H.
Defined.

Example inspect_creates_journal :
  ip_directory (inspect_run (dumping true) (Entries foreign_directory) []) =
    Entries (foreign_directory ++ [mkDirEntry kJournalFileName true true true []]).
Proof. vm_compute. reflexivity. Qed.

Lemma inspect_reports_log_witness :
  last (ip_lines (inspect_run (dumping false) (Entries torn_directory) [])) =
    Some "INSPECT records=1 bytes=32 last=1 snapshot=no torn_tail=yes"%string /\
  exists after, ip_directory (inspect_run (dumping false) (Entries torn_directory) []) = Entries after /\
    file_data kJournalFileName after = Some (encode_log 1 (surviving 42 example_log)).
Proof.
  assert (log_wf 1 example_log) as Hw.
  { split; [|unfold u64_max; cbn; lia]. repeat constructor; vm_compute; discriminate. }
  split; [vm_compute; reflexivity|].
  destruct (inspect_reports_log (dumping false) torn_directory example_log 42
    [mkDurableFile kJournalFileName 42 kJournalRecordMagic] None Hw)
    as (torn & counts & after & _ & _ & _ & _ & _ & _ & Hds & Hj).
  - vm_compute. reflexivity.
  - right. lia.
  - vm_compute. reflexivity.
  - vm_compute. reflexivity.
  - intros p Hp. discriminate Hp.
  - exists after. split; [exact Hds | exact Hj].
Defined.
