(* ===== verification/Reports.v ===== *)
(** * What a worker reports is credited

    The worker process and the scheduler, composed over the wire: the evidence
    [make_evidence] builds from a dispatched ticket is accepted by [complete] as
    long as the ticket still revalidates, for the amount the worker was told to
    serve; the evidence of a worker run with [--stale-evidence] is refused. *)

From S2P Require Import Prelude Checked Bytes Hash Model Schedule Codec Framing Transport Protocol.
From S2P Require Import Journal State Transitions Arbitrate Operations Recovery Observe Commandline.
From S2P Require Import Coordinator Worker Fixture Invariants Frames Capacity Bounds Random System.
From S2P Require Import Lease Authority Completion Epoch.

(** What the worker says it served: the quantum, cut by [--served]. *)
Definition claimed (t : DispatchTicket) (o : WorkerOptions) : N :=
  if (wo_served o <? 0)%Z then tk_quantum t else N.min (Z.to_N (wo_served o)) (tk_quantum t).

Lemma ev_served_claimed t o tick : ev_served (make_evidence t o tick) = claimed t o.
Proof.
  unfold make_evidence, claimed. cbn [ev_served]. destruct (_ <? 0)%Z; [done|].
  destruct (N.ltb_spec (Z.to_N (wo_served o)) (tk_quantum t)); lia.
Qed.

Lemma claimed_le t o : claimed t o <= tk_quantum t.
Proof. unfold claimed. destruct (_ <? 0)%Z; lia. Qed.

(** A ticket whose worker and boot are named, and whose epoch has a successor. *)
Definition addressed (t : DispatchTicket) : Prop :=
  wf_ticket t /\ id_valid (tk_worker t) = true /\ id_valid (tk_boot t) = true /\
  tk_epoch t < u64_max.

Lemma wf_make_evidence t o tick :
  addressed t -> u64 tick -> wf_evidence (make_evidence t o tick).
Proof.
  intros (Ht & Hw & Hb & He) Hk. unfold wf_ticket in Ht. wf_destruct.
  assert (forall x, u64 (mix64 x)) as Hmix.
  { intros x. pose proof (mix64_bound x). unfold u64, u64_mod, u64_max in *. lia. }
  assert (u64 (add64 (tk_epoch t) 1) /\ id_valid (add64 (tk_epoch t) 1) = true) as [Hu Hv].
  { unfold add64, wrap64, id_valid. rewrite N.mod_small by (unfold u64_mod, u64_max in *; lia).
    split; [unfold u64, u64_max in *; lia|]. apply negb_true_iff, N.eqb_neq. lia. }
  pose proof (claimed_le t o) as Hc. rewrite <- (ev_served_claimed t o tick) in Hc.
  assert (ev_served (make_evidence t o tick) <= kMaxServiceUnits) as Hmax.
  { unfold kMaxQuantum, kMaxServiceUnits in *. lia. }
  assert (ticket_bound t = true) as Hbound by done. unfold ticket_bound in Hbound.
  cbn [forallb] in Hbound. rewrite !andb_true_iff in Hbound.
  unfold wf_evidence. split; [|split; [|split; [|split; [done|]]]].
  - repeat constructor; try done; try apply Hmix.
    + cbn. by destruct (wo_stale_evidence o).
    + unfold u64, kMaxServiceUnits, u64_max in *. lia.
  - by vm_compute.
  - unfold evidence_bound. cbn [forallb]. rewrite !andb_true_iff. cbn -[id_valid add64].
    destruct (wo_stale_evidence o); naive_solver.
  - split; cbn; [done | apply Hmix].
Qed.

(** ** The verdict *)

Lemma validate_ticket_Ok im a now rt :
  validate_ticket_fields im a now = Ok tt -> im_flows im !! bd_id (au_flow a) = Some rt ->
  au_epoch a = im_epoch im /\ fd_generation (fr_descriptor rt) = bd_generation (au_flow a) /\
  has_deadline (au_deadline a) && (au_deadline a <=? now) = false.
Proof.
  intros Hre Hrt. unfold validate_ticket_fields, guard_err, result_bind in Hre. rewrite Hrt in Hre.
  destruct (N.eqb_spec (au_epoch a) (im_epoch im)); [|by rewrite orb_true_r in Hre].
  destruct (negb (id_valid _)); [done|]. cbn [negb orb] in Hre. destruct (_ || _); [done|].
  destruct (N.eqb_spec (fd_generation (fr_descriptor rt)) (bd_generation (au_flow a))); [|done].
  split; [done|]. split; [done|]. cbn [negb] in Hre.
  destruct (_ || _); [done|]. destruct (check_resource _ _ _); [|done].
  destruct (im_priority_classes im !! _); [|done]. destruct (negb _); [done|].
  destruct (im_qos_classes im !! _); [|done]. destruct (negb _); [done|].
  destruct (validate_reservation_field _ _ _); [|done].
  by destruct (has_deadline (au_deadline a) && (au_deadline a <=? now)).
Qed.

Lemma revalidate_fields im t now :
  revalidate im t now = Ok tt -> validate_ticket_fields im (ticket_authority t) now = Ok tt.
Proof.
  unfold revalidate, guard_err. destruct (_ =? 0); [done|]. destruct (negb (_ =? _)); [done|].
  by destruct (_ && _).
Qed.

Lemma revalidate_Ok im t now rt :
  revalidate im t now = Ok tt -> im_flows im !! tk_flow t = Some rt ->
  tk_epoch t = im_epoch im /\ fd_generation (fr_descriptor rt) = tk_flow_generation t /\
  has_deadline (tk_deadline_tick t) && (tk_deadline_tick t <=? now) = false.
Proof. intros H%revalidate_fields. exact (validate_ticket_Ok _ _ _ _ H). Qed.

(** The checks of [revalidate] are the checks of [complete] that the evidence of
    an honest worker could fail: a ticket that revalidates is completed. *)
Lemma honest_accepted im a t o tick now :
  lease_inv (leases im) -> im_attempts im !! tk_attempt t = Some a -> at_ticket a = t ->
  is_attempt_terminal (at_state a) = false -> revalidate im t now = Ok tt -> addressed t ->
  u64 tick -> wo_stale_evidence o = false ->
  judge_completion im (make_evidence t o tick) now = Accept a.
Proof.
  intros Hinv Ha Ht Hlive Hre Haddr Hk Hs.
  pose proof (wf_make_evidence t o tick Haddr Hk) as (_ & _ & Hbound & Hmax & _).
  destruct (live_attempt_flow im _ a Hinv Ha Hlive) as (rt & Hrt & Hopen). rewrite Ht in Hrt.
  destruct (revalidate_Ok _ _ _ _ Hre Hrt) as (He & Hg & Hdl).
  pose proof (claimed_le t o) as Hc. rewrite <- (ev_served_claimed t o tick) in Hc.
  unfold judge_completion. rewrite Hbound, (proj2 (N.ltb_ge _ _) Hmax).
  cbn [ev_flow make_evidence ev_epoch ev_attempt ev_flow_generation ev_provenance established pv_origin negb].
  rewrite Hs, Hrt, Ha, He, Hg, !N.eqb_refl. cbn [negb].
  unfold judge_attempt. rewrite Ht, Hlive, Hopen, Hdl, (proj2 (N.ltb_ge _ _) Hc).
  cbn [ev_flow ev_schedule ev_schedule_generation ev_worker ev_boot ev_attempt make_evidence].
  by rewrite !N.eqb_refl.
Qed.

Lemma stale_refused im t o tick now rt :
  revalidate im t now = Ok tt -> im_flows im !! tk_flow t = Some rt -> addressed t -> u64 tick ->
  wo_stale_evidence o = true ->
  judge_completion im (make_evidence t o tick) now = Reject StaleEpoch false.
Proof.
  intros Hre Hrt Haddr Hk Hs. destruct (revalidate_Ok _ _ _ _ Hre Hrt) as (He & _).
  pose proof (wf_make_evidence t o tick Haddr Hk) as (_ & _ & Hbound & Hmax & _).
  unfold judge_completion. rewrite Hbound, (proj2 (N.ltb_ge _ _) Hmax).
  cbn [make_evidence ev_epoch ev_provenance established pv_origin negb]. rewrite Hs.
  destruct (N.eqb_spec (add64 (tk_epoch t) 1) (im_epoch im)) as [E|]; [exfalso|done].
  destruct Haddr as (_ & _ & _ & Hlt). revert E. rewrite <- He. unfold add64, wrap64.
  rewrite N.mod_small by (unfold u64_mod, u64_max in *; lia). lia.
Qed.

(** ** The answer *)

Lemma wp_journal_volatile t ops (Q : unit -> Impl -> Prop) X im :
  durable_mode im = false -> Q tt im -> wp (journal t ops) Q X im.
Proof. unfold durable_mode, wp, journal. by destruct (im_store im). Qed.

(** Without a store nothing can stop [complete] from answering. *)
Lemma complete_answers im e now :
  durable_mode im = false -> exists o, outcome (complete e now) im = Ok o.
Proof.
  intros Hmode.
  assert (wp (complete e now) (fun _ _ => True) (fun _ _ => False) im) as W.
  { unfold complete, observe_tick. do 6 wp_step.
    match goal with |- wp _ _ _ ?i => assert (durable_mode i = false) as Hm by exact Hmode; revert Hm;
      generalize i end.
    intros im1 Hm. destruct (judge_completion im1 e now) as [code b|r|a] eqn:Hj;
      [by do 3 wp_step | by do 5 wp_step |].
    apply judge_accept in Hj as (_ & _ & _ & rt & Hrt & _). unfold commit_completion.
    do 2 wp_step. rewrite Hrt. cbv zeta. wp_step. apply wp_journal_volatile; [done|].
    do 2 wp_step. rewrite wp_bind. case_bool_decide; do 4 wp_step; wp_step; exact I. }
  unfold wp in W. unfold outcome. destruct (complete e now im) as [im' [o|err]]; [by exists o | done].
Qed.

(** C8 A report is credited end to end.  The coordinator holds attempt
    [tk_attempt t] open and sends its ticket in a Dispatch frame; the worker
    decodes it, builds its evidence and answers with a Completion frame; the
    coordinator decodes that and completes it while the ticket still revalidates.
    The evidence of an honest worker is then applied, the flow is credited what
    the worker was told to serve and at most its quantum, and the attempt is
    closed; the evidence of a worker run with [--stale-evidence] is refused as
    stale and credits nothing.  Only a durable scheduler whose journal cannot be
    written answers with an error, and then nothing is credited. *)
Theorem honest_worker_credited (im : Impl) (a : AttemptRuntime) (t : DispatchTicket)
  (o : WorkerOptions) (nominal tick : N) (now : Ticks)
  (H : in_service im) (Ha : im_attempts im !! tk_attempt t = Some a) (Ht : at_ticket a = t)
  (Hlive : is_attempt_terminal (at_state a) = false) (Hre : revalidate im t now = Ok tt)
  (Haddr : addressed t) (Hu : u64 nominal /\ u64 tick) :
  exists d m,
    decode_dispatch (encode (mkDispatchMessage t nominal)) = Ok d /\
    decode_completion (encode (mkCompletionMessage (make_evidence (dm_ticket d) o tick))) = Ok m /\
    match complete (cm_evidence m) now im with
    | (im', Ok out) =>
        if wo_stale_evidence o
        then out = rejected StaleEpoch /\ served im' = served im
        else co_disposition out = Applied /\ co_credited out = claimed t o /\
             served im' = alter (fun w => saturating_add w (claimed t o)) (tk_flow t) (served im) /\
             exists a', im_attempts im' !! tk_attempt t = Some a' /\ at_state a' = ACommitted
    | (im', Err _) => durable_mode im = true /\ served im' = served im
    end.
Proof.
  destruct Hu as [Hn Hk]. exists (mkDispatchMessage t nominal).
  exists (mkCompletionMessage (make_evidence t o tick)).
  split; [|split]; [| |cbn [cm_evidence]].
  - pose proof (wire_decode (WireLaws := dispatch_laws) (mkDispatchMessage t nominal) []) as W.
    rewrite app_nil_r in W. apply W. split; [apply Haddr | done].
  - cbn [dm_ticket]. pose proof (wire_decode (WireLaws := completion_laws)
      (mkCompletionMessage (make_evidence t o tick)) []) as W.
    rewrite app_nil_r in W. apply W. by apply wf_make_evidence.
  - pose proof (in_service_lease_inv _ H) as Hinv.
    pose proof (complete_wp im (make_evidence t o tick) now) as W. unfold wp in W.
    pose proof (complete_answers im (make_evidence t o tick) now) as Hans. unfold outcome in Hans.
    destruct (complete (make_evidence t o tick) now im) as [im' [out|err]]; cbn [snd] in Hans.
    2:{ split; [|done]. destruct (durable_mode im); [done|].
        destruct Hans as [out Hans]; [done|discriminate Hans]. }
    destruct (wo_stale_evidence o) eqn:Hs.
    + destruct (live_attempt_flow im _ a Hinv Ha Hlive) as (rt & Hrt & _). rewrite Ht in Hrt.
      by rewrite (stale_refused _ _ _ _ _ rt Hre Hrt Haddr Hk Hs) in W.
    + rewrite (honest_accepted im a t o tick now Hinv Ha Ht Hlive Hre Haddr Hk Hs) in W.
      destruct W as (Hd & Hc & [H1 H2 _ _]).
      assert (credit_of (make_evidence t o tick) = claimed t o) as Hclaim
        by apply (ev_served_claimed t o tick).
      rewrite Hclaim in *. split; [done|]. split; [done|]. split; [done|].
      rewrite H2. cbn [ev_attempt make_evidence]. rewrite lookup_alter_eq, Ha. by eexists.
Qed.

(** The fixture's first dispatch, answered by a worker that serves 12 of its 30
    units and by one that tampers with the epoch. *)
Definition diligent : WorkerOptions := default_worker_options <| wo_served := 12%Z |>.
Definition tampering : WorkerOptions := default_worker_options <| wo_stale_evidence := true |>.

Lemma honest_worker_credited_witness :
  served (exec (complete (make_evidence Demo.ticket diligent 1) 12) before) =
    alter (fun w => saturating_add w 12) (tk_flow Demo.ticket) (served before) /\
  served (exec (complete (make_evidence Demo.ticket tampering 1) 12) before) = served before.
Proof.
  assert ((fun a => (at_ticket a, is_attempt_terminal (at_state a))) <$>
          im_attempts before !! tk_attempt Demo.ticket = Some (Demo.ticket, false)) as Hrecord
    by (vm_compute; reflexivity).
  destruct (im_attempts before !! tk_attempt Demo.ticket) as [a|] eqn:Ha; [|discriminate Hrecord].
  apply (inj Some), pair_equal_spec in Hrecord as [Ht Hlive].
  assert (revalidate before Demo.ticket 12 = Ok tt) as Hre by (vm_compute; reflexivity).
  assert (addressed Demo.ticket) as Haddr.
  { split; [split|split; [|split]]; [|split; [|split]|..];
      [|vm_compute; reflexivity || discriminate..].
    repeat (apply Forall_cons; split; [vm_compute; discriminate|]). apply Forall_nil_2. }
  assert (u64 30 /\ u64 1) as Hu by (split; vm_compute; discriminate).
  unfold exec. split.
  - destruct (honest_worker_credited before a Demo.ticket diligent 30 1 12
      (demo_in_service_prefix 9) Ha Ht Hlive Hre Haddr Hu) as (d & m & Hd & Hm & W).
    assert (cm_evidence m = make_evidence Demo.ticket diligent 1) as Hevidence.
    { vm_compute in Hd. injection Hd as <-. vm_compute in Hm. injection Hm as <-.
      vm_compute. reflexivity. }
    rewrite Hevidence in W. destruct (complete _ _ before) as [im' [out|]].
    + destruct W as (_ & _ & W & _). exact W.
    + destruct W as [W _]. vm_compute in W. discriminate W.
  - destruct (honest_worker_credited before a Demo.ticket tampering 30 1 12
      (demo_in_service_prefix 9) Ha Ht Hlive Hre Haddr Hu) as (d & m & Hd & Hm & W).
    assert (cm_evidence m = make_evidence Demo.ticket tampering 1) as Hevidence.
    { vm_compute in Hd. injection Hd as <-. vm_compute in Hm. injection Hm as <-.
      vm_compute. reflexivity. }
    rewrite Hevidence in W. destruct (complete _ _ before) as [im' [out|]].
    + destruct W as [_ W]. exact W.
    + destruct W as [_ W]. exact W.
Defined.
