(* ===== verification/Supervision.v ===== *)
(** * The coordinator supervises what it dispatches

    Theorems about Coordinator.v, for every behaviour of the network: whatever
    bytes the workers send, however their connections fail, and at whatever
    system call the process is waiting.

    The scheduler inside the coordinator changes by public calls only, so the
    invariants of System.v and Authority.v hold in it; and in volatile mode every
    live dispatch attempt is recorded under a connection that is still open, so
    that losing a worker always returns its work. *)

From S2P Require Import Prelude Checked Bytes Hash Model Schedule Codec Framing Transport Protocol.
From S2P Require Import Journal State Transitions Arbitrate Operations Recovery Observe Commandline.
From S2P Require Import Coordinator Worker Rehearsal Invariants Frames Capacity Bounds System Lease Authority.
From S2P Require Import Rounds Completion Epoch.

(** ** Running methods of the coordinator *)

Section WpCo.
Context {A : Type} (X : Halt -> Coordinator -> Prop).

Lemma wp_call {B} (op : Op B) (Q : Res B -> Coordinator -> Prop) c :
  wp (call op) Q X c <->
  Q (outcome op (cd_scheduler c)) (c <| cd_scheduler := exec op (cd_scheduler c) |>).
Proof. unfold wp, call, outcome, exec. by destruct (op (cd_scheduler c)) as [im r]. Qed.

Lemma wp_await {B} (r : Blocking B) (Q : B -> Coordinator -> Prop) c :
  (forall b, r = Returned b -> Q b c) -> X Parked c -> wp (await r) Q X c.
Proof. destruct r; [|done]. intros HQ _. by apply HQ. Qed.
End WpCo.

(** ** What supervision depends on *)

(** The identity and the liveness of every connection. *)
Definition badge (p : Peer) : WorkerId * BootId * bool := (pe_worker p, pe_boot p, pe_alive p).

Definition watched (c : Coordinator)
  : Impl * gmap N OpenAttempt * list (WorkerId * BootId * bool) * CoordinatorOptions :=
  (cd_scheduler c, cd_attempts c, badge <$> cd_peers c, cd_options c).

(** [a] is recorded under an open connection. *)
Definition tracked (a : DispatchAttemptId) (c : Coordinator) : Prop :=
  exists oa w b, cd_attempts c !! a = Some oa /\
    (badge <$> cd_peers c) !! oa_peer oa = Some (w, b, true).

(** The records name their tickets and the connection they went to. *)
Definition records_ok (c : Coordinator) : Prop :=
  forall a oa, cd_attempts c !! a = Some oa ->
    tk_attempt (oa_ticket oa) = a /\
    exists v, (badge <$> cd_peers c) !! oa_peer oa =
      Some (tk_worker (oa_ticket oa), tk_boot (oa_ticket oa), v).

(** No more identities than these were handed out. *)
Definition spent (attempts schedules : N) (im : Impl) : Prop :=
  im_next_attempt im <= attempts /\ im_next_schedule im <= schedules /\
  im_next_schedule_generation im <= schedules.

(** The invariant of the run; [todo] are attempts whose connection was just
    closed and that are about to be abandoned. *)
Record supervised (todo : list N) (attempts schedules : N) (c : Coordinator) : Prop := {
  sv_service : in_service (cd_scheduler c);
  sv_volatile : durable_mode (cd_scheduler c) = false;
  sv_rounds : co_rounds (cd_options c) <= 100000000;
  sv_spent : spent attempts schedules (cd_scheduler c);
  sv_records : records_ok c;
  sv_tracked : forall a l, lt_leases (leases (cd_scheduler c)) !! a = Some l ->
    ls_live l = true -> a ∈ todo \/ tracked a c }.

Lemma supervised_ext todo a s c c' :
  watched c' = watched c -> supervised todo a s c -> supervised todo a s c'.
Proof.
  unfold watched. intros [= H1 H2 H3 H4] []. constructor; unfold records_ok, tracked in *;
    rewrite ?H1, ?H2, ?H3, ?H4; assumption.
Qed.

(** ** Calls of the scheduler *)

Section Calls.
Context (todo : list N) (attempts schedules : N).
Hypotheses (Ha : attempts < u64_max) (Hs : schedules < u64_max).

Lemma spent_ids_left im : spent attempts schedules im -> ids_left im.
Proof. unfold spent, ids_left. lia. Qed.

(** A live lease after steps that open none was live before. *)
Lemma live_before im im' a l :
  in_service im -> in_service im' -> rtc step (leases im) (leases im') ->
  im_next_attempt im' = im_next_attempt im ->
  lt_leases (leases im') !! a = Some l -> ls_live l = true ->
  exists l0, lt_leases (leases im) !! a = Some l0 /\ ls_live l0 = true.
Proof.
  intros H H' Hstep Hnext Hl Hlive.
  destruct (li_id _ (in_service_lease_inv _ H') a l Hl) as (_ & _ & Hlt).
  change (lt_next_attempt (leases im')) with (im_next_attempt im') in Hlt. rewrite Hnext in Hlt.
  destruct (lt_leases (leases im) !! a) as [l0|] eqn:E0.
  - destruct (ls_live l0) eqn:E1; [by exists l0|]. exfalso.
    destruct (dead_steps a _ _ Hstep) as [_ Hd].
    { split; [done|]. intros l1 Hl1. congruence. }
    specialize (Hd l Hl). congruence.
  - exfalso. destruct (dead_steps a _ _ Hstep) as [_ Hd].
    { split; [done|]. intros l1 Hl1. congruence. }
    specialize (Hd l Hl). congruence.
Qed.

Lemma supervised_run k c :
  opens k = false -> (forall r now, k <> CAdvanceEpoch r now) ->
  supervised todo attempts schedules c ->
  supervised todo attempts schedules (c <| cd_scheduler := run k (cd_scheduler c) |>).
Proof.
  intros Hk Hne [Hin Hv Hrd Hsp Hr Ht]. set (im := cd_scheduler c) in *.
  pose proof (spent_ids_left im Hsp) as Hids.
  assert (in_service (run k im)) as Hin' by (by apply serve_call).
  pose proof (quiet_run k im Hk (in_service_lease_inv _ Hin)) as Hq.
  destruct (quiets_next _ _ Hq) as (Hn1 & Hn2 & Hn3). cbn [leases lt_next_attempt lt_next_schedule
    lt_next_generation] in Hn1, Hn2, Hn3.
  constructor; upd_simpl.
  - done.
  - pose proof (epoch_run k (anchor im) Hne im eq_refl) as [= _ E]. by rewrite E.
  - done.
  - unfold spent in *. rewrite Hn1, Hn2, Hn3. done.
  - intros a oa. upd_simpl. apply Hr.
  - intros a l Hl Hlive.
    destruct (live_before im (run k im) a l) as (l0 & Hl0 & Hlive0);
      [done|done|by apply quiets_steps|done|done|done|].
    destruct (Ht a l0 Hl0 Hlive0) as [H|H]; [by left|right]. exact H.
Qed.

(** A round hands out at most one schedule. *)
Lemma supervised_arbitrate now c :
  supervised todo attempts schedules c ->
  supervised todo attempts (schedules + 1)
    (c <| cd_scheduler := exec (arbitrate now) (cd_scheduler c) |>).
Proof.
  intros [Hin Hv Hrd Hsp Hr Ht]. set (im := cd_scheduler c) in *.
  pose proof (spent_ids_left im Hsp) as Hids.
  assert (in_service (exec (arbitrate now) im)) as Hin' by (by apply (serve_call (CArbitrate now))).
  pose proof (in_service_lease_inv _ Hin) as Hinv.
  assert (tacit (leases im) (leases (exec (arbitrate now) im))) as Hq.
  { apply (tacit_arbitrate _ Hinv); [apply Hids|apply Hids|].
    split; [by apply in_service_flows_wf | done]. }
  destruct (tacit_next _ _ Hq) as (Hn1 & Hn2 & Hn3).
  cbn [leases lt_next_attempt lt_next_schedule lt_next_generation] in Hn1, Hn2, Hn3.
  constructor; upd_simpl.
  - done.
  - pose proof (epoch_run (CArbitrate now) (anchor im) ltac:(done) im eq_refl) as [= _ E].
    cbn [run] in E. by rewrite E.
  - done.
  - unfold spent in *. lia.
  - intros a oa. upd_simpl. apply Hr.
  - intros a l Hl Hlive.
    destruct (live_before im (exec (arbitrate now) im) a l) as (l0 & Hl0 & Hlive0);
      [done|done|by apply tacit_steps|done|done|done|].
    destruct (Ht a l0 Hl0 Hlive0) as [H|H]; [by left|right]. exact H.
Qed.

(** A refused dispatch changes nothing here; a granted one has to be recorded
    before the invariant holds again. *)
Lemma supervised_dispatch s g o w b now c i :
  supervised todo attempts schedules c ->
  (badge <$> cd_peers c) !! i = Some (w, b, true) ->
  wp (call (begin_dispatch s g o w b now))
    (fun r c' =>
       match r with
       | Ok t => supervised todo (attempts + 1) schedules
           (c' <| cd_attempts ::= <[ tk_attempt t := mkOpenAttempt i t false ]> |>)
       | Err _ => supervised todo (attempts + 1) schedules c'
       end /\ watched c' = (cd_scheduler c', cd_attempts c, badge <$> cd_peers c, cd_options c))
    (fun _ _ => False) c.
Proof.
  intros [Hin Hv Hrd Hsp Hr Ht] Hi. apply wp_call. split; [|done]. set (im := cd_scheduler c) in *.
  pose proof (spent_ids_left im Hsp) as Hids.
  pose proof (in_service_lease_inv _ Hin) as Hinv.
  pose proof (serve_call (CBeginDispatch s g o w b now) im Hin Hids) as Hin'. cbn [run] in Hin'.
  pose proof (epoch_run (CBeginDispatch s g o w b now) (anchor im) ltac:(done) im eq_refl)
    as [= _ E]. cbn [run] in E.
  pose proof (begin_dispatch_lease s g o w b now im Hinv ltac:(apply Hids)) as W.
  unfold wp, outcome, exec in *.
  destruct (begin_dispatch s g o w b now im) as [im' [t|e]]; cbn [fst snd] in *.
  - destruct W as (Hat & Hw & Hb & f & n & Hf & Ho & Hl). constructor; upd_simpl.
    + done.
    + by rewrite E.
    + done.
    + apply (f_equal (fun A => (lt_next_attempt A, lt_next_schedule A, lt_next_generation A))) in Hl.
      unfold open_lease in Hl. revert Hl. upd_simpl. cbn [leases lt_next_attempt lt_next_schedule
        lt_next_generation]. intros [= H1 H2 H3]. unfold spent in *. rewrite H1, H2, H3. lia.
    + intros a oa. upd_simpl. intros [[<- <-]|[Hne Hoa]]%lookup_insert_Some.
      * split; [done|]. exists true. cbn. by rewrite Hw, Hb.
      * by apply Hr.
    + intros a l. rewrite Hl. unfold open_lease. upd_simpl.
      change (lt_next_attempt (leases im)) with (im_next_attempt im). rewrite <- Hat.
      intros [[<- <-]|[Hne Hla]]%lookup_insert_Some Hlive.
      * right. eexists _, _, _. upd_simpl. rewrite lookup_insert_eq. by split.
      * destruct (Ht a l Hla Hlive) as [H|(oa & w' & b' & Hoa & Hp)]; [by left|right].
        eexists oa, w', b'. upd_simpl. by rewrite lookup_insert_ne.
  - constructor; upd_simpl.
    + done.
    + by rewrite E.
    + done.
    + apply (f_equal (fun A => (lt_next_attempt A, lt_next_schedule A, lt_next_generation A))) in W.
      cbn [leases lt_next_attempt lt_next_schedule lt_next_generation] in W.
      injection W as H1 H2 H3. unfold spent in *. rewrite H1, H2, H3. lia.
    + intros a oa. upd_simpl. apply Hr.
    + intros a l. rewrite W. apply Ht.
Qed.
End Calls.

(** In volatile mode an abandoned attempt is dead, whatever the call returns. *)
Lemma abandon_dead a reason now im l :
  in_service im -> ids_left im -> durable_mode im = false ->
  lt_leases (leases (exec (abandon_attempt a reason now) im)) !! a = Some l -> ls_live l = false.
Proof.
  intros Hin Hids Hv. pose proof (in_service_lease_inv _ Hin) as Hinv. revert l.
  assert (im_store im = None) as Hst.
  { unfold durable_mode in Hv. by destruct (im_store im). }
  apply wp_exec. unfold abandon_attempt, observe_tick. do 4 wp_step.
  set (im1 := im <| im_last_tick ::= N.max now |>).
  assert (leases im1 = leases im) as Hl1 by done.
  destruct (im_attempts im1 !! a) as [r|] eqn:Hr.
  2:{ wp_step. rewrite Hl1. intros l (r & Hr' & ->)%lookup_leases.
      change (im_attempts im !! a = None) in Hr. congruence. }
  destruct (is_attempt_terminal (at_state r)) eqn:Ht.
  { wp_step. rewrite Hl1. intros l (r' & Hr' & ->)%lookup_leases.
    change (im_attempts im !! a = Some r) in Hr. replace r' with r by congruence.
    unfold lease_of. cbn. by rewrite Ht. }
  wp_step. unfold close_attempt. wp_step. unfold wp at 1, journal.
  change (im_store im1) with (im_store im). rewrite Hst. do 2 wp_step.
  rewrite leases_normalize, leases_closed by (by rewrite ?Hl1). rewrite Hr, Ht, Hl1.
  unfold close_lease. upd_simpl. intros l. rewrite lookup_alter_eq.
  destruct (lt_leases (leases im) !! a); [|done]. by intros [= <-].
Qed.

(** ** Methods *)

Section Methods.
Context (order : gmap N OpenAttempt -> list N) (error_message : ErrorCode -> string).
Hypothesis (Horder : forall m, order m ≡ₚ map_keys m).

Section Keeps.
Context (todo : list N) (attempts schedules : N).
Hypotheses (Ha : attempts < u64_max) (Hs : schedules < u64_max).
Let S := supervised todo attempts schedules.

Lemma keeps_same f : (forall c, watched (f c) = watched c) -> preserves S (modify (E := Halt) f).
Proof. intros H. apply preserves_modify. intros c. by apply supervised_ext. Qed.

Lemma keeps_report : preserves S report.
Proof. apply keeps_same. intros c. by repeat case_match. Qed.

Lemma keeps_print line : preserves S (print line).
Proof. by apply keeps_same. Qed.

Lemma keeps_await {A} (r : Blocking A) : preserves S (await r).
Proof. destruct r; by intros c Hc. Qed.

Lemma keeps_call {A} (op : Op A) k :
  (forall im, run k im = exec op im) -> opens k = false ->
  (forall r now, k <> CAdvanceEpoch r now) -> preserves S (call op).
Proof.
  intros Hk Ho Hne c Hc. unfold exec, call.
  pose proof (supervised_run todo attempts schedules Ha Hs k c Ho Hne Hc) as H.
  rewrite Hk in H. unfold exec in H. by destruct (op (cd_scheduler c)) as [im r].
Qed.

Lemma keeps_with_peer {A} index (f : Peer -> Peer * Blocking A) :
  (forall p, badge (f p).1 = badge p) -> preserves S (with_peer index f).
Proof.
  intros Hf c Hc. unfold exec, with_peer, bind, get.
  destruct (cd_peers c !! index) as [p|] eqn:Hp; [|done]. specialize (Hf p).
  destruct (f p) as [p' r]. cbn [fst] in Hf.
  replace (fst _) with (c <| cd_peers ::= <[ index := p' ]> |>) by (by destruct r).
  apply (supervised_ext _ _ _ c); [|done]. unfold watched. upd_simpl. do 2 f_equal.
  rewrite list_fmap_insert, Hf. apply list_insert_id. by rewrite list_lookup_fmap, Hp.
Qed.

Lemma badge_receive budget p : badge (receive_within budget p).1 = badge p.
Proof.
  unfold receive_within. destruct (negb _); [done|].
  by destruct (receive_loop _ _ _ _) as [[polls acc] r].
Qed.

Lemma badge_send type payload p : badge (send_peer type payload p).1 = badge p.
Proof. unfold send_peer. by destruct (send_frame _ _ _ _) as [[sends sent] r]. Qed.

Lemma keeps_receive index : preserves S (receive_now index).
Proof. apply keeps_with_peer, badge_receive. Qed.

Lemma keeps_send index type payload : preserves S (send_to index type payload).
Proof. apply keeps_with_peer, badge_send. Qed.

Ltac keep_leaf :=
  lazymatch goal with
  | |- preserves _ report => apply keeps_report
  | |- preserves _ (print _) => apply keeps_print
  | |- preserves _ (await _) => apply keeps_await
  | |- preserves _ (send_to _ _ _) => apply keeps_send
  | |- preserves _ (receive_now _) => apply keeps_receive
  | |- preserves _ (call (resolve_ambiguous ?f ?g ?r ?now)) =>
      by apply (keeps_call _ (CResolveAmbiguous f g r now))
  | |- preserves _ (call (admit_flow ?d)) => by apply (keeps_call _ (CAdmitFlow d))
  | |- preserves _ (call (mark_started ?t ?now)) => by apply (keeps_call _ (CMarkStarted t now))
  | |- preserves _ (call (complete ?e ?now)) => by apply (keeps_call _ (CComplete e now))
  | |- preserves _ (call (register_resource ?d)) => by apply (keeps_call _ (CRegisterResource d))
  | |- preserves _ (call (register_priority_class ?d)) =>
      by apply (keeps_call _ (CRegisterPriorityClass d))
  | |- preserves _ (call (register_qos_class ?d)) => by apply (keeps_call _ (CRegisterQoSClass d))
  | |- preserves _ (modify _) => by apply keeps_same
  end.
Ltac keep_method := repeat first [keep_leaf | preserve_step]; try done.

Lemma keeps_resolve count index : preserves S (resolve_from count index).
Proof.
  revert index. induction count as [|count IH]; intros index; cbn [resolve_from]; keep_method;
    apply IH.
Qed.

Lemma keeps_resolve_flows : preserves S resolve_ambiguous_flows.
Proof. unfold resolve_ambiguous_flows. keep_method. apply keeps_resolve. Qed.

Lemma keeps_topology : preserves S register_topology.
Proof. unfold register_topology. cbn [fmap list_fmap app all_ok]. keep_method. Qed.

Lemma keeps_admit draws count index rng : preserves S (admit_loop draws count index rng).
Proof.
  revert index rng. induction count as [|count IH]; intros index rng; cbn [admit_loop]; keep_method.
Qed.

Lemma keeps_open draws : preserves S (open_scheduler draws).
Proof.
  unfold open_scheduler, admit_flows. keep_method;
    auto using keeps_resolve_flows, keeps_topology, keeps_admit.
Qed.
End Keeps.

(** ** Peers come and go *)

Section Peers.
Context (attempts schedules : N).
Hypotheses (Ha : attempts < u64_max) (Hs : schedules < u64_max).

Lemma supervised_push todo p c :
  supervised todo attempts schedules c ->
  supervised todo attempts schedules (c <| cd_peers ::= fun l => l ++ [p] |>).
Proof.
  intros [Hin Hv Hrd Hsp Hr Ht]. constructor; upd_simpl; try done.
  - intros a oa. upd_simpl. intros Hoa. destruct (Hr a oa Hoa) as (Hid & v & Hb).
    split; [done|]. exists v. rewrite fmap_app. by apply lookup_app_l_Some.
  - intros a l Hl Hlive. destruct (Ht a l Hl Hlive) as [H|(oa & w & b & Hoa & Hb)]; [by left|].
    right. exists oa, w, b. upd_simpl. split; [done|]. rewrite fmap_app. by apply lookup_app_l_Some.
Qed.

(** The record of a dead attempt can go. *)
Lemma supervised_erase todo a c :
  supervised (a :: todo) attempts schedules c ->
  (forall l, lt_leases (leases (cd_scheduler c)) !! a = Some l -> ls_live l = false) ->
  supervised todo attempts schedules (c <| cd_attempts ::= delete a |>).
Proof.
  intros [Hin Hv Hrd Hsp Hr Ht] Hdead. constructor; upd_simpl; try done.
  - intros b oa. upd_simpl. intros [_ Hoa]%lookup_delete_Some. by apply Hr.
  - intros b l Hl Hlive. destruct (decide (a = b)) as [<-|Hne].
    { specialize (Hdead l Hl). congruence. }
    destruct (Ht b l Hl Hlive) as [H|(oa & w & b' & Hoa & Hb)].
    + apply elem_of_cons in H as [->|H]; [done | by left].
    + right. exists oa, w, b'. upd_simpl. by rewrite lookup_delete_ne.
Qed.

Lemma supervised_weaken todo todo' c :
  todo ⊆ todo' -> supervised todo attempts schedules c -> supervised todo' attempts schedules c.
Proof.
  intros Hsub [Hin Hv Hrd Hsp Hr Ht]. constructor; try done. intros a l Hl Hlive.
  destruct (Ht a l Hl Hlive) as [H|H]; [left; by apply Hsub | by right].
Qed.

Lemma abandon_tracked_ok todo reason a c :
  supervised (a :: todo) attempts schedules c ->
  wp (abandon_tracked reason a) (fun _ => supervised todo attempts schedules) (fun _ _ => False) c.
Proof.
  intros H. unfold abandon_tracked. do 3 wp_step. apply wp_call.
  set (k := CAbandonAttempt a reason (cd_now c)).
  pose proof (supervised_run _ _ _ Ha Hs k c eq_refl ltac:(done) H) as H1.
  set (c1 := c <| cd_scheduler := run k (cd_scheduler c) |>) in *.
  change (exec (abandon_attempt a reason (cd_now c)) (cd_scheduler c)) with (run k (cd_scheduler c)).
  fold c1.
  assert (forall l, lt_leases (leases (cd_scheduler c1)) !! a = Some l -> ls_live l = false) as Hdead.
  { intros l. destruct H as [Hin Hv _ Hsp _ _].
    apply (abandon_dead a reason (cd_now c) (cd_scheduler c) l Hin); [|done].
    by apply (spent_ids_left attempts schedules). }
  wp_step.
  assert (forall c2, watched c2 = watched c1 ->
    supervised todo attempts schedules (c2 <| cd_attempts ::= delete a |>)) as Hend.
  { intros c2 Hc2. apply supervised_erase; [by apply (supervised_ext _ _ _ c1)|].
    injection Hc2 as -> _ _ _. exact Hdead. }
  destruct (outcome _ _) as [|[]]; repeat wp_step; try (apply Hend; done);
    unfold report; wp_step; wp_step; apply Hend; by repeat case_match.
Qed.

Lemma abandon_all_ok todo reason l c :
  supervised (l ++ todo) attempts schedules c ->
  wp (abandon_all reason l) (fun _ => supervised todo attempts schedules) (fun _ _ => False) c.
Proof.
  revert c. induction l as [|a l IH]; intros c H; [done|]. cbn [abandon_all app] in *. wp_step.
  eapply wp_conseq; [by apply (abandon_tracked_ok (l ++ todo))| |done].
  intros [] c1 Hc1. by apply IH.
Qed.

(** The attempts of a peer are the ones recorded under it. *)
Lemma elem_of_attempts_of m a peer :
  a ∈ attempts_of order peer m <-> exists oa, m !! a = Some oa /\ oa_peer oa = peer.
Proof.
  unfold attempts_of. rewrite list_elem_of_filter, (Horder m), elem_of_map_keys. split.
  - intros [H _]. destruct (m !! a) as [oa|]; [|done]. injection H as H. by exists oa.
  - intros (oa & -> & <-). split; [done | by eexists].
Qed.

Lemma badge_close i j (l : list Peer) w b v :
  (badge <$> l) !! j = Some (w, b, v) ->
  exists v', (badge <$> alter close_peer i l) !! j = Some (w, b, v') /\ (i <> j -> v' = v).
Proof.
  rewrite list_lookup_fmap. destruct (l !! j) as [p|] eqn:E; [|done]. cbn. intros [= <- <- <-].
  rewrite list_lookup_fmap. destruct (decide (i = j)) as [<-|Hne].
  - rewrite list_lookup_alter_eq, E. cbn. exists (pe_alive (close_peer p)). split; [|done].
    unfold close_peer, badge. by destruct (pe_alive p) eqn:Hp.
  - rewrite list_lookup_alter_ne, E by done. by exists (pe_alive p).
Qed.

Lemma supervised_close todo peer c :
  supervised todo attempts schedules c ->
  supervised (attempts_of order peer (cd_attempts c) ++ todo) attempts schedules
    (c <| cd_peers ::= alter close_peer peer |>).
Proof.
  intros [Hin Hv Hrd Hsp Hr Ht]. constructor; upd_simpl; try done.
  - intros a oa. upd_simpl. intros Hoa. destruct (Hr a oa Hoa) as (Hid & v & Hb).
    split; [done|]. destruct (badge_close peer _ _ _ _ _ Hb) as (v' & Hb' & _). by exists v'.
  - intros a l Hl Hlive. destruct (Ht a l Hl Hlive) as [H|(oa & w & b & Hoa & Hb)].
    { left. apply elem_of_app. by right. }
    destruct (decide (peer = oa_peer oa)) as [Hp|Hne].
    + left. apply elem_of_app. left. apply elem_of_attempts_of. by exists oa.
    + right. destruct (badge_close peer _ _ _ _ _ Hb) as (v' & Hb' & Hv'). rewrite Hv' in Hb' by done.
      by exists oa, w, b.
Qed.

Lemma wp_preserves {A} (P : Coordinator -> Prop) (m : Co A) c :
  preserves P m -> P c -> wp m (fun _ => P) (fun _ => P) c.
Proof. intros H Hc. apply wp_exec. by apply H. Qed.

Lemma keeps_retire todo peer reason :
  preserves (supervised todo attempts schedules) (retire_peer order peer reason).
Proof.
  intros c H. apply wp_exec. unfold retire_peer. do 2 wp_step. destruct (_ <=? _)%nat; [done|].
  do 2 wp_step. cbv zeta. wp_step. eapply wp_conseq; [apply abandon_all_ok, (supervised_close todo peer c H)| |done].
  intros [] c1 H1. do 2 wp_step. apply wp_preserves; [by apply keeps_resolve_flows|].
  by apply (supervised_ext _ _ _ c1).
Qed.

(** ** Frames *)

Context (todo : list N).
Let S := supervised todo attempts schedules.

Ltac keep_leaf :=
  lazymatch goal with
  | |- preserves _ report => apply keeps_report
  | |- preserves _ (print _) => apply keeps_print
  | |- preserves _ (await _) => apply keeps_await
  | |- preserves _ (send_to _ _ _) => apply keeps_send
  | |- preserves _ (receive_now _) => apply keeps_receive
  | |- preserves _ (retire_peer _ _ _) => apply keeps_retire
  | |- preserves _ (modify _) => by apply keeps_same
  end.
Ltac keep_method := repeat first [keep_leaf | preserve_step]; try done.

Lemma keeps_started payload : preserves S (handle_started payload).
Proof.
  unfold handle_started. destruct (decode_started payload) as [m|]; [|keep_method].
  intros c H. apply wp_exec. do 2 wp_step.
  destruct (cd_attempts c !! sm_attempt m) as [oa|] eqn:Hoa;
    [|by apply wp_preserves; [apply keeps_report|]].
  destruct (oa_started oa); [done|]. wp_step. apply wp_call.
  set (k := CMarkStarted (oa_ticket oa) (cd_now c)).
  pose proof (supervised_run _ _ _ Ha Hs k c eq_refl ltac:(done) H) as H1.
  change (exec (mark_started (oa_ticket oa) (cd_now c)) (cd_scheduler c))
    with (run k (cd_scheduler c)).
  destruct (outcome _ _) as [[]|]; [|by apply wp_preserves; [apply keeps_report|]]. wp_step.
  destruct H1 as [Hin Hv Hrd Hsp Hr Ht]. constructor; upd_simpl; try done.
  - intros a oa'. upd_simpl. intros [[<- <-]|[_ Ho]]%lookup_insert_Some; [|by apply Hr].
    exact (Hr (sm_attempt m) oa Hoa).
  - intros a l Hl Hlive. destruct (Ht a l Hl Hlive) as [Hin'|(oa' & w & b & Ho & Hb)]; [by left|].
    right. destruct (decide (sm_attempt m = a)) as [<-|Hne].
    + eexists _, w, b. upd_simpl. rewrite lookup_insert_eq. split; [done|]. upd_simpl.
      change (cd_attempts c !! sm_attempt m = Some oa') in Ho. by replace oa with oa' by congruence.
    + exists oa', w, b. upd_simpl. by rewrite lookup_insert_ne.
Qed.

Lemma keeps_finish : preserves S (maybe_finish_after_completion order).
Proof. unfold maybe_finish_after_completion. keep_method. Qed.

Lemma keeps_completion payload : preserves S (handle_completion order payload).
Proof.
  unfold handle_completion. destruct (decode_completion payload) as [m|]; [|keep_method].
  cbv zeta. set (e := cm_evidence m). intros c H. apply wp_exec. do 3 wp_step. apply wp_call.
  set (k := CComplete e (cd_now c)).
  pose proof (supervised_run _ _ _ Ha Hs k c eq_refl ltac:(done) H) as H1.
  change (exec (complete e (cd_now c)) (cd_scheduler c)) with (run k (cd_scheduler c)).
  set (c1 := c <| cd_scheduler := run k (cd_scheduler c) |>) in *.
  destruct (outcome _ _) as [o|] eqn:Hout.
  2:{ wp_step. by apply (supervised_ext _ _ _ c1). }
  case_bool_decide as Happ.
  - do 2 wp_step. apply wp_preserves; [apply keeps_finish|].
    apply (supervised_ext _ _ _ (c1 <| cd_attempts ::= delete (ev_attempt e) |>)); [done|].
    apply supervised_erase; [by apply (supervised_weaken todo), H1; set_solver|].
    eapply (complete_dead (cd_scheduler c) e (cd_now c) _ o); [by apply in_service_lease_inv, H|..|done].
    unfold outcome in Hout. subst c1 k. upd_simpl. cbn [run]. unfold exec.
    destruct (complete e (cd_now c) (cd_scheduler c)) as [im r]. cbn in Hout. by subst r.
  - do 2 wp_step. apply wp_preserves; [apply keeps_report|]. by apply (supervised_ext _ _ _ c1).
Qed.

Lemma keeps_rejected payload : preserves S (handle_dispatch_rejected payload).
Proof.
  unfold handle_dispatch_rejected. destruct (decode_dispatch_rejected payload) as [m|];
    [|keep_method]. repeat (preserve_step; try keep_leaf).
  intros c H. apply wp_exec. eapply wp_conseq; [apply (abandon_tracked_ok todo)|done|done].
  apply (supervised_weaken todo); [set_solver | done].
Qed.

Lemma keeps_frame peer type payload : preserves S (handle_frame order peer type payload).
Proof.
  unfold handle_frame, handle_error. keep_method;
    auto using keeps_started, keeps_completion, keeps_rejected.
Qed.

Lemma keeps_drain_peer fuel index frames :
  preserves S (drain_peer order error_message fuel index frames).
Proof.
  revert frames. induction fuel as [|fuel IH]; intros frames; cbn [drain_peer]; keep_method.
  apply keeps_frame.
Qed.

Lemma keeps_drain_peers indices frames :
  preserves S (drain_peers order error_message indices frames).
Proof.
  revert frames. induction indices as [|i indices IH]; intros frames; cbn [drain_peers];
    keep_method. apply keeps_drain_peer.
Qed.

Lemma keeps_drain wait : preserves S (drain order error_message wait).
Proof. unfold drain, drain_pass. keep_method; apply keeps_drain_peers. Qed.

(** ** Connections *)

Lemma keeps_greet socket : preserves S (greet error_message socket).
Proof.
  unfold greet, refuse, send_candidate. keep_method. by apply supervised_push.
Qed.

Lemma keeps_handshake count : preserves S (handshake error_message count).
Proof.
  induction count as [|count IH]; cbn [handshake]; keep_method. apply keeps_greet.
Qed.
End Peers.

(** ** Rounds *)

Lemma supervised_more todo a a' s s' c :
  a <= a' -> s <= s' -> supervised todo a s c -> supervised todo a' s' c.
Proof. intros ? ? [Hin Hv Hrd Hsp Hr Ht]. constructor; try done. unfold spent in *. lia. Qed.

(** [pick_worker] finds a live peer, or none is left. *)
Lemma wp_pick_worker c :
  wp pick_worker
    (fun i c' => watched c' = watched c /\ cd_peers c' = cd_peers c /\
       forall p, cd_peers c !! i = Some p -> pe_alive p = true)
    (fun _ _ => False) c.
Proof.
  unfold pick_worker. do 2 wp_step. cbv zeta. destruct (list_find _ _) as [[k i]|] eqn:E.
  - do 3 wp_step. split; [done|]. split; [done|]. intros p Hp.
    apply list_find_Some in E as (_ & E & _). rewrite Hp in E. by injection E.
  - wp_step. split; [done|]. split; [done|]. intros p Hp%lookup_lt_Some. lia.
Qed.

Lemma dispatch_ok s g entries a sch c :
  a + N.of_nat (length entries) < u64_max -> sch < u64_max -> supervised [] a sch c ->
  wp (dispatch_entries order s g entries)
    (fun _ => supervised [] (a + N.of_nat (length entries)) sch)
    (fun _ => supervised [] (a + N.of_nat (length entries)) sch) c.
Proof.
  revert a c. induction entries as [|e entries IH]; intros a c Ha Hsch H.
  { cbn [dispatch_entries]. wp_step. revert H. apply supervised_more; simpl; lia. }
  assert (forall a' c', a <= a' <= a + 1 -> supervised [] a' sch c' ->
    wp (dispatch_entries order s g entries)
      (fun _ => supervised [] (a + N.of_nat (length (e :: entries))) sch)
      (fun _ => supervised [] (a + N.of_nat (length (e :: entries))) sch) c') as Hrest.
  { intros a' c' Ha' H'. eapply wp_conseq; [apply (IH a' c'); [|done|exact H']| |].
    - cbn [length] in Ha. lia.
    - intros [] c2. apply supervised_more; cbn [length]; lia.
    - intros h c2. apply supervised_more; cbn [length]; lia. }
  assert (forall {A} (m : Co A) c' (k : A -> Co unit),
    preserves (supervised [] (a + 1) sch) m -> supervised [] (a + 1) sch c' ->
    (forall r c2, supervised [] (a + 1) sch c2 -> wp (k r)
      (fun _ => supervised [] (a + N.of_nat (length (e :: entries))) sch)
      (fun _ => supervised [] (a + N.of_nat (length (e :: entries))) sch) c2) ->
    wp (bind m k) (fun _ => supervised [] (a + N.of_nat (length (e :: entries))) sch)
      (fun _ => supervised [] (a + N.of_nat (length (e :: entries))) sch) c') as Hseq.
  { intros A m c' k Hm H' Hk. wp_step. eapply wp_conseq; [by apply wp_preserves|exact Hk|].
    intros h c2. apply supervised_more; cbn [length]; lia. }
  cbn [dispatch_entries]. cbn [length] in Ha.
  destruct (negb (is_run e)); [apply (Hrest a); [lia | done]|].
  wp_step. eapply wp_conseq; [apply wp_pick_worker| |done]. intros i c1 (Hw & Hp & Halive).
  do 2 wp_step. destruct (cd_peers c1 !! i) as [p|] eqn:Hi.
  2:{ wp_step. apply (supervised_ext _ _ _ _ _ Hw) in H. revert H.
      apply supervised_more; cbn [length]; lia. }
  assert (supervised [] a sch c1) as H1 by (by apply (supervised_ext _ _ _ c)).
  rewrite Hp in Hi. specialize (Halive p Hi).
  wp_step. eapply wp_conseq; [apply (supervised_dispatch [] a sch); [lia|done|exact H1|]| |done].
  { rewrite list_lookup_fmap, Hp, Hi. cbn. unfold badge. by rewrite Halive. }
  intros [t|err] c2 [H2 _].
  - do 4 wp_step. apply Hseq; [by apply keeps_send; lia|done|].
    intros [[]|] c3 H3.
    + do 2 wp_step. apply (Hrest (a + 1)); [lia|]. by apply (supervised_ext _ _ _ c3).
    + apply Hseq; [|done|intros [] c4 H4; apply (Hrest (a + 1)); [lia|done]].
      apply preserves_bind; [by apply keeps_report; lia|]. intros []. by apply keeps_retire; lia.
  - do 2 wp_step. apply Hseq; [by apply keeps_report; lia|by apply (supervised_ext _ _ _ c2)|].
    intros [] c3 H3. by apply (Hrest (a + 1)); [lia|].
Qed.

(** What one round can spend. *)
Definition round_attempts : N := hard_entry_limit + 1.

Lemma round_ok a s c :
  a + round_attempts < u64_max -> s + 1 < u64_max -> supervised [] a s c ->
  wp (round order error_message) (fun _ => supervised [] (a + round_attempts) (s + 1))
    (fun _ => supervised [] (a + round_attempts) (s + 1)) c.
Proof.
  intros Ha Hs H. unfold round. do 2 wp_step. destruct (all_flows_terminal c).
  { do 3 wp_step. revert H. intros H%(supervised_more _ a (a + round_attempts) s (s + 1)); [|lia|lia].
    by apply (supervised_ext _ _ _ c). }
  wp_step. apply wp_call.
  pose proof (supervised_arbitrate [] a s ltac:(lia) ltac:(lia) (cd_now c) c H) as H1.
  set (c1 := c <| cd_scheduler := _ |>) in *. clearbody c1.
  destruct (outcome _ _) as [o|e] eqn:Ho.
  2:{ wp_step. revert H1. apply supervised_more; lia. }
  apply arbitrate_schedule in Ho as [Hlen _].
  assert (a + N.of_nat (length (sc_entries (ao_schedule o))) <= a + round_attempts) as Hle.
  { unfold round_attempts. lia. }
  do 3 wp_step. eapply wp_conseq.
  { apply (dispatch_ok _ _ _ a (s + 1)); [lia|lia|]. by apply (supervised_ext _ _ _ c1). }
  2:{ intros h c2. by apply supervised_more. }
  intros [] c2 H2. do 3 wp_step. apply (supervised_more _ _ (a + round_attempts) _ (s + 1)) in H2;
    [|done|done].
  eapply wp_conseq; [apply wp_preserves; [by apply (keeps_drain (a + round_attempts) (s + 1))|exact H2]| |done].
  intros [] c3 H3. do 2 wp_step. destruct (cd_fatal c3); [done|]. do 3 wp_step.
  by apply (supervised_ext _ _ _ c3).
Qed.

Lemma rounds_ok fuel a s c :
  a + N.of_nat fuel * round_attempts < u64_max -> s + N.of_nat fuel < u64_max ->
  supervised [] a s c ->
  wp (rounds_loop order error_message fuel)
    (fun _ => supervised [] (a + N.of_nat fuel * round_attempts) (s + N.of_nat fuel))
    (fun _ => supervised [] (a + N.of_nat fuel * round_attempts) (s + N.of_nat fuel)) c.
Proof.
  revert a s c. induction fuel as [|fuel IH]; intros a s c Ha Hs H; cbn [rounds_loop]; do 2 wp_step.
  { replace (a + N.of_nat 0 * round_attempts) with a by lia.
    replace (s + N.of_nat 0) with s by lia. by destruct (_ <? _). }
  assert (a + N.of_nat (S fuel) * round_attempts =
          a + round_attempts + N.of_nat fuel * round_attempts) as Ea by lia.
  assert (s + N.of_nat (S fuel) = s + 1 + N.of_nat fuel) as Es by lia. rewrite Ea, Es in *.
  destruct (_ <? _).
  2:{ wp_step. revert H. apply supervised_more; lia. }
  wp_step. eapply wp_conseq; [apply (round_ok a s); [lia|lia|done]| |].
  - intros [b|] c1 H1; [wp_step; revert H1; apply supervised_more; lia|]. by apply IH.
  - intros h c1. apply supervised_more; lia.
Qed.

(** The identities a whole run can spend. *)
Definition run_attempts : N := 1 + 100000000 * round_attempts.
Definition run_schedules : N := 1 + 100000000.

Lemma run_small : run_attempts < u64_max /\ run_schedules < u64_max.
Proof. done. Qed.

Lemma main_loop_ok c :
  supervised [] 1 1 c ->
  wp (main_loop order error_message) (fun _ => supervised [] run_attempts run_schedules)
    (fun _ => supervised [] run_attempts run_schedules) c.
Proof.
  intros H. unfold main_loop. do 2 wp_step. cbv zeta. do 2 wp_step.
  pose proof (sv_rounds _ _ _ _ H) as Hr. pose proof run_small as [Ha Hs].
  set (fuel := N.to_nat (co_rounds (cd_options c))).
  assert (1 + N.of_nat fuel * round_attempts <= run_attempts) as Hle.
  { unfold run_attempts. subst fuel. rewrite N2Nat.id.
    apply N.add_le_mono_l, N.mul_le_mono_r. done. }
  assert (1 + N.of_nat fuel <= run_schedules) as Hle'.
  { unfold run_schedules. subst fuel. rewrite N2Nat.id. lia. }
  eapply wp_conseq; [apply (rounds_ok fuel 1 1); [lia|lia|by apply (supervised_ext _ _ _ c)]| |].
  - intros b c1. by apply supervised_more.
  - intros h c1. by apply supervised_more.
Qed.

Lemma session_ok draws c :
  supervised [] 1 1 c ->
  wp (session order error_message draws) (fun _ => supervised [] run_attempts run_schedules)
    (fun _ => supervised [] run_attempts run_schedules) c.
Proof.
  assert (forall c, supervised [] 1 1 c -> supervised [] run_attempts run_schedules c) as Hmore.
  { intros c0. apply supervised_more; by vm_compute. }
  intros H. unfold session. wp_step.
  eapply wp_conseq; [apply wp_preserves; [by apply (keeps_open [] 1 1)|exact H]| |auto].
  intros [] c1 H1; cbn [negb]; [|wp_step; auto]. do 3 wp_step.
  eapply wp_conseq; [apply wp_preserves; [by apply (keeps_handshake 1 1 [])|exact H1]| |auto].
  intros [] c2 H2; cbn [negb]; [|wp_step; auto]. by apply main_loop_ok.
Qed.
End Methods.

(** ** A run from its start *)

Lemma supervised_start o im accepts selects :
  co_rounds o <= 100000000 -> create_volatile (make_policy o) = Ok im ->
  supervised [] 1 1 (new_coordinator o im accepts selects).
Proof.
  intros Hr Hc. assert (im = (initial_impl (make_policy o)) <| im_epoch := 1 |>) as ->.
  { unfold create_volatile in Hc. destruct (validate_policy _); [|done]. by injection Hc as <-. }
  constructor; unfold new_coordinator; cbn [cd_scheduler cd_options cd_attempts cd_peers].
  - by apply (serve_volatile (make_policy o)).
  - done.
  - done.
  - unfold spent. upd_simpl. done.
  - intros a oa. cbn [cd_attempts]. by rewrite lookup_empty.
  - intros a l Hl. exfalso. apply lookup_leases in Hl as (r & Hr' & _). revert Hr'. upd_simpl.
    unfold initial_impl. cbn [im_attempts]. by rewrite lookup_empty.
Qed.

(** ** After the main loop *)

(** What the final shutdown leaves alone: the scheduler, the records, and who is
    behind every connection. *)
Definition manned (c : Coordinator)
  : Impl * gmap N OpenAttempt * list (WorkerId * BootId) :=
  (cd_scheduler c, cd_attempts c, (fun p => (pe_worker p, pe_boot p)) <$> cd_peers c).

Section Shutdown.
Context (order : gmap N OpenAttempt -> list N) (error_message : ErrorCode -> string).
Context (v : Impl * gmap N OpenAttempt * list (WorkerId * BootId)).
Let K (c : Coordinator) : Prop := manned c = v.

Lemma manned_same f : (forall c, manned (f c) = manned c) -> preserves K (modify (E := Halt) f).
Proof. intros H. apply preserves_modify. intros c. unfold K. by rewrite H. Qed.

Lemma manned_send index type payload : preserves K (send_to index type payload).
Proof.
  intros c Hc. unfold exec, send_to, with_peer, bind, get.
  destruct (cd_peers c !! index) as [p|] eqn:Hp; [|done].
  pose proof (badge_send type payload p) as Hb. destruct (send_peer type payload p) as [p' r].
  cbn [fst] in Hb. replace (fst _) with (c <| cd_peers ::= <[ index := p' ]> |>) by (by destruct r).
  unfold K in *. rewrite <- Hc. unfold manned. upd_simpl. f_equal. rewrite list_fmap_insert.
  apply list_insert_id. rewrite list_lookup_fmap, Hp. cbn. unfold badge in Hb. congruence.
Qed.

Lemma manned_shutdown indices : preserves K (shutdown_from indices).
Proof.
  induction indices as [|index indices IH]; cbn [shutdown_from].
  { apply preserves_ret. }
  apply preserves_bind; [apply preserves_get|]. intros c.
  destruct (cd_peers c !! index) as [peer|]; [|done]. destruct (pe_alive peer); [|done].
  apply preserves_bind; [apply manned_send|]. intros sent.
  apply preserves_bind; [destruct sent; [apply preserves_ret|apply manned_same]|].
  { intros c1. by repeat case_match. }
  intros []. apply preserves_bind; [|by intros []]. apply manned_same. intros c1. unfold manned.
  upd_simpl. f_equal. apply list_eq. intros i. rewrite !list_lookup_fmap.
  destruct (decide (i = index)) as [->|Hi].
  - rewrite list_lookup_alter_eq. by destruct (cd_peers c1 !! index).
  - by rewrite list_lookup_alter_ne.
Qed.
End Shutdown.

(** The whole process ends as its session ended, but that a main loop that came
    to its end closes every connection. *)
Lemma serve_manned order error_message draws c :
  let s := session order error_message draws in
  exec (serve order error_message draws) c = exec s c \/
  outcome s c = Ok true /\ manned (exec (serve order error_message draws) c) = manned (exec s c).
Proof.
  cbv zeta.
  assert (exists rest : Co N, serve order error_message draws =
      bind (session order error_message draws) (fun b => if negb b then ret 1 else rest) /\
      forall v, preserves (fun c => manned c = v) rest) as (rest & -> & Hrest).
  { eexists. split; [reflexivity|]. intros v. unfold shutdown_peers.
    repeat preserve_step; first [apply manned_shutdown | by apply manned_same]. }
  unfold exec, outcome, bind.
  destruct (session order error_message draws c) as [c1 [[]|h]]; cbn [fst snd]; [right|by left|by left].
  split; [done|].
  by apply (Hrest (manned c1)).
Qed.

(** ** Properties *)

(** C5 No orphaned work.  In volatile mode, whatever the workers send,
    however their connections fail and at whatever system call the process waits:
    from its start to the end of its main loop, every dispatch attempt the
    scheduler holds open is recorded by the coordinator under a connection that is
    still alive, and the ticket it recorded names that connection's worker and
    boot.  A worker that is lost therefore never leaves an attempt behind that
    nobody will close.  When the process has ended, every attempt that is still
    open is recorded under the connection of the worker and boot it was granted
    to; that connection is still alive unless the main loop came to its end, after
    which the coordinator closes every connection. *)
Theorem no_orphaned_attempt (order : gmap N OpenAttempt -> list N)
  (error_message : ErrorCode -> string) (draws : nat) (args : list string)
  (o : CoordinatorOptions) (dir : StateDirectory) (im : Impl) (accepts : list (Res Socket))
  (selects : list SelectAnswer)
  (Horder : forall m, order m ≡ₚ map_keys m)
  (Hopts : coordinator_options args = Some o) (Hmode : co_state o = EmptyString)
  (Hcreate : create o dir = Ok im) :
  let start := new_coordinator o im accepts selects in
  let held (c : Coordinator) (ended : Prop) :=
    forall a r, im_attempts (cd_scheduler c) !! a = Some r ->
      is_attempt_terminal (at_state r) = false ->
      exists oa peer, cd_attempts c !! a = Some oa /\ tk_attempt (oa_ticket oa) = a /\
        cd_peers c !! oa_peer oa = Some peer /\ (pe_alive peer = true \/ ended) /\
        pe_worker peer = tk_worker (oa_ticket oa) /\ pe_boot peer = tk_boot (oa_ticket oa) in
  held (exec (session order error_message draws) start) False /\
  held (exec (serve order error_message draws) start)
    (outcome (session order error_message draws) start = Ok true).
Proof.
  assert (co_rounds o <= 100000000) as Hrounds.
  { apply (co_ok_rounds _ (coordinator_options_ok _ _ Hopts)). }
  assert (create_volatile (make_policy o) = Ok im) as Hvol.
  { unfold create in Hcreate. by rewrite Hmode in Hcreate. }
  pose proof (supervised_start o im accepts selects Hrounds Hvol) as H0.
  apply (session_ok order error_message Horder draws), wp_exec in H0. intros start held.
  pose proof (serve_manned order error_message draws start) as Hend. cbv zeta in Hend.
  fold start in H0. set (c := exec (session order error_message draws) start) in *.
  assert (held c False) as Hheld.
  { intros a r Hr Ht. destruct H0 as [_ _ _ _ Hrec Htr].
    destruct (Htr a (lease_of r)) as [H|(oa & w & b & Hoa & Hb)].
    - apply lookup_leases. eauto.
    - unfold lease_of. cbn. by rewrite Ht.
    - by apply elem_of_nil in H.
    - destruct (Hrec a oa Hoa) as (Hid & v & Hb'). rewrite Hb in Hb'. injection Hb' as -> -> <-.
      rewrite list_lookup_fmap in Hb. destruct (cd_peers c !! oa_peer oa) as [p|] eqn:Hp; [|done].
      injection Hb as Hw Hbt Hal. exists oa, p. split_and!; try done. by left. }
  split; [done|]. clearbody c. destruct Hend as [->|[Hdone Hman]]; intros a r.
  - intros Hr Ht. destruct (Hheld a r Hr Ht) as (oa & p & H1 & H2 & H3 & [H4|[]] & H5).
    exists oa, p. split_and!; try apply H5; try done. by left.
  - unfold manned in Hman. injection Hman as -> -> Hp. intros Hr Ht.
    destruct (Hheld a r Hr Ht) as (oa & p & H1 & H2 & H3 & _ & H5 & H6).
    apply (f_equal (lookup (oa_peer oa))) in Hp. rewrite !list_lookup_fmap, H3 in Hp.
    apply fmap_Some in Hp as (p' & Hp' & [= Hw Hb]).
    exists oa, p'. split_and!; try done; [by right|congruence|congruence].
Qed.

(** The rehearsed coordinator, waiting for its worker with two attempts open. *)
Definition waiting : Coordinator :=
  exec (session map_keys error_code_string 4) (Rehearsal.begin (Rehearsal.script 0)).

Lemma no_orphaned_attempt_witness :
  exists oa peer, cd_attempts waiting !! 2 = Some oa /\ cd_peers waiting !! oa_peer oa = Some peer /\
    pe_alive peer = true /\ pe_worker peer = 7.
Proof.
  assert ((fun r => is_attempt_terminal (at_state r)) <$>
          im_attempts (cd_scheduler waiting) !! 2 = Some false) as Hlive
    by (vm_compute; reflexivity).
  assert ((fun oa => tk_worker (oa_ticket oa)) <$> cd_attempts waiting !! 2 = Some 7) as Hworker
    by (vm_compute; reflexivity).
  destruct (im_attempts (cd_scheduler waiting) !! 2) as [r|] eqn:Hr; [|discriminate Hlive].
  injection Hlive as Ht.
  destruct (no_orphaned_attempt map_keys error_code_string 4 Rehearsal.coordinator_args
    Rehearsal.coordinator Rehearsal.directory Rehearsal.scheduler
    (Rehearsal.connection (Rehearsal.script 0)) (repeat SelectTimeout 16)
    (fun m => reflexivity _) eq_refl eq_refl eq_refl) as [Hrun _].
  destruct (Hrun 2 r Hr Ht) as (oa & p & Hoa & Hid & Hp & [Hal|[]] & Hw & _).
  exists oa, p. split; [exact Hoa|]. split; [exact Hp|]. split; [exact Hal|].
  rewrite Hw. change (cd_attempts waiting !! 2 = Some oa) in Hoa. rewrite Hoa in Hworker.
  injection Hworker as Hworker. exact Hworker.
Defined.
