(* ===== verification/Progress.v ===== *)
(** * The coordinator keeps going

    For every behaviour of the network and of the disk, and in every mode, the
    coordinator's own loops end. *)

From S2P Require Import Prelude Checked Bytes Hash Model Schedule Codec Framing Transport Protocol.
From S2P Require Import Journal State Transitions Arbitrate Operations Recovery Observe Commandline.
From S2P Require Import Coordinator Worker Rehearsal Invariants Frames Capacity Bounds Random System.
From S2P Require Import Supervision.

(** What the run cannot lose: its options, its round counter, and a scheduler
    that public calls have led to from [im0]. *)
Definition steady (o : CoordinatorOptions) (rounds : N) (im0 : Impl) (c : Coordinator) : Prop :=
  cd_options c = o /\ cd_rounds_run c = rounds /\ exists calls, cd_scheduler c = run_all calls im0.

Section Sound.
Context (order : gmap N OpenAttempt -> list N) (error_message : ErrorCode -> string).
Context (o : CoordinatorOptions) (im0 : Impl).

Section Methods.
Context (rounds : N).
Let S := steady o rounds im0.

(** Ends, and keeps [steady]; [Q] tells what it returns. *)
Definition sound_with {A} (Q : A -> Prop) (m : Co A) : Prop :=
  forall c, S c -> wp m (fun a c' => Q a /\ S c') (fun h c' => h <> OutOfFuel /\ S c') c.
Definition sound {A} (m : Co A) : Prop := sound_with (fun _ => True) m.

Lemma sound_bind {A B} (Q : A -> Prop) (R : B -> Prop) (m : Co A) (k : A -> Co B) :
  sound_with Q m -> (forall a, Q a -> sound_with R (k a)) -> sound_with R (bind m k).
Proof.
  intros Hm Hk c Hc. wp_step. eapply wp_conseq; [by apply Hm| |done].
  intros a c' [Ha Hc']. by apply Hk.
Qed.

Lemma sound_step {A B} (R : B -> Prop) (m : Co A) (k : A -> Co B) :
  sound m -> (forall a, sound_with R (k a)) -> sound_with R (bind m k).
Proof. intros Hm Hk. eapply sound_bind; [exact Hm | auto]. Qed.

Lemma sound_ret {A} (Q : A -> Prop) a : Q a -> sound_with Q (ret a).
Proof. by intros Ha c Hc. Qed.
Lemma sound_throw {A} (Q : A -> Prop) h : h <> OutOfFuel -> sound_with Q (throw h).
Proof. by intros Hh c Hc. Qed.
Lemma sound_get : sound get.
Proof. by intros c Hc. Qed.
Lemma sound_modify f :
  (forall c, cd_options (f c) = cd_options c /\ cd_rounds_run (f c) = cd_rounds_run c /\
             cd_scheduler (f c) = cd_scheduler c) -> sound (modify f).
Proof.
  intros Hf c (H1 & H2 & H3). wp_step. destruct (Hf c) as (E1 & E2 & E3).
  split; [done|]. unfold S, steady. by rewrite E1, E2, E3.
Qed.
Lemma sound_await {A} (r : Blocking A) : sound (await r).
Proof. destruct r; by intros c Hc. Qed.

Lemma sound_call {A} (op : Op A) k : (forall im, run k im = exec op im) -> sound (call op).
Proof.
  intros Hk c (H1 & H2 & calls & H3). apply wp_call. split; [done|].
  split; [done|]. split; [done|]. exists (calls ++ [k]). upd_simpl.
  unfold run_all in *. by rewrite foldl_app, <- H3, <- Hk.
Qed.

Lemma sound_with_peer {A} index (f : Peer -> Peer * Blocking A) : sound (with_peer index f).
Proof.
  unfold with_peer. apply sound_step; [apply sound_get|]. intros c.
  destruct (cd_peers c !! index) as [p|]; [|by apply sound_throw].
  destruct (f p) as [p' r]. apply sound_step; [by apply sound_modify|]. intros _. apply sound_await.
Qed.

Lemma sound_report : sound report.
Proof. apply sound_modify. intros c. by repeat case_match. Qed.
End Methods.

Ltac sound_leaf :=
  lazymatch goal with
  | |- sound _ report => apply sound_report
  | |- sound _ (print _) => by apply sound_modify
  | |- sound _ (await _) => apply sound_await
  | |- sound _ (send_to _ _ _) => apply sound_with_peer
  | |- sound _ (receive_now _) => apply sound_with_peer
  | |- sound _ (modify _) => by apply sound_modify
  | |- sound _ (call (resolve_ambiguous ?f ?g ?r ?now)) =>
      by apply (sound_call _ _ (CResolveAmbiguous f g r now))
  | |- sound _ (call (admit_flow ?d)) => by apply (sound_call _ _ (CAdmitFlow d))
  | |- sound _ (call (mark_started ?t ?now)) => by apply (sound_call _ _ (CMarkStarted t now))
  | |- sound _ (call (complete ?e ?now)) => by apply (sound_call _ _ (CComplete e now))
  | |- sound _ (call (abandon_attempt ?a ?r ?now)) =>
      by apply (sound_call _ _ (CAbandonAttempt a r now))
  | |- sound _ (call (arbitrate ?now)) => by apply (sound_call _ _ (CArbitrate now))
  | |- sound _ (call (begin_dispatch ?s ?g ?i ?w ?b ?now)) =>
      by apply (sound_call _ _ (CBeginDispatch s g i w b now))
  | |- sound _ (call (register_resource ?d)) => by apply (sound_call _ _ (CRegisterResource d))
  | |- sound _ (call (register_priority_class ?d)) =>
      by apply (sound_call _ _ (CRegisterPriorityClass d))
  | |- sound _ (call (register_qos_class ?d)) => by apply (sound_call _ _ (CRegisterQoSClass d))
  | |- sound _ get => apply sound_get
  | |- sound _ (ret _) => by apply sound_ret
  | |- sound _ (throw _) => by apply sound_throw
  | |- sound _ (bind _ _) => apply sound_step; [|intros ?]
  | |- sound_with _ _ (bind _ _) => apply sound_step; [|intros ?]
  | |- sound _ (if ?c then _ else _) => destruct c
  | |- sound _ (match ?x with _ => _ end) => destruct x
  | |- sound_with _ _ (if ?c then _ else _) => destruct c
  | |- sound_with _ _ (match ?x with _ => _ end) => destruct x
  | |- sound _ (let _ := _ in _) => cbv zeta
  | |- sound_with _ _ (let _ := _ in _) => cbv zeta
  | |- sound_with ?r ?Q ?m => change (sound r m)
  end.
Ltac sound_method := repeat sound_leaf; try done.

Section Bodies.
Context (rounds : N).
Abbreviation fine := (sound rounds).

Lemma sound_resolve count index : fine (resolve_from count index).
Proof. revert index. induction count; intros index; cbn [resolve_from]; sound_method; auto. Qed.

Lemma sound_resolve_flows : fine resolve_ambiguous_flows.
Proof. unfold resolve_ambiguous_flows. sound_method. apply sound_resolve. Qed.

Lemma sound_abandon_all reason l : fine (abandon_all reason l).
Proof. induction l; cbn [abandon_all]; unfold abandon_tracked; sound_method. Qed.

Lemma sound_retire peer reason : fine (retire_peer order peer reason).
Proof. unfold retire_peer. sound_method; auto using sound_abandon_all, sound_resolve_flows. Qed.

Lemma sound_dispatch s g entries : fine (dispatch_entries order s g entries).
Proof.
  induction entries as [|e entries IH]; cbn [dispatch_entries]; unfold pick_worker; sound_method;
    apply sound_retire.
Qed.

Lemma sound_frame peer type payload : fine (handle_frame order peer type payload).
Proof.
  unfold handle_frame, handle_started, handle_completion, handle_dispatch_rejected, handle_error,
    maybe_finish_after_completion, abandon_tracked. sound_method; apply sound_retire.
Qed.

(** A pass stops at the frame budget, so the fuel of a peer's loop is enough. *)
Lemma sound_drain_peer fuel index frames :
  frames < kMaxFramesPerDrain -> kMaxFramesPerDrain <= frames + N.of_nat fuel ->
  sound_with rounds (fun r : N * bool => r.2 = false -> r.1 < kMaxFramesPerDrain)
    (drain_peer order error_message fuel index frames).
Proof.
  revert frames. induction fuel as [|fuel IH]; intros frames Hf Hfuel; cbn [drain_peer]; [lia|].
  apply sound_step; [apply sound_with_peer|]. intros [[type payload| |]|e].
  - cbv zeta. apply sound_step; [apply sound_frame|]. intros _.
    apply sound_step; [apply sound_get|]. intros c. destruct (cd_fatal c); [by apply sound_ret|].
    destruct (N.leb_spec kMaxFramesPerDrain (frames + 1)).
    + apply sound_step; [apply sound_report|]. intros _. by apply sound_ret.
    + apply IH; lia.
  - by apply sound_ret.
  - apply sound_step; [apply sound_retire|]. intros _. by apply sound_ret.
  - apply sound_step; [apply sound_retire|]. intros _. by apply sound_ret.
Qed.

Lemma sound_drain_peers indices frames :
  frames < kMaxFramesPerDrain -> fine (drain_peers order error_message indices frames).
Proof.
  revert frames. induction indices as [|i indices IH]; intros frames Hf; cbn [drain_peers];
    [by apply sound_ret|].
  apply sound_step; [apply sound_get|]. intros c.
  destruct (cd_peers c !! i) as [p|]; [|by apply IH]. destruct (negb _); [by apply IH|].
  eapply sound_bind; [apply sound_drain_peer; [done|lia]|]. intros [frames' stop]. cbn [fst snd].
  intros Hstop. destruct stop; [by apply sound_ret|]. by apply IH, Hstop.
Qed.

Lemma sound_drain wait : fine (drain order error_message wait).
Proof. unfold drain, drain_pass. sound_method; by apply sound_drain_peers. Qed.

Lemma sound_greet socket : fine (greet error_message socket).
Proof. unfold greet, refuse, send_candidate. sound_method. Qed.

Lemma sound_handshake count : fine (handshake error_message count).
Proof. induction count; cbn [handshake]; sound_method. apply sound_greet. Qed.

Lemma sound_shutdown : fine shutdown_peers.
Proof.
  unfold shutdown_peers. sound_method. generalize (seq 0 (length (cd_peers a))). intros l.
  induction l; cbn [shutdown_from]; sound_method.
Qed.

(** Enough draws for the widest range the workload asks for. *)
Definition enough_draws (draws : nat) : Prop :=
  co_interval o < N.of_nat draws /\ 4 < N.of_nat draws.

Lemma sound_admit draws count index rng :
  enough_draws draws -> co_interval o <= u64_max -> rng < u64_mod ->
  fine (admit_loop draws count index rng).
Proof.
  intros [Hd1 Hd2] Hi. revert index rng. induction count as [|count IH]; intros index rng Hrng;
    cbn [admit_loop]; [by apply sound_ret|].
  intros c Hc. do 2 wp_step. destruct Hc as (Ho & Hc). rewrite Ho.
  destruct (rng_next_below_ok draws (co_interval o) rng) as (r1 & v1 & -> & Hr1 & _); [done..|].
  cbn [mbind option_bind].
  destruct (rng_next_below_ok draws 4 r1) as (r2 & v2 & -> & Hr2 & _); [done..|].
  cbn [mbind option_bind].
  destruct (rng_next_below_ok draws 4 r2) as (r3 & v3 & -> & Hr3 & _); [done..|].
  cbn [mbind option_bind]. revert Hc. intros Hc. assert (steady o rounds im0 c) as H by by split.
  revert c Ho Hc H. intros c _ _. revert c.
  match goal with |- forall c, steady _ _ _ c -> wp ?m _ _ c => change (sound rounds m) end.
  sound_method. by apply IH.
Qed.

Lemma sound_open draws :
  enough_draws draws -> co_interval o <= u64_max -> co_seed o < u64_mod ->
  fine (open_scheduler draws).
Proof.
  intros Hd Hi Hseed. unfold open_scheduler, register_topology. cbn [fmap list_fmap app all_ok].
  sound_method; try apply sound_resolve_flows. unfold admit_flows.
  intros c Hc. do 2 wp_step. cbv zeta. pose proof Hc as (Ho & _). rewrite Ho. revert c Hc Ho.
  intros c Hc _. revert c Hc.
  match goal with |- forall c, steady _ _ _ c -> wp ?m _ _ c => change (sound rounds m) end.
  sound_method. by apply sound_admit.
Qed.
End Bodies.

(** ** Rounds *)

Lemma sound_round rounds :
  forall c, steady o rounds im0 c ->
  wp (round order error_message)
    (fun r c' => if r is None then steady o (incr64 rounds) im0 c'
                 else exists n, steady o n im0 c')
    (fun h c' => h <> OutOfFuel /\ exists n, steady o n im0 c') c.
Proof.
  intros c Hc. unfold round. do 2 wp_step. destruct (all_flows_terminal c).
  { do 3 wp_step. exists rounds. exact Hc. }
  wp_step. eapply wp_conseq; [by apply (sound_call rounds _ (CArbitrate (cd_now c)))| |].
  2:{ intros h c1 [Hh H1]. by split; [|exists rounds]. }
  intros [out|e] c1 [_ H1]; [|wp_step; by exists rounds]. do 3 wp_step.
  set (c2 := c1 <| cd_rounds_run ::= incr64 |>).
  assert (steady o (incr64 rounds) im0 c2) as H2.
  { destruct H1 as (? & <- & ?). by split_and!. }
  eapply wp_conseq; [by apply sound_dispatch| |].
  2:{ intros h c3 [Hh H3]. by split; [|exists (incr64 rounds)]. }
  intros [] c3 [_ H3]. do 3 wp_step. eapply wp_conseq; [by apply sound_drain| |].
  2:{ intros h c4 [Hh H4]. by split; [|exists (incr64 rounds)]. }
  intros [] c4 [_ H4]. do 2 wp_step. destruct (cd_fatal c4).
  - wp_step. by exists (incr64 rounds).
  - do 3 wp_step. exact H4.
Qed.

Lemma sound_rounds fuel rounds :
  co_rounds o <= rounds + N.of_nat fuel -> co_rounds o <= u64_max ->
  forall c, steady o rounds im0 c ->
  wp (rounds_loop order error_message fuel) (fun _ c' => exists n, steady o n im0 c')
    (fun h c' => h <> OutOfFuel /\ exists n, steady o n im0 c') c.
Proof.
  revert rounds. induction fuel as [|fuel IH]; intros rounds Hf Hmax c Hc; cbn [rounds_loop];
    do 2 wp_step; pose proof Hc as (Ho & Hr & _); rewrite Ho, Hr;
    (destruct (N.ltb_spec rounds (co_rounds o)) as [Hlt|Hge]; [|wp_step; by exists rounds]); [lia|].
  wp_step. eapply wp_conseq; [by apply sound_round| |done]. intros [b|] c1 H1; [by wp_step|].
  apply (IH (incr64 rounds)); [|done|done]. unfold incr64, wrap64. rewrite N.mod_small; [lia|].
  unfold u64_mod, u64_max in *. lia.
Qed.
End Sound.

(** ** The whole process *)

Lemma sound_serve order error_message draws o im0 c :
  coordinator_options_in_range o -> enough_draws o draws -> steady o 0 im0 c ->
  wp (serve order error_message draws) (fun _ c' => exists n, steady o n im0 c')
    (fun h c' => h <> OutOfFuel /\ exists n, steady o n im0 c') c.
Proof.
  intros Hopts Hdraws Hc. unfold serve. wp_step.
  assert (co_interval o <= u64_max) as Hi.
  { pose proof (co_ok_interval _ Hopts). unfold kMaxTickHorizon, u64_max in *. lia. }
  assert (co_seed o < u64_mod) as Hseed.
  { pose proof (co_ok_seed _ Hopts). unfold u64, u64_mod, u64_max in *. lia. }
  assert (wp (session order error_message draws) (fun _ c' => exists n, steady o n im0 c')
    (fun h c' => h <> OutOfFuel /\ exists n, steady o n im0 c') c) as Hsession.
  { unfold session. wp_step. eapply wp_conseq; [by apply (sound_open o im0)| |].
    2:{ intros h c1 [Hh H1]. by split; [|exists 0]. }
    intros [] c1 [_ H1]; cbn [negb]; [|wp_step; by exists 0]. do 3 wp_step.
    eapply wp_conseq; [by apply (sound_handshake error_message o im0)| |].
    2:{ intros h c2 [Hh H2]. by split; [|exists 0]. }
    intros [] c2 [_ H2]; cbn [negb]; [|wp_step; by exists 0]. unfold main_loop. do 2 wp_step.
    cbv zeta. do 2 wp_step. pose proof (co_ok_rounds _ Hopts) as [_ Hr].
    apply (sound_rounds order error_message o im0 _ 0).
    - destruct H2 as (-> & _). rewrite N2Nat.id. lia.
    - unfold u64_max. lia.
    - exact H2. }
  eapply wp_conseq; [exact Hsession| |done]. intros [] c1 [n H1]; cbn [negb]; [|wp_step; by exists n].
  wp_step. eapply wp_conseq; [by apply (sound_shutdown o im0)| |].
  2:{ intros h c2 [Hh H2]. by split; [|exists n]. }
  intros [] c2 [_ H2]. do 2 wp_step. destruct (validate_report _); [|wp_step; by exists n].
  unfold print. do 5 wp_step. by exists n.
Qed.

Lemma run_steady order error_message draws args o bound dir accepts selects c r :
  coordinator_options args = Some o -> enough_draws o draws ->
  coordinator_run order error_message draws o bound dir accepts selects = (Some c, r) ->
  r <> Err OutOfFuel /\ exists im n, create o dir = Ok im /\ steady o n im c.
Proof.
  intros Hopts%coordinator_options_ok Hdraws. unfold coordinator_run.
  destruct bound as [port|]; [|done]. destruct (create o dir) as [im|]; [|done]. intros H.
  set (c0 := new_coordinator o im accepts selects) in *.
  assert (steady o 0 im c0) as H0 by (split_and!; [done|done|by exists []]).
  match type of H with (let '(_, _) := ?m _ in _) = _ =>
    assert (wp m (fun _ c' => exists n, steady o n im c')
      (fun h c' => h <> OutOfFuel /\ exists n, steady o n im c') c0) as Hrun end.
  { unfold print. wp_step. destruct (co_port o =? 0); wp_step; by apply (sound_serve _ _ draws o im). }
  unfold wp in Hrun.
  match type of H with (let '(_, _) := ?x in _) = _ => destruct x as [c1 [a|h]] end;
    injection H as <- <-.
  - destruct Hrun as [n Hn]. split; [done | by exists im, n].
  - destruct Hrun as [Hh [n Hn]]. split; [congruence | by exists im, n].
Qed.

(** ** Properties *)

(** C18 The coordinator's own loops end: for every accepted command
    line, whatever the network, the disk and the workers do, the process exits,
    crashes where [--exit-after] says so, or is waiting in a system call; none of
    its loops (the workload generator, the rounds, the drain of one peer's
    frames) runs past the bound the model gives it. *)
Theorem coordinator_terminates (order : gmap N OpenAttempt -> list N)
  (error_message : ErrorCode -> string) (draws : nat) (args : list string)
  (o : CoordinatorOptions) (bound : Res N) (dir : StateDirectory) (accepts : list (Res Socket))
  (selects : list SelectAnswer)
  (Hopts : coordinator_options args = Some o)
  (Hdraws : co_interval o < N.of_nat draws /\ 4 < N.of_nat draws) :
  snd (coordinator_run order error_message draws o bound dir accepts selects) <> Err OutOfFuel.
Proof.
  destruct (coordinator_run _ _ _ _ _ _ _ _) as [[c|] r] eqn:H.
  - by apply (run_steady _ _ _ args) in H as [H _].
  - unfold coordinator_run in H. repeat case_match; by simplify_eq.
Qed.

Lemma coordinator_terminates_witness :
  snd (coordinator_run map_keys error_code_string 5 Rehearsal.coordinator (Ok 4000)
         Rehearsal.directory (Rehearsal.connection (Rehearsal.script 0)) []) <> Err OutOfFuel.
Proof.
  apply (coordinator_terminates map_keys error_code_string 5 Rehearsal.coordinator_args).
  - vm_compute. reflexivity.
  - vm_compute. split; reflexivity.
Defined.
